(* ===== verification/_CoqProject ===== *)
-Q . S2P
Prelude.v
GoText.v
GoMath.v
Migrate.v
Proto.v
EventStore.v
Ledger.v
Effects.v
Contention.v
Safety.v
Validate.v
Postgres.v
RealClient.v
Wallet.v
Holder.v
Token.v
TransferState.v
Alone.v
TransferManifest.v
TransferSaga.v
TransferServer.v
TransferLegal.v
TransferSafety.v
HolderSafety.v
Dag.v
TransactionState.v
TransactionSaga.v
Simulate.v
Orchestrator.v
Telemetry.v
ResumeDriver.v
Consumer.v
ConsumerSafety.v
ConsumerProgress.v
KafkaReader.v
OrchestratorCmd.v
TelemetryProcess.v
TelemetryLog.v
TransactionLegal.v
TransactionSafety.v
SimulateSafety.v
SimulateLoad.v
SimulateReport.v
Protocol.v
Scenario.v
TransferRest.v
SimulateRun.v
System.v
Decisions.v
TlaTrace.v
Rpc.v
Startup.v
TransferMoney.v
Progress.v
Hazards.v
ResumeSelection.v
EventsRender.v
Events.v
