(* ===== verification/Prelude.v ===== *)
(** * MoneyFlow: a verification of the Go services under [src/go]

    MoneyFlow moves money between Wallets. Every fact is a Domain Event on the
    stream of one aggregate, and every decision is an append that succeeds only
    when the streams it writes are where the writer last saw them. The ledger
    (TigerBeetle) is the second store; nothing is atomic across the two, so each
    Transfer is a small saga (accepted, prepared, then committed, or staged,
    pending and committed, or cancelled, or failed) whose ledger work is done
    under a claim event, and a Transaction is a saga over Transfers ordered by a
    DAG: forward while every child completes, backward (cancelling or reversing
    each child, dependents first) once one fails. Both sagas are driven by at
    least once delivery of the event log, and any number of drivers may run at a
    time.

    ** How the code is modelled

    Pure Go functions are Gallina functions of the same name. A handler or saga
    step is a program of the type [Effects.M]: a tree of the store, ledger and
    clock operations it calls, each with a continuation for the answer, errors
    included. [Effects.exec] says what each operation does to a [World] (event
    log, ledger, clock); at every operation the environment may first change
    the world and may make the operation fail, which is how crashes, timeouts and
    a context that ended are modelled. [Protocol.reaches] interleaves any number
    of handlers of all services, one operation at a time, any of which may be
    abandoned at any operation. A Go [error] is the record [error] of this file
    (Twirp code, sentinels, text); messages of the log are the inductive
    [Proto.message], one constructor for each protobuf message the services
    record.

    Integers are [Z] with the Go width written out where it matters ([u64],
    [i64]). A map ranged by Go is a [gmap] together with the order it is ranged
    in, and theorems hold for every order. Loops Go does not bound take fuel and
    running out is the error [OutOfFuel] that nothing else produces; safety
    theorems hold for every fuel, and where the code returns because a loop ends
    the fuel is proved enough ([Dag.validateDAG_total],
    [Progress.consequences_terminate], [TransferRest.Resume_comes_to_rest],
    [SimulateReport.seedAll_batches]).

    Code that is not under [src/] is a parameter: protobuf encoding is the class
    [EventStore.Codec] with the law that decoding inverts encoding, the UUID
    parser and SHA-256 are classes of [Validate], with concrete instances that
    satisfy the laws, Postgres' reading of a uuid is [Postgres.PgUuid], TigerBeetle
    is [RealClient.TigerBeetle], the JSON decoding of a delivered message is
    [Orchestrator.EnvelopeJSON], the effect of a migration's SQL is an argument of
    [Migrate], and Twirp's table of statuses is [TelemetryProcess.TwirpStatus]. The texts of errors are abbreviated where nothing reads
    them.

    ** The files

    - [Prelude]: errors, results, machine integers, list lemmas, tactics.
    - [Proto]: the published messages ([proto/]) and their names.
    - [EventStore]: [eventstore/store.go], [memory.go]: batches, optimistic
      concurrency, [Claim], decoding. Batches are all or nothing, one of several
      racing claims wins, streams stay gap free.
    - [Ledger]: [ledger/]: types, currencies and the fake client with linked
      chains, pending transfers and limits. Double entry, atomic chains, retries.
    - [Effects], [Safety]: programs, the world, interleaving, and the rule by
      which a program keeps every stream legal under interference (rely and
      guarantee).
    - [Contention]: [contention/contention.go]: the bounds of the backoff.
    - [Validate]: [id/], [money/], [detid/].
    - [Wallet], [Holder], [Token]: those services; [HolderSafety]: that they keep
      their streams legal.
    - [TransferState], [TransferManifest], [TransferSaga], [TransferServer]:
      [transfer/saga.go], [manifest.go], [owner.go], [server.go]: folds, leg
      selection, the saga, the RPC handlers. [TransferLegal] is the abstract
      specification of a Transfer stream, [TransferSafety] that every step
      keeps it.
    - [Dag]: [transaction/dag.go]; [TransactionState], [TransactionSaga]:
      [transaction/saga.go], [server.go]; [TransactionLegal] and
      [TransactionSafety] as for Transfers.
    - [Protocol]: the running system: all handlers, their interleavings, the
      invariant of the log; [Scenario]: concrete executions.
    - [System]: what the invariant says of every execution: completed means all
      children committed, rolled back means all undone, order of dispatch and of
      rollback, final states.
    - [Decisions]: answers of the RPCs are the recorded decisions.
    - [TransferMoney]: what the legs amount to: first in first out, exact totals,
      reversal as the inverse.
    - [Progress]: a started Transaction always has a next step; a rollback
      concludes.
    - [Hazards]: executions in which the code does not do what it means to.
    - [Postgres]: [eventstore/postgres.go] over the events table: it implements
      the store of [EventStore], faults of the connection included, and loads
      back what was appended.
    - [RealClient]: [ledger/real_client.go], the translation to and from
      TigerBeetle: balances are exact or an error. [RealLedger] is one of the
      clients the theorems of [System] quantify over.
    - [Orchestrator]: [saga/trigger.go], [orchestrator.go], [wiring.go].
    - [Consumer]: [saga/consumer.go] as a state machine, one step for each
      channel operation, call and select of its goroutines. [ConsumerSafety]:
      offsets committed never pass a message not handled, a halt is redelivered,
      a shutdown leaves nothing handled uncommitted; [ConsumerProgress]: [Run]
      returns, and the one way a handled message is given up.
    - [ResumeDriver], [ResumeSelection]: [cmd/resume]: the driver as a program
      that is one of the handlers of [Protocol], and what [-open] selects.
    - [Events]: [cmd/events]: the cursor over rows that become visible late, the
      follower, the filter and the polling loop; nothing is read twice or lost
      without the reasons the cursor has for giving up. [EventsRender]: the line an
      event is printed as: a payload is cut to whole runes, and the colours add
      nothing to the text.
    - [Alone], [TransferRest]: the same programs with nobody in the way: driving a
      Transfer ends, and leaves it where only the outside world moves it on. The
      fuel of 251 turns is the polls until a claim is stale, and one.
    - [GoMath]: float64 (as [SpecFloat] at 53 bits), durations as text and
      math/rand/v2's PCG, as far as [cmd/simulate] uses them.
    - [Simulate]: [cmd/simulate]: provisioning, seeding, the two drivers, waiting,
      the figures of a run and its verification, over the services as records of
      calls. [SimulateSafety]: the drivers against the class of what they need of
      the services, which the handlers meet: they keep to the protocol, and what a
      result without an error says is so. [SimulateLoad]: [runLoad] as a transition
      system of goroutines, and the random plan of a transfer. [SimulateReport]:
      expected balances, summary, batches of seeds. [SimulateRun]: the load within
      the whole system: it ends, and its results are true.
    - [KafkaReader]: [saga/kafkareader]: waiting for a topic against a reference
      that judges by outages, the lag as a count of unread messages.
    - [OrchestratorCmd]: [cmd/orchestrator]: one goroutine per topic around the
      verified consumer, the shared context and the first error: it stops once its
      context has ended, and returns no error only when asked to stop.
    - [Telemetry]: [internal/telemetry], the decorated store and ledger: any program
      over them does what it does over the bare ones, alone or under interference,
      and the counters agree with the log. [TelemetryProcess]: the observed saga
      step and RPC, the lag gauge, configuration, start, stop and flush.
      [TelemetryLog]: what is exported of the log is what is printed, and the pool's
      tracer calls an error a fault when the store does not call it a conflict.
    - [Migrate]: [cmd/migrate]: a run cut short anywhere leaves whole migrations, and
      the next run finishes the work; [down] undoes the last.
    - [TlaTrace]: [internal/tlatrace]: the recorder, the recording store, the
      interceptor and the trace files; every trace of the two requests that open a
      Transfer stream is one the Worker of the TLA+ design [spec/eventstore.tla]
      can make.
    - [Rpc]: the generated Twirp code, client and server, as the one template it is,
      and [newMux] of [cmd/server]: a call over HTTP is the call of its handler, so
      what is proved of the handlers holds for their clients, and the server runs
      nothing else whatever it is sent.
    - [Startup]: how [cmd/server], [cmd/orchestrator] and [cmd/resume] read their
      environment, open, use and close what they need; the resolution of
      TigerBeetle's addresses. [GoText]: strings and numbers as text, as Go has them.

    ** Not modelled

    The protobuf code and the hooks and error metadata of the generated Twirp code,
    OpenTelemetry and the HTTP wrapper of [internal/telemetry],
    the Kafka client, the database driver, the HTTP server and client themselves, the JSON
    output of [cmd/events], the load summary [cmd/simulate] prints, and
    [internal/testutil], which only tests use: I/O or observation without decisions
    of the domain. The Ruby and web front ends talk to the same RPCs and are outside
    the Go program. *)

From stdpp Require Export base tactics numbers option list gmap strings fin_maps sorting pretty.
From Stdlib Require Export ZArith Lia.

#[global] Open Scope string_scope.
#[global] Open Scope Z_scope.
#[global] Open Scope list_scope.

(** ** Errors as values

    A Go [error] is described by what the program ever asks of one: the Twirp
    code it carries, if any ([twirp.Error.Code]), the sentinels [errors.Is]
    finds through its wrapping, and its text. *)

(** The package-level sentinel errors of the program, the context's own error,
    and [OutOfFuel], the one value the model adds: a loop the source does not
    bound is given fuel, and running out is this error and no other. *)
Inductive sentinel : Type :=
| ErrConcurrencyConflict
| ErrDuplicateStream
| ErrInvalidRequest
| ErrBatchTooLarge
| ErrBatchEndsInLinkedChain
| errBatchRejected
| errClaimSuperseded
| errAbandonedClaim
| errPlanOvertaken
| ContextDone
| OutOfFuel.

#[global] Instance sentinel_eq_dec : EqDecision sentinel.
Proof. solve_decision. Defined.

(** The Twirp codes the program uses. *)
Inductive twirp_code : Type :=
| Internal | InvalidArgument | FailedPrecondition | NotFound | Aborted.

#[global] Instance twirp_code_eq_dec : EqDecision twirp_code.
Proof. solve_decision. Defined.

Record error : Type := mkError {
  e_code : option twirp_code;
  e_is   : list sentinel;
  e_msg  : string
}.

(** [errors.New] / [fmt.Errorf] without [%w]. *)
Definition plain (msg : string) : error := mkError None [] msg.

(** A sentinel on its own. *)
Definition sentinel_error (s : sentinel) (msg : string) : error := mkError None [s] msg.

(** [fmt.Errorf("...%w", err)]: the text is prefixed and [errors.Is] still sees
    through; the result is no longer itself a [twirp.Error]. *)
Definition wrapf (msg : string) (e : error) : error :=
  mkError None (e_is e) (msg +:+ e_msg e).

(** [twirp.InternalErrorWith(err)] *)
Definition InternalErrorWith (e : error) : error :=
  mkError (Some Internal) (e_is e) (e_msg e).

(** [twirp.InternalError(msg)] and [twirp.NewError(code, msg)] *)
Definition NewError (c : twirp_code) (msg : string) : error := mkError (Some c) [] msg.
Definition InternalError (msg : string) : error := NewError Internal msg.

(** [twirp.RequiredArgumentError(arg)] is [InvalidArgumentError(arg, "is required")],
    whose text is the argument followed by the message. *)
Definition InvalidArgumentError (arg msg : string) : error :=
  NewError InvalidArgument (arg +:+ " " +:+ msg).
Definition RequiredArgumentError (arg : string) : error :=
  InvalidArgumentError arg "is required".

(** [errors.Is(err, s)] *)
Definition Is (e : error) (s : sentinel) : bool := bool_decide (s ∈ e_is e).

Inductive result (A : Type) : Type :=
| Ok (a : A)
| Err (e : error).
Arguments Ok {A} _.
Arguments Err {A} _.

Definition rbind {A B} (r : result A) (f : A → result B) : result B :=
  match r with Ok a => f a | Err e => Err e end.

Definition rmap {A B} (f : A → B) (r : result A) : result B :=
  match r with Ok a => Ok (f a) | Err e => Err e end.

Definition rmap_err {A} (f : error → error) (r : result A) : result A :=
  match r with Ok a => Ok a | Err e => Err (f e) end.

Declare Scope go_scope.
Delimit Scope go_scope with go.
Notation "'let?' x ':=' c 'in' k" := (rbind c (fun x => k))
  (at level 200, x pattern, c at level 100, k at level 200) : go_scope.
#[global] Open Scope go_scope.

(** [for _, x := range xs { acc, err = f(acc, x); if err != nil { return err } }] *)
Fixpoint rfold {A B} (f : A → B → result A) (acc : A) (xs : list B) : result A :=
  match xs with
  | [] => Ok acc
  | x :: xs => let? acc' := f acc x in rfold f acc' xs
  end.

(** ** Machine integers

    [uint64] and [int64] values are integers in range; arithmetic that can
    leave the range wraps. *)
Definition two64 : Z := 2 ^ 64.
Definition MaxInt64 : Z := 2 ^ 63 - 1.
Definition u64 (z : Z) : Z := z mod two64.
Definition i64 (z : Z) : Z := let m := u64 z in if m <=? MaxInt64 then m else m - two64.
Definition in_u64 (z : Z) : Prop := 0 ≤ z < two64.
Definition in_i64 (z : Z) : Prop := - 2 ^ 63 ≤ z < 2 ^ 63.

Notation len xs := (Z.of_nat (length xs)).

Lemma u64_range z : in_u64 (u64 z).
Proof. unfold in_u64, u64, two64. apply Z.mod_pos_bound. lia. Qed.

Lemma u64_small z : in_u64 z → u64 z = z.
Proof. unfold in_u64, u64. apply Z.mod_small. Qed.

Lemma i64_small z : in_i64 z → i64 z = z.
Proof.
  unfold in_i64, i64, u64, two64, MaxInt64. intros Hz.
  destruct (Z.leb_spec (z mod 2 ^ 64) (2 ^ 63 - 1)) as [Hle|Hgt].
  - destruct (Z.leb_spec 0 z) as [Hp|Hn].
    + apply Z.mod_small. lia.
    + rewrite <- (Z.mod_add z 1 (2 ^ 64)) in Hle by lia. rewrite Z.mod_small in Hle; lia.
  - destruct (Z.leb_spec 0 z) as [Hp|Hn].
    + rewrite Z.mod_small in Hgt; lia.
    + rewrite <- (Z.mod_add z 1 (2 ^ 64)) by lia. rewrite Z.mod_small; lia.
Qed.

(** ** Text *)

Definition dquote : string := String (Ascii.ascii_of_nat 34) EmptyString.
(** [%q] of a string that needs no escaping, which every id the program
    accepts is (a canonical UUID). *)
Definition quoted (s : string) : string := dquote +:+ s +:+ dquote.
(** [%d] *)
Definition decimal (z : Z) : string := pretty z.

(** ** Automation *)

(** Split the scrutinee of the first [match] in the goal or a hypothesis. *)
Ltac destr_match :=
  match goal with
  | |- context [match ?x with _ => _ end] => destruct x eqn:?
  end.
Ltac destr_match_in H :=
  match type of H with
  | context [match ?x with _ => _ end] => destruct x eqn:?
  end.

(** A closed equation, by evaluating both sides. *)
Ltac evaluate := match goal with |- _ = ?b => vm_cast_no_check (eq_refl b) end.

(** A closed decidable statement, by deciding it. *)
Ltac decided := apply (bool_decide_unpack _); vm_compute; exact I.

Create HintDb money.

(** ** Lists and prefixes *)

Lemma filter_none {A} (P : A → Prop) `{∀ x, Decision (P x)} (l : list A) : (∀ x, x ∈ l → ¬ P x) → filter P l = [].
Proof.
  induction l as [|x l IH]; intros Hl; [done|]. rewrite filter_cons_False by (apply Hl; left). apply IH. intros. apply Hl. by right.
Qed.

Lemma filter_every {A} (P : A → Prop) `{∀ x, Decision (P x)} (l : list A) : (∀ x, x ∈ l → P x) → filter P l = l.
Proof.
  induction l as [|x l IH]; intros Hl; [done|]. rewrite filter_cons_True by (apply Hl; left). f_equal. apply IH. intros. apply Hl. by right.
Qed.

Lemma NoDup_fmap_filter {A B} (f : A → B) (P : A → Prop) `{∀ x, Decision (P x)} (l : list A) :
  NoDup (f <$> l) → NoDup (f <$> filter P l).
Proof.
  induction l as [|x l IH]; simpl; [done|]. intros [Hnin Hnd]%NoDup_cons. rewrite filter_cons. case_decide; simpl; [|by apply IH].
  constructor; [|by apply IH]. intros (y & Heq & Hy)%list_elem_of_fmap. apply list_elem_of_filter in Hy as [_ Hy].
  apply Hnin, list_elem_of_fmap. eauto.
Qed.

Section lists.
Context {A : Type}.
Implicit Types l k : list A.

(** What an append at the loaded length relies on: a stream that only grew
    and still has the loaded length is the loaded stream. *)
Lemma prefix_same_length l k : l `prefix_of` k → length l = length k → l = k.
Proof.
  intros [j ->] Hlen. rewrite length_app in Hlen.
  destruct j; simpl in Hlen; [by rewrite app_nil_r | lia].
Qed.

Lemma prefix_length_le l k : l `prefix_of` k → (length l ≤ length k)%nat.
Proof. intros [j ->]. rewrite length_app. lia. Qed.

Lemma head_prefix l k x : l `prefix_of` k → head l = Some x → head k = Some x.
Proof. intros [j ->]. by destruct l. Qed.
End lists.

Lemma rfold_app {A B} (f : A → B → result A) acc xs ys :
  rfold f acc (xs ++ ys) = let? acc' := rfold f acc xs in rfold f acc' ys.
Proof. revert acc. induction xs as [|x xs IH]; intros acc; [done|]. simpl. destruct (f acc x); simpl; [apply IH | done]. Qed.

Lemma rfold_invariant {A B} (f : A → B → result A) (P : A → Prop) acc xs acc' :
  (∀ a b a', b ∈ xs → P a → f a b = Ok a' → P a') →
  P acc → rfold f acc xs = Ok acc' → P acc'.
Proof.
  revert acc. induction xs as [|x xs IH]; intros acc Hstep HP Hf; simpl in Hf; [by simplify_eq|].
  destruct (f acc x) as [a|e] eqn:Hx; simplify_eq/=.
  eapply IH; [|eapply Hstep; [left|exact HP|exact Hx]|exact Hf].
  intros ????; eapply Hstep. by right.
Qed.

#[export] Hint Resolve prefix_length_le head_prefix u64_range : money.

(** ** Sums over finite maps *)

Section msum.
Context {K : Type} `{Countable K} {V : Type} (f : V → Z).

Definition msum (m : gmap K V) : Z := map_fold (λ _ v acc, f v + acc) 0 m.

Lemma msum_empty : msum ∅ = 0.
Proof. apply map_fold_empty. Qed.

Lemma msum_insert_new m k v : m !! k = None → msum (<[k := v]> m) = f v + msum m.
Proof. intros Hk. unfold msum. rewrite map_fold_insert_L; [done| intros; lia |done]. Qed.

Lemma msum_insert m k old v : m !! k = Some old → msum (<[k := v]> m) = msum m - f old + f v.
Proof.
  intros Hk. rewrite <- (insert_delete_id m k old Hk) at 2.
  rewrite <- insert_delete_eq. rewrite !msum_insert_new by apply lookup_delete_eq. lia.
Qed.
End msum.

Lemma u64_cong z : ∃ q, u64 z = z + q * two64.
Proof. exists (- (z / two64)). unfold u64. rewrite Z.mod_eq by (unfold two64; lia). lia. Qed.
