(* ===== verification/GoText.v ===== *)
(** * Text as the standard library has it ([strings], [strconv], [os.Getenv])

    What the commands use of [strings] and [strconv] on ASCII text: trimming,
    lower case, splitting and joining, and reading numbers with the range checks of
    [strconv], whose loop is written out with its wrap-around. *)

From S2P Require Import Prelude.

(** ** strings *)

(** [unicode.IsSpace] and [strings.ToLower] on ASCII text. *)
Definition isSpace (a : Ascii.ascii) : bool :=
  let n := Ascii.nat_of_ascii a in ((9 <=? n) && (n <=? 13) || (n =? 32))%nat.

Fixpoint trimLeft (s : string) : string :=
  match s with
  | EmptyString => EmptyString
  | String a r => if isSpace a then trimLeft r else s
  end.

Fixpoint trimRight (s : string) : string :=
  match s with
  | EmptyString => EmptyString
  | String a r =>
      match trimRight r with
      | EmptyString => if isSpace a then EmptyString else String a EmptyString
      | r => String a r
      end
  end.

Definition TrimSpace (s : string) : string := trimRight (trimLeft s).

Definition lower (a : Ascii.ascii) : Ascii.ascii :=
  let n := Ascii.nat_of_ascii a in
  if ((65 <=? n) && (n <=? 90))%nat then Ascii.ascii_of_nat (n + 32) else a.

Fixpoint ToLower (s : string) : string :=
  match s with EmptyString => EmptyString | String a r => String (lower a) (ToLower r) end.

(** [strings.Split(s, sep)], of a separator of one byte, and [strings.Join]. *)
Fixpoint Split (sep : Ascii.ascii) (s : string) : list string :=
  match s with
  | EmptyString => [EmptyString]
  | String a r =>
      if Ascii.eqb a sep then EmptyString :: Split sep r
      else match Split sep r with [] => [String a EmptyString] | x :: xs => String a x :: xs end
  end.

Fixpoint Join (sep : Ascii.ascii) (parts : list string) : string :=
  match parts with
  | [] => EmptyString
  | [x] => x
  | x :: xs => x +:+ String sep (Join sep xs)
  end.

Definition comma : Ascii.ascii := Ascii.ascii_of_nat 44.
Definition slash : Ascii.ascii := Ascii.ascii_of_nat 47.

(** [strings.Contains] *)
Fixpoint Contains (s sub : string) : bool :=
  String.prefix sub s || match s with EmptyString => false | String _ r => Contains r sub end.

Lemma append_assoc (a b c : string) : (a +:+ b) +:+ c = a +:+ (b +:+ c).
Proof. induction a as [|x a IH]; [done|]. change (String x ((a +:+ b) +:+ c) = String x (a +:+ (b +:+ c))). by rewrite IH. Qed.

(** Whether a byte occurs. *)
Fixpoint occurs (c : Ascii.ascii) (s : string) : bool :=
  match s with EmptyString => false | String a r => Ascii.eqb a c || occurs c r end.

Lemma Split_nonempty sep s : Split sep s ≠ [].
Proof. destruct s as [|a s]; simpl; [done|]. destruct (Ascii.eqb a sep); [done|]. by destruct (Split sep s). Qed.

Lemma Join_Split sep s : Join sep (Split sep s) = s.
Proof.
  induction s as [|a s IH]; [done|]. simpl. pose proof (Split_nonempty sep s) as Hne.
  destruct (Ascii.eqb_spec a sep) as [->|_].
  - destruct (Split sep s) as [|x xs]; [done|]. rewrite <- IH. by destruct xs.
  - destruct (Split sep s) as [|x xs]; [done|]. rewrite <- IH. by destruct xs.
Qed.

(** What is left of the first separator, and what is right of it. *)
Lemma Split_app sep x s : occurs sep x = false → Split sep (x +:+ String sep s) = x :: Split sep s.
Proof.
  induction x as [|a x IH]; simpl; [by rewrite Ascii.eqb_refl|]. intros [Ha Hx]%orb_false_iff.
  rewrite Ha. change (String.append x (String sep s)) with (x +:+ String sep s). by rewrite IH.
Qed.

Lemma Split_single sep x : occurs sep x = false → Split sep x = [x].
Proof. induction x as [|a x IH]; simpl; [done|]. intros [-> Hx]%orb_false_iff. by rewrite IH. Qed.

Lemma Split_Join sep parts :
  parts ≠ [] → Forall (λ x, occurs sep x = false) parts → Split sep (Join sep parts) = parts.
Proof.
  intros Hne Hall. induction Hall as [|x xs Hx Hxs IH]; [done|]. destruct xs as [|y ys]; [by apply Split_single|].
  change (Join sep (x :: y :: ys)) with (x +:+ String sep (Join sep (y :: ys))). by rewrite Split_app, IH.
Qed.

(** ** strconv *)

Definition ErrSyntax : error := plain "invalid syntax".
Definition ErrRange : error := plain "value out of range".

#[export] Instance error_eq_dec : EqDecision error.
Proof. solve_decision. Defined.

Definition MaxUint64 : Z := two64 - 1.

(** The loop of [strconv.ParseUint] in base 10: [n] so far, the arithmetic that of
    [uint64]. *)
Fixpoint parseDigits (maxVal n : Z) (s : string) : result Z :=
  match s with
  | EmptyString => Ok n
  | String a r =>
      let c := Z.of_N (Ascii.N_of_ascii a) in
      if negb ((48 <=? c) && (c <=? 57)) then Err ErrSyntax
      else
        let d := c - 48 in
        if MaxUint64 / 10 + 1 <=? n then Err ErrRange
        else
          let n := u64 (n * 10) in
          let n1 := u64 (n + d) in
          if (n1 <? n) || (maxVal <? n1) then Err ErrRange else parseDigits maxVal n1 r
  end.

Definition ParseUint (s : string) (bitSize : Z) : result Z :=
  if bool_decide (s = "") then Err ErrSyntax else parseDigits (2 ^ bitSize - 1) 0 s.

(** A range error of [ParseUint] comes with its largest value, which the checks
    that follow refuse too. *)
Definition ParseInt (s : string) (bitSize : Z) : result Z :=
  if bool_decide (s = "") then Err ErrSyntax
  else
    let '(neg, rest) :=
      match s with
      | String a r =>
          if Ascii.eqb a (Ascii.ascii_of_nat 43) then (false, r)
          else if Ascii.eqb a (Ascii.ascii_of_nat 45) then (true, r) else (false, s)
      | EmptyString => (false, s)
      end in
    let? un :=
      match ParseUint rest bitSize with
      | Ok un => Ok un
      | Err e => if bool_decide (e = ErrRange) then Ok (2 ^ bitSize - 1) else Err e
      end in
    let cutoff := 2 ^ (bitSize - 1) in
    if negb neg && (cutoff <=? un) then Err ErrRange
    else if neg && (cutoff <? un) then Err ErrRange
    else Ok (if neg then - un else un).

(** *** The loop, exactly *)

(** One digit, without the wrap-around: the value is too large or it is not. *)
Lemma parseDigits_digit maxVal n d s :
  0 ≤ n ≤ maxVal → maxVal ≤ MaxUint64 → 0 ≤ d ≤ 9 →
  parseDigits maxVal n (String (Ascii.ascii_of_N (Z.to_N (48 + d))) s) =
    if maxVal <? n * 10 + d then Err ErrRange else parseDigits maxVal (n * 10 + d) s.
Proof.
  intros Hn Hmax Hd. cbn [parseDigits]. rewrite Ascii.N_ascii_embedding by lia. rewrite Z2N.id by lia.
  replace ((48 <=? 48 + d) && (48 + d <=? 57)) with true by lia. cbn [negb].
  replace (48 + d - 48) with d by lia. unfold MaxUint64 in *. pose proof (Z_div_mod_eq_full (two64 - 1) 10).
  pose proof (Z.mod_pos_bound (two64 - 1) 10). unfold two64 in *. destruct (Z.leb_spec ((2 ^ 64 - 1) / 10 + 1) n).
  - destruct (Z.ltb_spec maxVal (n * 10 + d)); [done|lia].
  - rewrite (u64_small (n * 10)) by (unfold in_u64, two64; lia).
    destruct (decide (n * 10 + d < 2 ^ 64)) as [Hlt|Hge].
    + rewrite u64_small by (unfold in_u64, two64; lia). by replace (n * 10 + d <? n * 10) with false by lia.
    + assert (u64 (n * 10 + d) = n * 10 + d - 2 ^ 64) as ->.
      { symmetry. apply (Z.mod_unique _ _ 1); unfold two64; lia. }
      replace (n * 10 + d - 2 ^ 64 <? n * 10) with true by lia. by replace (maxVal <? n * 10 + d) with true by lia.
Qed.

Lemma parseDigits_range maxVal n s m : 0 ≤ n ≤ maxVal → parseDigits maxVal n s = Ok m → 0 ≤ m ≤ maxVal.
Proof.
  revert n. induction s as [|a s IH]; intros n Hn; cbn [parseDigits]; [by intros [= <-]|].
  destruct (negb _); [done|]. destruct (_ <=? n); [done|]. cbv zeta. destruct (_ || _) eqn:Hc; [done|].
  apply orb_false_iff in Hc as [_ Hc%Z.ltb_ge]. apply IH. pose proof (u64_range (u64 (n * 10) + (Z.of_N (Ascii.N_of_ascii a) - 48))).
  unfold in_u64 in *. lia.
Qed.

Lemma ParseUint_range s b n : 0 ≤ b → ParseUint s b = Ok n → 0 ≤ n < 2 ^ b.
Proof.
  unfold ParseUint. intros Hb. case_bool_decide; [done|]. intros Hp.
  pose proof (Z.pow_pos_nonneg 2 b). apply parseDigits_range in Hp; lia.
Qed.

(** [strconv.ParseInt] answers nothing outside of its width. *)
Lemma ParseInt_range s b n : 0 < b → ParseInt s b = Ok n → - 2 ^ (b - 1) ≤ n < 2 ^ (b - 1).
Proof.
  intros Hb. unfold ParseInt. case_bool_decide; [done|].
  destruct (match s with EmptyString => _ | String _ _ => _ end) as [neg rest].
  pose proof (Z.pow_pos_nonneg 2 b) as Hp. pose proof (Z.pow_pos_nonneg 2 (b - 1)) as Hp'.
  destruct (match ParseUint rest b with Ok _ => _ | Err _ => _ end) as [un|e] eqn:Hu; simpl; [|done].
  assert (0 ≤ un).
  { destruct (ParseUint rest b) as [un'|e] eqn:Hr; [injection Hu as <-; apply ParseUint_range in Hr; lia|].
    case_bool_decide; [injection Hu as <-; lia | done]. }
  destruct neg; simpl; [destruct (Z.ltb_spec (2 ^ (b - 1)) un)|destruct (Z.leb_spec (2 ^ (b - 1)) un)]; try done;
    intros [= <-]; lia.
Qed.

(** *** Reading back what was written *)

Lemma pretty_N_char_ascii x : (x < 10)%N → pretty_N_char x = Ascii.ascii_of_N (48 + x).
Proof. intros Hx. destruct x as [|p]; [done|]. by do 4 (destruct p as [p|p|]; try done; try lia). Qed.

Lemma div10 (x : N) : ∃ q r, (x `div` 10)%N = q ∧ (x `mod` 10)%N = r ∧ x = (10 * q + r)%N ∧ (r < 10)%N.
Proof. exists (x / 10)%N, (x mod 10)%N. split_and!; [done|done|apply N.div_mod'|by apply N.mod_lt]. Qed.

Lemma parse_pretty_go maxVal (x : N) s :
  Z.of_N x ≤ maxVal → maxVal ≤ MaxUint64 →
  parseDigits maxVal 0 (pretty_N_go x s) = parseDigits maxVal (Z.of_N x) s.
Proof.
  intros Hx Hmax. revert s. induction x as [x IH] using (well_founded_induction N.lt_wf_0). intros s.
  destruct (decide (x = 0%N)) as [->|Hne]; [by rewrite pretty_N_go_0|].
  rewrite pretty_N_go_step by lia. destruct (div10 x) as (q & r & -> & -> & Hq & Hr).
  rewrite IH by lia. rewrite pretty_N_char_ascii by lia.
  replace (48 + r)%N with (Z.to_N (48 + Z.of_N r)) by lia.
  rewrite parseDigits_digit by lia. replace (Z.of_N q * 10 + Z.of_N r) with (Z.of_N x) by lia.
  by replace (maxVal <? Z.of_N x) with false by lia.
Qed.

Lemma parse_pretty_large maxVal (x : N) s :
  0 ≤ maxVal < Z.of_N x → maxVal ≤ MaxUint64 → parseDigits maxVal 0 (pretty_N_go x s) = Err ErrRange.
Proof.
  revert s. induction x as [x IH] using (well_founded_induction N.lt_wf_0). intros s Hx Hmax.
  rewrite pretty_N_go_step by lia. destruct (div10 x) as (q & r & -> & -> & Hq & Hr).
  destruct (decide (Z.of_N q ≤ maxVal)) as [Hle|Hgt]; [|apply IH; lia].
  rewrite parse_pretty_go by lia. rewrite pretty_N_char_ascii by lia.
  replace (48 + r)%N with (Z.to_N (48 + Z.of_N r)) by lia.
  rewrite parseDigits_digit by lia. replace (Z.of_N q * 10 + Z.of_N r) with (Z.of_N x) by lia.
  by replace (maxVal <? Z.of_N x) with true by lia.
Qed.

Lemma pretty_N_go_digit (x : N) s : (0 < x)%N → ∃ d r, 0 ≤ d ≤ 9 ∧
  pretty_N_go x s = String (Ascii.ascii_of_N (Z.to_N (48 + d))) r.
Proof.
  revert s. induction x as [x IH] using (well_founded_induction N.lt_wf_0). intros s Hx. rewrite pretty_N_go_step by done.
  destruct (div10 x) as (q & r & -> & -> & Hq & Hr). destruct (decide (q = 0)%N) as [->|Hne].
  - rewrite pretty_N_go_0, pretty_N_char_ascii by lia. exists (Z.of_N r), s. split; [lia|]. do 2 f_equal. lia.
  - apply IH; lia.
Qed.

Lemma decimal_pos p : decimal (Zpos p) = pretty_N_go (Npos p) "".
Proof. done. Qed.

Lemma decimal_digit n : 0 ≤ n → ∃ d r, 0 ≤ d ≤ 9 ∧ decimal n = String (Ascii.ascii_of_N (Z.to_N (48 + d))) r.
Proof.
  intros Hn. destruct n as [|p|p]; [by exists 0, ""| |lia]. rewrite decimal_pos. by apply pretty_N_go_digit.
Qed.

(** A number written in decimal reads back, exactly when it fits. *)
Lemma ParseUint_decimal n b : 0 ≤ b ≤ 64 → 0 ≤ n → ParseUint (decimal n) b = if n <? 2 ^ b then Ok n else Err ErrRange.
Proof.
  intros Hb Hn. destruct (decimal_digit n Hn) as (d & r & Hd & Heq). unfold ParseUint.
  rewrite bool_decide_false by by rewrite Heq. clear d r Hd Heq.
  pose proof (Z.pow_le_mono_r 2 b 64). pose proof (Z.pow_pos_nonneg 2 b). unfold MaxUint64, two64 in *.
  destruct n as [|p|p]; [| |lia].
  - change (decimal 0) with (String (Ascii.ascii_of_N (Z.to_N (48 + 0))) "").
    rewrite parseDigits_digit by (unfold MaxUint64, two64; lia). replace (2 ^ b - 1 <? 0 * 10 + 0) with false by lia.
    by replace (0 <? 2 ^ b) with true by lia.
  - rewrite decimal_pos. destruct (Z.ltb_spec (Zpos p) (2 ^ b)).
    + rewrite parse_pretty_go by (unfold MaxUint64, two64; lia). done.
    + apply parse_pretty_large; unfold MaxUint64, two64; lia.
Qed.

Lemma ParseInt_decimal n b : 2 ≤ b ≤ 64 →
  ParseInt (decimal n) b = if (- 2 ^ (b - 1) <=? n) && (n <? 2 ^ (b - 1)) then Ok n else Err ErrRange.
Proof.
  intros Hb. assert (Hp : 2 ^ b = 2 * 2 ^ (b - 1)) by (rewrite <- Z.pow_succ_r by lia; f_equal; lia).
  assert (2 ≤ 2 ^ (b - 1)) by (change 2 with (2 ^ 1) at 1; apply Z.pow_le_mono_r; lia).
  unfold ParseInt. destruct (decide (0 ≤ n)) as [Hn|Hn].
  - destruct (decimal_digit n Hn) as (d & r & Hd & Heq). rewrite bool_decide_false by by rewrite Heq. rewrite Heq at 1.
    assert (∀ c, (c < 48)%nat → Ascii.eqb (Ascii.ascii_of_N (Z.to_N (48 + d))) (Ascii.ascii_of_nat c) = false) as Hc.
    { intros c Hc. apply Ascii.eqb_neq. intros He%(f_equal Ascii.N_of_ascii).
      rewrite Ascii.N_ascii_embedding in He by lia. unfold Ascii.ascii_of_nat in He.
      rewrite Ascii.N_ascii_embedding in He by lia. lia. }
    rewrite !Hc by lia. rewrite ParseUint_decimal by lia. destruct (Z.ltb_spec n (2 ^ b)); simpl.
    + destruct (Z.leb_spec (2 ^ (b - 1)) n), (Z.leb_spec (- 2 ^ (b - 1)) n), (Z.ltb_spec n (2 ^ (b - 1))); simpl; done || lia.
    + replace (2 ^ (b - 1) <=? 2 ^ b - 1) with true by lia.
      destruct (Z.leb_spec (- 2 ^ (b - 1)) n), (Z.ltb_spec n (2 ^ (b - 1))); simpl; done || lia.
  - destruct n as [|p|p]; [lia|lia|]. change (decimal (Zneg p)) with (String (Ascii.ascii_of_nat 45) (decimal (Zpos p))).
    rewrite bool_decide_false by done. simpl Ascii.eqb. cbv iota beta. rewrite ParseUint_decimal by lia.
    destruct (Z.ltb_spec (Zpos p) (2 ^ b)); simpl.
    + destruct (Z.ltb_spec (2 ^ (b - 1)) (Zpos p)), (Z.leb_spec (- 2 ^ (b - 1)) (Zneg p)), (Z.ltb_spec (Zneg p) (2 ^ (b - 1))); simpl; done || lia.
    + destruct (Z.ltb_spec (2 ^ (b - 1)) (2 ^ b - 1)), (Z.leb_spec (- 2 ^ (b - 1)) (Zneg p)), (Z.ltb_spec (Zneg p) (2 ^ (b - 1)));
        simpl; try done; lia.
Qed.
