(* ===== verification/GoMath.v ===== *)
(** * float64 and math/rand/v2

    What [go/cmd/simulate] uses of Go's numeric library: IEEE 754 double precision
    ([SpecFloat] at precision 53, whose operations round to nearest even), and the
    PCG generator with [IntN] and [Float64] on top of it. A generator is its state;
    a draw returns the next one. *)

From Stdlib Require Import SpecFloat.
From S2P Require Import Prelude.

(** ** float64 *)

Notation float64 := spec_float.

(** [float64(z)], and [z * 2^e]. *)
Definition f64 (z : Z) : float64 := binary_normalize 53 1024 z 0 false.
Definition f64_exp (z e : Z) : float64 := binary_normalize 53 1024 z e false.
Definition fmul : float64 → float64 → float64 := SFmul 53 1024.
Definition fdiv : float64 → float64 → float64 := SFdiv 53 1024.
Definition fadd : float64 → float64 → float64 := SFadd 53 1024.
Definition fltb : float64 → float64 → bool := SFltb.

(** [int(x)], toward zero; only asked of finite numbers in range. *)
Definition truncate (x : float64) : Z :=
  match x with
  | S754_finite s m e =>
      let a := if 0 <=? e then Zpos m * 2 ^ e else Zpos m / 2 ^ (- e) in
      if s then - a else a
  | _ => 0
  end.

(** [time.Duration.Seconds] *)
Definition Seconds (d : Z) : float64 :=
  fadd (f64 (Z.quot d 1000000000)) (fdiv (f64 (Z.rem d 1000000000)) (f64 1000000000)).

(** [time.Duration.String]: [prec] digits of a fraction without its trailing zeros. *)
Fixpoint fmtFrac (prec : nat) (v : Z) (shown : string) : string * Z :=
  match prec with
  | O => (if bool_decide (shown = "") then "" else "." +:+ shown, v)
  | S prec =>
      let digit := v mod 10 in
      fmtFrac prec (v / 10) (if bool_decide (digit = 0 ∧ shown = "") then "" else decimal digit +:+ shown)
  end.

Definition durationString (d : Z) : string :=
  let u := Z.abs d in
  let text :=
    if u =? 0 then "0s"
    else if u <? 1000000000 then
      let '(prec, suffix) := if u <? 1000 then (0%nat, "ns") else if u <? 1000000 then (3%nat, "µs") else (6%nat, "ms") in
      let '(frac, v) := fmtFrac prec u "" in decimal v +:+ frac +:+ suffix
    else
      let '(frac, s) := fmtFrac 9 u "" in
      let seconds := decimal (s mod 60) +:+ frac +:+ "s" in
      let m := s / 60 in
      if m =? 0 then seconds
      else
        let minutes := decimal (m mod 60) +:+ "m" +:+ seconds in
        if m / 60 =? 0 then minutes else decimal (m / 60) +:+ "h" +:+ minutes in
  if d <? 0 then "-" +:+ text else text.

Example durations :
  durationString <$> [0; 999; 1500; 20000000; 1500000000; 60000000000; 5400000000000; -250000000] =
  ["0s"; "999ns"; "1.5µs"; "20ms"; "1.5s"; "1m0s"; "1h30m0s"; "-250ms"].
Proof. reflexivity. Qed.

(** ** math/rand/v2 *)

Record PCG : Type := mkPCG { pcg_hi : Z; pcg_lo : Z }.

Definition two128 : Z := 2 ^ 128.
Definition pcg_mul : Z := 2549297995355413924 * two64 + 4865540595714422341.
Definition pcg_inc : Z := 6364136223846793005 * two64 + 1442695040888963407.

Definition NewPCG (seed1 seed2 : Z) : PCG := mkPCG (u64 seed1) (u64 seed2).

(** [PCG.next]: the 128-bit state, multiplied and incremented. *)
Definition pcg_next (p : PCG) : PCG :=
  let s := ((pcg_hi p * two64 + pcg_lo p) * pcg_mul + pcg_inc) mod two128 in
  mkPCG (s / two64) (s mod two64).

Definition Uint64 (p : PCG) : Z * PCG :=
  let p := pcg_next p in
  let hi := pcg_hi p in
  let hi := Z.lxor hi (Z.shiftr hi 32) in
  let hi := u64 (hi * 15750249268501108917) in
  let hi := Z.lxor hi (Z.shiftr hi 48) in
  (u64 (hi * Z.lor (pcg_lo p) 1), p).

(** [for lo < thresh]: draws until one is not in the biased remainder. *)
Fixpoint redraw (fuel : nat) (n thresh : Z) (x : Z) (p : PCG) : option (Z * PCG) :=
  if x * n mod two64 <? thresh then
    match fuel with
    | O => None
    | S fuel => let '(x, p) := Uint64 p in redraw fuel n thresh x p
    end
  else Some (x * n / two64, p).

(** [Rand.uint64n] for [n > 0], on a 64-bit machine. *)
Definition uint64n (fuel : nat) (n : Z) (p : PCG) : option (Z * PCG) :=
  let '(x, p) := Uint64 p in
  if Z.land n (n - 1) =? 0 then Some (Z.land x (n - 1), p)
  else redraw fuel n (if x * n mod two64 <? n then u64 (- n) mod n else 0) x p.

(** [Rand.IntN]: panics ([None]) unless [n > 0]. *)
Definition IntN (fuel : nat) (n : Z) (p : PCG) : option (Z * PCG) :=
  if n <=? 0 then None else uint64n fuel n p.

(** [Rand.Float64]: 53 random bits over 2^53. *)
Definition Float64 (p : PCG) : float64 * PCG :=
  let '(x, p) := Uint64 p in (f64_exp (x mod 2 ^ 53) (-53), p).

(** The generator's published sequence. *)
Example pcg_sequence :
  let '(a, p) := Uint64 (NewPCG 1 2) in let '(b, p) := Uint64 p in
  (a, b) = (14192431797130687760, 11371241257079532652).
Proof. reflexivity. Qed.

(** ** Ranges *)

Lemma Uint64_range p : 0 ≤ fst (Uint64 p) < two64.
Proof. unfold Uint64. cbv zeta. cbn [fst]. unfold u64. by apply Z.mod_pos_bound. Qed.

Lemma scaled_range x n : 0 ≤ x < two64 → 0 < n → 0 ≤ x * n / two64 < n.
Proof.
  intros Hx Hn. assert (0 < two64) by done. split; [apply Z.div_pos; nia|]. apply Z.div_lt_upper_bound; nia.
Qed.

Lemma redraw_range fuel n thresh x p y q :
  0 < n → 0 ≤ x < two64 → redraw fuel n thresh x p = Some (y, q) → 0 ≤ y < n.
Proof.
  intros Hn. revert x p. induction fuel as [|fuel IH]; intros x p Hx; cbn [redraw].
  - case_match; [done|]. intros [= <- <-]. by apply scaled_range.
  - case_match; [|intros [= <- <-]; by apply scaled_range].
    pose proof (Uint64_range p) as Hr. destruct (Uint64 p) as [x' p']. exact (IH x' p' Hr).
Qed.

Lemma land_upper x m : 0 ≤ m → Z.land x m ≤ m.
Proof.
  intros Hm. rewrite (Z.land_comm x m). pose proof (Z.add_lor_land (Z.ldiff m x) (Z.land m x)) as H.
  rewrite Z.lor_ldiff_and, (Z.land_comm m x), Z.land_assoc, Z.land_ldiff, Z.land_0_l in H.
  assert (0 ≤ Z.ldiff m x) by (apply Z.ldiff_nonneg; by left). rewrite (Z.land_comm x m) in H. lia.
Qed.

(** A draw of [IntN n] is below [n]. *)
Lemma IntN_range fuel n p y q : IntN fuel n p = Some (y, q) → 0 ≤ y < n.
Proof.
  unfold IntN, uint64n. destruct (n <=? 0) eqn:Hn; [done|]. apply Z.leb_gt in Hn.
  pose proof (Uint64_range p) as Hr. destruct (Uint64 p) as [x p']. cbn [fst] in Hr.
  destruct (_ =? 0); [|by apply redraw_range].
  intros [= <- <-]. assert (0 ≤ Z.land x (n - 1)) by (apply Z.land_nonneg; lia).
  pose proof (land_upper x (n - 1)). lia.
Qed.

(** ** Signs *)

(** Not a number below zero. *)
Definition unsigned (x : float64) : Prop :=
  match x with S754_finite s _ _ | S754_zero s | S754_infinity s => s = false | S754_nan => True end.

Lemma binary_round_aux_unsigned m e l : unsigned (binary_round_aux 53 1024 false m e l).
Proof. unfold binary_round_aux. repeat case_match; done. Qed.

Lemma f64_unsigned n : 0 ≤ n → unsigned (f64 n).
Proof.
  unfold f64, binary_normalize. destruct n as [|p|p]; [done| |lia]. intros _. unfold binary_round.
  case_match. apply binary_round_aux_unsigned.
Qed.

Lemma fmul_unsigned x y : unsigned x → unsigned y → unsigned (fmul x y).
Proof. destruct x, y; simpl; intros; subst; simpl; try done; apply binary_round_aux_unsigned. Qed.

Lemma truncate_nonneg x : unsigned x → 0 ≤ truncate x.
Proof.
  destruct x as [| | |s m e]; try done. simpl. intros ->. case_match; [|by apply Z.div_pos; lia].
  apply Z.mul_nonneg_nonneg; [done|]. lia.
Qed.
