(* ===== verification/Migrate.v ===== *)
(** * The migrator ([go/cmd/migrate])

    One schema change per pair of files, [<version>.up.sql] and [<version>.down.sql],
    each run in a transaction of its own together with the row of
    [schema_migrations] that records it. Postgres and the SQL are not the
    program's: what a script does to the rest of the database, or that it fails, is
    the argument [exec]. A script that ends the transaction it is run in is outside
    the model. [log.Fatalf] ends the process, and with it the connection, so
    Postgres drops whatever was not committed. The directory's name is
    one [filepath.Glob] reads as itself.

    What is shown: wherever a run is cut short the database is exactly some of the
    pending migrations further, schema and record together, and running it again
    ends where an undisturbed run would have; [down] undoes the last of them. *)

From S2P Require Import Prelude.

Section migrate.
(** The database but for [schema_migrations], and the effect of a script on it. *)
Context {Schema : Type} (exec : string → Schema → result Schema).

Record Db : Type := mkDb { schema : Schema; recordedIn : option (gset string) }.

(** The rows of [schema_migrations]. *)
Definition applied (db : Db) : gset string := default ∅ (recordedIn db).

(** A directory: its files by name. *)
Definition Dir : Type := gmap string string.

(** ** migrationVersions *)

Definition hasSuffix (suffix s : string) : bool :=
  (String.length suffix <=? String.length s)%nat &&
  bool_decide (String.substring (String.length s - String.length suffix) (String.length suffix) s = suffix).
Definition trimSuffix (suffix s : string) : string :=
  if hasSuffix suffix s then String.substring 0 (String.length s - String.length suffix) s else s.

Definition migrationVersions (dir : Dir) : list string :=
  merge_sort String.le
    (trimSuffix ".up.sql" <$> filter (λ n, hasSuffix ".up.sql" n = true) (map_to_list dir).*1).

(** ** applyStep *)

Inductive Direction : Type := Up | Down.
Definition directionName (d : Direction) : string := match d with Up => "up" | Down => "down" end.

(** Where the connection can be lost in a step; a lost commit may have landed. *)
Inductive txFault : Type :=
| BeginFails (e : error)
| ScriptLost (e : error)
| RecordLost (e : error)
| CommitLost (landed : bool) (e : error).

(** [INSERT INTO schema_migrations], whose key is the version, and [DELETE FROM] it *)
Definition bookkeeping (d : Direction) (version : string) (db : Db) : result Db :=
  match d with
  | Up =>
      if bool_decide (version ∈ applied db) then Err (plain "duplicate key value violates unique constraint")
      else Ok (mkDb (schema db) (Some ({[version]} ∪ applied db)))
  | Down => Ok (mkDb (schema db) (Some (applied db ∖ {[version]})))
  end.

(** [applyStep], and the error it ends the process with. *)
Definition applyStep (f : option txFault) (dir : Dir) (d : Direction) (version : string) (db : Db)
    : Db * option error :=
  let file := version +:+ "." +:+ directionName d +:+ ".sql" in
  match dir !! file with
  | None => (db, Some (plain ("migrate: read " +:+ file +:+ ": no such file")))
  | Some sql =>
      match f with
      | Some (BeginFails e) => (db, Some (wrapf "migrate: begin: " e))
      | Some (ScriptLost e) => (db, Some (wrapf ("migrate: run " +:+ file +:+ ": ") e))
      | _ =>
          match exec sql (schema db) with
          | Err e => (db, Some (wrapf ("migrate: run " +:+ file +:+ ": ") e))
          | Ok s' =>
              match f with
              | Some (RecordLost e) => (db, Some (wrapf ("migrate: record " +:+ version +:+ ": ") e))
              | _ =>
                  match bookkeeping d version (mkDb s' (recordedIn db)) with
                  | Err e => (db, Some (wrapf ("migrate: record " +:+ version +:+ ": ") e))
                  | Ok db' =>
                      match f with
                      | Some (CommitLost landed e) =>
                          (if landed then db' else db, Some (wrapf ("migrate: commit " +:+ version +:+ ": ") e))
                      | _ => (db', None)
                      end
                  end
              end
          end
      end
  end.

(** ** runUp, runDown *)

(** What a run leaves: the database, the lines it printed, the error it died of. *)
Definition Outcome : Type := Db * list string * option error.

Fixpoint upLoop (f : string → option txFault) (dir : Dir) (done : gset string) (versions : list string) (db : Db)
    : Outcome :=
  match versions with
  | [] => (db, [], None)
  | v :: vs =>
      if bool_decide (v ∈ done) then upLoop f dir done vs db
      else
        match applyStep (f v) dir Up v db with
        | (db', Some e) => (db', [], Some e)
        | (db', None) =>
            let '(db'', out, r) := upLoop f dir done vs db' in (db'', ("applied " +:+ v) :: out, r)
        end
  end.

(** [query] is what loading the applied versions fails with, if it does. *)
Definition runUp (query : option error) (f : string → option txFault) (dir : Dir) (versions : list string) (db : Db)
    : Outcome :=
  match query with
  | Some e => (db, [], Some (wrapf "migrate: load applied migrations: " e))
  | None => upLoop f dir (applied db) versions db
  end.

(** The last version, in their order, that has been applied. *)
Definition lastApplied (done : gset string) (versions : list string) : string :=
  foldl (λ last v, if bool_decide (v ∈ done) then v else last) "" versions.

Definition runDown (query : option error) (f : string → option txFault) (dir : Dir) (versions : list string) (db : Db)
    : Outcome :=
  match query with
  | Some e => (db, [], Some (wrapf "migrate: load applied migrations: " e))
  | None =>
      let last := lastApplied (applied db) versions in
      if bool_decide (last = "") then (db, ["nothing to roll back"], None)
      else
        match applyStep (f last) dir Down last db with
        | (db', Some e) => (db', [], Some e)
        | (db', None) => (db', ["rolled back " +:+ last], None)
        end
  end.

(** ** main *)

Record environment : Type := mkEnvironment {
  getenv : string → string;
  args : list string;                  (* os.Args[1:] *)
  dirs : string → Dir;
  connects : option error;             (* what pgx.Connect fails with *)
  creates : option error;              (* what CREATE TABLE IF NOT EXISTS fails with *)
  queries : option error;
  faults : string → option txFault
}.

Definition main (env : environment) (db : Db) : Outcome :=
  if bool_decide (getenv env "DATABASE_URL" = "") then (db, [], Some (plain "migrate: DATABASE_URL is not set"))
  else
    let name := getenv env "MIGRATIONS_DIR" in
    let dir := dirs env (if bool_decide (name = "") then "db/migrations" else name) in
    let direction := default "up" (head (args env)) in
    match connects env, creates env with
    | Some e, _ => (db, [], Some (wrapf "migrate: connect: " e))
    | None, Some e => (db, [], Some (wrapf "migrate: create schema_migrations: " e))
    | None, None =>
        let db := mkDb (schema db) (Some (applied db)) in
        let versions := migrationVersions dir in
        if bool_decide (direction = "up") then runUp (queries env) (faults env) dir versions db
        else if bool_decide (direction = "down") then runDown (queries env) (faults env) dir versions db
        else (db, [], Some (plain ("migrate: unknown direction " +:+ quoted direction +:+ ": want " +:+ quoted "up" +:+ " or " +:+ quoted "down")))
    end.

(** ** What a run leaves behind *)

(** The scripts of some versions, run one after the other. *)
Fixpoint runScripts (dir : Dir) (vs : list string) (s : Schema) : result Schema :=
  match vs with
  | [] => Ok s
  | v :: vs =>
      match dir !! (v +:+ ".up.sql") with
      | Some sql => let? s' := exec sql s in runScripts dir vs s'
      | None => Err (plain "no such file")
      end
  end.

(** The versions still to be applied. *)
Definition pending (versions : list string) (db : Db) : list string := filter (λ v, v ∉ applied db) versions.

(** [db'] is [db] with the migrations [vs] made, schema and record alike. *)
Definition migrated (dir : Dir) (vs : list string) (db db' : Db) : Prop :=
  runScripts dir vs (schema db) = Ok (schema db') ∧ applied db' = list_to_set vs ∪ applied db.

Definition unfaulted : string → option txFault := λ _, None.

Lemma migrated_nil dir db : migrated dir [] db db.
Proof. split; [done|]. set_solver. Qed.

Lemma migrated_cons dir v vs db db1 db' sql :
  dir !! (v +:+ ".up.sql") = Some sql → exec sql (schema db) = Ok (schema db1) →
  applied db1 = {[v]} ∪ applied db → migrated dir vs db1 db' → migrated dir (v :: vs) db db'.
Proof.
  intros Hf He Ha [Hr Ha']. split; [simpl; by rewrite Hf, He|]. rewrite Ha', Ha. set_solver.
Qed.

(** One step up makes the whole of its migration or nothing of it. *)
Lemma applyStep_up f dir v db db' r :
  applyStep f dir Up v db = (db', r) → v ∉ applied db →
  (db' = db ∧ r ≠ None) ∨
  (∃ sql, dir !! (v +:+ ".up.sql") = Some sql ∧ exec sql (schema db) = Ok (schema db') ∧
     applied db' = {[v]} ∪ applied db ∧ applyStep None dir Up v db = (db', None)).
Proof.
  unfold applyStep, bookkeeping. change (directionName Up) with "up". intros Hs Hv.
  change (v +:+ "." +:+ "up" +:+ ".sql") with (v +:+ ".up.sql") in *.
  destruct (dir !! (v +:+ ".up.sql")) as [sql|]; [|left; naive_solver].
  destruct (exec sql (schema db)) as [s'|e] eqn:He.
  2: { left. destruct f as [[]|]; naive_solver. }
  assert (Hb : bool_decide (v ∈ applied (mkDb s' (recordedIn db))) = false) by by apply bool_decide_false.
  rewrite Hb in Hs |- *.
  destruct f as [[e|e|e|[] e]|]; simplify_eq; try (left; naive_solver); right; exists sql; by rewrite He.
Qed.

(** *** The loop, over what is pending *)

Fixpoint applyAll (f : string → option txFault) (dir : Dir) (vs : list string) (db : Db) : Outcome :=
  match vs with
  | [] => (db, [], None)
  | v :: vs =>
      match applyStep (f v) dir Up v db with
      | (db', Some e) => (db', [], Some e)
      | (db', None) => let '(db'', out, r) := applyAll f dir vs db' in (db'', ("applied " +:+ v) :: out, r)
      end
  end.

Lemma upLoop_applyAll f dir done versions db :
  upLoop f dir done versions db = applyAll f dir (filter (λ v, v ∉ done) versions) db.
Proof.
  revert db. induction versions as [|v vs IH]; intros db; simpl; [done|]. rewrite filter_cons.
  case_bool_decide as Hv; [rewrite decide_False by tauto; apply IH|]. rewrite decide_True by done. simpl.
  destruct (applyStep _ _ _ _ _) as [db' [e|]]; [done|]. by rewrite IH.
Qed.

Definition printed (vs : list string) : list string := (λ v, "applied " +:+ v) <$> vs.

(** Where the loop stops: some of the versions made, in order, each printed but
    perhaps the last, and all of them when nothing failed. *)
Lemma applyAll_made f dir vs db db' out r :
  applyAll f dir vs db = (db', out, r) → NoDup vs → (∀ v, v ∈ vs → v ∉ applied db) →
  ∃ made rest, vs = made ++ rest ∧ migrated dir made db db' ∧ (r = None → rest = []) ∧
    (out = printed made ∨ r ≠ None ∧ ∃ v, made = removelast made ++ [v] ∧ out = printed (removelast made)) ∧
    ∃ out1, applyAll unfaulted dir made db = (db', out1, None).
Proof.
  revert db out. induction vs as [|v vs IH]; intros db out; simpl.
  { intros [= <- <- <-] _ _. exists [], []. split_and!; [done|apply migrated_nil|done|by left|by eexists]. }
  destruct (applyStep (f v) dir Up v db) as [db1 r1] eqn:Hs. intros Hr [Hnin Hnd]%NoDup_cons Hall.
  destruct (applyStep_up _ _ _ _ _ _ Hs (Hall v ltac:(left))) as [[-> Hne]|(sql & Hf & He & Ha & Hs0)].
  { destruct r1 as [e|]; [|done]. simplify_eq. exists [], (v :: vs).
    split_and!; [done|apply migrated_nil|done|by left|by eexists]. }
  destruct r1 as [e|].
  { simplify_eq. exists [v], vs. split_and!; [done| |done| |].
    - eapply migrated_cons; [done..|apply migrated_nil].
    - right. split; [done|]. exists v. done.
    - simpl. change (unfaulted v) with (@None txFault). rewrite Hs0. by eexists. }
  destruct (applyAll f dir vs db1) as [[db2 out2] r2] eqn:Hvs. simplify_eq.
  destruct (IH db1 out2 Hvs Hnd) as (made & rest & -> & Hm & Hrest & Hout & out1 & Hu).
  { intros v' Hv'. rewrite Ha. apply not_elem_of_union. split; [|by apply Hall; right].
    intros ->%elem_of_singleton. done. }
  exists (v :: made), rest. split_and!; [done| |done| |].
  - by eapply migrated_cons.
  - destruct Hout as [->|(Hne & v' & Hmade & ->)]; [by left|right]. split; [done|]. exists v'.
    destruct made as [|v0 made]; [done|]. split; [|done].
    exact (f_equal (cons v) Hmade).
  - simpl. change (unfaulted v) with (@None txFault). rewrite Hs0, Hu. by eexists.
Qed.

Lemma applyAll_app dir vs vs' db db1 out1 :
  applyAll unfaulted dir vs db = (db1, out1, None) →
  let '(d, out, r) := applyAll unfaulted dir vs' db1 in
  applyAll unfaulted dir (vs ++ vs') db = (d, out1 ++ out, r).
Proof.
  revert db out1. induction vs as [|v vs IH]; intros db out1; simpl.
  { intros [= <- <-]. by destruct (applyAll _ _ _ _) as [[? ?] ?]. }
  destruct (applyStep _ _ _ _ _) as [db2 [e|]]; [done|].
  destruct (applyAll unfaulted dir vs db2) as [[d2 o2] r2] eqn:Hv. intros [= -> <- ->].
  specialize (IH db2 o2 Hv). destruct (applyAll unfaulted dir vs' db1) as [[d o] r]. by rewrite IH.
Qed.

Lemma pending_migrated dir versions db db' made rest :
  NoDup versions → pending versions db = made ++ rest → migrated dir made db db' → pending versions db' = rest.
Proof.
  intros Hnd Hp [_ Ha]. unfold pending in *. rewrite Ha.
  assert (Hsplit : filter (λ v, v ∉ list_to_set made ∪ applied db) versions =
                   filter (λ v, v ∉ made) (filter (λ v, v ∉ applied db) versions)).
  { rewrite list_filter_filter. apply list_filter_iff. intros v. set_solver. }
  assert (Hn : NoDup (made ++ rest)) by (rewrite <- Hp; by apply NoDup_filter).
  rewrite Hsplit, Hp. apply NoDup_app in Hn as (_ & Hd & _). rewrite filter_app.
  rewrite (filter_none _ made), (filter_every _ rest) by naive_solver. done.
Qed.

(** *** The versions of a directory *)

Lemma substring_whole s : String.substring 0 (String.length s) s = s.
Proof. induction s as [|c s IH]; [done|]. simpl. by rewrite IH. Qed.

Lemma substring_halves n s : (n ≤ String.length s)%nat →
  s = String.substring 0 n s +:+ String.substring n (String.length s - n) s.
Proof.
  revert n. induction s as [|c s IH]; intros [|n] Hn; simpl in *; try done; try lia.
  - by rewrite substring_whole.
  - change (String c s = String c (String.substring 0 n s +:+ String.substring n (String.length s - n) s)).
    by rewrite <- IH by lia.
Qed.

Lemma trimSuffix_spec suffix s : hasSuffix suffix s = true → s = trimSuffix suffix s +:+ suffix.
Proof.
  intros Hs. unfold trimSuffix. rewrite Hs. unfold hasSuffix in Hs.
  apply andb_prop in Hs as [Hl%Nat.leb_le Hb%bool_decide_eq_true].
  rewrite (substring_halves (String.length s - String.length suffix) s) at 1 by lia. f_equal.
  replace (String.length s - (String.length s - String.length suffix))%nat with (String.length suffix) by lia. exact Hb.
Qed.

Lemma migrationVersions_nodup dir : NoDup (migrationVersions dir).
Proof.
  unfold migrationVersions. rewrite merge_sort_Permutation.
  apply NoDup_fmap_2_strong; [|apply NoDup_filter, NoDup_fst_map_to_list].
  intros x y [Hx _]%list_elem_of_filter [Hy _]%list_elem_of_filter Heq.
  rewrite (trimSuffix_spec _ _ Hx), (trimSuffix_spec _ _ Hy). by rewrite Heq.
Qed.

(** ** Properties *)

(** C37. A run of [up] stopped anywhere, by a script that fails, a file that is missing
    or a connection lost at any point of any transaction, a commit whose reply is
    lost included, has made some of the pending migrations, in their order, in full
    and on record, and none of the others; stopped by nothing, all of them. Running
    it again then ends with the database and the verdict of a run never disturbed. *)
Theorem up_resumes query f dir db :
  let versions := migrationVersions dir in
  let '(db', out, r) := runUp query f dir versions db in
  (∃ made rest, pending versions db = made ++ rest ∧ migrated dir made db db' ∧ (r = None → rest = []) ∧
     (out = printed made ∨ r ≠ None ∧ ∃ v, made = removelast made ++ [v] ∧ out = printed (removelast made))) ∧
  let '(db1, _, r1) := runUp None unfaulted dir versions db in
  let '(db2, _, r2) := runUp None unfaulted dir versions db' in
  db2 = db1 ∧ r2 = r1.
Proof.
  intros versions. pose proof (migrationVersions_nodup dir) as Hnd. fold versions in Hnd.
  unfold runUp. destruct query as [e|].
  { split; [|by destruct (upLoop unfaulted dir (applied db) versions db) as [[? ?] ?]].
    exists [], (pending versions db). split_and!; [done|apply migrated_nil|done|by left]. }
  rewrite upLoop_applyAll. change (filter (λ v, v ∉ applied db) versions) with (pending versions db).
  destruct (applyAll f dir (pending versions db) db) as [[db' out] r] eqn:Hrun.
  destruct (applyAll_made _ _ _ _ _ _ _ Hrun) as (made & rest & Hp & Hm & Hr & Hout & out1 & Hu).
  { by apply NoDup_filter. } { by intros v [Hv _]%list_elem_of_filter. }
  split; [by exists made, rest|]. rewrite !upLoop_applyAll.
  change (filter (λ v, v ∉ applied db) versions) with (pending versions db).
  change (filter (λ v, v ∉ applied db') versions) with (pending versions db').
  rewrite (pending_migrated _ _ _ _ _ _ Hnd Hp Hm), Hp.
  pose proof (applyAll_app dir made rest db db' out1 Hu) as Happ.
  destruct (applyAll unfaulted dir rest db') as [[d o] r']. by rewrite Happ.
Qed.

Lemma lastApplied_snoc done versions v : v ∈ done → lastApplied done (versions ++ [v]) = v.
Proof. intros Hv. unfold lastApplied. rewrite foldl_snoc. by rewrite bool_decide_true. Qed.

Lemma runScripts_app dir vs vs' s : runScripts dir (vs ++ vs') s = let? s' := runScripts dir vs s in runScripts dir vs' s'.
Proof.
  revert s. induction vs as [|v vs IH]; intros s; simpl; [done|].
  destruct (dir !! _) as [sql|]; [|done]. destruct (exec sql s); simpl; [apply IH | done].
Qed.

(** C38. [down] takes back the last step of [up]: when the last version was pending, is
    applied by a run of [up], and its [down] script undoes its [up] script, a run of
    [down] leaves the database as if [up] had stopped before it. *)
Theorem down_undoes_up dir versions v undo db db' out :
  migrationVersions dir = versions ++ [v] → v ≠ "" → v ∉ applied db →
  dir !! (v +:+ ".down.sql") = Some undo →
  (∀ sql s s', dir !! (v +:+ ".up.sql") = Some sql → exec sql s = Ok s' → exec undo s' = Ok s) →
  runUp None unfaulted dir (migrationVersions dir) db = (db', out, None) →
  ∃ db'', runDown None unfaulted dir (migrationVersions dir) db' = (db'', ["rolled back " +:+ v], None) ∧
    migrated dir (pending versions db) db db''.
Proof.
  intros Hvs Hne Hv Hundo Hinv Hup. pose proof (migrationVersions_nodup dir) as Hnd.
  unfold runUp in Hup. rewrite upLoop_applyAll in Hup.
  destruct (applyAll_made _ _ _ _ _ _ _ Hup) as (made & rest & Hp & [Hs Ha] & Hr & _ & _).
  { by apply NoDup_filter. } { by intros u [Hu _]%list_elem_of_filter. }
  rewrite (Hr eq_refl), app_nil_r, Hvs, filter_app, filter_cons_True in Hp by done. simpl in Hp. rewrite <- Hp in Hs, Ha.
  rewrite Hvs in Hnd |- *. apply NoDup_app in Hnd as (_ & Hlast & _).
  assert (Hin : v ∈ applied db') by (rewrite Ha; set_solver).
  change (filter (λ u, u ∉ applied db) versions) with (pending versions db) in *.
  rewrite runScripts_app in Hs. destruct (runScripts dir (pending versions db) (schema db)) as [s1|] eqn:Hs1; [|done].
  simpl in Hs. destruct (dir !! (v +:+ ".up.sql")) as [sql|] eqn:Hsql; [|done].
  destruct (exec sql s1) as [s2|] eqn:He; simplify_eq/=.
  exists (mkDb s1 (Some (applied db' ∖ {[v]}))). unfold runDown. rewrite lastApplied_snoc by done.
  rewrite bool_decide_false by done. unfold applyStep, unfaulted. simpl.
  change (v +:+ "." +:+ "down" +:+ ".sql") with (v +:+ ".down.sql").
  rewrite Hundo, (Hinv sql s1 (schema db') eq_refl He). split; [done|]. split; [done|]. simpl.
  rewrite Ha. unfold applied at 1. simpl.
  assert (v ∉ pending versions db) as Hnp by (intros [_ Hx]%list_elem_of_filter; by apply (Hlast v Hx); left).
  set_solver.
Qed.
End migrate.

(** ** Example *)

(** A database of tables, newest first, and scripts that create or drop one. *)
Definition sampleExec (sql : string) (s : list string) : result (list string) :=
  match sql with
  | String c name =>
      if bool_decide (c = Ascii.ascii_of_nat 43) then Ok (name :: s)
      else match s with
           | x :: s' => if bool_decide (x = name) then Ok s' else Err (plain "no such table")
           | [] => Err (plain "no such table")
           end
  | EmptyString => Ok s
  end.

Definition sampleDir : Dir :=
  {[ "00001_events.up.sql" := "+events"; "00001_events.down.sql" := "-events";
     "00002_index.up.sql" := "+index"; "00002_index.down.sql" := "-index" ]}.
Definition freshDb : Db := mkDb ([] : list string) (Some ∅).
Definition bothApplied : Db := mkDb ["index"; "events"] (Some {[ "00002_index"; "00001_events" ]}).

Lemma down_undoes_up_witness :
  migrationVersions sampleDir = ["00001_events"; "00002_index"] ∧
  ∃ db'', runDown sampleExec None unfaulted sampleDir (migrationVersions sampleDir) bothApplied =
            (db'', ["rolled back 00002_index"], None) ∧
    migrated sampleExec sampleDir ["00001_events"] freshDb db''.
Proof.
  split; [evaluate|].
  apply (down_undoes_up sampleExec sampleDir ["00001_events"] "00002_index" "-index" freshDb bothApplied
           ["applied 00001_events"; "applied 00002_index"]).
  - evaluate.
  - done.
  - decided.
  - evaluate.
  - intros sql s s' Hsql. assert (sql = "+index") as -> by (enough (Some sql = Some "+index") by congruence; by rewrite <- Hsql).
    intros [= <-]. done.
  - evaluate.
Defined.
