(* ===== verification/Proto.v ===== *)
(** * The published messages ([src/proto/*/v1/*.proto])

    The Domain Events the Go services record, as one inductive type with a
    constructor per message, and the shared value types they carry. A message
    field that is a message pointer in Go, and so may be absent, is an [option];
    a proto [map] is a [gmap]. [EventType] is the fully-qualified message name,
    the [event_type] column of the log. *)

From S2P Require Import Prelude.

(** [shared.v1.Money]: [minor_units] is a [uint64]. *)
Record Money : Type := mkMoney { MinorUnits : Z; Currency : string }.

#[global] Instance Money_eq_dec : EqDecision Money.
Proof. solve_decision. Defined.

(** The generated getters answer the zero value on a nil receiver. *)
Definition GetMinorUnits (m : option Money) : Z := default 0 (MinorUnits <$> m).
Definition GetCurrency (m : option Money) : string := default "" (Currency <$> m).

(** [shared.v1.Allows] *)
Inductive Allows : Type :=
| ALLOWS_UNSPECIFIED | ALLOWS_ONRAMP | ALLOWS_OFFRAMP
| ALLOWS_ONRAMP_AND_OFFRAMP | ALLOWS_NONE.

#[global] Instance Allows_eq_dec : EqDecision Allows.
Proof. solve_decision. Defined.

(** [transfer.v1.TransferLeg] *)
Record TransferLeg : Type := mkTransferLeg {
  SourceTokenId : string;
  DestTokenId : string;
  LegAmount : option Money;
  LedgerTransferId : string
}.

(** [transfer.v1.TransferDestination] *)
Record TransferDestination : Type := mkDestination {
  ToTokenId : string;
  DestAmount : option Money
}.

(** [transfer.v1.TransferRequestAccepted] *)
Record TransferAccepted : Type := mkTransferAccepted {
  ta_Id : string;
  ta_FromWalletId : string;
  ta_ToWalletId : string;
  ta_Amount : option Money;
  ta_Stage : bool;
  ta_TransactionId : string;
  ta_MintSource : bool
}.

(** [transfer.v1.ReversalRequestAccepted] *)
Record ReversalAccepted : Type := mkReversalAccepted {
  ra_Id : string;
  ra_TransferId : string;
  ra_Amount : option Money;
  ra_Stage : bool;
  ra_TransactionId : string
}.

(** [transaction.v1.Transfer], a child Transfer as a Transaction specifies it. *)
Record ChildTransfer : Type := mkChildTransfer {
  ct_Id : string;
  ct_Amount : option Money;
  ct_FromWalletId : string;
  ct_ToWalletId : string;
  ct_Stage : bool;
  ct_MintSource : bool
}.

(** [transaction.v1.TransactionInitialized]. [transfer_dependency] maps a
    child to the ids of its parents ([TransferIdList]). *)
Record Initialized : Type := mkInitialized {
  in_Id : string;
  in_FactoryName : string;
  in_FactoryVersion : string;
  in_Transfers : gmap string ChildTransfer;
  in_TransferDependency : gmap string (list string)
}.

(** [transaction.v1.RollbackMethod] *)
Inductive RollbackMethod : Type :=
| ROLLBACK_METHOD_UNSPECIFIED | ROLLBACK_METHOD_REVERSED
| ROLLBACK_METHOD_CANCELLED | ROLLBACK_METHOD_ABANDONED.

(** [token.v1.TokenBalanceRecorded] *)
Record BalanceRecorded : Type := mkBalanceRecorded {
  br_Id : string;
  br_WalletId : string;
  br_Currency : string;
  br_PostedMinorUnits : Z;
  br_PendingOutgoingMinorUnits : Z;
  br_PendingIncomingMinorUnits : Z
}.

#[global] Instance BalanceRecorded_eq_dec : EqDecision BalanceRecorded.
Proof. solve_decision. Defined.

(** [wallet.v1.WalletOpened] *)
Record WalletOpenedMsg : Type := mkWalletOpened {
  wo_Id : string; wo_HolderId : string; wo_Name : string; wo_Allows : Allows
}.

(** [wallet.v1.TokenMintedForWallet] *)
Record MintedForWallet : Type := mkMintedForWallet {
  mw_WalletId : string; mw_TokenId : string;
  mw_Capacity : option Money; mw_TransactionId : string
}.

(** [token.v1.TokenMinted] *)
Record TokenMintedMsg : Type := mkTokenMinted {
  tm_Id : string; tm_WalletId : string; tm_Capacity : option Money
}.

(** [holder.v1.HolderAddedWallet] *)
Record AddedWallet : Type := mkAddedWallet {
  aw_Id : string; aw_WalletId : string; aw_Name : string; aw_Allows : Allows
}.

(** [holder.v1.Memo] *)
Record Memo : Type := mkMemo { memo_Id : string; memo_Value : string }.

(** The Domain Events. *)
Inductive message : Type :=
(* transfer.v1 *)
| TransferRequestAccepted (m : TransferAccepted)
| TransferRequestRejected (id reason : string)
| ReversalRequestAccepted (m : ReversalAccepted)
| ReversalRequestRejected (id transferId reason : string)
| TransferPrepared (id : string) (legs : list TransferLeg)
| TransferStaged (id : string)
| TransferPending (id : string)
| TransferCommitted (id : string) (destinations : list TransferDestination)
| TransferFailed (id reason : string)
| TransferCancelled (id reason : string)
| AcceptedTransferCancelled (id reason : string)
| PreparedTransferCancelled (id reason : string)
| StagingTransferStarted (id : string)
| TransferCommittingStarted (id : string)
| CancellingStagedTransferStarted (id reason : string)
| CancellingPreparedTransferStarted (id reason : string)
| ConfirmStagedTransferRejected (id reason : string)
| CancelStagedTransferRejected (id reason : string)
| PostPendingTransferRejected (id reason : string)
(* transaction.v1 *)
| TransactionInitialized (m : Initialized)
| TransactionRejected (id reason : string)
| TransactionStarted (id : string)
| TransferRequestedWithinTransaction (id transferId : string)
| TransferCompletedWithinTransaction (id transferId : string)
| TransferFailedWithinTransaction (id transferId reason : string)
| TransactionCompleted (id : string)
| TransactionRollbackStarted (id reason : string)
| TransferReversalRequestedWithinTransaction (id transferId reversalId : string)
| TransferRolledBackWithinTransaction (id transferId : string) (method : RollbackMethod) (detailId : string)
| TransferRollbackFailedWithinTransaction (id transferId reason : string)
| TransactionRolledBack (id reason : string)
| TransactionRollbackFailed (id reason : string)
(* token.v1 *)
| TokenMinted (m : TokenMintedMsg)
| TokenBalanceRecorded (m : BalanceRecorded)
(* wallet.v1 *)
| WalletOpened (m : WalletOpenedMsg)
| TokenMintedForWallet (m : MintedForWallet)
(* holder.v1 *)
| HolderEstablished (id : string) (memos : gmap string Memo)
| HolderAddedWallet (m : AddedWallet).

(** The kind of a message, without its content: what an [event_type] names. *)
Inductive kind : Type :=
| KTransferRequestAccepted | KTransferRequestRejected
| KReversalRequestAccepted | KReversalRequestRejected
| KTransferPrepared | KTransferStaged | KTransferPending | KTransferCommitted
| KTransferFailed | KTransferCancelled | KAcceptedTransferCancelled | KPreparedTransferCancelled
| KStagingTransferStarted | KTransferCommittingStarted
| KCancellingStagedTransferStarted | KCancellingPreparedTransferStarted
| KConfirmStagedTransferRejected | KCancelStagedTransferRejected | KPostPendingTransferRejected
| KTransactionInitialized | KTransactionRejected | KTransactionStarted
| KTransferRequestedWithinTransaction | KTransferCompletedWithinTransaction
| KTransferFailedWithinTransaction | KTransactionCompleted | KTransactionRollbackStarted
| KTransferReversalRequestedWithinTransaction | KTransferRolledBackWithinTransaction
| KTransferRollbackFailedWithinTransaction | KTransactionRolledBack | KTransactionRollbackFailed
| KTokenMinted | KTokenBalanceRecorded | KWalletOpened | KTokenMintedForWallet
| KHolderEstablished | KHolderAddedWallet.

#[global] Instance kind_eq_dec : EqDecision kind.
Proof. solve_decision. Defined.

Definition kind_of (m : message) : kind :=
  match m with
  | TransferRequestAccepted _ => KTransferRequestAccepted
  | TransferRequestRejected _ _ => KTransferRequestRejected
  | ReversalRequestAccepted _ => KReversalRequestAccepted
  | ReversalRequestRejected _ _ _ => KReversalRequestRejected
  | TransferPrepared _ _ => KTransferPrepared
  | TransferStaged _ => KTransferStaged
  | TransferPending _ => KTransferPending
  | TransferCommitted _ _ => KTransferCommitted
  | TransferFailed _ _ => KTransferFailed
  | TransferCancelled _ _ => KTransferCancelled
  | AcceptedTransferCancelled _ _ => KAcceptedTransferCancelled
  | PreparedTransferCancelled _ _ => KPreparedTransferCancelled
  | StagingTransferStarted _ => KStagingTransferStarted
  | TransferCommittingStarted _ => KTransferCommittingStarted
  | CancellingStagedTransferStarted _ _ => KCancellingStagedTransferStarted
  | CancellingPreparedTransferStarted _ _ => KCancellingPreparedTransferStarted
  | ConfirmStagedTransferRejected _ _ => KConfirmStagedTransferRejected
  | CancelStagedTransferRejected _ _ => KCancelStagedTransferRejected
  | PostPendingTransferRejected _ _ => KPostPendingTransferRejected
  | TransactionInitialized _ => KTransactionInitialized
  | TransactionRejected _ _ => KTransactionRejected
  | TransactionStarted _ => KTransactionStarted
  | TransferRequestedWithinTransaction _ _ => KTransferRequestedWithinTransaction
  | TransferCompletedWithinTransaction _ _ => KTransferCompletedWithinTransaction
  | TransferFailedWithinTransaction _ _ _ => KTransferFailedWithinTransaction
  | TransactionCompleted _ => KTransactionCompleted
  | TransactionRollbackStarted _ _ => KTransactionRollbackStarted
  | TransferReversalRequestedWithinTransaction _ _ _ => KTransferReversalRequestedWithinTransaction
  | TransferRolledBackWithinTransaction _ _ _ _ => KTransferRolledBackWithinTransaction
  | TransferRollbackFailedWithinTransaction _ _ _ => KTransferRollbackFailedWithinTransaction
  | TransactionRolledBack _ _ => KTransactionRolledBack
  | TransactionRollbackFailed _ _ => KTransactionRollbackFailed
  | TokenMinted _ => KTokenMinted
  | TokenBalanceRecorded _ => KTokenBalanceRecorded
  | WalletOpened _ => KWalletOpened
  | TokenMintedForWallet _ => KTokenMintedForWallet
  | HolderEstablished _ _ => KHolderEstablished
  | HolderAddedWallet _ => KHolderAddedWallet
  end.

(** The fully-qualified name of a message kind. *)
Definition full_name (k : kind) : string :=
  match k with
  | KTransferRequestAccepted => "transfer.v1.TransferRequestAccepted"
  | KTransferRequestRejected => "transfer.v1.TransferRequestRejected"
  | KReversalRequestAccepted => "transfer.v1.ReversalRequestAccepted"
  | KReversalRequestRejected => "transfer.v1.ReversalRequestRejected"
  | KTransferPrepared => "transfer.v1.TransferPrepared"
  | KTransferStaged => "transfer.v1.TransferStaged"
  | KTransferPending => "transfer.v1.TransferPending"
  | KTransferCommitted => "transfer.v1.TransferCommitted"
  | KTransferFailed => "transfer.v1.TransferFailed"
  | KTransferCancelled => "transfer.v1.TransferCancelled"
  | KAcceptedTransferCancelled => "transfer.v1.AcceptedTransferCancelled"
  | KPreparedTransferCancelled => "transfer.v1.PreparedTransferCancelled"
  | KStagingTransferStarted => "transfer.v1.StagingTransferStarted"
  | KTransferCommittingStarted => "transfer.v1.TransferCommittingStarted"
  | KCancellingStagedTransferStarted => "transfer.v1.CancellingStagedTransferStarted"
  | KCancellingPreparedTransferStarted => "transfer.v1.CancellingPreparedTransferStarted"
  | KConfirmStagedTransferRejected => "transfer.v1.ConfirmStagedTransferRejected"
  | KCancelStagedTransferRejected => "transfer.v1.CancelStagedTransferRejected"
  | KPostPendingTransferRejected => "transfer.v1.PostPendingTransferRejected"
  | KTransactionInitialized => "transaction.v1.TransactionInitialized"
  | KTransactionRejected => "transaction.v1.TransactionRejected"
  | KTransactionStarted => "transaction.v1.TransactionStarted"
  | KTransferRequestedWithinTransaction => "transaction.v1.TransferRequestedWithinTransaction"
  | KTransferCompletedWithinTransaction => "transaction.v1.TransferCompletedWithinTransaction"
  | KTransferFailedWithinTransaction => "transaction.v1.TransferFailedWithinTransaction"
  | KTransactionCompleted => "transaction.v1.TransactionCompleted"
  | KTransactionRollbackStarted => "transaction.v1.TransactionRollbackStarted"
  | KTransferReversalRequestedWithinTransaction => "transaction.v1.TransferReversalRequestedWithinTransaction"
  | KTransferRolledBackWithinTransaction => "transaction.v1.TransferRolledBackWithinTransaction"
  | KTransferRollbackFailedWithinTransaction => "transaction.v1.TransferRollbackFailedWithinTransaction"
  | KTransactionRolledBack => "transaction.v1.TransactionRolledBack"
  | KTransactionRollbackFailed => "transaction.v1.TransactionRollbackFailed"
  | KTokenMinted => "token.v1.TokenMinted"
  | KTokenBalanceRecorded => "token.v1.TokenBalanceRecorded"
  | KWalletOpened => "wallet.v1.WalletOpened"
  | KTokenMintedForWallet => "wallet.v1.TokenMintedForWallet"
  | KHolderEstablished => "holder.v1.HolderEstablished"
  | KHolderAddedWallet => "holder.v1.HolderAddedWallet"
  end.

(** [eventstore.EventType(m)] *)
Definition EventType (m : message) : string := full_name (kind_of m).

Lemma full_name_inj k1 k2 : full_name k1 = full_name k2 → k1 = k2.
Proof. destruct k1, k2; (reflexivity || discriminate). Qed.

Lemma EventType_kind m k : EventType m = full_name k → kind_of m = k.
Proof. apply full_name_inj. Qed.

Lemma EventType_inj m m' : EventType m = EventType m' → kind_of m = kind_of m'.
Proof. apply full_name_inj. Qed.
