(* ===== verification/EventStore.v ===== *)
(** * The event log ([go/internal/eventstore])

    The append-only log of Domain Events: [Event], [StreamWrite], the batch
    checks every implementation shares ([liveWrites], [validateWrites]) and
    [MemoryStore], whose sequencing and optimistic-concurrency rules the rest
    of the development runs against.

    Protobuf is a library, so its encoding is the parameter [Codec]: what the
    program relies on, that a message decodes back under its own type name, is
    the class [CodecLaws]. *)

From S2P Require Import Prelude Proto.

(** ** The wire encoding *)

(** [proto.Marshal], the global type registry and [proto.Unmarshal]. *)
Class Codec : Type := {
  payload : Type;
  marshal : message → option payload;
  registered : string → bool;
  unmarshal : string → payload → option message
}.

(** A message that marshals is read back unchanged under its own type name, and
    decoding under a type name yields a message of that type. *)
Class CodecLaws (C : Codec) : Prop := {
  marshal_registered m : registered (EventType m) = true;
  unmarshal_marshal m b : marshal m = Some b → unmarshal (EventType m) b = Some m;
  unmarshal_type ty b m : unmarshal ty b = Some m → EventType m = ty
}.

(** A codec that keeps the message as its own payload: the concrete instance
    the examples run on. *)
#[global] Instance IdCodec : Codec := {|
  payload := message;
  marshal := Some;
  registered := fun _ => true;
  unmarshal := fun ty m => if decide (EventType m = ty) then Some m else None
|}.

#[global] Instance IdCodecLaws : CodecLaws IdCodec.
Proof.
  split; simpl; [done| |].
  - intros m b [= ->]. by rewrite decide_True.
  - intros ty b m. case_decide; naive_solver.
Qed.

(** ** Events and writes *)

Record Event `{Codec} : Type := mkEvent {
  GlobalSeq : Z;
  AggregateType : string;
  AggregateID : string;
  Sequence : Z;
  EType : string;
  Payload : payload;
  OccurredAt : Z
}.

Record StreamWrite : Type := mkStreamWrite {
  sw_AggregateType : string;
  sw_AggregateID : string;
  ExpectedSeq : Z;
  sw_Events : list message
}.

(** The NUL separator of [streamKey]. *)
Definition NUL : Ascii.ascii := Ascii.ascii_of_nat 0.

Definition streamKey (aggregateType aggregateID : string) : string :=
  aggregateType +:+ String NUL aggregateID.

Definition sw_key (w : StreamWrite) : string :=
  streamKey (sw_AggregateType w) (sw_AggregateID w).

Definition conflict : error :=
  sentinel_error ErrConcurrencyConflict "eventstore: concurrent append".

Definition liveWrites (writes : list StreamWrite) : list StreamWrite :=
  filter (λ w, sw_Events w ≠ []) writes.

Fixpoint validateFrom (seen : list string) (writes : list StreamWrite) : result unit :=
  match writes with
  | [] => Ok tt
  | w :: rest =>
      if bool_decide (sw_AggregateType w = "" ∨ sw_AggregateID w = "") then
        Err (plain "eventstore: stream write is missing aggregate identity")
      else if ExpectedSeq w <? 0 then
        Err (plain "eventstore: negative expectedSeq")
      else if bool_decide (sw_key w ∈ seen) then
        Err (sentinel_error ErrDuplicateStream "eventstore: duplicate stream in atomic append")
      else validateFrom (sw_key w :: seen) rest
  end.

Definition validateWrites (writes : list StreamWrite) : result unit := validateFrom [] writes.

Section store.
Context {C : Codec}.

Definition Decode (e : Event) : result message :=
  if registered (EType e) then
    match unmarshal (EType e) (Payload e) with
    | Some m => Ok m
    | None => Err (plain "eventstore: unmarshal")
    end
  else Err (plain "eventstore: unknown event type").

Lemma Decode_type {CL : CodecLaws C} e m : Decode e = Ok m → EType e = EventType m.
Proof.
  unfold Decode. destruct (registered _); [|done]. destruct (unmarshal _ _) eqn:Hu; [|done].
  intros [= <-]. symmetry. by eapply unmarshal_type.
Qed.

(** ** MemoryStore *)

Record MemoryStore : Type := mkStore {
  streams : gmap string (list Event);
  globalSeq : Z
}.

Definition NewMemoryStore : MemoryStore := mkStore ∅ 0.

Definition stream_at (s : MemoryStore) (key : string) : list Event :=
  default [] (streams s !! key).

(** One write's events, marshalled and sequenced from [ExpectedSeq]. *)
Fixpoint stageEvents (w : StreamWrite) (now i : Z) (evs : list message) : result (list Event) :=
  match evs with
  | [] => Ok []
  | evt :: rest =>
      match marshal evt with
      | None => Err (plain "eventstore: marshal")
      | Some b =>
          let? batch := stageEvents w now (i + 1) rest in
          Ok (mkEvent _ 0 (sw_AggregateType w) (sw_AggregateID w)
                (ExpectedSeq w + i + 1) (EventType evt) b now :: batch)
      end
  end.

(** Every stream validated and marshalled before any is mutated. *)
Fixpoint stageWrites (s : MemoryStore) (now : Z) (writes : list StreamWrite)
    : result (list (list Event)) :=
  match writes with
  | [] => Ok []
  | w :: rest =>
      if bool_decide (len (stream_at s (sw_key w)) = ExpectedSeq w) then
        let? batch := stageEvents w now 0 (sw_Events w) in
        let? staged := stageWrites s now rest in
        Ok (batch :: staged)
      else Err conflict
  end.

Definition setGlobalSeq (g : Z) (e : Event) : Event :=
  mkEvent _ g (AggregateType e) (AggregateID e) (Sequence e) (EType e) (Payload e) (OccurredAt e).

Fixpoint number (g : Z) (batch : list Event) : list Event :=
  match batch with
  | [] => []
  | e :: rest => setGlobalSeq (g + 1) e :: number (g + 1) rest
  end.

Definition commitWrite (s : MemoryStore) (w : StreamWrite) (batch : list Event) : MemoryStore :=
  mkStore (<[sw_key w := stream_at s (sw_key w) ++ number (globalSeq s) batch]> (streams s))
          (globalSeq s + len batch).

Fixpoint commitWrites (s : MemoryStore) (writes : list StreamWrite) (staged : list (list Event))
    : MemoryStore :=
  match writes, staged with
  | w :: writes, batch :: staged => commitWrites (commitWrite s w batch) writes staged
  | _, _ => s
  end.

(** [ctx] is the context's error, if it has ended; [now] is [time.Now()]. *)
Definition AppendAtomic (ctx : option error) (now : Z) (writes : list StreamWrite)
    (s : MemoryStore) : MemoryStore * result unit :=
  let writes := liveWrites writes in
  match validateWrites writes with
  | Err e => (s, Err e)
  | Ok _ =>
      match writes, ctx with
      | [], _ => (s, Ok tt)
      | _, Some e => (s, Err e)
      | _, None =>
          match stageWrites s now writes with
          | Err e => (s, Err e)
          | Ok staged => (commitWrites s writes staged, Ok tt)
          end
      end
  end.

Definition Append (ctx : option error) (now : Z) (aggregateType aggregateID : string)
    (expectedSeq : Z) (events : list message) (s : MemoryStore) : MemoryStore * result unit :=
  AppendAtomic ctx now [mkStreamWrite aggregateType aggregateID expectedSeq events] s.

Definition Load (ctx : option error) (aggregateType aggregateID : string) (s : MemoryStore)
    : result (list Event) :=
  match ctx with
  | Some e => Err e
  | None => Ok (stream_at s (streamKey aggregateType aggregateID))
  end.

(** [Claim]: the next event of a stream, or the news that someone else's is. *)
Definition claimResult (r : result unit) : result bool :=
  match r with
  | Ok _ => Ok true
  | Err e => if Is e ErrConcurrencyConflict then Ok false else Err e
  end.

Definition Claim (ctx : option error) (now : Z) (aggregateType aggregateID : string)
    (expectedSeq : Z) (marker : message) (s : MemoryStore) : MemoryStore * result bool :=
  let '(s', r) := Append ctx now aggregateType aggregateID expectedSeq [marker] s in
  (s', claimResult r).
End store.

Arguments MemoryStore _ : clear implicits.
Arguments MemoryStore {_}.

(** ** What an append does *)

Section append_facts.
Context {C : Codec}.
Implicit Types (s : MemoryStore) (w : StreamWrite) (e : Event) (m : message).

(** [e] is [m] as the log keeps it. *)
Definition recorded m e : Prop := EType e = EventType m ∧ marshal m = Some (Payload e).

Lemma recorded_Decode {CL : CodecLaws C} m e : recorded m e → Decode e = Ok m.
Proof.
  intros [Ht Hm]. unfold Decode. rewrite Ht, marshal_registered.
  by rewrite (unmarshal_marshal m _ Hm).
Qed.

(** [e] is the event [w] records for [m], its [i]th. *)
Definition staged_event w (now i : Z) m e : Prop :=
  recorded m e ∧ AggregateType e = sw_AggregateType w ∧ AggregateID e = sw_AggregateID w ∧
  Sequence e = ExpectedSeq w + i + 1 ∧ OccurredAt e = now.

Fixpoint staged_batch w (now i : Z) (ms : list message) (batch : list Event) : Prop :=
  match ms, batch with
  | [], [] => True
  | m :: ms, e :: batch => staged_event w now i m e ∧ staged_batch w now (i + 1) ms batch
  | _, _ => False
  end.

Lemma staged_batch_recorded w now i ms batch :
  staged_batch w now i ms batch → Forall2 recorded ms batch.
Proof.
  revert i batch. induction ms as [|m ms IH]; intros i [|e batch]; simpl; try done.
  intros [[Hr _] Hb]. constructor; [done|]. by eapply IH.
Qed.

Lemma staged_batch_lookup w now i ms batch j e :
  staged_batch w now i ms batch → batch !! j = Some e →
  ∃ m, ms !! j = Some m ∧ staged_event w now (i + Z.of_nat j) m e.
Proof.
  revert i batch j. induction ms as [|m ms IH]; intros i [|e' batch] j; simpl; try done.
  intros [He Hb]. destruct j as [|j]; simpl; intros Hj.
  - simplify_eq. exists m. by rewrite Z.add_0_r.
  - destruct (IH _ _ _ Hb Hj) as (m' & ? & ?). exists m'. split; [done|].
    by replace (i + Z.of_nat (S j)) with (i + 1 + Z.of_nat j) by lia.
Qed.

Lemma stageEvents_staged w now i ms batch :
  stageEvents w now i ms = Ok batch → staged_batch w now i ms batch.
Proof.
  revert i batch. induction ms as [|m ms IH]; intros i batch; simpl; [by intros [= <-]|].
  destruct (marshal m) as [b|] eqn:Hm; [|done].
  destruct (stageEvents w now (i + 1) ms) as [rest|] eqn:Hr; [|done].
  intros [= <-]. split; [done | by apply IH].
Qed.

Lemma number_staged w now i g ms batch :
  staged_batch w now i ms batch → staged_batch w now i ms (number g batch).
Proof.
  revert i g batch. induction ms as [|m ms IH]; intros i g [|e batch]; simpl; try done.
  intros [He Hb]. split; [exact He | by apply IH].
Qed.

Lemma number_length g batch : length (number g batch) = length batch.
Proof. revert g. induction batch; intros g; simpl; auto. Qed.

(** [validateWrites] accepts a batch only when no stream is named twice. *)
Lemma validateFrom_nodup seen ws :
  validateFrom seen ws = Ok tt →
  NoDup (sw_key <$> ws) ∧ ∀ w, w ∈ ws → sw_key w ∉ seen ∧ 0 ≤ ExpectedSeq w.
Proof.
  revert seen. induction ws as [|w ws IH]; intros seen; simpl.
  { intros _. split; [constructor | by intros w ?%elem_of_nil]. }
  case_bool_decide; [done|]. destruct (Z.ltb_spec (ExpectedSeq w) 0); [done|].
  case_bool_decide as Hseen; [done|]. intros Hv. destruct (IH _ Hv) as [Hnd Hall]. split.
  - constructor; [|done]. intros (w' & Heq & Hw')%list_elem_of_fmap.
    destruct (Hall w' Hw') as [Hn _]. apply Hn. rewrite <- Heq. left.
  - intros w' [->|Hw']%elem_of_cons; [by split|].
    destruct (Hall w' Hw') as [Hn ?]. split; [|done]. intros Hin. apply Hn. by right.
Qed.

Lemma stream_at_commitWrite s w batch k :
  stream_at (commitWrite s w batch) k =
    if decide (sw_key w = k) then stream_at s k ++ number (globalSeq s) batch else stream_at s k.
Proof.
  unfold stream_at, commitWrite; simpl. destruct (decide (sw_key w = k)) as [<-|Hne].
  - by rewrite lookup_insert_eq.
  - by rewrite lookup_insert_ne.
Qed.

Lemma commitWrites_other s ws staged k :
  (∀ w, w ∈ ws → sw_key w ≠ k) → stream_at (commitWrites s ws staged) k = stream_at s k.
Proof.
  revert s staged. induction ws as [|w ws IH]; intros s [|b staged] Hk; simpl; try done.
  rewrite IH by (intros; apply Hk; by right).
  rewrite stream_at_commitWrite, decide_False; [done|]. apply Hk. left.
Qed.

(** The batches [stageWrites] built land on their own streams, each at the
    position it was checked at. *)
Lemma commitWrites_ok s0 s now ws staged k :
  stageWrites s0 now ws = Ok staged → NoDup (sw_key <$> ws) →
  (∀ w, w ∈ ws → stream_at s (sw_key w) = stream_at s0 (sw_key w)) →
  (∃ w batch, w ∈ ws ∧ sw_key w = k ∧ len (stream_at s0 k) = ExpectedSeq w ∧
     staged_batch w now 0 (sw_Events w) batch ∧
     stream_at (commitWrites s ws staged) k = stream_at s k ++ batch) ∨
  ((∀ w, w ∈ ws → sw_key w ≠ k) ∧ stream_at (commitWrites s ws staged) k = stream_at s k).
Proof.
  revert s staged. induction ws as [|w ws IH]; intros s staged; simpl.
  { intros [= <-] _ _. right. split; [by intros ? ?%elem_of_nil | done]. }
  case_bool_decide as Hlen; [|done].
  destruct (stageEvents w now 0 (sw_Events w)) as [b|] eqn:Hb; [|done].
  destruct (stageWrites s0 now ws) as [st|] eqn:Hst; [|done].
  intros [= <-] [Hnin Hnd]%NoDup_cons Hs; simpl.
  assert (Hother : ∀ w', w' ∈ ws → sw_key w ≠ sw_key w').
  { intros w' Hw' Heq. apply Hnin. rewrite Heq. by apply list_elem_of_fmap_2. }
  destruct (decide (sw_key w = k)) as [<-|Hne].
  - left. exists w, (number (globalSeq s) b). repeat split; [left|done| |].
    + by apply number_staged, stageEvents_staged.
    + rewrite commitWrites_other by (intros w' Hw'; symmetry; by apply Hother).
      by rewrite stream_at_commitWrite, decide_True.
  - destruct (IH (commitWrite s w b) st) as [(w' & b' & ? & ? & ? & ? & Heq)|[Hno Heq]]; [done|done| | |].
    + intros w' Hw'. rewrite stream_at_commitWrite, decide_False by by apply Hother.
      apply Hs. by right.
    + left. exists w', b'. repeat split; try done; [by right|].
      rewrite Heq. by rewrite stream_at_commitWrite, decide_False.
    + right. split.
      * intros w' [->|Hw']%elem_of_cons; auto.
      * rewrite Heq. by rewrite stream_at_commitWrite, decide_False.
Qed.

Lemma AppendAtomic_err ctx now ws s s' (e : error) : AppendAtomic ctx now ws s = (s', Err e) → s' = s.
Proof.
  unfold AppendAtomic. destruct (validateWrites _) as [[]|]; [|naive_solver].
  destruct (liveWrites ws); [naive_solver|]. destruct ctx; [naive_solver|].
  destruct (stageWrites _ _ _); naive_solver.
Qed.

Lemma AppendAtomic_ok ctx now ws s s' k :
  AppendAtomic ctx now ws s = (s', Ok tt) →
  (∃ w batch, w ∈ liveWrites ws ∧ sw_key w = k ∧ len (stream_at s k) = ExpectedSeq w ∧
     staged_batch w now 0 (sw_Events w) batch ∧ stream_at s' k = stream_at s k ++ batch) ∨
  ((∀ w, w ∈ liveWrites ws → sw_key w ≠ k) ∧ stream_at s' k = stream_at s k).
Proof.
  unfold AppendAtomic. destruct (validateWrites _) as [[]|] eqn:Hv; [|naive_solver].
  destruct (liveWrites ws) as [|w0 ws0] eqn:Hlw.
  { intros [= <-]. right. split; [by intros ? ?%elem_of_nil | done]. }
  destruct ctx; [naive_solver|].
  destruct (stageWrites s now (w0 :: ws0)) as [st|] eqn:Hst; [|naive_solver].
  intros [= <-]. apply (commitWrites_ok s s now _ st k Hst); [|done].
  by apply (validateFrom_nodup [] _ Hv).
Qed.

(** What became of one of the writes of an append that landed. *)
Lemma appended_by ctx now ws s s' w :
  AppendAtomic ctx now ws s = (s', Ok tt) → w ∈ ws → sw_Events w ≠ [] →
  len (stream_at s (sw_key w)) = ExpectedSeq w ∧
  ∃ batch, staged_batch w now 0 (sw_Events w) batch ∧ stream_at s' (sw_key w) = stream_at s (sw_key w) ++ batch.
Proof.
  intros Ha Hw Hne. assert (Hlive : w ∈ liveWrites ws) by (unfold liveWrites; by apply list_elem_of_filter).
  destruct (AppendAtomic_ok _ _ _ _ _ (sw_key w) Ha) as [(w' & b & Hw' & Hk & Hl & Hb & Hs)|[Hno _]];
    [|by destruct (Hno w Hlive)].
  assert (w' = w) as ->; [|by eauto]. unfold AppendAtomic in Ha. destruct (validateWrites (liveWrites ws)) as [[]|] eqn:Hv; [|done].
  destruct (validateFrom_nodup [] _ Hv) as [Hnd _].
  apply list_elem_of_lookup in Hlive as [i Hi], Hw' as [j Hj].
  assert (i = j) as ->; [|congruence]. eapply NoDup_lookup; [exact Hnd| |]; rewrite list_lookup_fmap.
  - by rewrite Hi.
  - rewrite Hj. simpl. by rewrite Hk.
Qed.

(** Whatever an append reports, every stream is extended, never rewritten. *)
Lemma AppendAtomic_prefix ctx now ws s s' r k :
  AppendAtomic ctx now ws s = (s', r) → stream_at s k `prefix_of` stream_at s' k.
Proof.
  destruct r as [[]|e]; intros Ha.
  - destruct (AppendAtomic_ok _ _ _ _ _ k Ha) as [(w & b & _ & _ & _ & _ & ->)|[_ ->]]; [|done].
    by eexists.
  - by rewrite (AppendAtomic_err _ _ _ _ _ _ Ha).
Qed.

Lemma Append_ok ctx now ty id n ms s s' :
  Append ctx now ty id n ms s = (s', Ok tt) → ms ≠ [] →
  len (stream_at s (streamKey ty id)) = n ∧
  ∃ batch, staged_batch (mkStreamWrite ty id n ms) now 0 ms batch ∧
    stream_at s' (streamKey ty id) = stream_at s (streamKey ty id) ++ batch.
Proof.
  intros Ha Hms. unfold Append in Ha.
  destruct (AppendAtomic_ok _ _ _ _ _ (streamKey ty id) Ha)
    as [(w & b & Hw & Hk & Hl & Hb & Hs)|[Hno _]].
  - unfold liveWrites in Hw. apply list_elem_of_filter in Hw as [_ ->%list_elem_of_singleton].
    split; [done|]. by exists b.
  - exfalso. eapply (Hno (mkStreamWrite ty id n ms)); [|done].
    unfold liveWrites. apply list_elem_of_filter. split; [done | by apply list_elem_of_singleton].
Qed.
End append_facts.

#[export] Hint Resolve AppendAtomic_prefix : money.

(** ** The log's well-formedness *)

Section wf.
Context {C : Codec}.
Implicit Types (s : MemoryStore) (e : Event).

(** Each stream is numbered 1, 2, 3, ... without gaps, under its own
    identity; global sequence numbers grow along a stream and name one
    position of the whole log. *)
Record wf_store s : Prop := {
  wf_counter : 0 ≤ globalSeq s;
  wf_seq k i e : stream_at s k !! i = Some e → Sequence e = Z.of_nat i + 1;
  wf_key k i e : stream_at s k !! i = Some e → streamKey (AggregateType e) (AggregateID e) = k;
  wf_global k i e : stream_at s k !! i = Some e → 1 ≤ GlobalSeq e ≤ globalSeq s;
  wf_order k i j e1 e2 : stream_at s k !! i = Some e1 → stream_at s k !! j = Some e2 →
    (i < j)%nat → GlobalSeq e1 < GlobalSeq e2;
  wf_unique k1 i1 e1 k2 i2 e2 : stream_at s k1 !! i1 = Some e1 → stream_at s k2 !! i2 = Some e2 →
    GlobalSeq e1 = GlobalSeq e2 → k1 = k2
}.

Lemma number_lookup g batch j e :
  number g batch !! j = Some e →
  ∃ e0, batch !! j = Some e0 ∧ e = setGlobalSeq (g + Z.of_nat j + 1) e0.
Proof.
  revert g j. induction batch as [|e0 batch IH]; intros g [|j]; simpl; try done.
  - intros [= <-]. exists e0. split; [done|]. f_equal. lia.
  - intros Hj. destruct (IH _ _ Hj) as (e1 & ? & ->). exists e1. split; [done|]. f_equal. lia.
Qed.

(** Where an event of the store after one write comes from. *)
Lemma commitWrite_lookup s w now batch k i e :
  len (stream_at s (sw_key w)) = ExpectedSeq w →
  staged_batch w now 0 (sw_Events w) batch →
  stream_at (commitWrite s w batch) k !! i = Some e →
  stream_at s k !! i = Some e ∨
  (k = sw_key w ∧ Sequence e = Z.of_nat i + 1 ∧ streamKey (AggregateType e) (AggregateID e) = k ∧
   ∃ j, i = (length (stream_at s k) + j)%nat ∧ (j < length batch)%nat ∧
        GlobalSeq e = globalSeq s + Z.of_nat j + 1).
Proof.
  intros Hlen Hst. rewrite stream_at_commitWrite. case_decide as Hk; [|by left].
  intros [?|[Hge Hl]]%lookup_app_Some; [by left|]. right.
  apply number_lookup in Hl as (e0 & Hl & ->).
  destruct (staged_batch_lookup _ _ _ _ _ _ _ Hst Hl) as (m & _ & _ & HT & HI & HS & _).
  simpl. rewrite HT, HI, HS. subst k. split; [done|]. split; [lia|]. split; [done|].
  exists (i - length (stream_at s (sw_key w)))%nat. split; [lia|].
  split; [by eapply lookup_lt_Some | done].
Qed.

Lemma commitWrite_wf s w now batch :
  wf_store s → len (stream_at s (sw_key w)) = ExpectedSeq w →
  staged_batch w now 0 (sw_Events w) batch → wf_store (commitWrite s w batch).
Proof.
  intros Hwf Hlen Hst. pose proof (wf_counter _ Hwf).
  pose proof (λ k i e, commitWrite_lookup s w now batch k i e Hlen Hst) as Hlk.
  split.
  - simpl. lia.
  - intros k i e [?|(? & ? & ? & _)]%Hlk; [by eapply wf_seq | done].
  - intros k i e [?|(? & ? & ? & _)]%Hlk; [by eapply wf_key | done].
  - intros k i e [He|(? & ? & ? & j & ? & ? & ->)]%Hlk; simpl; [|lia].
    pose proof (wf_global _ Hwf _ _ _ He). lia.
  - intros k i j e1 e2 [H1|(_ & _ & _ & j1 & -> & ? & ->)]%Hlk
      [H2|(_ & _ & _ & j2 & -> & ? & ->)]%Hlk Hij.
    + by eapply wf_order.
    + pose proof (wf_global _ Hwf _ _ _ H1). lia.
    + apply lookup_lt_Some in H2. lia.
    + lia.
  - intros k1 i1 e1 k2 i2 e2 [H1|(-> & _ & _ & j1 & -> & ? & Hg1)]%Hlk
      [H2|(-> & _ & _ & j2 & -> & ? & Hg2)]%Hlk Heq; [by eapply (wf_unique _ Hwf)| | |done].
    + pose proof (wf_global _ Hwf _ _ _ H1). lia.
    + pose proof (wf_global _ Hwf _ _ _ H2). lia.
Qed.

Lemma commitWrites_wf s0 s now ws staged :
  stageWrites s0 now ws = Ok staged → NoDup (sw_key <$> ws) →
  (∀ w, w ∈ ws → stream_at s (sw_key w) = stream_at s0 (sw_key w)) →
  wf_store s → wf_store (commitWrites s ws staged).
Proof.
  revert s staged. induction ws as [|w ws IH]; intros s staged; simpl; [by intros [= <-]|].
  case_bool_decide as Hlen; [|done].
  destruct (stageEvents w now 0 (sw_Events w)) as [b|] eqn:Hb; [|done].
  destruct (stageWrites s0 now ws) as [st|] eqn:Hst; [|done].
  intros [= <-] [Hnin Hnd]%NoDup_cons Hs Hwf; simpl. apply IH; [done|done| |].
  - intros w' Hw'. rewrite stream_at_commitWrite, decide_False; [apply Hs; by right|].
    intros Heq. apply Hnin. rewrite Heq. by apply list_elem_of_fmap_2.
  - eapply commitWrite_wf; [done| |by apply stageEvents_staged].
    rewrite Hs by left. done.
Qed.

Lemma wf_after_append ctx now ws s s' r :
  AppendAtomic ctx now ws s = (s', r) → wf_store s → wf_store s'.
Proof.
  unfold AppendAtomic. destruct (validateWrites _) as [[]|] eqn:Hv; [|naive_solver].
  destruct (liveWrites ws) as [|w0 ws0] eqn:Hlw; [naive_solver|].
  destruct ctx; [naive_solver|].
  destruct (stageWrites s now (w0 :: ws0)) as [st|] eqn:Hst; [|naive_solver].
  intros [= <- <-] Hwf. apply (commitWrites_wf s s now (w0 :: ws0) st); [done| |done|done].
  by apply (validateFrom_nodup [] _ Hv).
Qed.

Lemma NewMemoryStore_wf : wf_store NewMemoryStore.
Proof. split; unfold stream_at; simpl; [lia|..]; intros *; by rewrite ?lookup_empty. Qed.
End wf.

(** ** Properties of the log *)

Section properties.
Context {C : Codec}.
Implicit Types (s : MemoryStore).

(** C20. [AppendAtomic] is all-or-nothing and appends only: when it fails no
    stream changed; when it succeeds every stream named by a non-empty write
    was exactly at that write's [ExpectedSeq] and gained exactly the write's
    events, marshalled and numbered from there, and every other stream is
    untouched. *)
Theorem append_atomic_all_or_nothing ctx now ws s s' r :
  AppendAtomic ctx now ws s = (s', r) →
  match r with
  | Err _ => s' = s
  | Ok _ => ∀ k,
      (∃ w batch, w ∈ ws ∧ sw_Events w ≠ [] ∧ sw_key w = k ∧
         len (stream_at s k) = ExpectedSeq w ∧
         staged_batch w now 0 (sw_Events w) batch ∧
         stream_at s' k = stream_at s k ++ batch) ∨
      ((∀ w, w ∈ ws → sw_Events w ≠ [] → sw_key w ≠ k) ∧ stream_at s' k = stream_at s k)
  end.
Proof.
  intros Ha. destruct r as [[]|e]; [|by eapply AppendAtomic_err].
  intros k. destruct (AppendAtomic_ok _ _ _ _ _ k Ha) as [(w & b & Hw & ?)|[Hno Heq]].
  - left. exists w, b. unfold liveWrites in Hw. apply list_elem_of_filter in Hw. tauto.
  - right. split; [|done]. intros w Hw Hne. apply Hno. unfold liveWrites.
    by apply list_elem_of_filter.
Qed.

(** Every append, whatever it reports, keeps the log well-formed: streams
    numbered from 1 without gaps, global sequence numbers increasing along a
    stream and unique across the log. *)
Theorem append_atomic_wf ctx now ws s s' r :
  AppendAtomic ctx now ws s = (s', r) → wf_store s → wf_store s'.
Proof. apply wf_after_append. Qed.

(** A claim is exclusive: once some caller's [Claim] at a position has
    won, every later [Claim] or [Append] at that position of that stream, by
    anyone and however the log has grown since, loses and changes nothing. *)
Theorem claim_exclusive ctx now ty id n marker s s1 s2 ctx' now' marker' s3 r :
  Claim ctx now ty id n marker s = (s1, Ok true) →
  stream_at s1 (streamKey ty id) `prefix_of` stream_at s2 (streamKey ty id) →
  Claim ctx' now' ty id n marker' s2 = (s3, r) →
  r ≠ Ok true ∧ s3 = s2.
Proof.
  unfold Claim. intros H1 Hpre H2.
  destruct (Append ctx now ty id n [marker] s) as [s1' r1] eqn:Ha1.
  destruct (Append ctx' now' ty id n [marker'] s2) as [s3' r3] eqn:Ha2.
  injection H1 as <- Hr1. injection H2 as <- Hr3.
  destruct r1 as [[]|e1]; [|simpl in Hr1; destruct (Is _ _); discriminate].
  apply Append_ok in Ha1 as (Hn & b & Hb & Hs1); [|done].
  destruct r3 as [[]|e3]; simpl in Hr3.
  - exfalso. apply Append_ok in Ha2 as (Hn2 & _); [|done].
    apply prefix_length_le in Hpre. rewrite Hs1, length_app in Hpre.
    destruct b as [|e b]; simpl in *; [done|lia].
  - apply AppendAtomic_err in Ha2. split; [|done]. destruct (Is _ _); naive_solver.
Qed.

(** A batch whose events all marshal is staged. *)
Lemma stageEvents_total w now i ms :
  (∀ m, m ∈ ms → is_Some (marshal m)) → ∃ batch, stageEvents w now i ms = Ok batch.
Proof.
  revert i. induction ms as [|m ms IH]; intros i Hall; simpl; [by eexists|].
  destruct (Hall m) as [b ->]; [left|].
  destruct (IH (i + 1)) as [batch ->]; [intros; apply Hall; by right|]. by eexists.
Qed.

(** On a well-formed batch whose messages marshal, [AppendAtomic] decides
    by position alone: it lands when every write's [ExpectedSeq] is the
    stream's length, and otherwise answers [ErrConcurrencyConflict]. *)
Theorem append_atomic_decides now ws s :
  validateWrites (liveWrites ws) = Ok tt →
  (∀ w m, w ∈ ws → m ∈ sw_Events w → is_Some (marshal m)) →
  snd (AppendAtomic None now ws s) =
    if bool_decide (Forall (λ w, len (stream_at s (sw_key w)) = ExpectedSeq w) (liveWrites ws))
    then Ok tt else Err conflict.
Proof.
  intros Hv Hm. unfold AppendAtomic. rewrite Hv.
  assert (Hms : ∀ w m, w ∈ liveWrites ws → m ∈ sw_Events w → is_Some (marshal m)).
  { intros w m Hw. apply Hm. unfold liveWrites in Hw. by apply list_elem_of_filter in Hw as []. }
  clear Hv Hm. revert Hms. generalize (liveWrites ws) as ls. intros ls Hms.
  assert (Hst : (Forall (λ w, len (stream_at s (sw_key w)) = ExpectedSeq w) ls ∧
                   ∃ st, stageWrites s now ls = Ok st) ∨
                (¬ Forall (λ w, len (stream_at s (sw_key w)) = ExpectedSeq w) ls ∧
                   stageWrites s now ls = Err conflict)).
  { induction ls as [|w ls IH]; simpl; [left; split; [constructor | by eexists]|].
    case_bool_decide as Hl.
    - destruct (stageEvents_total w now 0 (sw_Events w)) as [b ->]; [intros m; apply Hms; left|].
      destruct IH as [[Hf [st ->]]|[Hf ->]]; [intros w' m Hw; apply Hms; by right| |]; simpl.
      + left. split; [by constructor | by eexists].
      + right. split; [|done]. intros Hc. inversion Hc; by subst.
    - right. split; [|done]. intros Hc. inversion Hc; by subst. }
  destruct ls as [|w ls]; [by rewrite bool_decide_true by constructor|].
  destruct Hst as [[Hf [st ->]]|[Hf ->]].
  - by rewrite bool_decide_true.
  - by rewrite bool_decide_false.
Qed.

(** [streamKey] keeps streams apart because no aggregate type holds a NUL. *)
Fixpoint no_nul (t : string) : bool :=
  match t with
  | EmptyString => true
  | String a t => negb (Ascii.eqb a NUL) && no_nul t
  end.

Lemma streamKey_inj ty1 id1 ty2 id2 :
  no_nul ty1 = true → no_nul ty2 = true →
  streamKey ty1 id1 = streamKey ty2 id2 → ty1 = ty2 ∧ id1 = id2.
Proof.
  unfold streamKey. revert ty2. induction ty1 as [|a t IH]; intros [|b t2]; simpl.
  - intros _ _ [= ->]. done.
  - intros _ [Hb _]%andb_prop [= <- _]. by rewrite Ascii.eqb_refl in Hb.
  - intros [Ha _]%andb_prop _ [= -> _]. by rewrite Ascii.eqb_refl in Ha.
  - intros [_ H1]%andb_prop [_ H2]%andb_prop [= -> Heq].
    destruct (IH _ H1 H2 Heq) as [-> ->]. done.
Qed.
End properties.

(** ** The theorems at work *)

Definition sampleWrite (seq : Z) : StreamWrite :=
  mkStreamWrite "transfer" "t" seq [TransferStaged "t"; TransferPending "t"].

Definition sampleAppend : MemoryStore * result unit :=
  AppendAtomic None 7 [sampleWrite 0] NewMemoryStore.

Lemma append_atomic_all_or_nothing_witness :
  snd sampleAppend = Ok tt ∧
  ∀ k, (∃ w batch, w ∈ [sampleWrite 0] ∧ sw_Events w ≠ [] ∧ sw_key w = k ∧
         len (stream_at NewMemoryStore k) = ExpectedSeq w ∧
         staged_batch w 7 0 (sw_Events w) batch ∧
         stream_at (fst sampleAppend) k = stream_at NewMemoryStore k ++ batch) ∨
       ((∀ w, w ∈ [sampleWrite 0] → sw_Events w ≠ [] → sw_key w ≠ k) ∧
        stream_at (fst sampleAppend) k = stream_at NewMemoryStore k).
Proof.
  pose proof (append_atomic_all_or_nothing None 7 [sampleWrite 0] NewMemoryStore _ _
                (surjective_pairing sampleAppend)) as Hw.
  assert (snd sampleAppend = Ok tt) as Hr by evaluate. split; [exact Hr|]. rewrite Hr in Hw. exact Hw.
Defined.

Lemma append_atomic_wf_witness : wf_store (fst sampleAppend).
Proof.
  apply (append_atomic_wf None 7 [sampleWrite 0] NewMemoryStore _ _ (surjective_pairing sampleAppend)).
  apply NewMemoryStore_wf.
Defined.

Definition firstClaim : MemoryStore * result bool :=
  Claim None 7 "transfer" "t" 0 (StagingTransferStarted "t") NewMemoryStore.

Lemma claim_exclusive_witness :
  snd firstClaim = Ok true ∧
  snd (Claim None 8 "transfer" "t" 0 (TransferCommittingStarted "t") (fst firstClaim)) ≠ Ok true ∧
  fst (Claim None 8 "transfer" "t" 0 (TransferCommittingStarted "t") (fst firstClaim)) = fst firstClaim.
Proof.
  assert (snd firstClaim = Ok true) as Hwon by evaluate. split; [exact Hwon|].
  eapply (claim_exclusive None 7 "transfer" "t" 0 (StagingTransferStarted "t") NewMemoryStore (fst firstClaim) (fst firstClaim)).
  - transitivity (fst firstClaim, snd firstClaim); [apply surjective_pairing | by rewrite Hwon].
  - reflexivity.
  - apply surjective_pairing.
Defined.

Lemma append_atomic_decides_witness :
  snd (AppendAtomic None 7 [sampleWrite 1] NewMemoryStore) =
    if bool_decide (Forall (λ w, len (stream_at NewMemoryStore (sw_key w)) = ExpectedSeq w) (liveWrites [sampleWrite 1]))
    then Ok tt else Err conflict.
Proof.
  apply (append_atomic_decides 7 [sampleWrite 1] NewMemoryStore); [evaluate|]. intros w m _ _. by exists m.
Defined.
