(* ===== verification/Ledger.v ===== *)
(** * The ledger ([go/internal/ledger])

    The boundary to TigerBeetle: accounts, transfers and their result codes,
    the batch ceiling, balances, and [FakeClient], the in-memory client with
    full double-entry bookkeeping (two-phase pending transfers, account flags,
    linked-chain atomicity). TigerBeetle itself is not under [src/]; the
    services are verified against the abstract client of [Effects], and
    [FakeClient] is the executable one. *)

From S2P Require Import Prelude Proto.

(** ** client.go *)

Definition BatchMax : Z := 253.

Definition ErrBatchTooLarge_error (n : Z) : error :=
  mkError None [ErrBatchTooLarge; ErrInvalidRequest] ("ledger: invalid request: got " +:+ decimal n).

Definition checkBatchSize (n : Z) : result unit :=
  if BatchMax <? n then Err (ErrBatchTooLarge_error n) else Ok tt.

Record AccountFlags : Type := mkFlags {
  fl_Linked : bool;
  CreditsMustNotExceedDebits : bool;
  DebitsMustNotExceedCredits : bool
}.

Record Account : Type := mkAccount { ac_ID : string; ac_Currency : string; ac_Flags : AccountFlags }.

Inductive AccountResultCode : Type :=
| AccountResultUnspecified | AccountResultOK | AccountResultExists
| AccountResultExistsWithDifferentFlags | AccountResultLinkedEventFailed | AccountResultInvalid.

#[global] Instance AccountResultCode_eq_dec : EqDecision AccountResultCode.
Proof. solve_decision. Defined.

Record AccountResult : Type := mkAccountResult { ar_Index : Z; ar_Result : AccountResultCode }.

Inductive TransferKind : Type :=
| TransferKindUnspecified | TransferKindRegular | TransferKindPending
| TransferKindPostPending | TransferKindVoidPending.

#[global] Instance TransferKind_eq_dec : EqDecision TransferKind.
Proof. solve_decision. Defined.

Record Transfer : Type := mkTransfer {
  t_ID : string;
  DebitAccountID : string;
  CreditAccountID : string;
  t_MinorUnits : Z;
  t_Currency : string;
  Linked : bool;
  Kind : TransferKind;
  PendingID : string;
  Timeout : Z
}.

Inductive TransferResultCode : Type :=
| TransferResultUnspecified | TransferResultOK | TransferResultExists
| TransferResultExistsWithDifferentFields | TransferResultExceedsCredits
| TransferResultExceedsDebits | TransferResultLinkedEventFailed
| TransferResultPendingTransferNotFound | TransferResultAccountNotFound | TransferResultInvalid.

#[global] Instance TransferResultCode_eq_dec : EqDecision TransferResultCode.
Proof. solve_decision. Defined.

Record TransferResult : Type := mkTransferResult { tr_Index : Z; tr_Result : TransferResultCode }.

Record Balance : Type := mkBalance {
  b_Currency : string;
  DebitsPosted : Z;
  CreditsPosted : Z;
  DebitsPending : Z;
  CreditsPending : Z
}.

Definition PostedNet (b : Balance) : result Z :=
  if (MaxInt64 <? CreditsPosted b) || (MaxInt64 <? DebitsPosted b) then
    Err (plain "ledger: posted totals overflow int64")
  else Ok (i64 (CreditsPosted b - DebitsPosted b)).

(** ** result_code.go *)

Definition AccountResultCode_String (c : AccountResultCode) : string :=
  match c with
  | AccountResultUnspecified => "unspecified"
  | AccountResultOK => "ok"
  | AccountResultExists => "exists"
  | AccountResultExistsWithDifferentFlags => "exists_with_different_flags"
  | AccountResultLinkedEventFailed => "linked_event_failed"
  | AccountResultInvalid => "invalid"
  end.

Definition TransferResultCode_String (c : TransferResultCode) : string :=
  match c with
  | TransferResultUnspecified => "unspecified"
  | TransferResultOK => "ok"
  | TransferResultExists => "exists"
  | TransferResultExistsWithDifferentFields => "exists_with_different_fields"
  | TransferResultExceedsCredits => "exceeds_credits"
  | TransferResultExceedsDebits => "exceeds_debits"
  | TransferResultLinkedEventFailed => "linked_event_failed"
  | TransferResultPendingTransferNotFound => "pending_transfer_not_found"
  | TransferResultAccountNotFound => "account_not_found"
  | TransferResultInvalid => "invalid"
  end.

(** ** currency.go *)

Definition ledgerIDs : list (string * Z) := [("USD", 1)].

Definition LedgerID (currency : string) : result Z :=
  match (list_to_map ledgerIDs : gmap string Z) !! currency with
  | Some id => Ok id
  | None => Err (plain ("ledger: unknown currency " +:+ quoted currency))
  end.

Definition CurrencyOf (ledgerID : Z) : result string :=
  match list_find (λ '(_, id), id = ledgerID) ledgerIDs with
  | Some (_, (currency, _)) => Ok currency
  | None => Err (plain "ledger: unknown ledger id")
  end.

(** ** fake_client.go *)

Record storedAccount : Type := mkStoredAccount {
  sa_currency : string;
  creditsMustNotExceedDebits : bool;
  debitsMustNotExceedCredits : bool;
  debitsPosted : Z;
  creditsPosted : Z;
  debitsPending : Z;
  creditsPending : Z
}.

Definition matches (a : storedAccount) (other : Account) : bool :=
  bool_decide (sa_currency a = ac_Currency other) &&
  Bool.eqb (creditsMustNotExceedDebits a) (CreditsMustNotExceedDebits (ac_Flags other)) &&
  Bool.eqb (debitsMustNotExceedCredits a) (DebitsMustNotExceedCredits (ac_Flags other)).

Record storedTransfer : Type := mkStoredTransfer {
  st_debitAccountID : string;
  st_creditAccountID : string;
  st_minorUnits : Z;
  st_currency : string;
  st_kind : TransferKind;
  st_pendingID : string
}.

#[global] Instance storedTransfer_eq_dec : EqDecision storedTransfer.
Proof. solve_decision. Defined.

Definition newStoredTransfer (t : Transfer) : storedTransfer :=
  mkStoredTransfer (DebitAccountID t) (CreditAccountID t) (t_MinorUnits t) (t_Currency t)
    (Kind t) (PendingID t).

Inductive pendingStatus : Type := pendingOpen | pendingPosted | pendingVoided.

#[global] Instance pendingStatus_eq_dec : EqDecision pendingStatus.
Proof. solve_decision. Defined.

Record pendingRecord : Type := mkPendingRecord {
  pr_debitAccountID : string;
  pr_creditAccountID : string;
  pr_minorUnits : Z;
  pr_status : pendingStatus
}.

Record FakeClient : Type := mkFakeClient {
  accounts : gmap string storedAccount;
  transfers : gmap string storedTransfer;
  pending : gmap string pendingRecord
}.

Definition NewFakeClient : FakeClient := mkFakeClient ∅ ∅ ∅.

(** [linkedRuns], on the entries themselves: the runs, in order, are the
    batch cut after every unlinked entry. *)
Section linked_runs.
Context {A : Type} (isLinked : A → bool).

Fixpoint runsFrom (current xs : list A) : list (list A) :=
  match xs with
  | [] => []
  | x :: xs =>
      if isLinked x then runsFrom (current ++ [x]) xs
      else (current ++ [x]) :: runsFrom [] xs
  end.

Definition linkedRuns (xs : list A) : result (list (list A)) :=
  match last xs with
  | None => Ok []
  | Some x =>
      if isLinked x then
        Err (mkError None [ErrBatchEndsInLinkedChain; ErrInvalidRequest]
               "ledger: invalid request: batch's last entry has Linked set")
      else Ok (runsFrom [] xs)
  end.
End linked_runs.

(** One account of a run, against the accounts as they stand: its result and
    whether it still needs committing. *)
Definition accountOutcome (c : FakeClient) (a : Account) : AccountResultCode * bool :=
  match accounts c !! ac_ID a with
  | Some existing =>
      if matches existing a then (AccountResultExists, false)
      else (AccountResultExistsWithDifferentFlags, false)
  | None =>
      match LedgerID (ac_Currency a) with
      | Err _ => (AccountResultInvalid, false)
      | Ok _ => (AccountResultOK, true)
      end
  end.

Definition accountFailed (o : AccountResultCode * bool) : bool :=
  match fst o with AccountResultOK | AccountResultExists => false | _ => true end.

Definition commitAccount (c : FakeClient) (a : Account) : FakeClient :=
  mkFakeClient
    (<[ac_ID a := mkStoredAccount (ac_Currency a) (CreditsMustNotExceedDebits (ac_Flags a))
                    (DebitsMustNotExceedCredits (ac_Flags a)) 0 0 0 0]> (accounts c))
    (transfers c) (pending c).

Definition runAccounts (c : FakeClient) (run : list Account) : FakeClient * list AccountResultCode :=
  let outcomes := accountOutcome c <$> run in
  if existsb accountFailed outcomes then
    (c, (λ o, if decide (fst o = AccountResultOK) then AccountResultLinkedEventFailed else fst o) <$> outcomes)
  else
    (foldl (λ c '(a, o), if snd o : bool then commitAccount c a else c) c (zip run outcomes),
     fst <$> outcomes).

Fixpoint eachRun {A R} (f : FakeClient → list A → FakeClient * list R) (c : FakeClient)
    (runs : list (list A)) : FakeClient * list R :=
  match runs with
  | [] => (c, [])
  | run :: runs =>
      let '(c', rs) := f c run in
      let '(c'', rest) := eachRun f c' runs in (c'', rs ++ rest)
  end.

Definition CreateAccounts (c : FakeClient) (accs : list Account)
    : FakeClient * result (list AccountResult) :=
  match checkBatchSize (len accs) with
  | Err e => (c, Err e)
  | Ok _ =>
      match linkedRuns (fl_Linked ∘ ac_Flags) accs with
      | Err e => (c, Err e)
      | Ok runs =>
          let '(c', codes) := eachRun runAccounts c runs in
          (c', Ok (imap (λ i r, mkAccountResult (Z.of_nat i) r) codes))
      end
  end.

(** The tentative state of one run of transfers. *)
Record shadowState : Type := mkShadow {
  shadow : gmap string storedAccount;
  shadowPending : gmap string pendingStatus
}.

(** [getAccount], which also caches what it read. *)
Definition getAccount (c : FakeClient) (sh : shadowState) (id : string)
    : shadowState * option storedAccount :=
  match shadow sh !! id with
  | Some a => (sh, Some a)
  | None =>
      match accounts c !! id with
      | Some a => (mkShadow (<[id := a]> (shadow sh)) (shadowPending sh), Some a)
      | None => (sh, None)
      end
  end.

Definition pendingStatusFor (c : FakeClient) (sh : shadowState) (id : string) : option pendingStatus :=
  match shadowPending sh !! id with
  | Some s => Some s
  | None => pr_status <$> pending c !! id
  end.

Definition add_debitsPosted (x : Z) (a : storedAccount) : storedAccount :=
  mkStoredAccount (sa_currency a) (creditsMustNotExceedDebits a) (debitsMustNotExceedCredits a)
    (u64 (debitsPosted a + x)) (creditsPosted a) (debitsPending a) (creditsPending a).
Definition add_creditsPosted (x : Z) (a : storedAccount) : storedAccount :=
  mkStoredAccount (sa_currency a) (creditsMustNotExceedDebits a) (debitsMustNotExceedCredits a)
    (debitsPosted a) (u64 (creditsPosted a + x)) (debitsPending a) (creditsPending a).
Definition add_debitsPending (x : Z) (a : storedAccount) : storedAccount :=
  mkStoredAccount (sa_currency a) (creditsMustNotExceedDebits a) (debitsMustNotExceedCredits a)
    (debitsPosted a) (creditsPosted a) (u64 (debitsPending a + x)) (creditsPending a).
Definition add_creditsPending (x : Z) (a : storedAccount) : storedAccount :=
  mkStoredAccount (sa_currency a) (creditsMustNotExceedDebits a) (debitsMustNotExceedCredits a)
    (debitsPosted a) (creditsPosted a) (debitsPending a) (u64 (creditsPending a + x)).

(** The [switch t.Kind] of [CreateTransfers]: the two accounts after the
    transfer and the pending statuses, or [None] when the pending transfer it
    settles is not open or does not match. An unlisted kind falls through. *)
Definition applyKind (c : FakeClient) (sh : shadowState) (t : Transfer) (debit credit : storedAccount)
    : option (storedAccount * storedAccount * shadowState) :=
  let x := t_MinorUnits t in
  match Kind t with
  | TransferKindRegular => Some (add_debitsPosted x debit, add_creditsPosted x credit, sh)
  | TransferKindPending => Some (add_debitsPending x debit, add_creditsPending x credit, sh)
  | TransferKindPostPending | TransferKindVoidPending =>
      match pendingStatusFor c sh (PendingID t), pending c !! PendingID t with
      | Some pendingOpen, Some rec =>
          if bool_decide (pr_debitAccountID rec = DebitAccountID t) &&
             bool_decide (pr_creditAccountID rec = CreditAccountID t) &&
             (pr_minorUnits rec =? x)
          then
            let debit := add_debitsPending (- x) debit in
            let credit := add_creditsPending (- x) credit in
            let settle st := mkShadow (shadow sh) (<[PendingID t := st]> (shadowPending sh)) in
            if decide (Kind t = TransferKindPostPending) then
              Some (add_debitsPosted x debit, add_creditsPosted x credit, settle pendingPosted)
            else Some (debit, credit, settle pendingVoided)
          else None
      | _, _ => None
      end
  | TransferKindUnspecified => Some (debit, credit, sh)
  end.

Definition exceedsCredits (a : storedAccount) : bool :=
  debitsMustNotExceedCredits a &&
  (u64 (creditsPosted a + creditsPending a) <? u64 (debitsPosted a + debitsPending a)).
Definition exceedsDebits (a : storedAccount) : bool :=
  creditsMustNotExceedDebits a &&
  (u64 (debitsPosted a + debitsPending a) <? u64 (creditsPosted a + creditsPending a)).

(** One transfer of a run: the tentative state after it, its result, and
    whether it is new and still needs committing. *)
Definition transferOutcome (c : FakeClient) (sh : shadowState) (t : Transfer)
    : shadowState * (TransferResultCode * bool) :=
  match transfers c !! t_ID t with
  | Some existing =>
      if decide (existing = newStoredTransfer t) then (sh, (TransferResultExists, false))
      else (sh, (TransferResultExistsWithDifferentFields, false))
  | None =>
      let '(sh, debit) := getAccount c sh (DebitAccountID t) in
      let '(sh, credit) := getAccount c sh (CreditAccountID t) in
      match debit, credit with
      | Some debit, Some credit =>
          match applyKind c sh t debit credit with
          | None => (sh, (TransferResultPendingTransferNotFound, false))
          | Some (debit, credit, sh) =>
              if exceedsCredits debit then (sh, (TransferResultExceedsCredits, false))
              else if exceedsDebits credit then (sh, (TransferResultExceedsDebits, false))
              else
                (mkShadow (<[CreditAccountID t := credit]> (<[DebitAccountID t := debit]> (shadow sh)))
                   (shadowPending sh),
                 (TransferResultOK, true))
          end
      | _, _ => (sh, (TransferResultAccountNotFound, false))
      end
  end.

Fixpoint runOutcomes (c : FakeClient) (sh : shadowState) (run : list Transfer)
    : shadowState * list (TransferResultCode * bool) :=
  match run with
  | [] => (sh, [])
  | t :: run =>
      let '(sh, o) := transferOutcome c sh t in
      let '(sh, os) := runOutcomes c sh run in (sh, o :: os)
  end.

Definition accepted (r : TransferResultCode) : bool :=
  match r with TransferResultOK | TransferResultExists => true | _ => false end.
Definition transferFailed (o : TransferResultCode * bool) : bool := negb (accepted (fst o)).

Definition zeroAccount : storedAccount := mkStoredAccount "" false false 0 0 0 0.

Definition setStatus (st : pendingStatus) (r : pendingRecord) : pendingRecord :=
  mkPendingRecord (pr_debitAccountID r) (pr_creditAccountID r) (pr_minorUnits r) st.

Definition commitPending (t : Transfer) (p : gmap string pendingRecord) : gmap string pendingRecord :=
  match Kind t with
  | TransferKindPending =>
      <[t_ID t := mkPendingRecord (DebitAccountID t) (CreditAccountID t) (t_MinorUnits t) pendingOpen]> p
  | TransferKindPostPending => alter (setStatus pendingPosted) (PendingID t) p
  | TransferKindVoidPending => alter (setStatus pendingVoided) (PendingID t) p
  | _ => p
  end.

Definition commitTransfer (sh : gmap string storedAccount) (c : FakeClient) (t : Transfer) : FakeClient :=
  mkFakeClient
    (<[CreditAccountID t := default zeroAccount (sh !! CreditAccountID t)]>
       (<[DebitAccountID t := default zeroAccount (sh !! DebitAccountID t)]> (accounts c)))
    (<[t_ID t := newStoredTransfer t]> (transfers c))
    (commitPending t (pending c)).

Definition runTransfers (c : FakeClient) (run : list Transfer) : FakeClient * list TransferResultCode :=
  let '(sh, outcomes) := runOutcomes c (mkShadow ∅ ∅) run in
  if existsb transferFailed outcomes then
    (c, (λ o, if decide (fst o = TransferResultOK) then TransferResultLinkedEventFailed else fst o) <$> outcomes)
  else
    (foldl (λ c '(t, o), if snd o : bool then commitTransfer (shadow sh) c t else c) c (zip run outcomes),
     fst <$> outcomes).

Definition CreateTransfers (c : FakeClient) (ts : list Transfer)
    : FakeClient * result (list TransferResult) :=
  match checkBatchSize (len ts) with
  | Err e => (c, Err e)
  | Ok _ =>
      match linkedRuns Linked ts with
      | Err e => (c, Err e)
      | Ok runs =>
          let '(c', codes) := eachRun runTransfers c runs in
          (c', Ok (imap (λ i r, mkTransferResult (Z.of_nat i) r) codes))
      end
  end.

Definition balanceOf (a : storedAccount) : Balance :=
  mkBalance (sa_currency a) (debitsPosted a) (creditsPosted a) (debitsPending a) (creditsPending a).

Definition Balances (c : FakeClient) (accountIDs : list string) : gmap string Balance :=
  foldl (λ balances id,
    match accounts c !! id with
    | None => balances
    | Some a => <[id := balanceOf a]> balances
    end) ∅ accountIDs.

(** ** Linked runs *)

Section linked_runs_facts.
Context {A : Type} (isLinked : A → bool).

(** A chain: every entry but the last is linked to the next. *)
Definition chain (xs : list A) : Prop :=
  ∃ ini z, xs = ini ++ [z] ∧ Forall (λ x, isLinked x = true) ini ∧ isLinked z = false.

Lemma runsFrom_chain cur xs z :
  Forall (λ x, isLinked x = true) xs → isLinked z = false →
  runsFrom isLinked cur (xs ++ [z]) = [cur ++ xs ++ [z]].
Proof.
  revert cur. induction xs as [|x xs IH]; intros cur Hxs Hz; simpl; [by rewrite Hz|].
  inversion Hxs as [|?? Hx Hxs']; subst. rewrite Hx, IH by done. by rewrite <- (assoc_L (++)).
Qed.

Lemma linkedRuns_chain xs : chain xs → linkedRuns isLinked xs = Ok [xs].
Proof.
  intros (ini & z & -> & Hi & Hz). unfold linkedRuns.
  rewrite last_snoc, Hz. by rewrite runsFrom_chain.
Qed.

Lemma runsFrom_concat cur xs z :
  isLinked z = false → concat (runsFrom isLinked cur (xs ++ [z])) = cur ++ xs ++ [z].
Proof.
  revert cur. induction xs as [|x xs IH]; intros cur Hz; simpl.
  { rewrite Hz. simpl. by rewrite app_nil_r. }
  destruct (isLinked x); simpl; rewrite IH by done; by rewrite <- !(assoc_L (++)).
Qed.

Lemma linkedRuns_concat xs runs : linkedRuns isLinked xs = Ok runs → concat runs = xs.
Proof.
  unfold linkedRuns. destruct xs as [|z xs _] using rev_ind; [by intros [= <-]|].
  rewrite last_snoc. destruct (isLinked z) eqn:Hz; [done|]. intros [= <-].
  by rewrite runsFrom_concat.
Qed.
End linked_runs_facts.

(** ** Double entry *)

Section double_entry.
Implicit Types (c : FakeClient) (sh : shadowState) (t : Transfer) (a : storedAccount).

Definition net_posted a : Z := debitsPosted a - creditsPosted a.
Definition net_pending a : Z := debitsPending a - creditsPending a.

(** Total debits equal total credits, posted and pending alike, in the
    machine's own arithmetic. *)
Definition balanced (m : gmap string storedAccount) : Prop :=
  (two64 | msum net_posted m) ∧ (two64 | msum net_pending m).

(** The accounts as a run sees them. *)
Definition view c sh : gmap string storedAccount := shadow sh ∪ accounts c.

Lemma getAccount_view c sh id sh' o :
  getAccount c sh id = (sh', o) →
  view c sh' = view c sh ∧ o = view c sh !! id ∧ shadowPending sh' = shadowPending sh ∧
  (∀ i, is_Some (shadow sh !! i) → is_Some (shadow sh' !! i)) ∧
  (is_Some o → is_Some (shadow sh' !! id)).
Proof.
  unfold getAccount, view. destruct (shadow sh !! id) as [a|] eqn:Hs.
  { intros [= <- <-]. split_and!; auto. symmetry. by apply lookup_union_Some_l. }
  destruct (accounts c !! id) as [a|] eqn:Ha; intros [= <- <-]; simpl.
  - split_and!; auto.
    + rewrite <- insert_union_l. apply insert_id. by rewrite lookup_union_r.
    + by rewrite lookup_union_r.
    + intros i Hi. destruct (decide (id = i)) as [->|]; [by rewrite lookup_insert_eq|].
      by rewrite lookup_insert_ne.
    + intros _. by rewrite lookup_insert_eq.
  - split_and!; auto; [by rewrite lookup_union_r | by intros []].
Qed.

Ltac cong_witness :=
  repeat match goal with |- context [u64 ?z] =>
    let q := fresh "q" in let Hq := fresh "Hq" in
    destruct (u64_cong z) as [q Hq]; rewrite Hq; clear Hq end.

(** Whatever its kind, a transfer changes the two sides by the same amount. *)
Lemma applyKind_net c sh t d cr d' cr' sh' :
  applyKind c sh t d cr = Some (d', cr', sh') →
  shadow sh' = shadow sh ∧
  (two64 | net_posted d' - net_posted d + (net_posted cr' - net_posted cr)) ∧
  (two64 | net_pending d' - net_pending d + (net_pending cr' - net_pending cr)).
Proof.
  unfold applyKind, net_posted, net_pending.
  destruct (Kind t).
  - intros [= <- <- <-]. split_and!; [done|exists 0; lia..].
  - intros [= <- <- <-]; simpl. split_and!; [done|cong_witness|exists 0; lia].
    exists (q - q0). lia.
  - intros [= <- <- <-]; simpl. split_and!; [done|exists 0; lia|cong_witness].
    exists (q - q0). lia.
  - destruct (pendingStatusFor _ _ _) as [[]|]; try done.
    destruct (pending c !! _) as [rec|]; [|done]. destruct (_ && _); [|done].
    simpl. intros [= <- <- <-]; simpl. split_and!; [done|cong_witness|cong_witness];
      exists (q - q0); lia.
  - destruct (pendingStatusFor _ _ _) as [[]|]; try done.
    destruct (pending c !! _) as [rec|]; [|done]. destruct (_ && _); [|done].
    simpl. intros [= <- <- <-]; simpl. split_and!; [done|exists 0; lia|cong_witness].
    exists (q - q0). lia.
Qed.

Lemma msum_two_sides (f : storedAccount → Z) (m : gmap string storedAccount) i j d cr d' cr' :
  i ≠ j → m !! i = Some d → m !! j = Some cr →
  msum f (<[j := cr']> (<[i := d']> m)) = msum f m + (f d' - f d + (f cr' - f cr)).
Proof.
  intros Hij Hi Hj. rewrite (msum_insert f _ j cr) by by rewrite lookup_insert_ne.
  rewrite (msum_insert f _ i d) by done. lia.
Qed.

(** What one transfer of a run does to the run's view. *)
Lemma transferOutcome_view c sh t sh' r fresh :
  transferOutcome c sh t = (sh', (r, fresh)) →
  DebitAccountID t ≠ CreditAccountID t →
  balanced (view c sh) →
  balanced (view c sh') ∧
  (∀ i, is_Some (shadow sh !! i) → is_Some (shadow sh' !! i)) ∧
  (∀ i, view c sh' !! i = view c sh !! i ∨
        (fresh = true ∧ (i = DebitAccountID t ∨ i = CreditAccountID t))) ∧
  (fresh = true → is_Some (shadow sh' !! DebitAccountID t) ∧ is_Some (shadow sh' !! CreditAccountID t)).
Proof.
  unfold transferOutcome. intros Ho Hne Hbal.
  destruct (transfers c !! t_ID t) as [ex|].
  { case_decide; simplify_eq; split_and!; auto; discriminate. }
  destruct (getAccount c sh (DebitAccountID t)) as [sh1 od] eqn:Hd.
  destruct (getAccount c sh1 (CreditAccountID t)) as [sh2 oc] eqn:Hc.
  apply getAccount_view in Hd as (Hv1 & Hod & _ & Hm1 & _).
  apply getAccount_view in Hc as (Hv2 & Hoc & _ & Hm2 & _).
  rewrite Hv1 in Hv2, Hoc.
  assert (Hkeep : ∀ x, (sh2, x) = (sh', (r, fresh)) → snd x = false →
    balanced (view c sh') ∧ (∀ i, is_Some (shadow sh !! i) → is_Some (shadow sh' !! i)) ∧
    (∀ i, view c sh' !! i = view c sh !! i ∨
          (fresh = true ∧ (i = DebitAccountID t ∨ i = CreditAccountID t))) ∧
    (fresh = true → is_Some (shadow sh' !! DebitAccountID t) ∧ is_Some (shadow sh' !! CreditAccountID t))).
  { intros [r' f'] [= <- <- <-] ?; simpl in *; subst. rewrite Hv2. split_and!; auto. discriminate. }
  destruct od as [d|]; [|by eapply Hkeep].
  destruct oc as [cr|]; [|by eapply Hkeep].
  destruct (applyKind c sh2 t d cr) as [[[d' cr'] sh3]|] eqn:Hk; [|by eapply Hkeep].
  apply applyKind_net in Hk as (Hsh3 & Hnp & Hnq).
  assert (Hv3 : view c sh3 = view c sh) by (unfold view in *; by rewrite Hsh3).
  destruct (exceedsCredits d').
  { injection Ho as <- <- <-. rewrite Hv3, Hsh3. split_and!; auto. discriminate. }
  destruct (exceedsDebits cr').
  { injection Ho as <- <- <-. rewrite Hv3, Hsh3. split_and!; auto. discriminate. }
  injection Ho as <- <- <-.
  assert (Hview : view c (mkShadow (<[CreditAccountID t := cr']> (<[DebitAccountID t := d']> (shadow sh3)))
                            (shadowPending sh3)) =
                  <[CreditAccountID t := cr']> (<[DebitAccountID t := d']> (view c sh))).
  { unfold view in *; simpl. rewrite <- !insert_union_l. by rewrite Hv3. }
  rewrite Hview. simpl. rewrite Hsh3. destruct Hbal as [Hbp Hbq]. split_and!.
  - split; rewrite (msum_two_sides _ _ _ _ d cr) by done; by apply Z.divide_add_r.
  - intros i Hi. apply lookup_insert_is_Some'. right. apply lookup_insert_is_Some'. right. auto.
  - intros i. destruct (decide (i = CreditAccountID t)); [auto|].
    destruct (decide (i = DebitAccountID t)); [auto|]. left. by rewrite !lookup_insert_ne.
  - intros _. split; [|by rewrite lookup_insert_eq].
    rewrite lookup_insert_ne by done. by rewrite lookup_insert_eq.
Qed.

(** The accounts a run's committed transfers write. *)
Definition touches (i : string) (x : Transfer * (TransferResultCode * bool)) : Prop :=
  snd (snd x) = true ∧ (i = DebitAccountID (fst x) ∨ i = CreditAccountID (fst x)).

#[local] Instance touches_dec i x : Decision (touches i x).
Proof. unfold touches. apply _. Defined.

Lemma runOutcomes_view c sh run sh' os :
  runOutcomes c sh run = (sh', os) →
  Forall (λ t, DebitAccountID t ≠ CreditAccountID t) run →
  balanced (view c sh) →
  balanced (view c sh') ∧
  (∀ i, is_Some (shadow sh !! i) → is_Some (shadow sh' !! i)) ∧
  (∀ i, view c sh' !! i = view c sh !! i ∨ Exists (touches i) (zip run os)) ∧
  (∀ i, Exists (touches i) (zip run os) → is_Some (shadow sh' !! i)).
Proof.
  revert sh sh' os. induction run as [|t run IH]; intros sh sh' os Hr Hne Hbal; simpl in Hr.
  { injection Hr as <- <-. split_and!; auto. intros i Hi. inversion Hi. }
  destruct (transferOutcome c sh t) as [sh1 [r f]] eqn:Ht.
  destruct (runOutcomes c sh1 run) as [sh2 os2] eqn:Hrun. injection Hr as <- <-.
  inversion Hne as [|?? Hne1 Hne2]; subst.
  destruct (transferOutcome_view _ _ _ _ _ _ Ht Hne1 Hbal) as (Hb1 & Hm1 & Hv1 & Hs1).
  destruct (IH _ _ _ Hrun Hne2 Hb1) as (Hb2 & Hm2 & Hv2 & Hs2).
  split_and!; auto.
  - intros i. simpl. destruct (Hv2 i) as [Heq|?]; [|by right; apply Exists_cons_tl].
    rewrite Heq. destruct (Hv1 i) as [?|[-> ?]]; [by left|]. right. by apply Exists_cons_hd.
  - intros i. simpl. intros Hi%Exists_cons. destruct Hi as [[Hf Hi]|Hi]; [|auto].
    simpl in *. destruct (Hs1 Hf). destruct Hi as [->| ->]; auto.
Qed.

Lemma commit_lookup (sh : gmap string storedAccount) c (l : list (Transfer * (TransferResultCode * bool))) (i : string) :
  accounts (foldl (λ c '(t, o), if snd o : bool then commitTransfer sh c t else c) c l) !! i =
    if decide (Exists (touches i) l) then Some (default zeroAccount (sh !! i)) else accounts c !! i.
Proof.
  induction l as [|[t [r f]] l IH] using rev_ind.
  { rewrite decide_False; [done|]. intros Hi. inversion Hi. }
  rewrite foldl_snoc. simpl.
  assert (Hsnoc : Exists (touches i) (l ++ [(t, (r, f))]) ↔
            Exists (touches i) l ∨ touches i (t, (r, f))).
  { rewrite Exists_app, Exists_cons, Exists_nil. tauto. }
  destruct f; simpl.
  - destruct (decide (i = CreditAccountID t)) as [->|Hc].
    { rewrite lookup_insert_eq, decide_True; [done|]. apply Hsnoc. right. by split; [|right]. }
    rewrite lookup_insert_ne by done. destruct (decide (i = DebitAccountID t)) as [->|Hd].
    { rewrite lookup_insert_eq, decide_True; [done|]. apply Hsnoc. right. by split; [|left]. }
    rewrite lookup_insert_ne by done. rewrite IH.
    apply decide_ext. rewrite Hsnoc. unfold touches at 3; simpl. intuition congruence.
  - rewrite IH. apply decide_ext. rewrite Hsnoc. unfold touches at 3; simpl. intuition congruence.
Qed.

Lemma runTransfers_balanced c run c' rs :
  runTransfers c run = (c', rs) →
  Forall (λ t, DebitAccountID t ≠ CreditAccountID t) run →
  balanced (accounts c) → balanced (accounts c').
Proof.
  unfold runTransfers. intros Hr Hne Hbal.
  destruct (runOutcomes c (mkShadow ∅ ∅) run) as [sh os] eqn:Ho.
  destruct (existsb transferFailed os); injection Hr as <- <-; [done|].
  assert (Hv0 : view c (mkShadow ∅ ∅) = accounts c) by (unfold view; simpl; by rewrite map_empty_union).
  destruct (runOutcomes_view _ _ _ _ _ Ho Hne) as (Hb & _ & Hv & Hs); [by rewrite Hv0|].
  rewrite Hv0 in Hv.
  enough (accounts (foldl (λ c '(t, o), if snd o : bool then commitTransfer (shadow sh) c t else c) c (zip run os))
          = view c sh) as -> by done.
  apply map_eq. intros i. rewrite commit_lookup. case_decide as Hi.
  - destruct (Hs i Hi) as [a Ha]. rewrite Ha. symmetry. by apply lookup_union_Some_l.
  - destruct (Hv i) as [->|?]; done.
Qed.

Lemma eachRun_balanced c runs c' rs :
  eachRun runTransfers c runs = (c', rs) →
  Forall (λ t, DebitAccountID t ≠ CreditAccountID t) (concat runs) →
  balanced (accounts c) → balanced (accounts c').
Proof.
  revert c rs. induction runs as [|run runs IH]; intros c rs; simpl; [by intros [= <- <-]|].
  destruct (runTransfers c run) as [c1 rs1] eqn:H1.
  destruct (eachRun runTransfers c1 runs) as [c2 rs2] eqn:H2.
  intros [= <- <-] [Hr Hrs]%Forall_app Hbal. eapply IH; [done|done|]. by eapply runTransfers_balanced.
Qed.
End double_entry.

(** ** Retrying *)

Section retry.
Implicit Types (c : FakeClient) (t : Transfer).

Lemma runOutcomes_length c sh run sh' os :
  runOutcomes c sh run = (sh', os) → length os = length run.
Proof.
  revert sh sh' os. induction run as [|t run IH]; intros sh sh' os; simpl; [by intros [= <- <-]|].
  destruct (transferOutcome c sh t) as [sh1 o]. destruct (runOutcomes c sh1 run) as [sh2 os2] eqn:Hr.
  intros [= <- <-]. simpl. f_equal. by eapply IH.
Qed.

(** An accepted entry is either new or already stored exactly as submitted. *)
Lemma transferOutcome_accepted c sh t sh' r fresh :
  transferOutcome c sh t = (sh', (r, fresh)) → accepted r = true →
  (r = TransferResultOK ∧ fresh = true) ∨
  (r = TransferResultExists ∧ fresh = false ∧ transfers c !! t_ID t = Some (newStoredTransfer t)).
Proof.
  unfold transferOutcome. destruct (transfers c !! t_ID t) as [ex|].
  { case_decide; intros [= <- <- <-]; simpl; [|done]. subst. by right. }
  destruct (getAccount _ _ _) as [sh1 [d|]], (getAccount _ _ _) as [sh2 [cr|]]; try by intros [= <- <- <-].
  destruct (applyKind _ _ _ _ _) as [[[d' cr'] sh3]|]; [|by intros [= <- <- <-]].
  destruct (exceedsCredits d'); [by intros [= <- <- <-]|].
  destruct (exceedsDebits cr'); [by intros [= <- <- <-]|]. intros [= <- <- <-]. by left.
Qed.

Lemma runOutcomes_accepted c sh run sh' os :
  runOutcomes c sh run = (sh', os) → existsb transferFailed os = false →
  Forall (λ x, snd (snd x) = true ∨
    (snd (snd x) = false ∧ transfers c !! t_ID (fst x) = Some (newStoredTransfer (fst x)))) (zip run os).
Proof.
  revert sh sh' os. induction run as [|t run IH]; intros sh sh' os; simpl; [by intros [= <- <-]|].
  destruct (transferOutcome c sh t) as [sh1 [r f]] eqn:Ht.
  destruct (runOutcomes c sh1 run) as [sh2 os2] eqn:Hr. intros [= <- <-]; simpl.
  intros [Hf Hos]%orb_false_iff. constructor; [|by eapply IH].
  unfold transferFailed in Hf. apply negb_false_iff in Hf.
  destruct (transferOutcome_accepted _ _ _ _ _ _ Ht Hf) as [[_ ->]|(_ & -> & ?)]; [by left | by right].
Qed.

Lemma commit_transfers_other (sh : gmap string storedAccount) c
    (l : list (Transfer * (TransferResultCode * bool))) id :
  (∀ x, x ∈ l → t_ID (fst x) ≠ id) →
  transfers (foldl (λ c '(t, o), if snd o : bool then commitTransfer sh c t else c) c l) !! id
  = transfers c !! id.
Proof.
  revert c. induction l as [|[t [r f]] l IH]; intros c Hid; simpl; [done|].
  rewrite IH by (intros; apply Hid; by right). destruct f; [|done]. simpl.
  apply lookup_insert_ne. apply (Hid (t, (r, true))). left.
Qed.

Lemma commit_transfers_in (sh : gmap string storedAccount) c
    (l : list (Transfer * (TransferResultCode * bool))) :
  NoDup (t_ID <$> l.*1) →
  Forall (λ x, snd (snd x) = true ∨
    (snd (snd x) = false ∧ transfers c !! t_ID (fst x) = Some (newStoredTransfer (fst x)))) l →
  ∀ x, x ∈ l →
  transfers (foldl (λ c '(t, o), if snd o : bool then commitTransfer sh c t else c) c l) !! t_ID (fst x)
  = Some (newStoredTransfer (fst x)).
Proof.
  revert c. induction l as [|[t [r f]] l IH]; intros c Hnd Hall x Hx; simpl; [by apply elem_of_nil in Hx|].
  simpl in Hnd. apply NoDup_cons in Hnd as [Hnin Hnd]. inversion Hall as [|?? Hhd Htl]; subst.
  assert (Hids : ∀ y, y ∈ l → t_ID (fst y) ≠ t_ID t).
  { intros y Hy Heq. apply Hnin. rewrite <- Heq. by do 2 apply list_elem_of_fmap_2. }
  assert (Htl' : Forall (λ x, snd (snd x) = true ∨ (snd (snd x) = false ∧
      transfers (if f then commitTransfer sh c t else c) !! t_ID (fst x) = Some (newStoredTransfer (fst x)))) l).
  { rewrite Forall_forall in Htl |- *. intros y Hy. destruct (Htl y Hy) as [?|[? Hl]]; [by left|].
    right. split; [done|]. destruct f; [|done]. simpl. rewrite lookup_insert_ne; [done|].
    intros Heq. by apply (Hids y Hy). }
  apply elem_of_cons in Hx as [->|Hx]; [|by apply IH].
  rewrite commit_transfers_other by done. destruct f; simpl.
  - by rewrite lookup_insert_eq.
  - destruct Hhd as [?|[_ Hl]]; done.
Qed.

Lemma zip_fst_os c sh run sh' os : runOutcomes c sh run = (sh', os) → (zip run os).*1 = run.
Proof. intros Hr. apply fst_zip. rewrite (runOutcomes_length _ _ _ _ _ Hr). done. Qed.

Lemma runTransfers_other c run c' rs id :
  runTransfers c run = (c', rs) → id ∉ t_ID <$> run → transfers c' !! id = transfers c !! id.
Proof.
  unfold runTransfers. destruct (runOutcomes _ _ _) as [sh os] eqn:Ho.
  destruct (existsb _ os); intros [= <- <-] Hid; [done|]. apply commit_transfers_other.
  intros x Hx Heq. apply Hid. rewrite <- Heq.
  rewrite <- (zip_fst_os _ _ _ _ _ Ho). by do 2 apply list_elem_of_fmap_2.
Qed.

Lemma runTransfers_stored c run c' rs t :
  runTransfers c run = (c', rs) → Forall (λ r, accepted r = true) rs → NoDup (t_ID <$> run) →
  t ∈ run → transfers c' !! t_ID t = Some (newStoredTransfer t).
Proof.
  unfold runTransfers. destruct (runOutcomes _ _ _) as [sh os] eqn:Ho.
  destruct (existsb _ os) eqn:Hex; intros [= <- <-] Hacc Hnd Ht.
  - exfalso. apply existsb_exists in Hex as (o & Ho1%list_elem_of_In & Hf).
    rewrite Forall_fmap, Forall_forall in Hacc. specialize (Hacc o Ho1). simpl in Hacc.
    unfold transferFailed in Hf. case_decide; [done|]. rewrite Hacc in Hf. done.
  - rewrite <- (zip_fst_os _ _ _ _ _ Ho) in Ht. apply list_elem_of_fmap in Ht as (x & -> & Hx).
    apply commit_transfers_in; [|by eapply runOutcomes_accepted|done].
    by rewrite (zip_fst_os _ _ _ _ _ Ho).
Qed.

Lemma eachRun_stored c runs c' rs :
  eachRun runTransfers c runs = (c', rs) → Forall (λ r, accepted r = true) rs →
  NoDup (t_ID <$> concat runs) →
  (∀ t, t ∈ concat runs → transfers c' !! t_ID t = Some (newStoredTransfer t)) ∧
  (∀ id, id ∉ t_ID <$> concat runs → transfers c' !! id = transfers c !! id).
Proof.
  revert c rs. induction runs as [|run runs IH]; intros c rs; simpl.
  { intros [= <- <-] _ _. split; [by intros ? ?%elem_of_nil | done]. }
  destruct (runTransfers c run) as [c1 rs1] eqn:H1.
  destruct (eachRun runTransfers c1 runs) as [c2 rs2] eqn:H2.
  intros [= <- <-] [Ha1 Ha2]%Forall_app Hnd. rewrite fmap_app in Hnd.
  apply NoDup_app in Hnd as (Hnd1 & Hdis & Hnd2).
  destruct (IH _ _ H2 Ha2 Hnd2) as [Hin Hout]. split.
  - intros t [Ht|Ht]%elem_of_app; [|auto]. rewrite Hout.
    + by eapply runTransfers_stored.
    + apply Hdis. by apply list_elem_of_fmap_2.
  - intros id. rewrite fmap_app, not_elem_of_app. intros [? ?]. rewrite Hout by done.
    by eapply runTransfers_other.
Qed.

(** A run every entry of which is stored answers Exists throughout. *)
Lemma runTransfers_exists c run :
  (∀ t, t ∈ run → transfers c !! t_ID t = Some (newStoredTransfer t)) →
  runTransfers c run = (c, replicate (length run) TransferResultExists).
Proof.
  intros Hin. unfold runTransfers.
  assert (Ho : ∀ sh, runOutcomes c sh run = (sh, replicate (length run) (TransferResultExists, false))).
  { intros sh. induction run as [|t run IH]; simpl; [done|].
    unfold transferOutcome. rewrite Hin by left. rewrite decide_True by done.
    rewrite IH; [done|]. intros; apply Hin; by right. }
  rewrite Ho. clear Ho Hin.
  assert (Hf : existsb transferFailed (replicate (length run) (TransferResultExists, false)) = false)
    by (induction run; simpl; auto).
  rewrite Hf. f_equal.
  - generalize c. induction run as [|t run IH]; intros c'; simpl; [done|]. apply IH. by induction run.
  - by rewrite fmap_replicate.
Qed.

Lemma eachRun_exists c runs :
  (∀ t, t ∈ concat runs → transfers c !! t_ID t = Some (newStoredTransfer t)) →
  eachRun runTransfers c runs = (c, replicate (length (concat runs)) TransferResultExists).
Proof.
  induction runs as [|run runs IH]; intros Hin; simpl; [done|].
  rewrite runTransfers_exists by (intros; apply Hin, elem_of_app; by left).
  rewrite IH by (intros; apply Hin, elem_of_app; by right).
  by rewrite length_app, replicate_add.
Qed.
End retry.

(** ** Properties of the ledger client *)

(** C25. Double entry: no batch of transfers between distinct accounts, whatever
    mix of kinds, chains and refusals, changes the balance of total debits
    against total credits, posted or pending. *)
Theorem create_transfers_double_entry c ts c' r :
  CreateTransfers c ts = (c', r) →
  Forall (λ t, DebitAccountID t ≠ CreditAccountID t) ts →
  balanced (accounts c) → balanced (accounts c').
Proof.
  unfold CreateTransfers. destruct (checkBatchSize _); [|naive_solver].
  destruct (linkedRuns Linked ts) as [runs|] eqn:Hl; [|naive_solver].
  destruct (eachRun runTransfers c runs) as [c1 codes] eqn:He. intros [= <- <-] Hne Hbal.
  eapply eachRun_balanced; [done| |done]. by rewrite (linkedRuns_concat _ _ _ Hl).
Qed.

(** A linked chain is all-or-nothing: submitted as one chain, either every
    entry is applied (or was already), or the ledger is unchanged. *)
Theorem create_transfers_chain_atomic c ts c' rs :
  chain Linked ts → CreateTransfers c ts = (c', Ok rs) →
  Forall (λ r, accepted (tr_Result r) = true) rs ∨ c' = c.
Proof.
  intros Hc. unfold CreateTransfers. destruct (checkBatchSize _); [|done].
  rewrite linkedRuns_chain by done. simpl. unfold runTransfers.
  destruct (runOutcomes _ _ _) as [sh os] eqn:Ho.
  destruct (existsb transferFailed os) eqn:Hf; intros [= <- <-]; [by right|]. left.
  rewrite app_nil_r. apply Forall_forall. intros x Hx.
  apply list_elem_of_lookup in Hx as [i Hi]. apply list_lookup_imap_Some in Hi as (r & Hr & ->).
  simpl. rewrite list_lookup_fmap in Hr. destruct (os !! i) as [o|] eqn:Ho'; simplify_eq/=.
  destruct (accepted (fst o)) eqn:Ha; [done|]. exfalso.
  assert (existsb transferFailed os = true); [|congruence].
  apply existsb_exists. exists o. split.
  - apply list_elem_of_In. by eapply list_elem_of_lookup_2.
  - unfold transferFailed. by rewrite Ha.
Qed.

(** C26. Resubmitting is safe: a batch with distinct ids that was accepted in
    full answers Exists for every entry when submitted again, and moves
    nothing. This is what every retried saga step converges on. *)
Theorem create_transfers_retry c ts c' rs :
  CreateTransfers c ts = (c', Ok rs) →
  Forall (λ r, accepted (tr_Result r) = true) rs → NoDup (t_ID <$> ts) →
  CreateTransfers c' ts =
    (c', Ok (imap (λ i r, mkTransferResult (Z.of_nat i) r) (replicate (length ts) TransferResultExists))).
Proof.
  unfold CreateTransfers. destruct (checkBatchSize _); [|done].
  destruct (linkedRuns Linked ts) as [runs|] eqn:Hl; [|done].
  pose proof (linkedRuns_concat _ _ _ Hl) as Hcat.
  destruct (eachRun runTransfers c runs) as [c1 codes] eqn:He. intros [= <- <-] Hacc Hnd.
  assert (Hcodes : Forall (λ r, accepted r = true) codes).
  { apply Forall_forall. intros r [i Hi]%list_elem_of_lookup. rewrite Forall_forall in Hacc.
    apply (Hacc (mkTransferResult (Z.of_nat i) r)). apply list_elem_of_lookup. exists i.
    by rewrite list_lookup_imap, Hi. }
  rewrite <- Hcat in Hnd. destruct (eachRun_stored _ _ _ _ He Hcodes Hnd) as [Hin _].
  rewrite eachRun_exists by done. by rewrite Hcat.
Qed.

(** [PostedNet] never overflows: it answers an error exactly when a posted
    total is above the int64 range, and otherwise the exact difference. *)
Theorem PostedNet_exact b :
  in_u64 (CreditsPosted b) → in_u64 (DebitsPosted b) →
  match PostedNet b with
  | Ok n => n = CreditsPosted b - DebitsPosted b ∧ in_i64 n
  | Err _ => MaxInt64 < CreditsPosted b ∨ MaxInt64 < DebitsPosted b
  end.
Proof.
  unfold PostedNet, in_u64, MaxInt64. intros Hc Hd.
  destruct (Z.ltb_spec (2 ^ 63 - 1) (CreditsPosted b)); simpl; [by left|].
  destruct (Z.ltb_spec (2 ^ 63 - 1) (DebitsPosted b)); simpl; [by right|].
  rewrite i64_small; unfold in_i64; lia.
Qed.

(** ** The theorems at work *)

Definition sampleAccounts : FakeClient :=
  fst (CreateAccounts NewFakeClient
         [mkAccount "a" "USD" (mkFlags false false false); mkAccount "b" "USD" (mkFlags false false true)]).

Definition sampleTransfer (id from to : string) (linked : bool) : Transfer :=
  mkTransfer id from to 100 "USD" linked TransferKindRegular "" 0.

(** A chain of two: money in, and money out again. *)
Definition sampleChain : list Transfer := [sampleTransfer "t1" "a" "b" true; sampleTransfer "t2" "b" "a" false].
Definition sampleResult : FakeClient * result (list TransferResult) := CreateTransfers sampleAccounts sampleChain.
Definition sampleResults : list TransferResult :=
  [mkTransferResult 0 TransferResultOK; mkTransferResult 1 TransferResultOK].

Lemma sampleResult_ok : CreateTransfers sampleAccounts sampleChain = (fst sampleResult, Ok sampleResults).
Proof.
  assert (snd sampleResult = Ok sampleResults) as Hr by evaluate. rewrite <- Hr. apply surjective_pairing.
Qed.

Lemma create_transfers_double_entry_witness : balanced (accounts (fst sampleResult)).
Proof.
  apply (create_transfers_double_entry _ _ _ _ sampleResult_ok).
  - repeat constructor; intros [=].
  - split; exists 0; evaluate.
Defined.

Lemma create_transfers_chain_atomic_witness :
  Forall (λ r, accepted (tr_Result r) = true) sampleResults ∨ fst sampleResult = sampleAccounts.
Proof.
  apply (create_transfers_chain_atomic _ sampleChain _ _); [|exact sampleResult_ok].
  exists [sampleTransfer "t1" "a" "b" true], (sampleTransfer "t2" "b" "a" false).
  split; [reflexivity|]. split; [by constructor | reflexivity].
Defined.

Lemma create_transfers_retry_witness :
  CreateTransfers (fst sampleResult) sampleChain =
    (fst sampleResult, Ok [mkTransferResult 0 TransferResultExists; mkTransferResult 1 TransferResultExists]).
Proof.
  apply (create_transfers_retry _ _ _ _ sampleResult_ok); [by repeat constructor|].
  decided.
Defined.

Lemma PostedNet_exact_witness :
  match PostedNet (mkBalance "USD" 100 250 0 0) with Ok n => n = 150 ∧ in_i64 n | Err _ => False end.
Proof.
  apply (PostedNet_exact (mkBalance "USD" 100 250 0 0)); unfold in_u64, two64; simpl; lia.
Defined.
