(* ===== verification/Effects.v ===== *)
(** * Programs over the store and the ledger

    The services run concurrently against one event store and one ledger, so a
    handler is not a state transformer but a sequence of atomic calls with
    decisions in between, and anything may happen between two calls. [prog] is
    that: a tree of calls ([op], one constructor per method of
    [eventstore.Store] and [ledger.Client] the services use, plus the few
    sources of nondeterminism the language itself has) with the handler's code
    in the continuations. The Go code's error returns are the [result] of [M].

    Three semantics:
    - [exec]: what one call may answer and do, including faults, a commit whose
      reply is lost, and any iteration order of a Go map;
    - [run]: a deterministic execution with nothing else going on, over
      [MemoryStore] and [FakeClient], which the examples compute with;
    - [system]: any number of programs interleaved at call granularity.

    [safe] is a rely-guarantee judgement over [exec]: a program keeps to a
    protocol of legal appends however the rest of the system, itself keeping
    to it, interferes. *)

From S2P Require Import Prelude Proto EventStore Ledger.

(** ** The ledger client, abstractly *)

(** [ledger.Client]: what each call may answer and do. The services' theorems
    hold for any instance, TigerBeetle behind [RealClient] included. *)
Class LedgerClient : Type := {
  lstate : Type;
  lCreateAccounts : lstate → list Account → result (list AccountResult) → lstate → Prop;
  lCreateTransfers : lstate → list Transfer → result (list TransferResult) → lstate → Prop;
  lBalances : lstate → list string → result (gmap string Balance) → Prop
}.

#[global] Instance FakeLedger : LedgerClient := {|
  lstate := FakeClient;
  lCreateAccounts c accs r c' := CreateAccounts c accs = (c', r);
  lCreateTransfers c ts r c' := CreateTransfers c ts = (c', r);
  lBalances c ids r := r = Ok (Balances c ids)
|}.

Section programs.
Context {C : Codec}.

(** ** Calls *)

Inductive op : Type :=
| OLoad (aggregateType aggregateID : string)       (* store.Load *)
| OAppend (writes : list StreamWrite)              (* store.Append, store.AppendAtomic *)
| ONow                                             (* store.Now *)
| OCreateAccounts (accs : list Account)            (* ledger.CreateAccounts *)
| OCreateTransfers (ts : list Transfer)            (* ledger.CreateTransfers *)
| OBalances (ids : list string)                    (* ledger.Balances *)
| OWait (attempt : nat)                            (* contention.Wait *)
| OPoll                                            (* select ctx.Done / time.After(claimPollInterval) *)
| OPause (delay : Z)                               (* select ctx.Done / a timer of that long *)
| OUuid                                            (* uuid.NewV7().String() *)
| OTime                                            (* time.Now() *)
| ORange (keys : list string).                     (* the order a map is ranged in *)

Definition resp (o : op) : Type :=
  match o with
  | OLoad _ _ => result (list Event)
  | OAppend _ => result unit
  | ONow => result Z
  | OCreateAccounts _ => result (list AccountResult)
  | OCreateTransfers _ => result (list TransferResult)
  | OBalances _ => result (gmap string Balance)
  | OWait _ | OPoll | OPause _ => result unit
  | OUuid => string
  | OTime => Z
  | ORange _ => list string
  end.

Inductive prog (A : Type) : Type :=
| Ret (a : A)
| Op (o : op) (k : resp o → prog A).
Arguments Ret {A} _.
Arguments Op {A} _ _.

Fixpoint pbind {A B} (p : prog A) (f : A → prog B) : prog B :=
  match p with
  | Ret a => f a
  | Op o k => Op o (fun r => pbind (k r) f)
  end.

Definition call (o : op) : prog (resp o) := Op o Ret.

(** A computation that may return an error. *)
Definition M (A : Type) : Type := prog (result A).

Definition ret {A} (a : A) : M A := Ret (Ok a).
Definition fail {A} (e : error) : M A := Ret (Err e).
Definition lift {A} (r : result A) : M A := Ret r.
Definition bind {A B} (m : M A) (f : A → M B) : M B :=
  pbind m (fun r => match r with Ok a => f a | Err e => Ret (Err e) end).
(** The callers that look at the error instead of returning it. *)
Definition try {A B} (m : M A) (f : result A → M B) : M B := pbind m f.
(** [if err != nil { return ..., f(err) }] *)
Definition mapErr {A} (f : error → error) (m : M A) : M A := try m (fun r => Ret (rmap_err f r)).

(** The loops the source does not bound. *)
Definition outOfFuel {A} : M A := fail (sentinel_error OutOfFuel "").

Definition load (ty id : string) : M (list Event) := call (OLoad ty id).
Definition appendAtomic (ws : list StreamWrite) : M unit := call (OAppend ws).
Definition append (ty id : string) (seq : Z) (evs : list message) : M unit :=
  appendAtomic [mkStreamWrite ty id seq evs].
Definition storeNow : M Z := call ONow.
Definition createAccounts (accs : list Account) : M (list AccountResult) := call (OCreateAccounts accs).
Definition createTransfers (ts : list Transfer) : M (list TransferResult) := call (OCreateTransfers ts).
Definition balances (ids : list string) : M (gmap string Balance) := call (OBalances ids).
Definition contentionWait (attempt : nat) : M unit := call (OWait attempt).
Definition poll : M unit := call OPoll.
Definition uuidString : prog string := call OUuid.
Definition newUuid : M string := pbind uuidString ret.
(** The process's own clock, in nanoseconds; not the store's. *)
Definition timeNow : prog Z := call OTime.
(** [range m], by its keys. *)
Definition rangeKeys {V} (m : gmap string V) : M (list string) :=
  pbind (call (ORange (map_to_list m).*1)) ret.

(** [eventstore.Claim] over a store behind the interface. *)
Definition claim (ty id : string) (seq : Z) (marker : message) : M bool :=
  try (append ty id seq [marker]) (fun r => Ret (claimResult r)).

(** [for _, x := range xs { if err := f(x); err != nil { return err } }] *)
Fixpoint mapM_ {A} (f : A → M unit) (xs : list A) : M unit :=
  match xs with
  | [] => ret tt
  | x :: xs => bind (f x) (fun _ => mapM_ f xs)
  end.

Fixpoint mapM {A B} (f : A → M B) (xs : list A) : M (list B) :=
  match xs with
  | [] => ret []
  | x :: xs => bind (f x) (fun y => bind (mapM f xs) (fun ys => ret (y :: ys)))
  end.
End programs.

Arguments Ret {C A} _.
Arguments Op {C A} _ _.
Arguments prog {C} _.
Arguments M {C} _.

Declare Scope prog_scope.
Delimit Scope prog_scope with prog.
Notation "'let*' x ':=' c 'in' k" := (bind c (fun x => k))
  (at level 200, x pattern, c at level 100, k at level 200) : prog_scope.
Notation "c ';;;' k" := (bind c (fun _ => k)) (at level 100, right associativity) : prog_scope.
#[global] Open Scope prog_scope.

(** ** The world *)

Section semantics.
Context {C : Codec} {L : LedgerClient}.

Record World : Type := mkWorld {
  w_store : MemoryStore;
  w_ledger : lstate;
  w_now : Z;
  w_fresh : nat
}.

Definition stream (w : World) (ty id : string) : list Event :=
  stream_at (w_store w) (streamKey ty id).

Definition set_store (s : MemoryStore) (w : World) : World :=
  mkWorld s (w_ledger w) (w_now w) (w_fresh w).
Definition set_ledger (l : lstate) (w : World) : World :=
  mkWorld (w_store w) l (w_now w) (w_fresh w).

(** What a call fails with when the fault is not the program's: the
    transport, the database, or the caller's context ending. None of the
    program's own sentinels is among them. *)
Definition env_error (e : error) : Prop :=
  e_code e = None ∧ (e_is e = [] ∨ e_is e = [ContextDone]).

Definition faulty {A} (ok : A → Prop) (r : result A) : Prop :=
  (∃ a, r = Ok a ∧ ok a) ∨ (∃ e, r = Err e ∧ env_error e).

(** What one call may answer, and the world after it. *)
Definition exec (w : World) (o : op) : resp o → World → Prop :=
  match o with
  | OLoad ty id => fun r w' =>
      w' = w ∧ faulty (λ evs, evs = stream w ty id) r
  | OAppend ws => fun r w' =>
      ∃ s' r0, AppendAtomic None (w_now w) ws (w_store w) = (s', r0) ∧
        ((r = r0 ∧ w' = set_store s' w) ∨
         (∃ e, r = Err e ∧ env_error e ∧ (w' = w ∨ w' = set_store s' w)))
  | ONow => fun r w' => w' = w ∧ faulty (λ t, t = w_now w) r
  | OCreateAccounts accs => fun r w' =>
      ∃ l', lCreateAccounts (w_ledger w) accs r l' ∧ w' = set_ledger l' w
  | OCreateTransfers ts => fun r w' =>
      ∃ l', lCreateTransfers (w_ledger w) ts r l' ∧ w' = set_ledger l' w
  | OBalances ids => fun r w' => w' = w ∧ lBalances (w_ledger w) ids r
  | OWait _ | OPoll | OPause _ => fun r w' => w_store w' = w_store w ∧ w_ledger w' = w_ledger w ∧ faulty (λ _, True) r
  | OUuid => fun _ w' => w_store w' = w_store w ∧ w_ledger w' = w_ledger w
  | OTime => fun _ w' => w' = w
  | ORange keys => fun r w' => w' = w ∧ r ≡ₚ keys
  end.

(** ** Keeping to a protocol *)

(** [legal w k evs ms]: in world [w], the messages [ms] may be appended, as one
    batch, to stream [k] when it holds exactly [evs]. What a stream may say of
    the others is in [w]. *)
Variable legal : World → string → list Event → list message → Prop.

(** One step of one stream. *)
Definition stream_step (w : World) (k : string) (evs evs' : list Event) : Prop :=
  evs' = evs ∨ ∃ ms batch, evs' = evs ++ batch ∧ Forall2 recorded ms batch ∧ legal w k evs ms.

(** A step of the world that keeps to the protocol: every stream grows by at
    most one legal batch; the ledger and the clock are free. *)
Definition guar (w w' : World) : Prop :=
  ∀ k, stream_step w k (stream_at (w_store w) k) (stream_at (w_store w') k).

(** What everyone else may have done in the meantime. *)
Definition rely : World → World → Prop := rtc guar.

#[export] Instance rely_preorder : PreOrder rely.
Proof. split; [intros w; apply rtc_refl | intros w1 w2 w3; apply transitivity]. Qed.

Lemma guar_refl w : guar w w.
Proof. intros k. by left. Qed.

Lemma guar_same_store w w' : w_store w' = w_store w → guar w w'.
Proof. intros Heq k. rewrite Heq. by left. Qed.

Lemma guar_prefix w w' k : guar w w' → stream_at (w_store w) k `prefix_of` stream_at (w_store w') k.
Proof. intros Hg. destruct (Hg k) as [->|(ms & b & -> & _)]; [done | by eexists]. Qed.

Lemma rely_prefix w w' k : rely w w' → stream_at (w_store w) k `prefix_of` stream_at (w_store w') k.
Proof.
  induction 1 as [|w1 w2 w3 H12 _ IH]; [done|]. etrans; [by apply guar_prefix | exact IH].
Qed.

(** [safe p Q w]: started in [w], with the others keeping to the protocol at
    every point, each call of [p] keeps to it too, and when [p] returns [a]
    in some world, [Q a] holds of that world. *)
Fixpoint safe {A} (p : prog A) (Q : A → World → Prop) (w : World) {struct p} : Prop :=
  ∀ w1, rely w w1 →
    match p with
    | Ret a => Q a w1
    | Op o k => ∀ r w2, exec w1 o r w2 → guar w1 w2 ∧ safe (k r) Q w2
    end.

Lemma safe_rely {A} (p : prog A) Q w w' : rely w w' → safe p Q w → safe p Q w'.
Proof. intros Hr Hs. destruct p; simpl in *; intros w1 H1; apply Hs; by etrans. Qed.

Lemma safe_mono {A} (p : prog A) (Q Q' : A → World → Prop) w :
  (∀ a w', rely w w' → Q a w' → Q' a w') → safe p Q w → safe p Q' w.
Proof.
  revert w. induction p as [a|o k IH]; simpl; intros w HQ Hs w1 H1.
  - apply HQ; [done | by apply Hs].
  - intros r w2 He. destruct (Hs _ H1 r w2 He) as [Hg Hk]. split; [done|].
    eapply IH; [|exact Hk]. intros a w' Hw'. apply HQ.
    etrans; [exact H1|]. etrans; [|exact Hw']. by apply rtc_once.
Qed.

Lemma safe_pbind {A B} (p : prog A) (f : A → prog B) Q w :
  safe p (λ a w', safe (f a) Q w') w → safe (pbind p f) Q w.
Proof.
  revert w. induction p as [a|o k IH]; simpl; intros w Hs.
  - by apply Hs.
  - intros w1 H1 r w2 He. destruct (Hs _ H1 r w2 He) as [Hg Hk]. split; [done|]. by apply IH.
Qed.

Lemma safe_ret {A} (a : A) Q w : (∀ w1, rely w w1 → Q a w1) → safe (Ret a) Q w.
Proof. done. Qed.

(** Knowing where a call starts: everything may be assumed of the world after
    the interference that precedes it. *)
Lemma safe_op {A} (o : op) (k : resp o → prog A) Q w :
  (∀ w1 r w2, rely w w1 → exec w1 o r w2 → guar w1 w2 ∧ safe (k r) Q w2) →
  safe (Op o k) Q w.
Proof. intros H w1 H1 r w2 He. by apply (H w1). Qed.

(** ** A system of programs *)

(** Any number of programs over one world; one call of one of them is a step,
    and a program may stop for good at any point. *)
Inductive system {A} (starts : prog A → Prop)
    : World * list (prog A) → World * list (prog A) → Prop :=
| system_call w ps1 o k ps2 r w' :
    exec w o r w' → system starts (w, ps1 ++ Op o k :: ps2) (w', ps1 ++ k r :: ps2)
| system_crash w ps1 p ps2 : system starts (w, ps1 ++ p :: ps2) (w, ps1 ++ ps2)
| system_start w ps p : starts p → system starts (w, ps) (w, ps ++ [p])
| system_idle w w' ps : w_store w' = w_store w → system starts (w, ps) (w', ps).

(** Programs that are safe on their own are safe together: the rule that
    makes one handler's proof, done against interference it knows nothing
    of but the protocol, a fact about the whole system. *)
Lemma system_safe {A} (starts : prog A → Prop) (Inv : World → Prop) (x y : World * list (prog A)) :
  (∀ w w', rely w w' → Inv w → Inv w') →
  (∀ p w, Inv w → starts p → safe p (λ _ _, True) w) →
  rtc (system starts) x y → Inv (fst x) →
  Forall (λ p, safe p (λ _ _, True) (fst x)) (snd x) →
  rely (fst x) (fst y) ∧ Forall (λ p, safe p (λ _ _, True) (fst y)) (snd y).
Proof.
  intros HInv Hstarts. induction 1 as [x|x y z Hxy _ IH]; intros Hx Hall; [split; [reflexivity | done]|].
  enough (rely (fst x) (fst y) ∧ Forall (λ p, safe p (λ _ _, True) (fst y)) (snd y)) as [Hr Hy].
  { destruct (IH (HInv _ _ Hr Hx) Hy) as [Hr' Hz]. split; [by etrans | done]. }
  destruct Hxy as [w ps1 o k ps2 r w' He|w ps1 p ps2|w ps p Hp|w w' ps Heq]; simpl in *.
  - apply Forall_app in Hall as [H1 H2]. inversion H2 as [|?? Hop Hps2]; subst.
    destruct (Hop w (rtc_refl _ _) r w' He) as [Hg Hk].
    assert (Hr : rely w w') by by apply rtc_once. split; [done|].
    apply Forall_app. split; [|constructor; [done|]];
      (eapply Forall_impl; [eassumption|]); intros q; by apply safe_rely.
  - split; [reflexivity|]. apply Forall_app in Hall as [H1 H2]. inversion H2; subst.
    by apply Forall_app.
  - split; [reflexivity|]. apply Forall_app. split; [done|]. constructor; [by apply Hstarts | done].
  - assert (Hr : rely w w') by by apply rtc_once, guar_same_store. split; [done|].
    eapply Forall_impl; [eassumption|]. intros q. by apply safe_rely.
Qed.
End semantics.

Arguments World {C} _.
Arguments World {C L}.

(** ** Running with nothing else going on *)

Section run.
Context {C : Codec}.

(** The [n]th identifier handed out: a canonical version 7 UUID. *)
Definition freshUuid (n : nat) : string :=
  let s := pretty n in "00000000-0000-7000-8000-" +:+ String.substring (String.length s) 12 ("000000000000" +:+ s).

Definition run_op (w : World) (o : op) : World * resp o :=
  match o with
  | OLoad ty id => (w, Ok (stream w ty id))
  | OAppend ws =>
      let '(s', r) := AppendAtomic None (w_now w) ws (w_store w) in (set_store s' w, r)
  | ONow => (w, Ok (w_now w))
  | OCreateAccounts accs => let '(l', r) := CreateAccounts (w_ledger w) accs in (set_ledger l' w, r)
  | OCreateTransfers ts => let '(l', r) := CreateTransfers (w_ledger w) ts in (set_ledger l' w, r)
  | OBalances ids => (w, Ok (Balances (w_ledger w) ids))
  | OWait _ => (w, Ok tt)
  | OPoll => (mkWorld (w_store w) (w_ledger w) (w_now w + 20000000) (w_fresh w), Ok tt)
  | OPause d => (mkWorld (w_store w) (w_ledger w) (w_now w + Z.max 0 d) (w_fresh w), Ok tt)
  | OUuid => (mkWorld (w_store w) (w_ledger w) (w_now w) (S (w_fresh w)), freshUuid (w_fresh w))
  | OTime => (w, w_now w)
  | ORange keys => (w, keys)
  end.

Fixpoint run {A} (w : World) (p : prog A) : World * A :=
  match p with
  | Ret a => (w, a)
  | Op o k => let '(w', r) := run_op w o in run w' (k r)
  end.

(** The deterministic execution is one of [exec]'s. *)
Lemma run_op_exec w o : exec w o (snd (run_op w o)) (fst (run_op w o)).
Proof.
  destruct o; simpl; unfold faulty; eauto 8.
  - destruct (AppendAtomic _ _ _ _) as [s' r] eqn:Ha. simpl. eauto 8.
  - destruct (CreateAccounts _ _) as [l' r] eqn:Ha. simpl. eauto.
  - destruct (CreateTransfers _ _) as [l' r] eqn:Ha. simpl. eauto.
Qed.

Lemma run_pbind {A B} w (p : prog A) (f : A → prog B) :
  run w (pbind p f) = let '(w', a) := run w p in run w' (f a).
Proof.
  revert w. induction p as [a|o k IH]; intros w; simpl; [done|].
  destruct (run_op w o) as [w' r]. apply IH.
Qed.

(** The combinators, run. *)
Lemma run_bind {A B} w (m : M A) (f : A → M B) :
  run w (bind m f) = match run w m with (w', Ok a) => run w' (f a) | (w', Err e) => (w', Err e) end.
Proof. unfold bind. rewrite run_pbind. by destruct (run w m) as [w' [a|e]]. Qed.

Lemma run_try {A B} w (m : M A) (f : result A → M B) :
  run w (try m f) = match run w m with (w', r) => run w' (f r) end.
Proof. apply run_pbind. Qed.

Lemma run_mapErr {A} w f (m : M A) :
  run w (mapErr f m) = match run w m with (w', r) => (w', rmap_err f r) end.
Proof. unfold mapErr. rewrite run_try. by destruct (run w m). Qed.

Lemma run_load w ty id : run w (load ty id) = (w, Ok (stream w ty id)).
Proof. done. Qed.

(** What is safe is respected by the run. *)
Lemma safe_run {A} legal (p : prog A) Q w :
  safe legal p Q w → rely legal w (fst (run w p)) ∧ Q (snd (run w p)) (fst (run w p)).
Proof.
  revert w. induction p as [a|o k IH]; intros w Hs; simpl.
  - split; [reflexivity|]. apply Hs. reflexivity.
  - pose proof (run_op_exec w o) as He. destruct (run_op w o) as [w' r]. simpl in He.
    destruct (Hs w (rtc_refl _ _) r w' He) as [Hg Hk]. destruct (IH r w' Hk) as [Hr HQ].
    split; [|done]. etrans; [by apply rtc_once | exact Hr].
Qed.

(** The deterministic execution of a program is one of the system's. *)
Lemma run_system {A} (starts : prog A → Prop) w ps (p : prog A) :
  rtc (system starts) (w, ps ++ [p]) (fst (run w p), ps ++ [Ret (snd (run w p))]).
Proof.
  revert w. induction p as [a|o k IH]; intros w; [done|]. simpl.
  pose proof (run_op_exec w o) as He. destruct (run_op w o) as [w' r]. simpl in He.
  eapply rtc_l; [|apply IH]. exact (system_call starts w ps o k [] r w' He).
Qed.

(** The first [n] calls of a program, and what is left of it: the other half of an
    interleaving written out. *)
Fixpoint runFor {A} (n : nat) (w : World) (p : prog A) : World * prog A :=
  match n, p with
  | S n, Op o k => let '(w', r) := run_op w o in runFor n w' (k r)
  | _, _ => (w, p)
  end.

Lemma runFor_system {A} (starts : prog A → Prop) n w ps (p : prog A) :
  rtc (system starts) (w, ps ++ [p]) (fst (runFor n w p), ps ++ [snd (runFor n w p)]).
Proof.
  revert w p. induction n as [|n IH]; intros w p; [by destruct p|]. destruct p as [a|o k]; [done|]. cbn [runFor].
  pose proof (run_op_exec w o) as He. destruct (run_op w o) as [w' r]. simpl in He.
  eapply rtc_l; [|apply IH]. exact (system_call starts w ps o k [] r w' He).
Qed.

(** One program after the other, each left where it ends. *)
Fixpoint runAll {A} (w : World) (ended ps : list (prog A)) : World * list (prog A) :=
  match ps with
  | [] => (w, ended)
  | p :: ps => let '(w', a) := run w p in runAll w' (ended ++ [Ret a]) ps
  end.

Lemma runAll_system {A} (starts : prog A → Prop) w ended ps :
  Forall starts ps → rtc (system starts) (w, ended) (runAll w ended ps).
Proof.
  intros Hps. revert w ended. induction Hps as [|p ps Hp _ IH]; intros w ended; simpl; [done|].
  pose proof (run_system starts w ended p) as Hrun. destruct (run w p) as [w' a]. simpl in Hrun.
  eapply rtc_l; [by apply system_start|]. etrans; [exact Hrun | apply IH].
Qed.

Definition emptyWorld : World := mkWorld NewMemoryStore NewFakeClient 0 0.
End run.

(** Symbolic execution: the combinators and the calls already known. *)
Ltac run_steps :=
  repeat first
    [ rewrite run_bind | rewrite run_try | rewrite run_mapErr | rewrite run_load
    | progress cbn [run lift ret fail rmap_err] ].
