(* ===== verification/Contention.v ===== *)
(** * Waiting out contention ([go/internal/contention/contention.go])

    The pause a loop that lost an optimistic-concurrency race takes before it
    tries again: a random slice of a window that doubles up to a cap. The wait
    itself is [OWait] of [Effects]; here is how long it may be. *)

From S2P Require Import Prelude.

(** Nanoseconds, as a [time.Duration], an [int64], is. *)
Definition Millisecond : Z := 1000000.
Definition minWindow : Z := Millisecond.
Definition maxWindow : Z := 50 * Millisecond.

(** [minWindow<<attempt] is an [int64] shift: the bits that do not fit are lost. *)
Definition windowFor (attempt : nat) : Z :=
  if (16 <=? attempt)%nat then maxWindow
  else Z.min maxWindow (i64 (Z.shiftl minWindow (Z.of_nat attempt))).

(** [rand.N], which panics when its argument is not positive. *)
Definition randN (draw : Z → Z) (n : Z) : result Z :=
  if n <=? 0 then Err (plain "panic: invalid argument to N") else Ok (draw n).

Definition backoff (draw : Z → Z) (attempt : nat) : result Z := randN draw (windowFor attempt).

Lemma windowFor_small attempt :
  (attempt < 16)%nat → i64 (Z.shiftl minWindow (Z.of_nat attempt)) = minWindow * 2 ^ Z.of_nat attempt.
Proof.
  intros H. rewrite Z.shiftl_mul_pow2 by lia.
  assert (2 ^ Z.of_nat attempt ≤ 2 ^ 15) by (apply Z.pow_le_mono_r; lia).
  assert (0 < 2 ^ Z.of_nat attempt) by (apply Z.pow_pos_nonneg; lia).
  unfold i64, u64, two64, MaxInt64, minWindow, Millisecond in *. rewrite Z.mod_small by lia.
  case_match; lia.
Qed.

(** The window is exactly [minWindow] doubled [attempt] times and capped, for
    every number of attempts: the shift never overflows before the cap, and the
    early return at sixteen never answers anything else. So a wait is never
    asked of a window that is empty, and never reaches [maxWindow]. *)
Theorem backoff_bounded draw attempt :
  (∀ n, 0 < n → 0 ≤ draw n < n) →
  windowFor attempt = Z.min maxWindow (minWindow * 2 ^ Z.of_nat attempt) ∧
  ∃ d, backoff draw attempt = Ok d ∧ 0 ≤ d < windowFor attempt ∧ d < maxWindow.
Proof.
  intros Hdraw.
  assert (Hw : windowFor attempt = Z.min maxWindow (minWindow * 2 ^ Z.of_nat attempt)).
  { unfold windowFor. destruct (Nat.leb_spec 16 attempt) as [H|H]; [|by rewrite windowFor_small].
    assert (2 ^ 16 ≤ 2 ^ Z.of_nat attempt) by (apply Z.pow_le_mono_r; lia).
    unfold maxWindow, minWindow, Millisecond. lia. }
  split; [done|]. assert (0 < windowFor attempt ≤ maxWindow) as [Hpos Hle].
  { rewrite Hw. assert (0 < 2 ^ Z.of_nat attempt) by (apply Z.pow_pos_nonneg; lia).
    unfold maxWindow, minWindow, Millisecond. lia. }
  exists (draw (windowFor attempt)). unfold backoff, randN. rewrite (proj2 (Z.leb_gt _ _) Hpos).
  split; [done|]. pose proof (Hdraw _ Hpos). lia.
Qed.

Lemma backoff_bounded_witness :
  windowFor 5 = 32 * Millisecond ∧ ∃ d, backoff (λ n, n / 2) 5 = Ok d ∧ 0 ≤ d < windowFor 5 ∧ d < maxWindow.
Proof.
  destruct (backoff_bounded (λ n, n / 2) 5) as [_ H]; [|split; [reflexivity | exact H]].
  intros n Hn. split; [apply Z.div_pos; lia | apply Z.div_lt; lia].
Defined.
