(* ===== verification/Safety.v ===== *)
(** * Rules for keeping to the protocol

    The proof rules the services' programs are verified with: one per call, and
    one per combinator of [M]. [safeM m Q w] is [safe] with nothing required of
    a program that returned an error. What a rule needs of an append is [good]:
    the write is legal whenever it can land, however much later that is. *)

From S2P Require Import Prelude Proto EventStore Ledger Effects.

Section rules.
Context {C : Codec} {L : LedgerClient}.
Context (legal : World → string → list Event → list message → Prop).

Definition safeM {A} (m : M A) (Q : A → World → Prop) (w : World) : Prop :=
  safe legal m (λ r w', match r with Ok a => Q a w' | Err _ => True end) w.

(** ** Facts that interference keeps *)

Definition stable (P : World → Prop) : Prop := ∀ w w', rely legal w w' → P w → P w'.

(** [evs] was read off the stream at some point. *)
Definition seen (ty id : string) (evs : list Event) (w : World) : Prop :=
  evs `prefix_of` stream w ty id.

Lemma seen_stable ty id evs : stable (seen ty id evs).
Proof. intros w w' Hr Hp. unfold seen in *. etrans; [exact Hp|]. by apply (rely_prefix legal). Qed.

(** Legal whenever the stream is where the write expects it. *)
Definition good (sw : StreamWrite) (w : World) : Prop :=
  ∀ w', rely legal w w' → len (stream_at (w_store w') (sw_key sw)) = ExpectedSeq sw →
    legal w' (sw_key sw) (stream_at (w_store w') (sw_key sw)) (sw_Events sw).

Lemma good_stable sw : stable (good sw).
Proof. intros w w' Hr Hg w2 Hr2. apply Hg. by etrans. Qed.

Lemma good_seen ty id evs ms w :
  seen ty id evs w → (∀ w', rely legal w w' → legal w' (streamKey ty id) evs ms) → good (mkStreamWrite ty id (len evs) ms) w.
Proof.
  intros Hs Hl w' Hr Hlen. unfold sw_key in *; simpl in *.
  pose proof (seen_stable _ _ _ _ _ Hr Hs) as Hs'. unfold seen, stream in Hs'.
  rewrite <- (prefix_same_length _ _ Hs' ltac:(lia)). by apply Hl.
Qed.

Lemma good_new ty id ms w :
  (∀ w', rely legal w w' → legal w' (streamKey ty id) [] ms) → good (mkStreamWrite ty id 0 ms) w.
Proof.
  intros Hl w' Hr Hlen. unfold sw_key in *; simpl in *.
  destruct (stream_at (w_store w') (streamKey ty id)); [by apply Hl | simpl in Hlen; lia].
Qed.

Lemma rely_guar w w' : guar legal w w' → rely legal w w'.
Proof. apply rtc_once. Qed.

(** ** Combinators *)

Lemma safeM_mono {A} (m : M A) (Q Q' : A → World → Prop) w :
  safeM m Q w → (∀ a w', rely legal w w' → Q a w' → Q' a w') → safeM m Q' w.
Proof. intros Hs HQ. eapply safe_mono; [|exact Hs]. intros [a|e] w' Hr; [by apply HQ | done]. Qed.

Lemma safeM_rely {A} (m : M A) Q w w' : rely legal w w' → safeM m Q w → safeM m Q w'.
Proof. apply safe_rely. Qed.

Lemma safeM_ret {A} (a : A) (Q : A → World → Prop) w :
  (∀ w', rely legal w w' → Q a w') → safeM (ret a) Q w.
Proof. intros HQ w' Hr. by apply HQ. Qed.

Lemma safeM_fail {A} e (Q : A → World → Prop) w : safeM (fail e) Q w.
Proof. done. Qed.

Lemma safeM_lift {A} (r : result A) (Q : A → World → Prop) w :
  (∀ a w', r = Ok a → rely legal w w' → Q a w') → safeM (lift r) Q w.
Proof. intros HQ w' Hr. destruct r; [by apply HQ | done]. Qed.

Lemma safeM_bind {A B} (m : M A) (f : A → M B) Q w :
  safeM m (λ a w', safeM (f a) Q w') w → safeM (bind m f) Q w.
Proof.
  intros Hs. apply safe_pbind. eapply safe_mono; [|exact Hs].
  intros [a|e] w' Hr Hq; [exact Hq|]. by intros w2 _.
Qed.

Lemma safeM_try {A B} (m : M A) (f : result A → M B) Q w :
  safe legal m (λ r w', safeM (f r) Q w') w → safeM (try m f) Q w.
Proof. apply safe_pbind. Qed.

(** What the error was never matters to a rule that only needs the value. *)
Lemma safeM_try_ok {A B} (m : M A) (f : result A → M B) (P : A → World → Prop) Q w :
  safeM m P w →
  (∀ a w', rely legal w w' → P a w' → safeM (f (Ok a)) Q w') →
  (∀ e w', rely legal w w' → safeM (f (Err e)) Q w') → safeM (try m f) Q w.
Proof.
  intros Hm Hok Herr. apply safeM_try. eapply safe_mono; [|exact Hm].
  intros [a|e] w' Hr; [by apply Hok | intros _; by apply Herr].
Qed.

(** A result may be used at any later point: what holds when a program returns
    holds after more interference too. *)
Lemma safe_later {A} (p : prog A) Q w :
  safe legal p Q w → safe legal p (λ a w', ∀ w2, rely legal w' w2 → Q a w2) w.
Proof.
  revert w. induction p as [a|o k IH]; simpl; intros w Hs w1 H1.
  - intros w2 H2. apply Hs. by etrans.
  - intros r w2 He. destruct (Hs _ H1 r w2 He) as [Hg Hk]. split; [done | by apply IH].
Qed.

Lemma safeM_mapErr {A} f (m : M A) Q w : safeM m Q w → safeM (mapErr f m) Q w.
Proof.
  intros Hm. apply safe_pbind. eapply safe_mono; [|apply safe_later, Hm].
  intros [a|e] w' Hr Hq w2 Hr2; [by apply Hq | done].
Qed.

Lemma safeM_mapM_ {A} (f : A → M unit) xs w :
  (∀ x w', x ∈ xs → rely legal w w' → safeM (f x) (λ _ _, True) w') →
  safeM (mapM_ f xs) (λ _ _, True) w.
Proof.
  revert w. induction xs as [|x xs IH]; intros w Hf; simpl; [by apply safeM_ret|].
  apply safeM_bind. eapply safeM_mono; [apply Hf; [left | reflexivity]|].
  intros [] w' Hr _. apply IH. intros y w2 Hy Hr2. apply Hf; [by right | by etrans].
Qed.

Lemma safeM_mapM {A B} (f : A → M B) (P : A → B → World → Prop) xs w :
  (∀ x y, stable (P x y)) →
  (∀ x w', x ∈ xs → rely legal w w' → safeM (f x) (P x) w') →
  safeM (mapM f xs) (λ ys w', Forall2 (λ x y, P x y w') xs ys) w.
Proof.
  intros HP. revert w. induction xs as [|x xs IH]; intros w Hf; simpl.
  { apply safeM_ret. intros w' _. constructor. }
  apply safeM_bind. eapply safeM_mono; [apply Hf; [left | reflexivity]|].
  intros y w1 Hr1 Hy. apply safeM_bind. eapply safeM_mono.
  { apply IH. intros z w2 Hz Hr2. apply Hf; [by right | by etrans]. }
  intros ys w2 Hr2 Hys. apply safeM_ret. intros w3 Hr3. constructor.
  - eapply HP; [|exact Hy]. by etrans.
  - eapply Forall2_impl; [exact Hys|]. intros a b. by apply HP.
Qed.

(** ** Calls *)

(** A call that does not touch the store. *)
Definition quiet (o : op) : Prop :=
  match o with OAppend _ => False | _ => True end.

Lemma quiet_exec w o r w' : quiet o → exec w o r w' → guar legal w w'.
Proof.
  destruct o; simpl; try done; intros _ He; apply guar_same_store;
    repeat match goal with
    | H : _ ∧ _ |- _ => destruct H
    | H : ∃ _, _ |- _ => destruct H
    end; subst; done.
Qed.

Lemma safe_quiet o (Q : resp o → World → Prop) w :
  quiet o →
  (∀ w1 r w2, rely legal w w1 → exec w1 o r w2 → rely legal w1 w2 → ∀ w3, rely legal w2 w3 → Q r w3) →
  safe legal (call o) Q w.
Proof.
  intros Hq HQ w1 Hr r w2 He. pose proof (quiet_exec _ _ _ _ Hq He) as Hg. split; [done|].
  intros w3 Hr3. by eapply (HQ w1 r w2); [| |apply rely_guar|].
Qed.

Lemma safeM_quiet o (Q : _ → World → Prop) w :
  quiet o → (∀ r w', Q r w') → safe legal (call o) Q w.
Proof. intros Hq HQ. apply safe_quiet; [done|]. intros. apply HQ. Qed.

Lemma safeM_load ty id w : safeM (load ty id) (λ evs w', seen ty id evs w') w.
Proof.
  apply (safe_quiet (OLoad ty id)); [done|].
  intros w1 r w2 Hr [-> [(evs & -> & ->)|(e & -> & _)]] _ w3 Hr3; [|done].
  eapply seen_stable; [exact Hr3|]. unfold seen. done.
Qed.

(** The same, with the moment of the read. *)
Lemma safeM_load_at ty id w :
  safeM (load ty id) (λ evs w', ∃ w0, rely legal w w0 ∧ rely legal w0 w' ∧ evs = stream w0 ty id) w.
Proof.
  apply (safe_quiet (OLoad ty id)); [done|].
  intros w1 r w2 Hr [-> [(evs & -> & ->)|(e & -> & _)]] _ w3 Hr3; [|done]. eauto.
Qed.

(** A batch of writes each legal where it can land keeps to the protocol,
    whether or not its reply arrives. *)
Lemma AppendAtomic_guar w ws now s' r0 :
  Forall (λ sw, good sw w) ws → AppendAtomic None now ws (w_store w) = (s', r0) →
  guar legal w (set_store s' w).
Proof.
  intros Hgood Ha. destruct r0 as [[]|e]; [|rewrite (AppendAtomic_err _ _ _ _ _ _ Ha); intros k; by left].
  intros k. simpl. destruct (AppendAtomic_ok _ _ _ _ _ k Ha)
    as [(sw & b & Hin & <- & Hlen & Hb & ->)|[_ ->]]; [|by left].
  right. exists (sw_Events sw), b. split; [done|]. split; [by eapply staged_batch_recorded|].
  unfold liveWrites in Hin. apply list_elem_of_filter in Hin as [_ Hin].
  rewrite Forall_forall in Hgood. apply (Hgood _ Hin); [reflexivity | done].
Qed.

Lemma safe_appendAtomic ws (Q : result unit → World → Prop) w :
  Forall (λ sw, good sw w) ws → (∀ r w', rely legal w w' → Q r w') →
  safe legal (appendAtomic ws) Q w.
Proof.
  intros Hgood HQ w1 Hr r w2 (s' & r0 & Ha & Hcase).
  assert (Hg1 : Forall (λ sw, good sw w1) ws).
  { eapply Forall_impl; [exact Hgood|]. intros sw. by apply good_stable. }
  pose proof (AppendAtomic_guar _ _ _ _ _ Hg1 Ha) as Hg.
  assert (guar legal w1 w2) as Hg2.
  { destruct Hcase as [[_ ->]|(e & _ & _ & [->| ->])]; [done|apply guar_refl|done]. }
  split; [done|]. intros w3 Hr3. apply HQ.
  etrans; [exact Hr|]. etrans; [by apply rely_guar | exact Hr3].
Qed.

Lemma safe_append ty id n ms (Q : result unit → World → Prop) w :
  good (mkStreamWrite ty id n ms) w → (∀ r w', rely legal w w' → Q r w') →
  safe legal (append ty id n ms) Q w.
Proof. intros Hg HQ. apply safe_appendAtomic; [by repeat constructor | done]. Qed.

(** A reply that it landed is a promise that it did. *)
Lemma safe_append_landed ty id n ms (Q : result unit → World → Prop) w :
  ms ≠ [] → good (mkStreamWrite ty id n ms) w →
  (∀ e w', rely legal w w' → Q (Err e) w') →
  (∀ w' evs batch, rely legal w w' → len evs = n → Forall2 recorded ms batch →
     seen ty id (evs ++ batch) w' → Q (Ok tt) w') →
  safe legal (append ty id n ms) Q w.
Proof.
  intros Hms Hgood Herr Hok w1 Hr r w2 (s' & r0 & Ha & Hcase).
  assert (Hg1 : Forall (λ sw, good sw w1) [mkStreamWrite ty id n ms]).
  { constructor; [by eapply good_stable | constructor]. }
  pose proof (AppendAtomic_guar _ _ _ _ _ Hg1 Ha) as Hg.
  assert (guar legal w1 w2) as Hg2.
  { destruct Hcase as [[_ ->]|(e & _ & _ & [->| ->])]; [done|apply guar_refl|done]. }
  split; [done|]. intros w3 Hr3.
  assert (Hr03 : rely legal w w3) by (etrans; [exact Hr|]; etrans; [by apply rely_guar | exact Hr3]).
  destruct r as [[]|e]; [|by apply Herr]. destruct Hcase as [[<- ->]|(e & ? & _)]; [|done].
  destruct (Append_ok None (w_now w1) ty id n ms _ _ Ha Hms) as (Hlen & batch & Hb & Hs).
  eapply (Hok w3 _ batch); [done|exact Hlen|by eapply staged_batch_recorded|].
  eapply seen_stable; [exact Hr3|]. unfold seen, stream. simpl. by rewrite Hs.
Qed.

Lemma safeM_claim ty id n m w :
  good (mkStreamWrite ty id n [m]) w → safeM (claim ty id n m) (λ _ _, True) w.
Proof.
  intros Hg. apply safe_pbind, safe_append; [done|]. intros r w' Hr w2 Hr2. by destruct (claimResult r).
Qed.

(** ** Programs that keep to the protocol wherever they are started *)

Definition conforms {A} (m : M A) : Prop := ∀ w, safeM m (λ _ _, True) w.

Lemma conforms_safeM {A} (m : M A) w : conforms m → safeM m (λ _ _, True) w.
Proof. intros Hc. apply Hc. Qed.

Lemma conforms_ret {A} (a : A) : conforms (ret a).
Proof. intros w. by apply safeM_ret. Qed.

Lemma conforms_fail {A} e : conforms (fail e : M A).
Proof. intros w. apply safeM_fail. Qed.

Lemma conforms_lift {A} (r : result A) : conforms (lift r).
Proof. intros w. by apply safeM_lift. Qed.

Lemma conforms_bind {A B} (m : M A) (f : A → M B) :
  conforms m → (∀ a, conforms (f a)) → conforms (bind m f).
Proof. intros Hm Hf w. apply safeM_bind. eapply safeM_mono; [apply Hm|]. intros a w' _ _. apply Hf. Qed.

Lemma conforms_try {A B} (m : M A) (f : result A → M B) :
  conforms m → (∀ r, conforms (f r)) → conforms (try m f).
Proof. intros Hm Hf w. eapply safeM_try_ok; [apply Hm| |]; intros; apply Hf. Qed.

Lemma conforms_mapErr {A} f (m : M A) : conforms m → conforms (mapErr f m).
Proof. intros Hm w. apply safeM_mapErr, Hm. Qed.

Lemma conforms_load ty id : conforms (load ty id).
Proof. intros w. eapply safeM_mono; [apply safeM_load | done]. Qed.

Lemma conforms_storeNow : conforms storeNow.
Proof. intros w. apply (safeM_quiet ONow); [done|]. by intros []. Qed.

Lemma conforms_createAccounts accs : conforms (createAccounts accs).
Proof. intros w. apply (safeM_quiet (OCreateAccounts accs)); [done|]. by intros []. Qed.

Lemma conforms_createTransfers ts : conforms (createTransfers ts).
Proof. intros w. apply (safeM_quiet (OCreateTransfers ts)); [done|]. by intros []. Qed.

Lemma conforms_balances ids : conforms (balances ids).
Proof. intros w. apply (safeM_quiet (OBalances ids)); [done|]. by intros []. Qed.

Lemma conforms_contentionWait n : conforms (contentionWait n).
Proof. intros w. apply (safeM_quiet (OWait n)); [done|]. by intros []. Qed.

Lemma conforms_poll : conforms poll.
Proof. intros w. apply (safeM_quiet OPoll); [done|]. by intros []. Qed.

Lemma conforms_newUuid : conforms newUuid.
Proof.
  intros w. apply safe_pbind. apply (safeM_quiet OUuid); [done|]. intros r w'. by apply safeM_ret.
Qed.

Lemma conforms_rangeKeys {V} (m : gmap string V) : conforms (rangeKeys m).
Proof.
  intros w. apply safe_pbind. apply (safeM_quiet (ORange (map_to_list m).*1)); [done|]. intros r w'. by apply safeM_ret.
Qed.

Lemma safeM_rangeKeys {V} (m : gmap string V) w :
  safeM (rangeKeys m) (λ order _, order ≡ₚ (map_to_list m).*1) w.
Proof.
  apply safe_pbind. apply (safe_quiet (ORange (map_to_list m).*1)); [done|].
  intros w1 r w2 _ [_ Hp] _ w3 _. by apply safeM_ret.
Qed.

Lemma conforms_mapM_ {A} (f : A → M unit) xs : (∀ x, x ∈ xs → conforms (f x)) → conforms (mapM_ f xs).
Proof. intros Hf w. apply safeM_mapM_. intros x w' Hx _. by apply Hf. Qed.

Lemma conforms_mapM {A B} (f : A → M B) xs : (∀ x, conforms (f x)) → conforms (mapM f xs).
Proof.
  intros Hf. induction xs as [|x xs IH]; simpl; [apply conforms_ret|].
  apply conforms_bind; [apply Hf|]. intros y. apply conforms_bind; [exact IH|]. intros. apply conforms_ret.
Qed.

(** A condition that was checked before a program and survives interference. *)
Lemma safeM_bind_ok {A B} (m : M A) (f : A → M B) (P : A → World → Prop) Q w :
  safeM m P w → (∀ a w', rely legal w w' → P a w' → safeM (f a) Q w') → safeM (bind m f) Q w.
Proof. intros Hm Hf. apply safeM_bind. eapply safeM_mono; [exact Hm | exact Hf]. Qed.

Lemma safeM_bind_any {A B} (m : M A) (f : A → M B) Q w :
  conforms m → (∀ a w', rely legal w w' → safeM (f a) Q w') → safeM (bind m f) Q w.
Proof. intros Hm Hf. eapply safeM_bind_ok; [apply Hm|]. intros a w' Hr _. by apply Hf. Qed.

Lemma safeM_bind_done {A B} (m : M A) (f : A → M B) Q w :
  safeM m (λ _ _, True) w → (∀ a w', rely legal w w' → safeM (f a) Q w') → safeM (bind m f) Q w.
Proof. intros Hm Hf. eapply safeM_bind_ok; [exact Hm|]. intros a w' Hr _. by apply Hf. Qed.
End rules.

Create HintDb safety.
#[export] Hint Resolve conforms_ret conforms_fail conforms_lift conforms_load conforms_storeNow
  conforms_createAccounts conforms_createTransfers conforms_balances conforms_contentionWait
  conforms_poll conforms_newUuid conforms_rangeKeys : safety.

(** Programs built from the combinators over programs already known to conform;
    what is left is what really needs an argument. *)
Ltac conform :=
  repeat first
    [ progress intros
    | match goal with
      | |- conforms _ (bind _ _) => apply conforms_bind
      | |- conforms _ (try _ _) => apply conforms_try
      | |- conforms _ (mapErr _ _) => apply conforms_mapErr
      | |- conforms _ (mapM_ _ _) => apply conforms_mapM_
      | |- conforms _ (mapM _ _) => apply conforms_mapM
      | |- conforms _ (match ?x with _ => _ end) => destruct x
      | |- conforms _ (let _ := _ in _) => cbv zeta
      end
    | solve [eauto with safety] ].
