(* ===== verification/Validate.v ===== *)
(** * Ids and amounts ([go/internal/id], [go/internal/money], [go/internal/detid])

    The argument checks every command starts with, and the derived ids that
    make a retried step name the same Tokens and ledger transfers. The
    [github.com/google/uuid] package is a parameter, [UuidPackage], with what
    its documentation promises of [Parse] and [String]; [HexUuid] is an instance
    of it the examples compute with. *)

From S2P Require Import Prelude Proto.

(** ** The uuid package *)

(** A UUID is its 16 bytes. *)
Definition uuid_bytes (bs : list Z) : Prop := length bs = 16%nat ∧ ∀ b, b ∈ bs → 0 ≤ b < 256.

(** [uuid.Parse] and [uuid.UUID.String]: what is parsed is 16 bytes, the
    canonical spelling is not the empty text and parses to the bytes it spells. *)
Class UuidPackage : Type := {
  Parse : string → option (list Z);
  UuidString : list Z → string;
  Parse_bytes s bs : Parse s = Some bs → uuid_bytes bs;
  Parse_UuidString bs : uuid_bytes bs → Parse (UuidString bs) = Some bs;
  UuidString_nonempty bs : uuid_bytes bs → UuidString bs ≠ ""
}.

(** ** id.go *)

Module Id.
Definition Validate `{UuidPackage} (field value : string) : result unit :=
  if bool_decide (value = "") then Err (RequiredArgumentError field)
  else match Parse value with
       | Some parsed =>
           if bool_decide (UuidString parsed = value) then Ok tt
           else Err (InvalidArgumentError field "must be a valid UUID")
       | None => Err (InvalidArgumentError field "must be a valid UUID")
       end.
End Id.

(** ** money.go *)

Module MoneyCheck.
Definition Validate (field : string) (m : option Money) : result unit :=
  match m with
  | None => Err (RequiredArgumentError field)
  | Some _ =>
      if bool_decide (GetCurrency m = "") then Err (RequiredArgumentError (field +:+ ".currency"))
      else if GetMinorUnits m =? 0 then
        Err (InvalidArgumentError (field +:+ ".minor_units") "must be greater than zero")
      else Ok tt
  end.
End MoneyCheck.

(** ** detid.go *)

(** [crypto/sha256]: any function from text to 32 bytes. *)
Class Sha256 : Type := {
  Sum256 : string → list Z;
  Sum256_length seed : length (Sum256 seed) = 32%nat;
  Sum256_bytes seed b : b ∈ Sum256 seed → 0 ≤ b < 256
}.

Module Detid.
Definition New `{Sha256} `{UuidPackage} (seed : string) : string :=
  let u := take 16 (Sum256 seed) in
  let u := alter (λ b, Z.lor (Z.land b 0x0f) 0x40) 6%nat u in
  let u := alter (λ b, Z.lor (Z.land b 0x3f) 0x80) 8%nat u in
  UuidString u.
End Detid.

(** ** Instances the examples compute with *)

(** A stand-in digest: a polynomial in the seed's characters, as 32 bytes. *)
Definition polyHash (seed : string) : Z :=
  foldl (λ h a, Z.land (h * 1000003 + Z.of_N (Ascii.N_of_ascii a)) 0xffffffffffffffffffffffffffffffff) 7
    (String.list_ascii_of_string seed).

Fixpoint digestBytes (n : nat) (h : Z) : list Z :=
  match n with
  | O => []
  | S n => Z.land h 0xff :: digestBytes n (Z.shiftr h 8)
  end.

#[global, refine] Instance PolySha : Sha256 := {| Sum256 := λ seed, digestBytes 32 (polyHash seed) |}.
Proof.
  - intros seed. generalize (polyHash seed). generalize 32%nat as n.
    induction n as [|n IH]; intros h; simpl; [done | by rewrite IH].
  - intros seed b. generalize (polyHash seed). generalize 32%nat as n.
    induction n as [|n IH]; intros h; simpl; [by intros ?%elem_of_nil|].
    intros [->|Hin]%elem_of_cons; [|by eapply IH].
    change 0xff with (Z.ones 8). rewrite Z.land_ones by lia. apply Z.mod_pos_bound. lia.
Defined.

Definition hexDigit (n : Z) : Ascii.ascii :=
  Ascii.ascii_of_N (Z.to_N (if n <? 10 then 48 + n else 87 + n)).

(** The value of a hex digit of either case. *)
Definition unhex (a : Ascii.ascii) : option Z :=
  let c := Z.of_N (Ascii.N_of_ascii a) in
  if (48 <=? c) && (c <=? 57) then Some (c - 48)
  else if (97 <=? c) && (c <=? 102) then Some (c - 87)
  else if (65 <=? c) && (c <=? 70) then Some (c - 55)
  else None.

Definition dash : Ascii.ascii := Ascii.ascii_of_nat 45.

Fixpoint hexBytes (bs : list Z) : list Ascii.ascii :=
  match bs with
  | [] => []
  | b :: bs => hexDigit (b / 16) :: hexDigit (b mod 16) :: hexBytes bs
  end.

Fixpoint parsePairs (cs : list Ascii.ascii) : option (list Z) :=
  match cs with
  | [] => Some []
  | [_] => None
  | hi :: lo :: cs =>
      match unhex hi, unhex lo, parsePairs cs with
      | Some h, Some l, Some bs => Some (16 * h + l :: bs)
      | _, _, _ => None
      end
  end.

(** The 32 digits of a hyphenated form, if the hyphens are where they belong. *)
Definition unhyphen (cs : list Ascii.ascii) : option (list Ascii.ascii) :=
  if bool_decide (length cs = 36%nat) && bool_decide (cs !! 8%nat = Some dash) &&
     bool_decide (cs !! 13%nat = Some dash) && bool_decide (cs !! 18%nat = Some dash) &&
     bool_decide (cs !! 23%nat = Some dash)
  then Some (take 8 cs ++ take 4 (drop 9 cs) ++ take 4 (drop 14 cs) ++ take 4 (drop 19 cs) ++ drop 24 cs)
  else None.

Definition parseCanonical (cs : list Ascii.ascii) : option (list Z) := unhyphen cs ≫= parsePairs.

Definition urnPrefix : list Ascii.ascii := String.list_ascii_of_string "urn:uuid:".

(** The four spellings: canonical, braced, urn and bare. *)
Definition hexParse (s : string) : option (list Z) :=
  let cs := String.list_ascii_of_string s in
  match length cs with
  | 36%nat => parseCanonical cs
  | 32%nat => parsePairs cs
  | 38%nat =>
      if bool_decide (head cs = Some (Ascii.ascii_of_nat 123)) && bool_decide (last cs = Some (Ascii.ascii_of_nat 125))
      then parseCanonical (take 36 (drop 1 cs)) else None
  | 45%nat => if bool_decide (take 9 cs = urnPrefix) then parseCanonical (drop 9 cs) else None
  | _ => None
  end.

(** The canonical spelling, lower case and hyphenated. *)
Definition hexUuidString (bs : list Z) : string :=
  let cs := hexBytes bs in
  String.string_of_list_ascii
    (take 8 cs ++ [dash] ++ take 4 (drop 8 cs) ++ [dash] ++ take 4 (drop 12 cs) ++ [dash] ++
     take 4 (drop 16 cs) ++ [dash] ++ drop 20 cs).

Definition digits : list Z := [0;1;2;3;4;5;6;7;8;9;10;11;12;13;14;15].

Lemma unhex_hexDigit n : 0 ≤ n < 16 → unhex (hexDigit n) = Some n.
Proof.
  intros Hn. assert (Hin : n ∈ digits).
  { unfold digits. repeat (rewrite elem_of_cons). lia. }
  revert n Hin Hn. apply (Forall_forall (λ n, 0 ≤ n < 16 → unhex (hexDigit n) = Some n)).
  repeat constructor.
Qed.

Lemma unhex_range a n : unhex a = Some n → 0 ≤ n < 16.
Proof.
  unfold unhex. set (c := Z.of_N _).
  destruct ((48 <=? c) && (c <=? 57)) eqn:H1; [intros [= <-]; lia|].
  destruct ((97 <=? c) && (c <=? 102)) eqn:H2; [intros [= <-]; lia|].
  destruct ((65 <=? c) && (c <=? 70)) eqn:H3; [intros [= <-]; lia | done].
Qed.

Lemma parsePairs_hexBytes bs :
  (∀ b, b ∈ bs → 0 ≤ b < 256) → parsePairs (hexBytes bs) = Some bs.
Proof.
  induction bs as [|b bs IH]; intros Hb; [done|]. cbn [hexBytes parsePairs].
  assert (0 ≤ b < 256) by (apply Hb; left).
  rewrite !unhex_hexDigit, IH.
  - f_equal. f_equal. pose proof (Z.div_mod b 16). lia.
  - intros; apply Hb; by right.
  - apply Z.mod_pos_bound. lia.
  - split; [apply Z.div_pos; lia | apply Z.div_lt_upper_bound; lia].
Qed.

Lemma parsePairs_bytes cs bs :
  parsePairs cs = Some bs →
  (length cs = 2 * length bs)%nat ∧ ∀ b, b ∈ bs → 0 ≤ b < 256.
Proof.
  remember (length cs) as n eqn:Hn. revert cs bs Hn.
  induction n as [n IH] using lt_wf_ind. intros cs bs ->.
  destruct cs as [|hi [|lo cs]]; cbn [parsePairs]; [|done|].
  - intros [= <-]. split; [done | by intros b ?%elem_of_nil].
  - destruct (unhex hi) as [h|] eqn:Hh; [|done]. destruct (unhex lo) as [l|] eqn:Hl; [|done].
    destruct (parsePairs cs) as [bs'|] eqn:Hp; [|done]. intros [= <-].
    apply unhex_range in Hh. apply unhex_range in Hl.
    edestruct (IH (length cs)) as [Hlen Hb]; [|done|exact Hp|]; [simpl; lia|].
    split; [simpl; lia|]. intros b [->|?]%elem_of_cons; [lia | auto].
Qed.

Lemma unhyphen_length cs ds : unhyphen cs = Some ds → length ds = 32%nat.
Proof.
  unfold unhyphen. destruct (bool_decide (length cs = 36%nat)) eqn:Hl; [|done].
  apply bool_decide_eq_true in Hl. simpl. destruct (_ && _); [|done]. intros [= <-].
  rewrite !length_app, !length_take, !length_drop. lia.
Qed.

Lemma hexParse_bytes s bs : hexParse s = Some bs → uuid_bytes bs.
Proof.
  assert (Hc : ∀ cs, parseCanonical cs = Some bs → uuid_bytes bs).
  { intros cs. unfold parseCanonical. destruct (unhyphen cs) as [ds|] eqn:Hu; [|done].
    simpl. intros [Hl Hb]%parsePairs_bytes. apply unhyphen_length in Hu. split; [lia|done]. }
  unfold hexParse. set (cs := String.list_ascii_of_string s).
  destruct (length cs) as [|n] eqn:Hlen; [done|].
  do 31 (destruct n as [|n]; [done|]).
  destruct n as [|n]; [intros [Hl Hb]%parsePairs_bytes; split; [lia|done]|].
  do 3 (destruct n as [|n]; [done|]).
  destruct n as [|n]; [apply Hc|]. destruct n as [|n]; [done|].
  destruct n as [|n]; [destruct (_ && _); [apply Hc|done]|].
  do 6 (destruct n as [|n]; [done|]).
  destruct n as [|n]; [destruct (bool_decide _); [apply Hc|done]|done].
Qed.

Lemma hexParse_hexUuidString bs : uuid_bytes bs → hexParse (hexUuidString bs) = Some bs.
Proof.
  intros [Hlen Hb]. pose proof (parsePairs_hexBytes bs Hb) as Hp.
  do 16 (destruct bs as [|? bs]; [discriminate|]). destruct bs; [|discriminate].
  unfold hexParse, hexUuidString. rewrite String.list_ascii_of_string_of_list_ascii.
  cbn [hexBytes take drop app length]. unfold parseCanonical, unhyphen.
  cbn [length lookup list_lookup take drop app]. simpl (bool_decide _).
  exact Hp.
Qed.

#[global, refine] Instance HexUuid : UuidPackage := {| Parse := hexParse; UuidString := hexUuidString |}.
Proof.
  - exact hexParse_bytes.
  - exact hexParse_hexUuidString.
  - intros bs [Hl _]. unfold hexUuidString. do 16 (destruct bs as [|? bs]; [discriminate|]). done.
Defined.

Lemma alter_bytes f i bs :
  (∀ b, 0 ≤ b < 256 → 0 ≤ f b < 256) → uuid_bytes bs → uuid_bytes (alter f i bs).
Proof.
  intros Hf [Hl Hb]. split; [by rewrite length_alter|].
  intros b [j Hj]%list_elem_of_lookup. rewrite list_lookup_alter in Hj. case_decide.
  - apply fmap_Some in Hj as (b0 & Hb0 & ->). apply Hf, Hb.
    by eapply list_elem_of_lookup_2.
  - apply Hb. by eapply list_elem_of_lookup_2.
Qed.

Lemma log2_byte z : 0 ≤ z < 256 → Z.log2 z < 8.
Proof. intros Hz. destruct (decide (z = 0)) as [->|]; [done|]. apply Z.log2_lt_pow2; lia. Qed.

Lemma lor_land_byte b m o : 0 ≤ b → 0 ≤ m < 256 → 0 ≤ o < 256 → 0 ≤ Z.lor (Z.land b m) o < 256.
Proof.
  intros Hb Hm Ho. assert (Hl : 0 ≤ Z.land b m) by (apply Z.land_nonneg; lia).
  split; [apply Z.lor_nonneg; lia|]. apply (Z.log2_lt_cancel _ 256). change (Z.log2 256) with 8.
  rewrite Z.log2_lor by lia. pose proof (Z.log2_land b m Hb ltac:(lia)). apply log2_byte in Hm, Ho. lia.
Qed.

(** ** Properties *)

Section properties.
Context {S : Sha256} {U : UuidPackage}.

(** [id.Validate] accepts exactly the canonical spellings: a value passes
    if and only if it is [uuid.UUID.String()] of some 16 bytes, so two accepted
    ids that parse to the same UUID are the same text. *)
Lemma Id_Validate_canonical field value :
  Id.Validate field value = Ok tt ↔ ∃ bs, uuid_bytes bs ∧ value = UuidString bs.
Proof.
  unfold Id.Validate. split.
  - case_bool_decide; [done|]. destruct (Parse value) as [bs|] eqn:Hp; [|done].
    case_bool_decide; [|done]. intros _. exists bs. split; [by eapply Parse_bytes | done].
  - intros (bs & Hbs & ->). rewrite Parse_UuidString by done.
    rewrite (bool_decide_true (UuidString bs = UuidString bs)) by done.
    by rewrite bool_decide_false by by apply UuidString_nonempty.
Qed.

(** Every derived id is itself an id the services accept, whatever the
    seed: the version and variant bits [detid.New] sets leave 16 bytes, and
    their text is the canonical spelling [id.Validate] requires. *)
Theorem Detid_New_valid field seed : Id.Validate field (Detid.New seed) = Ok tt.
Proof.
  apply Id_Validate_canonical. eexists. split; [|reflexivity].
  apply alter_bytes; [intros; apply lor_land_byte; lia|].
  apply alter_bytes; [intros; apply lor_land_byte; lia|]. split.
  - rewrite length_take, Sum256_length. lia.
  - intros b (i & Hb & _)%elem_of_take. eapply Sum256_bytes, list_elem_of_lookup_2, Hb.
Qed.
End properties.
