(* ===== verification/Postgres.v ===== *)
(** * The Postgres event store ([go/internal/eventstore/postgres.go])

    The events table of [go/db/migrations] with its unique constraint, and the
    store over it. It never compares [ExpectedSeq] with anything: a stale one
    collides with rows already there. The theorems show that this decides what
    [MemoryStore] decides, so that what is proved of programs over
    [Effects.exec], which is stated with [MemoryStore], holds of the store that
    is deployed. Postgres' [uuid] input is the parameter [PgUuid]. *)

From S2P Require Import Prelude Proto EventStore Ledger Effects Validate.

(** [$2::uuid], rendered back as text; none: invalid input. *)
Class PgUuid : Type := pgUuid : string → option string.

Section postgres.
Context {C : Codec} {PU : PgUuid}.

(** A row has the columns of [Event]. The counter behind [global_seq] is not
    transactional: a rolled back insert has used its number up. *)
Record table : Type := mkTable { rows : list Event; nextGlobal : Z }.

(** One queued INSERT: aggregate_type, aggregate_id, sequence, event_type, payload. *)
Record insertArgs : Type := mkInsert {
  q_type : string; q_id : string; q_seq : Z; q_etype : string; q_payload : payload
}.

Inductive pgError : Type := UniqueViolation | PgOther (e : error).

Definition IsSequenceCollision (e : pgError) : bool :=
  match e with UniqueViolation => true | PgOther _ => false end.

(** UNIQUE (aggregate_type, aggregate_id, sequence) *)
Definition taken (ty id : string) (seq : Z) (t : table) : bool :=
  existsb (λ e, bool_decide (AggregateType e = ty ∧ AggregateID e = id ∧ Sequence e = seq)) (rows t).

Definition insertRow (now : Z) (t : table) (q : insertArgs) : table * option pgError :=
  match pgUuid (q_id q) with
  | None => (t, Some (PgOther (plain "invalid input syntax for type uuid")))
  | Some id =>
      if taken (q_type q) id (q_seq q) t then (mkTable (rows t) (nextGlobal t + 1), Some UniqueViolation)
      else
        (mkTable (rows t ++ [mkEvent _ (nextGlobal t) (q_type q) id (q_seq q) (q_etype q) (q_payload q) now])
           (nextGlobal t + 1), None)
  end.

(** The batch, up to its first error. *)
Fixpoint insertAll (now : Z) (t : table) (qs : list insertArgs) : table * option pgError :=
  match qs with
  | [] => (t, None)
  | q :: qs =>
      match insertRow now t q with
      | (t, None) => insertAll now t qs
      | (t, Some e) => (t, Some e)
      end
  end.

Fixpoint queueEvents (w : StreamWrite) (i : Z) (evs : list message) : result (list insertArgs) :=
  match evs with
  | [] => Ok []
  | evt :: rest =>
      match marshal evt with
      | None => Err (plain "eventstore: marshal")
      | Some b =>
          let? qs := queueEvents w (i + 1) rest in
          Ok (mkInsert (sw_AggregateType w) (sw_AggregateID w) (ExpectedSeq w + i + 1) (EventType evt) b :: qs)
      end
  end.

Fixpoint queueWrites (writes : list StreamWrite) : result (list insertArgs) :=
  match writes with
  | [] => Ok []
  | w :: rest =>
      let? qs := queueEvents w 0 (sw_Events w) in
      let? more := queueWrites rest in
      Ok (qs ++ more)
  end.

(** What the connection may do to an append: fail to begin, to answer an insert or
    the close of the batch, or to answer the commit, which may have happened. *)
Inductive fault : Type :=
| FaultBegin (e : error)
| FaultExec (n : nat) (e : error)
| FaultClose (e : error)
| FaultCommit (landed : bool) (e : error).

Definition insertError (e : pgError) : error :=
  match e with
  | UniqueViolation => conflict
  | PgOther e => wrapf "eventstore: insert: " e
  end.

(** The deferred rollback. *)
Definition rolledBack (t t' : table) : table := mkTable (rows t) (nextGlobal t').

(** The inserts that are answered before the connection fails. *)
Definition answered (f : option fault) (qs : list insertArgs) : list insertArgs :=
  match f with Some (FaultExec n _) => take n qs | _ => qs end.

(** The statements of the open transaction; [now()] is when it began. *)
Definition inTransaction (f : option fault) (now : Z) (qs : list insertArgs) (t : table) : table * result unit :=
  match insertAll now t (answered f qs), f with
  | (t', Some e), _ => (rolledBack t t', Err (insertError e))
  | (t', None), Some (FaultExec _ e) => (rolledBack t t', Err (insertError (PgOther e)))
  | (t', None), Some (FaultClose e) => (rolledBack t t', Err (wrapf "eventstore: close batch: " e))
  | (t', None), Some (FaultCommit landed e) =>
      (if landed then t' else rolledBack t t', Err (wrapf "eventstore: commit: " e))
  | (t', None), _ => (t', Ok tt)
  end.

Definition AppendAtomicPg (f : option fault) (now : Z) (writes : list StreamWrite) (t : table) : table * result unit :=
  let writes := liveWrites writes in
  match validateWrites writes with
  | Err e => (t, Err e)
  | Ok _ =>
      if bool_decide (writes = []) then (t, Ok tt)
      else
        match queueWrites writes, f with
        | Err e, _ => (t, Err e)
        | Ok _, Some (FaultBegin e) => (t, Err (wrapf "eventstore: begin: " e))
        | Ok qs, _ => inTransaction f now qs t
        end
  end.

Definition AppendPg (f : option fault) (now : Z) (aggregateType aggregateID : string) (expectedSeq : Z)
    (events : list message) (t : table) : table * result unit :=
  AppendAtomicPg f now [mkStreamWrite aggregateType aggregateID expectedSeq events] t.

(** ORDER BY sequence ASC *)
Fixpoint insertSorted (e : Event) (es : list Event) : list Event :=
  match es with
  | [] => [e]
  | x :: rest => if Sequence e <=? Sequence x then e :: x :: rest else x :: insertSorted e rest
  end.
Definition orderBySequence (es : list Event) : list Event := foldr insertSorted [] es.

Definition rowsOf (t : table) (ty id : string) : list Event :=
  filter (λ e, AggregateType e = ty ∧ AggregateID e = id) (rows t).

Definition LoadPg (f : option error) (aggregateType aggregateID : string) (t : table) : result (list Event) :=
  match f, pgUuid aggregateID with
  | Some e, _ => Err (wrapf "eventstore: query: " e)
  | None, None => Err (wrapf "eventstore: query: " (plain "invalid input syntax for type uuid"))
  | None, Some id => Ok (orderBySequence (rowsOf t aggregateType id))
  end.

Definition NowPg (f : option error) (now : Z) : result Z :=
  match f with Some e => Err (wrapf "eventstore: now: " e) | None => Ok now end.

(** ** The table as a log *)

(** An event without its place in the whole log, which the two stores number
    differently: only [MemoryStore]'s numbers have no gaps. *)
Definition unplaced (e : Event) : Event := setGlobalSeq 0 e.

(** [t] holds what [s] holds, of every stream whose id is a uuid as Postgres prints
    it. *)
Definition refines (t : table) (s : MemoryStore) : Prop :=
  ∀ ty id, no_nul ty = true → pgUuid id = Some id →
    unplaced <$> rowsOf t ty id = unplaced <$> stream_at s (streamKey ty id).

(** What a caller that read the streams it writes to hands over: ids that passed
    validation, messages that encode, positions the streams had. *)
Definition well_read (s : MemoryStore) (w : StreamWrite) : Prop :=
  pgUuid (sw_AggregateID w) = Some (sw_AggregateID w) ∧ no_nul (sw_AggregateType w) = true ∧
  (∀ m, m ∈ sw_Events w → is_Some (marshal m)) ∧ ExpectedSeq w ≤ len (stream_at s (sw_key w)).

Lemma insertAll_app now t qs qs' :
  insertAll now t (qs ++ qs') =
    match insertAll now t qs with (t', None) => insertAll now t' qs' | (t', Some e) => (t', Some e) end.
Proof.
  revert t. induction qs as [|q qs IH]; intros t; simpl; [done|]. by destruct (insertRow now t q) as [t' [e|]].
Qed.

Lemma rowsOf_app rs e n ty id :
  rowsOf (mkTable (rs ++ [e]) n) ty id =
    filter (λ e, AggregateType e = ty ∧ AggregateID e = id) rs ++
    (if decide (AggregateType e = ty ∧ AggregateID e = id) then [e] else []).
Proof. unfold rowsOf; simpl. rewrite filter_app, filter_cons. by case_decide. Qed.

Lemma unplaced_Sequence (evs evs' : list Event) i e :
  unplaced <$> evs = unplaced <$> evs' → evs !! i = Some e → ∃ e', evs' !! i = Some e' ∧ unplaced e = unplaced e'.
Proof.
  intros Heq Hi. assert (Hl : (unplaced <$> evs) !! i = Some (unplaced e)) by by rewrite list_lookup_fmap, Hi.
  rewrite Heq, list_lookup_fmap in Hl. destruct (evs' !! i) as [e'|]; [|done].
  apply (inj Some) in Hl. by exists e'.
Qed.

(** A sequence is taken exactly when the stream has got that far. *)
Lemma taken_iff t ty id (evs : list Event) seq :
  unplaced <$> rowsOf t ty id = unplaced <$> evs →
  (∀ i e, evs !! i = Some e → Sequence e = Z.of_nat i + 1) → 1 ≤ seq →
  taken ty id seq t = bool_decide (seq ≤ len evs).
Proof.
  intros Heq Hseq Hpos. apply eq_bool_prop_intro. rewrite bool_decide_spec. unfold taken.
  rewrite Is_true_true, existsb_exists. setoid_rewrite <- list_elem_of_In. setoid_rewrite bool_decide_eq_true. split.
  - intros (e & He & Ht & Hid & Hs).
    assert (e ∈ rowsOf t ty id) as [i Hi]%list_elem_of_lookup by (apply list_elem_of_filter; done).
    destruct (unplaced_Sequence _ _ _ _ Heq Hi) as (e' & Hi' & Hu).
    assert (Sequence e = Sequence e') by exact (f_equal Sequence Hu). rewrite (Hseq _ _ Hi') in *.
    apply lookup_lt_Some in Hi'. lia.
  - intros Hle. destruct (lookup_lt_is_Some_2 evs (Z.to_nat (seq - 1))) as [e' He']; [lia|].
    destruct (unplaced_Sequence _ _ _ _ (eq_sym Heq) He') as (e & He & Hu).
    assert (Sequence e' = Sequence e) by exact (f_equal Sequence Hu).
    apply list_elem_of_lookup_2, list_elem_of_filter in He as [[Ht Hid] Hin]. exists e. split_and!; try done.
    rewrite (Hseq _ _ He') in *. lia.
Qed.

(** One write at the stream's end lands, on its own stream only. *)
Lemma insertAll_write now t w evs i ms qs :
  pgUuid (sw_AggregateID w) = Some (sw_AggregateID w) →
  unplaced <$> rowsOf t (sw_AggregateType w) (sw_AggregateID w) = unplaced <$> evs →
  (∀ i e, evs !! i = Some e → Sequence e = Z.of_nat i + 1) → len evs = ExpectedSeq w + i →
  queueEvents w i ms = Ok qs →
  ∃ t' batch, insertAll now t qs = (t', None) ∧ stageEvents w now i ms = Ok batch ∧
    unplaced <$> rowsOf t' (sw_AggregateType w) (sw_AggregateID w) = unplaced <$> evs ++ batch ∧
    ∀ ty id, (ty, id) ≠ (sw_AggregateType w, sw_AggregateID w) → rowsOf t' ty id = rowsOf t ty id.
Proof.
  intros Hid. revert t evs i qs. induction ms as [|m ms IH]; intros t evs i qs Heq Hseq Hlen Hq; simpl in *.
  { simplify_eq/=. exists t, []. by rewrite app_nil_r. }
  destruct (marshal m) as [b|] eqn:Hm; [|done]. destruct (queueEvents w (i + 1) ms) as [qs'|] eqn:Hqs; [|done].
  simplify_eq/=. unfold insertRow. simpl. rewrite Hid.
  rewrite (taken_iff t _ _ evs) by (done || lia). rewrite bool_decide_false by lia.
  set (row := mkEvent _ (nextGlobal t) _ _ _ _ _ now).
  destruct (IH (mkTable (rows t ++ [row]) (nextGlobal t + 1)) (evs ++ [row]) (i + 1) qs') as (t' & batch & -> & -> & Hrows & Hother).
  - rewrite rowsOf_app, decide_True by done. unfold rowsOf in Heq. by rewrite !fmap_app, Heq.
  - intros j e [Hj|[Hj [[= Hz] <-]%list_lookup_singleton_Some]]%lookup_app_Some; [by apply Hseq|]. simpl. lia.
  - rewrite length_app. simpl. lia.
  - done.
  - eexists t', _. split_and!; try done.
    + rewrite Hrows. by rewrite <- app_assoc, !fmap_app.
    + intros ty id Hne. rewrite Hother by done. rewrite rowsOf_app, decide_False; [by rewrite app_nil_r|].
      intros [<- <-]. done.
Qed.

(** A write that starts before the stream's end collides at its first row. *)
Lemma insertAll_stale now t w evs m ms qs :
  pgUuid (sw_AggregateID w) = Some (sw_AggregateID w) →
  unplaced <$> rowsOf t (sw_AggregateType w) (sw_AggregateID w) = unplaced <$> evs →
  (∀ i e, evs !! i = Some e → Sequence e = Z.of_nat i + 1) → 0 ≤ ExpectedSeq w < len evs →
  queueEvents w 0 (m :: ms) = Ok qs → ∃ t', insertAll now t qs = (t', Some UniqueViolation).
Proof.
  intros Hid Heq Hseq Hlen Hq. simpl in Hq. destruct (marshal m) as [b|]; [|done].
  destruct (queueEvents w _ ms); [|done]. simplify_eq/=. unfold insertRow. simpl. rewrite Hid.
  rewrite (taken_iff t _ _ evs) by (done || lia). rewrite bool_decide_true by lia. by eexists.
Qed.

Lemma queueEvents_total w i ms :
  (∀ m, m ∈ ms → is_Some (marshal m)) → ∃ qs, queueEvents w i ms = Ok qs.
Proof.
  revert i. induction ms as [|m ms IH]; intros i Hm; simpl; [by eexists|].
  destruct (Hm m) as [b ->]; [left|]. destruct (IH (i + 1)) as [qs ->]; [intros; apply Hm; by right|]. by eexists.
Qed.

Lemma refines_commit t s w batch t' :
  refines t s → no_nul (sw_AggregateType w) = true →
  unplaced <$> rowsOf t' (sw_AggregateType w) (sw_AggregateID w) = unplaced <$> stream_at s (sw_key w) ++ batch →
  (∀ ty id, (ty, id) ≠ (sw_AggregateType w, sw_AggregateID w) → rowsOf t' ty id = rowsOf t ty id) →
  refines t' (commitWrite s w batch).
Proof.
  intros Hr Hn Hrows Hother ty id Hty Hid. rewrite stream_at_commitWrite. case_decide as Hk.
  - apply streamKey_inj in Hk as [<- <-]; [|done..]. rewrite Hrows, !fmap_app. f_equal.
    clear. generalize (globalSeq s). induction batch as [|e batch IH]; intros g; [done|].
    cbn [number]. rewrite !fmap_cons. f_equal. apply IH.
  - rewrite Hother; [by apply Hr|]. intros [= -> ->]. by apply Hk.
Qed.

(** The batch against the table does what staging and committing do in memory. *)
Lemma insertAll_writes now s0 ws t s qs :
  refines t s → wf_store s → NoDup (sw_key <$> ws) →
  (∀ w, w ∈ ws → stream_at s (sw_key w) = stream_at s0 (sw_key w)) →
  Forall (well_read s0) ws → Forall (λ w, sw_Events w ≠ [] ∧ 0 ≤ ExpectedSeq w) ws → queueWrites ws = Ok qs →
  match stageWrites s0 now ws with
  | Ok staged => ∃ t', insertAll now t qs = (t', None) ∧ refines t' (commitWrites s ws staged)
  | Err e => e = conflict ∧ ∃ t', insertAll now t qs = (t', Some UniqueViolation)
  end.
Proof.
  revert t s qs. induction ws as [|w ws IH]; intros t s qs Hr Hwf Hnd Hs Hread Hlive Hq; simpl in *.
  { simplify_eq/=. by eexists. }
  apply NoDup_cons in Hnd as [Hnin Hnd]. apply Forall_cons in Hread as [(Hid & Hty & Hm & Hle) Hread].
  apply Forall_cons in Hlive as [[Hne Hpos] Hlive].
  destruct (queueEvents w 0 (sw_Events w)) as [qw|] eqn:Hqw; [|done].
  destruct (queueWrites ws) as [more|] eqn:Hmore; [|done]. simplify_eq/=. rewrite insertAll_app.
  pose proof (Hr _ _ Hty Hid) as Hrow. pose proof (wf_seq _ Hwf (sw_key w)) as Hseq.
  rewrite <- (Hs w) in Hle |- * by left. fold (sw_key w) in Hrow. case_bool_decide as Hlen.
  - destruct (insertAll_write now t w _ 0 (sw_Events w) qw Hid Hrow Hseq) as (t1 & batch & -> & Hst & Hrows & Hother); [lia|done|].
    rewrite Hst. simpl. specialize (IH t1 (commitWrite s w batch) more).
    destruct (stageWrites s0 now ws); simpl; apply IH; try done; try by (by eapply refines_commit).
    all: try (by eapply commitWrite_wf; [done|lia|apply stageEvents_staged]).
    all: intros w' Hw'; rewrite stream_at_commitWrite, decide_False; [apply Hs; by right|];
      intros Heq; apply Hnin; rewrite Heq; by apply list_elem_of_fmap_2.
  - split; [done|]. destruct (sw_Events w) as [|m ms]; [done|].
    destruct (insertAll_stale now t w _ m ms qw Hid Hrow Hseq) as [t' ->]; [lia|done|]. by eexists.
Qed.

Lemma queueWrites_total ws :
  (∀ w m, w ∈ ws → m ∈ sw_Events w → is_Some (marshal m)) → ∃ qs, queueWrites ws = Ok qs.
Proof.
  induction ws as [|w ws IH]; intros Hm; simpl; [by eexists|].
  destruct (queueEvents_total w 0 (sw_Events w)) as [qs ->]; [intros m; apply Hm; left|].
  destruct IH as [more ->]; [intros w' m Hw'; apply Hm; by right|]. by eexists.
Qed.

Lemma insertAll_take now t n qs t' e :
  insertAll now t (take n qs) = (t', Some e) → insertAll now t qs = (t', Some e).
Proof. intros H. rewrite <- (take_drop n qs), insertAll_app. by rewrite H. Qed.

(** Sequences that increase along a list are in order already. *)
Lemma orderBySequence_id (es : list Event) :
  StronglySorted (λ e e', Sequence e < Sequence e') es → orderBySequence es = es.
Proof.
  induction 1 as [|e es _ IH Hall]; simpl; [done|]. fold (orderBySequence es). rewrite IH. destruct es as [|x es]; simpl; [done|].
  apply Forall_cons in Hall as [Hlt _]. destruct (Z.leb_spec (Sequence e) (Sequence x)); [done | lia].
Qed.

Lemma sequences_sorted (es : list Event) n :
  (∀ i e, es !! i = Some e → Sequence e = Z.of_nat i + n) → StronglySorted (λ e e', Sequence e < Sequence e') es.
Proof.
  revert n. induction es as [|e es IH]; intros n Hs; constructor.
  - apply (IH (n + 1)). intros i x Hi. rewrite (Hs (S i) x Hi). lia.
  - apply Forall_lookup. intros i x Hi. rewrite (Hs (S i) x Hi), (Hs 0%nat e eq_refl). lia.
Qed.

Lemma refines_sequence t s ty id i e :
  refines t s → wf_store s → no_nul ty = true → pgUuid id = Some id →
  rowsOf t ty id !! i = Some e → Sequence e = Z.of_nat i + 1.
Proof.
  intros Hr Hwf Hty Hid Hi. destruct (unplaced_Sequence _ _ _ _ (Hr _ _ Hty Hid) Hi) as (e' & Hi' & Hu).
  rewrite <- (wf_seq _ Hwf _ _ _ Hi'). exact (f_equal Sequence Hu).
Qed.

Lemma LoadPg_rows t s ty id :
  refines t s → wf_store s → no_nul ty = true → pgUuid id = Some id → LoadPg None ty id t = Ok (rowsOf t ty id).
Proof.
  intros Hr Hwf Hty Hid. unfold LoadPg. rewrite Hid. f_equal. apply orderBySequence_id, (sequences_sorted _ 1).
  intros i e. by eapply refines_sequence.
Qed.

(** ** The theorems *)

Section refinement.
Context {L : LedgerClient}.

(** Faults of the connection are not the program's own errors. *)
Definition outside (f : fault) : Prop :=
  match f with FaultBegin e | FaultExec _ e | FaultClose e | FaultCommit _ e => env_error e end.

Lemma env_error_wrapf msg e : env_error e → env_error (wrapf msg e).
Proof. by intros [_ ?]. Qed.

Lemma refines_rolledBack t t' s : refines t s → refines (rolledBack t t') s.
Proof. done. Qed.

Lemma liveWrites_idem ws : liveWrites (liveWrites ws) = liveWrites ws.
Proof.
  unfold liveWrites. induction ws as [|w ws IH]; [done|]. rewrite (filter_cons _ w ws). case_decide as Hw; [|exact IH].
  by rewrite filter_cons, decide_True, IH.
Qed.

(** What the statements of the transaction come to, against memory. *)
Lemma inTransaction_refines f now ws t s qs :
  refines t s → wf_store s → ws ≠ [] → validateWrites ws = Ok tt → liveWrites ws = ws → Forall (well_read s) ws →
  (∀ g, f = Some g → outside g) → queueWrites ws = Ok qs →
  let '(t', r) := inTransaction f now qs t in
  let '(s', r0) := AppendAtomic None now ws s in
  (r = r0 ∧ refines t' s') ∨ (∃ e, r = Err e ∧ env_error e ∧ (refines t' s ∨ refines t' s')).
Proof.
  intros Hr Hwf Hne Hv Hlive Hread Hf Hq. destruct (validateFrom_nodup [] ws Hv) as [Hnd Hpos].
  assert (Hlv : Forall (λ w, sw_Events w ≠ [] ∧ 0 ≤ ExpectedSeq w) ws).
  { apply Forall_forall. intros w Hw. split; [|by apply Hpos]. rewrite <- Hlive in Hw. by apply list_elem_of_filter in Hw as [? _]. }
  pose proof (insertAll_writes now s ws t s qs Hr Hwf Hnd (λ _ _, eq_refl) Hread Hlv Hq) as Hins.
  unfold AppendAtomic. rewrite Hlive, Hv. destruct ws as [|w ws]; [done|].
  assert (Hreach : ∀ t' e, insertAll now t (answered f qs) = (t', Some e) → insertAll now t qs = (t', Some e)).
  { destruct f as [[]|]; try done. intros t' e'. apply insertAll_take. }
  unfold inTransaction. destruct (insertAll now t (answered f qs)) as [t' [e|]] eqn:Hi.
  - rewrite (Hreach _ _ eq_refl) in Hins. destruct (stageWrites _ _ _).
    + by destruct Hins as (? & ? & _).
    + destruct Hins as (-> & t2 & [= -> ->]). left. split; [done | by apply refines_rolledBack].
  - clear Hreach. destruct f as [f|].
    + specialize (Hf f eq_refl). destruct f as [e|n e|e|landed e]; simpl in Hf, Hi.
      * destruct (stageWrites _ _ _).
        -- destruct Hins as (t2 & Heq & ?). rewrite Hi in Heq. simplify_eq. by left.
        -- destruct Hins as (_ & t2 & Heq). by rewrite Hi in Heq.
      * destruct (stageWrites _ _ _); right; eexists; (split; [done|]); (split; [by apply env_error_wrapf | by left]).
      * destruct (stageWrites _ _ _); right; eexists; (split; [done|]); (split; [by apply env_error_wrapf | by left]).
      * destruct (stageWrites _ _ _).
        -- destruct Hins as (t2 & Heq & ?). rewrite Hi in Heq. simplify_eq. right. eexists. split; [done|].
           split; [by apply env_error_wrapf|]. destruct landed; [by right | by left].
        -- destruct Hins as (_ & t2 & Heq). by rewrite Hi in Heq.
    + simpl in Hi. destruct (stageWrites _ _ _).
      * destruct Hins as (t2 & Heq & ?). rewrite Hi in Heq. simplify_eq. by left.
      * destruct Hins as (_ & t2 & Heq). by rewrite Hi in Heq.
Qed.

Lemma postgres_memory f now ws t s :
  refines t s → wf_store s → Forall (well_read s) ws → (∀ g, f = Some g → outside g) →
  (snd (AppendAtomicPg f now ws t) = snd (AppendAtomic None now ws s) ∧
   refines (fst (AppendAtomicPg f now ws t)) (fst (AppendAtomic None now ws s))) ∨
  (∃ e, snd (AppendAtomicPg f now ws t) = Err e ∧ env_error e ∧
     (refines (fst (AppendAtomicPg f now ws t)) s ∨
      refines (fst (AppendAtomicPg f now ws t)) (fst (AppendAtomic None now ws s)))).
Proof.
  intros Hr Hwf Hread Hf.
  unfold AppendAtomicPg. destruct (validateWrites (liveWrites ws)) as [[]|e] eqn:Hv.
  2: { unfold AppendAtomic. rewrite Hv. by left. }
  case_bool_decide as Hnil; [unfold AppendAtomic; rewrite Hv, Hnil; by left|].
  assert (Hread' : Forall (well_read s) (liveWrites ws))
    by (apply Forall_forall; intros x [_ Hx]%list_elem_of_filter; by apply (proj1 (Forall_forall _ _) Hread)).
  destruct (queueWrites_total (liveWrites ws)) as [qs Hqs].
  { intros x m Hx. by apply (proj1 (Forall_forall _ _) Hread' x Hx). }
  rewrite Hqs. pose proof (liveWrites_idem ws) as Hidem.
  pose proof (inTransaction_refines f now (liveWrites ws) t s qs Hr Hwf Hnil Hv Hidem Hread' Hf Hqs) as H.
  assert (Hsame : AppendAtomic None now (liveWrites ws) s = AppendAtomic None now ws s).
  { unfold AppendAtomic. by rewrite Hidem. }
  rewrite Hsame in H. destruct (inTransaction f now qs t) as [t' r], (AppendAtomic None now ws s) as [s' r0].
  destruct f as [[e|n e|e|landed e]|]; try exact H.
  right. eexists. split; [done|]. split; [|by left]. by apply env_error_wrapf, (Hf _ eq_refl).
Qed.

End refinement.

Lemma insertAll_rows now t qs t' e : insertAll now t qs = (t', e) → ∃ new, rows t' = rows t ++ new.
Proof.
  revert t. induction qs as [|q qs IH]; intros t Hi; simpl in Hi; [simplify_eq; exists []; by rewrite app_nil_r|].
  unfold insertRow in Hi. destruct (pgUuid (q_id q)); [|simplify_eq; exists []; by rewrite app_nil_r].
  destruct (taken _ _ _ t); [simplify_eq; exists []; by rewrite app_nil_r|].
  destruct (IH _ Hi) as [new ->]. simpl. eexists (_ :: new). by rewrite <- app_assoc.
Qed.

Lemma AppendAtomicPg_rows f now ws t t' :
  AppendAtomicPg f now ws t = (t', Ok tt) → ∃ new, rows t' = rows t ++ new.
Proof.
  unfold AppendAtomicPg. destruct (validateWrites _); [|done].
  case_bool_decide; [intros [= ->]; exists []; by rewrite app_nil_r|]. destruct (queueWrites _) as [qs|]; [|done].
  unfold inTransaction. destruct (insertAll now t (answered f qs)) as [t1 [e|]] eqn:Hi;
    destruct f as [[]|]; try done; intros [= <-]; by eapply insertAll_rows.
Qed.

Lemma unplaced_recorded m (e e' : Event) : unplaced e = unplaced e' → recorded m e → recorded m e'.
Proof.
  intros Hu [Ht Hp]. split.
  - rewrite <- Ht. symmetry. exact (f_equal EType Hu).
  - rewrite Hp. f_equal. exact (f_equal Payload Hu).
Qed.

Lemma unplaced_Forall2 ms (b b' : list Event) :
  unplaced <$> b = unplaced <$> b' → Forall2 recorded ms b → Forall2 recorded ms b'.
Proof.
  intros Hu Hr. revert b' Hu. induction Hr as [|m e ms b Hm _ IH]; intros [|e' b'] Hu; try done.
  rewrite !fmap_cons in Hu. apply (inj2 cons) in Hu as [He Hb]. constructor; [by eapply unplaced_recorded | by apply IH].
Qed.

(** C24. What is appended is read back: after an append that succeeded, loading each
    stream it wrote returns what was there before followed by events that decode
    to the messages written, in order, under the next sequence numbers. *)
Theorem postgres_roundtrip {CL : CodecLaws C} now ws t t' s w :
  refines t s → wf_store s → Forall (well_read s) ws → AppendAtomicPg None now ws t = (t', Ok tt) →
  w ∈ ws → sw_Events w ≠ [] →
  ∃ before batch,
    LoadPg None (sw_AggregateType w) (sw_AggregateID w) t = Ok before ∧
    LoadPg None (sw_AggregateType w) (sw_AggregateID w) t' = Ok (before ++ batch) ∧
    Decode <$> batch = Ok <$> sw_Events w ∧
    ∀ i e, batch !! i = Some e → Sequence e = ExpectedSeq w + Z.of_nat i + 1.
Proof.
  intros Hr Hwf Hread Ha Hw Hne.
  destruct (postgres_memory None now ws t s) as [[Hok Hr']|(e & He & _)]; [done..| |by rewrite Ha in He].
  rewrite Ha in Hok, Hr'. destruct (AppendAtomic None now ws s) as [s' r0] eqn:Hm. simpl in Hok, Hr'. subst r0.
  pose proof (proj1 (Forall_forall _ _) Hread w Hw) as (Hid & Hty & _).
  pose proof (wf_after_append _ _ _ _ _ _ Hm Hwf) as Hwf'.
  destruct (appended_by None now ws s s' w Hm Hw Hne) as (Hlen & b & Hb & Hs').
  destruct (AppendAtomicPg_rows None now ws t t' Ha) as [new Hnew].
  set (batch := filter (λ e, AggregateType e = sw_AggregateType w ∧ AggregateID e = sw_AggregateID w) new).
  assert (Hrows : rowsOf t' (sw_AggregateType w) (sw_AggregateID w) =
                  rowsOf t (sw_AggregateType w) (sw_AggregateID w) ++ batch).
  { unfold rowsOf. by rewrite Hnew, filter_app. }
  exists (rowsOf t (sw_AggregateType w) (sw_AggregateID w)), batch. rewrite <- Hrows.
  rewrite (LoadPg_rows t s), (LoadPg_rows t' s') by done. pose proof (Hr' _ _ Hty Hid) as Hu.
  fold (sw_key w) in Hu. rewrite Hs', Hrows, !fmap_app, (Hr _ _ Hty Hid) in Hu. apply app_inv_head in Hu.
  split_and!; [done|done| |].
  - assert (Hrec : Forall2 recorded (sw_Events w) batch).
    { eapply unplaced_Forall2; [symmetry; exact Hu | by eapply staged_batch_recorded]. }
    clear -Hrec CL. induction Hrec as [|m e ms b Hm _ IH]; [done|]. rewrite !fmap_cons, IH. by rewrite (recorded_Decode _ _ Hm).
  - intros i e Hi. destruct (unplaced_Sequence _ _ _ _ Hu Hi) as (e' & Hi' & Heq).
    destruct (staged_batch_lookup _ _ _ _ _ _ _ Hb Hi') as (m & _ & _ & _ & _ & Hseq & _).
    assert (Sequence e = Sequence e') as -> by exact (f_equal Sequence Heq). rewrite Hseq. lia.
Qed.
End postgres.

(** ** At work *)

(** Any spelling of a UUID is kept as its lower-case hyphenated one. *)
#[local] Instance hexPgUuid : PgUuid := λ value, UuidString <$> Parse value.

Definition sampleID : string := "00000000-0000-4000-8000-0000000000aa".
Definition emptyTable : table := mkTable [] 1.
Definition samplePgWrite (seq : Z) : StreamWrite :=
  mkStreamWrite "transfer" sampleID seq [TransferStaged sampleID; TransferPending sampleID].

Lemma emptyTable_refines : refines emptyTable NewMemoryStore.
Proof. intros ty id _ _. done. Qed.

Lemma samplePgWrite_read : Forall (well_read NewMemoryStore) [samplePgWrite 0].
Proof.
  apply Forall_singleton. split_and!; [vm_compute; reflexivity|vm_compute; reflexivity| |done].
  intros m _. by exists m.
Qed.


Lemma postgres_roundtrip_witness :
  ∃ before batch,
    LoadPg None "transfer" sampleID emptyTable = Ok before ∧
    LoadPg None "transfer" sampleID (fst (AppendAtomicPg None 7 [samplePgWrite 0] emptyTable)) = Ok (before ++ batch) ∧
    Decode <$> batch = Ok <$> [TransferStaged sampleID; TransferPending sampleID].
Proof.
  destruct (postgres_roundtrip 7 [samplePgWrite 0] emptyTable (fst (AppendAtomicPg None 7 [samplePgWrite 0] emptyTable))
              NewMemoryStore (samplePgWrite 0)) as (before & batch & H1 & H2 & H3 & _).
  - apply emptyTable_refines.
  - apply NewMemoryStore_wf.
  - apply samplePgWrite_read.
  - vm_compute. reflexivity.
  - by left.
  - done.
  - exists before, batch. split; [exact H1|]. split; [exact H2 | exact H3].
Defined.
