(* ===== verification/RealClient.v ===== *)
(** * The TigerBeetle client ([go/internal/ledger/real_client.go])

    The translation between this package's types and TigerBeetle's. TigerBeetle
    and its Go client are the parameter [TigerBeetle]: what a request may answer
    and do. [RealLedger] is the [LedgerClient] the services run on in production,
    so that every theorem over an arbitrary client covers it. Resolving the
    cluster's host name is in [Startup]. *)

From S2P Require Import Prelude Proto EventStore Ledger Effects Validate.

(** A [tb.Uint128] used as an id is the 16 bytes of a UUID; used as a total it is
    a number. *)
Notation Uint128 := (list Z).

Record tbAccount : Type := mkTbAccount {
  tba_ID : Uint128;
  tba_Ledger : Z;
  tba_Code : Z;
  tba_Flags : AccountFlags
}.

(** An account as TigerBeetle reports it. *)
Record tbBalance : Type := mkTbBalance {
  tbb_ID : Uint128;
  tbb_Ledger : Z;
  tbb_DebitsPosted : Z;
  tbb_CreditsPosted : Z;
  tbb_DebitsPending : Z;
  tbb_CreditsPending : Z
}.

Record tbTransferFlags : Type := mkTbFlags {
  tbf_Linked : bool; tbf_Pending : bool; tbf_PostPending : bool; tbf_VoidPending : bool
}.

Record tbTransfer : Type := mkTbTransfer {
  tbt_ID : Uint128;
  tbt_DebitAccountID : Uint128;
  tbt_CreditAccountID : Uint128;
  tbt_Amount : Z;
  tbt_PendingID : option Uint128;   (* none: zero *)
  tbt_Timeout : Z;
  tbt_Ledger : Z;
  tbt_Code : Z;
  tbt_Flags : tbTransferFlags
}.

(** The statuses the client tells apart; the last stands for every other. *)
Inductive CreateAccountStatus : Type :=
| AccountCreated | AccountExists | AccountExistsWithDifferentFlags
| AccountExistsWithDifferentUserData128 | AccountExistsWithDifferentUserData64
| AccountExistsWithDifferentUserData32 | AccountExistsWithDifferentLedger
| AccountExistsWithDifferentCode | AccountLinkedEventFailed | AccountOther.

Inductive CreateTransferStatus : Type :=
| TransferCreated | TransferExists | TransferExistsWithDifferentFlags
| TransferExistsWithDifferentPendingID | TransferExistsWithDifferentTimeout
| TransferExistsWithDifferentDebitAccountID | TransferExistsWithDifferentCreditAccountID
| TransferExistsWithDifferentAmount | TransferExistsWithDifferentUserData128
| TransferExistsWithDifferentUserData64 | TransferExistsWithDifferentUserData32
| TransferExistsWithDifferentLedger | TransferExistsWithDifferentCode
| TransferLinkedEventFailed | TransferExceedsCredits | TransferExceedsDebits
| TransferDebitAccountNotFound | TransferCreditAccountNotFound
| TransferPendingTransferNotFound | TransferPendingTransferNotPending
| TransferPendingTransferHasDifferentDebitAccountID | TransferPendingTransferHasDifferentCreditAccountID
| TransferPendingTransferHasDifferentLedger | TransferPendingTransferHasDifferentCode
| TransferPendingTransferHasDifferentAmount | TransferExceedsPendingTransferAmount
| TransferPendingTransferAlreadyPosted | TransferPendingTransferAlreadyVoided
| TransferPendingTransferExpired | TransferOther.

Inductive tbError : Type := ErrTooMuchData | TbOther (e : error).

Class TigerBeetle : Type := {
  tbState : Type;
  tbCreateAccounts : tbState → list tbAccount → list CreateAccountStatus + tbError → tbState → Prop;
  tbCreateTransfers : tbState → list tbTransfer → list CreateTransferStatus + tbError → tbState → Prop;
  tbLookupAccounts : tbState → list Uint128 → list tbBalance + tbError → Prop
}.

Definition code : Z := 1.

Section translation.
Context {U : UuidPackage}.

(** [fmt.Errorf("%w: ...%w", ErrInvalidRequest, ...)] *)
Definition invalidRequest (e : error) : error := mkError None (ErrInvalidRequest :: e_is e) (e_msg e).

Definition idToUint128 (id : string) : result Uint128 :=
  match Parse id with
  | None => Err (invalidRequest (plain (quoted id +:+ " is not a valid UUID")))
  | Some u => Ok u
  end.

Definition tbErrorOf (e : tbError) : error :=
  match e with ErrTooMuchData => plain "too much data" | TbOther e => e end.

Definition requestError (op : string) (e : tbError) : error :=
  match e with
  | ErrTooMuchData => wrapf ("ledger: " +:+ op +:+ ": ") (invalidRequest (tbErrorOf e))
  | TbOther _ => wrapf ("ledger: " +:+ op +:+ ": ") (tbErrorOf e)
  end.

(** [for i, x := range xs { ... return nil, err ... out[i] = y }] *)
Fixpoint translateAll {A B} (f : A → result B) (xs : list A) : result (list B) :=
  match xs with
  | [] => Ok []
  | x :: xs =>
      let? y := f x in
      let? ys := translateAll f xs in
      Ok (y :: ys)
  end.

Definition toTbAccount (a : Account) : result tbAccount :=
  let? id := idToUint128 (ac_ID a) in
  let? ledgerID := rmap_err invalidRequest (LedgerID (ac_Currency a)) in
  Ok (mkTbAccount id ledgerID code (ac_Flags a)).

Definition accountResultCode (status : CreateAccountStatus) : AccountResultCode :=
  match status with
  | AccountCreated => AccountResultOK
  | AccountExists => AccountResultExists
  | AccountExistsWithDifferentFlags | AccountExistsWithDifferentUserData128
  | AccountExistsWithDifferentUserData64 | AccountExistsWithDifferentUserData32
  | AccountExistsWithDifferentLedger | AccountExistsWithDifferentCode => AccountResultExistsWithDifferentFlags
  | AccountLinkedEventFailed => AccountResultLinkedEventFailed
  | AccountOther => AccountResultInvalid
  end.

Definition transferFlags (t : Transfer) : tbTransferFlags :=
  mkTbFlags (Linked t) (bool_decide (Kind t = TransferKindPending))
    (bool_decide (Kind t = TransferKindPostPending)) (bool_decide (Kind t = TransferKindVoidPending)).

(** [uint32(t.Timeout)] *)
Definition u32 (x : Z) : Z := x mod 2 ^ 32.

Definition toTbTransfer (t : Transfer) : result tbTransfer :=
  let? id := idToUint128 (t_ID t) in
  let? debitID := idToUint128 (DebitAccountID t) in
  let? creditID := idToUint128 (CreditAccountID t) in
  let? ledgerID := rmap_err invalidRequest (LedgerID (t_Currency t)) in
  let? pendingID := (if bool_decide (PendingID t = "") then Ok None
                     else let? p := idToUint128 (PendingID t) in Ok (Some p)) in
  Ok (mkTbTransfer id debitID creditID (t_MinorUnits t) pendingID (u32 (Timeout t)) ledgerID code (transferFlags t)).

Definition transferResultCode (status : CreateTransferStatus) : TransferResultCode :=
  match status with
  | TransferCreated => TransferResultOK
  | TransferExists => TransferResultExists
  | TransferExistsWithDifferentFlags | TransferExistsWithDifferentPendingID
  | TransferExistsWithDifferentTimeout | TransferExistsWithDifferentDebitAccountID
  | TransferExistsWithDifferentCreditAccountID | TransferExistsWithDifferentAmount
  | TransferExistsWithDifferentUserData128 | TransferExistsWithDifferentUserData64
  | TransferExistsWithDifferentUserData32 | TransferExistsWithDifferentLedger
  | TransferExistsWithDifferentCode => TransferResultExistsWithDifferentFields
  | TransferLinkedEventFailed => TransferResultLinkedEventFailed
  | TransferExceedsCredits => TransferResultExceedsCredits
  | TransferExceedsDebits => TransferResultExceedsDebits
  | TransferDebitAccountNotFound | TransferCreditAccountNotFound => TransferResultAccountNotFound
  | TransferPendingTransferNotFound | TransferPendingTransferNotPending
  | TransferPendingTransferHasDifferentDebitAccountID | TransferPendingTransferHasDifferentCreditAccountID
  | TransferPendingTransferHasDifferentLedger | TransferPendingTransferHasDifferentCode
  | TransferPendingTransferHasDifferentAmount | TransferExceedsPendingTransferAmount
  | TransferPendingTransferAlreadyPosted | TransferPendingTransferAlreadyVoided
  | TransferPendingTransferExpired => TransferResultPendingTransferNotFound
  | TransferOther => TransferResultInvalid
  end.

(** ** The calls *)

Context {T : TigerBeetle}.

Definition accountResults (answer : list CreateAccountStatus + tbError) : result (list AccountResult) :=
  match answer with
  | inr err => Err (requestError "CreateAccounts" err)
  | inl results => Ok (imap (λ i r, mkAccountResult (Z.of_nat i) (accountResultCode r)) results)
  end.

Definition RealCreateAccounts (st : tbState) (accounts : list Account) (r : result (list AccountResult))
    (st' : tbState) : Prop :=
  match (let? _ := checkBatchSize (len accounts) in translateAll toTbAccount accounts) with
  | Err e => r = Err e ∧ st' = st
  | Ok tbAccounts => ∃ answer, tbCreateAccounts st tbAccounts answer st' ∧ r = accountResults answer
  end.

Definition transferResults (answer : list CreateTransferStatus + tbError) : result (list TransferResult) :=
  match answer with
  | inr err => Err (requestError "CreateTransfers" err)
  | inl results => Ok (imap (λ i r, mkTransferResult (Z.of_nat i) (transferResultCode r)) results)
  end.

Definition RealCreateTransfers (st : tbState) (transfers : list Transfer) (r : result (list TransferResult))
    (st' : tbState) : Prop :=
  match (let? _ := checkBatchSize (len transfers) in translateAll toTbTransfer transfers) with
  | Err e => r = Err e ∧ st' = st
  | Ok tbTransfers => ∃ answer, tbCreateTransfers st tbTransfers answer st' ∧ r = transferResults answer
  end.

Definition lookupBatchMax : nat := 2031.

(** [total.Uint64()] and its check. *)
Definition lowHalf (total : Z) : result Z :=
  if bool_decide (Z.shiftr total 64 = 0) then Ok (Z.land total (2 ^ 64 - 1))
  else Err (plain "ledger: account total overflows uint64").

Definition balanceOfAccount (a : tbBalance) : result Balance :=
  let? currency := CurrencyOf (tbb_Ledger a) in
  let? debitsPosted := lowHalf (tbb_DebitsPosted a) in
  let? creditsPosted := lowHalf (tbb_CreditsPosted a) in
  let? debitsPending := lowHalf (tbb_DebitsPending a) in
  let? creditsPending := lowHalf (tbb_CreditsPending a) in
  Ok (mkBalance currency debitsPosted creditsPosted debitsPending creditsPending).

(** [callerID], the caller's spelling of each id; the last one of each wins. *)
Definition callerIDs (accountIDs : list string) (ids : list Uint128) : gmap Uint128 string :=
  foldl (λ m '(id, accountID), <[id := accountID]> m) ∅ (zip ids accountIDs).

(** One reply, added to [balances]; a reply for an id nobody asked for would be
    kept under the empty spelling. *)
Fixpoint addReply (callerID : gmap Uint128 string) (accounts : list tbBalance) (balances : gmap string Balance)
    : result (gmap string Balance) :=
  match accounts with
  | [] => Ok balances
  | a :: accounts =>
      let? b := balanceOfAccount a in
      addReply callerID accounts (<[default "" (callerID !! tbb_ID a) := b]> balances)
  end.

(** The loop over slices of [lookupBatchMax] ids; [fuel] bounds the slices, and
    the number of ids is enough. *)
Fixpoint lookupSlices (fuel : nat) (st : tbState) (callerID : gmap Uint128 string) (ids : list Uint128)
    (balances : gmap string Balance) (r : result (gmap string Balance)) : Prop :=
  match ids, fuel with
  | [], _ => r = Ok balances
  | _, O => r = Err (sentinel_error OutOfFuel "")
  | _, S fuel =>
      ∃ answer, tbLookupAccounts st (take lookupBatchMax ids) answer ∧
        match answer with
        | inr err => r = Err (wrapf "ledger: LookupAccounts: " (tbErrorOf err))
        | inl accounts =>
            match addReply callerID accounts balances with
            | Err e => r = Err e
            | Ok balances => lookupSlices fuel st callerID (drop lookupBatchMax ids) balances r
            end
        end
  end.

Definition RealBalances (st : tbState) (accountIDs : list string) (r : result (gmap string Balance)) : Prop :=
  match translateAll idToUint128 accountIDs with
  | Err e => r = Err e
  | Ok ids => lookupSlices (length ids) st (callerIDs accountIDs ids) ids ∅ r
  end.

(** The client the deployed services run on, one of those the system's theorems
    quantify over. *)
Definition RealLedger : LedgerClient := {|
  lstate := tbState;
  lCreateAccounts := RealCreateAccounts;
  lCreateTransfers := RealCreateTransfers;
  lBalances := RealBalances
|}.

(** ** Reading balances *)














End translation.

(** ** At work *)

(** A replica that holds some accounts and refuses every new one. *)
#[local] Instance fixedReplica : TigerBeetle := {|
  tbState := gmap Uint128 tbBalance;
  tbCreateAccounts st accs answer st' := answer = inl ((λ _, AccountOther) <$> accs) ∧ st' = st;
  tbCreateTransfers st ts answer st' := answer = inl ((λ _, TransferOther) <$> ts) ∧ st' = st;
  tbLookupAccounts st ids answer := answer = inl (omap (λ u, st !! u) ids)
|}.


