(* ===== verification/Wallet.v ===== *)
(** * Wallets ([go/internal/wallet])

    A Wallet's stream opens with [WalletOpened] and then lists the Tokens minted
    into it, oldest first: the index source selection reads. [Server] holds only
    the store, so its methods are programs over it. *)

From S2P Require Import Prelude Proto EventStore Ledger Effects Validate.

Module Wallet.
Section wallet.
Context {C : Codec} {U : UuidPackage}.

Definition AggregateType : string := "wallet".

(** ** tokens.go *)

Definition TokenMintedForWalletEvent (walletID tokenID : string) (capacity : option Money)
    (transactionID : string) : message :=
  TokenMintedForWallet (mkMintedForWallet walletID tokenID capacity transactionID).

Fixpoint tokensIn (events : list Event) : result (list string) :=
  match events with
  | [] => Ok []
  | event :: rest =>
      let? msg := rmap_err InternalErrorWith (Decode event) in
      let? tokens := tokensIn rest in
      match msg with
      | TokenMintedForWallet minted => Ok (mw_TokenId minted :: tokens)
      | _ => Ok tokens
      end
  end.

Definition TokensOf (walletID : string) : M (list string) :=
  let* events := mapErr InternalErrorWith (load AggregateType walletID) in
  lift (tokensIn events).

(** A nil checker is [None]. *)
Definition TransactionOpenChecker : Type := option (string → M bool).

Fixpoint visibleIn (callingTransactionID : string) (isOpen : TransactionOpenChecker)
    (events : list Event) (visible : list string) : M (list string) :=
  match events with
  | [] => ret visible
  | event :: rest =>
      let* msg := lift (rmap_err InternalErrorWith (Decode event)) in
      match msg with
      | TokenMintedForWallet minted =>
          let tag := mw_TransactionId minted in
          let included := visible ++ [mw_TokenId minted] in
          match isOpen with
          | None => visibleIn callingTransactionID isOpen rest included
          | Some checker =>
              if bool_decide (tag = "") || bool_decide (tag = callingTransactionID)
              then visibleIn callingTransactionID isOpen rest included
              else
                let* open := checker tag in
                visibleIn callingTransactionID isOpen rest (if open : bool then visible else included)
          end
      | _ => visibleIn callingTransactionID isOpen rest visible
      end
  end.

Definition TokensOfVisibleTo (walletID callingTransactionID : string)
    (isOpen : TransactionOpenChecker) : M (list string) :=
  let* events := mapErr InternalErrorWith (load AggregateType walletID) in
  visibleIn callingTransactionID isOpen events [].

(** ** server.go *)

Definition OpenedEvent (walletID holderID name : string) (allows : Allows) : WalletOpenedMsg :=
  mkWalletOpened walletID holderID name allows.

Definition ValidateWallet (walletID : string) (allows : Allows) : result unit :=
  let? _ := Id.Validate "id" walletID in
  if bool_decide (allows = ALLOWS_UNSPECIFIED) then
    Err (InvalidArgumentError "allows" "must be set; use ALLOWS_NONE to permit neither onramp nor offramp")
  else Ok tt.

Definition ValidateOpen (walletID holderID : string) (allows : Allows) : result unit :=
  let? _ := ValidateWallet walletID allows in
  Id.Validate "holder_id" holderID.

(** The first event of a Wallet's stream, which must be its [WalletOpened]. *)
Definition openedIn (events : list Event) : result (option WalletOpenedMsg) :=
  match events with
  | [] => Ok None
  | event :: _ =>
      let? msg := rmap_err InternalErrorWith (Decode event) in
      match msg with
      | WalletOpened opened => Ok (Some opened)
      | _ => Err (InternalError "wallet: stream does not start with WalletOpened")
      end
  end.

Definition Opened (id : string) : M (option WalletOpenedMsg) :=
  let* events := mapErr InternalErrorWith (load AggregateType id) in
  lift (openedIn events).

(** [pb.OpenRequest] and [pb.OpenResponse] *)
Record OpenRequest : Type := mkOpenRequest {
  or_Id : string; or_HolderId : string; or_Name : string; or_Allows : Allows
}.

Inductive OpenResult : Type :=
| OpenResponse_WalletOpened (e : WalletOpenedMsg)
| OpenResponse_WalletRejected (id holderID reason : string).

Record OpenResponse : Type := mkOpenResponse { opr_Id : string; opr_Result : OpenResult }.

Definition openedResponse (e : WalletOpenedMsg) : OpenResponse :=
  mkOpenResponse (wo_Id e) (OpenResponse_WalletOpened e).

Definition rejectedResponse (walletID holderID reason : string) : OpenResponse :=
  mkOpenResponse walletID (OpenResponse_WalletRejected walletID holderID reason).

Definition replayResponse (existing : WalletOpenedMsg) (holderID : string) : OpenResponse :=
  if bool_decide (wo_HolderId existing = holderID) then openedResponse existing
  else rejectedResponse (wo_Id existing) holderID
         ("wallet already belongs to holder " +:+ quoted (wo_HolderId existing)).

Definition Open (req : OpenRequest) : M OpenResponse :=
  lift (ValidateOpen (or_Id req) (or_HolderId req) (or_Allows req)) ;;;
  let* existing := Opened (or_Id req) in
  match existing with
  | Some existing => ret (replayResponse existing (or_HolderId req))
  | None =>
      let event := OpenedEvent (or_Id req) (or_HolderId req) (or_Name req) (or_Allows req) in
      try (append AggregateType (or_Id req) 0 [WalletOpened event]) (fun r =>
        match r with
        | Ok _ => ret (openedResponse event)
        | Err err =>
            if Is err ErrConcurrencyConflict then
              let* existing := Opened (or_Id req) in
              match existing with
              | None => fail (InternalError "wallet: append conflicted but no wallet was found")
              | Some existing => ret (replayResponse existing (or_HolderId req))
              end
            else fail (InternalErrorWith err)
        end)
  end.

End wallet.
End Wallet.
