(* ===== verification/Holder.v ===== *)
(** * Holders ([go/internal/holder])

    A Holder's stream opens with [HolderEstablished] and then records the
    Wallets added to it. Opening a Wallet and recording it land in one atomic
    append; [Provision] does that for a Holder and several Wallets at once. *)

From S2P Require Import Prelude Proto EventStore Ledger Effects Validate Wallet.

Module Holder.
Section holder.
Context {C : Codec} {U : UuidPackage}.

Definition aggregateType : string := "holder".

Definition holderStream (id : string) : M (list Event) :=
  mapErr InternalErrorWith (load aggregateType id).

(** Only asked of a non-empty stream, which Go indexes. *)
Definition decodeEstablished (events : list Event) : result message :=
  match events with
  | [] => Err (plain "panic: index out of range")
  | e :: _ =>
      let? msg := rmap_err InternalErrorWith (Decode e) in
      match msg with
      | HolderEstablished _ _ => Ok msg
      | _ => Err (InternalError "holder: stream does not start with HolderEstablished")
      end
  end.

Definition established (id : string) : M (option message) :=
  let* events := holderStream id in
  match events with
  | [] => ret None
  | _ =>
      let* msg := lift (decodeEstablished events) in
      ret (Some msg)
  end.

(** [pb.EstablishResponse]: the id of the event it carries, and the event. *)
Definition establishResponse (e : message) : string * message :=
  (match e with HolderEstablished id _ => id | _ => "" end, e).

Definition Establish (id : string) (memos : gmap string Memo) : M (string * message) :=
  lift (Id.Validate "id" id) ;;;
  let* existing := established id in
  match existing with
  | Some existing => ret (establishResponse existing)
  | None =>
      let event := HolderEstablished id memos in
      try (append aggregateType id 0 [event]) (fun r =>
        match r with
        | Ok _ => ret (establishResponse event)
        | Err err =>
            if Is err ErrConcurrencyConflict then
              let* existing := established id in
              match existing with
              | None => fail (InternalError "holder: append conflicted but no holder was found")
              | Some existing => ret (establishResponse existing)
              end
            else fail (InternalErrorWith err)
        end)
  end.

Definition recordWallet (recorded : gset string) (e : Event) : result (gset string) :=
  let? msg := rmap_err InternalErrorWith (Decode e) in
  match msg with
  | HolderAddedWallet added => Ok ({[ aw_WalletId added ]} ∪ recorded)
  | _ => Ok recorded
  end.

Definition recordedWallets (events : list Event) : result (gset string) := rfold recordWallet ∅ events.

(** [pb.WalletSpec] *)
Record WalletSpec : Type := mkWalletSpec { ws_WalletId : string; ws_Name : string; ws_Allows : Allows }.

(** [pb.HolderRejectedWallet] *)
Record HolderRejectedWallet : Type := mkRejectedWallet {
  rw_Id : string; rw_WalletId : string; rw_Reason : string
}.

Definition addedEvent (holderID : string) (spec : WalletSpec) : message :=
  HolderAddedWallet (mkAddedWallet holderID (ws_WalletId spec) (ws_Name spec) (ws_Allows spec)).

(** The loop of [walletWrites] over the specs still to do: the Wallets to open
    and the events to record, or the first Wallet that is another Holder's. *)
Fixpoint walletDelta (holderID : string) (recorded : gset string) (specs : list WalletSpec)
    (writes : list StreamWrite) (holderEvents : list message)
    : M ((list StreamWrite * list message) + HolderRejectedWallet) :=
  match specs with
  | [] => ret (inl (writes, holderEvents))
  | spec :: specs =>
      let walletID := ws_WalletId spec in
      let holderEvents' :=
        if bool_decide (walletID ∈ recorded) then holderEvents else holderEvents ++ [addedEvent holderID spec] in
      let* opened := Wallet.Opened walletID in
      match opened with
      | None =>
          let open := mkStreamWrite Wallet.AggregateType walletID 0
            [WalletOpened (Wallet.OpenedEvent walletID holderID (ws_Name spec) (ws_Allows spec))] in
          walletDelta holderID recorded specs (writes ++ [open]) holderEvents'
      | Some opened =>
          if bool_decide (wo_HolderId opened = holderID) then walletDelta holderID recorded specs writes holderEvents'
          else ret (inr (mkRejectedWallet holderID walletID
                           ("wallet already belongs to holder " +:+ quoted (wo_HolderId opened))))
      end
  end.

Definition walletWrites (holderID : string) (events : list Event) (specs : list WalletSpec)
    : M (list StreamWrite + HolderRejectedWallet) :=
  let* recorded := lift (recordedWallets events) in
  let* out := walletDelta holderID recorded specs [] [] in
  match out with
  | inr rejection => ret (inr rejection)
  | inl (writes, holderEvents) =>
      ret (inl (writes ++
        if bool_decide (holderEvents = []) then []
        else [mkStreamWrite aggregateType holderID (len events) holderEvents]))
  end.

(** A conflict is taken for convergence. *)
Definition appendConverging (writes : list StreamWrite) : M unit :=
  try (appendAtomic writes) (fun r =>
    match r with
    | Ok _ => ret tt
    | Err err => if Is err ErrConcurrencyConflict then ret tt else fail (InternalErrorWith err)
    end).

Definition appendAny (writes : list StreamWrite) : M unit :=
  if bool_decide (writes = []) then ret tt else appendConverging writes.

(** [pb.AddWalletResponse], a rejection on the right. *)
Definition AddWallet (id : string) (spec : WalletSpec) : M (message + HolderRejectedWallet) :=
  lift (Id.Validate "id" id) ;;;
  lift (Wallet.ValidateWallet (ws_WalletId spec) (ws_Allows spec)) ;;;
  let* events := holderStream id in
  match events with
  | [] => fail (NewError FailedPrecondition ("holder " +:+ quoted id +:+ " has not been established"))
  | _ =>
      let* out := walletWrites id events [spec] in
      match out with
      | inr rejection => ret (inr rejection)
      | inl writes =>
          appendAny writes ;;;
          ret (inl (addedEvent id spec))
      end
  end.

Fixpoint validateSpecs (seen : gset string) (specs : list WalletSpec) : result unit :=
  match specs with
  | [] => Ok tt
  | spec :: specs =>
      let? _ := Wallet.ValidateWallet (ws_WalletId spec) (ws_Allows spec) in
      if bool_decide (ws_WalletId spec ∈ seen) then
        Err (InvalidArgumentError "wallets" ("wallet_id " +:+ quoted (ws_WalletId spec) +:+ " appears more than once"))
      else validateSpecs ({[ ws_WalletId spec ]} ∪ seen) specs
  end.

(** The Holder's own write merged with what precedes it in its stream. *)
Definition provisionWrites (id : string) (events : list Event) (opening : list message)
    (walletWrites : list StreamWrite) : list StreamWrite :=
  let isHolder w := bool_decide (sw_AggregateType w = aggregateType) in
  let holderEvents := opening ++ (filter (λ w, isHolder w = true) walletWrites ≫= sw_Events) in
  filter (λ w, isHolder w = false) walletWrites ++
  if bool_decide (holderEvents = []) then []
  else [mkStreamWrite aggregateType id (len events) holderEvents].

(** [pb.ProvisionResponse]: the Wallets' ids, or the reason it was rejected. *)
Definition Provision (id : string) (memos : gmap string Memo) (wallets : list WalletSpec)
    : M (list string + string) :=
  lift (Id.Validate "id" id) ;;;
  if bool_decide (wallets = []) then fail (RequiredArgumentError "wallets")
  else
    lift (validateSpecs ∅ wallets) ;;;
    let* events := holderStream id in
    let* opening :=
      match events with
      | [] => ret [HolderEstablished id memos]
      | _ => lift (decodeEstablished events) ;;; ret []
      end in
    let* out := walletWrites id events wallets in
    match out with
    | inr rejection => ret (inr (rw_Reason rejection))
    | inl writes =>
        appendAny (provisionWrites id events opening writes) ;;;
        ret (inl (ws_WalletId <$> wallets))
    end.
End holder.
End Holder.

(** ** Legal appends *)

Section steps.
Context {C : Codec}.

Definition addedWallet (m : message) : option string :=
  match m with HolderAddedWallet added => Some (aw_WalletId added) | _ => None end.

(** A Holder is established once; after that each Wallet is recorded on it at
    most once. *)
Definition hstep (evs : list Event) (ms : list message) : Prop :=
  ∃ opening added recorded,
    ms = opening ++ added ∧
    (evs = [] → ∃ id memos, opening = [HolderEstablished id memos]) ∧ (evs ≠ [] → opening = []) ∧
    Holder.recordedWallets evs = Ok recorded ∧
    Forall (λ m, is_Some (addedWallet m)) added ∧ NoDup (addedWallet <$> added) ∧
    ∀ m wid, m ∈ added → addedWallet m = Some wid → wid ∉ recorded.
End steps.
