(* ===== verification/Token.v ===== *)
(** * Tokens ([go/internal/token])

    A Token is a ledger account with a stream: [TokenMinted] first, then the
    balances published for it. Minting creates the account before recording the
    event; a balance is read from the ledger after its stream was loaded and
    recorded at the loaded length, so the order of a stream is the order the
    balances were true in. *)

From S2P Require Import Prelude Proto EventStore Ledger Effects Validate Wallet.

Module Token.
Section token.
Context {C : Codec} {U : UuidPackage}.

Definition AggregateType : string := "token".

(** ** allows.go *)

Definition AllowsToAccountFlags (allows : Allows) : result AccountFlags :=
  match allows with
  | ALLOWS_ONRAMP_AND_OFFRAMP => Ok (mkFlags false false false)
  | ALLOWS_ONRAMP => Ok (mkFlags false true false)
  | ALLOWS_OFFRAMP | ALLOWS_NONE => Ok (mkFlags false false true)
  | ALLOWS_UNSPECIFIED => Err (plain "token: wallet allows is not set")
  end.

(** ** server.go *)

Record MintSpec : Type := mkMintSpec { TokenID : string; Capacity : option Money }.

(** [pb.TokenMintRejected] *)
Record TokenMintRejected : Type := mkMintRejected {
  mr_Id : string; mr_WalletId : string; mr_Reason : string
}.

Definition Minted (tokenID : string) : M (option TokenMintedMsg) :=
  let* events := mapErr InternalErrorWith (load AggregateType tokenID) in
  match events with
  | [] => ret None
  | event :: _ =>
      let* msg := lift (rmap_err InternalErrorWith (Decode event)) in
      match msg with
      | TokenMinted minted => ret (Some minted)
      | _ => fail (InternalError "token: stream does not start with TokenMinted")
      end
  end.

(** The account of each spec, all but the last linked to the next. *)
Fixpoint mintAccounts (flags : AccountFlags) (specs : list MintSpec) : list Account :=
  match specs with
  | [] => []
  | spec :: rest =>
      mkAccount (TokenID spec) (GetCurrency (Capacity spec))
        (mkFlags (negb (bool_decide (rest = [])))
           (CreditsMustNotExceedDebits flags) (DebitsMustNotExceedCredits flags))
      :: mintAccounts flags rest
  end.

(** The first account the ledger refused, if any. An answer longer than the
    request would index past [specs], which Go panics on. *)
Fixpoint mintRefusal (walletID : string) (specs : list MintSpec) (results : list AccountResult)
    : result (option TokenMintRejected) :=
  match results with
  | [] => Ok None
  | r :: results =>
      match ar_Result r with
      | AccountResultOK | AccountResultExists => mintRefusal walletID (tail specs) results
      | code =>
          match specs with
          | spec :: _ =>
              Ok (Some (mkMintRejected "" walletID
                ("tigerbeetle rejected token " +:+ quoted (TokenID spec) +:+ ": " +:+
                 AccountResultCode_String code)))
          | [] => Err (plain "panic: index out of range")
          end
      end
  end.

Definition mintedMessage (walletID : string) (spec : MintSpec) : message :=
  TokenMinted (mkTokenMinted (TokenID spec) walletID (Capacity spec)).

Definition tokenWrite (walletID : string) (spec : MintSpec) : StreamWrite :=
  mkStreamWrite AggregateType (TokenID spec) 0 [mintedMessage walletID spec].

Definition mintStreamWrites (walletID : string) (walletSeq : Z) (specs : list MintSpec)
    (transactionID : string) : list StreamWrite :=
  (tokenWrite walletID <$> specs) ++
  [mkStreamWrite Wallet.AggregateType walletID walletSeq
     ((λ spec, Wallet.TokenMintedForWalletEvent walletID (TokenID spec) (Capacity spec) transactionID)
        <$> specs)].

(** The writes, or the rejection. *)
Definition MintWrites (walletID : string) (walletEvents : list Event) (specs : list MintSpec)
    (transactionID : string) : M (list StreamWrite + TokenMintRejected) :=
  match walletEvents with
  | [] => ret (inr (mkMintRejected "" walletID ("wallet " +:+ quoted walletID +:+ " has not been opened")))
  | event :: _ =>
      let* msg := lift (rmap_err InternalErrorWith (Decode event)) in
      match msg with
      | WalletOpened opened =>
          let* flags := lift (rmap_err (λ e, InternalErrorWith (wrapf "wallet: " e))
                                (AllowsToAccountFlags (wo_Allows opened))) in
          let* results := mapErr (λ e, InternalErrorWith (wrapf "ledger: " e))
                            (createAccounts (mintAccounts flags specs)) in
          let* refused := lift (mintRefusal walletID specs results) in
          match refused with
          | Some rejection => ret (inr rejection)
          | None => ret (inl (mintStreamWrites walletID (len walletEvents) specs transactionID))
          end
      | _ => fail (InternalError "wallet: stream does not start with WalletOpened")
      end
  end.

(** [pb.MintRequest] and [pb.MintResponse] *)
Record MintRequest : Type := mkMintRequest {
  mq_Id : string; mq_WalletId : string; mq_Capacity : option Money
}.

Inductive MintResult : Type :=
| MintResponse_TokenMinted (e : TokenMintedMsg)
| MintResponse_TokenMintRejected (r : TokenMintRejected).

Record MintResponse : Type := mkMintResponse { mp_Id : string; mp_Result : MintResult }.

Definition mintedResponse (e : TokenMintedMsg) : MintResponse :=
  mkMintResponse (tm_Id e) (MintResponse_TokenMinted e).

Definition maxAttempts : nat := 5.

(** The attempts that are left. *)
Fixpoint mintAttempts (attempts : nat) (req : MintRequest) : M MintResponse :=
  match attempts with
  | O => fail (InternalError "token: mint could not converge after repeated concurrency conflicts")
  | S attempts =>
      let* walletEvents := mapErr InternalErrorWith (load Wallet.AggregateType (mq_WalletId req)) in
      let* out := MintWrites (mq_WalletId req) walletEvents
                    [mkMintSpec (mq_Id req) (mq_Capacity req)] "" in
      match out with
      | inr rejection =>
          ret (mkMintResponse (mq_Id req) (MintResponse_TokenMintRejected
                 (mkMintRejected (mq_Id req) (mr_WalletId rejection) (mr_Reason rejection))))
      | inl writes =>
          try (appendAtomic writes) (fun r =>
            match r with
            | Ok _ => ret (mintedResponse (mkTokenMinted (mq_Id req) (mq_WalletId req) (mq_Capacity req)))
            | Err err =>
                if Is err ErrConcurrencyConflict then
                  let* existing := Minted (mq_Id req) in
                  match existing with
                  | Some existing => ret (mintedResponse existing)
                  | None => mintAttempts attempts req
                  end
                else fail (InternalErrorWith err)
            end)
      end
  end.

Definition Mint (req : MintRequest) : M MintResponse :=
  lift (Id.Validate "id" (mq_Id req)) ;;;
  lift (Id.Validate "wallet_id" (mq_WalletId req)) ;;;
  lift (MoneyCheck.Validate "capacity" (mq_Capacity req)) ;;;
  let* existing := Minted (mq_Id req) in
  match existing with
  | Some existing => ret (mintedResponse existing)
  | None => mintAttempts maxAttempts req
  end.

(** ** balance.go *)

Record tokenStream : Type := mkTokenStream {
  ts_seq : Z;
  ts_walletID : string;
  ts_last : option BalanceRecorded
}.

(** One event of a Token's stream, folded in. *)
Definition foldToken (s : tokenStream) (e : Event) : result tokenStream :=
  let? msg := rmap_err InternalErrorWith (Decode e) in
  match msg with
  | TokenMinted m => Ok (mkTokenStream (ts_seq s) (tm_WalletId m) (ts_last s))
  | TokenBalanceRecorded m => Ok (mkTokenStream (ts_seq s) (ts_walletID s) (Some m))
  | _ => Ok s
  end.

Definition tokenStreamOf (events : list Event) : result tokenStream :=
  match events with
  | [] => Err (InternalError "token has not been minted")
  | _ =>
      let? s := rfold foldToken (mkTokenStream (len events) "" None) events in
      if bool_decide (ts_walletID s = "") then
        Err (InternalError "token: stream does not start with TokenMinted")
      else Ok s
  end.

Definition loadTokenStream (tokenID : string) : M tokenStream :=
  let* events := mapErr InternalErrorWith (load AggregateType tokenID) in
  lift (tokenStreamOf events).

Fixpoint distinctFrom (seen : gset string) (ids : list string) : list string :=
  match ids with
  | [] => []
  | id :: ids => if bool_decide (id ∈ seen) then distinctFrom seen ids
                 else id :: distinctFrom ({[id]} ∪ seen) ids
  end.

Definition distinct (ids : list string) : list string := distinctFrom ∅ ids.

Definition balanceRecorded (tokenID walletID : string) (balances : gmap string Balance)
    : result BalanceRecorded :=
  match balances !! tokenID with
  | None => Err (InternalError "token has no TigerBeetle account")
  | Some b =>
      let? posted := rmap_err (λ e, InternalErrorWith (wrapf "token: " e)) (PostedNet b) in
      Ok (mkBalanceRecorded tokenID walletID (b_Currency b) posted (DebitsPending b) (CreditsPending b))
  end.

Definition readBalances (ids : list string) : M (gmap string Balance) :=
  mapErr (λ e, InternalErrorWith (wrapf "ledger: Balances: " e)) (balances ids).

(** Each distinct Token's stream, then every balance, in that order. [streams]
    is indexed by the distinct ids, so it is kept beside them. *)
Definition observe (tokenIDs : list string) : M (list (string * tokenStream) * gmap string Balance) :=
  let ids := distinct tokenIDs in
  let* streams := mapM (λ id, let* s := loadTokenStream id in ret (id, s)) ids in
  let* bals := readBalances ids in
  ret (streams, bals).

(** The write for one observed Token: none when the last recorded balance is
    already this one. *)
Definition balanceWrite (bals : gmap string Balance) (x : string * tokenStream)
    : result (option StreamWrite) :=
  let? event := balanceRecorded (fst x) (ts_walletID (snd x)) bals in
  if bool_decide (ts_last (snd x) = Some event) then Ok None
  else Ok (Some (mkStreamWrite AggregateType (fst x) (ts_seq (snd x)) [TokenBalanceRecorded event])).

Fixpoint balanceWritesOf (bals : gmap string Balance) (xs : list (string * tokenStream))
    : result (list StreamWrite) :=
  match xs with
  | [] => Ok []
  | x :: xs =>
      let? w := balanceWrite bals x in
      let? ws := balanceWritesOf bals xs in
      Ok (option_list w ++ ws)
  end.

Definition BalanceWrites (tokenIDs : list string) : M (list StreamWrite) :=
  let* (streams, bals) := observe tokenIDs in
  lift (balanceWritesOf bals streams).

(** The loop of [recordBalance] is unbounded in the source: [fuel] is the number
    of attempts the model allows it. *)
Fixpoint recordBalance (fuel attempt : nat) (tokenID : string) (stream : tokenStream)
    (bals : gmap string Balance) : M unit :=
  match fuel with
  | O => outOfFuel
  | S fuel =>
      let* event := lift (balanceRecorded tokenID (ts_walletID stream) bals) in
      if bool_decide (ts_last stream = Some event) then ret tt
      else
        try (append AggregateType tokenID (ts_seq stream) [TokenBalanceRecorded event]) (fun r =>
          match r with
          | Ok _ => ret tt
          | Err conflict =>
              if negb (Is conflict ErrConcurrencyConflict) then fail (InternalErrorWith conflict)
              else
                contentionWait attempt ;;;
                let* next := loadTokenStream tokenID in
                if ts_seq next =? ts_seq stream then
                  fail (InternalErrorWith (wrapf "token: recording balance: " conflict))
                else
                  let* bals := readBalances [tokenID] in
                  recordBalance fuel (S attempt) tokenID next bals
          end)
  end.

Definition RecordBalances (fuel : nat) (tokenIDs : list string) : M unit :=
  let* (streams, bals) := observe tokenIDs in
  mapM_ (λ x, recordBalance fuel 0 (fst x) (snd x) bals) streams.

End token.
End Token.
