(* ===== verification/TransferState.v ===== *)
(** * A Transfer's stream ([go/internal/transfer/saga.go], its folds)

    What a Transfer's (or a Reversal's) own stream says: the state it folds to,
    which saga outcomes may follow from each state, the claim marker that is
    live on it, the legs it prepared, and the ledger batches those legs become.
    Pure functions of loaded events; the saga steps that use them are in
    [TransferSaga]. *)

From S2P Require Import Prelude Proto EventStore Ledger Effects Validate.

Definition TransferAggregateType : string := "transfer".

Definition stagingTimeoutSeconds : Z := 10 * 24 * 60 * 60.

Inductive transferState : Type :=
| stateUnknown | stateAccepted | statePrepared | stateStaged | statePending
| stateCommitted | stateFailed | stateCancelled.

#[global] Instance transferState_eq_dec : EqDecision transferState.
Proof. solve_decision. Defined.

Definition transferState_String (s : transferState) : string :=
  match s with
  | stateAccepted => "accepted"
  | statePrepared => "prepared"
  | stateStaged => "staged"
  | statePending => "pending"
  | stateCommitted => "committed"
  | stateFailed => "failed"
  | stateCancelled => "cancelled"
  | stateUnknown => "unknown"
  end.

(** The literal of the map, in the source's order. *)
Definition stateTable : list (string * transferState) :=
  [ (full_name KTransferRequestAccepted, stateAccepted);
    (full_name KReversalRequestAccepted, stateAccepted);
    (full_name KTransferPrepared, statePrepared);
    (full_name KTransferStaged, stateStaged);
    (full_name KTransferPending, statePending);
    (full_name KTransferCommitted, stateCommitted);
    (full_name KTransferFailed, stateFailed);
    (full_name KTransferCancelled, stateCancelled);
    (full_name KAcceptedTransferCancelled, stateCancelled);
    (full_name KPreparedTransferCancelled, stateCancelled) ].

Definition stateByEventType : gmap string transferState := list_to_map stateTable.

Definition transitions (s : transferState) : list string :=
  match s with
  | stateAccepted => full_name <$> [KAcceptedTransferCancelled; KTransferFailed]
  | statePrepared => full_name <$> [KTransferStaged; KTransferCommitted; KTransferFailed; KPreparedTransferCancelled]
  | stateStaged => full_name <$> [KTransferPending; KTransferCancelled]
  | statePending => full_name <$> [KTransferCommitted; KTransferFailed; KTransferCancelled]
  | _ => []
  end.

Definition terminal (s : transferState) : bool :=
  match s with stateCommitted | stateFailed | stateCancelled => true | _ => false end.

(** The rejections, then the terminal types of the map ranged in [order], sorted. *)
Definition TerminalEventTypes (order : list (string * transferState)) : list string :=
  merge_sort String.le
    ((full_name <$> [KTransferRequestRejected; KReversalRequestRejected]) ++
     ((filter (λ x, terminal (snd x) = true) order).*1)).

Section stream.
Context {C : Codec}.

Definition currentState (events : list Event) : transferState :=
  foldl (λ state e, default state (stateByEventType !! EType e)) stateUnknown events.

Inductive OutcomeKind : Type :=
| OutcomeNotFound | OutcomeRejected | OutcomeInFlight | OutcomeStaged
| OutcomePending | OutcomeCommitted | OutcomeFailed | OutcomeCancelled.

#[global] Instance OutcomeKind_eq_dec : EqDecision OutcomeKind.
Proof. solve_decision. Defined.

Definition OutcomeKind_String (o : OutcomeKind) : string :=
  match o with
  | OutcomeNotFound => "not_found"
  | OutcomeRejected => "rejected"
  | OutcomeInFlight => "in_flight"
  | OutcomeStaged => "staged"
  | OutcomePending => "pending"
  | OutcomeCommitted => "committed"
  | OutcomeFailed => "failed"
  | OutcomeCancelled => "cancelled"
  end.

(** Only asked of a non-empty stream. *)
Definition rejectedRequest (events : list Event) : bool :=
  match events with
  | e :: _ => bool_decide (EType e = full_name KTransferRequestRejected) ||
              bool_decide (EType e = full_name KReversalRequestRejected)
  | [] => false
  end.

Definition outcomeOf (events : list Event) : OutcomeKind :=
  match events with
  | [] => OutcomeNotFound
  | _ =>
      if rejectedRequest events then OutcomeRejected
      else match currentState events with
           | stateAccepted | statePrepared => OutcomeInFlight
           | stateStaged => OutcomeStaged
           | statePending => OutcomePending
           | stateCommitted => OutcomeCommitted
           | stateFailed => OutcomeFailed
           | stateCancelled => OutcomeCancelled
           | stateUnknown => OutcomeNotFound
           end
  end.

Definition Outcome (transferID : string) : M OutcomeKind :=
  let* events := mapErr InternalErrorWith (load TransferAggregateType transferID) in
  ret (outcomeOf events).

(** Only asked of a non-empty stream, which Go indexes. *)
Definition stageRequested (events : list Event) : result bool :=
  match events with
  | [] => Err (plain "panic: index out of range")
  | e :: _ =>
      let? msg := rmap_err InternalErrorWith (Decode e) in
      match msg with
      | TransferRequestAccepted m => Ok (ta_Stage m)
      | ReversalRequestAccepted m => Ok (ra_Stage m)
      | _ => Err (plain "transfer: stream does not start with an Accepted event")
      end
  end.

Fixpoint preparedLegs (events : list Event) : result (list TransferLeg) :=
  match events with
  | [] => Err (plain "transfer: no TransferPrepared event found")
  | e :: rest =>
      if bool_decide (EType e = full_name KTransferPrepared) then
        let? msg := rmap_err InternalErrorWith (Decode e) in
        match msg with
        | TransferPrepared _ legs => Ok legs
        | _ => Err (InternalError "transfer: event did not decode as TransferPrepared")
        end
      else preparedLegs rest
  end.

(** ** Legs *)

Definition legUnits (leg : TransferLeg) : Z := GetMinorUnits (LegAmount leg).
Definition legCurrency (leg : TransferLeg) : string := GetCurrency (LegAmount leg).

Record destState : Type := mkDestState {
  ds_order : list string;
  ds_sums : gmap string Z;
  ds_currency : string
}.

(** One leg folded into the sums; [uint64] addition wraps. *)
Definition addLeg (d : destState) (leg : TransferLeg) : destState :=
  let destID := DestTokenId leg in
  mkDestState
    (if ds_sums d !! destID then ds_order d else ds_order d ++ [destID])
    (<[destID := u64 (default 0 (ds_sums d !! destID) + legUnits leg)]> (ds_sums d))
    (legCurrency leg).

Definition buildDestinations (legs : list TransferLeg) : list TransferDestination :=
  let d := foldl addLeg (mkDestState [] ∅ "") legs in
  (λ destID, mkDestination destID (Some (mkMoney (default 0 (ds_sums d !! destID)) (ds_currency d))))
    <$> ds_order d.

Definition legTransfers (legs : list TransferLeg) (build : TransferLeg → Transfer) : list Transfer :=
  build <$> legs.

Definition reservations (legs : list TransferLeg) : list Transfer :=
  legTransfers legs (λ leg,
    mkTransfer (LedgerTransferId leg) (SourceTokenId leg) (DestTokenId leg)
      (legUnits leg) (legCurrency leg) false TransferKindPending "" stagingTimeoutSeconds).

Definition regulars (legs : list TransferLeg) : list Transfer :=
  legTransfers legs (λ leg,
    mkTransfer (LedgerTransferId leg) (SourceTokenId leg) (DestTokenId leg)
      (legUnits leg) (legCurrency leg) false TransferKindRegular "" 0).

Definition settlements `{Sha256} `{UuidPackage} (legs : list TransferLeg) (kind : TransferKind) (suffix : string)
    : list Transfer :=
  legTransfers legs (λ leg,
    mkTransfer (Detid.New (LedgerTransferId leg +:+ suffix)) (SourceTokenId leg) (DestTokenId leg)
      (legUnits leg) (legCurrency leg) false kind (LedgerTransferId leg) 0).

Definition setLinked (b : bool) (t : Transfer) : Transfer :=
  mkTransfer (t_ID t) (DebitAccountID t) (CreditAccountID t) (t_MinorUnits t) (t_Currency t)
    b (Kind t) (PendingID t) (Timeout t).

(** Every transfer of a chain but the last linked. *)
Fixpoint linkChain (chain : list Transfer) : list Transfer :=
  match chain with
  | [] => []
  | t :: rest => setLinked (negb (bool_decide (length rest = 0%nat))) t :: linkChain rest
  end.

(** Consecutive slices of [n], each linked; [fuel] bounds the slices and the
    batch's own length is always enough. *)
Fixpoint cutChains (fuel n : nat) (batch : list Transfer) : list (list Transfer) :=
  match fuel, batch with
  | S fuel, _ :: _ => linkChain (take n batch) :: cutChains fuel n (drop n batch)
  | _, _ => []
  end.

Definition chains (batch : list Transfer) : list (list Transfer) :=
  cutChains (length batch) (Z.to_nat BatchMax) batch.

Definition legTokens (legs : list TransferLeg) : list string :=
  legs ≫= λ leg, [SourceTokenId leg; DestTokenId leg].

(** ** Outcomes and claims *)

(** [for i := len(events) - 1; i >= 0; i--]: the scans below read a stream
    from its end. *)
Fixpoint latestOutcomeRev (rev : list Event) : option Event :=
  match rev with
  | [] => None
  | e :: rest => if stateByEventType !! EType e then Some e else latestOutcomeRev rest
  end.

Definition latestOutcome (events : list Event) : option Event := latestOutcomeRev (reverse events).

Definition claimPollInterval : Z := 20 * 1000000.
(** Nanoseconds, as a [time.Duration] is. *)
Definition claimStaleAfter : Z := 5 * 1000000000.

Definition isClaimMarkerType (eventType : string) : bool :=
  bool_decide (eventType = full_name KStagingTransferStarted) ||
  bool_decide (eventType = full_name KTransferCommittingStarted) ||
  bool_decide (eventType = full_name KCancellingStagedTransferStarted).

Fixpoint liveMarkerRev (rev : list Event) : option Event :=
  match rev with
  | [] => None
  | e :: rest =>
      if isClaimMarkerType (EType e) then Some e
      else if stateByEventType !! EType e then None
      else liveMarkerRev rest
  end.

Definition liveMarker (events : list Event) : option Event := liveMarkerRev (reverse events).
End stream.
