(* ===== verification/Alone.v ===== *)
(** * Programs left alone

    [safe] says what a program keeps to under interference; here is what it
    achieves without. [alone p Q w] holds when every execution of [p] from [w], in
    which nobody else writes, the event store answers and the clock does not run
    backwards, ends with [Q]. The ledger is any client and may still refuse or
    fail. A program is a finite tree, so every such execution ends: with [foreign]
    for the errors it may end with, a loop that never runs out of fuel is one that
    terminates. *)

From S2P Require Import Prelude Proto EventStore Ledger Effects TransferState.

(** ** Errors that are not the sagas' own *)

(** The sentinels a step of a saga raises for the step around it, and the model's. *)
Definition ownSentinels : list sentinel := [errBatchRejected; errClaimSuperseded; errPlanOvertaken; OutOfFuel].

Definition foreign (e : error) : Prop := Forall (λ s, s ∉ ownSentinels) (e_is e).

Definition foreignR {A} (r : result A) : Prop := match r with Ok _ => True | Err e => foreign e end.

Lemma foreign_is e s : foreign e → s ∈ ownSentinels → Is e s = false.
Proof. intros Hf Hs. apply bool_decide_eq_false. intros Hin. unfold foreign in Hf. rewrite Forall_forall in Hf. by apply (Hf s). Qed.

Lemma foreign_none e : e_is e = [] → foreign e.
Proof. unfold foreign. intros ->. constructor. Qed.

Lemma foreign_same e e' : e_is e' = e_is e → foreign e → foreign e'.
Proof. unfold foreign. by intros ->. Qed.

Lemma foreign_wrapf msg e : foreign e → foreign (wrapf msg e).
Proof. by apply foreign_same. Qed.

Lemma foreign_internal e : foreign e → foreign (InternalErrorWith e).
Proof. by apply foreign_same. Qed.

Lemma foreign_plain msg : foreign (plain msg).
Proof. by apply foreign_none. Qed.

Lemma foreign_new c msg : foreign (NewError c msg).
Proof. by apply foreign_none. Qed.

Lemma foreign_internalError msg : foreign (InternalError msg).
Proof. by apply foreign_none. Qed.

Lemma foreign_conflict : foreign conflict.
Proof. decided. Qed.

Create HintDb alone.
#[export] Hint Resolve foreign_wrapf foreign_internal foreign_plain foreign_new foreign_internalError foreign_conflict : alone.

Lemma foreignR_ok {A} (a : A) : foreignR (Ok a).
Proof. done. Qed.

Lemma foreignR_err {A} e : foreign e → foreignR (Err e : result A).
Proof. done. Qed.

Lemma foreignR_bind {A B} (r : result A) (f : A → result B) :
  foreignR r → (∀ a, foreignR (f a)) → foreignR (rbind r f).
Proof. destruct r; simpl; auto. Qed.

Lemma foreignR_map_err {A} f (r : result A) : (∀ e, foreign e → foreign (f e)) → foreignR r → foreignR (rmap_err f r).
Proof. destruct r; simpl; auto. Qed.

Lemma foreignR_fold {A B} (f : A → B → result A) acc xs :
  (∀ acc x, foreignR (f acc x)) → foreignR (rfold f acc xs).
Proof. intros Hf. revert acc. induction xs as [|x xs IH]; intros acc; simpl; [done|]. by apply foreignR_bind. Qed.

#[export] Hint Resolve foreignR_ok foreignR_err : alone.

Ltac foreigns :=
  repeat first
    [ progress intros
    | match goal with
      | |- foreignR (rbind _ _) => apply foreignR_bind
      | |- foreignR (rmap_err _ _) => apply foreignR_map_err
      | |- foreignR (rfold _ _ _) => apply foreignR_fold
      | |- foreignR (match ?x with _ => _ end) => destruct x
      | |- foreignR (let _ := _ in _) => cbv zeta
      end
    | solve [eauto 6 with alone] ].

Section alone.
Context {C : Codec} {L : LedgerClient}.

Lemma foreignR_Decode e : foreignR (Decode e).
Proof. unfold Decode. foreigns. Qed.

(** ** One call *)

Definition undisturbed (w : World) (o : op) : resp o → World → Prop :=
  match o with
  | OLoad ty id => λ r w', r = Ok (stream w ty id) ∧ w' = w
  | OAppend ws => λ r w', ∃ s', AppendAtomic None (w_now w) ws (w_store w) = (s', r) ∧ w' = set_store s' w
  | ONow => λ r w', r = Ok (w_now w) ∧ w' = w
  | OCreateAccounts accs => λ r w', ∃ l', lCreateAccounts (w_ledger w) accs r l' ∧ w' = set_ledger l' w
  | OCreateTransfers ts => λ r w', ∃ l', lCreateTransfers (w_ledger w) ts r l' ∧ w' = set_ledger l' w
  | OBalances ids => λ r w', lBalances (w_ledger w) ids r ∧ w' = w
  | OWait _ => λ r w', r = Ok tt ∧ w_store w' = w_store w ∧ w_ledger w' = w_ledger w ∧ w_now w ≤ w_now w'
  | OPoll => λ r w', r = Ok tt ∧ w_store w' = w_store w ∧ w_ledger w' = w_ledger w ∧
      w_now w + claimPollInterval ≤ w_now w'
  | OPause d => λ r w', r = Ok tt ∧ w_store w' = w_store w ∧ w_ledger w' = w_ledger w ∧ w_now w + Z.max 0 d ≤ w_now w'
  | OUuid => λ _ w', w_store w' = w_store w ∧ w_ledger w' = w_ledger w ∧ w_now w ≤ w_now w'
  | OTime => λ _ w', w' = w
  | ORange keys => λ r w', r ≡ₚ keys ∧ w' = w
  end.

(** It is one of the executions of the system. *)
Lemma undisturbed_exec w o r w' : undisturbed w o r w' → exec w o r w'.
Proof.
  destruct o; simpl; unfold faulty; naive_solver.
Qed.

Fixpoint alone {A} (p : prog A) (Q : A → World → Prop) (w : World) : Prop :=
  match p with
  | Ret a => Q a w
  | Op o k => ∀ r w', undisturbed w o r w' → alone (k r) Q w'
  end.

Definition aloneM {A} (m : M A) (Q : A → World → Prop) (w : World) : Prop :=
  alone m (λ r w', match r with Ok a => Q a w' | Err e => foreign e end) w.

(** ** Rules *)

Lemma alone_mono {A} (p : prog A) (Q Q' : A → World → Prop) w :
  alone p Q w → (∀ a w', Q a w' → Q' a w') → alone p Q' w.
Proof. intros Hp HQ. revert w Hp. induction p as [a|o k IH]; simpl; intros w Hp; [by apply HQ|]. intros. by apply IH, Hp. Qed.

Lemma alone_pbind {A B} (p : prog A) (f : A → prog B) Q w :
  alone p (λ a w', alone (f a) Q w') w → alone (pbind p f) Q w.
Proof. revert w. induction p as [a|o k IH]; simpl; intros w Hp; [done|]. intros. by apply IH, Hp. Qed.

Lemma aloneM_mono {A} (m : M A) (Q Q' : A → World → Prop) w :
  aloneM m Q w → (∀ a w', Q a w' → Q' a w') → aloneM m Q' w.
Proof. intros Hm HQ. eapply alone_mono; [exact Hm|]. intros [a|e] w'; [apply HQ|done]. Qed.

Lemma aloneM_ret {A} (a : A) (Q : A → World → Prop) w : Q a w → aloneM (ret a) Q w.
Proof. done. Qed.

Lemma aloneM_fail {A} e (Q : A → World → Prop) w : foreign e → aloneM (fail e) Q w.
Proof. done. Qed.

Lemma aloneM_lift {A} (r : result A) (Q : A → World → Prop) w :
  foreignR r → (∀ a, r = Ok a → Q a w) → aloneM (lift r) Q w.
Proof. intros Hr HQ. destruct r; [by apply HQ|done]. Qed.

Lemma aloneM_try {A B} (m : M A) (f : result A → M B) Q w :
  alone m (λ r w', aloneM (f r) Q w') w → aloneM (try m f) Q w.
Proof. apply alone_pbind. Qed.

(** A caller that looks at the error finds only those of its callee. *)
Lemma aloneM_try_ok {A B} (m : M A) (f : result A → M B) (P : A → World → Prop) Q w :
  aloneM m P w → (∀ a w', P a w' → aloneM (f (Ok a)) Q w') → (∀ e w', foreign e → aloneM (f (Err e)) Q w') →
  aloneM (try m f) Q w.
Proof. intros Hm Hok Herr. apply aloneM_try. eapply alone_mono; [exact Hm|]. intros [a|e] w'; [apply Hok|apply Herr]. Qed.

Lemma aloneM_bind {A B} (m : M A) (f : A → M B) (P : A → World → Prop) Q w :
  aloneM m P w → (∀ a w', P a w' → aloneM (f a) Q w') → aloneM (bind m f) Q w.
Proof. intros Hm Hf. apply alone_pbind. eapply alone_mono; [exact Hm|]. intros [a|e] w' H; [by apply Hf|done]. Qed.

Lemma aloneM_mapErr {A} f (m : M A) Q w :
  (∀ e, foreign e → foreign (f e)) → aloneM m Q w → aloneM (mapErr f m) Q w.
Proof. intros Hf Hm. apply alone_pbind. eapply alone_mono; [exact Hm|]. intros [a|e] w'; simpl; auto. Qed.

Lemma alone_call {A} (o : op) (k : resp o → prog A) Q w :
  (∀ r w', undisturbed w o r w' → alone (k r) Q w') → alone (Op o k) Q w.
Proof. done. Qed.

Lemma aloneM_load ty id (Q : list Event → World → Prop) w : Q (stream w ty id) w → aloneM (load ty id) Q w.
Proof. intros HQ r w' [-> ->]. done. Qed.

Lemma aloneM_storeNow (Q : Z → World → Prop) w : Q (w_now w) w → aloneM storeNow Q w.
Proof. intros HQ r w' [-> ->]. done. Qed.

Lemma aloneM_contentionWait n (Q : unit → World → Prop) w :
  (∀ w', w_store w' = w_store w → w_now w ≤ w_now w' → Q tt w') → aloneM (contentionWait n) Q w.
Proof. intros HQ r w' (-> & Hs & _ & Hn). by apply HQ. Qed.

Lemma aloneM_poll (Q : unit → World → Prop) w :
  (∀ w', w_store w' = w_store w → w_now w + claimPollInterval ≤ w_now w' → Q tt w') → aloneM poll Q w.
Proof. intros HQ r w' (-> & Hs & _ & Hn). by apply HQ. Qed.

Lemma aloneM_newUuid (Q : string → World → Prop) w :
  (∀ u w', w_store w' = w_store w → w_now w ≤ w_now w' → Q u w') → aloneM newUuid Q w.
Proof. intros HQ r w' (Hs & _ & Hn). by apply HQ. Qed.

Lemma alone_appendAtomic ws (Q : result unit → World → Prop) w :
  (∀ s' r, AppendAtomic None (w_now w) ws (w_store w) = (s', r) → Q r (set_store s' w)) → alone (appendAtomic ws) Q w.
Proof. intros HQ r w' (s' & Ha & ->). by apply HQ. Qed.

(** ** Appends that nobody races *)

Lemma validateFrom_err seen ws e : validateFrom seen ws = Err e → foreign e ∧ Is e ErrConcurrencyConflict = false.
Proof.
  revert seen. induction ws as [|w ws IH]; intros seen; simpl; [done|].
  repeat case_match; try (by intros [= <-]; split; decided). apply IH.
Qed.

Lemma stageEvents_err w now i ms e : stageEvents w now i ms = Err e → foreign e ∧ Is e ErrConcurrencyConflict = false.
Proof.
  revert i. induction ms as [|m ms IH]; intros i; simpl; [done|]. destruct (marshal m); [|by intros [= <-]; split; decided].
  destruct (stageEvents w now (i + 1) ms) eqn:Hs; [done|]. intros [= <-]. by eapply IH.
Qed.

(** An append fails because a stream is elsewhere, or for a reason that is not a
    lost race. *)
Lemma AppendAtomic_refused now ws s s' e :
  AppendAtomic None now ws s = (s', Err e) →
  foreign e ∧ (Is e ErrConcurrencyConflict = true → ∃ sw, sw ∈ ws ∧ len (stream_at s (sw_key sw)) ≠ ExpectedSeq sw).
Proof.
  unfold AppendAtomic. destruct (validateWrites (liveWrites ws)) as [[]|e'] eqn:Hv.
  2:{ intros [= _ <-]. destruct (validateFrom_err _ _ _ Hv) as [? Hc]. split; [done|]. by rewrite Hc. }
  assert (∀ x, x ∈ liveWrites ws → x ∈ ws) as Hlive by (intros x Hx; by apply list_elem_of_filter in Hx as [_ ?]).
  revert Hlive. clear Hv. destruct (liveWrites ws) as [|w0 ls]; [done|]. intros Hlive.
  destruct (stageWrites s now (w0 :: ls)) as [st|e'] eqn:Hst; [done|]. intros [= _ <-].
  revert Hst Hlive. generalize (w0 :: ls). clear w0 ls. intros ls. induction ls as [|w ls IH]; simpl; [done|].
  case_bool_decide as Hl.
  - destruct (stageEvents w now 0 (sw_Events w)) as [b|e2] eqn:Hb; simpl.
    + destruct (stageWrites s now ls) as [st|e3]; [done|]. simpl. intros [= ->] Hlive. apply IH; [done|].
      intros x Hx. apply Hlive. by right.
    + intros [= <-] _. destruct (stageEvents_err _ _ _ _ _ Hb) as [? Hc]. split; [done|]. by rewrite Hc.
  - intros [= <-] Hlive. split; [apply foreign_conflict|]. intros _. exists w. split; [apply Hlive; left|done].
Qed.

(** Every write but those that open a stream is at the position its stream has. *)
Definition current (w : World) (ws : list StreamWrite) : Prop :=
  Forall (λ sw, ExpectedSeq sw = 0 ∨ len (stream w (sw_AggregateType sw) (sw_AggregateID sw)) = ExpectedSeq sw) ws.

Lemma current_app w ws ws' : current w ws → current w ws' → current w (ws ++ ws').
Proof. intros. by apply Forall_app. Qed.

Lemma current_store w w' ws : w_store w' = w_store w → current w ws → current w' ws.
Proof. unfold current, stream. by intros ->. Qed.

(** A single write at the loaded position lands or fails for another reason. *)
Lemma aloneM_append_at ty id ms (Q : result unit → World → Prop) w :
  ms ≠ [] →
  (∀ w' batch, staged_batch (mkStreamWrite ty id (len (stream w ty id)) ms) (w_now w) 0 ms batch →
     w_now w' = w_now w → stream w' ty id = stream w ty id ++ batch → Q (Ok tt) w') →
  (∀ e, foreign e → Is e ErrConcurrencyConflict = false → Q (Err e) w) →
  alone (append ty id (len (stream w ty id)) ms) Q w.
Proof.
  intros Hms Hok Herr. apply alone_appendAtomic. intros s' [[]|e] Ha.
  - destruct (Append_ok None _ _ _ _ _ _ _ Ha Hms) as (_ & batch & Hb & Hs). by eapply Hok.
  - rewrite (AppendAtomic_err _ _ _ _ _ _ Ha). destruct (AppendAtomic_refused _ _ _ _ _ Ha) as [Hf Hc].
    replace (set_store (w_store w) w) with w by by destruct w. apply Herr; [done|].
    destruct (Is e ErrConcurrencyConflict) eqn:Hi; [|done].
    destruct (Hc eq_refl) as (sw & ->%list_elem_of_singleton & Hne). done.
Qed.

(** ** Programs that only read the store *)

Definition reads {A} (m : M A) : Prop :=
  ∀ w, aloneM m (λ _ w', w_store w' = w_store w ∧ w_now w ≤ w_now w') w.

Lemma reads_bind {A B} (m : M A) (f : A → M B) : reads m → (∀ a, reads (f a)) → reads (bind m f).
Proof.
  intros Hm Hf w. eapply aloneM_bind; [apply Hm|]. intros a w' [Hs Hn]. eapply aloneM_mono; [apply Hf|].
  intros b w2 [Hs2 Hn2]. split; [congruence|lia].
Qed.

Lemma reads_mapErr {A} f (m : M A) : (∀ e, foreign e → foreign (f e)) → reads m → reads (mapErr f m).
Proof. intros Hf Hm w. apply aloneM_mapErr; [done|apply Hm]. Qed.

Lemma reads_ret {A} (a : A) : reads (ret a).
Proof. intros w. by apply aloneM_ret. Qed.

Lemma reads_fail {A} e : foreign e → reads (fail e : M A).
Proof. intros He w. by apply aloneM_fail. Qed.

Lemma reads_lift {A} (r : result A) : foreignR r → reads (lift r).
Proof. intros Hr w. by apply aloneM_lift. Qed.

Lemma reads_load ty id : reads (load ty id).
Proof. intros w. by apply aloneM_load. Qed.

Lemma reads_newUuid : reads newUuid.
Proof. intros w. by apply aloneM_newUuid. Qed.

Lemma reads_mapM {A B} (f : A → M B) xs : (∀ x, reads (f x)) → reads (mapM f xs).
Proof.
  intros Hf. induction xs as [|x xs IH]; simpl; [apply reads_ret|].
  apply reads_bind; [apply Hf|]. intros y. apply reads_bind; [exact IH|]. intros. apply reads_ret.
Qed.

Lemma aloneM_bind_reads {A B} (m : M A) (f : A → M B) Q w :
  reads m → (∀ a w', w_store w' = w_store w → w_now w ≤ w_now w' → aloneM (f a) Q w') → aloneM (bind m f) Q w.
Proof. intros Hm Hf. eapply aloneM_bind; [apply Hm|]. intros a w' [Hs Hn]. by apply Hf. Qed.

Lemma aloneM_bind_lift {A B} (r : result A) (f : A → M B) Q w :
  foreignR r → (∀ a, r = Ok a → aloneM (f a) Q w) → aloneM (bind (lift r) f) Q w.
Proof. intros Hr Hf. destruct r; [by apply Hf|done]. Qed.

Lemma aloneM_bind_load {B} ty id (f : list Event → M B) Q w :
  aloneM (f (stream w ty id)) Q w → aloneM (bind (mapErr InternalErrorWith (load ty id)) f) Q w.
Proof. intros Hf r w' [-> ->]. exact Hf. Qed.

(** What the ledger client may fail with. *)
Definition ledgerErrors : Prop :=
  (∀ l accs e l', lCreateAccounts l accs (Err e) l' → foreign e) ∧
  (∀ l ts e l', lCreateTransfers l ts (Err e) l' → foreign e) ∧
  (∀ l ids e, lBalances l ids (Err e) → foreign e).

Context (HL : ledgerErrors).

Lemma reads_createAccounts accs : reads (createAccounts accs).
Proof. intros w r w' (l' & Hl & ->). destruct r as [a|e]; [done|]. simpl. by eapply (proj1 HL). Qed.

Lemma reads_createTransfers ts : reads (createTransfers ts).
Proof. intros w r w' (l' & Hl & ->). destruct r as [a|e]; [done|]. simpl. by eapply (proj1 (proj2 HL)). Qed.

Lemma reads_balances ids : reads (balances ids).
Proof. intros w r w' (Hl & ->). destruct r as [a|e]; [done|]. simpl. by eapply (proj2 (proj2 HL)). Qed.
End alone.

(** The deterministic execution is one of those. *)
Lemma run_op_undisturbed `{Codec} w o : undisturbed w o (snd (run_op w o)) (fst (run_op w o)).
Proof.
  destruct o; simpl; try (split_and!; (done || lia)); unfold claimPollInterval; try done; try lia.
  - destruct (AppendAtomic _ _ _ _) as [s' r] eqn:Ha. simpl. eauto.
  - destruct (CreateAccounts _ _) as [l' r] eqn:Ha. simpl. eauto.
  - destruct (CreateTransfers _ _) as [l' r] eqn:Ha. simpl. eauto.
Qed.

Lemma alone_run `{Codec} {A} (p : prog A) Q w : alone p Q w → Q (snd (run w p)) (fst (run w p)).
Proof.
  revert w. induction p as [a|o k IH]; intros w Hp; simpl; [done|].
  pose proof (run_op_undisturbed w o) as Hu. destruct (run_op w o) as [w' r]. by apply IH, Hp.
Qed.

(** The ledgers the services run on. *)
Lemma checkBatchSize_foreign n : foreignR (checkBatchSize n).
Proof. unfold checkBatchSize. case_match; [|done]. decided. Qed.

Lemma linkedRuns_foreign {A} (isLinked : A → bool) xs : foreignR (linkedRuns isLinked xs).
Proof. unfold linkedRuns. destruct (last xs); [|done]. case_match; [|done]. decided. Qed.

Lemma FakeLedger_errors : ledgerErrors (L := FakeLedger).
Proof.
  split_and!; simpl; [| |done]; intros l xs e l'; [unfold CreateAccounts|unfold CreateTransfers];
    pose proof (checkBatchSize_foreign (len xs)) as Hc;
    (destruct (checkBatchSize (len xs)); [|by intros [= _ <-]]).
  - pose proof (linkedRuns_foreign (fl_Linked ∘ ac_Flags) xs) as Hr.
    destruct (linkedRuns _ xs); [by destruct (eachRun _ _ _)|by intros [= _ <-]].
  - pose proof (linkedRuns_foreign Linked xs) as Hr.
    destruct (linkedRuns _ xs); [by destruct (eachRun _ _ _)|by intros [= _ <-]].
Qed.
