(* ===== verification/TransferManifest.v ===== *)
(** * What a Transfer moves ([go/internal/transfer/manifest.go], [owner.go])

    Source selection (oldest Token first until the amount is covered), the
    Tokens a Transfer mints, the authorisation of a minted source, and a
    reversal's legs read back off the Transfer it undoes. *)

From S2P Require Import Prelude Proto EventStore Ledger Effects Validate Wallet Token TransferState.

Record Leg : Type := mkLeg {
  leg_SourceTokenID : string;
  leg_DestTokenID : string;
  leg_Amount : option Money
}.

Section manifest.
Context {C : Codec} {U : UuidPackage} {S : Sha256}.

(** The loop of [selectSourceTokens]: the legs picked, and what is still
    uncovered when the Tokens run out. *)
Fixpoint pickTokens (balances : gmap string Balance) (currency : string) (remaining : Z)
    (tokenIDs : list string) : result (list Leg * Z) :=
  match tokenIDs with
  | [] => Ok ([], remaining)
  | tokenID :: rest =>
      if remaining =? 0 then Ok ([], remaining)
      else
        match balances !! tokenID with
        | None => pickTokens balances currency remaining rest
        | Some b =>
            let? balance := rmap_err (λ e, InternalErrorWith (wrapf "ledger: token: " e)) (PostedNet b) in
            if balance <=? 0 then pickTokens balances currency remaining rest
            else
              let take := u64 balance in
              let take := if remaining <? take then remaining else take in
              let? (legs, short) := pickTokens balances currency (remaining - take) rest in
              Ok (mkLeg tokenID "" (Some (mkMoney take currency)) :: legs, short)
        end
  end.

(** A rejection is its reason: the id is the caller's to fill in. *)
Definition insufficient (walletID currency : string) (remaining : Z) : string :=
  "wallet " +:+ quoted walletID +:+ " has insufficient Token capacity: " +:+
  decimal remaining +:+ " " +:+ currency +:+ " short".

Definition selectSourceTokens (walletID : string) (amount : option Money)
    (callingTransactionID : string) (isOpen : Wallet.TransactionOpenChecker) : M (list Leg + string) :=
  let* tokenIDs := Wallet.TokensOfVisibleTo walletID callingTransactionID isOpen in
  let* bals := mapErr (λ e, InternalErrorWith (wrapf "ledger: Balances: " e)) (balances tokenIDs) in
  let* (legs, remaining) := lift (pickTokens bals (GetCurrency amount) (GetMinorUnits amount) tokenIDs) in
  if 0 <? remaining then ret (inr (insufficient walletID (GetCurrency amount) remaining))
  else ret (inl legs).

(** The rejection, if it would be refused. *)
Definition WouldAcceptTransfer (isOpen : Wallet.TransactionOpenChecker) (walletID : string)
    (amount : option Money) (callingTransactionID : string) : M (option string) :=
  let* picked := selectSourceTokens walletID amount callingTransactionID isOpen in
  match picked with
  | inl _ => ret None
  | inr rejection => ret (Some rejection)
  end.

Definition planDestinations (transferID : string) (amount : option Money) : list Token.MintSpec :=
  [Token.mkMintSpec (Detid.New (transferID +:+ "/destination-token/0")) amount].

Definition mintSourceLeg (transferID : string) (amount : option Money) : Token.MintSpec :=
  Token.mkMintSpec (Detid.New (transferID +:+ "/source-token")) amount.

(** A nil checker, which the source would panic on calling, is [None]. *)
Definition TransactionExistsChecker : Type := option (string → M bool).

Definition validateMintSource (transactionExists : TransactionExistsChecker)
    (transactionID walletID : string) : M (option string) :=
  match transactionExists with
  | None => fail (plain "panic: nil transactionExists")
  | Some transactionExists =>
      let* exists_ := transactionExists transactionID in
      if negb exists_ then ret (Some ("transaction " +:+ quoted transactionID +:+ " not found"))
      else
        let* opened := Wallet.Opened walletID in
        match opened with
        | None => ret (Some ("wallet " +:+ quoted walletID +:+ " not found"))
        | Some opened =>
            match wo_Allows opened with
            | ALLOWS_ONRAMP | ALLOWS_ONRAMP_AND_OFFRAMP => ret None
            | _ => ret (Some ("wallet " +:+ quoted walletID +:+
                     " does not allow onramp; mint_source requires ALLOWS_ONRAMP or ALLOWS_ONRAMP_AND_OFFRAMP"))
            end
        end
  end.

Definition reverseLeg (l : TransferLeg) : Leg := mkLeg (DestTokenId l) (SourceTokenId l) (LegAmount l).

Fixpoint reversedLegs (events : list Event) : result (list Leg) :=
  match events with
  | [] => Ok []
  | e :: rest =>
      if bool_decide (EType e = full_name KTransferPrepared) then
        let? msg := rmap_err InternalErrorWith (Decode e) in
        match msg with
        | TransferPrepared _ legs =>
            let? more := reversedLegs rest in
            Ok ((reverseLeg <$> legs) ++ more)
        | _ => Err (InternalError "transfer: event did not decode as TransferPrepared")
        end
      else reversedLegs rest
  end.

Definition manifestOf (events : list Event) : result (list Leg + string) :=
  match events with
  | [] => Ok (inr "original transfer not found")
  | _ =>
      let state := currentState events in
      if bool_decide (state = stateCommitted) then
        let? legs := reversedLegs events in
        match legs with
        | [] => Err (InternalError "transfer: committed but has no recorded legs")
        | _ => Ok (inl legs)
        end
      else Ok (inr ("original transfer is " +:+ transferState_String state +:+ ", not committed"))
  end.

(** The legs, or the reason of the rejection. *)
Definition reversalManifest (originalTransferID : string) : M (list Leg + string) :=
  let* events := mapErr InternalErrorWith (load TransferAggregateType originalTransferID) in
  lift (manifestOf events).

(** ** owner.go *)

Definition ownerOf (events : list Event) : result string :=
  match events with
  | [] => Ok ""
  | e :: _ =>
      if bool_decide (EType e = full_name KTransferRequestAccepted) ||
         bool_decide (EType e = full_name KReversalRequestAccepted) then
        let? msg := rmap_err InternalErrorWith (Decode e) in
        match msg with
        | TransferRequestAccepted m => Ok (ta_TransactionId m)
        | ReversalRequestAccepted m => Ok (ra_TransactionId m)
        | _ => Ok ""
        end
      else Ok ""
  end.

Definition OwningTransaction (transferID : string) : M string :=
  let* events := mapErr InternalErrorWith (load TransferAggregateType transferID) in
  lift (ownerOf events).
End manifest.
