(* ===== verification/TransferSaga.v ===== *)
(** * The Transfer saga ([go/internal/transfer/saga.go])

    The steps that move a Transfer along its lifecycle, each a program of
    atomic calls: load, decide, claim, submit to the ledger, record. The
    loops the source leaves unbounded (waiting out a claim, re-planning after a
    lost append, re-recording an outcome) take [fuel] iterations here, and
    running out is an error of its own ([outOfFuel]), so nothing proved of a
    step depends on how much there is. *)

From S2P Require Import Prelude Proto EventStore Ledger Effects Validate Wallet Token TransferState.
From S2P Require Import TransferManifest.

Section saga.
Context {C : Codec} {U : UuidPackage} {S256 : Sha256}.

(** The parts of [transfer.Server] that are not the store or the ledger. *)
Record Server : Type := mkServer {
  isOpen : Wallet.TransactionOpenChecker;
  transactionExists : TransactionExistsChecker
}.

Context (s : Server) (fuel : nat).

Definition loadTransfer (transferID : string) : M (list Event) :=
  mapErr InternalErrorWith (load TransferAggregateType transferID).

(** [tryAppend] ([server.go]): a lost race is [false], not an error. *)
Definition tryAppend (transferID : string) (expectedSeq : Z) (event : message) : M bool :=
  try (append TransferAggregateType transferID expectedSeq [event]) (fun r =>
    match r with
    | Ok _ => ret true
    | Err err => if Is err ErrConcurrencyConflict then ret false else fail (InternalErrorWith err)
    end).

Definition loadLegs (transferID : string) : M (list TransferLeg * transferState) :=
  let* events := loadTransfer transferID in
  let* legs := lift (preparedLegs events) in
  ret (legs, currentState events).

(** ** Submitting to the ledger *)

Record ledgerRefusal : Type := mkRefusal { rf_reason : string; chainsApplied : Z }.

(** The first result that is neither OK nor Exists, with its place in the chain. *)
Fixpoint refusedLeg (i : Z) (results : list TransferResult) : option (Z * TransferResultCode) :=
  match results with
  | [] => None
  | r :: rest =>
      match tr_Result r with
      | TransferResultOK | TransferResultExists => refusedLeg (i + 1) rest
      | code => Some (i, code)
      end
  end.

Definition submitChain (chain : list Transfer) (c : Z) : M (option ledgerRefusal) :=
  try (createTransfers chain) (fun r =>
    match r with
    | Err err =>
        if Is err ErrInvalidRequest then
          ret (Some (mkRefusal ("ledger refused chain " +:+ decimal c +:+ ": " +:+ e_msg err) c))
        else fail (InternalErrorWith (wrapf "ledger: " err))
    | Ok results =>
        match refusedLeg 0 results with
        | None => ret None
        | Some (i, code) =>
            ret (Some (mkRefusal ("leg " +:+ decimal (c * BatchMax + i) +:+ ": " +:+
                                  TransferResultCode_String code) c))
        end
    end).

Definition recordTouched (batch : list Transfer) : M unit :=
  Token.RecordBalances fuel (batch ≫= λ t, [DebitAccountID t; CreditAccountID t]).

Definition batchRejected : error := sentinel_error errBatchRejected "transfer: batch rejected".

Fixpoint submitChains (batch : list Transfer) (onReject : ledgerRefusal → M unit)
    (c : Z) (todo : list (list Transfer)) : M unit :=
  match todo with
  | [] => ret tt
  | chain :: todo =>
      let* refusal := submitChain chain c in
      match refusal with
      | None => submitChains batch onReject (c + 1) todo
      | Some refusal =>
          (if 0 <? c then recordTouched (take (Z.to_nat (c * BatchMax)) batch) else ret tt) ;;;
          onReject refusal ;;;
          fail batchRejected
      end
  end.

Definition submitBatch (batch : list Transfer) (onReject : ledgerRefusal → M unit) : M unit :=
  submitChains batch onReject 0 (chains batch).

(** ** Recording an outcome *)

Fixpoint overtaken (writes : list StreamWrite) : M bool :=
  match writes with
  | [] => ret false
  | w :: rest =>
      if ExpectedSeq w =? 0 then overtaken rest
      else
        let* events := mapErr InternalErrorWith (load (sw_AggregateType w) (sw_AggregateID w)) in
        if negb (len events =? ExpectedSeq w) then ret true else overtaken rest
  end.

Fixpoint recordOutcomeLoop (n attempt : nat) (transferID : string) (event : message)
    (legs : list TransferLeg) : M unit :=
  match n with
  | O => outOfFuel
  | S n =>
      let wantType := EventType event in
      let* events := loadTransfer transferID in
      if bool_decide (EType <$> latestOutcome events = Some wantType) then ret tt
      else if negb (bool_decide (wantType ∈ transitions (currentState events))) then
        fail (InternalError ("transfer: already " +:+ transferState_String (currentState events) +:+
                             ", cannot also become " +:+ wantType))
      else
        let* balanceWrites := Token.BalanceWrites (legTokens legs) in
        let writes := balanceWrites ++ [mkStreamWrite TransferAggregateType transferID (len events) [event]] in
        try (appendAtomic writes) (fun r =>
          match r with
          | Ok _ => ret tt
          | Err err =>
              if negb (Is err ErrConcurrencyConflict) then fail (InternalErrorWith err)
              else
                let* moved := overtaken writes in
                if negb moved then
                  fail (InternalError "transfer: recording conflicted, yet no stream it wrote to has moved")
                else
                  contentionWait attempt ;;;
                  recordOutcomeLoop n (S attempt) transferID event legs
          end)
  end.

Definition recordOutcome (transferID : string) (event : message) (legs : list TransferLeg) : M unit :=
  recordOutcomeLoop fuel 0 transferID event legs.

Definition appendSagaStep (transferID : string) (event : message) : M unit :=
  recordOutcome transferID event [].

(** ** Claims *)

Definition abandonedClaimError (abandonedMarkerType : string) (wanted : message) : error :=
  mkError (Some FailedPrecondition) [errAbandonedClaim]
    ("transfer: an abandoned " +:+ abandonedMarkerType +:+
     " claim can only be resumed by that same transition, not " +:+ EventType wanted).

(** [None]: the Transfer left [preClaimState]. *)
Fixpoint awaitUnclaimedLoop (n : nat) (transferID : string) (preClaimState : transferState)
    (next : message) : M (option (list Event)) :=
  match n with
  | O => outOfFuel
  | S n =>
      let* events := loadTransfer transferID in
      if negb (bool_decide (currentState events = preClaimState)) then ret None
      else
        match liveMarker events with
        | None => ret (Some events)
        | Some live =>
            let* now := mapErr InternalErrorWith storeNow in
            if claimStaleAfter <=? now - OccurredAt live then
              if negb (bool_decide (EType live = EventType next)) then
                fail (abandonedClaimError (EType live) next)
              else ret (Some events)
            else
              mapErr InternalErrorWith poll ;;;
              awaitUnclaimedLoop n transferID preClaimState next
        end
  end.

Definition awaitUnclaimed (transferID : string) (preClaimState : transferState) (next : message)
    : M (option (list Event)) :=
  awaitUnclaimedLoop fuel transferID preClaimState next.

(** [Some seq]: won, with the marker at [seq]. *)
Fixpoint claimForDispatchLoop (n : nat) (transferID : string) (preClaimState : transferState)
    (marker : message) : M (option Z) :=
  match n with
  | O => outOfFuel
  | S n =>
      let* unclaimed := awaitUnclaimed transferID preClaimState marker in
      match unclaimed with
      | None => ret None
      | Some events =>
          let expectedSeq := len events in
          let* won := mapErr InternalErrorWith (claim TransferAggregateType transferID expectedSeq marker) in
          if won : bool then ret (Some (expectedSeq + 1))
          else claimForDispatchLoop n transferID preClaimState marker
      end
  end.

Definition claimForDispatch (transferID : string) (preClaimState : transferState) (marker : message)
    : M (option Z) :=
  claimForDispatchLoop fuel transferID preClaimState marker.

Definition holdsClaim (claimedSeq : Z) (events : list Event) : bool :=
  match liveMarker events with
  | Some live => Sequence live =? claimedSeq
  | None => false
  end.

Definition stillHoldsClaim (transferID : string) (claimedSeq : Z) : M bool :=
  let* events := loadTransfer transferID in
  ret (holdsClaim claimedSeq events).

Definition claimSuperseded : error := sentinel_error errClaimSuperseded "transfer: claim superseded".

Definition requireClaim (transferID : string) (claimedSeq : Z) : M unit :=
  let* held := stillHoldsClaim transferID claimedSeq in
  if held : bool then ret tt else fail claimSuperseded.

(** The early return every checkpoint has: superseded is [done], any other
    error is returned. *)
Definition whileClaimed {A} (transferID : string) (claimedSeq : Z) (done : A) (k : M A) : M A :=
  try (requireClaim transferID claimedSeq) (fun r =>
    match r with
    | Ok _ => k
    | Err err => if Is err errClaimSuperseded then ret done else fail err
    end).

Definition compensate (transferID : string) (claimedSeq : Z) (reason : string) : M unit :=
  requireClaim transferID claimedSeq ;;;
  appendSagaStep transferID (TransferFailed transferID reason).

(** ** Staging and committing *)

Definition stageClaimed (transferID : string) (claimedSeq : Z) (legs : list TransferLeg) : M unit :=
  whileClaimed transferID claimedSeq tt
    (try (submitBatch (reservations legs) (λ r,
            compensate transferID claimedSeq ("tigerbeetle rejected staging " +:+ rf_reason r))) (fun r =>
       match r with
       | Err err =>
           if Is err errBatchRejected then ret tt
           else if Is err errClaimSuperseded then ret tt
           else fail err
       | Ok _ =>
           whileClaimed transferID claimedSeq tt
             (recordOutcome transferID (TransferStaged transferID) legs)
       end)).

Definition stage (transferID : string) : M unit :=
  let* (legs, _) := loadLegs transferID in
  let* claimed := claimForDispatch transferID statePrepared (StagingTransferStarted transferID) in
  match claimed with
  | None => ret tt
  | Some claimedSeq => stageClaimed transferID claimedSeq legs
  end.

Definition confirmStaged (transferID : string) : M unit :=
  appendSagaStep transferID (TransferPending transferID).

(** [true]: a refusal was handled and nothing is left to do. *)
Definition settle (transferID : string) (claimedSeq : Z) (batch : list Transfer) : M bool :=
  try (submitBatch batch (λ r,
         if 0 <? chainsApplied r then
           fail (InternalError ("transfer: tigerbeetle rejected commit " +:+ rf_reason r +:+
                                "; partially posted, needs reconciling"))
         else compensate transferID claimedSeq ("tigerbeetle rejected commit " +:+ rf_reason r))) (fun r =>
    match r with
    | Ok _ => ret false
    | Err err => if Is err errBatchRejected || Is err errClaimSuperseded then ret true else fail err
    end).

Definition moveMoney (transferID : string) (claimedSeq : Z) (legs : list TransferLeg) (posting : bool)
    : M bool :=
  if posting then
    settle transferID claimedSeq (settlements legs TransferKindPostPending ":post")
  else if len legs <=? BatchMax then
    settle transferID claimedSeq (regulars legs)
  else
    try (submitBatch (reservations legs) (λ r,
           compensate transferID claimedSeq ("tigerbeetle rejected reserving " +:+ rf_reason r))) (fun r =>
      match r with
      | Err err => if Is err errBatchRejected || Is err errClaimSuperseded then ret true else fail err
      | Ok _ =>
          whileClaimed transferID claimedSeq true
            (settle transferID claimedSeq (settlements legs TransferKindPostPending ":post"))
      end).

Definition commitClaimed (transferID : string) (claimedSeq : Z) (legs : list TransferLeg) (posting : bool)
    : M unit :=
  whileClaimed transferID claimedSeq tt
    (let* done_ := moveMoney transferID claimedSeq legs posting in
     if done_ : bool then ret tt
     else
       whileClaimed transferID claimedSeq tt
         (recordOutcome transferID (TransferCommitted transferID (buildDestinations legs)) legs)).

Definition commit (transferID : string) : M unit :=
  let* events := loadTransfer transferID in
  let* legs := lift (preparedLegs events) in
  let preClaimState := currentState events in
  if negb (bool_decide (preClaimState = statePrepared)) && negb (bool_decide (preClaimState = statePending))
  then ret tt
  else
    let posting := bool_decide (preClaimState = statePending) in
    let* claimed := claimForDispatch transferID preClaimState (TransferCommittingStarted transferID) in
    match claimed with
    | None => ret tt
    | Some claimedSeq => commitClaimed transferID claimedSeq legs posting
    end.

(** ** Cancelling *)

Definition cancelStaged (transferID reason : string) : M unit :=
  let* (legs, preClaimState) := loadLegs transferID in
  if negb (bool_decide (preClaimState = stateStaged)) && negb (bool_decide (preClaimState = statePending))
  then ret tt
  else
    let* claimed := claimForDispatch transferID preClaimState (CancellingStagedTransferStarted transferID reason) in
    match claimed with
    | None => ret tt
    | Some claimedSeq =>
        whileClaimed transferID claimedSeq tt
          (submitBatch (settlements legs TransferKindVoidPending ":void") (λ r,
             fail (InternalError ("transfer: void rejected: " +:+ rf_reason r))) ;;;
           whileClaimed transferID claimedSeq tt
             (recordOutcome transferID (TransferCancelled transferID reason) legs))
    end.

Fixpoint cancelPreparedLoop (n : nat) (transferID : string) (cancelled : message) : M unit :=
  match n with
  | O => outOfFuel
  | S n =>
      let* unclaimed := awaitUnclaimed transferID statePrepared cancelled in
      match unclaimed with
      | None => ret tt
      | Some events =>
          let* landed := tryAppend transferID (len events) cancelled in
          if landed : bool then ret tt else cancelPreparedLoop n transferID cancelled
      end
  end.

Definition cancelPrepared (transferID reason : string) : M unit :=
  let* events := loadTransfer transferID in
  match events with
  | [] => fail (plain "transfer: not found")
  | _ =>
      match currentState events with
      | stateAccepted =>
          tryAppend transferID (len events) (AcceptedTransferCancelled transferID reason) ;;; ret tt
      | statePrepared => cancelPreparedLoop fuel transferID (PreparedTransferCancelled transferID reason)
      | stateCommitted | stateFailed | stateCancelled => ret tt
      | _ => fail (plain "transfer: cannot cancel from its state")
      end
  end.

(** ** Preparing *)

Record claimedStep : Type := mkClaimedStep { cs_seq : Z; cs_legs : list TransferLeg; cs_stage : bool }.

Definition planOvertaken : error :=
  sentinel_error errPlanOvertaken "plan overtaken by a write to a stream it planned against".

Definition failUnprepared (transferID : string) (expectedSeq : Z) (reason : string) : M unit :=
  let* ok := tryAppend transferID expectedSeq (TransferFailed transferID reason) in
  if ok : bool then ret tt else fail planOvertaken.

(** The Tokens of [specs] minted into [walletID]: the writes, or an error when
    the mint is refused. *)
Definition mintInto (walletID : string) (specs : list Token.MintSpec) (transactionID : string)
    : M (list StreamWrite) :=
  let* walletEvents := mapErr InternalErrorWith (load Wallet.AggregateType walletID) in
  let* out := Token.MintWrites walletID walletEvents specs transactionID in
  match out with
  | inl writes => ret writes
  | inr rejection => fail (plain ("transfer: prepare: mint rejected: " +:+ Token.mr_Reason rejection))
  end.

(** The source half of a forward Transfer's plan: legs without destinations and
    the writes that mint them; or the reason its Wallet no longer covers it. *)
Definition planSource (transferID : string) (accepted : TransferAccepted)
    : M ((list Leg * list StreamWrite) + string) :=
  if ta_MintSource accepted then
    let* rejection := validateMintSource (transactionExists s) (ta_TransactionId accepted) (ta_FromWalletId accepted) in
    match rejection with
    | Some reason => fail (plain ("transfer: prepare: mint_source re-validation failed after accept: " +:+ reason))
    | None =>
        let srcSpec := mintSourceLeg transferID (ta_Amount accepted) in
        let* writes := mintInto (ta_FromWalletId accepted) [srcSpec] (ta_TransactionId accepted) in
        ret (inl ([mkLeg (Token.TokenID srcSpec) "" (ta_Amount accepted)], writes))
    end
  else
    let* selected := selectSourceTokens (ta_FromWalletId accepted) (ta_Amount accepted)
                       (ta_TransactionId accepted) (isOpen s) in
    match selected with
    | inl legs => ret (inl (legs, []))
    | inr reason => ret (inr reason)
    end.

Definition joinDest (destTokenID : string) (leg : Leg) : Leg :=
  mkLeg (leg_SourceTokenID leg) destTokenID (leg_Amount leg).

(** The whole plan, by the event that opened the stream: the legs and the mint
    writes, or the reason a forward Transfer's source no longer covers it. *)
Definition plan (transferID : string) (opening : message) : M ((list Leg * list StreamWrite) + string) :=
  match opening with
  | TransferRequestAccepted accepted =>
      let* source := planSource transferID accepted in
      match source with
      | inr reason => ret (inr reason)
      | inl (srcLegs, srcMintWrites) =>
          let destSpecs := planDestinations transferID (ta_Amount accepted) in
          let* writes := mintInto (ta_ToWalletId accepted) destSpecs (ta_TransactionId accepted) in
          let destTokenID := default "" (Token.TokenID <$> head destSpecs) in
          ret (inl (joinDest destTokenID <$> srcLegs, srcMintWrites ++ writes))
      end
  | ReversalRequestAccepted accepted =>
      let* manifest := reversalManifest (ra_TransferId accepted) in
      match manifest with
      | inl legs => ret (inl (legs, []))
      | inr reason => fail (plain ("transfer: prepare: reversal manifest failed after accept: " +:+ reason))
      end
  | _ => fail (plain "transfer: stream does not start with an Accepted event")
  end.

Definition protoLeg (leg : Leg) : M TransferLeg :=
  let* ledgerID := newUuid in
  ret (mkTransferLeg (leg_SourceTokenID leg) (leg_DestTokenID leg) (leg_Amount leg) ledgerID).

Definition claimMarker (transferID : string) (stage : bool) : message :=
  if stage then StagingTransferStarted transferID else TransferCommittingStarted transferID.

Definition tryPrepare (transferID : string) : M (option claimedStep) :=
  let* events := loadTransfer transferID in
  match events with
  | [] => fail (plain "transfer: no accepted event to prepare from")
  | opening :: _ =>
      if negb (bool_decide (currentState events = stateAccepted)) then ret None
      else
        let* msg := lift (rmap_err InternalErrorWith (Decode opening)) in
        let* planned := plan transferID msg in
        match planned with
        | inr reason =>
            failUnprepared transferID (len events) ("prepare: " +:+ reason) ;;; ret None
        | inl (legs, mintWrites) =>
            let* protoLegs := mapM protoLeg legs in
            let* stage := lift (stageRequested events) in
            let next := mkClaimedStep (len events + 2) protoLegs stage in
            let writes := mintWrites ++
              [mkStreamWrite TransferAggregateType transferID (len events)
                 [TransferPrepared transferID protoLegs; claimMarker transferID stage]] in
            try (appendAtomic writes) (fun r =>
              match r with
              | Ok _ => ret (Some next)
              | Err err =>
                  if Is err ErrConcurrencyConflict then
                    let* moved := overtaken writes in
                    if moved : bool then fail planOvertaken
                    else fail (wrapf "transfer: prepare: " err)
                  else fail (InternalErrorWith err)
              end)
        end
  end.

Fixpoint prepareLoop (n attempt : nat) (transferID : string) : M (option claimedStep) :=
  match n with
  | O => outOfFuel
  | S n =>
      try (tryPrepare transferID) (fun r =>
        match r with
        | Ok next => ret next
        | Err err =>
            if Is err errPlanOvertaken then
              contentionWait attempt ;;; prepareLoop n (S attempt) transferID
            else fail err
        end)
  end.

Definition prepare (transferID : string) : M (option claimedStep) := prepareLoop fuel 0 transferID.

(** ** Driving *)

(** What [runSaga] does in one state; [false]: it stops there. *)
Definition dispatch (transferID : string) (events : list Event) : M bool :=
  match currentState events with
  | stateAccepted =>
      let* next := prepare transferID in
      match next with
      | None => ret true
      | Some next =>
          (if cs_stage next then stageClaimed transferID (cs_seq next) (cs_legs next)
           else commitClaimed transferID (cs_seq next) (cs_legs next) false) ;;; ret true
      end
  | statePrepared =>
      let* requiresStaging := lift (stageRequested events) in
      (if requiresStaging : bool then stage transferID else commit transferID) ;;; ret true
  | stateStaged | statePending => ret false
  | stateCommitted | stateFailed | stateCancelled => ret false
  | stateUnknown => fail (plain "transfer: saga stuck in unrecognized state")
  end.

Fixpoint runSagaLoop (n : nat) (transferID : string) (events : list Event) : M unit :=
  match n with
  | O => outOfFuel
  | S n =>
      match events with
      | [] => fail (plain "transfer: no events")
      | _ =>
          if rejectedRequest events then ret tt
          else
            let state := currentState events in
            let* moved := dispatch transferID events in
            if negb moved then ret tt
            else
              let* events := loadTransfer transferID in
              if bool_decide (currentState events = state) then ret tt
              else runSagaLoop n transferID events
      end
  end.

Definition runSaga (transferID : string) : M unit :=
  let* events := loadTransfer transferID in
  runSagaLoop fuel transferID events.

Definition Resume (transferID : string) : M unit := runSaga transferID.
End saga.
