(* ===== verification/TransferServer.v ===== *)
(** * The Transfer service ([go/internal/transfer/server.go])

    The RPC handlers. Each is a bounded "load, decide, try to append" loop:
    three attempts, every one deciding from a fresh load, and [Aborted] when
    all three lose. *)

From S2P Require Import Prelude Proto EventStore Ledger Effects Validate Wallet Token TransferState.
From S2P Require Import TransferManifest TransferSaga.

Section server.
Context {C : Codec} {U : UuidPackage} {S256 : Sha256}.
Context (s : Server) (fuel : nat).

Definition maxConcurrencyAttempts : nat := 3.

Definition abortedRetry : error :=
  NewError Aborted "transfer: could not converge after repeated concurrency conflicts; retry".

Definition sagaStepError (err : error) : error :=
  if Is err errAbandonedClaim then err else InternalErrorWith err.

(** [for attempt := 0; attempt < maxConcurrencyAttempts; attempt++]: [body]
    answers [None] to [continue]. *)
Fixpoint attempts {A} (n : nat) (body : M (option A)) : M A :=
  match n with
  | O => fail abortedRetry
  | S n =>
      let* out := body in
      match out with
      | Some a => ret a
      | None => attempts n body
      end
  end.

Fixpoint decodedCommitted (events : list Event) : result message :=
  match events with
  | [] => Err (InternalError "no TransferCommitted event found")
  | e :: rest =>
      if bool_decide (EType e = full_name KTransferCommitted) then
        let? msg := rmap_err InternalErrorWith (Decode e) in
        match msg with
        | TransferCommitted _ _ => Ok msg
        | _ => Err (InternalError "event did not decode as TransferCommitted")
        end
      else decodedCommitted rest
  end.

(** A response is an id and one of the messages its [oneof] allows. *)
Record response : Type := mkResponse { rs_Id : string; rs_Result : message }.

(** ** RequestTransfer *)

Record RequestTransferRequest : Type := mkRequestTransfer {
  rt_Id : string;
  rt_FromWalletId : string;
  rt_ToWalletId : string;
  rt_Amount : option Money;
  rt_Stage : bool;
  rt_TransactionId : string;
  rt_MintSource : bool
}.

Definition acceptedResponse (e : TransferAccepted) : response :=
  mkResponse (ta_Id e) (TransferRequestAccepted e).

Definition rejectedTransferResponse (id reason : string) : response :=
  mkResponse id (TransferRequestRejected id reason).

Definition decidedRequestTransfer (events : list Event) : result response :=
  match events with
  | [] => Err (plain "panic: index out of range")
  | e :: _ =>
      let? msg := rmap_err InternalErrorWith (Decode e) in
      match msg with
      | TransferRequestAccepted m => Ok (acceptedResponse m)
      | TransferRequestRejected id reason => Ok (rejectedTransferResponse id reason)
      | _ => Err (InternalError "transfer: stream does not start with a Transfer request's decision")
      end
  end.

Definition validateRequestTransfer (req : RequestTransferRequest) : result unit :=
  let? _ := Id.Validate "id" (rt_Id req) in
  let? _ := Id.Validate "from_wallet_id" (rt_FromWalletId req) in
  let? _ := Id.Validate "to_wallet_id" (rt_ToWalletId req) in
  let? _ := MoneyCheck.Validate "amount" (rt_Amount req) in
  if rt_MintSource req && bool_decide (rt_TransactionId req = "") then
    Err (InvalidArgumentError "mint_source"
           "requires transaction_id: only Transaction-owned Transfers may mint a source Token")
  else Ok tt.

(** The rejection this request meets now, if any. *)
Definition transferRejection (req : RequestTransferRequest) : M (option string) :=
  if rt_MintSource req then
    validateMintSource (transactionExists s) (rt_TransactionId req) (rt_FromWalletId req)
  else
    WouldAcceptTransfer (isOpen s) (rt_FromWalletId req) (rt_Amount req) (rt_TransactionId req).

Definition transferDecision (req : RequestTransferRequest) (rejection : option string) : message :=
  match rejection with
  | Some reason => TransferRequestRejected (rt_Id req) reason
  | None => TransferRequestAccepted
              (mkTransferAccepted (rt_Id req) (rt_FromWalletId req) (rt_ToWalletId req) (rt_Amount req)
                 (rt_Stage req) (rt_TransactionId req) (rt_MintSource req))
  end.

Definition tryRequestTransfer (req : RequestTransferRequest) : M (option response) :=
  let* events := loadTransfer (rt_Id req) in
  match events with
  | _ :: _ =>
      let* out := lift (decidedRequestTransfer events) in
      ret (Some out)
  | [] =>
      let* rejection := transferRejection req in
      let event := transferDecision req rejection in
      let* ok := tryAppend (rt_Id req) 0 event in
      if ok : bool then ret (Some (mkResponse (rt_Id req) event)) else ret None
  end.

Definition RequestTransfer (req : RequestTransferRequest) : M response :=
  lift (validateRequestTransfer req) ;;;
  attempts maxConcurrencyAttempts (tryRequestTransfer req).

(** ** CancelAcceptedTransfer *)

Definition acceptedTransferCancelledResponse (transferID reason : string) : response :=
  mkResponse transferID (AcceptedTransferCancelled transferID reason).

Definition tryCancelAccepted (id reason : string) : M (option response) :=
  let* events := loadTransfer id in
  match events with
  | [] => fail (NewError NotFound "transfer not found")
  | _ =>
      match currentState events with
      | stateCancelled => ret (Some (acceptedTransferCancelledResponse id reason))
      | stateAccepted | statePrepared =>
          mapErr sagaStepError (cancelPrepared fuel id reason) ;;;
          let* events := loadTransfer id in
          if bool_decide (currentState events = stateCancelled)
          then ret (Some (acceptedTransferCancelledResponse id reason))
          else ret None
      | _ => fail (NewError FailedPrecondition "transfer cannot be cancelled from its current state")
      end
  end.

Definition CancelAcceptedTransfer (id reason : string) : M response :=
  lift (Id.Validate "id" id) ;;;
  attempts maxConcurrencyAttempts (tryCancelAccepted id reason).

(** ** RequestReversal *)

Record RequestReversalRequest : Type := mkRequestReversal {
  rr_Id : string;
  rr_TransferId : string;
  rr_Stage : bool;
  rr_TransactionId : string
}.

Definition reversalAcceptedResponse (e : ReversalAccepted) : response :=
  mkResponse (ra_Id e) (ReversalRequestAccepted e).

Definition rejectedReversalResponse (id transferID reason : string) : response :=
  mkResponse id (ReversalRequestRejected id transferID reason).

Definition decidedRequestReversal (events : list Event) : result response :=
  match events with
  | [] => Err (plain "panic: index out of range")
  | e :: _ =>
      let? msg := rmap_err InternalErrorWith (Decode e) in
      match msg with
      | ReversalRequestAccepted m => Ok (reversalAcceptedResponse m)
      | ReversalRequestRejected id transferID reason => Ok (rejectedReversalResponse id transferID reason)
      | _ => Err (InternalError "transfer: stream does not start with a Reversal request's decision")
      end
  end.

(** The total of the legs, which wraps as [uint64] does, in the last leg's
    currency. *)
Definition reversalTotal (legs : list Leg) : Money :=
  foldl (λ t l, mkMoney (u64 (MinorUnits t + GetMinorUnits (leg_Amount l))) (GetCurrency (leg_Amount l)))
    (mkMoney 0 "") legs.

Definition reversalDecision (req : RequestReversalRequest) (manifest : list Leg + string) : message :=
  match manifest with
  | inr reason => ReversalRequestRejected (rr_Id req) (rr_TransferId req) reason
  | inl legs => ReversalRequestAccepted
                  (mkReversalAccepted (rr_Id req) (rr_TransferId req) (Some (reversalTotal legs))
                     (rr_Stage req) (rr_TransactionId req))
  end.

Definition tryRequestReversal (req : RequestReversalRequest) : M (option response) :=
  let* events := loadTransfer (rr_Id req) in
  match events with
  | _ :: _ =>
      let* out := lift (decidedRequestReversal events) in
      ret (Some out)
  | [] =>
      let* manifest := reversalManifest (rr_TransferId req) in
      let event := reversalDecision req manifest in
      let* ok := tryAppend (rr_Id req) 0 event in
      if ok : bool then ret (Some (mkResponse (rr_Id req) event)) else ret None
  end.

Definition RequestReversal (req : RequestReversalRequest) : M response :=
  lift (let? _ := Id.Validate "id" (rr_Id req) in Id.Validate "transfer_id" (rr_TransferId req)) ;;;
  attempts maxConcurrencyAttempts (tryRequestReversal req).

(** ** ConfirmStagedTransfer *)

(** A refusal recorded on the stream as it was loaded. *)
Definition refuse (id : string) (events : list Event) (rejection : message) : M (option response) :=
  let* ok := tryAppend id (len events) rejection in
  if ok : bool then ret (Some (mkResponse id rejection)) else ret None.

Definition transferPendingResponse (transferID : string) : response :=
  mkResponse transferID (TransferPending transferID).

Definition tryConfirmStaged (id : string) : M (option response) :=
  let* events := loadTransfer id in
  match events with
  | [] => ret (Some (mkResponse id (ConfirmStagedTransferRejected id "transfer not found")))
  | _ =>
      match currentState events with
      | stateStaged =>
          mapErr InternalErrorWith (confirmStaged fuel id) ;;;
          ret (Some (transferPendingResponse id))
      | statePending => ret (Some (transferPendingResponse id))
      | state => refuse id events (ConfirmStagedTransferRejected id
                   ("transfer is " +:+ transferState_String state +:+ ", not staged"))
      end
  end.

Definition ConfirmStagedTransfer (id : string) : M response :=
  lift (Id.Validate "id" id) ;;;
  attempts maxConcurrencyAttempts (tryConfirmStaged id).

(** ** CancelStagedTransfer *)

Definition transferCancelledResponse (transferID reason : string) : response :=
  mkResponse transferID (TransferCancelled transferID reason).

Definition tryCancelStaged (id reason : string) : M (option response) :=
  let* events := loadTransfer id in
  match events with
  | [] => ret (Some (mkResponse id (CancelStagedTransferRejected id "transfer not found")))
  | _ =>
      match currentState events with
      | stateStaged | statePending =>
          mapErr sagaStepError (cancelStaged fuel id reason) ;;;
          let* events := loadTransfer id in
          if bool_decide (currentState events = stateCancelled)
          then ret (Some (transferCancelledResponse id reason))
          else ret None
      | stateCancelled => ret (Some (transferCancelledResponse id reason))
      | state => refuse id events (CancelStagedTransferRejected id
                   ("transfer is " +:+ transferState_String state +:+ ", cannot be cancelled from there"))
      end
  end.

Definition CancelStagedTransfer (id reason : string) : M response :=
  lift (Id.Validate "id" id) ;;;
  attempts maxConcurrencyAttempts (tryCancelStaged id reason).

(** ** PostPendingTransfer *)

Definition postPendingCommittedResponse (transferID : string) (events : list Event) : result response :=
  let? committed := decodedCommitted events in
  Ok (mkResponse transferID committed).

Definition tryPostPending (id : string) : M (option response) :=
  let* events := loadTransfer id in
  match events with
  | [] => ret (Some (mkResponse id (PostPendingTransferRejected id "transfer not found")))
  | _ =>
      match currentState events with
      | statePending =>
          mapErr sagaStepError (commit fuel id) ;;;
          let* events := loadTransfer id in
          match currentState events with
          | stateCommitted =>
              let* out := lift (postPendingCommittedResponse id events) in ret (Some out)
          | stateFailed =>
              fail (NewError Internal "transfer: tigerbeetle rejected posting; see TransferFailed in the event log")
          | _ => ret None
          end
      | stateCommitted =>
          let* out := lift (postPendingCommittedResponse id events) in ret (Some out)
      | state => refuse id events (PostPendingTransferRejected id
                   ("transfer is " +:+ transferState_String state +:+ ", not pending"))
      end
  end.

Definition PostPendingTransfer (id : string) : M response :=
  lift (Id.Validate "id" id) ;;;
  attempts maxConcurrencyAttempts (tryPostPending id).
End server.
