(* ===== verification/TransferLegal.v ===== *)
(** * The lifecycle of a Transfer's stream

    [tstep evs ms]: the batches the services may append to a Transfer's stream
    that holds exactly [evs]. Every rule is one place of the code: the request
    that opens the stream, [prepare], a claim, a recorded outcome, a client's
    refused response. The lemmas below are what follows for any stream built by
    these steps alone ([treach]); that every handler keeps to them, under any
    interleaving, is [TransferSafety]. *)

From S2P Require Import Prelude Proto EventStore Ledger Effects Validate Safety Wallet Token.
From S2P Require Import TransferState TransferManifest TransferSaga.

(** ** Kinds *)

Definition stateOf (k : kind) : option transferState :=
  match k with
  | KTransferRequestAccepted | KReversalRequestAccepted => Some stateAccepted
  | KTransferPrepared => Some statePrepared
  | KTransferStaged => Some stateStaged
  | KTransferPending => Some statePending
  | KTransferCommitted => Some stateCommitted
  | KTransferFailed => Some stateFailed
  | KTransferCancelled | KAcceptedTransferCancelled | KPreparedTransferCancelled => Some stateCancelled
  | _ => None
  end.

Lemma stateByEventType_kind k : stateByEventType !! full_name k = stateOf k.
Proof. by destruct k. Qed.

#[global] Opaque stateByEventType.

Definition markerKind (k : kind) : bool :=
  match k with
  | KStagingTransferStarted | KTransferCommittingStarted | KCancellingStagedTransferStarted => true
  | _ => false
  end.

Lemma isClaimMarkerType_kind k : isClaimMarkerType (full_name k) = markerKind k.
Proof. by destruct k. Qed.

#[global] Opaque isClaimMarkerType.

Definition openingKind (k : kind) : bool :=
  match k with
  | KTransferRequestAccepted | KReversalRequestAccepted
  | KTransferRequestRejected | KReversalRequestRejected => true
  | _ => false
  end.

Definition responseKind (k : kind) : bool :=
  match k with
  | KConfirmStagedTransferRejected | KCancelStagedTransferRejected | KPostPendingTransferRejected => true
  | _ => false
  end.

(** How far along a state is; the three terminal states are the last. *)
Definition rank (st : transferState) : nat :=
  match st with
  | stateUnknown => 0 | stateAccepted => 1 | statePrepared => 2 | stateStaged => 3
  | statePending => 4 | stateCommitted | stateFailed | stateCancelled => 5
  end.

Lemma terminal_rank st : terminal st = true ↔ rank st = 5%nat.
Proof. by destruct st. Qed.

(** [transitions], by kind. *)
Definition transitionKinds (st : transferState) : list kind :=
  match st with
  | stateAccepted => [KAcceptedTransferCancelled; KTransferFailed]
  | statePrepared => [KTransferStaged; KTransferCommitted; KTransferFailed; KPreparedTransferCancelled]
  | stateStaged => [KTransferPending; KTransferCancelled]
  | statePending => [KTransferCommitted; KTransferFailed; KTransferCancelled]
  | _ => []
  end.

Lemma transitions_kind st k : full_name k ∈ transitions st ↔ k ∈ transitionKinds st.
Proof.
  assert (transitions st = full_name <$> transitionKinds st) as -> by by destruct st.
  rewrite list_elem_of_fmap. split; [|by eauto]. by intros (k' & ->%full_name_inj & ?).
Qed.

(** Every transition moves forward, to the state of its own event. *)
Lemma transitions_forward st k :
  full_name k ∈ transitions st → ∃ st', stateOf k = Some st' ∧ (rank st < rank st')%nat.
Proof.
  rewrite transitions_kind. revert k. apply Forall_forall. destruct st; simpl; repeat constructor; eexists; (split; [done | simpl; lia]).
Qed.

Section stream.
Context {C : Codec}.
Implicit Types (evs batch : list Event) (e : Event) (m : message) (ms : list message).

(** ** Folding appended batches *)

Lemma recorded_one m e : recorded m e → Forall2 recorded [m] [e].
Proof. intros He. by constructor; [|constructor]. Qed.

Definition advance (st : transferState) ms : transferState :=
  foldl (λ st m, default st (stateOf (kind_of m))) st ms.

Lemma currentState_app evs ms batch :
  Forall2 recorded ms batch → currentState (evs ++ batch) = advance (currentState evs) ms.
Proof.
  unfold currentState, advance. rewrite foldl_app. generalize (foldl (λ state e, default state (stateByEventType !! EType e)) stateUnknown evs).
  intros st Hr. revert st. induction Hr as [|m e ms batch [Ht _] _ IH]; intros st; [done|].
  simpl. rewrite Ht. unfold EventType. rewrite stateByEventType_kind. apply IH.
Qed.

Lemma liveMarker_snoc evs e m :
  recorded m e →
  liveMarker (evs ++ [e]) =
    if markerKind (kind_of m) then Some e
    else if stateOf (kind_of m) then None else liveMarker evs.
Proof.
  intros [Ht _]. unfold liveMarker. rewrite reverse_snoc. simpl. rewrite Ht. unfold EventType.
  by rewrite isClaimMarkerType_kind, stateByEventType_kind.
Qed.

(** The scan finds the newest claim marker, and nothing after it advanced the
    fold. *)
Lemma liveMarker_spec evs e :
  liveMarker evs = Some e ↔
  ∃ l1 l2, evs = l1 ++ e :: l2 ∧ isClaimMarkerType (EType e) = true ∧
    Forall (λ x, isClaimMarkerType (EType x) = false ∧ stateByEventType !! EType x = None) l2.
Proof.
  unfold liveMarker. induction evs as [|x evs IH] using rev_ind.
  { simpl. split; [done|]. by intros ([|??] & ? & ? & _). }
  rewrite reverse_snoc. cbn [liveMarkerRev]. destruct (isClaimMarkerType (EType x)) eqn:Hx.
  - split.
    + intros [= <-]. exists evs, []. by rewrite Forall_nil.
    + intros (l1 & l2 & Heq & He & Hl2). destruct l2 as [|y l2] using rev_ind.
      * by apply app_inj_tail in Heq as [_ ->].
      * rewrite app_comm_cons, app_assoc in Heq. apply app_inj_tail in Heq as [_ ->].
        apply Forall_app in Hl2 as [_ [[Hn _] _]%Forall_cons]. congruence.
  - destruct (stateByEventType !! EType x) eqn:Hs.
    + split; [done|]. intros (l1 & l2 & Heq & He & Hl2). destruct l2 as [|y l2] using rev_ind.
      * apply app_inj_tail in Heq as [_ ->]. congruence.
      * rewrite app_comm_cons, app_assoc in Heq. apply app_inj_tail in Heq as [_ ->].
        apply Forall_app in Hl2 as [_ [[_ Hn] _]%Forall_cons]. congruence.
    + rewrite IH. split.
      * intros (l1 & l2 & -> & He & Hl2). exists l1, (l2 ++ [x]).
        rewrite <- app_assoc. split; [done|]. split; [done|]. apply Forall_app; split; [exact Hl2|]. constructor; [by split | constructor].
      * intros (l1 & l2 & Heq & He & Hl2). destruct l2 as [|y l2] using rev_ind.
        { apply app_inj_tail in Heq as [_ ->]. congruence. }
        rewrite app_comm_cons, app_assoc in Heq. apply app_inj_tail in Heq as [-> ->].
        apply Forall_app in Hl2 as [Hl2 _]. exists l1, l2. auto.
Qed.

(** ** Legal appends *)

(** A claim may be taken when nothing is live, or over its own transition's. *)
Definition unclaimedFor evs m : Prop :=
  ∀ live, liveMarker evs = Some live → EType live = EventType m.

(** What each marker guards. *)
Definition claimable evs m : Prop :=
  match kind_of m with
  | KStagingTransferStarted => currentState evs = statePrepared ∧ stageRequested evs = Ok true
  | KTransferCommittingStarted =>
      (currentState evs = statePrepared ∧ stageRequested evs = Ok false) ∨ currentState evs = statePending
  | KCancellingStagedTransferStarted => currentState evs = stateStaged ∨ currentState evs = statePending
  | _ => False
  end.

(** What an outcome needs beyond being a transition of the current state. *)
Definition outcomeAllowed evs m : Prop :=
  match kind_of m with
  | KTransferStaged => stageRequested evs = Ok true
  | KTransferCommitted => stageRequested evs = Ok false ∨ currentState evs = statePending
  | KPreparedTransferCancelled => liveMarker evs = None
  | _ => True
  end.

Inductive tstep evs : list message → Prop :=
| t_open m : evs = [] → openingKind (kind_of m) = true → tstep evs [m]
| t_prepare id legs b :
    currentState evs = stateAccepted → stageRequested evs = Ok b →
    tstep evs [TransferPrepared id legs; claimMarker id b]
| t_claim m :
    markerKind (kind_of m) = true → unclaimedFor evs m → claimable evs m → tstep evs [m]
| t_outcome m :
    EventType m ∈ transitions (currentState evs) → outcomeAllowed evs m → tstep evs [m]
| t_response m : evs ≠ [] → responseKind (kind_of m) = true → tstep evs [m].

Inductive tgrow : list Event → list Event → Prop :=
| tgrow_step evs ms batch : Forall2 recorded ms batch → tstep evs ms → tgrow evs (evs ++ batch).

Definition treach evs : Prop := rtc tgrow [] evs.

(** ** One step *)

Lemma claimMarker_kind id b : markerKind (kind_of (claimMarker id b)) = true ∧ stateOf (kind_of (claimMarker id b)) = None.
Proof. by destruct b. Qed.

Lemma marker_no_state k : markerKind k = true → stateOf k = None.
Proof. by destruct k. Qed.

Lemma response_no_state k : responseKind k = true → stateOf k = None ∧ markerKind k = false.
Proof. by destruct k. Qed.

(** What one step does to the fold: opens, moves forward, or leaves it. *)
Lemma tstep_state evs ms batch :
  tstep evs ms → Forall2 recorded ms batch →
  let st := currentState evs in let st' := currentState (evs ++ batch) in
  st' = st ∨ (rank st < rank st')%nat.
Proof.
  intros Hstep Hr. cbv zeta. rewrite (currentState_app _ _ _ Hr).
  destruct Hstep as [m -> Hk|id legs b Hst _|m Hk _ _|m Ht _|m _ Hk]; simpl.
  - destruct (kind_of m); simpl; auto; right; simpl; lia.
  - destruct (claimMarker_kind id b) as [_ ->]. rewrite Hst. right. simpl. lia.
  - rewrite marker_no_state by done. by left.
  - destruct (transitions_forward _ _ Ht) as (st' & -> & Hlt). by right.
  - destruct (response_no_state _ Hk) as [-> _]. by left.
Qed.

Lemma tgrow_rank evs evs' : rtc tgrow evs evs' → (rank (currentState evs) ≤ rank (currentState evs'))%nat.
Proof.
  induction 1 as [|x y z [evs ms batch Hr Hs] _ IH]; [done|].
  destruct (tstep_state _ _ _ Hs Hr) as [Heq|Hlt]; simpl in *; [rewrite Heq in IH|]; lia.
Qed.

(** From a terminal state only responses follow. *)
Lemma tstep_terminal evs ms :
  tstep evs ms → terminal (currentState evs) = true → ∃ m, ms = [m] ∧ responseKind (kind_of m) = true.
Proof.
  destruct 1 as [m -> Hk|id legs b Hst _|m Hk _ Hc|m Ht _|m _ Hk]; intros Hterm.
  - done.
  - by rewrite Hst in Hterm.
  - unfold claimable in Hc. destruct (kind_of m); try done.
    + destruct Hc as [Hc _]. by rewrite Hc in Hterm.
    + destruct Hc as [[Hc _]|Hc]; by rewrite Hc in Hterm.
    + destruct Hc as [Hc|Hc]; by rewrite Hc in Hterm.
  - by destruct (currentState evs); try (apply elem_of_nil in Ht).
  - by eauto.
Qed.

Lemma tgrow_terminal evs evs' :
  rtc tgrow evs evs' → terminal (currentState evs) = true →
  ∃ tail, evs' = evs ++ tail ∧ currentState evs' = currentState evs ∧
    Forall (λ e, ∃ m, recorded m e ∧ responseKind (kind_of m) = true) tail.
Proof.
  induction 1 as [x|x y z Hstep _ IH]; intros Hterm.
  { exists []. by rewrite app_nil_r, Forall_nil. }
  destruct Hstep as [evs ms batch Hr Hs].
  destruct (tstep_terminal _ _ Hs Hterm) as (m & -> & Hk).
  apply Forall2_cons_inv_l in Hr as (e & ? & He & ->%Forall2_nil_inv_l & ->).
  assert (Heq : currentState (evs ++ [e]) = currentState evs).
  { rewrite (currentState_app _ _ _ (recorded_one _ _ He)). simpl.
    by destruct (response_no_state _ Hk) as [-> _]. }
  destruct IH as (tail & -> & Hst & Hall); [by rewrite Heq|].
  exists (e :: tail). rewrite <- app_assoc in *. split; [done|]. split; [congruence|].
  constructor; [by eauto | done].
Qed.

(** The live claim belongs to one transition until the fold moves. *)
Lemma tstep_claim evs ms batch live :
  tstep evs ms → Forall2 recorded ms batch → liveMarker evs = Some live →
  currentState (evs ++ batch) = currentState evs →
  ∃ live', liveMarker (evs ++ batch) = Some live' ∧ EType live' = EType live.
Proof.
  intros Hstep Hr Hlive Hsame. pose proof (currentState_app evs _ _ Hr) as Hst. rewrite Hsame in Hst.
  destruct Hstep as [m -> Hk|id legs b Hacc _|m Hk Hun _|m Ht _|m _ Hk].
  - done.
  - simpl in Hst. destruct (claimMarker_kind id b) as [_ Hn]. rewrite Hn in Hst. simpl in Hst. congruence.
  - apply Forall2_cons_inv_l in Hr as (e & ? & He & ->%Forall2_nil_inv_l & ->).
    exists e. rewrite (liveMarker_snoc _ _ m He), Hk. split; [done|].
    rewrite (Hun _ Hlive). apply He.
  - destruct (transitions_forward _ _ Ht) as (st' & Hs & Hlt). simpl in Hst. rewrite Hs in Hst. simpl in Hst.
    rewrite <- Hst in Hlt. lia.
  - apply Forall2_cons_inv_l in Hr as (e & ? & He & ->%Forall2_nil_inv_l & ->).
    exists live. rewrite (liveMarker_snoc _ _ m He). destruct (response_no_state _ Hk) as [-> ->]. done.
Qed.

Lemma tgrow_claim evs evs' live :
  rtc tgrow evs evs' → liveMarker evs = Some live → currentState evs' = currentState evs →
  ∃ live', liveMarker evs' = Some live' ∧ EType live' = EType live.
Proof.
  intros Hg. revert live. induction Hg as [x|x y z Hstep Hyz IH]; intros live Hlive Hsame; [by eauto|].
  pose proof (tgrow_rank _ _ Hyz) as Hrank. destruct Hstep as [evs ms batch Hr Hs].
  destruct (tstep_state _ _ _ Hs Hr) as [Heq|Hlt]; [|simpl in Hlt; rewrite Hsame in Hrank; lia].
  destruct (tstep_claim _ _ _ _ Hs Hr Hlive Heq) as (live1 & Hlive1 & Ht1).
  destruct (IH live1 Hlive1) as (live2 & Hlive2 & Ht2); [congruence|]. exists live2. split; [done | congruence].
Qed.

(** ** The lifecycles *)

(** The states a stream has been through, oldest first. *)
Definition outcomes evs : list transferState := omap (λ e, stateByEventType !! EType e) evs.

Lemma outcomes_app evs ms batch :
  Forall2 recorded ms batch → outcomes (evs ++ batch) = outcomes evs ++ omap (λ m, stateOf (kind_of m)) ms.
Proof.
  intros Hr. unfold outcomes. rewrite omap_app. f_equal.
  induction Hr as [|m e ms batch [Ht _] _ IH]; [done|].
  csimpl. rewrite Ht. unfold EventType. by rewrite stateByEventType_kind, IH.
Qed.

Lemma currentState_outcomes evs : currentState evs = default stateUnknown (last (outcomes evs)).
Proof.
  unfold currentState, outcomes. induction evs as [|e evs IH] using rev_ind; [done|].
  rewrite foldl_app, omap_app. simpl. destruct (stateByEventType !! EType e) as [st|]; simpl.
  - by rewrite last_snoc.
  - by rewrite app_nil_r.
Qed.

(** Every history a Transfer can have, by whether staging was requested. *)
Definition lifecycles (staged : bool) : list (list transferState) :=
  let A := stateAccepted in let P := statePrepared in
  [ [A]; [A; stateFailed]; [A; stateCancelled];
    [A; P]; [A; P; stateFailed]; [A; P; stateCancelled] ] ++
  if staged then
    let S := stateStaged in let N := statePending in
    [ [A; P; S]; [A; P; S; stateCancelled]; [A; P; S; N];
      [A; P; S; N; stateCommitted]; [A; P; S; N; stateFailed]; [A; P; S; N; stateCancelled] ]
  else [ [A; P; stateCommitted] ].

(** The stage flag a stream opened with; a refused request has none. *)
Definition stageFlag m : option bool :=
  match m with
  | TransferRequestAccepted a => Some (ta_Stage a)
  | ReversalRequestAccepted a => Some (ra_Stage a)
  | _ => None
  end.

Definition opened_with m evs : Prop :=
  ∃ e rest, evs = e :: rest ∧ recorded m e ∧ openingKind (kind_of m) = true ∧
    Forall (λ x, ∃ m', recorded m' x ∧ openingKind (kind_of m') = false) rest.

(** What every stream of the protocol is: empty, or opened once by a decided
    request, and then on one of the lifecycles of its stage flag. *)
Definition wf_transfer evs : Prop :=
  evs = [] ∨
  ∃ m, opened_with m evs ∧
    match stageFlag m with
    | Some b => stageRequested evs = Ok b ∧ outcomes evs ∈ lifecycles b
    | None => outcomes evs = []
    end.

Context {CL : CodecLaws C}.

Lemma stageRequested_head e rest rest' : stageRequested (e :: rest) = stageRequested (e :: rest').
Proof. done. Qed.

Lemma stageRequested_opened m e rest :
  recorded m e → openingKind (kind_of m) = true →
  match stageFlag m with
  | Some b => stageRequested (e :: rest) = Ok b
  | None => ∃ err, stageRequested (e :: rest) = Err err
  end.
Proof.
  intros He Hk. unfold stageRequested. rewrite (recorded_Decode _ _ He). simpl.
  destruct m; simpl in *; try discriminate Hk; eauto.
Qed.

(** A single outcome keeps a stream on its lifecycle: every lifecycle, and every
    transition of its last state, checked. *)
Lemma lifecycle_outcome b hist k st :
  hist ∈ lifecycles b →
  k ∈ transitionKinds (default stateUnknown (last hist)) →
  (k = KTransferStaged → b = true) →
  (k = KTransferCommitted → b = false ∨ default stateUnknown (last hist) = statePending) →
  stateOf k = Some st → hist ++ [st] ∈ lifecycles b.
Proof.
  intros Hin Hk HS HC Hst.
  assert (Hall : Forall (λ hist, Forall (λ k,
      (k = KTransferStaged → b = true) →
      (k = KTransferCommitted → b = false ∨ default stateUnknown (last hist) = statePending) →
      hist ++ option_list (stateOf k) ∈ lifecycles b)
    (transitionKinds (default stateUnknown (last hist)))) (lifecycles b)).
  { destruct b; decided. }
  rewrite Forall_forall in Hall. specialize (Hall _ Hin). rewrite Forall_forall in Hall.
  specialize (Hall _ Hk HS HC). by rewrite Hst in Hall.
Qed.

(** An accepted stream is prepared once. *)
Lemma lifecycle_prepare b hist :
  hist ∈ lifecycles b → default stateUnknown (last hist) = stateAccepted →
  hist ++ [statePrepared] ∈ lifecycles b.
Proof.
  intros Hin. revert hist Hin. apply (Forall_forall (λ hist, default stateUnknown (last hist) = stateAccepted →
    hist ++ [statePrepared] ∈ lifecycles b)). destruct b; decided.
Qed.

(** What a batch that is not an opening does to a stream already opened. *)
Lemma opened_with_app m evs ms batch :
  opened_with m evs → Forall2 recorded ms batch →
  Forall (λ m', openingKind (kind_of m') = false) ms → opened_with m (evs ++ batch).
Proof.
  intros (e & rest & -> & He & Hk & Hrest) Hr Hms. exists e, (rest ++ batch).
  split; [done|]. split; [done|]. split; [done|]. apply Forall_app. split; [done|].
  clear -Hr Hms. induction Hr as [|m' e' ms batch Hm _ IH]; [constructor|].
  apply Forall_cons in Hms as [? ?]. constructor; [by eauto | by apply IH].
Qed.

Lemma transition_not_opening st k : k ∈ transitionKinds st → openingKind k = false.
Proof. revert k. apply Forall_forall. destruct st; simpl; by repeat constructor. Qed.

(** A step on a stream already opened by [m]. *)
Lemma wf_transfer_later m evs ms batch :
  opened_with m evs → tstep evs ms → Forall2 recorded ms batch →
  match stageFlag m with
  | Some b => stageRequested evs = Ok b ∧ outcomes evs ∈ lifecycles b
  | None => outcomes evs = []
  end →
  opened_with m (evs ++ batch) ∧
  match stageFlag m with
  | Some b => stageRequested (evs ++ batch) = Ok b ∧ outcomes (evs ++ batch) ∈ lifecycles b
  | None => outcomes (evs ++ batch) = []
  end.
Proof.
  intros Hopen Hstep Hr Hwf. rewrite (outcomes_app _ _ _ Hr).
  assert (Hreq : stageRequested (evs ++ batch) = stageRequested evs).
  { by destruct Hopen as (e & rest & -> & _). }
  rewrite Hreq. pose proof (currentState_outcomes evs) as Hcur.
  assert (Hms : Forall (λ m', openingKind (kind_of m') = false) ms ∧
    match stageFlag m with
    | Some b => outcomes evs ++ omap (λ m, stateOf (kind_of m)) ms ∈ lifecycles b
    | None => outcomes evs ++ omap (λ m, stateOf (kind_of m)) ms = []
    end).
  2: { destruct Hms as [Hms Hout]. split; [by eapply opened_with_app|]. destruct (stageFlag m); [|done].
       destruct Hwf. by split. }
  destruct Hstep as [m' -> Hk|id legs b Hst _|m' Hk _ Hcl|m' Ht Hall|m' _ Hk].
  - by destruct Hopen as (? & ? & ? & _).
  - split; [by destruct b; repeat constructor|]. destruct (claimMarker_kind id b) as [_ Hn].
    csimpl. rewrite Hn. destruct (stageFlag m) as [b0|].
    + destruct Hwf as [_ Hin]. apply lifecycle_prepare; [done | congruence].
    + rewrite Hwf in Hcur. simpl in Hcur. congruence.
  - assert (Hs := marker_no_state _ Hk). split; [constructor; [by destruct (kind_of m')|done]|].
    csimpl. rewrite Hs, app_nil_r. destruct (stageFlag m); [by destruct Hwf | done].
  - apply transitions_kind in Ht. split; [constructor; [by eapply transition_not_opening|done]|].
    destruct (transitions_forward _ _ (proj2 (transitions_kind _ _) Ht)) as (st' & Hs & _).
    csimpl. rewrite Hs. destruct (stageFlag m) as [b|].
    + destruct Hwf as [Hreq0 Hin]. rewrite Hcur in Ht. eapply lifecycle_outcome; [done|exact Ht| | |exact Hs].
      * intros Hk. unfold outcomeAllowed in Hall. rewrite Hk, Hreq0 in Hall. congruence.
      * intros Hk. unfold outcomeAllowed in Hall. rewrite Hk, Hreq0, Hcur in Hall. destruct Hall; [left; congruence | by right].
    + rewrite Hwf in Hcur. simpl in Hcur. rewrite Hcur in Ht. simpl in Ht. by apply elem_of_nil in Ht.
  - destruct (response_no_state _ Hk) as [Hs _]. split; [constructor; [by destruct (kind_of m')|done]|].
    csimpl. rewrite Hs, app_nil_r. destruct (stageFlag m); [by destruct Hwf | done].
Qed.

(** The step that opens a stream. *)
Lemma wf_transfer_open ms batch :
  tstep [] ms → Forall2 recorded ms batch → wf_transfer batch.
Proof.
  intros Hstep Hr.
  assert (∃ m, ms = [m] ∧ openingKind (kind_of m) = true) as (m & -> & Hk).
  { remember [] as evs eqn:Hnil. destruct Hstep as [m _ Hk|id legs b Hst _|m Hk _ Hcl|m Ht _|m Hne _];
      [by eauto|exfalso..]; subst evs; [done| | |done].
    - unfold claimable in Hcl. destruct (kind_of m); try done; intuition discriminate.
    - change (currentState []) with stateUnknown in Ht. by apply elem_of_nil in Ht. }
  apply Forall2_cons_inv_l in Hr as (e & ? & He & ->%Forall2_nil_inv_l & ->).
  right. exists m. split; [by exists e, [] |].
  pose proof (stageRequested_opened m e [] He Hk) as Hreq.
  pose proof (outcomes_app [] _ _ (recorded_one _ _ He)) as Hout. simpl app in Hout. rewrite Hout.
  clear Hout He. destruct m; try discriminate Hk; simpl in *.
  - split; [exact Hreq|]. destruct (ta_Stage _); left.
  - done.
  - split; [exact Hreq|]. destruct (ra_Stage _); left.
  - done.
Qed.

Lemma tgrow_wf evs evs' : tgrow evs evs' → wf_transfer evs → wf_transfer evs'.
Proof.
  intros [evs0 ms batch Hr Hstep] [->|(m & Hopen & Hwf)].
  - simpl. by eapply wf_transfer_open.
  - right. exists m. by eapply wf_transfer_later.
Qed.

Lemma treach_wf evs : treach evs → wf_transfer evs.
Proof.
  intros Hr. assert (Hwf : wf_transfer []) by by left. revert Hr Hwf. unfold treach. generalize (@nil Event).
  induction 1 as [|x y z Hstep _ IH]; [done|]. intros Hx. apply IH. by eapply tgrow_wf.
Qed.
End stream.
