(* ===== verification/TransferSafety.v ===== *)
(** * Every handler keeps to the lifecycle

    The Wallet, Token and Transfer services, under any interleaving, any fault
    and any ledger: each append one of their programs makes is a legal step of
    the stream it lands on. The interface to the protocol of the whole system
    is the class [TransferProtocol]: what these three aggregates require of it,
    and nothing of the others. *)

From S2P Require Import Prelude Proto EventStore Ledger Effects Validate Safety Wallet Token.
From S2P Require Import TransferState TransferManifest TransferSaga TransferServer TransferLegal.

(** ** Legal appends to Wallet and Token streams *)

Section steps.
Context {C : Codec} {L : LedgerClient}.

Definition isMintedForWallet (m : message) : bool :=
  match m with TokenMintedForWallet _ => true | _ => false end.

(** A Wallet is opened once; after that only Tokens are listed on it. *)
Definition wstep (evs : list Event) (ms : list message) : Prop :=
  (evs = [] ∧ ∃ m, ms = [WalletOpened m]) ∨
  ((∃ opened, Wallet.openedIn evs = Ok (Some opened)) ∧ Forall (λ m, isMintedForWallet m = true) ms).

(** A Token is minted once; after that only balances are recorded on it, and
    never the one it already ends with. *)
Definition tokstep (evs : list Event) (ms : list message) : Prop :=
  (evs = [] ∧ ∃ m, ms = [TokenMinted m]) ∨
  (∃ st b, Token.tokenStreamOf evs = Ok st ∧ Token.ts_last st ≠ Some b ∧ ms = [TokenBalanceRecorded b]).

(** What the three aggregates need of the system's protocol. *)
Class TransferProtocol (legal : World → string → list Event → list message → Prop) : Prop := {
  legal_transfer w id evs ms : legal w (streamKey TransferAggregateType id) evs ms ↔ tstep evs ms;
  legal_token w id evs ms : legal w (streamKey Token.AggregateType id) evs ms ↔ tokstep evs ms;
  legal_wallet w id evs ms : legal w (streamKey Wallet.AggregateType id) evs ms ↔ wstep evs ms
}.
End steps.

Section safety.
Context {C : Codec} {U : UuidPackage} {S256 : Sha256} {L : LedgerClient}.
Context (legal : World → string → list Event → list message → Prop) {TP : TransferProtocol legal}.
Notation safeM := (safeM legal).
Notation conforms := (conforms legal).
Notation rely := (rely legal).

(** ** Wallets *)

Lemma Opened_conforms id : conforms (Wallet.Opened id).
Proof. unfold Wallet.Opened. conform. Qed.

Lemma Open_conforms req : conforms (Wallet.Open req).
Proof.
  unfold Wallet.Open. apply conforms_bind; [conform|]. intros _.
  apply conforms_bind; [apply Opened_conforms|]. intros [existing|]; [conform|].
  intros w. apply safeM_try, safe_append.
  - apply good_new. intros w' _. apply legal_wallet. left. eauto.
  - intros r w' _. apply conforms_safeM. destruct r; [conform|].
    destruct (Is _ _); conform. apply Opened_conforms.
Qed.

(** A checker the Wallet is handed. *)
Definition checker_ok (isOpen : Wallet.TransactionOpenChecker) : Prop :=
  ∀ checker id, isOpen = Some checker → conforms (checker id).

Lemma visibleIn_conforms calling isOpen events visible :
  checker_ok isOpen → conforms (Wallet.visibleIn calling isOpen events visible).
Proof.
  intros Hok. revert visible. induction events as [|e events IH]; intros visible; simpl; [conform|].
  apply conforms_bind; [conform|]. intros []; try apply IH.
  destruct isOpen as [checker|]; [|apply IH]. destruct (_ || _); [apply IH|].
  apply conforms_bind; [by apply Hok|]. intros []; apply IH.
Qed.

Lemma TokensOfVisibleTo_conforms wid calling isOpen :
  checker_ok isOpen → conforms (Wallet.TokensOfVisibleTo wid calling isOpen).
Proof. intros Hok. unfold Wallet.TokensOfVisibleTo. conform. by apply visibleIn_conforms. Qed.

(** ** Tokens *)

Lemma Minted_conforms id : conforms (Token.Minted id).
Proof. unfold Token.Minted. conform. Qed.

(** The writes of a mint are legal where they can land: new Token streams, and
    the Wallet's own, which the loaded events show was opened. *)
Lemma MintWrites_safe walletID evs specs tx w :
  seen Wallet.AggregateType walletID evs w →
  safeM (Token.MintWrites walletID evs specs tx)
    (λ out w', ∀ ws, out = inl ws → Forall (λ sw, good legal sw w') ws) w.
Proof.
  intros Hseen. unfold Token.MintWrites. destruct evs as [|e rest]; [by apply safeM_ret|].
  eapply safeM_bind_ok; [apply safeM_lift; intros msg w' Hd _; exact Hd|].
  intros msg w1 Hr1 Hd. destruct msg; try apply safeM_fail.
  eapply safeM_bind_any; [conform|]. intros flags w2 Hr2.
  eapply safeM_bind_any; [conform|]. intros results w3 Hr3.
  eapply safeM_bind_any; [conform|]. intros [rej|] w4 Hr4; [by apply safeM_ret|].
  apply safeM_ret. intros w5 Hr5 ws [= <-]. unfold Token.mintStreamWrites. apply Forall_app. split.
  - apply Forall_fmap, Forall_forall. intros spec _. apply good_new. intros w' _. apply legal_token. left. unfold Token.mintedMessage. eauto.
  - constructor; [|constructor]. apply (good_seen legal _ _ (e :: rest)).
    + eapply (seen_stable legal); [|exact Hseen]. do 4 (etrans; [eassumption|]). done.
    + intros w' _. apply legal_wallet. right. split.
      * exists m. unfold Wallet.openedIn. by rewrite Hd.
      * apply Forall_fmap, Forall_forall. by intros.
Qed.

Lemma mintAttempts_conforms n req : conforms (Token.mintAttempts n req).
Proof.
  induction n as [|n IH]; simpl; [conform|]. intros w.
  eapply safeM_bind_ok; [apply safeM_mapErr, safeM_load|]. intros evs w1 _ Hseen.
  eapply safeM_bind_ok; [by apply MintWrites_safe|]. intros [ws|rej] w2 _ Hgood; [|by apply safeM_ret].
  apply safeM_try, safe_appendAtomic; [by apply Hgood|]. intros r w3 _. apply conforms_safeM.
  destruct r; [conform|]. destruct (Is _ _); [|conform].
  apply conforms_bind; [apply Minted_conforms|]. intros [|]; [conform | apply IH].
Qed.

Lemma Mint_conforms req : conforms (Token.Mint req).
Proof.
  unfold Token.Mint. do 3 (apply conforms_bind; [conform|]; intros _).
  apply conforms_bind; [apply Minted_conforms|]. intros [|]; [conform | apply mintAttempts_conforms].
Qed.

(** A Token's stream as it was loaded: the position is its length. *)
Definition observed (id : string) (st : Token.tokenStream) (w : World) : Prop :=
  ∃ evs, seen Token.AggregateType id evs w ∧ Token.tokenStreamOf evs = Ok st ∧ Token.ts_seq st = len evs.

Lemma observed_stable id st : stable legal (observed id st).
Proof. intros w w' Hr (evs & Hs & ?). exists evs. split; [by eapply (seen_stable legal) | done]. Qed.

Lemma tokenStreamOf_seq evs st : Token.tokenStreamOf evs = Ok st → Token.ts_seq st = len evs.
Proof.
  unfold Token.tokenStreamOf. destruct evs as [|e0 rest]; [done|]. remember (e0 :: rest) as evs eqn:He. clear He.
  destruct (rfold _ _ _) as [st'|] eqn:Hf; [|done]. cbn [rbind]. case_bool_decide; [done|]. intros [= <-].
  eapply (rfold_invariant _ (λ t, Token.ts_seq t = len evs)) in Hf; [exact Hf| |done].
  intros a b a' _ Ha. unfold Token.foldToken. destruct (rmap_err _ _) as [m|]; [|done]. cbn [rbind].
  destruct m; intros [= <-]; exact Ha.
Qed.

Lemma loadTokenStream_safe id w : safeM (Token.loadTokenStream id) (observed id) w.
Proof.
  unfold Token.loadTokenStream. eapply safeM_bind_ok; [apply safeM_mapErr, safeM_load|]. intros evs w1 _ Hseen.
  apply safeM_lift. intros st w2 Hst Hr. exists evs. split; [by eapply (seen_stable legal)|].
  split; [done | by apply tokenStreamOf_seq].
Qed.

Lemma loadTokenStream_conforms id : conforms (Token.loadTokenStream id).
Proof. intros w. eapply safeM_mono; [apply loadTokenStream_safe | done]. Qed.

Lemma good_balance id st b w :
  observed id st w → Token.ts_last st ≠ Some b →
  good legal (mkStreamWrite Token.AggregateType id (Token.ts_seq st) [TokenBalanceRecorded b]) w.
Proof.
  intros (evs & Hseen & Hst & ->) Hne. apply good_seen; [done|]. intros w' _. apply legal_token. right. eauto.
Qed.

Lemma observe_safe ids w :
  safeM (Token.observe ids) (λ out w', Forall (λ x, observed (fst x) (snd x) w') (fst out)) w.
Proof.
  unfold Token.observe. eapply safeM_bind_ok.
  { apply (safeM_mapM legal _ (λ id x w', fst x = id ∧ observed (fst x) (snd x) w')).
    - intros x y w0 w1 Hr [? Ho]. split; [done | by eapply observed_stable].
    - intros id w1 _ _. eapply safeM_bind_ok; [apply loadTokenStream_safe|]. intros st w2 _ Ho.
      apply safeM_ret. intros w3 Hr3. split; [done | by eapply observed_stable]. }
  intros streams w1 _ Hall. eapply safeM_bind_any; [unfold Token.readBalances; conform|]. intros bals w2 Hr2.
  apply safeM_ret. intros w3 Hr3. simpl. clear -Hall Hr2 Hr3.
  induction Hall as [|id x ids0 xs [_ Ho] _ IH]; constructor; [|done].
  eapply observed_stable; [|exact Ho]. by etrans.
Qed.

Lemma balanceWritesOf_good bals xs ws w :
  Forall (λ x, observed (fst x) (snd x) w) xs → Token.balanceWritesOf bals xs = Ok ws →
  Forall (λ sw, good legal sw w) ws.
Proof.
  intros Hall. revert ws. induction Hall as [|[id st] xs Ho _ IH]; intros ws; simpl.
  { intros [= <-]. constructor. }
  unfold Token.balanceWrite. destruct (Token.balanceRecorded _ _ _) as [b|]; [|done]. cbn [rbind fst snd] in *.
  case_bool_decide as Hlast; cbn [rbind];
    (destruct (Token.balanceWritesOf bals xs) as [ws'|]; [|done]); cbn [rbind]; intros [= <-]; simpl; [by apply IH|].
  constructor; [by apply good_balance | by apply IH].
Qed.

Lemma BalanceWrites_safe ids w :
  safeM (Token.BalanceWrites ids) (λ ws w', Forall (λ sw, good legal sw w') ws) w.
Proof.
  unfold Token.BalanceWrites. eapply safeM_bind_ok; [apply observe_safe|]. intros [streams bals] w1 _ Hall.
  apply safeM_lift. intros ws w2 Hws Hr. eapply balanceWritesOf_good; [|exact Hws].
  eapply Forall_impl; [exact Hall|]. intros x. by apply observed_stable.
Qed.

Lemma recordBalance_safe n attempt id st bals w :
  observed id st w → safeM (Token.recordBalance n attempt id st bals) (λ _ _, True) w.
Proof.
  revert attempt st bals w. induction n as [|n IH]; intros attempt st bals w Ho; simpl; [apply safeM_fail|].
  eapply safeM_bind_any; [conform|]. intros b w1 Hr1.
  assert (Ho1 : observed id st w1) by by eapply observed_stable.
  case_bool_decide as Hlast; [by apply safeM_ret|].
  apply safeM_try, safe_append; [by apply good_balance|]. intros r w2 _. destruct r; [by apply safeM_ret|].
  destruct (negb _); [apply safeM_fail|].
  eapply safeM_bind_any; [conform|]. intros _ w3 _.
  eapply safeM_bind_ok; [apply loadTokenStream_safe|]. intros next w4 _ Hnext.
  destruct (_ =? _); [apply safeM_fail|].
  eapply safeM_bind_any; [unfold Token.readBalances; conform|]. intros bals' w5 Hr5.
  apply IH. by eapply observed_stable.
Qed.

Lemma RecordBalances_conforms n ids : conforms (Token.RecordBalances n ids).
Proof.
  intros w. unfold Token.RecordBalances. eapply safeM_bind_ok; [apply observe_safe|].
  intros [streams bals] w1 _ Hall. apply safeM_mapM_. intros [id st] w2 Hin Hr. apply recordBalance_safe.
  rewrite Forall_forall in Hall. eapply observed_stable; [exact Hr|]. by apply (Hall _ Hin).
Qed.

(** ** The Transfer's own stream under interference *)

Notation tstream w id := (stream w TransferAggregateType id).

Lemma rely_tgrow w w' id : rely w w' → rtc tgrow (tstream w id) (tstream w' id).
Proof.
  induction 1 as [|w1 w2 w3 Hg _ IH]; [done|]. etrans; [|exact IH].
  destruct (Hg (streamKey TransferAggregateType id)) as [Heq|(ms & b & Heq & Hr & Hl)];
    unfold stream; rewrite Heq; [done|].
  apply rtc_once. constructor 1 with ms; [done|]. by apply legal_transfer in Hl.
Qed.

(** The stage flag is the opening event's, so it never changes once read. *)
Definition staged_is (id : string) (b : bool) (w : World) : Prop := stageRequested (tstream w id) = Ok b.

Lemma stageRequested_prefix evs evs' b :
  evs `prefix_of` evs' → stageRequested evs = Ok b → stageRequested evs' = Ok b.
Proof. intros [k ->]. by destruct evs. Qed.

Lemma staged_is_stable id b : stable legal (staged_is id b).
Proof. intros w w' Hr. apply stageRequested_prefix. by apply (rely_prefix legal). Qed.

Definition at_least (id : string) (st : transferState) (w : World) : Prop :=
  (rank st ≤ rank (currentState (tstream w id)))%nat.

Lemma at_least_stable id st : stable legal (at_least id st).
Proof. intros w w' Hr Hle. pose proof (tgrow_rank _ _ (rely_tgrow _ _ id Hr)). unfold at_least in *. lia. Qed.

(** What the moment a stream was loaded says about it now. *)
Definition loaded (id : string) (evs : list Event) (w w' : World) : Prop :=
  ∃ w0, rely w w0 ∧ rely w0 w' ∧ evs = tstream w0 id.

Lemma loaded_seen id evs w w' : loaded id evs w w' → seen TransferAggregateType id evs w'.
Proof. intros (w0 & _ & Hr & ->). unfold seen. by apply (rely_prefix legal). Qed.

Lemma loaded_later id evs w w1 w2 : rely w1 w2 → loaded id evs w w1 → loaded id evs w w2.
Proof. intros Hr (w0 & ? & ? & ?). exists w0. split; [done|]. split; [by etrans | done]. Qed.

Lemma loaded_at (P : World → Prop) id evs w w' :
  stable legal P → loaded id evs w w' → P w → ∃ w0, P w0 ∧ evs = tstream w0 id ∧ rely w0 w'.
Proof. intros HP (w0 & H1 & H2 & ->) Hw. exists w0. split; [by eapply HP | done]. Qed.

Lemma loadTransfer_safe id w : safeM (loadTransfer id) (λ evs w', loaded id evs w w') w.
Proof. apply safeM_mapErr, safeM_load_at. Qed.

Lemma loadTransfer_conforms id : conforms (loadTransfer id).
Proof. intros w. eapply safeM_mono; [apply loadTransfer_safe | done]. Qed.

(** An append at the position a stream was loaded at. *)
Lemma good_loaded id evs ms w w' :
  loaded id evs w w' → tstep evs ms →
  good legal (mkStreamWrite TransferAggregateType id (len evs) ms) w'.
Proof. intros Hl Hs. apply good_seen; [by eapply loaded_seen|]. intros w2 _. by apply legal_transfer. Qed.

Lemma tryAppend_safe id n m w :
  good legal (mkStreamWrite TransferAggregateType id n [m]) w →
  safeM (tryAppend id n m) (λ _ _, True) w.
Proof.
  intros Hg. apply safeM_try, safe_append; [done|]. intros r w' _. apply conforms_safeM. conform.
Qed.

(** ** Claims *)

Lemma awaitUnclaimed_safe fuel id st next w :
  safeM (awaitUnclaimed fuel id st next)
    (λ out w', ∀ evs, out = Some evs →
       loaded id evs w w' ∧ currentState evs = st ∧ unclaimedFor evs next) w.
Proof.
  unfold awaitUnclaimed. generalize fuel at 1. intros n. revert w.
  induction n as [|n IH]; intros w; simpl; [apply safeM_fail|].
  eapply safeM_bind_ok; [apply loadTransfer_safe|]. intros evs w1 Hr1 Hl.
  case_bool_decide as Hst; simpl; [|by apply safeM_ret].
  destruct (liveMarker evs) as [live|] eqn:Hlive.
  - eapply safeM_bind_any; [conform|]. intros now w2 Hr2. destruct (_ <=? _).
    + case_bool_decide as Hty; simpl; [|apply safeM_fail].
      apply safeM_ret. intros w3 Hr3 ? [= <-]. split; [by do 2 (eapply loaded_later; [eassumption|])|].
      split; [done|]. intros l Hl'. by simplify_eq.
    + eapply safeM_bind_any; [conform|]. intros _ w3 Hr3. eapply safeM_mono; [apply IH|].
      intros out w4 Hr4 Hout evs' Heq. destruct (Hout evs' Heq) as ((w0 & H0 & H0' & ->) & ? & ?).
      split; [|done]. exists w0. split; [|done]. do 3 (etrans; [eassumption|]). done.
  - apply safeM_ret. intros w2 Hr2 ? [= <-]. split; [by eapply loaded_later|].
    split; [done|]. intros l Hl'. by simplify_eq.
Qed.

Lemma awaitUnclaimed_conforms fuel id st next : conforms (awaitUnclaimed fuel id st next).
Proof. intros w. eapply safeM_mono; [apply awaitUnclaimed_safe | done]. Qed.

(** A claim needs only that its marker guards this state. *)
Lemma claimForDispatch_safe fuel id st marker w :
  markerKind (kind_of marker) = true →
  (∀ w', rely w w' → currentState (tstream w' id) = st → claimable (tstream w' id) marker) →
  safeM (claimForDispatch fuel id st marker) (λ _ _, True) w.
Proof.
  intros Hk. unfold claimForDispatch. generalize fuel at 2. intros n. revert w.
  induction n as [|n IH]; intros w Hc; simpl; [apply safeM_fail|].
  eapply safeM_bind_ok; [apply awaitUnclaimed_safe|]. intros [evs|] w1 Hr1 Hout; [|by apply safeM_ret].
  destruct (Hout evs eq_refl) as (Hl & Hst & Hun).
  eapply safeM_bind_ok.
  { apply safeM_mapErr, safeM_claim. eapply good_loaded; [exact Hl|]. apply t_claim; [done|done|].
    destruct Hl as (w0 & H0 & _ & ->). by apply Hc. }
  intros [] w2 Hr2 _; [by apply safeM_ret|]. apply IH. intros w' Hr'. apply Hc.
  etrans; [exact Hr1|]. by etrans.
Qed.

Lemma stillHoldsClaim_conforms id seq : conforms (stillHoldsClaim id seq).
Proof. unfold stillHoldsClaim. apply conforms_bind; [apply loadTransfer_conforms|]. conform. Qed.

Lemma requireClaim_conforms id seq : conforms (requireClaim id seq).
Proof. unfold requireClaim. apply conforms_bind; [apply stillHoldsClaim_conforms|]. conform. Qed.

Lemma whileClaimed_safe {A} id seq (done_ : A) k w :
  (∀ w', rely w w' → safeM k (λ _ _, True) w') → safeM (whileClaimed id seq done_ k) (λ _ _, True) w.
Proof.
  intros Hk. eapply safeM_try_ok; [apply requireClaim_conforms| |].
  - intros _ w' Hr _. by apply Hk.
  - intros e w' _. apply conforms_safeM. conform.
Qed.

(** ** Recording outcomes *)

Lemma overtaken_conforms ws : conforms (overtaken ws).
Proof. induction ws as [|sw ws IH]; simpl; conform. Qed.

(** The outcome is allowed wherever the lifecycle lets it be next. *)
Definition allowed (id : string) (m : message) (w : World) : Prop :=
  ∀ w', rely w w' → EventType m ∈ transitions (currentState (tstream w' id)) → outcomeAllowed (tstream w' id) m.

Lemma allowed_stable id m : stable legal (allowed id m).
Proof. intros w w' Hr Ha w2 Hr2. apply Ha. by etrans. Qed.

Lemma allowed_plain id m w :
  match kind_of m with KTransferStaged | KTransferCommitted | KPreparedTransferCancelled => false | _ => true end = true →
  allowed id m w.
Proof. intros Hk w' _ _. unfold outcomeAllowed. by destruct (kind_of m). Qed.

Lemma recordOutcome_safe fuel id m legs w :
  allowed id m w → safeM (recordOutcome fuel id m legs) (λ _ _, True) w.
Proof.
  unfold recordOutcome. generalize 0%nat. revert w.
  induction fuel as [|n IH]; intros w attempt Ha; simpl; [apply safeM_fail|].
  eapply safeM_bind_ok; [apply loadTransfer_safe|]. intros evs w1 Hr1 Hl.
  case_bool_decide; [by apply safeM_ret|]. case_bool_decide as Htr; simpl; [|apply safeM_fail].
  eapply safeM_bind_ok; [apply BalanceWrites_safe|]. intros bw w2 Hr2 Hbw.
  apply safeM_try, safe_appendAtomic.
  - apply Forall_app. split; [done|]. constructor; [|constructor].
    eapply good_loaded; [eapply loaded_later; [exact Hr2 | exact Hl]|]. apply t_outcome; [done|].
    destruct Hl as (w0 & H0 & _ & ->). by apply Ha.
  - intros r w3 Hr3. destruct r; [by apply safeM_ret|]. destruct (negb _); [apply safeM_fail|].
    eapply safeM_bind_any; [apply overtaken_conforms|]. intros [] w4 Hr4; simpl; [|apply safeM_fail].
    eapply safeM_bind_any; [conform|]. intros _ w5 Hr5. apply IH.
    eapply allowed_stable; [|exact Ha]. do 4 (etrans; [eassumption|]). done.
Qed.

Lemma appendSagaStep_conforms fuel id m :
  match kind_of m with KTransferStaged | KTransferCommitted | KPreparedTransferCancelled => false | _ => true end = true →
  conforms (appendSagaStep fuel id m).
Proof. intros Hk w. by apply recordOutcome_safe, allowed_plain. Qed.

Lemma compensate_conforms fuel id seq reason : conforms (compensate fuel id seq reason).
Proof.
  unfold compensate. apply conforms_bind; [apply requireClaim_conforms|]. intros _. by apply appendSagaStep_conforms.
Qed.

(** ** Moving money *)

Lemma submitChains_conforms fuel batch onReject c todo :
  (∀ r, conforms (onReject r)) → conforms (submitChains fuel batch onReject c todo).
Proof.
  intros Hon. revert c. induction todo as [|ch todo IH]; intros c; simpl; [conform|].
  apply conforms_bind; [unfold submitChain; conform|]. intros [r|]; [|apply IH].
  apply conforms_bind; [destruct (_ <? _); [apply RecordBalances_conforms | conform]|]. intros _.
  apply conforms_bind; [apply Hon|]. conform.
Qed.

Lemma submitBatch_conforms fuel batch onReject :
  (∀ r, conforms (onReject r)) → conforms (submitBatch fuel batch onReject).
Proof. apply submitChains_conforms. Qed.

Lemma stageClaimed_safe fuel id seq legs w :
  staged_is id true w → safeM (stageClaimed fuel id seq legs) (λ _ _, True) w.
Proof.
  intros Hst. apply whileClaimed_safe. intros w1 Hr1. eapply safeM_try_ok.
  - apply submitBatch_conforms. intros r. apply compensate_conforms.
  - intros _ w2 Hr2 _. apply whileClaimed_safe. intros w3 Hr3. apply recordOutcome_safe.
    intros w4 Hr4 _. simpl. eapply staged_is_stable; [|exact Hst]. do 4 (etrans; [eassumption|]). done.
  - intros e w2 _. apply conforms_safeM. conform.
Qed.

Lemma settle_conforms fuel id seq batch : conforms (settle fuel id seq batch).
Proof.
  unfold settle. apply conforms_try; [|conform]. apply submitBatch_conforms. intros r.
  destruct (_ <? _); [conform | apply compensate_conforms].
Qed.

Lemma moveMoney_conforms fuel id seq legs posting : conforms (moveMoney fuel id seq legs posting).
Proof.
  unfold moveMoney. destruct posting; [apply settle_conforms|]. destruct (_ <=? _); [apply settle_conforms|].
  apply conforms_try.
  - apply submitBatch_conforms. intros r. apply compensate_conforms.
  - intros [[]|e]; [|conform]. intros w. apply whileClaimed_safe. intros w' _. apply settle_conforms.
Qed.

(** A commit is due once staging was not asked for, or has been confirmed. *)
Definition commit_due (id : string) (w : World) : Prop := staged_is id false w ∨ at_least id statePending w.

Lemma commit_due_stable id : stable legal (commit_due id).
Proof. intros w w' Hr [H|H]; [left; by eapply staged_is_stable | right; by eapply at_least_stable]. Qed.

Lemma commit_due_allowed id dests w : commit_due id w → allowed id (TransferCommitted id dests) w.
Proof.
  intros Hd w' Hr Ht. simpl. destruct (commit_due_stable _ _ _ Hr Hd) as [Hs|Hr']; [by left | right].
  unfold at_least in Hr'. apply transitions_kind in Ht. simpl in Ht.
  destruct (currentState (tstream w' id)); simpl in *; try lia; done || by apply elem_of_nil in Ht.
Qed.

Lemma commitClaimed_safe fuel id seq legs posting w :
  commit_due id w → safeM (commitClaimed fuel id seq legs posting) (λ _ _, True) w.
Proof.
  intros Hd. apply whileClaimed_safe. intros w1 Hr1.
  eapply safeM_bind_any; [apply moveMoney_conforms|]. intros [] w2 Hr2; [by apply safeM_ret|].
  apply whileClaimed_safe. intros w3 Hr3. apply recordOutcome_safe, commit_due_allowed.
  eapply commit_due_stable; [|exact Hd]. do 3 (etrans; [eassumption|]). done.
Qed.

Lemma loadLegs_conforms id : conforms (loadLegs id).
Proof. unfold loadLegs. apply conforms_bind; [apply loadTransfer_conforms|]. conform. Qed.

Lemma stage_safe fuel id w : staged_is id true w → safeM (stage fuel id) (λ _ _, True) w.
Proof.
  intros Hst. unfold stage. eapply safeM_bind_any; [apply loadLegs_conforms|]. intros [legs st] w1 Hr1.
  eapply safeM_bind_ok; [apply claimForDispatch_safe; [done|]|].
  - intros w' Hr' Hcur. split; [done|]. eapply staged_is_stable; [|exact Hst]. by etrans.
  - intros [seq|] w2 Hr2 _; [|by apply safeM_ret]. apply stageClaimed_safe.
    eapply staged_is_stable; [|exact Hst]. by etrans.
Qed.

Lemma commit_safe fuel id w : commit_due id w → safeM (commit fuel id) (λ _ _, True) w.
Proof.
  intros Hd. unfold commit. eapply safeM_bind_any; [apply loadTransfer_conforms|]. intros evs w1 Hr1.
  eapply safeM_bind_any; [conform|]. intros legs w2 Hr2. destruct (_ && _) eqn:Hpre; [by apply safeM_ret|].
  assert (Hd2 : commit_due id w2) by (eapply commit_due_stable; [|exact Hd]; by etrans).
  eapply safeM_bind_ok; [apply claimForDispatch_safe; [done|]|].
  - intros w' Hr' Hcur. unfold claimable; simpl. rewrite Hcur.
    destruct (commit_due_stable _ _ _ Hr' Hd2) as [Hs|Hle].
    + destruct (currentState evs); try discriminate Hpre; [by left | by right].
    + right. unfold at_least in Hle. rewrite Hcur in Hle.
      destruct (currentState evs); try discriminate Hpre; [simpl in Hle; lia | done].
  - intros [seq|] w3 Hr3 _; [|by apply safeM_ret]. apply commitClaimed_safe. by eapply commit_due_stable.
Qed.

(** ** Cancelling *)

Lemma cancelStaged_conforms fuel id reason : conforms (cancelStaged fuel id reason).
Proof.
  intros w. unfold cancelStaged. eapply safeM_bind_any; [apply loadLegs_conforms|]. intros [legs st] w1 Hr1.
  destruct (_ && _) eqn:Hpre; [by apply safeM_ret|].
  eapply safeM_bind_ok; [apply claimForDispatch_safe; [done|]|].
  - intros w' _ Hcur. unfold claimable; simpl. rewrite Hcur. destruct st; try discriminate Hpre; auto.
  - intros [seq|] w2 Hr2 _; [|by apply safeM_ret]. apply whileClaimed_safe. intros w3 _.
    eapply safeM_bind_any; [apply submitBatch_conforms; conform|]. intros _ w4 _.
    apply whileClaimed_safe. intros w5 _. by apply recordOutcome_safe, allowed_plain.
Qed.

Lemma cancelPreparedLoop_conforms fuel n id reason :
  conforms (cancelPreparedLoop fuel n id (PreparedTransferCancelled id reason)).
Proof.
  induction n as [|n IH]; intros w; simpl; [apply safeM_fail|].
  eapply safeM_bind_ok; [apply awaitUnclaimed_safe|]. intros [evs|] w1 Hr1 Hout; [|by apply safeM_ret].
  destruct (Hout evs eq_refl) as (Hl & Hst & Hun).
  eapply safeM_bind_ok; [|intros [] w2 Hr2 _; [by apply safeM_ret | apply IH]].
  apply tryAppend_safe. eapply good_loaded; [exact Hl|]. apply t_outcome.
  - rewrite Hst. apply transitions_kind. decided.
  - simpl. unfold outcomeAllowed; simpl. destruct (liveMarker evs) as [live|] eqn:Hlive; [|done].
    pose proof (Hun live Hlive) as Hty. apply liveMarker_spec in Hlive as (l1 & l2 & _ & Hmk & _).
    rewrite Hty in Hmk. unfold EventType in Hmk. by rewrite isClaimMarkerType_kind in Hmk.
Qed.

Lemma cancelPrepared_conforms fuel id reason : conforms (cancelPrepared fuel id reason).
Proof.
  intros w. unfold cancelPrepared. eapply safeM_bind_ok; [apply loadTransfer_safe|]. intros evs w1 Hr1 Hl.
  destruct evs as [|e evs]; [apply safeM_fail|]. destruct (currentState (e :: evs)) eqn:Hst;
    try (by apply safeM_ret); try apply safeM_fail; [|apply cancelPreparedLoop_conforms].
  eapply safeM_bind_ok; [|intros; by apply safeM_ret]. apply tryAppend_safe.
  eapply (good_loaded _ (e :: evs)); [exact Hl|]. apply t_outcome; [|done]. rewrite Hst. apply transitions_kind. decided.
Qed.

(** ** Preparing *)

Definition server_ok (s : Server) : Prop :=
  checker_ok (isOpen s) ∧ ∀ checker id, transactionExists s = Some checker → conforms (checker id).

Lemma selectSourceTokens_conforms wid amount calling isOpen :
  checker_ok isOpen → conforms (selectSourceTokens wid amount calling isOpen).
Proof.
  intros Hok. unfold selectSourceTokens. apply conforms_bind; [by apply TokensOfVisibleTo_conforms|].
  intros ids. apply conforms_bind; [conform|]. intros bals. apply conforms_bind; [conform|]. intros []. conform.
Qed.

Lemma WouldAcceptTransfer_conforms isOpen wid amount calling :
  checker_ok isOpen → conforms (WouldAcceptTransfer isOpen wid amount calling).
Proof. intros Hok. unfold WouldAcceptTransfer. conform. by apply selectSourceTokens_conforms. Qed.

Lemma validateMintSource_conforms s tx wid :
  server_ok s → conforms (validateMintSource (transactionExists s) tx wid).
Proof.
  intros [_ Hok]. unfold validateMintSource. destruct (transactionExists s) as [checker|] eqn:Hs; [|conform].
  apply conforms_bind; [by apply (Hok checker)|]. intros []; simpl; [|conform].
  apply conforms_bind; [apply Opened_conforms|]. conform.
Qed.

Lemma mintInto_safe wid specs tx w :
  safeM (mintInto wid specs tx) (λ ws w', Forall (λ sw, good legal sw w') ws) w.
Proof.
  unfold mintInto. eapply safeM_bind_ok; [apply safeM_mapErr, safeM_load|]. intros evs w1 _ Hseen.
  eapply safeM_bind_ok; [by apply MintWrites_safe|]. intros [ws|rej] w2 _ Hgood; [|apply safeM_fail].
  apply safeM_ret. intros w3 Hr. eapply Forall_impl; [by apply Hgood|]. intros sw. by apply good_stable.
Qed.

Definition plan_good (out : (list Leg * list StreamWrite) + string) (w : World) : Prop :=
  ∀ legs ws, out = inl (legs, ws) → Forall (λ sw, good legal sw w) ws.

Lemma Forall_good_stable ws : stable legal (λ w, Forall (λ sw, good legal sw w) ws).
Proof. intros w w' Hr Hall. eapply Forall_impl; [exact Hall|]. intros sw. by apply good_stable. Qed.

Lemma planSource_safe s id a w : server_ok s → safeM (planSource s id a) plan_good w.
Proof.
  intros Hok. unfold planSource. destruct (ta_MintSource a).
  - eapply safeM_bind_any; [by apply validateMintSource_conforms|]. intros [|] w1 _; [apply safeM_fail|].
    eapply safeM_bind_ok; [apply mintInto_safe|]. intros ws w2 _ Hws. apply safeM_ret.
    intros w3 Hr legs ws' [= <- <-]. by eapply Forall_good_stable.
  - eapply safeM_bind_any; [apply selectSourceTokens_conforms, Hok|]. intros [legs|] w1 _; apply safeM_ret; intros w2 _ ??; intros [= <- <-]. constructor.
Qed.

Lemma plan_safe s id m w : server_ok s → safeM (plan s id m) plan_good w.
Proof.
  intros Hok. unfold plan. destruct m; try apply safeM_fail.
  - eapply safeM_bind_ok; [by apply planSource_safe|]. intros [[legs ws]|] w1 Hr1 Hp; [|by apply safeM_ret].
    eapply safeM_bind_ok; [apply mintInto_safe|]. intros ws2 w2 Hr2 Hws2. apply safeM_ret.
    intros w3 Hr3 legs' ws' [= <- <-]. apply Forall_app. split; [|by eapply Forall_good_stable].
    eapply Forall_good_stable; [|by eapply Hp]. by etrans.
  - unfold reversalManifest. eapply safeM_bind_any; [conform|]. intros [legs|] w1 _; [|apply safeM_fail].
    apply safeM_ret. intros w2 _ ?? [= <- <-]. constructor.
Qed.

Lemma tryPrepare_safe s id w :
  server_ok s →
  safeM (tryPrepare s id) (λ out w', ∀ next, out = Some next → staged_is id (cs_stage next) w') w.
Proof.
  intros Hok. unfold tryPrepare. eapply safeM_bind_ok; [apply loadTransfer_safe|]. intros evs w1 Hr1 Hl.
  destruct evs as [|e evs]; [apply safeM_fail|]. remember (e :: evs) as all eqn:Hall.
  case_bool_decide as Hst; simpl; [|by apply safeM_ret].
  eapply safeM_bind_any; [conform|]. intros msg w2 Hr2.
  eapply safeM_bind_ok; [by apply plan_safe|]. intros [[legs ws]|reason] w3 Hr3 Hp.
  - eapply safeM_bind_any; [unfold protoLeg; conform|]. intros plegs w4 Hr4.
    eapply safeM_bind_ok; [apply safeM_lift; intros b w' Hb _; exact Hb|]. intros b w5 Hr5 Hb.
    assert (Hl5 : loaded id all w w5) by (do 4 (eapply loaded_later; [eassumption|]); done).
    apply safeM_try, safe_appendAtomic.
    + apply Forall_app. split; [eapply Forall_good_stable; [|by eapply Hp]; by etrans|].
      constructor; [|constructor]. eapply good_loaded; [exact Hl5|]. by apply t_prepare.
    + intros r w6 Hr6. destruct r.
      * apply safeM_ret. intros w7 Hr7 next [= <-]. simpl.
        eapply stageRequested_prefix; [|exact Hb]. eapply loaded_seen. eapply loaded_later; [|exact Hl5]. by etrans.
      * destruct (Is _ _); [|apply safeM_fail]. eapply safeM_bind_any; [apply overtaken_conforms|].
        intros [] w7 _; apply safeM_fail.
  - eapply safeM_bind_done; [|intros _ w4 _; by apply safeM_ret].
    eapply safeM_bind_done; [|intros [] w4 _; [by apply safeM_ret | apply safeM_fail]].
    apply tryAppend_safe. eapply good_loaded; [do 2 (eapply loaded_later; [eassumption|]); exact Hl|].
    apply t_outcome; [|done]. rewrite Hst. apply transitions_kind. decided.
Qed.

Lemma prepare_safe s fuel id w :
  server_ok s →
  safeM (prepare s fuel id) (λ out w', ∀ next, out = Some next → staged_is id (cs_stage next) w') w.
Proof.
  intros Hok. unfold prepare. generalize 0%nat. revert w.
  induction fuel as [|n IH]; intros w attempt; simpl; [apply safeM_fail|].
  eapply safeM_try_ok; [by apply tryPrepare_safe| |].
  - intros out w1 _ Hout. apply safeM_ret. intros w2 Hr next Heq. eapply staged_is_stable; [exact Hr | by apply Hout].
  - intros e w1 _. destruct (Is _ _); [|apply safeM_fail]. eapply safeM_bind_any; [conform|]. intros _ w2 _. apply IH.
Qed.

(** ** Driving *)

Lemma dispatch_safe s fuel id evs w :
  server_ok s → seen TransferAggregateType id evs w → safeM (dispatch s fuel id evs) (λ _ _, True) w.
Proof.
  intros Hok Hseen. unfold dispatch. destruct (currentState evs); try (by apply safeM_ret); try apply safeM_fail.
  - eapply safeM_bind_ok; [by apply prepare_safe|]. intros [next|] w1 Hr1 Hst; [|by apply safeM_ret].
    specialize (Hst next eq_refl).
    eapply safeM_bind_done; [|intros _ w2 _; by apply safeM_ret].
    destruct (cs_stage next); [by apply stageClaimed_safe | apply commitClaimed_safe; by left].
  - eapply safeM_bind_ok; [apply safeM_lift; intros b w' Hb _; exact Hb|]. intros b w1 Hr1 Hb.
    assert (Hst : staged_is id b w1).
    { eapply stageRequested_prefix; [|exact Hb]. by eapply (seen_stable legal). }
    eapply safeM_bind_done; [|intros _ w2 _; by apply safeM_ret].
    destruct b; [by apply stage_safe | apply commit_safe; by left].
Qed.

Lemma Resume_conforms s fuel id : server_ok s → conforms (Resume s fuel id).
Proof.
  intros Hok w. unfold Resume, runSaga. eapply safeM_bind_ok; [apply loadTransfer_safe|].
  intros evs w1 _ Hl%loaded_seen. generalize fuel at 2. intros n. revert evs w1 Hl.
  induction n as [|n IH]; intros evs w1 Hl; simpl; [apply safeM_fail|].
  destruct evs as [|e evs]; [apply safeM_fail|]. destruct (rejectedRequest _); [by apply safeM_ret|].
  eapply safeM_bind_ok; [by apply dispatch_safe|]. intros [] w2 _ _; simpl; [|by apply safeM_ret].
  eapply safeM_bind_ok; [apply loadTransfer_safe|]. intros evs' w3 _ Hl'%loaded_seen.
  case_bool_decide; [by apply safeM_ret | by apply IH].
Qed.

(** ** The RPC handlers *)

Lemma attempts_conforms {A} n (body : M (option A)) : conforms body → conforms (attempts n body).
Proof. intros Hb. induction n as [|n IH]; simpl; [conform|]. apply conforms_bind; [exact Hb|]. intros []; [conform | exact IH]. Qed.

Lemma refuse_safe id evs m w w' :
  loaded id evs w w' → evs ≠ [] → responseKind (kind_of m) = true → safeM (refuse id evs m) (λ _ _, True) w'.
Proof.
  intros Hl Hne Hk. unfold refuse. eapply safeM_bind_done; [|intros [] w2 _; by apply safeM_ret].
  apply tryAppend_safe. eapply good_loaded; [exact Hl|]. by apply t_response.
Qed.

Lemma RequestTransfer_conforms s req : server_ok s → conforms (RequestTransfer s req).
Proof.
  intros Hok. unfold RequestTransfer. apply conforms_bind; [conform|]. intros _. apply attempts_conforms.
  unfold tryRequestTransfer. apply conforms_bind; [apply loadTransfer_conforms|]. intros [|e evs]; [|conform].
  apply conforms_bind.
  { unfold transferRejection. destruct (rt_MintSource req);
      [by apply validateMintSource_conforms | apply WouldAcceptTransfer_conforms, Hok]. }
  intros rej w. eapply safeM_bind_done; [|intros [] w2 _; by apply safeM_ret].
  apply tryAppend_safe, good_new. intros w' _. apply legal_transfer. apply t_open; [done | by destruct rej].
Qed.

Lemma RequestReversal_conforms req : conforms (RequestReversal req).
Proof.
  unfold RequestReversal. apply conforms_bind; [conform|]. intros _. apply attempts_conforms.
  unfold tryRequestReversal. apply conforms_bind; [apply loadTransfer_conforms|]. intros [|e evs]; [|conform].
  apply conforms_bind; [unfold reversalManifest; conform|].
  intros man w. eapply safeM_bind_done; [|intros [] w2 _; by apply safeM_ret].
  apply tryAppend_safe, good_new. intros w' _. apply legal_transfer. apply t_open; [done | by destruct man].
Qed.

Lemma CancelAcceptedTransfer_conforms fuel id reason : conforms (CancelAcceptedTransfer fuel id reason).
Proof.
  unfold CancelAcceptedTransfer. apply conforms_bind; [conform|]. intros _. apply attempts_conforms.
  unfold tryCancelAccepted. apply conforms_bind; [apply loadTransfer_conforms|]. intros [|e evs]; [conform|].
  destruct (currentState (e :: evs)); try (by conform); apply conforms_bind;
    try (apply conforms_mapErr, cancelPrepared_conforms); intros _;
    (apply conforms_bind; [apply loadTransfer_conforms | conform]).
Qed.

Lemma ConfirmStagedTransfer_conforms fuel id : conforms (ConfirmStagedTransfer fuel id).
Proof.
  unfold ConfirmStagedTransfer. apply conforms_bind; [conform|]. intros _. apply attempts_conforms.
  intros w. eapply safeM_bind_ok; [apply loadTransfer_safe|]. intros evs w1 _ Hl.
  destruct evs as [|e evs]; [by apply safeM_ret|]. destruct (currentState (e :: evs));
    try (by apply safeM_ret); try (by eapply refuse_safe).
  apply conforms_safeM, conforms_bind; [|conform]. by apply conforms_mapErr, appendSagaStep_conforms.
Qed.

Lemma CancelStagedTransfer_conforms fuel id reason : conforms (CancelStagedTransfer fuel id reason).
Proof.
  unfold CancelStagedTransfer. apply conforms_bind; [conform|]. intros _. apply attempts_conforms.
  intros w. eapply safeM_bind_ok; [apply loadTransfer_safe|]. intros evs w1 _ Hl.
  assert (Hcancel : conforms (mapErr sagaStepError (cancelStaged fuel id reason) ;;;
    let* events := loadTransfer id in
    if bool_decide (currentState events = stateCancelled)
    then ret (Some (transferCancelledResponse id reason)) else ret None)).
  { apply conforms_bind; [apply conforms_mapErr, cancelStaged_conforms|]. intros _.
    apply conforms_bind; [apply loadTransfer_conforms | conform]. }
  destruct evs as [|e evs]; [by apply safeM_ret|]. destruct (currentState (e :: evs));
    try (by apply safeM_ret); try (by eapply refuse_safe); apply Hcancel.
Qed.

Lemma PostPendingTransfer_conforms fuel id : conforms (PostPendingTransfer fuel id).
Proof.
  unfold PostPendingTransfer. apply conforms_bind; [conform|]. intros _. apply attempts_conforms.
  intros w. eapply safeM_bind_ok; [apply loadTransfer_safe|]. intros evs w1 _ Hl.
  destruct evs as [|e evs]; [by apply safeM_ret|]. destruct (currentState (e :: evs)) eqn:Hst;
    try (by apply safeM_ret); try (by eapply refuse_safe); [|apply conforms_safeM; conform].
  eapply safeM_bind_ok.
  - apply safeM_mapErr, commit_safe. right. destruct Hl as (w0 & _ & Hr & Heq).
    eapply at_least_stable; [exact Hr|]. unfold at_least. rewrite <- Heq, Hst. simpl. lia.
  - intros _ w2 _ _. apply conforms_safeM. apply conforms_bind; [apply loadTransfer_conforms | conform].
Qed.

(** ** What the handlers promise their callers *)

(** Where a Transfer has ended. *)
Definition ended (id : string) (st : transferState) (w : World) : Prop := currentState (tstream w id) = st.
Definition refused (id : string) (w : World) : Prop := rejectedRequest (tstream w id) = true.

(** Nothing of it will ever be committed. *)
Definition dead (id : string) (w : World) : Prop :=
  refused id w ∨ ended id stateFailed w ∨ ended id stateCancelled w.

Lemma ended_stable id st : terminal st = true → stable legal (ended id st).
Proof.
  intros Hterm w w' Hr Hst. unfold ended in *. rewrite <- Hst in Hterm.
  destruct (tgrow_terminal _ _ (rely_tgrow _ _ id Hr) Hterm) as (_ & _ & Heq & _). congruence.
Qed.

Lemma refused_prefix evs evs' : evs `prefix_of` evs' → rejectedRequest evs = true → rejectedRequest evs' = true.
Proof. intros [k ->]. by destruct evs. Qed.

Lemma refused_stable id : stable legal (refused id).
Proof. intros w w' Hr. apply refused_prefix. by apply (rely_prefix legal). Qed.

Lemma dead_stable id : stable legal (dead id).
Proof.
  intros w w' Hr [H|[H|H]]; [left; by eapply refused_stable|right; left|right; right]; by eapply ended_stable.
Qed.

Lemma loaded_ended id evs st w w' :
  loaded id evs w w' → currentState evs = st → terminal st = true → ended id st w'.
Proof. intros (w0 & _ & Hr & ->) Hst Hterm. by eapply ended_stable. Qed.

(** What an [Outcome] that ends the Transfer says of it from then on. *)
Definition outcomeFact (id : string) (o : OutcomeKind) (w : World) : Prop :=
  match o with
  | OutcomeCommitted => ended id stateCommitted w
  | OutcomeFailed => ended id stateFailed w
  | OutcomeCancelled => ended id stateCancelled w
  | OutcomeRejected => refused id w
  | _ => True
  end.

Lemma outcomeFact_stable id o : stable legal (outcomeFact id o).
Proof. intros w w' Hr. destruct o; simpl; try done; [by apply refused_stable|by apply ended_stable..]. Qed.

Lemma outcomeOf_fact id w : outcomeFact id (outcomeOf (tstream w id)) w.
Proof.
  unfold outcomeFact, outcomeOf, ended, refused. destruct (tstream w id) as [|e evs]; [done|].
  destruct (rejectedRequest (e :: evs)) eqn:Hrej; [done|]. by destruct (currentState (e :: evs)) eqn:Hst.
Qed.

Lemma Outcome_safe id w : safeM (Outcome id) (outcomeFact id) w.
Proof.
  unfold Outcome. eapply safeM_bind_ok; [apply safeM_mapErr, safeM_load_at|]. intros evs w1 _ (w0 & _ & Hr & ->).
  apply safeM_ret. intros w2 Hr2. eapply (outcomeFact_stable _ _ w0); [by etrans|]. apply outcomeOf_fact.
Qed.

Lemma attempts_safe {A} n (body : M (option A)) (Q : A → World → Prop) w :
  (∀ a, stable legal (Q a)) →
  (∀ w', rely w w' → safeM body (λ out w2, ∀ a, out = Some a → Q a w2) w') → safeM (attempts n body) Q w.
Proof.
  intros HQ. revert w. induction n as [|n IH]; intros w Hb; simpl; [apply safeM_fail|].
  eapply safeM_bind_ok; [apply Hb; reflexivity|]. intros [a|] w1 Hr1 Hout.
  - apply safeM_ret. intros w2 Hr2. eapply HQ; [exact Hr2 | by apply Hout].
  - apply IH. intros w2 Hr2. apply Hb. by etrans.
Qed.

(** Every answer to a request is the decision its stream opens with. *)
Definition answered (req : RequestTransferRequest) (resp : response) (w : World) : Prop :=
  decidedRequestTransfer (tstream w (rt_Id req)) = Ok resp.

Lemma decidedRequestTransfer_prefix evs evs' resp :
  evs `prefix_of` evs' → decidedRequestTransfer evs = Ok resp → decidedRequestTransfer evs' = Ok resp.
Proof. intros [k ->]. by destruct evs. Qed.

Lemma answered_stable req resp : stable legal (answered req resp).
Proof. intros w w' Hr. apply decidedRequestTransfer_prefix. by apply (rely_prefix legal). Qed.

Lemma transferDecision_answered {CL : CodecLaws C} req rej e :
  recorded (transferDecision req rej) e →
  decidedRequestTransfer [e] = Ok (mkResponse (rt_Id req) (transferDecision req rej)).
Proof. intros He. unfold decidedRequestTransfer. rewrite (recorded_Decode _ _ He). by destruct rej. Qed.

Lemma RequestTransfer_answered {CL : CodecLaws C} s req w :
  server_ok s → safeM (RequestTransfer s req) (answered req) w.
Proof.
  intros Hok. unfold RequestTransfer. eapply safeM_bind_any; [conform|]. intros _ w1 _.
  apply attempts_safe; [intros; apply answered_stable|].
  intros w2 _. unfold tryRequestTransfer. eapply safeM_bind_ok; [apply loadTransfer_safe|]. intros evs w3 _ Hl.
  destruct evs as [|e evs].
  - eapply safeM_bind_any.
    { unfold transferRejection. destruct (rt_MintSource req);
        [by apply validateMintSource_conforms | apply WouldAcceptTransfer_conforms, Hok]. }
    intros rej w4 _. cbv zeta.
    eapply (safeM_bind_ok legal _ _ (λ (ok : bool) w5, ok = true →
              answered req (mkResponse (rt_Id req) (transferDecision req rej)) w5)).
    + apply safeM_try, safe_append_landed; [done| | |].
      * apply good_new. intros w' _. apply legal_transfer. apply t_open; [done | by destruct rej].
      * intros err w5 _. destruct (Is _ _); [by apply safeM_ret | apply safeM_fail].
      * intros w5 evs batch _ Hlen Hrec Hseen. apply safeM_ret. intros w6 Hr6 _.
        destruct evs; [|simpl in Hlen; lia]. eapply answered_stable; [exact Hr6|].
        eapply decidedRequestTransfer_prefix; [exact Hseen|].
        apply Forall2_cons_inv_l in Hrec as (e & ? & He & ->%Forall2_nil_inv_l & ->). by apply transferDecision_answered.
    + intros ok w5 _ Hq. destruct ok; apply safeM_ret; intros w6 Hr6 a; intros [= <-].
      eapply answered_stable; [exact Hr6 | by apply Hq].
  - eapply safeM_bind_ok; [apply safeM_lift; intros out w' Hout _; exact Hout|]. intros out w4 Hr4 Hout.
    apply safeM_ret. intros w5 Hr5 a [= <-]. apply loaded_seen in Hl.
    eapply answered_stable; [exact Hr5|]. eapply answered_stable; [exact Hr4|].
    by eapply decidedRequestTransfer_prefix; [exact Hl|].
Qed.

(** A refused request is on the stream as a refusal. *)
Lemma answered_refused {CL : CodecLaws C} req resp id reason w :
  answered req resp w → rs_Result resp = TransferRequestRejected id reason → refused (rt_Id req) w.
Proof.
  unfold answered, refused, decidedRequestTransfer. destruct (tstream w (rt_Id req)) as [|e evs]; [done|].
  destruct (Decode e) as [msg|] eqn:Hd; [|done]. cbn [rmap_err rbind].
  destruct msg; try done; intros [= <-] Heq; simplify_eq/=. by rewrite (Decode_type _ _ Hd).
Qed.

Lemma RequestTransfer_refused {CL : CodecLaws C} s req w :
  server_ok s →
  safeM (RequestTransfer s req)
    (λ resp w', ∀ id reason, rs_Result resp = TransferRequestRejected id reason → refused (rt_Id req) w') w.
Proof.
  intros Hok. eapply safeM_mono; [by apply RequestTransfer_answered|]. intros resp w' _ Ha id reason.
  by eapply answered_refused.
Qed.

Lemma CancelAcceptedTransfer_cancelled fuel id reason w :
  safeM (CancelAcceptedTransfer fuel id reason) (λ _ w', ended id stateCancelled w') w.
Proof.
  unfold CancelAcceptedTransfer. eapply safeM_bind_any; [conform|]. intros _ w1 _. apply attempts_safe.
  { intros _. by apply ended_stable. }
  intros w2 _. unfold tryCancelAccepted. eapply safeM_bind_ok; [apply loadTransfer_safe|]. intros evs w3 _ Hl.
  assert (Hagain : safeM (mapErr sagaStepError (cancelPrepared fuel id reason) ;;;
    let* events := loadTransfer id in
    if bool_decide (currentState events = stateCancelled)
    then ret (Some (acceptedTransferCancelledResponse id reason)) else ret None)
    (λ out w2, ∀ a, out = Some a → ended id stateCancelled w2) w3).
  { eapply safeM_bind_any; [apply conforms_mapErr, cancelPrepared_conforms|]. intros _ w4 _.
    eapply safeM_bind_ok; [apply loadTransfer_safe|]. intros evs' w5 _ Hl'.
    case_bool_decide as Hst; apply safeM_ret; intros w6 Hr6 a Ha; [|done].
    eapply ended_stable; [done|exact Hr6|]. by eapply loaded_ended; [exact Hl'|..]. }
  destruct evs as [|e evs]; [apply safeM_fail|].
  destruct (currentState (e :: evs)) eqn:Hst; try exact Hagain; try apply safeM_fail.
  apply safeM_ret. intros w4 Hr4 a _. eapply ended_stable; [done|exact Hr4|]. by eapply loaded_ended; [exact Hl|..].
Qed.

Lemma CancelStagedTransfer_cancelled fuel id reason w :
  safeM (CancelStagedTransfer fuel id reason)
    (λ resp w', match rs_Result resp with
                | CancelStagedTransferRejected _ _ => True
                | _ => ended id stateCancelled w'
                end) w.
Proof.
  unfold CancelStagedTransfer. eapply safeM_bind_any; [conform|]. intros _ w1 _. apply attempts_safe.
  { intros a w2 w3 Hr. destruct (rs_Result a); try done; by apply ended_stable. }
  intros w2 _. unfold tryCancelStaged. eapply safeM_bind_ok; [apply loadTransfer_safe|]. intros evs w3 _ Hl.
  assert (Hagain : safeM (mapErr sagaStepError (cancelStaged fuel id reason) ;;;
    let* events := loadTransfer id in
    if bool_decide (currentState events = stateCancelled)
    then ret (Some (transferCancelledResponse id reason)) else ret None)
    (λ out w2, ∀ a, out = Some a → match rs_Result a with
                | CancelStagedTransferRejected _ _ => True
                | _ => ended id stateCancelled w2
                end) w3).
  { eapply safeM_bind_any; [apply conforms_mapErr, cancelStaged_conforms|]. intros _ w4 _.
    eapply safeM_bind_ok; [apply loadTransfer_safe|]. intros evs' w5 _ Hl'.
    case_bool_decide as Hst; apply safeM_ret; intros w6 Hr6 a Ha; [|done]. simplify_eq/=.
    eapply ended_stable; [done|exact Hr6|]. by eapply loaded_ended; [exact Hl'|..]. }
  destruct evs as [|e evs]; [by apply safeM_ret; intros w4 _ a [= <-]|].
  assert (Hrefuse : ∀ why, safeM (refuse id (e :: evs) (CancelStagedTransferRejected id why))
    (λ out w2, ∀ a, out = Some a → match rs_Result a with
                | CancelStagedTransferRejected _ _ => True
                | _ => ended id stateCancelled w2
                end) w3).
  { intros why. unfold refuse. eapply safeM_bind_done; [by apply tryAppend_safe; eapply good_loaded; [exact Hl|apply t_response]|].
    intros [] w4 _; apply safeM_ret; intros w5 _ a Ha; by simplify_eq/=. }
  destruct (currentState (e :: evs)) eqn:Hst; try exact Hagain; try apply Hrefuse.
  apply safeM_ret. intros w4 Hr4 a [= <-]. eapply ended_stable; [done|exact Hr4|]. by eapply loaded_ended; [exact Hl|..].
Qed.
End safety.
