(* ===== verification/HolderSafety.v ===== *)
(** * Holders keep to their lifecycle

    The Holder service, under any interleaving and any fault: a Holder is
    established once and records each Wallet at most once. *)

From S2P Require Import Prelude Proto EventStore Ledger Effects Validate Safety Wallet Holder Token.
From S2P Require Import TransferState TransferManifest TransferSaga TransferServer TransferLegal.
From S2P Require Import TransferSafety.

(** What Holders need of the system's protocol, beside what Wallets do. *)
Class HolderProtocol `{Codec} `{LedgerClient} (legal : World → string → list Event → list message → Prop) : Prop :=
  legal_holder w id evs ms : legal w (streamKey Holder.aggregateType id) evs ms ↔ hstep evs ms.

Section safety.
Context {C : Codec} {U : UuidPackage} {L : LedgerClient}.
Context (legal : World → string → list Event → list message → Prop).
Context {TP : TransferProtocol legal} {HP : HolderProtocol legal}.
Notation safeM := (safeM legal).
Notation conforms := (conforms legal).
Notation rely := (rely legal).

Lemma established_conforms id : conforms (Holder.established id).
Proof. unfold Holder.established, Holder.holderStream. conform. Qed.

Lemma Establish_conforms id memos : conforms (Holder.Establish id memos).
Proof.
  unfold Holder.Establish. apply conforms_bind; [conform|]. intros _.
  apply conforms_bind; [apply established_conforms|]. intros [existing|]; [conform|].
  intros w. apply safeM_try, safe_append.
  - apply good_new. intros w' _. apply legal_holder. exists [HolderEstablished id memos], [], ∅.
    split; [done|]. split; [by eauto|]. split; [done|]. split; [done|]. split; [done|]. split; [constructor|].
    by intros ? ? ?%elem_of_nil.
  - intros r w' _. apply conforms_safeM. destruct r; [conform|].
    destruct (Is _ _); conform. apply established_conforms.
Qed.

(** The events a delta adds: those of the specs the Holder has not recorded. *)
Definition newlyAdded (holderID : string) (recorded : gset string) (specs : list Holder.WalletSpec) : list message :=
  Holder.addedEvent holderID <$> filter (λ spec, Holder.ws_WalletId spec ∉ recorded) specs.

Definition opensWallet (sw : StreamWrite) (w : World) : Prop :=
  sw_AggregateType sw = Wallet.AggregateType ∧ good legal sw w.

Lemma opensWallet_stable ws : stable legal (λ w, Forall (λ sw, opensWallet sw w) ws).
Proof.
  intros w w' Hr Hall. eapply Forall_impl; [exact Hall|]. intros sw [? Hg]. split; [done|]. by eapply good_stable.
Qed.

Lemma walletDelta_safe holderID recorded specs ws hes w :
  Forall (λ sw, opensWallet sw w) ws →
  safeM (Holder.walletDelta holderID recorded specs ws hes)
    (λ out w', ∀ ws' hes', out = inl (ws', hes') →
       Forall (λ sw, opensWallet sw w') ws' ∧ hes' = hes ++ newlyAdded holderID recorded specs) w.
Proof.
  revert ws hes w. induction specs as [|spec specs IH]; intros ws hes w Hws; simpl.
  { apply safeM_ret. intros w' Hr ws' hes' [= <- <-]. split; [by eapply opensWallet_stable|]. by rewrite app_nil_r. }
  set (hes2 := if bool_decide _ then hes else hes ++ [_]).
  assert (Hacc : ∀ more, hes2 ++ newlyAdded holderID recorded specs = more →
                 hes ++ newlyAdded holderID recorded (spec :: specs) = more).
  { intros more <-. unfold hes2, newlyAdded. rewrite filter_cons.
    case_bool_decide; case_decide; try done; simpl; by rewrite <- ?app_assoc. }
  eapply safeM_bind_any; [apply Opened_conforms; exact _|]. intros [opened|] w1 Hr1.
  - case_bool_decide; [|apply safeM_ret; intros w2 _ ??; done].
    eapply safeM_mono; [apply IH; by eapply opensWallet_stable|].
    intros out w2 _ Hout ws' hes' Heq. destruct (Hout _ _ Heq) as [? Hh]. split; [done|]. symmetry. by apply Hacc.
  - eapply safeM_mono; [apply IH|].
    + apply Forall_app. split; [by eapply opensWallet_stable|]. constructor; [|constructor]. split; [done|].
      apply good_new. intros w' _. apply legal_wallet. left. eauto.
    + intros out w2 _ Hout ws' hes' Heq. destruct (Hout _ _ Heq) as [? Hh]. split; [done|]. symmetry. by apply Hacc.
Qed.

(** Recording the Wallets of distinct specs on a Holder already established, or
    established by the same write. *)
Lemma newlyAdded_hstep evs opening holderID recorded specs :
  (evs = [] → ∃ id memos, opening = [HolderEstablished id memos]) → (evs ≠ [] → opening = []) →
  Holder.recordedWallets evs = Ok recorded → NoDup (Holder.ws_WalletId <$> specs) →
  hstep evs (opening ++ newlyAdded holderID recorded specs).
Proof.
  intros H1 H2 Hrec Hnd. exists opening, (newlyAdded holderID recorded specs), recorded.
  split; [done|]. split; [done|]. split; [done|]. split; [done|]. unfold newlyAdded. split.
  { apply Forall_fmap, Forall_forall. intros spec _. by eexists. } split.
  - rewrite <- list_fmap_compose. change (addedWallet ∘ Holder.addedEvent holderID) with (λ spec, Some (Holder.ws_WalletId spec)).
    rewrite (list_fmap_compose Holder.ws_WalletId Some). apply (NoDup_fmap_2 Some).
    by apply NoDup_fmap_filter.
  - intros m wid Hin Hwid. apply list_elem_of_fmap in Hin as (spec & -> & Hspec). simplify_eq/=.
    by apply list_elem_of_filter in Hspec as [? _].
Qed.

Lemma walletWrites_safe holderID evs specs w :
  safeM (Holder.walletWrites holderID evs specs)
    (λ out w', ∀ ws, out = inl ws → ∃ opens recorded,
       Forall (λ sw, opensWallet sw w') opens ∧ Holder.recordedWallets evs = Ok recorded ∧
       ws = opens ++ (if bool_decide (newlyAdded holderID recorded specs = []) then []
                      else [mkStreamWrite Holder.aggregateType holderID (len evs) (newlyAdded holderID recorded specs)])) w.
Proof.
  unfold Holder.walletWrites. eapply safeM_bind_ok; [apply safeM_lift; intros rec w' Hrec _; exact Hrec|]. intros rec w1 _ Hrec.
  eapply safeM_bind_ok; [by apply walletDelta_safe|]. intros [[opens hes]|rej] w2 _ Hout.
  - destruct (Hout _ _ eq_refl) as [Hopens Hhes]. simpl in Hhes. subst hes.
    apply safeM_ret. intros w3 Hr3 ws [= <-]. exists opens, rec. split; [by eapply opensWallet_stable | done].
  - apply safeM_ret. by intros w3 _ ws.
Qed.

Lemma appendAny_safe ws w :
  Forall (λ sw, good legal sw w) ws → safeM (Holder.appendAny ws) (λ _ _, True) w.
Proof.
  intros Hws. unfold Holder.appendAny. case_bool_decide; [by apply safeM_ret|].
  apply safeM_try, safe_appendAtomic; [done|]. intros r w' _. apply conforms_safeM. conform.
Qed.

Lemma opens_good ws w : Forall (λ sw, opensWallet sw w) ws → Forall (λ sw, good legal sw w) ws.
Proof. intros Hall. eapply Forall_impl; [exact Hall|]. by intros sw [_ ?]. Qed.

Lemma holderStream_safe id w : safeM (Holder.holderStream id) (λ evs w', seen Holder.aggregateType id evs w') w.
Proof. apply safeM_mapErr, safeM_load. Qed.

Lemma AddWallet_conforms id spec : conforms (Holder.AddWallet id spec).
Proof.
  intros w. unfold Holder.AddWallet. do 2 (eapply safeM_bind_any; [conform|]; intros _ ? _).
  eapply safeM_bind_ok; [apply holderStream_safe|]. intros evs w1 _ Hseen.
  destruct evs as [|e evs]; [apply safeM_fail|]. set (all := e :: evs) in *.
  eapply safeM_bind_ok; [apply walletWrites_safe|]. intros [ws|rej] w2 Hr2 Hout; [|by apply safeM_ret].
  destruct (Hout ws eq_refl) as (opens & rec & Hopens & Hrec & ->).
  eapply safeM_bind_done; [|by intros; apply safeM_ret]. apply appendAny_safe, Forall_app. split; [by apply opens_good|].
  case_bool_decide; [constructor|]. constructor; [|constructor].
  apply good_seen; [by eapply (seen_stable legal)|]. intros w9 _. apply legal_holder.
  apply (newlyAdded_hstep all [] id rec [spec]); [done|done|done|]. apply NoDup_singleton.
Qed.

Lemma validateSpecs_nodup seen specs :
  Holder.validateSpecs seen specs = Ok tt →
  NoDup (Holder.ws_WalletId <$> specs) ∧ ∀ spec, spec ∈ specs → Holder.ws_WalletId spec ∉ seen.
Proof.
  revert seen. induction specs as [|spec specs IH]; intros seen; simpl.
  { intros _. split; [constructor|]. by intros ? ?%elem_of_nil. }
  destruct (Wallet.ValidateWallet _ _); [|done]. cbn [rbind]. case_bool_decide as Hin; [done|].
  intros [Hnd Hnot]%IH. split.
  - constructor; [|done]. intros (spec' & Heq & Hs')%list_elem_of_fmap. apply (Hnot _ Hs'). rewrite <- Heq. set_solver.
  - intros spec' [->|Hs']%elem_of_cons; [done|]. specialize (Hnot _ Hs'). set_solver.
Qed.

(** The merged writes of a provision: the Wallets to open, and one write to the
    Holder's own stream. *)
Lemma provisionWrites_merge id evs opening opens hes w :
  Forall (λ sw, opensWallet sw w) opens →
  Holder.provisionWrites id evs opening
    (opens ++ (if bool_decide (hes = []) then [] else [mkStreamWrite Holder.aggregateType id (len evs) hes])) =
  opens ++ (if bool_decide (opening ++ hes = []) then []
            else [mkStreamWrite Holder.aggregateType id (len evs) (opening ++ hes)]).
Proof.
  intros Hopens. unfold Holder.provisionWrites. rewrite !filter_app.
  assert (filter (λ w, bool_decide (sw_AggregateType w = Holder.aggregateType) = false) opens = opens) as ->.
  { clear -Hopens. induction Hopens as [|sw opens [Hty _] _ IH]; [done|]. rewrite filter_cons_True, IH; [done|].
    by rewrite Hty. }
  assert (filter (λ w, bool_decide (sw_AggregateType w = Holder.aggregateType) = true) opens = []) as ->.
  { clear -Hopens. induction Hopens as [|sw opens [Hty _] _ IH]; [done|]. rewrite filter_cons_False, IH; [done|].
    by rewrite Hty. }
  rewrite <- app_assoc. f_equal. case_bool_decide as Hhes.
  - subst hes. simpl. by rewrite app_nil_r.
  - simpl. by rewrite app_nil_r.
Qed.

Lemma Provision_conforms id memos specs : conforms (Holder.Provision id memos specs).
Proof.
  intros w. unfold Holder.Provision. eapply safeM_bind_any; [conform|]. intros _ w0 _.
  case_bool_decide; [apply safeM_fail|].
  eapply safeM_bind_ok; [apply safeM_lift; intros x w' Hx _; exact Hx|]. intros [] w1 _ [Hnd _]%validateSpecs_nodup.
  eapply safeM_bind_ok; [apply holderStream_safe|]. intros evs w2 _ Hseen.
  eapply (safeM_bind_ok legal _ _ (λ opening _,
    (evs = [] → ∃ id memos, opening = [HolderEstablished id memos]) ∧ (evs ≠ [] → opening = []))).
  { destruct evs as [|e evs]; [apply safeM_ret; intros w3 _; by split; [eauto|]|].
    eapply safeM_bind_any; [conform|]. intros _ w3 _. by apply safeM_ret. }
  intros opening w3 Hr3 [Hnew Hold].
  eapply safeM_bind_ok; [apply walletWrites_safe|]. intros [ws|rej] w4 Hr4 Hout; [|by apply safeM_ret].
  destruct (Hout ws eq_refl) as (opens & rec & Hopens & Hrec & ->). clear Hout.
  eapply safeM_bind_done; [|by intros; apply safeM_ret].
  rewrite (provisionWrites_merge _ _ _ _ _ _ Hopens). apply appendAny_safe, Forall_app. split; [by apply opens_good|].
  case_bool_decide; [constructor|]. constructor; [|constructor].
  apply good_seen; [eapply (seen_stable legal); [|exact Hseen]; by etrans|]. intros w' _. apply legal_holder.
  by apply newlyAdded_hstep.
Qed.
End safety.
