(* ===== verification/Dag.v ===== *)
(** * A Transaction's dependency graph ([go/internal/transaction/dag.go])

    [validateDAG] (Kahn's algorithm), and the two schedulers that read the next
    move off the graph and a set of facts: [readyToRun] forward, [readyToRollback]
    backward. Go ranges its maps in an unspecified order; each function takes
    the orders it ranges in, and the theorems hold for every order. *)

From stdpp Require Import relations fin_sets.
From S2P Require Import Prelude Proto EventStore Effects Validate.

Notation Transfers := (gmap string ChildTransfer).
Notation Deps := (gmap string (list string)).

Definition maxTransfersPerTransaction : Z := 64.

(** [deps[id].GetTransferId()], empty for an absent entry. *)
Definition parentsOf (deps : Deps) (id : string) : list string := default [] (deps !! id).

Definition decodeSpec `{Codec} (events : list Event) : result (Transfers * Deps) :=
  match events with
  | [] => Err (plain "panic: index out of range")
  | e :: _ =>
      let? msg := Decode e in
      match msg with
      | TransactionInitialized i => Ok (in_Transfers i, in_TransferDependency i)
      | _ => Err (plain "transaction: stream does not start with TransactionInitialized")
      end
  end.

Definition transferKey (key : string) : string := "transaction: transfers[" +:+ quoted key +:+ "].".

Definition validateChildAmount (key : string) (spec : ChildTransfer) : result unit :=
  match MoneyCheck.Validate "amount" (ct_Amount spec) with
  | Ok _ => Ok tt
  | Err twerr => Err (plain (transferKey key +:+ e_msg twerr))
  end.

Definition checkSpec (transfers : Transfers) (key : string) : result unit :=
  match transfers !! key with
  | None => Ok tt
  | Some spec =>
      if negb (bool_decide (ct_Id spec = key)) then
        Err (plain (transferKey key +:+ "id = " +:+ quoted (ct_Id spec) +:+ ", want it to match its own map key"))
      else validateChildAmount key spec
  end.

(** ** Kahn's algorithm *)

Record graph : Type := mkGraph {
  inDegree : gmap string Z;
  children : gmap string (list string)
}.

Definition addEdge (transfers : Transfers) (childID : string) (g : graph) (parentID : string) : result graph :=
  match transfers !! parentID with
  | None => Err (plain ("transaction: transfer " +:+ quoted childID +:+ " depends on unknown transfer " +:+ quoted parentID))
  | Some _ =>
      Ok (mkGraph (<[childID := default 0 (inDegree g !! childID) + 1]> (inDegree g))
                  (<[parentID := default [] (children g !! parentID) ++ [childID]]> (children g)))
  end.

Definition addChild (transfers : Transfers) (deps : Deps) (g : graph) (childID : string) : result graph :=
  match transfers !! childID with
  | None => Err (plain ("transaction: transfer_dependency references unknown child " +:+ quoted childID))
  | Some _ => rfold (addEdge transfers childID) g (parentsOf deps childID)
  end.

Definition buildGraph (transfers : Transfers) (deps : Deps) (depsOrder : list string) : result graph :=
  rfold (addChild transfers deps) (mkGraph ((λ _, 0) <$> transfers) ∅) depsOrder.

(** One child of a processed node: its in-degree drops, and at zero it queues. *)
Definition release (x : gmap string Z * list string) (child : string) : gmap string Z * list string :=
  let d := default 0 (fst x !! child) - 1 in
  (<[child := d]> (fst x), if d =? 0 then snd x ++ [child] else snd x).

(** The processing loop; [fuel] bounds it and a node is processed at most once,
    so the number of nodes is enough. *)
Fixpoint kahn (fuel : nat) (children : gmap string (list string)) (deg : gmap string Z)
    (queue : list string) (processed : Z) : option Z :=
  match queue with
  | [] => Some processed
  | id :: queue =>
      match fuel with
      | O => None
      | S fuel =>
          let '(deg, queue) := foldl release (deg, queue) (default [] (children !! id)) in
          kahn fuel children deg queue (processed + 1)
      end
  end.

(** The order each of the three loops over a map takes. *)
Record dagOrder : Type := mkDagOrder {
  transfersOrder : list string;
  depsOrder : list string;
  degreeOrder : list string
}.

Definition cycleError : error :=
  plain "transaction: transfer_dependency contains a cycle (a direct self-dependency counts)".

Definition validateDAG (o : dagOrder) (transfers : Transfers) (deps : Deps) : result unit :=
  let n := Z.of_nat (size transfers) in
  if n =? 0 then Err (plain "transaction: transfers must not be empty")
  else if maxTransfersPerTransaction <? n then
    Err (plain ("transaction: " +:+ decimal n +:+ " transfers exceeds the limit of " +:+
                decimal maxTransfersPerTransaction +:+ " per Transaction"))
  else
    let? _ := rfold (λ _ key, checkSpec transfers key) tt (transfersOrder o) in
    let? g := buildGraph transfers deps (depsOrder o) in
    let queue := filter (λ id, inDegree g !! id = Some 0) (degreeOrder o) in
    match kahn (size transfers) (children g) (inDegree g) queue 0 with
    | Some processed => if processed =? n then Ok tt else Err cycleError
    | None => Err (sentinel_error OutOfFuel "")
    end.

(** ** Scheduling *)

Definition mem (s : gset string) (id : string) : bool := bool_decide (id ∈ s).

Definition readyToRun (order : list string) (deps : Deps) (touched completed : gset string) : list string :=
  filter (λ id, negb (mem touched id) && forallb (mem completed) (parentsOf deps id) = true) order.

(** Whether some child that is still active lists [id] as a parent. *)
Definition blockedBy (deps : Deps) (touched resolved : gset string) (id : string) : bool :=
  existsb (λ x : string * list string, mem touched (fst x) && negb (mem resolved (fst x)) && bool_decide (id ∈ snd x))
    (map_to_list deps).

Definition readyToRollback (order : list string) (deps : Deps) (touched resolved inFlight : gset string)
    : list string :=
  filter (λ id, mem touched id && negb (mem resolved id) && negb (mem inFlight id) &&
                negb (blockedBy deps touched resolved id) = true) order.

(** ** The graph *)

(** [edge deps p c]: [c] waits for [p]. *)
Definition edge (deps : Deps) (p c : string) : Prop := p ∈ parentsOf deps c.

Definition acyclic (deps : Deps) : Prop := ∀ x, ¬ tc (edge deps) x x.

(** Every id a dependency names is a transfer. *)
Definition closed (transfers : Transfers) (deps : Deps) : Prop :=
  ∀ c ps, deps !! c = Some ps → is_Some (transfers !! c) ∧ ∀ p, p ∈ ps → is_Some (transfers !! p).

(** What makes a request well formed. *)
Definition valid_spec (transfers : Transfers) (deps : Deps) : Prop :=
  transfers ≠ ∅ ∧ Z.of_nat (size transfers) ≤ maxTransfersPerTransaction ∧
  (∀ key spec, transfers !! key = Some spec → ct_Id spec = key ∧ MoneyCheck.Validate "amount" (ct_Amount spec) = Ok tt) ∧
  closed transfers deps ∧ acyclic deps.

(** The orders a Go [range] may take. *)
Definition rangeOrder (o : dagOrder) (transfers : Transfers) (deps : Deps) : Prop :=
  transfersOrder o ≡ₚ (map_to_list transfers).*1 ∧ depsOrder o ≡ₚ (map_to_list deps).*1 ∧
  degreeOrder o ≡ₚ (map_to_list transfers).*1.

(** ** Finite acyclic graphs *)

Section acyclic.
Context (deps : Deps).
Hypothesis Hacyc : acyclic deps.

Definition allParents : list string := mjoin (map_to_list deps).*2.

Lemma edge_deps p c : edge deps p c → ∃ ps, deps !! c = Some ps ∧ p ∈ ps.
Proof. unfold edge, parentsOf. destruct (deps !! c); simpl; [by eauto | by intros ?%elem_of_nil]. Qed.

Lemma tc_flip {A} (R : relation A) x y : tc (flip R) x y → tc R y x.
Proof. induction 1 as [x y Hxy|x y z Hxy _ IH]; [by apply tc_once | eapply tc_r; [exact IH | exact Hxy]]. Qed.

(** Every non-empty set of ids has a member that waits for no other of them. *)
Lemma acyclic_source (X : gset string) : X ≠ ∅ → ∃ x, x ∈ X ∧ ∀ p, edge deps p x → p ∉ X.
Proof.
  intros [x Hx]%set_choose_L.
  assert (Hsn : sn (flip (edge deps)) x).
  { apply tc_finite_sn.
    - intros y Hy. apply (Hacyc y), tc_flip, Hy.
    - exists allParents. intros y Hy. assert (∃ c, edge deps y c) as [c He].
      { clear -Hy. induction Hy as [a b Hab|a b c _ _ IH]; eauto. }
      apply edge_deps in He as (ps & Hps & Hin). unfold allParents. apply list_elem_of_join.
      exists ps. split; [done|]. apply list_elem_of_fmap. exists (c, ps). split; [done|]. by apply elem_of_map_to_list. }
  induction Hsn as [x _ IH]. destruct (decide (Exists (λ p, p ∈ X) (parentsOf deps x))) as [Hex|Hno].
  - apply Exists_exists in Hex as (p & Hp & HpX). by apply (IH p).
  - exists x. split; [done|]. intros p Hp HpX. apply Hno, Exists_exists. eauto.
Qed.

(** And one that no other of them waits for. *)
Lemma acyclic_sink (X : gset string) : X ≠ ∅ → ∃ x, x ∈ X ∧ ∀ c, edge deps x c → c ∉ X.
Proof.
  intros [x Hx]%set_choose_L.
  assert (Hsn : sn (edge deps) x).
  { apply tc_finite_sn; [exact Hacyc|]. exists (map_to_list deps).*1. intros y Hy.
    assert (∃ p, edge deps p y) as [p He].
    { clear -Hy. induction Hy as [a b Hab|a b c _ _ IH]; eauto. }
    apply edge_deps in He as (ps & Hps & _). apply list_elem_of_fmap. exists (y, ps). split; [done|].
    by apply elem_of_map_to_list. }
  induction Hsn as [x _ IH]. destruct (decide (set_Exists (λ c, x ∈ parentsOf deps c) X)) as [(c & HcX & Hc)|Hno].
  - by apply (IH c).
  - exists x. split; [done|]. intros c Hc HcX. apply Hno. by exists c.
Qed.
End acyclic.

(** ** Kahn's algorithm is right *)

Section kahn.
Context (transfers : Transfers) (deps : Deps).
Implicit Types (E : list (string * string)) (g : graph) (D q : list string) (deg : gmap string Z).

Definition count (x : string) (l : list string) : Z := len (filter (λ y, y = x) l).

Lemma count_cons x y l : count x (y :: l) = (if decide (y = x) then 1 else 0) + count x l.
Proof. unfold count. rewrite filter_cons. destruct (decide (y = x)); simpl; lia. Qed.

Lemma count_nonneg x l : 0 ≤ count x l.
Proof. unfold count. lia. Qed.

(** The edges of the children in [order], as (parent, child) pairs. *)
Definition edgesOf (order : list string) : list (string * string) :=
  order ≫= λ c, (λ p, (p, c)) <$> parentsOf deps c.

(** How many edges of [E] enter [x], from a node not in [D]. *)
Definition into E D (x : string) : Z := len (filter (λ e, e.2 = x ∧ e.1 ∉ D) E).

Record graph_of g E : Prop := {
  go_degree id : inDegree g !! id = if decide (is_Some (transfers !! id)) then Some (into E [] id) else None;
  go_children p : default [] (children g !! p) = (filter (λ e, e.1 = p) E).*2
}.

Lemma into_snoc E D p c x :
  into (E ++ [(p, c)]) D x = into E D x + if decide (c = x ∧ p ∉ D) then 1 else 0.
Proof.
  unfold into. rewrite filter_app, length_app, filter_cons, filter_nil. simpl.
  case_decide; simpl; lia.
Qed.

Lemma addEdge_graph g E c p :
  is_Some (transfers !! c) → graph_of g E →
  match addEdge transfers c g p with
  | Ok g' => is_Some (transfers !! p) ∧ graph_of g' (E ++ [(p, c)])
  | Err _ => transfers !! p = None
  end.
Proof.
  intros Hc [Hd Hch]. unfold addEdge. destruct (transfers !! p) as [sp|] eqn:Hp; [|done].
  split; [by eauto|]. split; simpl.
  - intros id. rewrite into_snoc. destruct (decide (c = id)) as [->|Hne].
    + rewrite lookup_insert_eq, decide_True by done. rewrite Hd, decide_True by done. simpl.
      rewrite decide_True; [done|]. split; [done | apply not_elem_of_nil].
    + rewrite lookup_insert_ne by done. rewrite Hd. destruct (decide (is_Some _)); [|done].
      rewrite decide_False by by intros [? _]. by rewrite Z.add_0_r.
  - intros p'. rewrite filter_app, fmap_app, filter_cons, filter_nil; simpl. destruct (decide (p = p')) as [->|Hne].
    + rewrite lookup_insert_eq. simpl. by rewrite Hch.
    + rewrite lookup_insert_ne by done. rewrite Hch. simpl. by rewrite app_nil_r.
Qed.

Lemma addEdges_graph g E c ps :
  is_Some (transfers !! c) → graph_of g E →
  match rfold (addEdge transfers c) g ps with
  | Ok g' => (∀ p, p ∈ ps → is_Some (transfers !! p)) ∧ graph_of g' (E ++ ((λ p, (p, c)) <$> ps))
  | Err _ => ∃ p, p ∈ ps ∧ transfers !! p = None
  end.
Proof.
  intros Hc. revert g E. induction ps as [|p ps IH]; intros g E Hg; simpl.
  { split; [by intros ? ?%elem_of_nil | by rewrite app_nil_r]. }
  pose proof (addEdge_graph g E c p Hc Hg) as Hadd. destruct (addEdge transfers c g p) as [g1|]; cbn [rbind].
  - destruct Hadd as [Hp Hg1]. specialize (IH g1 _ Hg1).
    destruct (rfold _ g1 ps) as [g2|].
    + destruct IH as [Hall Hg2]. split; [by intros ? [->|?]%elem_of_cons; auto|]. by rewrite <- app_assoc in Hg2.
    + destruct IH as (p' & ? & ?). exists p'. split; [by right | done].
  - exists p. split; [left | done].
Qed.

Lemma addChildren_graph g E order :
  graph_of g E →
  match rfold (addChild transfers deps) g order with
  | Ok g' => (∀ c, c ∈ order → is_Some (transfers !! c) ∧ ∀ p, p ∈ parentsOf deps c → is_Some (transfers !! p)) ∧
             graph_of g' (E ++ edgesOf order)
  | Err _ => ∃ c, c ∈ order ∧ (transfers !! c = None ∨ ∃ p, p ∈ parentsOf deps c ∧ transfers !! p = None)
  end.
Proof.
  revert g E. induction order as [|c order IH]; intros g E Hg; simpl.
  { split; [by intros ? ?%elem_of_nil | by rewrite app_nil_r]. }
  unfold addChild at 1. destruct (transfers !! c) as [sp|] eqn:Hc; cbn [rbind].
  2: { exists c. split; [left | by left]. }
  pose proof (addEdges_graph g E c (parentsOf deps c) ltac:(eauto) Hg) as Hadd.
  destruct (rfold (addEdge transfers c) g _) as [g1|]; cbn [rbind].
  - destruct Hadd as [Hps Hg1]. specialize (IH g1 _ Hg1). destruct (rfold _ g1 order) as [g2|].
    + destruct IH as [Hall Hg2]. split.
      * intros c' [->|?]%elem_of_cons; [by eauto | by apply Hall].
      * by rewrite <- app_assoc in Hg2.
    + destruct IH as (c' & ? & ?). exists c'. split; [by right | done].
  - exists c. split; [left | by right].
Qed.

(** *** Releasing one node's children *)

(** Nodes done or queued are exactly those no unprocessed edge enters. *)
Definition settled D deg q : Prop := NoDup (D ++ q) ∧ ∀ x, x ∈ D ++ q ↔ deg !! x = Some 0.

Lemma release_all D cs deg q :
  settled D deg q → (∀ c, c ∈ cs → ∃ k, deg !! c = Some k ∧ count c cs ≤ k) →
  let r := foldl release (deg, q) cs in
  settled D r.1 r.2 ∧ ∀ x, r.1 !! x = (λ k, k - count x cs) <$> deg !! x.
Proof.
  revert deg q. induction cs as [|c cs IH]; intros deg q Hs Hk.
  { split; [done|]. intros x. simpl. destruct (deg !! x); simpl; [f_equal; unfold count; simpl; lia | done]. }
  cbn [foldl]. destruct (Hk c) as (k & Hc & Hle); [left|].
  rewrite count_cons, decide_True in Hle by done. pose proof (count_nonneg c cs).
  assert (Hrel : release (deg, q) c = (<[c:=k - 1]> deg, if k - 1 =? 0 then q ++ [c] else q)).
  { unfold release; cbn [fst snd]. by rewrite Hc. }
  rewrite Hrel.
  assert (Hs' : settled D (<[c:=k - 1]> deg) (if k - 1 =? 0 then q ++ [c] else q)).
  { destruct Hs as [Hnd Hin]. assert (Hnin : c ∉ D ++ q) by (rewrite Hin, Hc; intros [= ->]; lia).
    destruct (Z.eqb_spec (k - 1) 0) as [H0|H0]; split.
    - rewrite app_assoc. apply NoDup_app. split; [done|]. split; [|apply NoDup_singleton].
      intros x Hx ->%list_elem_of_singleton. done.
    - intros x. rewrite app_assoc, elem_of_app, list_elem_of_singleton, Hin.
      destruct (decide (c = x)) as [->|Hne].
      + rewrite lookup_insert_eq, H0. split; [done | by right].
      + rewrite lookup_insert_ne by done. split; [by intros [?| ->] | by left].
    - done.
    - intros x. rewrite Hin. destruct (decide (c = x)) as [->|Hne];
        [rewrite lookup_insert_eq | by rewrite lookup_insert_ne]. rewrite Hc. split; [intros [= ->]; lia | intros [= ?]; lia]. }
  destruct (IH _ _ Hs') as [Hres Hdeg].
  { intros x Hx. destruct (Hk x) as (kx & Hkx & Hle'); [by right|]. rewrite count_cons in Hle'.
    destruct (decide (c = x)) as [->|Hne].
    - exists (k - 1). rewrite lookup_insert_eq. split; [done|]. simplify_eq. lia.
    - exists kx. rewrite lookup_insert_ne by done. split; [done|]. lia. }
  split; [exact Hres|]. intros x. rewrite Hdeg, count_cons. destruct (decide (c = x)) as [->|Hne].
  - rewrite lookup_insert_eq, Hc. simpl. f_equal. lia.
  - rewrite lookup_insert_ne by done. destruct (deg !! x); simpl; [f_equal; lia | done].
Qed.

(** *** The processing loop *)

Record kahn_inv E deg q D : Prop := {
  ki_settled : settled D deg q;
  ki_degree x : deg !! x = if decide (is_Some (transfers !! x)) then Some (into E D x) else None;
  ki_topo j x p : D !! j = Some x → (p, x) ∈ E → ∃ i, (i < j)%nat ∧ D !! i = Some p
}.

Lemma into_done E D id x :
  id ∉ D → into E D x = into E (D ++ [id]) x + count x (filter (λ e, e.1 = id) E).*2.
Proof.
  intros Hid. unfold into, count. induction E as [|[p c] E IH]; [done|].
  rewrite !(filter_cons _ (p, c)). cbn [fst snd].
  destruct (decide (p = id)) as [->|Hp]; cbn [fmap list_fmap fst snd]; [rewrite filter_cons|].
  - rewrite (decide_False (P := c = x ∧ id ∉ D ++ [id])) by (rewrite elem_of_app, list_elem_of_singleton; tauto).
    destruct (decide (c = x)) as [->|Hc].
    + rewrite decide_True by done. simpl length. lia.
    + rewrite decide_False by tauto. exact IH.
  - destruct (decide (c = x ∧ p ∉ D)) as [[-> Hn]|Hn].
    + rewrite decide_True; [simpl length; lia|]. split; [done|]. rewrite elem_of_app, list_elem_of_singleton. tauto.
    + rewrite decide_False; [exact IH|]. intros [-> Hn']. apply Hn. split; [done|].
      intros Hin. apply Hn'. rewrite elem_of_app. by left.
Qed.

Lemma into_zero E D x : into E D x = 0 ↔ ∀ p, (p, x) ∈ E → p ∈ D.
Proof.
  unfold into. split.
  - intros H0 p Hin. destruct (decide (p ∈ D)) as [?|Hn]; [done|].
    assert (He : (p, x) ∈ filter (λ e, e.2 = x ∧ e.1 ∉ D) E) by by apply list_elem_of_filter.
    destruct (filter _ E); [by apply elem_of_nil in He | simpl in H0; lia].
  - intros Hall. destruct (filter (λ e, e.2 = x ∧ e.1 ∉ D) E) as [|[p c] l] eqn:Hf; [done|].
    assert (He : (p, c) ∈ filter (λ e, e.2 = x ∧ e.1 ∉ D) E) by (rewrite Hf; left).
    apply list_elem_of_filter in He as [[He Hn] HE]. simpl in *. subst c. by apply Hall in HE.
Qed.

Lemma settled_length D deg q : settled D deg q →
  (∀ x, deg !! x = Some 0 → is_Some (transfers !! x)) → (length (D ++ q) ≤ size transfers)%nat.
Proof.
  intros [Hnd Hin] Hdom. rewrite <- length_map_to_list, <- (length_fmap fst).
  apply submseteq_length, NoDup_submseteq; [done|]. intros x Hx%Hin%Hdom.
  destruct Hx as [sp Hsp]. apply list_elem_of_fmap. exists (x, sp). split; [done|]. by apply elem_of_map_to_list.
Qed.

Lemma kahn_step E g deg id q D :
  graph_of g E → (∀ p c, (p, c) ∈ E → is_Some (transfers !! c)) → kahn_inv E deg (id :: q) D →
  let r := foldl release (deg, q) (default [] (children g !! id)) in kahn_inv E r.1 r.2 (D ++ [id]).
Proof.
  intros Hg HE [Hs Hdeg Htopo]. rewrite (go_children _ _ Hg).
  assert (Hs' : settled (D ++ [id]) deg q).
  { unfold settled in *. by rewrite <- app_assoc. }
  assert (Hid : id ∉ D).
  { destruct Hs as [Hnd _]. apply NoDup_app in Hnd as (_ & Hd & _). intros Hin. apply (Hd _ Hin). left. }
  destruct (release_all (D ++ [id]) (filter (λ e, e.1 = id) E).*2 deg q Hs') as [Hr Hdeg'].
  { intros c ((p & c') & -> & [_ Hin]%list_elem_of_filter)%list_elem_of_fmap. simpl.
    exists (into E D c'). rewrite Hdeg, decide_True by by eapply HE. split; [done|].
    rewrite (into_done E D id c' Hid). unfold into. lia. }
  cbv zeta. split; [exact Hr| |].
  - intros x. rewrite Hdeg', Hdeg. destruct (decide _); [|done]. simpl. f_equal.
    rewrite (into_done E D id x Hid). lia.
  - intros j x p Hj Hin. apply lookup_app_Some in Hj as [Hj|[Hlen Hj]].
    + destruct (Htopo _ _ _ Hj Hin) as (i & Hlt & Hi). exists i. split; [done|]. by apply lookup_app_l_Some.
    + apply list_lookup_singleton_Some in Hj as [Hj ->].
      assert (Hp : p ∈ D).
      { assert (H0 : deg !! x = Some 0) by (apply Hs; rewrite elem_of_app; right; left).
        rewrite Hdeg in H0. destruct (decide _); [|done]. injection H0 as H0. by apply (proj1 (into_zero E D x) H0). }
      apply list_elem_of_lookup in Hp as [i Hi]. exists i. split; [apply lookup_lt_Some in Hi; lia|].
      by apply lookup_app_l_Some.
Qed.

Lemma kahn_spec E g fuel deg q D :
  graph_of g E → (∀ p c, (p, c) ∈ E → is_Some (transfers !! c)) → kahn_inv E deg q D →
  (size transfers ≤ fuel + length D)%nat →
  ∃ D' deg', kahn fuel (children g) deg q (len D) = Some (len D') ∧ kahn_inv E deg' [] D'.
Proof.
  intros Hg HE. revert deg q D. induction fuel as [|fuel IH]; intros deg q D Hinv Hfuel.
  - destruct q as [|id q]; [by exists D, deg|]. exfalso.
    assert (Hle : (length (D ++ id :: q) ≤ size transfers)%nat).
    { eapply settled_length; [apply Hinv|]. intros x Hx. rewrite (ki_degree _ _ _ _ Hinv) in Hx. by destruct (decide _). }
    rewrite length_app in Hle. simpl in *. lia.
  - destruct q as [|id q]; [by exists D, deg|]. cbn [kahn].
    pose proof (kahn_step E g deg id q D Hg HE Hinv) as Hstep. cbv zeta in Hstep.
    destruct (foldl release _ _) as [deg' q']. simpl in Hstep.
    destruct (IH deg' q' (D ++ [id]) Hstep) as (D' & deg'' & Hk & Hinv'); [rewrite length_app; simpl; lia|].
    exists D', deg''. split; [|done]. rewrite <- Hk. f_equal. rewrite length_app. simpl. lia.
Qed.

(** *** What it decides *)

Lemma edgesOf_edge order p c :
  order ≡ₚ (map_to_list deps).*1 → (p, c) ∈ edgesOf order ↔ edge deps p c.
Proof.
  intros Ho. unfold edgesOf. rewrite list_elem_of_bind. split.
  - intros (c' & Hin & _). apply list_elem_of_fmap in Hin as (p' & [= -> ->] & Hp). exact Hp.
  - intros Hp. exists c. split; [apply list_elem_of_fmap; eauto|]. rewrite Ho.
    apply edge_deps in Hp as (ps & Hps & _). apply list_elem_of_fmap. exists (c, ps).
    split; [done|]. by apply elem_of_map_to_list.
Qed.

(** The nodes the loop processed: all of them exactly when nothing waits, directly
    or not, for itself. *)
Lemma processed_all_acyclic E deg D :
  closed transfers deps → (∀ p c, (p, c) ∈ E ↔ edge deps p c) → kahn_inv E deg [] D →
  length D = size transfers ↔ acyclic deps.
Proof.
  intros Hcl HE [[Hnd Hin] Hdeg Htopo]. rewrite app_nil_r in Hnd.
  assert (Hin0 : ∀ x, x ∈ D ↔ deg !! x = Some 0) by (intros x; by rewrite <- Hin, app_nil_r).
  assert (Hin' : ∀ x, x ∈ D ↔ is_Some (transfers !! x) ∧ ∀ p, edge deps p x → p ∈ D).
  { intros x. rewrite Hin0, Hdeg. destruct (decide _) as [Hs|Hn].
    - split; [intros [= H0]; split; [done|]; intros p Hp; apply (proj1 (into_zero E D x) H0), HE, Hp|].
      intros [_ Hp]. f_equal. apply into_zero. intros p Hpx. by apply Hp, HE.
    - split; [done | by intros [? _]]. }
  assert (Hdom : ∀ x, x ∈ D → x ∈ (map_to_list transfers).*1).
  { intros x [[sp Hsp] _]%Hin'. apply list_elem_of_fmap. exists (x, sp). split; [done|]. by apply elem_of_map_to_list. }
  assert (Hsub : D ⊆+ (map_to_list transfers).*1) by by apply NoDup_submseteq.
  split.
  - intros Hlen x Hcyc.
    assert (Hall : ∀ y, is_Some (transfers !! y) → y ∈ D).
    { intros y [sp Hsp]. apply (submseteq_length_Permutation _ _) in Hsub;
        [|rewrite length_fmap, length_map_to_list; lia].
      rewrite Hsub. apply list_elem_of_fmap. exists (y, sp). split; [done|]. by apply elem_of_map_to_list. }
    assert (Hpos : ∀ a b, tc (edge deps) a b → ∀ j, D !! j = Some b → ∃ i, (i < j)%nat ∧ D !! i = Some a).
    { induction 1 as [a b Hab|a b c Hab _ IH]; intros j Hj.
      - apply (Htopo j b a Hj). by apply HE.
      - destruct (IH j Hj) as (i & Hi & Hb). destruct (Htopo i b a Hb) as (i' & ? & ?); [by apply HE|].
        exists i'. split; [lia | done]. }
    assert (Hx : x ∈ D).
    { apply Hall. assert (∃ p, edge deps p x) as [p (ps & Hps & _)%edge_deps].
      { clear -Hcyc. induction Hcyc; eauto. }
      by destruct (Hcl x ps Hps). }
    apply list_elem_of_lookup in Hx as [j Hj]. destruct (Hpos x x Hcyc j Hj) as (i & Hlt & Hi).
    assert (i = j) by by eapply NoDup_lookup. lia.
  - intros Hac. destruct (decide (length D = size transfers)) as [?|Hne]; [done|]. exfalso.
    set (X := dom transfers ∖ list_to_set D : gset string).
    destruct (acyclic_source deps Hac X) as (x & Hx & Hpar).
    + intros HX. apply Hne. pose proof (submseteq_length _ _ Hsub) as Hle.
      rewrite length_fmap, length_map_to_list in Hle.
      assert (Hge : (map_to_list transfers).*1 ⊆+ D).
      { apply NoDup_submseteq; [apply NoDup_fst_map_to_list|]. intros y Hy.
        apply list_elem_of_fmap in Hy as ([y' sp] & -> & Hy%elem_of_map_to_list). simpl.
        destruct (decide (y' ∈ D)) as [?|Hn]; [done|]. exfalso.
        assert (y' ∈ X) as HyX by (unfold X; rewrite elem_of_difference, elem_of_dom, elem_of_list_to_set; by eauto).
        rewrite HX in HyX. by apply not_elem_of_empty in HyX. }
      apply submseteq_length in Hge. rewrite length_fmap, length_map_to_list in Hge. lia.
    + unfold X in Hx. rewrite elem_of_difference, elem_of_dom, elem_of_list_to_set in Hx. destruct Hx as [Hs Hn].
      apply Hn, Hin'. split; [done|]. intros p Hp. destruct (decide (p ∈ D)) as [?|Hpn]; [done|]. exfalso.
      apply (Hpar p Hp). unfold X. rewrite elem_of_difference, elem_of_dom, elem_of_list_to_set. split; [|done].
      apply edge_deps in Hp as (ps & Hps & Hpin). destruct (Hcl x ps Hps) as [_ Hall]. by apply Hall.
Qed.
End kahn.

(** ** The whole check *)

Lemma rfold_check {B} (f : B → result unit) (l : list B) :
  match rfold (λ _ x, f x) tt l with
  | Ok _ => ∀ x, x ∈ l → f x = Ok tt
  | Err e => ∃ x, x ∈ l ∧ f x = Err e
  end.
Proof.
  induction l as [|x l IH]; simpl; [by intros ? ?%elem_of_nil|].
  destruct (f x) as [[]|e] eqn:Hx; simpl.
  - destruct (rfold _ tt l) as [[]|e].
    + by intros y [->|?]%elem_of_cons; auto.
    + destruct IH as (y & ? & ?). exists y. split; [by right | done].
  - exists x. split; [left | done].
Qed.

Lemma map_keys {V} (m : gmap string V) k : k ∈ (map_to_list m).*1 ↔ is_Some (m !! k).
Proof.
  rewrite list_elem_of_fmap. split.
  - intros ([k' v] & -> & H%elem_of_map_to_list). by eauto.
  - intros [v Hv]. exists (k, v). split; [done|]. by apply elem_of_map_to_list.
Qed.

Lemma checkSpec_ok transfers key :
  checkSpec transfers key = Ok tt ↔
  ∀ spec, transfers !! key = Some spec → ct_Id spec = key ∧ MoneyCheck.Validate "amount" (ct_Amount spec) = Ok tt.
Proof.
  unfold checkSpec. destruct (transfers !! key) as [spec|]; [|naive_solver].
  split.
  - intros Hc spec' [= <-]. case_bool_decide as Hid; simpl in Hc; [|done]. split; [done|].
    unfold validateChildAmount in Hc. by destruct (MoneyCheck.Validate _ _) as [[]|].
  - intros Hs. destruct (Hs spec eq_refl) as [-> Hm]. rewrite bool_decide_true by done. simpl.
    unfold validateChildAmount. by rewrite Hm.
Qed.

Section validate.
Context (o : dagOrder) (transfers : Transfers) (deps : Deps).
Hypothesis Hrange : rangeOrder o transfers deps.

Lemma initial_graph : graph_of transfers (mkGraph ((λ _, 0) <$> transfers) ∅) [].
Proof.
  split; simpl.
  - intros id. rewrite lookup_fmap. destruct (transfers !! id) as [sp|] eqn:Hid; simpl.
    + done.
    + done.
  - intros p. by rewrite lookup_empty.
Qed.

Lemma buildGraph_spec :
  match buildGraph transfers deps (depsOrder o) with
  | Ok g => closed transfers deps ∧ graph_of transfers g (edgesOf deps (depsOrder o))
  | Err _ => ¬ closed transfers deps
  end.
Proof.
  destruct Hrange as (_ & Hd & _). pose proof (addChildren_graph transfers deps _ [] (depsOrder o) initial_graph) as Hb.
  unfold buildGraph. destruct (rfold _ _ _) as [g|e].
  - destruct Hb as [Hall Hg]. split; [|exact Hg]. intros c ps Hps.
    destruct (Hall c) as [Hc Hp]; [rewrite Hd; apply map_keys; eauto|].
    unfold parentsOf in Hp. rewrite Hps in Hp. done.
  - destruct Hb as (c & Hc & Hbad). intros Hcl. rewrite Hd in Hc. apply map_keys in Hc as [ps Hps].
    destruct (Hcl c ps Hps) as [[sp Hsp] Hp]. destruct Hbad as [Hn|(p & Hin & Hn)]; [congruence|].
    unfold parentsOf in Hin. rewrite Hps in Hin. destruct (Hp p Hin). congruence.
Qed.

(** The loop ends with as many nodes processed as there are exactly when the
    graph is acyclic, and the number of transfers is enough fuel. *)
Lemma kahn_decides g :
  closed transfers deps → graph_of transfers g (edgesOf deps (depsOrder o)) →
  ∃ n, kahn (size transfers) (children g) (inDegree g)
         (filter (λ id, inDegree g !! id = Some 0) (degreeOrder o)) 0 = Some n ∧
       (n = Z.of_nat (size transfers) ↔ acyclic deps).
Proof.
  intros Hcl Hg. destruct Hrange as (_ & Hd & Hdeg). set (E := edgesOf deps (depsOrder o)) in *.
  assert (HE : ∀ p c, (p, c) ∈ E ↔ edge deps p c) by (intros; by apply edgesOf_edge).
  assert (Hinv : kahn_inv transfers E (inDegree g) (filter (λ id, inDegree g !! id = Some 0) (degreeOrder o)) []).
  { split.
    - split; simpl.
      + apply NoDup_filter. rewrite Hdeg. apply NoDup_fst_map_to_list.
      + intros x. rewrite list_elem_of_filter, Hdeg, map_keys. split; [by intros [? _]|]. intros H0. split; [done|].
        rewrite (go_degree _ _ _ Hg) in H0. by destruct (decide _).
    - intros x. apply (go_degree _ _ _ Hg).
    - done. }
  assert (HEc : ∀ p c, (p, c) ∈ E → is_Some (transfers !! c)).
  { intros p c Hpc%HE. apply edge_deps in Hpc as (ps & Hps & _). by destruct (Hcl c ps Hps). }
  destruct (kahn_spec transfers E g (size transfers) _ _ [] Hg HEc Hinv) as (D & deg' & Hk & Hinv').
  - simpl. lia.
  - exists (len D). split; [exact Hk|]. rewrite <- (processed_all_acyclic transfers deps E deg' D Hcl HE Hinv'). lia.
Qed.

Lemma rfold_plain {A B} (f : A → B → result A) a l e :
  (∀ a x e, f a x = Err e → e_is e = []) → rfold f a l = Err e → e_is e = [].
Proof.
  intros Hf. revert a. induction l as [|x l IH]; intros a; simpl; [done|].
  destruct (f a x) eqn:Hx; simpl; [apply IH | intros [= <-]; by eapply Hf].
Qed.
End validate.

Lemma validateDAG_spec o transfers deps :
  rangeOrder o transfers deps →
  (validateDAG o transfers deps = Ok tt ↔ valid_spec transfers deps).
Proof.
  intros Hr. unfold validateDAG, valid_spec.
  destruct (Z.eqb_spec (Z.of_nat (size transfers)) 0) as [H0|H0].
  { split; [done|]. intros [Hne _]. assert (size transfers = 0%nat) as ->%map_size_empty_inv by lia. done. }
  destruct (Z.ltb_spec maxTransfersPerTransaction (Z.of_nat (size transfers))) as [Hbig|Hle].
  { split; [done|]. intros (_ & ? & _). lia. }
  pose proof (rfold_check (checkSpec transfers) (transfersOrder o)) as Hcheck.
  destruct (rfold _ tt _) as [[]|e]; cbn [rbind].
  2: { split; [done|]. intros (_ & _ & Hall & _). destruct Hcheck as (key & _ & Hbad).
       assert (checkSpec transfers key = Ok tt) by (apply checkSpec_ok; eauto). congruence. }
  assert (Hspecs : ∀ key spec, transfers !! key = Some spec →
            ct_Id spec = key ∧ MoneyCheck.Validate "amount" (ct_Amount spec) = Ok tt).
  { intros key spec Hk. assert (key ∈ transfersOrder o) as Hin.
    { destruct Hr as (-> & _). apply map_keys. eauto. }
    by apply (proj1 (checkSpec_ok transfers key) (Hcheck _ Hin)). }
  pose proof (buildGraph_spec o transfers deps Hr) as Hb.
  destruct (buildGraph _ _ _) as [g|e]; cbn [rbind].
  2: { split; [done|]. by intros (_ & _ & _ & ? & _). }
  destruct Hb as [Hcl Hg]. destruct (kahn_decides o transfers deps Hr g Hcl Hg) as (n & -> & Hn).
  assert (transfers ≠ ∅) by (intros ->; by rewrite map_size_empty in H0).
  destruct (Z.eqb_spec n (Z.of_nat (size transfers))) as [He|He].
  - apply Hn in He. by split.
  - split; [done|]. by intros (_ & _ & _ & _ & ?%Hn).
Qed.

(** Kahn's loop processes each Transfer at most once. *)
Lemma validateDAG_total o transfers deps e :
  rangeOrder o transfers deps → validateDAG o transfers deps = Err e → Is e OutOfFuel = false.
Proof.
  intros Hr. unfold validateDAG. destruct (_ =? 0); [by intros [= <-]|]. destruct (_ <? _); [by intros [= <-]|].
  destruct (rfold _ tt _) as [[]|e'] eqn:Hc; cbn [rbind].
  2: { intros [= <-]. apply rfold_plain in Hc; [unfold Is; by rewrite Hc|].
       intros _ key e2. unfold checkSpec. destruct (transfers !! key); [|done].
       destruct (negb _); [by intros [= <-]|]. unfold validateChildAmount. destruct (MoneyCheck.Validate _ _); by intros [= <-]. }
  pose proof (buildGraph_spec o transfers deps Hr) as Hb.
  destruct (buildGraph transfers deps (depsOrder o)) as [g|e'] eqn:Hg; cbn [rbind].
  - destruct Hb as [Hcl Hgo]. destruct (kahn_decides o transfers deps Hr g Hcl Hgo) as (n & -> & _).
    destruct (_ =? _); by intros [= <-].
  - intros [= <-]. unfold buildGraph in Hg. apply rfold_plain in Hg; [unfold Is; by rewrite Hg|].
    intros g c e2. unfold addChild. destruct (transfers !! c); [|by intros [= <-]]. apply rfold_plain.
    intros g' p e3. unfold addEdge. destruct (transfers !! p); by intros [= <-].
Qed.

(** C17. [validateDAG] accepts a request if and only if it is well formed: it
    names between one and 64 Transfers, each keyed by its own id with an amount a
    Transfer would accept, every dependency is between Transfers it names, and no
    Transfer depends, directly or through others, on itself. The verdict is the
    same for every order Go ranges the maps in, and there always is one: Kahn's
    loop never runs past the number of Transfers. *)
Theorem validateDAG_correct o transfers deps :
  rangeOrder o transfers deps →
  (valid_spec transfers deps → validateDAG o transfers deps = Ok tt) ∧
  (¬ valid_spec transfers deps → ∃ e, validateDAG o transfers deps = Err e ∧ Is e OutOfFuel = false).
Proof.
  intros Hr. pose proof (validateDAG_spec o transfers deps Hr) as Hspec.
  destruct (validateDAG o transfers deps) as [[]|e] eqn:Hv; split; intros Hs.
  - done.
  - exfalso. by apply Hs, Hspec.
  - by apply Hspec.
  - exists e. split; [done | by eapply validateDAG_total].
Qed.

(** ** The theorem at work *)

Definition sampleChild (id : string) : ChildTransfer := mkChildTransfer id (Some (mkMoney 5 "USD")) "" "" false false.
Definition sampleTransfers : Transfers := {[ "a" := sampleChild "a"; "b" := sampleChild "b" ]}.
Definition sampleOrder (deps : Deps) : dagOrder :=
  mkDagOrder (map_to_list sampleTransfers).*1 (map_to_list deps).*1 (map_to_list sampleTransfers).*1.

(** Two Transfers that wait for each other. *)
Definition sampleCycle : Deps := {[ "a" := ["b"]; "b" := ["a"] ]}.

Lemma validateDAG_correct_witness :
  ¬ valid_spec sampleTransfers sampleCycle ∧
  ∃ e, validateDAG (sampleOrder sampleCycle) sampleTransfers sampleCycle = Err e ∧ Is e OutOfFuel = false.
Proof.
  assert (Hr : rangeOrder (sampleOrder sampleCycle) sampleTransfers sampleCycle) by done.
  assert (Hbad : ¬ valid_spec sampleTransfers sampleCycle).
  { intros (_ & _ & _ & _ & Hac). apply (Hac "a"). apply (tc_l _ "a" "b"); [|apply tc_once]; unfold edge; decided. }
  split; [exact Hbad|]. by apply (validateDAG_correct (sampleOrder sampleCycle) sampleTransfers sampleCycle Hr).
Defined.
