(* ===== verification/TransactionState.v ===== *)
(** * A Transaction's stream ([go/internal/transaction/saga.go], its folds)

    A Transaction is where its own stream says it is: a top-level state, and one
    state per child, folded from the bookkeeping events. [consequence] is the
    step those facts alone decide next; [stillDecidable] is the check that a
    step decided from an older fold may still be recorded; [planRollback] reads
    a rollback's next move. The programs that act on them are in
    [TransactionSaga]. *)

From S2P Require Import Prelude Proto EventStore Ledger Effects Validate Dag.

Definition TransactionAggregateType : string := "transaction".

Inductive transactionState : Type :=
| stateTxUnknown | stateInitialized | stateStarted | stateRollbackStarted
| stateCompleted | stateRolledBack | stateRollbackFailed | stateRejected.

#[global] Instance transactionState_eq_dec : EqDecision transactionState.
Proof. solve_decision. Defined.

Definition transactionState_String (s : transactionState) : string :=
  match s with
  | stateInitialized => "initialized"
  | stateStarted => "started"
  | stateRollbackStarted => "rollback_started"
  | stateCompleted => "completed"
  | stateRolledBack => "rolled_back"
  | stateRollbackFailed => "rollback_failed"
  | stateRejected => "rejected"
  | stateTxUnknown => "unknown"
  end.

(** [pb.TransactionState] *)
Inductive TransactionState : Type :=
| TRANSACTION_STATE_UNSPECIFIED | TRANSACTION_STATE_INITIALIZED | TRANSACTION_STATE_STARTED
| TRANSACTION_STATE_ROLLBACK_STARTED | TRANSACTION_STATE_COMPLETED | TRANSACTION_STATE_ROLLED_BACK
| TRANSACTION_STATE_ROLLBACK_FAILED | TRANSACTION_STATE_REJECTED.

Definition transactionState_proto (s : transactionState) : TransactionState :=
  match s with
  | stateInitialized => TRANSACTION_STATE_INITIALIZED
  | stateStarted => TRANSACTION_STATE_STARTED
  | stateRollbackStarted => TRANSACTION_STATE_ROLLBACK_STARTED
  | stateCompleted => TRANSACTION_STATE_COMPLETED
  | stateRolledBack => TRANSACTION_STATE_ROLLED_BACK
  | stateRollbackFailed => TRANSACTION_STATE_ROLLBACK_FAILED
  | stateRejected => TRANSACTION_STATE_REJECTED
  | stateTxUnknown => TRANSACTION_STATE_UNSPECIFIED
  end.

(** The [switch] of [topLevelState]. *)
Definition topLevelByType (eventType : string) : option transactionState :=
  if bool_decide (eventType = full_name KTransactionInitialized) then Some stateInitialized
  else if bool_decide (eventType = full_name KTransactionRejected) then Some stateRejected
  else if bool_decide (eventType = full_name KTransactionStarted) then Some stateStarted
  else if bool_decide (eventType = full_name KTransactionRollbackStarted) then Some stateRollbackStarted
  else if bool_decide (eventType = full_name KTransactionCompleted) then Some stateCompleted
  else if bool_decide (eventType = full_name KTransactionRolledBack) then Some stateRolledBack
  else if bool_decide (eventType = full_name KTransactionRollbackFailed) then Some stateRollbackFailed
  else None.

Inductive childState : Type :=
| childUntouched | childRequested | childCompleted | childFailed
| childRollbackRequested | childRolledBack | childRollbackFailed.

#[global] Instance childState_eq_dec : EqDecision childState.
Proof. solve_decision. Defined.

(** What one message says of a child. *)
Definition childFact (m : message) : option (string * childState) :=
  match m with
  | TransferRequestedWithinTransaction _ id => Some (id, childRequested)
  | TransferCompletedWithinTransaction _ id => Some (id, childCompleted)
  | TransferFailedWithinTransaction _ id _ => Some (id, childFailed)
  | TransferReversalRequestedWithinTransaction _ id _ => Some (id, childRollbackRequested)
  | TransferRolledBackWithinTransaction _ id _ _ => Some (id, childRolledBack)
  | TransferRollbackFailedWithinTransaction _ id _ => Some (id, childRollbackFailed)
  | _ => None
  end.

(** The child a message is about, the empty id for a top-level one. *)
Definition childEventTransferID (m : message) : string := default "" (fst <$> childFact m).

Notation Children := (gmap string childState).

Definition recordFact (states : Children) (m : message) : Children :=
  match childFact m with
  | Some (id, st) => <[id := st]> states
  | None => states
  end.

(** ** What the fold of the children says *)

Definition childAt (children : Children) (id : string) : childState := default childUntouched (children !! id).

Definition withState (st : childState) (children : Children) : gset string :=
  dom (filter (λ x, snd x = st) children).

Definition touchedSet (children : Children) : gset string := dom children.
Definition completedSet (children : Children) : gset string := withState childCompleted children.

(** The first failed child in the order the map is ranged. *)
Definition firstFailed (order : list string) (children : Children) : option string :=
  snd <$> list_find (λ id, children !! id = Some childFailed) order.

Definition allTerminal (transfers : Transfers) (children : Children) : bool :=
  forallb (λ id, bool_decide (childAt children id = childCompleted)) (map_to_list transfers).*1.

Record rollbackPlan : Type := mkPlan { candidates : list string; plan_inFlight : bool; anyFailed : bool }.

Definition resolvedSet (children : Children) : gset string :=
  withState childRolledBack children ∪ withState childFailed children.

(** [order] is the one [readyToRollback] ranges the transfers in. *)
Definition planRollback (order : list string) (deps : Deps) (children : Children) : rollbackPlan :=
  let inFlight := withState childRollbackRequested children in
  mkPlan
    (filter (λ id, childAt children id ≠ childRollbackFailed)
       (readyToRollback order deps (touchedSet children) (resolvedSet children) inFlight))
    (negb (bool_decide (inFlight = ∅)))
    (negb (bool_decide (withState childRollbackFailed children = ∅))).

Section stream.
Context {C : Codec}.

Definition topLevelState (events : list Event) : transactionState :=
  foldl (λ state e, default state (topLevelByType (EType e))) stateTxUnknown events.

(** ** Reasons *)

Definition lastEventReason (events : list Event) : result string :=
  match last events with
  | None => Ok ""
  | Some e =>
      let? msg := rmap_err InternalErrorWith (Decode e) in
      match msg with
      | TransactionRejected _ reason | TransactionRollbackStarted _ reason
      | TransactionRolledBack _ reason | TransactionRollbackFailed _ reason => Ok reason
      | _ => Ok ""
      end
  end.

Fixpoint rollbackStartedReason (events : list Event) : result string :=
  match events with
  | [] => Ok ""
  | e :: rest =>
      if bool_decide (EType e = full_name KTransactionRollbackStarted) then
        let? msg := rmap_err InternalErrorWith (Decode e) in
        match msg with
        | TransactionRollbackStarted _ reason => Ok reason
        | _ => Ok ""
        end
      else rollbackStartedReason rest
  end.

Fixpoint failureReason (events : list Event) (transferID : string) : result string :=
  match events with
  | [] => Ok ""
  | e :: rest =>
      if bool_decide (EType e = full_name KTransferFailedWithinTransaction) then
        let? msg := rmap_err InternalErrorWith (Decode e) in
        match msg with
        | TransferFailedWithinTransaction _ id reason =>
            if bool_decide (id = transferID) then Ok reason else failureReason rest transferID
        | _ => failureReason rest transferID
        end
      else failureReason rest transferID
  end.

Fixpoint requestedReversalID (events : list Event) (transferID : string) : result string :=
  match events with
  | [] => Ok ""
  | e :: rest =>
      if bool_decide (EType e = full_name KTransferReversalRequestedWithinTransaction) then
        let? msg := rmap_err InternalErrorWith (Decode e) in
        match msg with
        | TransferReversalRequestedWithinTransaction _ id reversalID =>
            if bool_decide (id = transferID) then Ok reversalID else requestedReversalID rest transferID
        | _ => requestedReversalID rest transferID
        end
      else requestedReversalID rest transferID
  end.

(** ** Children *)

Definition foldChild (states : Children) (e : Event) : result Children :=
  let? msg := rmap_err InternalErrorWith (Decode e) in
  Ok (recordFact states msg).

Definition foldChildStates (events : list Event) : result Children := rfold foldChild ∅ events.

(** ** What the stream decides *)

Definition rollbackFailedReason (reason : string) : string :=
  if bool_decide (reason = "") then
    "one or more children could not be rolled back; see TransferRollbackFailedWithinTransaction"
  else reason.

(** [order] is the one [firstFailed] ranges the children in; whether the
    rollback has candidates left does not depend on an order. *)
Definition consequenceOf (order : list string) (events : list Event) (transactionID : string)
    : result (option message) :=
  match topLevelState events with
  | stateStarted =>
      let? (transfers, _) := decodeSpec events in
      let? children := foldChildStates events in
      match firstFailed order children with
      | Some failedID =>
          let? reason := failureReason events failedID in
          Ok (Some (TransactionRollbackStarted transactionID
                      ("child " +:+ quoted failedID +:+ " failed: " +:+ reason)))
      | None =>
          if allTerminal transfers children then Ok (Some (TransactionCompleted transactionID)) else Ok None
      end
  | stateRollbackStarted =>
      let? (transfers, deps) := decodeSpec events in
      let? children := foldChildStates events in
      let plan := planRollback (map_to_list transfers).*1 deps children in
      if negb (bool_decide (candidates plan = [])) || plan_inFlight plan then Ok None
      else
        let? reason := rollbackStartedReason events in
        if anyFailed plan then
          Ok (Some (TransactionRollbackFailed transactionID (rollbackFailedReason reason)))
        else Ok (Some (TransactionRolledBack transactionID reason))
  | _ => Ok None
  end.

Definition stillDecidableOf (order : list string) (events : list Event) (transactionID : string)
    (event : message) : result bool :=
  let top := topLevelState events in
  match kind_of event with
  | KTransferCompletedWithinTransaction | KTransferFailedWithinTransaction =>
      if negb (bool_decide (top = stateStarted)) then Ok false
      else
        let? children := foldChildStates events in
        Ok (bool_decide (childAt children (childEventTransferID event) = childRequested))
  | KTransactionRollbackStarted => Ok (bool_decide (top = stateInitialized) || bool_decide (top = stateStarted))
  | KTransferReversalRequestedWithinTransaction | KTransferRolledBackWithinTransaction
  | KTransferRollbackFailedWithinTransaction => Ok (bool_decide (top = stateRollbackStarted))
  | KTransactionCompleted | KTransactionRolledBack | KTransactionRollbackFailed =>
      let? next := consequenceOf order events transactionID in
      Ok (bool_decide (EventType <$> next = Some (EventType event)))
  | _ => Err (plain ("transaction: " +:+ EventType event +:+ " is not a step appendSagaStep records"))
  end.

(** Whether an event of [event]'s own type about the same child is there. *)
Fixpoint alreadyRecorded (events : list Event) (event : message) : result bool :=
  match events with
  | [] => Ok false
  | e :: rest =>
      if bool_decide (EType e = EventType event) then
        let? msg := rmap_err InternalErrorWith (Decode e) in
        if bool_decide (childEventTransferID msg = childEventTransferID event) then Ok true
        else alreadyRecorded rest event
      else alreadyRecorded rest event
  end.

(** [GlobalSeq] and [OccurredAt] are left at their zero values. *)
Definition withPending (events : list Event) (transactionID : string) (event : message)
    : result (list Event) :=
  match marshal event with
  | None => Err (InternalErrorWith (plain "proto: marshal"))
  | Some payload =>
      Ok (events ++ [mkEvent _ 0 TransactionAggregateType transactionID (len events + 1)
                       (EventType event) payload 0])
  end.
End stream.
