(* ===== verification/TransactionSaga.v ===== *)
(** * The Transaction saga and service ([go/internal/transaction])

    [saga.go]: recording a step with everything it decides in one append,
    dispatching ready children as intents before requests, reconciling children
    with their Transfers' live outcomes, and rolling back. [server.go] and the
    pre-flight of [dag.go]: the RPCs, and the two checkers handed to Wallets and
    Transfers. Children are driven through [TransferClient], the narrow
    interface the source declares. *)

From S2P Require Import Prelude Proto EventStore Ledger Effects Validate Wallet Token TransferState.
From S2P Require Import TransferManifest TransferSaga TransferServer Dag TransactionState.

Section saga.
Context {C : Codec} {U : UuidPackage} {S256 : Sha256}.

(** [transferClient] *)
Record TransferClient : Type := mkTransferClient {
  tc_RequestTransfer : RequestTransferRequest → M response;
  tc_CancelAcceptedTransfer : string → string → M response;
  tc_RequestReversal : RequestReversalRequest → M response;
  tc_CancelStagedTransfer : string → string → M response;
  tc_WouldAcceptTransfer : string → option Money → string → M (option string)
}.

Context (client : TransferClient) (fuel : nat).

Definition loadTransaction (transactionID : string) : M (list Event) :=
  mapErr InternalErrorWith (load TransactionAggregateType transactionID).

(** ** Recording a step *)

(** The order a range over the children folded from [events] takes. *)
Definition childOrder (events : list Event) : M (list string) :=
  rangeKeys (match foldChildStates events with Ok children => children | Err _ => ∅ end).

Definition consequence (events : list Event) (transactionID : string) : M (option message) :=
  let* order := childOrder events in
  lift (consequenceOf order events transactionID).

Definition stillDecidable (events : list Event) (transactionID : string) (event : message) : M bool :=
  let* order := childOrder events in
  lift (stillDecidableOf order events transactionID event).

(** What [next] decides in turn, and what that does: the source's loop has no
    bound of its own; a step decides at most two more. *)
Fixpoint consequences (n : nat) (after : list Event) (transactionID : string) (next : message)
    : M (list message) :=
  match n with
  | O => outOfFuel
  | S n =>
      let* after := lift (withPending after transactionID next) in
      let* decided := consequence after transactionID in
      match decided with
      | None => ret []
      | Some next =>
          let* rest := consequences n after transactionID next in
          ret (next :: rest)
      end
  end.

Definition consequenceFuel : nat := 3.

Fixpoint appendSagaStepLoop (n : nat) (transactionID : string) (event : message) : M unit :=
  match n with
  | O => outOfFuel
  | S n =>
      let* events := loadTransaction transactionID in
      let* already := lift (alreadyRecorded events event) in
      if already : bool then ret tt
      else
        let* ok := stillDecidable events transactionID event in
        if negb ok then ret tt
        else
          let* decided :=
            (if negb (bool_decide (childEventTransferID event = ""))
             then consequences consequenceFuel events transactionID event else ret []) in
          try (append TransactionAggregateType transactionID (len events) (event :: decided)) (fun r =>
            match r with
            | Ok _ => ret tt
            | Err err =>
                if Is err ErrConcurrencyConflict then appendSagaStepLoop n transactionID event
                else fail (InternalErrorWith err)
            end)
  end.

Definition appendTxStep (transactionID : string) (event : message) : M unit :=
  appendSagaStepLoop fuel transactionID event.

(** ** Dispatching *)

Definition maxDispatchPerStep : nat := 8.

Definition recordIntents (transactionID : string) (version : Z) (intents : list message) : M bool :=
  try (append TransactionAggregateType transactionID version intents) (fun r =>
    match r with
    | Ok _ => ret true
    | Err err => if Is err ErrConcurrencyConflict then ret false else fail (InternalErrorWith err)
    end).

Definition requestFor (transactionID : string) (spec : ChildTransfer) : RequestTransferRequest :=
  mkRequestTransfer (ct_Id spec) (ct_FromWalletId spec) (ct_ToWalletId spec) (ct_Amount spec)
    (ct_Stage spec) transactionID (ct_MintSource spec).

(** [true]: the Transfer was rejected, and that was recorded. *)
Definition requestChildTransfer (transactionID : string) (spec : ChildTransfer) : M bool :=
  let* resp := tc_RequestTransfer client (requestFor transactionID spec) in
  match rs_Result resp with
  | TransferRequestRejected _ reason =>
      appendTxStep transactionID (TransferFailedWithinTransaction transactionID (ct_Id spec) reason) ;;;
      ret true
  | _ => ret false
  end.

(** A missing entry of a map of messages is a nil message: every getter answers
    its zero value. *)
Definition nilChild : ChildTransfer := mkChildTransfer "" None "" "" false false.
Definition specOf (transfers : Transfers) (id : string) : ChildTransfer := default nilChild (transfers !! id).

Definition intent (transactionID childID : string) : message :=
  TransferRequestedWithinTransaction transactionID childID.

(** (dispatched, more) *)
Definition dispatchReady (transactionID : string) (version : Z) (transfers : Transfers) (deps : Deps)
    (children : Children) (starting : bool) : M (bool * bool) :=
  let* order := rangeKeys transfers in
  let ready := readyToRun order deps (touchedSet children) (completedSet children) in
  if bool_decide (ready = []) && negb starting then ret (false, false)
  else
    let more := bool_decide (maxDispatchPerStep < length ready)%nat in
    let slice := take maxDispatchPerStep ready in
    let intents := (if starting then [TransactionStarted transactionID] else []) ++
                   (intent transactionID <$> slice) in
    let* recorded := recordIntents transactionID version intents in
    if negb recorded then ret (true, false)
    else
      mapM_ (λ childID, requestChildTransfer transactionID (specOf transfers childID) ;;; ret tt) slice ;;;
      ret (true, more).

(** ** Reconciling *)

Definition reconcileChild (transactionID : string) (transfers : Transfers) (childID : string) : M bool :=
  let* outcome := Outcome childID in
  match outcome with
  | OutcomeNotFound | OutcomeRejected => requestChildTransfer transactionID (specOf transfers childID)
  | OutcomeCommitted =>
      appendTxStep transactionID (TransferCompletedWithinTransaction transactionID childID) ;;; ret true
  | OutcomeFailed | OutcomeCancelled =>
      appendTxStep transactionID (TransferFailedWithinTransaction transactionID childID
        ("child transfer reached " +:+ OutcomeKind_String outcome)) ;;; ret true
  | _ => ret false
  end.

(** [for id, st := range children]: [f] on every child in state [st]; whether
    any progressed. *)
Fixpoint anyChild (f : string → M bool) (ids : list string) (progressed : bool) : M bool :=
  match ids with
  | [] => ret progressed
  | id :: ids =>
      let* p := f id in
      anyChild f ids (progressed || p)
  end.

Definition inState (st : childState) (children : Children) (order : list string) : list string :=
  filter (λ id, children !! id = Some st) order.

Definition reconcileInFlight (transactionID : string) (transfers : Transfers) (children : Children) : M bool :=
  let* order := rangeKeys children in
  anyChild (reconcileChild transactionID transfers) (inState childRequested children order) false.

Definition reconcileReversal (transactionID : string) (events : list Event) (childID : string) : M bool :=
  let* reversalID := lift (requestedReversalID events childID) in
  if bool_decide (reversalID = "") then fail (plain "transaction: child is awaiting a reversal with no recorded id")
  else
    let* outcome := Outcome reversalID in
    match outcome with
    | OutcomeCommitted =>
        appendTxStep transactionID (TransferRolledBackWithinTransaction transactionID childID
          ROLLBACK_METHOD_REVERSED reversalID) ;;; ret true
    | OutcomeFailed | OutcomeCancelled | OutcomeRejected =>
        appendTxStep transactionID (TransferRollbackFailedWithinTransaction transactionID childID
          ("reversal " +:+ quoted reversalID +:+ " reached " +:+ OutcomeKind_String outcome +:+
           " instead of committing")) ;;; ret true
    | _ => ret false
    end.

Definition reconcileRollbacks (transactionID : string) (events : list Event) (children : Children) : M bool :=
  let* order := rangeKeys children in
  anyChild (reconcileReversal transactionID events) (inState childRollbackRequested children order) false.

(** ** Rolling back *)

Definition rollbackReason : string := "transaction rollback".

(** The source recurs to undo a child by what it became; [n] bounds how often. *)
Fixpoint rollbackChild (n : nat) (transactionID : string) (spec : ChildTransfer) (state : childState) : M unit :=
  match n with
  | O => outOfFuel
  | S n =>
      if negb (bool_decide (state = childRequested)) && negb (bool_decide (state = childCompleted)) then
        fail (plain "transaction: rollbackChild: child is in a state planRollback never offers")
      else
        let* outcome := Outcome (ct_Id spec) in
        match outcome with
        | OutcomeNotFound =>
            tc_RequestTransfer client (requestFor transactionID spec) ;;;
            rollbackChild n transactionID spec state
        | OutcomeCommitted =>
            let reversalID := Detid.New (transactionID +:+ ":reversal:" +:+ ct_Id spec) in
            let* resp := tc_RequestReversal client
                           (mkRequestReversal reversalID (ct_Id spec) (ct_Stage spec) transactionID) in
            match rs_Result resp with
            | ReversalRequestRejected _ _ reason =>
                appendTxStep transactionID
                  (TransferRollbackFailedWithinTransaction transactionID (ct_Id spec) reason)
            | _ =>
                appendTxStep transactionID
                  (TransferReversalRequestedWithinTransaction transactionID (ct_Id spec) reversalID)
            end
        | OutcomeStaged | OutcomePending =>
            let* resp := tc_CancelStagedTransfer client (ct_Id spec) rollbackReason in
            match rs_Result resp with
            | CancelStagedTransferRejected _ reason =>
                appendTxStep transactionID
                  (TransferRollbackFailedWithinTransaction transactionID (ct_Id spec) reason)
            | _ =>
                appendTxStep transactionID (TransferRolledBackWithinTransaction transactionID (ct_Id spec)
                  ROLLBACK_METHOD_CANCELLED "")
            end
        | OutcomeInFlight =>
            try (tc_CancelAcceptedTransfer client (ct_Id spec) rollbackReason) (fun r =>
              match r with
              | Err err =>
                  if bool_decide (e_code err = Some FailedPrecondition)
                  then rollbackChild n transactionID spec state
                  else fail err
              | Ok _ =>
                  appendTxStep transactionID (TransferRolledBackWithinTransaction transactionID (ct_Id spec)
                    ROLLBACK_METHOD_CANCELLED "")
              end)
        | OutcomeFailed | OutcomeCancelled | OutcomeRejected =>
            appendTxStep transactionID (TransferRolledBackWithinTransaction transactionID (ct_Id spec)
              ROLLBACK_METHOD_ABANDONED "")
        end
  end.

Record sweep : Type := mkSweep { sw_progressed : bool; sw_more : bool; sw_waiting : bool; sw_blocked : bool }.

Definition rollbackNext (transactionID : string) (transfers : Transfers) (deps : Deps) (children : Children)
    : M sweep :=
  let* order := rangeKeys transfers in
  let plan := planRollback order deps children in
  let slice := take maxDispatchPerStep (candidates plan) in
  let more := bool_decide (maxDispatchPerStep < length (candidates plan))%nat in
  mapM_ (λ childID, rollbackChild fuel transactionID (specOf transfers childID) (childAt children childID)) slice ;;;
  match slice with
  | _ :: _ => ret (mkSweep true more false false)
  | [] => ret (mkSweep false false (plan_inFlight plan) (anyFailed plan))
  end.

(** ** Driving *)

(** One turn of [runSaga]'s loop: [true] is [continue], [false] is a return. *)
Definition turn (transactionID : string) (events : list Event) : M bool :=
  match topLevelState events with
  | stateInitialized =>
      let* (transfers, deps) := lift (decodeSpec events) in
      let* (_, more) := dispatchReady transactionID (len events) transfers deps ∅ true in
      ret (negb more)
  | stateStarted =>
      let* (transfers, deps) := lift (decodeSpec events) in
      let* children := lift (foldChildStates events) in
      let* progressed := reconcileInFlight transactionID transfers children in
      if progressed : bool then ret true
      else
        let* next := consequence events transactionID in
        match next with
        | Some next => appendTxStep transactionID next ;;; ret true
        | None =>
            let* (dispatched, more) := dispatchReady transactionID (len events) transfers deps children false in
            ret (negb more && dispatched)
        end
  | stateRollbackStarted =>
      let* (transfers, deps) := lift (decodeSpec events) in
      let* children := lift (foldChildStates events) in
      let* reconciled := reconcileRollbacks transactionID events children in
      if reconciled : bool then ret true
      else
        let* out := rollbackNext transactionID transfers deps children in
        if sw_more out then ret false
        else if sw_progressed out then ret true
        else if sw_waiting out then ret false
        else
          let* concluded := consequence events transactionID in
          match concluded with
          | None => fail (plain "transaction: rollback made no progress yet reached no conclusion")
          | Some concluded => appendTxStep transactionID concluded ;;; ret true
          end
  | stateCompleted | stateRolledBack | stateRollbackFailed | stateRejected => ret false
  | stateTxUnknown => fail (plain "transaction: saga stuck in unrecognized state")
  end.

Fixpoint runTxLoop (n : nat) (transactionID : string) : M unit :=
  match n with
  | O => outOfFuel
  | S n =>
      let* events := loadTransaction transactionID in
      match events with
      | [] => fail (plain "transaction: no events")
      | _ =>
          let* again := turn transactionID events in
          if again : bool then runTxLoop n transactionID else ret tt
      end
  end.

Definition ResumeTransaction (transactionID : string) : M unit := runTxLoop fuel transactionID.

(** ** server.go *)

Definition IsOpen (transactionID : string) : M bool :=
  let* events := loadTransaction transactionID in
  match topLevelState events with
  | stateCompleted | stateRolledBack | stateRejected => ret false
  | _ => ret true
  end.

Definition TransactionTerminalEventTypes : list string :=
  full_name <$> [KTransactionCompleted; KTransactionRolledBack; KTransactionRollbackFailed; KTransactionRejected].

(** The Transfer a bookkeeping event asked for. *)
Definition requestedTransfer (m : message) : string :=
  match m with
  | TransferRequestedWithinTransaction _ id => id
  | TransferReversalRequestedWithinTransaction _ _ reversalID => reversalID
  | _ => ""
  end.

Fixpoint childTransfersIn (events : list Event) (ids : list string) : M (list string) :=
  match events with
  | [] => ret ids
  | e :: rest =>
      if bool_decide (EType e = full_name KTransferRequestedWithinTransaction) ||
         bool_decide (EType e = full_name KTransferReversalRequestedWithinTransaction) then
        let* msg := lift (rmap_err InternalErrorWith (Decode e)) in
        let childID := requestedTransfer msg in
        let* child := mapErr InternalErrorWith (load TransferAggregateType childID) in
        childTransfersIn rest (if bool_decide (child = []) then ids else ids ++ [childID])
      else childTransfersIn rest ids
  end.

Definition ChildTransferIDs (transactionID : string) : M (list string) :=
  let* events := loadTransaction transactionID in
  childTransfersIn events [].

Definition Exists (transactionID : string) : M bool :=
  let* events := loadTransaction transactionID in
  ret (negb (bool_decide (events = []))).

(** [wouldAcceptReadyChildren] ([dag.go]): the first ready child that would be
    refused now. *)
Fixpoint refusedChild (transactionID : string) (transfers : Transfers) (ready : list string) : M string :=
  match ready with
  | [] => ret ""
  | childID :: ready =>
      let spec := specOf transfers childID in
      if ct_MintSource spec then refusedChild transactionID transfers ready
      else
        let* rejection := tc_WouldAcceptTransfer client (ct_FromWalletId spec) (ct_Amount spec) transactionID in
        match rejection with
        | Some reason => ret ("transfer " +:+ quoted childID +:+ ": " +:+ reason)
        | None => refusedChild transactionID transfers ready
        end
  end.

Definition wouldAcceptReadyChildren (transactionID : string) (transfers : Transfers) (deps : Deps) : M string :=
  let* order := rangeKeys transfers in
  refusedChild transactionID transfers (readyToRun order deps ∅ ∅).

Definition TransactionResponse : Type := (string * message)%type.

Definition decidedStartInitializingTransaction (events : list Event) : result TransactionResponse :=
  match events with
  | [] => Err (plain "panic: index out of range")
  | e :: _ =>
      let? msg := rmap_err InternalErrorWith (Decode e) in
      match msg with
      | TransactionInitialized m => Ok (in_Id m, msg)
      | TransactionRejected id _ => Ok (id, msg)
      | _ => Err (InternalError "transaction: stream does not start with a Transaction's decision")
      end
  end.

(** The decision on [req], a [StartInitializingTransactionRequest], whose fields
    are those of the event it becomes. *)
Definition decideTransaction (req : Initialized) : M message :=
  let* tOrder := rangeKeys (in_Transfers req) in
  let* dOrder := rangeKeys (in_TransferDependency req) in
  let* qOrder := rangeKeys (in_Transfers req) in
  match validateDAG (mkDagOrder tOrder dOrder qOrder) (in_Transfers req) (in_TransferDependency req) with
  | Err dagErr => ret (TransactionRejected (in_Id req) (e_msg dagErr))
  | Ok _ =>
      let* reason := mapErr InternalErrorWith
        (wouldAcceptReadyChildren (in_Id req) (in_Transfers req) (in_TransferDependency req)) in
      if negb (bool_decide (reason = "")) then ret (TransactionRejected (in_Id req) reason)
      else ret (TransactionInitialized req)
  end.

Fixpoint initAttempts (n : nat) (req : Initialized) : M TransactionResponse :=
  match n with
  | O => fail (NewError Aborted "transaction: could not converge after repeated concurrency conflicts; retry")
  | S n =>
      let* events := loadTransaction (in_Id req) in
      match events with
      | _ :: _ => lift (decidedStartInitializingTransaction events)
      | [] =>
          let* event := decideTransaction req in
          try (append TransactionAggregateType (in_Id req) 0 [event]) (fun r =>
            match r with
            | Ok _ => ret (in_Id req, event)
            | Err err =>
                if Is err ErrConcurrencyConflict then initAttempts n req
                else fail (InternalErrorWith err)
            end)
      end
  end.

Definition StartInitializingTransaction (req : Initialized) : M TransactionResponse :=
  lift (Id.Validate "id" (in_Id req)) ;;;
  initAttempts maxConcurrencyAttempts req.

Definition GetTransactionState (id : string) : M (TransactionState * string) :=
  lift (Id.Validate "id" id) ;;;
  let* events := loadTransaction id in
  match events with
  | [] => fail (NewError NotFound "transaction not found")
  | _ =>
      let* reason := lift (lastEventReason events) in
      ret (transactionState_proto (topLevelState events), reason)
  end.

Definition rollbackAnswer (events : list Event) : result TransactionState :=
  match topLevelState events with
  | (stateRollbackStarted | stateRolledBack | stateRollbackFailed) as state => Ok (transactionState_proto state)
  | _ => Err (NewError FailedPrecondition "transaction cannot be rolled back from its current state")
  end.

Definition StartTransactionRollback (id reason : string) : M TransactionState :=
  lift (Id.Validate "id" id) ;;;
  let* events := loadTransaction id in
  match events with
  | [] => fail (NewError NotFound "transaction not found")
  | _ =>
      match topLevelState events with
      | stateInitialized | stateStarted =>
          mapErr InternalErrorWith (appendTxStep id (TransactionRollbackStarted id reason)) ;;;
          let* events := loadTransaction id in
          lift (rollbackAnswer events)
      | _ => lift (rollbackAnswer events)
      end
  end.
End saga.

(** [NewServer] of the two packages, tied as [cmd/server] and [cmd/orchestrator]
    tie them: Transfers ask Transactions through the two checkers, Transactions
    drive Transfers through the client. *)
Definition transferServer `{Codec} : Server := mkServer (Some IsOpen) (Some Exists).

Definition transferClient `{Codec} `{UuidPackage} `{Sha256} (fuel : nat) : TransferClient :=
  mkTransferClient (RequestTransfer transferServer) (CancelAcceptedTransfer fuel) RequestReversal
    (CancelStagedTransfer fuel) (WouldAcceptTransfer (isOpen transferServer)).
