(* ===== verification/Simulate.v ===== *)
(** * cmd/simulate: the load the system is tried with

    [go/cmd/simulate]: holders and wallets are provisioned ([entities.go]), every
    wallet is seeded and a load of transfers driven ([run.go]), each followed until
    it ends ([wait.go]); then the run is summed up ([stats.go]) and every wallet's
    recorded balance compared with what the run ought to have left ([verify.go]).
    The services are reached through the interfaces Twirp generates, records of
    calls here; a look at a leg goes through [legReader]. A [*txResult] the code
    updates in place is passed along and returned. *)

From Stdlib Require Import SpecFloat.
From S2P Require Import Prelude GoMath Proto EventStore Ledger Effects Validate Wallet Holder Token.
From S2P Require Import TransferState TransferSaga TransferServer Dag TransactionState TransactionSaga.

(** ** outcome.go, stats.go: what one simulated transfer produced *)

Inductive outcome : Type := outcomeComplete | outcomeRollback.

#[global] Instance outcome_eq_dec : EqDecision outcome.
Proof. solve_decision. Defined.

Record txResult : Type := mkTxResult {
  r_transactionID : string;
  r_transferID : string;
  r_fromWallet : string;
  r_toWallet : string;
  r_amountMinor : Z;
  r_planned : outcome;
  r_final : string;
  r_moved : bool;
  r_open : bool;
  r_settled : bool;
  r_reason : string;
  r_err : option error;
  r_latency : Z
}.

Definition completed (r : txResult) : bool := bool_decide (r_err r = None) && r_moved r.
Definition stuck (r : txResult) : bool := bool_decide (r_err r = None) && r_open r.

Definition set_err (e : error) (r : txResult) : txResult :=
  mkTxResult (r_transactionID r) (r_transferID r) (r_fromWallet r) (r_toWallet r) (r_amountMinor r) (r_planned r)
    (r_final r) (r_moved r) (r_open r) (r_settled r) (r_reason r) (Some e) (r_latency r).
Definition set_state (st : string * bool * bool) (r : txResult) : txResult :=
  mkTxResult (r_transactionID r) (r_transferID r) (r_fromWallet r) (r_toWallet r) (r_amountMinor r) (r_planned r)
    (fst (fst st)) (snd (fst st)) (snd st) (r_settled r) (r_reason r) (r_err r) (r_latency r).
Definition set_settled (r : txResult) : txResult :=
  mkTxResult (r_transactionID r) (r_transferID r) (r_fromWallet r) (r_toWallet r) (r_amountMinor r) (r_planned r)
    (r_final r) (r_moved r) (r_open r) true (r_reason r) (r_err r) (r_latency r).
Definition set_reason (reason : string) (r : txResult) : txResult :=
  mkTxResult (r_transactionID r) (r_transferID r) (r_fromWallet r) (r_toWallet r) (r_amountMinor r) (r_planned r)
    (r_final r) (r_moved r) (r_open r) (r_settled r) reason (r_err r) (r_latency r).
Definition set_latency (d : Z) (r : txResult) : txResult :=
  mkTxResult (r_transactionID r) (r_transferID r) (r_fromWallet r) (r_toWallet r) (r_amountMinor r) (r_planned r)
    (r_final r) (r_moved r) (r_open r) (r_settled r) (r_reason r) (r_err r) d.

(** The zero [txResult], with the ids a composite literal gives it. *)
Definition newResult (transactionID transferID fromWallet toWallet : string) (amountMinor : Z) (planned : outcome) : txResult :=
  mkTxResult transactionID transferID fromWallet toWallet amountMinor planned "" false false false "" None 0.

(** ** What a state means to the run *)

Definition TransactionState_String (s : TransactionState) : string :=
  match s with
  | TRANSACTION_STATE_UNSPECIFIED => "TRANSACTION_STATE_UNSPECIFIED"
  | TRANSACTION_STATE_INITIALIZED => "TRANSACTION_STATE_INITIALIZED"
  | TRANSACTION_STATE_STARTED => "TRANSACTION_STATE_STARTED"
  | TRANSACTION_STATE_ROLLBACK_STARTED => "TRANSACTION_STATE_ROLLBACK_STARTED"
  | TRANSACTION_STATE_COMPLETED => "TRANSACTION_STATE_COMPLETED"
  | TRANSACTION_STATE_ROLLED_BACK => "TRANSACTION_STATE_ROLLED_BACK"
  | TRANSACTION_STATE_ROLLBACK_FAILED => "TRANSACTION_STATE_ROLLBACK_FAILED"
  | TRANSACTION_STATE_REJECTED => "TRANSACTION_STATE_REJECTED"
  end.

(** The label, whether money moved, whether it is still open. *)
Definition fromTransactionState (state : TransactionState) : string * bool * bool :=
  (TransactionState_String state,
   match state with TRANSACTION_STATE_COMPLETED => true | _ => false end,
   match state with
   | TRANSACTION_STATE_INITIALIZED | TRANSACTION_STATE_STARTED | TRANSACTION_STATE_ROLLBACK_STARTED => true
   | _ => false
   end).

(** [strings.ToUpper] of the names [OutcomeKind.String] gives. *)
Definition upper (c : Ascii.ascii) : Ascii.ascii :=
  let n := Ascii.nat_of_ascii c in
  if bool_decide (97 ≤ n ∧ n ≤ 122)%nat then Ascii.ascii_of_nat (n - 32) else c.
Fixpoint ToUpper (s : string) : string :=
  match s with EmptyString => EmptyString | String c s => String (upper c) (ToUpper s) end.

Definition fromTransferOutcome (o : OutcomeKind) : string * bool * bool :=
  ("TRANSFER_" +:+ ToUpper (OutcomeKind_String o),
   match o with OutcomeCommitted => true | _ => false end,
   match o with OutcomeNotFound | OutcomeInFlight | OutcomeStaged | OutcomePending => true | _ => false end).

Section simulate.
Context {C : Codec}.

(** ** The services, as Twirp's clients offer them *)

(** [transactionpb.TransactionService] *)
Record TransactionService : Type := mkTransactionService {
  sStartInitializingTransaction : Initialized → M TransactionResponse;
  sGetTransactionState : string → M (TransactionState * string);
  sStartTransactionRollback : string → string → M TransactionState
}.

(** [transferpb.TransferService] *)
Record TransferService : Type := mkTransferService {
  sRequestTransfer : RequestTransferRequest → M response;
  sConfirmStagedTransfer : string → M response;
  sCancelStagedTransfer : string → string → M response;
  sPostPendingTransfer : string → M response
}.

(** [holderpb.HolderService]: the one call made of it. *)
Definition ProvisionCall : Type := string → gmap string Memo → list Holder.WalletSpec → M (list string + string).

(** ** wait.go *)

Definition legReader : Type := string → M OutcomeKind.
Definition storeLegReader : legReader := Outcome.

Record settleWait : Type := mkSettleWait { sw_attempts : nat; sw_delay : Z }.

(** Whatever the delay, the context may have ended. *)
Definition pause (w : settleWait) : prog bool :=
  pbind (call (OPause (sw_delay w))) (λ r, Ret match r with Ok _ => true | Err _ => false end).

Definition advanceFunc : Type := txResult → prog txResult.

Fixpoint awaitLooks (n : nat) (w : settleWait) (advance : advanceFunc) (r : txResult) : prog txResult :=
  match n with
  | O => Ret r
  | S n =>
      if stuck r then
        pbind (pause w) (λ went, if went : bool then pbind (advance r) (awaitLooks n w advance) else Ret r)
      else Ret r
  end.

Definition awaitResult (w : settleWait) (advance : advanceFunc) (r : txResult) : prog txResult :=
  pbind (advance r) (awaitLooks (sw_attempts w) w advance).

Definition stuckIndices (results : list txResult) : list nat :=
  fst <$> filter (λ ir, stuck (snd ir) = true) (imap pair results).

(** One look at each of [idx], in place. *)
Fixpoint lookAll (advance : advanceFunc) (idx : list nat) (results : list txResult) : prog (list txResult) :=
  match idx with
  | [] => Ret results
  | i :: idx =>
      match results !! i with
      | None => Ret results
      | Some r =>
          pbind timeNow (λ start, pbind (advance r) (λ r, pbind timeNow (λ finish,
            lookAll advance idx (<[i := set_latency (i64 (r_latency r + (finish - start))) r]> results))))
      end
  end.

Fixpoint awaitRounds (n : nat) (w : settleWait) (advance : advanceFunc) (results : list txResult) : prog (list txResult) :=
  match n with
  | O => Ret results
  | S n =>
      match stuckIndices results with
      | [] => Ret results
      | idx =>
          pbind (pause w) (λ went,
            if went : bool then pbind (lookAll advance idx results) (awaitRounds n w advance) else Ret results)
      end
  end.

(** The results, and how many are still open. *)
Definition awaitStuck (w : settleWait) (advance : advanceFunc) (results : list txResult) : prog (list txResult * nat) :=
  pbind (awaitRounds (sw_attempts w) w advance results) (λ results, Ret (results, length (stuckIndices results))).

(** ** entities.go *)

Record entity : Type := mkEntity { en_name : string; en_holderID : string; en_walletID : string }.

Definition provision (holders : ProvisionCall) (name : string) (allows : Allows) : M entity :=
  let* holderID := newUuid in
  let* walletID := newUuid in
  let* resp := mapErr (wrapf ("provision " +:+ name +:+ ": "))
    (holders holderID ∅ [Holder.mkWalletSpec walletID name allows]) in
  match resp with
  | inr reason => fail (plain ("provision " +:+ name +:+ ": rejected: " +:+ reason))
  | inl _ => ret (mkEntity name holderID walletID)
  end.

Definition provisionAll (holders : ProvisionCall) (n : nat) : M (entity * list entity) :=
  let* reserve := provision holders "reserve" ALLOWS_ONRAMP in
  let* entities := mapM (λ i : nat, provision holders ("entity-" +:+ decimal (Z.of_nat i)) ALLOWS_NONE) (seq 0 n) in
  ret (reserve, entities).

(** ** run.go: seeding *)

Section seeding.
Context (transactions : TransactionService).

(** [resp.GetTransactionRejected()] *)
Definition transactionRejected (resp : TransactionResponse) : option string :=
  match snd resp with TransactionRejected _ reason => Some reason | _ => None end.

Definition observeTransaction (r : txResult) : prog txResult :=
  pbind (sGetTransactionState transactions (r_transactionID r)) (λ out,
    match out with
    | Err e => Ret (set_err e r)
    | Ok (state, reason) =>
        let r := set_state (fromTransactionState state) r in
        Ret (if bool_decide (reason = "") then r else set_reason reason r)
    end).

Definition startSeed (reserve target : entity) (amount : Z) (currency : string) : M string :=
  let* transactionID := newUuid in
  let* transferID := newUuid in
  let* resp := mapErr (wrapf ("seed " +:+ en_name target +:+ ": "))
    (sStartInitializingTransaction transactions
      (mkInitialized transactionID "simulate_seed" "v1"
        {[ transferID := mkChildTransfer transferID (Some (mkMoney amount currency))
                           (en_walletID reserve) (en_walletID target) false true ]} ∅)) in
  match transactionRejected resp with
  | Some reason => fail (plain ("seed " +:+ en_name target +:+ ": rejected: " +:+ reason))
  | None => ret transactionID
  end.

Definition seedOpenAdvice : string :=
  " after waiting; nothing is folding it — check go/cmd/orchestrator is running with a CDC connector to consume from (`make cdc-up && make orchestrator-up`, then `make orchestrator-logs`)".

(** What a seed's last look says of it. *)
Definition seedVerdict (target : entity) (seed : txResult) : result unit :=
  match r_err seed with
  | Some e => Err (wrapf ("seed " +:+ en_name target +:+ ": ") e)
  | None =>
      if r_moved seed then Ok tt
      else if r_open seed then Err (plain ("seed " +:+ en_name target +:+ ": still " +:+ r_final seed +:+ seedOpenAdvice))
      else Err (plain ("seed " +:+ en_name target +:+ ": ended " +:+ r_final seed
                        +:+ " rather than completing: " +:+ r_reason seed))
  end.

Definition awaitSeed (wait : settleWait) (target : entity) (transactionID : string) : M unit :=
  pbind (awaitResult wait observeTransaction (newResult transactionID "" "" "" 0 outcomeComplete))
    (λ seed, lift (seedVerdict target seed)).

Definition seedBatch (reserve : entity) (entities : list entity) (amount : Z) (currency : string) (wait : settleWait) : M unit :=
  let* seeds := mapM (λ target, startSeed reserve target amount currency) entities in
  mapM_ (λ ts, awaitSeed wait (fst ts) (snd ts)) (zip entities seeds).

(** [for start := 0; start < len(entities); start += batch] *)
Fixpoint seedFrom (fuel start : nat) (reserve : entity) (entities : list entity) (amount : Z) (currency : string)
    (batch : nat) (wait : settleWait) : M unit :=
  match fuel with
  | O => outOfFuel
  | S fuel =>
      if bool_decide (start < length entities)%nat then
        let stop := ((start + batch) `min` length entities)%nat in
        seedBatch reserve (take (stop - start)%nat (drop start entities)) amount currency wait ;;;
        seedFrom fuel (start + batch)%nat reserve entities amount currency batch wait
      else ret tt
  end.

Definition seedAll (reserve : entity) (entities : list entity) (amount : Z) (currency : string) (batch : nat)
    (wait : settleWait) : M unit :=
  seedFrom (S (length entities)) 0 reserve entities amount currency batch wait.
End seeding.

(** ** run.go: the two drivers *)

Definition simulatedRollover : string := "simulated rollover".

Section confirm.
Context (transfers : TransferService).

(** A refusal's reason, if either step refused. *)
Definition postLeg (transferID : string) : M string :=
  let* resp := sPostPendingTransfer transfers transferID in
  match rs_Result resp with
  | PostPendingTransferRejected _ reason => ret reason
  | _ => ret ""
  end.

Definition confirmAndPost (transferID : string) (leg : OutcomeKind) : M string :=
  if bool_decide (leg = OutcomeStaged) then
    let* resp := sConfirmStagedTransfer transfers transferID in
    match rs_Result resp with
    | ConfirmStagedTransferRejected _ reason => ret reason
    | _ => postLeg transferID
    end
  else postLeg transferID.
End confirm.

(** [driveFunc] *)
Definition driveFunc : Type := entity → entity → Z → string → outcome → prog txResult.

Section transactionDriver.
Context (transactions : TransactionService) (transfers : TransferService) (leg : legReader) (wait : settleWait).

Definition txSettle (r : txResult) (at_ : OutcomeKind) : M string :=
  if bool_decide (r_planned r = outcomeRollback) then
    let* _ := sStartTransactionRollback transactions (r_transactionID r) simulatedRollover in
    ret ""
  else confirmAndPost transfers (r_transferID r) at_.

Definition txAdvance (r : txResult) : prog txResult :=
  if r_settled r then observeTransaction transactions r
  else
    pbind (leg (r_transferID r)) (λ out,
      match out with
      | Err e => Ret (set_err e r)
      | Ok OutcomeNotFound | Ok OutcomeInFlight => observeTransaction transactions r
      | Ok ((OutcomeStaged | OutcomePending) as at_) =>
          pbind (txSettle r at_) (λ out,
            match out with
            | Err e => Ret (set_err e r)
            | Ok reason => observeTransaction transactions (set_reason reason (set_settled r))
            end)
      | Ok _ => observeTransaction transactions (set_settled r)
      end).

Definition txDrive : driveFunc := λ from to amount currency planned,
  pbind timeNow (λ start,
  pbind uuidString (λ transactionID, pbind uuidString (λ transferID,
  let r := newResult transactionID transferID (en_walletID from) (en_walletID to) (i64 amount) planned in
  pbind (sStartInitializingTransaction transactions
          (mkInitialized transactionID "simulate" "v1"
            {[ transferID := mkChildTransfer transferID (Some (mkMoney amount currency))
                               (en_walletID from) (en_walletID to) true false ]} ∅)) (λ out,
  pbind match out with
        | Err e => Ret (set_err e r)
        | Ok resp =>
            match transactionRejected resp with
            | Some reason => Ret (set_reason reason (set_state (fromTransactionState TRANSACTION_STATE_REJECTED) r))
            | None => awaitResult wait txAdvance r
            end
        end (λ r,
  pbind timeNow (λ finish, Ret (set_latency (finish - start) r))))))).
End transactionDriver.

Section transferDriver.
Context (transfers : TransferService) (leg : legReader) (wait : settleWait).

Definition bareSettle (r : txResult) (at_ : OutcomeKind) : M string :=
  if bool_decide (r_planned r = outcomeRollback) then
    let* resp := sCancelStagedTransfer transfers (r_transferID r) simulatedRollover in
    match rs_Result resp with
    | CancelStagedTransferRejected _ reason => ret reason
    | _ => ret simulatedRollover
    end
  else confirmAndPost transfers (r_transferID r) at_.

Definition bareAdvance (r : txResult) : prog txResult :=
  pbind (leg (r_transferID r)) (λ out,
    match out with
    | Err e => Ret (set_err e r)
    | Ok at_ =>
        if negb (r_settled r) && bool_decide (at_ = OutcomeStaged ∨ at_ = OutcomePending) then
          pbind (bareSettle r at_) (λ out,
            match out with
            | Err e => Ret (set_err e r)
            | Ok reason =>
                let r := set_reason reason (set_settled r) in
                pbind (leg (r_transferID r)) (λ out,
                  match out with
                  | Err e => Ret (set_err e r)
                  | Ok at_ => Ret (set_state (fromTransferOutcome at_) r)
                  end)
            end)
        else Ret (set_state (fromTransferOutcome at_) r)
    end).

Definition bareDrive : driveFunc := λ from to amount currency planned,
  pbind timeNow (λ start,
  pbind uuidString (λ transferID,
  let r := newResult "" transferID (en_walletID from) (en_walletID to) (i64 amount) planned in
  pbind (sRequestTransfer transfers
          (mkRequestTransfer transferID (en_walletID from) (en_walletID to) (Some (mkMoney amount currency)) true "" false)) (λ out,
  pbind match out with
        | Err e => Ret (set_err e r)
        | Ok resp =>
            match rs_Result resp with
            | TransferRequestRejected _ reason =>
                Ret (set_reason reason (set_state (fromTransferOutcome OutcomeRejected) r))
            | _ => awaitResult wait bareAdvance r
            end
        end (λ r,
  pbind timeNow (λ finish, Ret (set_latency (finish - start) r)))))).
End transferDriver.

(** [driverFor] of [main.go] *)
Definition driverFor (mode : string) (transactions : TransactionService) (transfers : TransferService) (leg : legReader)
    (wait : settleWait) : driveFunc * advanceFunc :=
  if bool_decide (mode = "transfer") then (bareDrive transfers leg wait, bareAdvance transfers leg)
  else (txDrive transactions transfers leg wait, txAdvance transactions transfers leg).

(** ** verify.go *)

Definition tokenAggregateType : string := "token".

(** The last balance recorded, and whether there is one. *)
Definition recordedBalance (acc : Z * bool) (e : Event) : result (Z * bool) :=
  if bool_decide (EType e = full_name KTokenBalanceRecorded) then
    let? msg := Decode e in
    match msg with TokenBalanceRecorded rec => Ok (br_PostedMinorUnits rec, true) | _ => Ok acc end
  else Ok acc.

Definition lastRecordedBalance (events : list Event) : result (Z * bool) := rfold recordedBalance (0, false) events.

Definition tokenBalance (tokenID : string) : M Z :=
  let* events := mapErr (wrapf ("load token " +:+ quoted tokenID +:+ ": ")) (load tokenAggregateType tokenID) in
  let* out := lift (rmap_err (wrapf ("token " +:+ quoted tokenID +:+ ": ")) (lastRecordedBalance events)) in
  ret (fst out).

(** [total += balance], an [int64]. *)
Fixpoint sumBalances (tokenIDs : list string) (total : Z) : M Z :=
  match tokenIDs with
  | [] => ret total
  | tokenID :: rest =>
      let* balance := tokenBalance tokenID in
      sumBalances rest (i64 (total + balance))
  end.

Definition walletBalance (walletID : string) : M Z :=
  let* tokenIDs := mapErr (wrapf ("wallet " +:+ quoted walletID +:+ ": ")) (Wallet.TokensOf walletID) in
  sumBalances tokenIDs 0.

Record reconciliation : Type := mkReconciliation {
  rc_name : string; rc_walletID : string; rc_expected : Z; rc_actual : Z
}.

Definition rc_ok (r : reconciliation) : bool := rc_expected r =? rc_actual r.

Definition reconcile (entities : list entity) (expected : gmap string Z) : M (list reconciliation) :=
  mapM (λ e,
    let* actual := mapErr (wrapf ("entity " +:+ quoted (en_name e) +:+ ": ")) (walletBalance (en_walletID e)) in
    ret (mkReconciliation (en_name e) (en_walletID e) (default 0 (expected !! en_walletID e)) actual)) entities.
End simulate.

(** ** stats.go *)

(** [m[k] += d] of a map of [int64]s. *)
Definition bump (k : string) (d : Z) (m : gmap string Z) : gmap string Z :=
  <[k := i64 (default 0 (m !! k) + d)]> m.

Definition applyResult (expected : gmap string Z) (r : txResult) : gmap string Z :=
  if completed r then bump (r_toWallet r) (r_amountMinor r) (bump (r_fromWallet r) (- r_amountMinor r) expected)
  else expected.

Definition computeExpected (initial : gmap string Z) (results : list txResult) : gmap string Z :=
  foldl applyResult initial results.

Record summary : Type := mkSummary {
  s_total : Z;
  s_byState : gmap string Z;
  s_openCount : Z;
  s_errors : Z;
  s_wallClock : Z;
  s_throughput : float64;
  s_p50 : Z;
  s_p95 : Z;
  s_p99 : Z
}.

Definition percentile (sorted : list Z) (p : float64) : Z :=
  match sorted with
  | [] => 0
  | _ =>
      let idx := truncate (fmul p (f64 (len sorted))) in
      let idx := if len sorted <=? idx then len sorted - 1 else idx in
      default 0 (sorted !! Z.to_nat idx)
  end.

(** One result, counted. *)
Definition countResult (s : gmap string Z * Z * Z * list Z) (r : txResult) : gmap string Z * Z * Z * list Z :=
  let '(byState, openCount, errors, latencies) := s in
  match r_err r with
  | Some _ => (bump "rpc_error" 1 byState, openCount, errors + 1, latencies)
  | None =>
      (bump (r_final r) 1 byState, if r_open r then openCount + 1 else openCount, errors, latencies ++ [r_latency r])
  end.

(** The literals 0.50, 0.95 and 0.99. *)
Definition p050 : float64 := S754_finite false 4503599627370496 (-53).
Definition p095 : float64 := S754_finite false 8556839292003942 (-53).
Definition p099 : float64 := S754_finite false 8917127262193582 (-53).

Definition summarize (results : list txResult) (wallClock : Z) : summary :=
  let '(byState, openCount, errors, latencies) := foldl countResult (∅, 0, 0, []) results in
  let sorted := merge_sort Z.le latencies in
  mkSummary (len results) byState openCount errors wallClock
    (if 0 <? wallClock then fdiv (f64 (len results)) (Seconds wallClock) else S754_zero false)
    (percentile sorted p050) (percentile sorted p095) (percentile sorted p099).
