(* ===== verification/Orchestrator.v ===== *)
(** * The orchestrator ([go/internal/saga])

    [trigger.go]: a delivered message reduced to the aggregate it names.
    [orchestrator.go]: a trigger answered by resuming that aggregate, and for a
    Transfer the Transaction that owns it. [wiring.go]: the two services tied
    together and the orchestrator that drives them. The loop that delivers the
    triggers is [Consumer]. *)

From S2P Require Import Prelude Proto EventStore Ledger Effects Validate Wallet TransferState.
From S2P Require Import TransferManifest TransferSaga TransferServer Dag TransactionState TransactionSaga.

(** ** trigger.go *)

Record Trigger : Type := mkTrigger {
  tr_AggregateType : string;
  tr_AggregateID : string;
  tr_EventType : string;
  tr_Sequence : Z;
  tr_GlobalSeq : Z
}.

Definition Trigger_String (t : Trigger) : string :=
  tr_AggregateType t +:+ " " +:+ tr_AggregateID t +:+ " (" +:+ tr_EventType t +:+ " seq " +:+
  decimal (tr_Sequence t) +:+ ", global_seq " +:+ decimal (tr_GlobalSeq t) +:+ ")".

(** The published body, as much of it as is read: there is no payload in it. *)
Record envelope : Type := mkEnvelope {
  env_AggregateType : string;
  env_EventType : string;
  env_Sequence : Z;
  env_GlobalSeq : Z
}.

(** [json.Unmarshal] into an [envelope]. *)
Class EnvelopeJSON : Type := unmarshalEnvelope : string → result envelope.

Definition ParseTrigger {J : EnvelopeJSON} (key value : string) : result Trigger :=
  if bool_decide (key = "") then Err (plain "saga: message has no key, so it names no aggregate")
  else if bool_decide (value = "") then
    Err (plain ("saga: message for " +:+ quoted key +:+ " has an empty body"))
  else
    let? env := rmap_err (wrapf ("saga: message for " +:+ quoted key +:+ ": ")) (unmarshalEnvelope value) in
    if bool_decide (env_AggregateType env = "") then
      Err (plain ("saga: message for " +:+ quoted key +:+ " carries no aggregate_type"))
    else
      Ok (mkTrigger (env_AggregateType env) key (env_EventType env) (env_Sequence env) (env_GlobalSeq env)).

(** ** orchestrator.go *)

Section orchestrator.
Context {C : Codec}.

(** [Resumer] and [OwnerResolver] *)
Definition Resumer : Type := string → M unit.
Definition OwnerResolver : Type := string → M string.

Record Orchestrator : Type := mkOrchestrator {
  transfers : Resumer;
  transactions : Resumer;
  owningTransaction : OwnerResolver
}.

Definition handleTransfer (o : Orchestrator) (transferID : string) : M unit :=
  transfers o transferID ;;;
  let* transactionID := owningTransaction o transferID in
  if bool_decide (transactionID = "") then ret tt else transactions o transactionID.

Definition Handle (o : Orchestrator) (t : Trigger) : M unit :=
  if bool_decide (tr_AggregateType t = TransferAggregateType) then handleTransfer o (tr_AggregateID t)
  else if bool_decide (tr_AggregateType t = TransactionAggregateType) then transactions o (tr_AggregateID t)
  else fail (plain ("saga: no driver for aggregate type " +:+ quoted (tr_AggregateType t) +:+
                    " (" +:+ Trigger_String t +:+ ")")).
End orchestrator.

Arguments Orchestrator {C}.

(** ** wiring.go *)

Definition Topic (aggregateType : string) : string := aggregateType +:+ "-events".

Section wiring.
Context {C : Codec} {U : UuidPackage} {S256 : Sha256}.

(** [Servers], by what is called of them: the services over the one store and
    ledger every program of this development runs on. *)
Record Servers : Type := mkServers { sv_Transfer : Server; sv_Client : TransferClient }.

(** [Wire]: Transfers ask Transactions through [IsOpen] and [Exists], Transactions
    drive Transfers through the client. *)
Definition Wire (fuel : nat) : Servers := mkServers transferServer (transferClient fuel).

(** [Servers.Orchestrator] *)
Definition orchestratorOf (s : Servers) (fuel : nat) : Orchestrator :=
  mkOrchestrator (Resume (sv_Transfer s) fuel) (ResumeTransaction (sv_Client s) fuel) OwningTransaction.
End wiring.
