(* ===== verification/Telemetry.v ===== *)
(** * Instrumentation ([go/internal/telemetry])

    The store, the ledger, the saga handler and the RPC surface are each wrapped
    by a decorator that opens a span, makes the call, and records how long it
    took and how it went. A decorated call is a program over the same store and
    ledger that also carries what has been recorded ([T]); [instrument] runs any
    program of the services over the decorated store and ledger, which is what
    [telemetry.Orchestrator] wires.

    What is shown: the decorators change nothing ([instrumented_same] and
    [instrumented_safe]), every span is closed by the time the call returns, the
    counter of appended events agrees with the log, and a refusal or a lost race
    is never reported as a fault. The exporters behind the providers are
    OpenTelemetry's; a provider that records nothing is the same programs with
    the records thrown away. *)

From S2P Require Import Prelude GoMath Proto EventStore Ledger Effects Orchestrator.

(** ** What is recorded *)

(** [attribute.KeyValue], by the two kinds of value the package gives. *)
Inductive attrValue : Type := AString (s : string) | AInt (z : Z).
Definition attr : Type := string * attrValue.

#[global] Instance attrValue_eq_dec : EqDecision attrValue.
Proof. solve_decision. Defined.

Definition keyAggregateType : string := "money_flow.aggregate_type".
Definition keyAggregateID : string := "money_flow.aggregate_id".
Definition keyEventType : string := "money_flow.event_type".
Definition keyOutcome : string := "money_flow.outcome".
Definition keyOperation : string := "money_flow.operation".
Definition keyBatchSize : string := "money_flow.ledger.batch_size".
Definition keyRejected : string := "money_flow.ledger.rejected".
Definition keyAlreadyApplied : string := "money_flow.ledger.already_applied".
Definition keyLedgerResult : string := "money_flow.ledger.result".
Definition keyTwirpErrorCode : string := "twirp.error_code".

Definition outcomeOK : string := "ok".
Definition outcomeError : string := "error".
Definition outcomeCanceled : string := "canceled".
Definition outcomeConflict : string := "conflict".
Definition outcomeDuplicateStream : string := "duplicate_stream".
Definition outcomeInvalidRequest : string := "invalid_request".

(** A span with its attributes and, once its status is set to Error, the error. *)
Record Span : Type := mkSpan { sp_name : string; sp_attrs : list attr; sp_error : option error }.

Inductive datum : Type :=
| Ended (sp : Span) (parent : option string)                             (* span.End *)
| Measured (histogram : string) (seconds : float64) (attrs : list attr)  (* histogram.Record *)
| Added (counter : string) (n : Z) (attrs : list attr)                   (* counter.Add *)
| Observed (gauge : string) (n : Z) (attrs : list attr)                  (* observer.ObserveInt64 *)
| Warned (msg : string) (attrs : list attr) (err : error).               (* logger.WarnContext *)

(** The spans the call's context carries, innermost first, and what has been
    recorded, oldest first. *)
Record Rec : Type := mkRec { active : list Span; sent : list datum }.

Definition emit (d : datum) (t : Rec) : Rec := mkRec (active t) (sent t ++ [d]).
Definition onSpan (f : Span → Span) (t : Rec) : Rec :=
  match active t with
  | sp :: rest => mkRec (f sp :: rest) (sent t)
  | [] => t
  end.

(** [span.SetAttributes] and [span.RecordError] with [span.SetStatus(codes.Error, ...)] *)
Definition withAttributes (attrs : list attr) (sp : Span) : Span :=
  mkSpan (sp_name sp) (sp_attrs sp ++ attrs) (sp_error sp).
Definition withError (err : error) (sp : Span) : Span := mkSpan (sp_name sp) (sp_attrs sp) (Some err).

(** [tracer.Start] and [span.End] *)
Definition startSpan (name : string) (attrs : list attr) (t : Rec) : Rec :=
  mkRec (mkSpan name attrs None :: active t) (sent t).
Definition endSpan (t : Rec) : Rec :=
  match active t with
  | sp :: rest => mkRec rest (sent t ++ [Ended sp (sp_name <$> head rest)])
  | [] => t
  end.

(** ** Outcomes *)

Section outcomes.
(** Whether a context that has ended was cancelled, rather than out of time. *)
Variable canceled : bool.

(** [errors.Is(err, context.Canceled)] *)
Definition isCanceled (err : error) : bool := Is err ContextDone && canceled.

Definition baseOutcome (err : option error) : string :=
  match err with
  | None => outcomeOK
  | Some e => if isCanceled e then outcomeCanceled else outcomeError
  end.

Definition isErr (err : option error) (s : sentinel) : bool :=
  match err with Some e => Is e s | None => false end.

Definition storeOutcome (err : option error) : string :=
  if isErr err ErrConcurrencyConflict then outcomeConflict
  else if isErr err ErrDuplicateStream then outcomeDuplicateStream
  else baseOutcome err.

Definition ledgerOutcome (err : option error) : string :=
  if isErr err ErrInvalidRequest then outcomeInvalidRequest else baseOutcome err.
End outcomes.

(** [finish]; both fault outcomes come with an error. *)
Definition finish (outcome : string) (err : option error) (t : Rec) : Rec :=
  let t := onSpan (withAttributes [(keyOutcome, AString outcome)]) t in
  if bool_decide (outcome = outcomeError ∨ outcome = outcomeInvalidRequest) then
    match err with Some e => onSpan (withError e) t | None => t end
  else t.

Definition errOf {A} (r : result A) : option error := match r with Ok _ => None | Err e => Some e end.

(** ** Decorated calls *)

Section decorators.
Context {C : Codec} (canceled : bool).

Definition T (A : Type) : Type := Rec → prog (Rec * A).
Definition tret {A} (a : A) : T A := λ t, Ret (t, a).
Definition tbind {A B} (m : T A) (f : A → T B) : T B := λ t, pbind (m t) (λ x, f (snd x) (fst x)).
(** A call of what is inside, and a step of the recorder alone. *)
Definition inner {A} (p : prog A) : T A := λ t, pbind p (λ a, Ret (t, a)).
Definition telling (f : Rec → Rec) : T unit := λ t, Ret (f t, tt).
End decorators.

Notation "'do' x ':=' c 'in' k" := (tbind c (fun x => k))
  (at level 200, x pattern, c at level 100, k at level 200) : prog_scope.
Notation "c ';!' k" := (tbind c (fun _ => k)) (at level 100, right associativity) : prog_scope.

Section store.
Context {C : Codec} (canceled : bool).

Definition durationOf (hist : string) (began : Z) (attrs : list attr) : T unit :=
  do now := inner timeNow in
  telling (emit (Measured hist (Seconds (i64 (now - began))) attrs)).

(** *** store.go *)

Definition appendedCounter : string := "money_flow.eventstore.events.appended".

Definition countOne (aggregateType : string) (e : message) : Rec → Rec :=
  emit (Added appendedCounter 1 [(keyAggregateType, AString aggregateType); (keyEventType, AString (EventType e))]).
Definition countAppended (aggregateType : string) (events : list message) (t : Rec) : Rec :=
  foldl (λ t e, countOne aggregateType e t) t events.

(** [start], and the function it returns *)
Definition storeStart (op : string) (attrs : list attr) : T Z :=
  do began := inner timeNow in
  telling (startSpan ("eventstore." +:+ op) attrs) ;!
  tret began.
Definition storeDone (op : string) (began : Z) (err : option error) (metricAttrs : list attr) : T unit :=
  let outcome := storeOutcome canceled err in
  telling (finish outcome err) ;!
  telling endSpan ;!
  durationOf "money_flow.eventstore.operation.duration" began
    (metricAttrs ++ [(keyOperation, AString op); (keyOutcome, AString outcome)]).

(** What is returned beside an error is empty. *)
Definition resultsOf {A} (r : result (list A)) : list A := match r with Ok xs => xs | Err _ => [] end.

Definition Store_Load (aggregateType aggregateID : string) : T (result (list Event)) :=
  do began := storeStart "load"
    [(keyAggregateType, AString aggregateType); (keyAggregateID, AString aggregateID)] in
  do r := inner (load aggregateType aggregateID) in
  telling (onSpan (withAttributes [("money_flow.eventstore.events", AInt (len (resultsOf r)))])) ;!
  storeDone "load" began (errOf r) [(keyAggregateType, AString aggregateType)] ;!
  tret r.

Definition Store_Append (aggregateType aggregateID : string) (expectedSeq : Z) (events : list message)
    : T (result unit) :=
  do began := storeStart "append"
    [(keyAggregateType, AString aggregateType); (keyAggregateID, AString aggregateID);
     ("money_flow.eventstore.expected_seq", AInt expectedSeq);
     ("money_flow.eventstore.events", AInt (len events))] in
  do r := inner (append aggregateType aggregateID expectedSeq events) in
  telling (λ t, match r with Ok _ => countAppended aggregateType events t | Err _ => t end) ;!
  storeDone "append" began (errOf r) [(keyAggregateType, AString aggregateType)] ;!
  tret r.

Definition Store_AppendAtomic (writes : list StreamWrite) : T (result unit) :=
  do began := storeStart "append_atomic" [("money_flow.eventstore.streams", AInt (len writes))] in
  do r := inner (appendAtomic writes) in
  telling (λ t, match r with
                | Ok _ => foldl (λ t w, countAppended (sw_AggregateType w) (sw_Events w) t) t writes
                | Err _ => t
                end) ;!
  storeDone "append_atomic" began (errOf r) [] ;!
  tret r.

Definition Store_Now : T (result Z) :=
  do began := storeStart "now" [] in
  do r := inner storeNow in
  storeDone "now" began (errOf r) [] ;!
  tret r.

(** *** ledger.go *)

Definition rejectionsCounter : string := "money_flow.ledger.rejections".

Record batchAnswers : Type := mkAnswers { rejected : list string; alreadyApplied : Z }.

Definition accountAnswer (a : batchAnswers) (r : AccountResult) : batchAnswers :=
  match ar_Result r with
  | AccountResultOK => a
  | AccountResultExists => mkAnswers (rejected a) (alreadyApplied a + 1)
  | code => mkAnswers (rejected a ++ [AccountResultCode_String code]) (alreadyApplied a)
  end.
Definition transferAnswer (a : batchAnswers) (r : TransferResult) : batchAnswers :=
  match tr_Result r with
  | TransferResultOK => a
  | TransferResultExists => mkAnswers (rejected a) (alreadyApplied a + 1)
  | code => mkAnswers (rejected a ++ [TransferResultCode_String code]) (alreadyApplied a)
  end.

(** [record] *)
Definition recordAnswers (op : string) (a : batchAnswers) (t : Rec) : Rec :=
  foldl (λ t code, emit (Added rejectionsCounter 1 [(keyOperation, AString op); (keyLedgerResult, AString code)]) t)
    (onSpan (withAttributes [(keyRejected, AInt (len (rejected a))); (keyAlreadyApplied, AInt (alreadyApplied a))]) t)
    (rejected a).

Definition ledgerStart (op : string) (batchSize : Z) : T Z :=
  do began := inner timeNow in
  telling (startSpan ("ledger." +:+ op) [("db.system.name", AString "tigerbeetle"); (keyBatchSize, AInt batchSize)]) ;!
  tret began.
Definition ledgerDone (op : string) (began : Z) (err : option error) : T unit :=
  let outcome := ledgerOutcome canceled err in
  telling (finish outcome err) ;!
  telling endSpan ;!
  durationOf "money_flow.ledger.operation.duration" began
    [(keyOperation, AString op); (keyOutcome, AString outcome)].

Definition Ledger_CreateAccounts (accs : list Account) : T (result (list AccountResult)) :=
  do began := ledgerStart "create_accounts" (len accs) in
  do r := inner (createAccounts accs) in
  telling (recordAnswers "create_accounts" (foldl accountAnswer (mkAnswers [] 0) (resultsOf r))) ;!
  ledgerDone "create_accounts" began (errOf r) ;!
  tret r.

Definition Ledger_CreateTransfers (ts : list Transfer) : T (result (list TransferResult)) :=
  do began := ledgerStart "create_transfers" (len ts) in
  do r := inner (createTransfers ts) in
  telling (recordAnswers "create_transfers" (foldl transferAnswer (mkAnswers [] 0) (resultsOf r))) ;!
  ledgerDone "create_transfers" began (errOf r) ;!
  tret r.

Definition Ledger_Balances (accountIDs : list string) : T (result (gmap string Balance)) :=
  do began := ledgerStart "balances" (len accountIDs) in
  do r := inner (balances accountIDs) in
  ledgerDone "balances" began (errOf r) ;!
  tret r.

(** *** Programs over the decorated store and ledger *)

(** [Append] and [AppendAtomic] of one stream are the same call of the store; which
    of the two a call site makes, and so the name it is recorded under, is [direct]. *)
Variable direct : StreamWrite → bool.

Definition instrumentedAppend (ws : list StreamWrite) : T (result unit) :=
  match ws with
  | [mkStreamWrite ty id seq evs as w] => if direct w then Store_Append ty id seq evs else Store_AppendAtomic ws
  | _ => Store_AppendAtomic ws
  end.

Definition instrumentedCall (o : op) : T (resp o) :=
  match o with
  | OLoad ty id => Store_Load ty id
  | OAppend ws => instrumentedAppend ws
  | ONow => Store_Now
  | OCreateAccounts accs => Ledger_CreateAccounts accs
  | OCreateTransfers ts => Ledger_CreateTransfers ts
  | OBalances ids => Ledger_Balances ids
  | o => inner (call o)
  end.

(** [Orchestrator]: the services wired over [NewStore(store)] and [NewLedger(lc)]. *)
Fixpoint instrument {A} (p : prog A) : T A :=
  match p with
  | Ret a => tret a
  | Op o k => tbind (instrumentedCall o) (λ r, instrument (k r))
  end.
End store.

(** ** What a decorated call records *)

Section tallies.
Context {C : Codec}.

(** The value of a counter under one set of attributes. *)
Definition amount (counter : string) (attrs : list attr) (d : datum) : Z :=
  match d with
  | Added c n ats => if bool_decide (c = counter ∧ ats = attrs) then n else 0
  | _ => 0
  end.
Definition tally (counter : string) (attrs : list attr) (ds : list datum) : Z :=
  foldr (λ d n, amount counter attrs d + n) 0 ds.

Lemma tally_app counter attrs ds ds' :
  tally counter attrs (ds ++ ds') = tally counter attrs ds + tally counter attrs ds'.
Proof. induction ds as [|d ds IH]; simpl; [done | lia]. Qed.

Definition appendedAs (ty et : string) : list attr := [(keyAggregateType, AString ty); (keyEventType, AString et)].
Definition rejectedAs (op code : string) : list attr := [(keyOperation, AString op); (keyLedgerResult, AString code)].

(** How many of the messages would be events of a type. *)
Definition ofType (et : string) (ms : list message) : Z := len (filter (λ m, EventType m = et) ms).
Definition writtenBy (ty et : string) (w : StreamWrite) : Z :=
  if bool_decide (sw_AggregateType w = ty) then ofType et (sw_Events w) else 0.
Definition written (ty et : string) (ws : list StreamWrite) : Z := foldr (λ w n, writtenBy ty et w + n) 0 ws.

Definition codeCount (code : string) (codes : list string) : Z := len (filter (eq code) codes).

(** Recording something leaves the open spans alone and only adds to what is sent. *)
Record adds (t t' : Rec) (new : list datum) : Prop := {
  adds_active : active t' = active t;
  adds_sent : sent t' = sent t ++ new
}.

Lemma adds_refl t : adds t t [].
Proof. split; [done|]. by rewrite app_nil_r. Qed.

Lemma adds_trans t1 t2 t3 n m : adds t1 t2 n → adds t2 t3 m → adds t1 t3 (n ++ m).
Proof. intros [A1 S1] [A2 S2]. split; [congruence|]. by rewrite S2, S1, app_assoc. Qed.

Lemma adds_emit t d : adds t (emit d t) [d].
Proof. by split. Qed.

(** The spans that ended, with the name of the span each was inside. *)
Definition endedOf (d : datum) : option (Span * option string) :=
  match d with Ended sp par => Some (sp, par) | _ => None end.
Definition ended (ds : list datum) : list (Span * option string) := omap endedOf ds.

Lemma ended_app ds ds' : ended (ds ++ ds') = ended ds ++ ended ds'.
Proof. apply omap_app. Qed.

(** What a run of records says: events appended, entries refused, spans ended. *)
Record says (app rej : string → string → Z) (spans : list (Span * option string)) (new : list datum) : Prop := {
  says_app ty et : tally appendedCounter (appendedAs ty et) new = app ty et;
  says_rej op code : tally rejectionsCounter (rejectedAs op code) new = rej op code;
  says_spans : ended new = spans
}.

Definition nothing (_ _ : string) : Z := 0.

Lemma says_nil : says nothing nothing [] [].
Proof. by split. Qed.

Lemma says_join a a' b b' c c' n n' : says a b c n → says a' b' c' n' →
  says (λ x y, a x y + a' x y) (λ x y, b x y + b' x y) (c ++ c') (n ++ n').
Proof.
  intros [A R S] [A' R' S']. split; intros; rewrite ?tally_app, ?ended_app; congruence.
Qed.

Lemma says_ext a a' b b' c n : says a b c n → (∀ x y, a x y = a' x y) → (∀ x y, b x y = b' x y) → says a' b' c n.
Proof. intros [A R S] Ha Hb. split; [intros; by rewrite A | intros; by rewrite R | done]. Qed.

Lemma countAppended_says ty ms t : ∃ new, adds t (countAppended ty ms t) new ∧
  says (λ ty' et, if bool_decide (ty = ty') then ofType et ms else 0) nothing [] new.
Proof.
  revert t. induction ms as [|m ms IH]; intros t.
  { exists []. split; [apply adds_refl|]. split; [|done|done]. intros ty' et. by case_bool_decide. }
  destruct (IH (countOne ty m t)) as (new & Hn & [Hc Hr Hs]).
  eexists. split; [by eapply adds_trans; [apply adds_emit | exact Hn]|]. split; [|done|done].
  intros ty' et. simpl. rewrite Hc. unfold ofType, appendedAs. rewrite filter_cons.
  repeat case_bool_decide; repeat case_decide; simpl; try lia; exfalso; naive_solver.
Qed.

Lemma countWrites_says ws t : ∃ new,
  adds t (foldl (λ t w, countAppended (sw_AggregateType w) (sw_Events w) t) t ws) new ∧
  says (λ ty et, written ty et ws) nothing [] new.
Proof.
  revert t. induction ws as [|w ws IH]; intros t; [exists []; split; [apply adds_refl | apply says_nil]|]. simpl.
  destruct (countAppended_says (sw_AggregateType w) (sw_Events w) t) as (n1 & H1 & S1).
  destruct (IH (countAppended (sw_AggregateType w) (sw_Events w) t)) as (n2 & H2 & S2).
  exists (n1 ++ n2). split; [by eapply adds_trans|]. by eapply says_ext; [exact (says_join _ _ _ _ _ _ _ _ S1 S2)|..].
Qed.

Lemma codes_says op codes t : ∃ new,
  adds t (foldl (λ t code, emit (Added rejectionsCounter 1 (rejectedAs op code)) t) t codes) new ∧
  says nothing (λ op' code, if bool_decide (op = op') then codeCount code codes else 0) [] new.
Proof.
  revert t. induction codes as [|x codes IH]; intros t.
  { exists []. split; [apply adds_refl|]. split; [done| |done]. intros op' code. by case_bool_decide. }
  destruct (IH (emit (Added rejectionsCounter 1 (rejectedAs op x)) t)) as (new & Hn & [Hc Hr Hs]).
  eexists. split; [by eapply adds_trans; [apply adds_emit | exact Hn]|]. split; [done| |done].
  intros op' code. simpl. rewrite Hr. unfold codeCount, rejectedAs. rewrite filter_cons.
  repeat case_bool_decide; repeat case_decide; simpl; try lia; exfalso; naive_solver.
Qed.
End tallies.

(** ** Each call, and what was told of it *)

Section told.
Context {C : Codec} (canceled : bool).

Definition refusedAccount (r : AccountResult) : list string :=
  match ar_Result r with
  | AccountResultOK | AccountResultExists => []
  | code => [AccountResultCode_String code]
  end.
Definition refusedTransfer (r : TransferResult) : list string :=
  match tr_Result r with
  | TransferResultOK | TransferResultExists => []
  | code => [TransferResultCode_String code]
  end.

(** The events a call that succeeded appended. *)
Definition appendedByCall (o : op) : resp o → string → string → Z :=
  match o with
  | OAppend ws => λ r ty et, match r with Ok _ => written ty et ws | Err _ => 0 end
  | _ => λ _, nothing
  end.

(** The entries of a batch the ledger refused on their merits. *)
Definition refusedByCall (o : op) : resp o → string → string → Z :=
  match o with
  | OCreateAccounts _ => λ r op code,
      if bool_decide ("create_accounts" = op) then codeCount code (resultsOf r ≫= refusedAccount) else 0
  | OCreateTransfers _ => λ r op code,
      if bool_decide ("create_transfers" = op) then codeCount code (resultsOf r ≫= refusedTransfer) else 0
  | _ => λ _, nothing
  end.

(** An answer that is a fault of the system, and not its answer: not a lost race,
    not a cancelled caller. *)
Definition storeFault {A} (r : result A) : option error :=
  match r with
  | Ok _ => None
  | Err e => if Is e ErrConcurrencyConflict || Is e ErrDuplicateStream || isCanceled canceled e then None else Some e
  end.
Definition ledgerFault {A} (r : result A) : option error :=
  match r with
  | Ok _ => None
  | Err e => if Is e ErrInvalidRequest then Some e else if isCanceled canceled e then None else Some e
  end.

(** The status of the span of a call that has one. *)
Definition faultOf (o : op) : resp o → option (option error) :=
  match o with
  | OLoad _ _ | OAppend _ | ONow => λ r, Some (storeFault r)
  | OCreateAccounts _ | OCreateTransfers _ | OBalances _ => λ r, Some (ledgerFault r)
  | _ => λ _, None
  end.

(** What is recorded of one call: nothing lost, nothing left open, the events of an
    append that succeeded and no other, the refused entries by their codes, and
    one span, inside the caller's, marked failed for a fault only. *)
Definition told (o : op) (r : resp o) (t t' : Rec) : Prop := ∃ new,
  adds t t' new ∧
  match faultOf o r with
  | Some fault => ∃ sp, says (appendedByCall o r) (refusedByCall o r) [(sp, sp_name <$> head (active t))] new ∧
      sp_error sp = fault
  | None => new = []
  end.

(** A decorated call is the call itself, with the process's clock read around it. *)
Inductive wraps (o : op) (t : Rec) : prog (Rec * resp o) → Prop :=
| wraps_timed (f : Z → resp o → Z → Rec) : (∀ b r e, told o r t (f b r e)) →
    wraps o t (Op OTime (λ b, Op o (λ r, Op OTime (λ e, Ret (f b r e, r)))))
| wraps_bare : (∀ r, told o r t t) → wraps o t (Op o (λ r, Ret (t, r))).

(** Inside a decorated call: its span open, and what has been said so far. *)
Definition inside (t0 t : Rec) (app rej : string → string → Z) : Prop := ∃ sp new,
  active t = sp :: active t0 ∧ sent t = sent t0 ++ new ∧ sp_error sp = None ∧ says app rej [] new.

Lemma inside_start name attrs t : inside t (startSpan name attrs t) nothing nothing.
Proof. eexists _, []. simpl. rewrite app_nil_r. split_and!; [done..|apply says_nil]. Qed.

Lemma inside_span t0 t f app rej :
  (∀ sp, sp_error (f sp) = sp_error sp) → inside t0 t app rej → inside t0 (onSpan f t) app rej.
Proof.
  intros Hf (sp & new & Ha & Hs & He & Hn). unfold onSpan. rewrite Ha. exists (f sp), new. by rewrite Hf.
Qed.

Lemma inside_adds t0 t t' new app rej app' rej' :
  inside t0 t app rej → adds t t' new → says app' rej' [] new →
  inside t0 t' (λ x y, app x y + app' x y) (λ x y, rej x y + rej' x y).
Proof.
  intros (sp & n & Ha & Hs & He & Hn) [Ha' Hs'] Hn'. exists sp, (n ++ new). rewrite Ha', Hs', Hs, app_assoc.
  split_and!; [done..|]. exact (says_join _ _ _ _ _ _ _ _ Hn Hn').
Qed.

(** The end of a decorated call. *)
Lemma inside_done t0 t outcome err hist x attrs app rej :
  inside t0 t app rej →
  ∃ new sp, adds t0 (emit (Measured hist x attrs) (endSpan (finish outcome err t))) new ∧
    says app rej [(sp, sp_name <$> head (active t0))] new ∧
    sp_error sp = if bool_decide (outcome = outcomeError ∨ outcome = outcomeInvalidRequest) then err else None.
Proof.
  intros (sp & new & Ha & Hs & He & [Hp Hr Hn]). unfold finish, onSpan, endSpan, emit. rewrite Ha. simpl.
  case_bool_decide; [destruct err as [e|]|]; simpl; eexists (new ++ [_; _]), _;
    (split; [split; simpl; [done | by rewrite Hs, <- !app_assoc]|]);
    (split; [split; intros; rewrite ?tally_app, ?ended_app; simpl; rewrite ?Hp, ?Hr, ?Hn; (lia || done) | done]).
Qed.

Lemma storeOutcome_fault {A} (r : result A) :
  (if bool_decide (storeOutcome canceled (errOf r) = outcomeError ∨ storeOutcome canceled (errOf r) = outcomeInvalidRequest)
   then errOf r else None) = storeFault r.
Proof.
  destruct r as [a|e]; [done|]. unfold storeOutcome, storeFault, baseOutcome; simpl.
  destruct (Is e ErrConcurrencyConflict); [done|]. destruct (Is e ErrDuplicateStream); [done|].
  by destruct (isCanceled canceled e).
Qed.

Lemma ledgerOutcome_fault {A} (r : result A) :
  (if bool_decide (ledgerOutcome canceled (errOf r) = outcomeError ∨ ledgerOutcome canceled (errOf r) = outcomeInvalidRequest)
   then errOf r else None) = ledgerFault r.
Proof.
  destruct r as [a|e]; [done|]. unfold ledgerOutcome, ledgerFault, baseOutcome; simpl.
  destruct (Is e ErrInvalidRequest); [done|]. by destruct (isCanceled canceled e).
Qed.

(** The shape every decorated call has. *)
Lemma decorated_wraps o t (start : Rec) (mid : resp o → Rec → Rec) outcome (err : resp o → option error) hist attrs p :
  p = Op OTime (λ b, Op o (λ r, Op OTime (λ e,
        Ret (emit (Measured hist (Seconds (i64 (e - b))) (attrs r)) (endSpan (finish (outcome r) (err r) (mid r start))), r)))) →
  (∀ r, inside t (mid r start) (appendedByCall o r) (refusedByCall o r)) →
  (∀ r, faultOf o r = Some (if bool_decide (outcome r = outcomeError ∨ outcome r = outcomeInvalidRequest)
                            then err r else None)) →
  wraps o t p.
Proof.
  intros -> Hmid Hf. refine (wraps_timed o t (λ b r e, _) _). intros b r e. unfold told. rewrite Hf.
  destruct (inside_done t _ (outcome r) (err r) hist (Seconds (i64 (e - b))) (attrs r) _ _ (Hmid r))
    as (new & sp & Hadds & Hsays & Herr).
  exists new. split; [done|]. exists sp. split; [done | exact Herr].
Qed.

Lemma accountAnswers_rejected rs a :
  rejected (foldl accountAnswer a rs) = rejected a ++ (rs ≫= refusedAccount).
Proof.
  revert a. induction rs as [|r rs IH]; intros a; simpl; [by rewrite app_nil_r|]. rewrite IH.
  unfold accountAnswer, refusedAccount. destruct (ar_Result r); simpl; by rewrite <- ?app_assoc.
Qed.

Lemma transferAnswers_rejected rs a :
  rejected (foldl transferAnswer a rs) = rejected a ++ (rs ≫= refusedTransfer).
Proof.
  revert a. induction rs as [|r rs IH]; intros a; simpl; [by rewrite app_nil_r|]. rewrite IH.
  unfold transferAnswer, refusedTransfer. destruct (tr_Result r); simpl; by rewrite <- ?app_assoc.
Qed.

Lemma inside_ext t0 t app rej app' rej' :
  inside t0 t app rej → (∀ x y, app x y = app' x y) → (∀ x y, rej x y = rej' x y) → inside t0 t app' rej'.
Proof.
  intros (sp & new & Ha & Hs & He & Hn) H1 H2. exists sp, new. split_and!; [done..|]. by eapply says_ext.
Qed.

Lemma inside_answers t0 t op a :
  inside t0 t nothing nothing →
  inside t0 (recordAnswers op a t) nothing
    (λ op' code, if bool_decide (op = op') then codeCount code (rejected a) else 0).
Proof.
  intros H. unfold recordAnswers.
  match goal with |- inside _ (foldl _ ?u _) _ _ => destruct (codes_says op (rejected a) u) as (new & Hn & Hs) end.
  eapply inside_ext; [refine (inside_adds _ _ _ _ nothing nothing _ _ _ Hn Hs); by apply inside_span | reflexivity | reflexivity].
Qed.

Lemma inside_counted t0 t ws :
  inside t0 t nothing nothing →
  inside t0 (foldl (λ t w, countAppended (sw_AggregateType w) (sw_Events w) t) t ws) (λ ty et, written ty et ws) nothing.
Proof.
  intros H. destruct (countWrites_says ws t) as (new & Hn & Hs).
  eapply inside_ext; [exact (inside_adds _ _ _ _ _ _ _ _ H Hn Hs)|reflexivity|reflexivity].
Qed.

Lemma inside_counted_one t0 t ty id n ms :
  inside t0 t nothing nothing →
  inside t0 (countAppended ty ms t) (λ ty' et, written ty' et [mkStreamWrite ty id n ms]) nothing.
Proof. exact (inside_counted t0 t [mkStreamWrite ty id n ms]). Qed.

(** A decorated method, as the calls it makes. *)
Local Ltac calls :=
  cbv [Store_Append Store_AppendAtomic Store_Load Store_Now Ledger_CreateAccounts Ledger_CreateTransfers Ledger_Balances
       instrumentedCall tbind inner telling tret storeStart storeDone ledgerStart ledgerDone durationOf
       load append appendAtomic storeNow createAccounts createTransfers balances pbind call timeNow fst snd].

Lemma storeAppend_wraps t ty id n ms :
  wraps (OAppend [mkStreamWrite ty id n ms]) t (Store_Append canceled ty id n ms t).
Proof.
  eapply (decorated_wraps (OAppend _) _ _ (λ r t, match r with Ok _ => countAppended ty ms t | Err _ => t end)
            (λ r, storeOutcome canceled (errOf r)) errOf); [calls; reflexivity|intros r|].
  - destruct r as [[]|e]; [apply (inside_counted_one _ _ _ id n) |]; apply inside_start.
  - intros r. simpl. by rewrite <- (storeOutcome_fault r).
Qed.

Lemma storeAppendAtomic_wraps t ws : wraps (OAppend ws) t (Store_AppendAtomic canceled ws t).
Proof.
  eapply (decorated_wraps (OAppend _) _ _ (λ r t, match r with Ok _ => _ | Err _ => t end)
            (λ r, storeOutcome canceled (errOf r)) errOf); [calls; reflexivity|intros r|].
  - destruct r as [[]|e]; [apply inside_counted|]; apply inside_start.
  - intros r. simpl. by rewrite <- (storeOutcome_fault r).
Qed.

(** Every call of the decorated store and ledger, whatever is inside answers. *)
Lemma instrumentedCall_wraps direct o t : wraps o t (instrumentedCall canceled direct o t).
Proof.
  destruct o as [ty id|ws| |accs|ts|ids|n| |d| | |keys];
    try solve [apply wraps_bare; intros r; exists []; split; [apply adds_refl | done]].
  - eapply (decorated_wraps (OLoad ty id) _ _
              (λ r, onSpan (withAttributes [("money_flow.eventstore.events", AInt (len (resultsOf r)))])) (λ r, storeOutcome canceled (errOf r)) errOf); [calls; reflexivity|intros r|].
    + apply inside_span; [done | apply inside_start].
    + intros r. simpl. by rewrite <- (storeOutcome_fault r).
  - destruct ws as [|[ty id seq evs] [|w ws]]; simpl; [apply storeAppendAtomic_wraps| |apply storeAppendAtomic_wraps].
    destruct (direct _); [apply storeAppend_wraps | apply storeAppendAtomic_wraps].
  - eapply (decorated_wraps ONow _ _ (λ _ t, t) (λ r, storeOutcome canceled (errOf r)) errOf); [calls; reflexivity|intros r|].
    + apply inside_start.
    + intros r. simpl. by rewrite <- (storeOutcome_fault r).
  - eapply (decorated_wraps (OCreateAccounts accs) _ _
              (λ r, recordAnswers "create_accounts" (foldl accountAnswer (mkAnswers [] 0) (resultsOf r))) (λ r, ledgerOutcome canceled (errOf r)) errOf); [calls; reflexivity|intros r|].
    + simpl. eapply inside_ext; [apply inside_answers, inside_start|done|]. intros op code. simpl.
      by rewrite accountAnswers_rejected.
    + intros r. simpl. by rewrite <- (ledgerOutcome_fault r).
  - eapply (decorated_wraps (OCreateTransfers ts) _ _
              (λ r, recordAnswers "create_transfers" (foldl transferAnswer (mkAnswers [] 0) (resultsOf r))) (λ r, ledgerOutcome canceled (errOf r)) errOf); [calls; reflexivity|intros r|].
    + simpl. eapply inside_ext; [apply inside_answers, inside_start|done|]. intros op code. simpl.
      by rewrite transferAnswers_rejected.
    + intros r. simpl. by rewrite <- (ledgerOutcome_fault r).
  - eapply (decorated_wraps (OBalances ids) _ _ (λ _ t, t) (λ r, ledgerOutcome canceled (errOf r)) errOf); [calls; reflexivity|intros r|].
    + apply inside_start.
    + intros r. simpl. by rewrite <- (ledgerOutcome_fault r).
Qed.
End told.

(** ** The log, counted *)

Section counted.
Context {C : Codec}.
Implicit Types (s : MemoryStore) (w : StreamWrite).

Definition isOf (ty et : string) (e : Event) : Prop := AggregateType e = ty ∧ EType e = et.
#[export] Instance isOf_dec ty et e : Decision (isOf ty et e).
Proof. unfold isOf. apply _. Defined.

(** The events of an aggregate and event type in the log. *)
Definition streamCount (ty et : string) (evs : list Event) : Z := len (filter (isOf ty et) evs).
Definition logCount (ty et : string) s : Z := msum (streamCount ty et) (streams s).

Lemma streamCount_app ty et evs evs' : streamCount ty et (evs ++ evs') = streamCount ty et evs + streamCount ty et evs'.
Proof. unfold streamCount. rewrite filter_app, length_app. lia. Qed.

Lemma streamCount_staged ty et w now i ms batch :
  staged_batch w now i ms batch →
  streamCount ty et batch = if bool_decide (sw_AggregateType w = ty) then ofType et ms else 0.
Proof.
  revert i batch. induction ms as [|m ms IH]; intros i [|e batch]; simpl; try done.
  - intros _. by case_bool_decide.
  - intros [(Hr & Hty & _) Hb]. specialize (IH _ _ Hb). destruct Hr as [Het _].
    unfold streamCount, ofType in *. rewrite !filter_cons. unfold isOf at 1.
    repeat case_bool_decide; repeat case_decide; simpl; try lia; exfalso; naive_solver congruence.
Qed.

Lemma logCount_commitWrite ty et s w batch :
  logCount ty et (commitWrite s w batch) = logCount ty et s + streamCount ty et (number (globalSeq s) batch).
Proof.
  unfold logCount, commitWrite, stream_at. simpl. destruct (streams s !! sw_key w) as [evs|] eqn:Hk; simpl.
  - rewrite (msum_insert _ _ _ evs _ Hk), streamCount_app. lia.
  - rewrite msum_insert_new by done. simpl. lia.
Qed.

Lemma logCount_commitWrites ty et s0 now s ws staged :
  stageWrites s0 now ws = Ok staged →
  logCount ty et (commitWrites s ws staged) = logCount ty et s + written ty et ws.
Proof.
  revert s staged. induction ws as [|w ws IH]; intros s staged; simpl; [intros [= <-]; simpl; lia|].
  case_bool_decide; [|done]. destruct (stageEvents w now 0 (sw_Events w)) as [b|] eqn:Hb; [|done].
  destruct (stageWrites s0 now ws) as [st|] eqn:Hst; [|done]. intros [= <-]. simpl.
  rewrite (IH _ _ eq_refl), logCount_commitWrite.
  rewrite (streamCount_staged ty et w now 0 (sw_Events w)); [unfold writtenBy; lia|].
  by apply number_staged, stageEvents_staged.
Qed.

Lemma written_live ty et ws : written ty et (liveWrites ws) = written ty et ws.
Proof.
  induction ws as [|w ws IH]; [done|]. unfold liveWrites in *. rewrite filter_cons. simpl.
  destruct (decide (sw_Events w = [])) as [Hw|Hw]; [rewrite decide_False by auto|rewrite decide_True by auto]; simpl; rewrite IH; [|done].
  unfold writtenBy, ofType. rewrite Hw. by case_bool_decide.
Qed.

(** An append adds to the log what it was given when it answers success, and
    nothing when it does not. *)
Lemma logCount_append ty et ctx now ws s s' r :
  AppendAtomic ctx now ws s = (s', r) →
  logCount ty et s' = logCount ty et s + match r with Ok _ => written ty et ws | Err _ => 0 end.
Proof.
  unfold AppendAtomic. rewrite <- (written_live ty et ws). destruct (validateWrites _) as [[]|]; [|intros [= <- <-]; lia].
  destruct (liveWrites ws) as [|w0 ws0]; [intros [= <- <-]; simpl; lia|].
  destruct ctx; [intros [= <- <-]; lia|]. destruct (stageWrites s now (w0 :: ws0)) as [st|] eqn:Hst; intros [= <- <-]; [|lia].
  exact (logCount_commitWrites ty et s now s (w0 :: ws0) st Hst).
Qed.

Lemma streamCount_pos ty et evs : 0 ≤ streamCount ty et evs.
Proof. unfold streamCount. lia. Qed.

Lemma streamCount_prefix ty et evs evs' : evs `prefix_of` evs' → streamCount ty et evs ≤ streamCount ty et evs'.
Proof. intros [k ->]. rewrite streamCount_app. pose proof (streamCount_pos ty et k). lia. Qed.

Lemma msum_pos {A} (f : A → Z) (m : gmap string A) : (∀ x, 0 ≤ f x) → 0 ≤ msum f m.
Proof.
  intros Hf. induction m as [|k x m Hk IH] using map_ind; [by rewrite msum_empty|].
  rewrite msum_insert_new by done. specialize (Hf x). lia.
Qed.

Lemma msum_split {A} (f : A → Z) (m : gmap string A) k :
  msum f m = from_option f 0 (m !! k) + msum f (delete k m).
Proof.
  destruct (m !! k) as [x|] eqn:Hk; simpl; [|by rewrite delete_id].
  rewrite <- (insert_delete_id m k x Hk) at 1. by rewrite msum_insert_new by apply lookup_delete_eq.
Qed.

Lemma msum_prefix ty et (m m' : gmap string (list Event)) :
  (∀ k, default [] (m !! k) `prefix_of` default [] (m' !! k)) →
  msum (streamCount ty et) m ≤ msum (streamCount ty et) m'.
Proof.
  revert m'. induction m as [|k evs m Hk IH] using map_ind; intros m' H.
  { rewrite msum_empty. apply msum_pos, streamCount_pos. }
  rewrite msum_insert_new, (msum_split _ m' k) by done. pose proof (H k) as Hp. rewrite lookup_insert_eq in Hp. simpl in Hp.
  apply (streamCount_prefix ty et) in Hp.
  assert (from_option (streamCount ty et) 0 (m' !! k) = streamCount ty et (default [] (m' !! k))) as -> by by destruct (m' !! k).
  enough (msum (streamCount ty et) m ≤ msum (streamCount ty et) (delete k m')) by lia.
  apply IH. intros k'. destruct (decide (k = k')) as [<-|Hne]; [by rewrite Hk; apply prefix_nil|].
  rewrite lookup_delete_ne by done. specialize (H k'). by rewrite lookup_insert_ne in H.
Qed.

Lemma logCount_prefix ty et s s' :
  (∀ k, stream_at s k `prefix_of` stream_at s' k) → logCount ty et s ≤ logCount ty et s'.
Proof. apply msum_prefix. Qed.
End counted.

(** ** The decorators change nothing *)

Section transparent.
Context {C : Codec} (canceled : bool) (direct : StreamWrite → bool).

(** The counter of appended events, as it stands. *)
Definition appendedCount (t : Rec) (ty et : string) : Z := tally appendedCounter (appendedAs ty et) (sent t).

Lemma told_active o r t t' : told canceled o r t t' → active t' = active t.
Proof. by intros (new & [Ha _] & _). Qed.

Lemma told_appended o r t t' ty et :
  told canceled o r t t' → appendedCount t' ty et = appendedCount t ty et + appendedByCall o r ty et.
Proof.
  intros (new & [_ Hs] & Hn). unfold appendedCount. rewrite Hs, tally_app.
  destruct (faultOf canceled o r) eqn:Hf.
  - destruct Hn as (sp & [Ha _ _] & _). by rewrite Ha.
  - subst. by destruct o.
Qed.

(** Everything recorded inside a span was recorded of calls made inside it. *)
Definition nestedIn (t t' : Rec) : Prop := ∃ new, sent t' = sent t ++ new ∧
  Forall (λ x, snd x = sp_name <$> head (active t)) (ended new).

Lemma nested_refl t : nestedIn t t.
Proof. exists []. by rewrite app_nil_r. Qed.

Lemma told_nested o r t t' t'' : told canceled o r t t' → nestedIn t' t'' → nestedIn t t''.
Proof.
  intros (new & [Ha Hs] & Hn) (new' & Hs' & Hf). exists (new ++ new'). rewrite Hs', Hs, app_assoc. split; [done|].
  rewrite Ha in Hf. rewrite ended_app. apply Forall_app. split; [|done].
  destruct (faultOf canceled o r); [|by subst]. destruct Hn as (sp & [_ _ ->] & _). by repeat constructor.
Qed.

Lemma wraps_run o t p w : wraps canceled o t p →
  ∃ t', run w p = (fst (run_op w o), (t', snd (run_op w o))) ∧ told canceled o (snd (run_op w o)) t t'.
Proof.
  intros [f Hf|Hb]; simpl.
  - destruct (run_op w o) as [w' r]. simpl. eauto.
  - destruct (run_op w o) as [w' r]. simpl. eauto.
Qed.

Lemma wraps_safe {L : LedgerClient} legal o t p Q w : wraps canceled o t p →
  (∀ w1 r w2, rely legal w w1 → exec w1 o r w2 →
     guar legal w1 w2 ∧ ∀ t', told canceled o r t t' → ∀ w3, rely legal w2 w3 → Q (t', r) w3) →
  safe legal p Q w.
Proof.
  intros [f Hf|Hb] HQ.
  - intros w1 H1 b w1' ->. split; [apply guar_refl|]. intros w2 H2 r w3 He.
    destruct (HQ w2 r w3) as [Hg Hk]; [by etrans|done|]. split; [done|].
    intros w4 H4 e w4' ->. split; [apply guar_refl|]. intros w5 H5. apply Hk; [apply Hf | by etrans].
  - intros w1 H1 r w2 He. destruct (HQ w1 r w2 H1 He) as [Hg Hk]. split; [done|]. intros w3 H3. by apply Hk.
Qed.

Lemma logCount_run ty et w o :
  logCount ty et (w_store (fst (run_op w o))) = logCount ty et (w_store w) + appendedByCall o (snd (run_op w o)) ty et.
Proof.
  destruct o; simpl; unfold nothing; try lia.
  - destruct (AppendAtomic None (w_now w) writes (w_store w)) as [s' r] eqn:Ha. simpl. exact (logCount_append ty et _ _ _ _ _ _ Ha).
  - destruct (CreateAccounts _ _). simpl. lia.
  - destruct (CreateTransfers _ _). simpl. lia.
Qed.

Lemma logCount_exec {L : LedgerClient} ty et w o r w' : exec w o r w' →
  logCount ty et (w_store w) + appendedByCall o r ty et ≤ logCount ty et (w_store w').
Proof.
  destruct o; simpl; unfold nothing.
  2: { intros (s' & r0 & Ha & Hr). pose proof (logCount_append ty et _ _ _ _ _ _ Ha) as Hl.
       pose proof (logCount_prefix ty et (w_store w) s' (λ k, AppendAtomic_prefix _ _ _ _ _ _ k Ha)).
       destruct Hr as [[-> ->]|(e & -> & _ & [->| ->])]; simpl; lia. }
  all: try by intros [-> _]; lia.
  all: try by intros (l' & _ & ->); simpl; lia.
  all: try by intros (-> & _); lia.
  - by intros ->; lia.
Qed.

Lemma logCount_rely {L : LedgerClient} legal ty et w w' :
  rely legal w w' → logCount ty et (w_store w) ≤ logCount ty et (w_store w').
Proof. intros Hr. apply logCount_prefix. intros k. by eapply rely_prefix. Qed.

(** Instrumented or not, a handler does the same: run on its own it makes the same
    changes and gives the same answer, every span it opened is closed and was inside
    the caller's, and the counter of appended events has grown, for each aggregate and event type, by
    exactly what the log has. *)
Theorem instrumented_same {A} (p : prog A) w t :
  ∃ t', run w (instrument canceled direct p t) = (fst (run w p), (t', snd (run w p))) ∧ active t' = active t ∧ nestedIn t t' ∧
    ∀ ty et, appendedCount t' ty et - appendedCount t ty et =
             logCount ty et (w_store (fst (run w p))) - logCount ty et (w_store w).
Proof.
  revert w t. induction p as [a|o k IH]; intros w t; simpl; [exists t; split_and!; [done|done|apply nested_refl|intros; lia]|].
  unfold tbind. rewrite run_pbind.
  destruct (wraps_run o t _ w (instrumentedCall_wraps canceled direct o t)) as (t1 & -> & Ht). simpl.
  pose proof (λ ty et, logCount_run ty et w o) as Hl. destruct (run_op w o) as [w1 r]. simpl in *.
  destruct (IH r w1 t1) as (t' & Hrun & Ha & Hn & Hc). exists t'.
  split_and!; [done|by rewrite Ha, (told_active _ _ _ _ Ht)|by eapply told_nested|].
  intros ty et. pose proof (told_appended _ _ _ _ ty et Ht). specialize (Hc ty et). specialize (Hl ty et). lia.
Qed.

(** Any program, by the calls it makes. *)
Lemma instrument_keeps {L : LedgerClient} legal {A} (p : prog A) Q w t :
  safe legal p Q w →
  safe legal (instrument canceled direct p t) (λ x w', Q (snd x) w' ∧ active (fst x) = active t ∧
    ∀ ty et, appendedCount (fst x) ty et - appendedCount t ty et ≤
             logCount ty et (w_store w') - logCount ty et (w_store w)) w.
Proof.
  revert w t. induction p as [a|o k IH]; intros w t Hs; simpl instrument.
  { intros w1 H1. split_and!; [by apply Hs|done|]. intros ty et. pose proof (logCount_rely legal ty et _ _ H1). simpl. lia. }
  apply safe_pbind. eapply wraps_safe; [apply instrumentedCall_wraps|]. intros w1 r w2 H1 He.
  destruct (Hs w1 H1 r w2 He) as [Hg Hk]. split; [done|]. intros t' Ht w3 H3. simpl.
  eapply safe_mono; [|apply (IH r w3 t'), (safe_rely legal _ _ _ _ H3 Hk)].
  intros x w' _ (HQ & Ha & Hc). split_and!; [done|by rewrite Ha, (told_active _ _ _ _ Ht)|].
  intros ty et. specialize (Hc ty et). pose proof (told_appended _ _ _ _ ty et Ht).
  pose proof (logCount_exec ty et _ _ _ _ He). pose proof (logCount_rely legal ty et _ _ H1).
  pose proof (logCount_rely legal ty et _ _ H3). lia.
Qed.

(** C36. Under any interference, with any call failing and any reply lost: what a handler
    guarantees it guarantees instrumented, and the counter is never ahead of the
    log. *)
Theorem instrumented_safe {L : LedgerClient} legal {A} (p : prog A) Q w t :
  safe legal p Q w →
  safe legal (instrument canceled direct p t) (λ x w', Q (snd x) w' ∧ active (fst x) = active t ∧
    ∀ ty et, appendedCount (fst x) ty et - appendedCount t ty et ≤
             logCount ty et (w_store w') - logCount ty et (w_store w)) w.
Proof. apply instrument_keeps. Qed.
End transparent.

(** ** Example *)

(** An append on its own, under the protocol that allows everything, with no
    telemetry recorded yet. *)
Definition sampleAppend : prog (result unit) := append "transfer" "t1" 0 [TransferCommitted "t1" []].

Lemma instrumented_safe_witness :
  safe (L := FakeLedger) (λ _ _ _ _, True) sampleAppend (λ _ w, w_now w = w_now w) emptyWorld ∧
  safe (L := FakeLedger) (λ _ _ _ _, True) (instrument true (λ _, true) sampleAppend (mkRec [] []))
    (λ x w', w_now w' = w_now w' ∧ active (fst x) = [] ∧
       ∀ ty et, appendedCount (fst x) ty et - 0 ≤ logCount ty et (w_store w') - logCount ty et (w_store emptyWorld))
    emptyWorld.
Proof.
  assert (Hs : safe (L := FakeLedger) (λ _ _ _ _, True) sampleAppend (λ _ w, w_now w = w_now w) emptyWorld).
  { intros w1 _ r w2 (s' & r0 & Ha & Hr). split; [|by intros w3 _].
    intros k. destruct r0 as [[]|e].
    - destruct Hr as [[-> ->]|(e & -> & _ & [->| ->])]; [|by left|]; simpl;
        (destruct (AppendAtomic_ok _ _ _ _ _ k Ha) as [(w & b & _ & _ & _ & Hb & ->)|[_ ->]]; [right|by left]);
        exists (sw_Events w), b; split_and!; [done|by eapply staged_batch_recorded|done|done|by eapply staged_batch_recorded|done].
    - pose proof (AppendAtomic_err _ _ _ _ _ _ Ha) as ->. destruct Hr as [[-> ->]|(e' & -> & _ & [->| ->])]; by left. }
  split; [exact Hs|].
  exact (instrumented_safe true (λ _, true) (λ _ _ _ _, True) sampleAppend (λ _ w, w_now w = w_now w) emptyWorld (mkRec [] []) Hs).
Defined.
