(* ===== verification/ResumeDriver.v ===== *)
(** * The resume command ([go/cmd/resume])

    [driver.go]: waking an aggregate and everything its progress depends on until
    none of it grows. [catalogue.go]: finding the unfinished streams in the events
    table. [main.go]: turning the command line into targets and driving them.
    The driver is one more program of the system; [Protocol] runs it beside the
    services. *)

From S2P Require Import Prelude Proto EventStore Ledger Effects Validate Postgres TransferState.
From S2P Require Import TransferManifest TransferSaga TransferServer Dag TransactionState TransactionSaga.
From S2P Require Import Orchestrator.

Record target : Type := mkTarget { tg_type : string; tg_id : string }.

#[global] Instance target_eq_dec : EqDecision target.
Proof. solve_decision. Defined.

Definition target_String (t : target) : string := tg_type t +:+ " " +:+ tg_id t.

Definition maxWakeUps : nat := 100.

Section driver.
Context {C : Codec} {U : UuidPackage} {S256 : Sha256}.

(** ** driver.go *)

Context (orchestrator : Orchestrator).

Definition inFlight (t : target) : M bool :=
  if bool_decide (tg_type t = TransactionAggregateType) then IsOpen (tg_id t)
  else if bool_decide (tg_type t = TransferAggregateType) then
    let* outcome := Outcome (tg_id t) in ret (bool_decide (outcome = OutcomeInFlight))
  else fail (plain ("no driver for aggregate type " +:+ quoted (tg_type t))).

(** The Transaction [t] is or belongs to. *)
Definition transactionOf (t : target) : M string :=
  if bool_decide (tg_type t = TransactionAggregateType) then ret (tg_id t)
  else if bool_decide (tg_type t = TransferAggregateType) then OwningTransaction (tg_id t)
  else ret "".

Definition scope (t : target) : M (list target) :=
  let* transactionID := transactionOf t in
  if bool_decide (transactionID = "") then ret [t]
  else
    let first := t :: (if bool_decide (transactionID = tg_id t) then []
                       else [mkTarget TransactionAggregateType transactionID]) in
    let* children := ChildTransferIDs transactionID in
    ret (first ++ (mkTarget TransferAggregateType <$> filter (λ child, child ≠ tg_id t) children)).

Fixpoint footprint (s : list target) : M Z :=
  match s with
  | [] => ret 0
  | t :: rest =>
      let* events := load (tg_type t) (tg_id t) in
      let* total := footprint rest in
      ret (len events + total)
  end.

(** The trigger names an aggregate and nothing more. *)
Definition wake (t : target) : M unit :=
  mapErr (wrapf (target_String t +:+ ": "))
    (Handle orchestrator (mkTrigger (tg_type t) (tg_id t) "" 0 0)).

(** Whether a round moved anything in its scope. *)
Definition round (t : target) : M bool :=
  let* s := scope t in
  let* before := footprint s in
  mapM_ wake s ;;;
  let* s := scope t in
  let* after := footprint s in
  ret (negb (after =? before)).

Fixpoint rounds (n : nat) (t : target) : M Z :=
  match n with
  | O => fail (plain "still moving after 100 wake-ups; look at it rather than driving it further")
  | S n =>
      let* moved := round t in
      if moved : bool then rounds n t else ret (Z.of_nat (maxWakeUps - n))
  end.

Definition drive (t : target) : M Z := rounds maxWakeUps t.

(** ** main.go *)

(** What the catalogue answers. *)
Record catalogueOf : Type := mkCatalogue {
  ct_sagaStreams : result (list target);
  ct_typesOf : string → result (list string)
}.

Fixpoint stillGoing (candidates : list target) : M (list target) :=
  match candidates with
  | [] => ret []
  | t :: rest =>
      let* going := mapErr (wrapf (target_String t +:+ ": ")) (inFlight t) in
      let* targets := stillGoing rest in
      ret (if going : bool then t :: targets else targets)
  end.

Fixpoint namedTargets (typesOf : string → result (list string)) (ids : list string) : result (list target) :=
  match ids with
  | [] => Ok []
  | id :: rest =>
      let? found := typesOf id in
      match found with
      | [] => Err (plain ("no events for aggregate " +:+ id))
      | [ty] => let? targets := namedTargets typesOf rest in Ok (mkTarget ty id :: targets)
      | _ => Err (plain ("aggregate " +:+ id +:+ " has streams of several types; refusing to guess"))
      end
  end.

Definition resolveTargets (c : catalogueOf) (open : bool) (ids : list string) : M (list target) :=
  if open then
    let* candidates := lift (ct_sagaStreams c) in
    stillGoing candidates
  else lift (namedTargets (ct_typesOf c) ids).

Record tally : Type := mkTally { advanced : Z; inert : Z; failed : Z }.

Fixpoint driveAll (targets : list target) (n : tally) : M tally :=
  match targets with
  | [] => ret n
  | t :: rest =>
      try (drive t) (fun r =>
        match r with
        | Err _ => driveAll rest (mkTally (advanced n) (inert n) (failed n + 1))
        | Ok rounds =>
            if 1 <? rounds then driveAll rest (mkTally (advanced n + 1) (inert n) (failed n))
            else driveAll rest (mkTally (advanced n) (inert n + 1) (failed n))
        end)
  end.

(** [resume], past the connections it opens. *)
Definition resume (c : catalogueOf) (open : bool) (ids : list string) : M unit :=
  let* targets := resolveTargets c open ids in
  match targets with
  | [] => ret tt
  | _ =>
      let* n := driveAll targets (mkTally 0 0 0) in
      if 0 <? failed n then fail (plain "some aggregates could not be driven") else ret tt
  end.
End driver.

(** ** catalogue.go *)

Section catalogue.
Context {C : Codec}.

Definition typesOf {PU : PgUuid} (f : option error) (t : table) (id : string) : result (list string) :=
  match f, pgUuid id with
  | Some e, _ => Err (wrapf ("look up aggregate " +:+ id +:+ ": ") e)
  | None, None =>
      Err (wrapf ("look up aggregate " +:+ id +:+ ": ") (plain "invalid input syntax for type uuid"))
  | None, Some uuid =>
      Ok (merge_sort String.le (remove_dups (AggregateType <$> filter (λ e, AggregateID e = uuid) (rows t))))
  end.

(** HAVING NOT bool_or(event_type = ANY(terminals)) *)
Definition unfinished (terminals : list string) (t : table) (g : target) : bool :=
  negb (existsb (λ e, bool_decide (EType e ∈ terminals)) (rowsOf t (tg_type g) (tg_id g))).

(** ORDER BY aggregate_type, aggregate_id *)
Definition targetLe (a b : target) : Prop :=
  (tg_type a ≠ tg_type b ∧ String.le (tg_type a) (tg_type b)) ∨
  (tg_type a = tg_type b ∧ String.le (tg_id a) (tg_id b)).
#[global] Instance targetLe_dec a b : Decision (targetLe a b).
Proof. unfold targetLe. apply _. Defined.

(** The events of the two sagas' types. *)
Definition sagaRows (t : table) : list Event :=
  filter (λ e, AggregateType e ∈ [TransactionAggregateType; TransferAggregateType]) (rows t).

Definition sagaStreams (terminals : list string) (t : table) : list target :=
  merge_sort targetLe
    (filter (λ g, unfinished terminals t g = true)
       (remove_dups ((λ e, mkTarget (AggregateType e) (AggregateID e)) <$> sagaRows t))).
End catalogue.
