(* ===== verification/Consumer.v ===== *)
(** * The consumer ([go/internal/saga/consumer.go])

    [Run] is a fetcher, one worker for each partition it has met, and a committer,
    talking over channels and two one-way signals, the context's end and the
    first failure. Its state is the channels' contents and where each goroutine
    stands; [cstep] is what one of them does next, by a label that says which and
    with what answer from the reader, the handler or the timer. A goroutine's
    steps are cut at its channel operations, its calls and its selects. The
    state also keeps what an outside observer saw: the messages fetched, those
    whose handler returned without error, those committed. *)

From S2P Require Import Prelude Orchestrator.

Record Message : Type := mkMessage {
  m_Topic : string;
  Partition : Z;
  Offset : Z;
  Key : string;
  Value : string
}.

#[global] Instance Message_eq_dec : EqDecision Message.
Proof. solve_decision. Defined.

Definition defaultAttempts : nat := 3.
Definition defaultBackoff : Z := 250 * 1000000.
Definition commitBacklog : nat := 1024.
Definition partitionBacklog : nat := 64.

Record Consumer : Type := mkConsumer { c_attempts : nat; c_backoff : Z }.

Definition ConsumerOption : Type := Consumer → Consumer.
Definition WithAttempts (attempts : nat) : ConsumerOption :=
  λ c, if (1 <=? attempts)%nat then mkConsumer attempts (c_backoff c) else c.
Definition WithBackoff (d : Z) : ConsumerOption := λ c, mkConsumer (c_attempts c) d.
Definition NewConsumer (opts : list ConsumerOption) : Consumer :=
  foldl (λ c opt, opt c) (mkConsumer defaultAttempts defaultBackoff) opts.

(** What [fail] is called with: a [HaltError], or the committer's error. *)
Inductive failureOf : Type :=
| HaltError (m : Message) (attempts : nat) (err : error)
| CommitFailed (batch : list Message) (err : error).

(** Where the goroutine of [Run] itself is. From [FClosed] on the backlogs are
    closed; from [FJoined] on [handled] is. *)
Inductive fetcherAt : Type :=
| FFetch                      (* in reader.Fetch *)
| FSend (m : Message)         (* in the select that delivers m *)
| FClosed (err : error)       (* in wg.Wait *)
| FJoined (err : error)       (* waiting for committerDone *)
| FReturned (r : option (failureOf + error)). (* the error Run returned, if any *)

(** Where a worker is, in [consumePartition] or in [process] below it. *)
Inductive workerAt : Type :=
| WRange                                     (* range backlog *)
| WGot (m : Message)                         (* at the checks before process *)
| WHandle (m : Message) (t : Trigger) (attempt : nat) (backoff : Z)
| WSleep (m : Message) (t : Trigger) (attempt : nat) (backoff : Z) (* before attempt + 1 *)
| WHand (m : Message)                        (* the first select on handled *)
| WHandBlocked (m : Message)                 (* the second *)
| WStopped.

Record worker : Type := mkWorker { backlog : list Message; at_ : workerAt }.

(** Where [commitHandled] is. *)
Inductive committerAt : Type :=
| CRange          (* range handled *)
| CDrain          (* the inner select *)
| CCommit         (* in reader.Commit *)
| CFlush          (* the second range *)
| CFlushCommit    (* the last commit *)
| CDone.

Record state : Type := mkState {
  ctxDone : bool;
  failure : option failureOf;
  fetcher : fetcherAt;
  workers : gmap Z worker;
  handledCh : list Message;
  committer : committerAt;
  pending : gmap Z Message;
  fetched : list Message;
  handled : list Message;
  committed : list Message;
  flushed : bool
}.

Definition start : state := mkState false None FFetch ∅ [] CRange ∅ [] [] [] false.

Definition set_fetcher (f : fetcherAt) (s : state) : state :=
  mkState (ctxDone s) (failure s) f (workers s) (handledCh s) (committer s) (pending s)
    (fetched s) (handled s) (committed s) (flushed s).
Definition set_workers (ws : gmap Z worker) (s : state) : state :=
  mkState (ctxDone s) (failure s) (fetcher s) ws (handledCh s) (committer s) (pending s)
    (fetched s) (handled s) (committed s) (flushed s).
Definition set_committer (k : committerAt) (s : state) : state :=
  mkState (ctxDone s) (failure s) (fetcher s) (workers s) (handledCh s) k (pending s)
    (fetched s) (handled s) (committed s) (flushed s).
Definition set_handledCh (ch : list Message) (s : state) : state :=
  mkState (ctxDone s) (failure s) (fetcher s) (workers s) ch (committer s) (pending s)
    (fetched s) (handled s) (committed s) (flushed s).
Definition set_pending (pd : gmap Z Message) (s : state) : state :=
  mkState (ctxDone s) (failure s) (fetcher s) (workers s) (handledCh s) (committer s) pd
    (fetched s) (handled s) (committed s) (flushed s).
Definition cancel (s : state) : state :=
  mkState true (failure s) (fetcher s) (workers s) (handledCh s) (committer s) (pending s)
    (fetched s) (handled s) (committed s) (flushed s).
Definition sawFetched (m : Message) (s : state) : state :=
  mkState (ctxDone s) (failure s) (fetcher s) (workers s) (handledCh s) (committer s) (pending s)
    (fetched s ++ [m]) (handled s) (committed s) (flushed s).
Definition sawHandled (m : Message) (s : state) : state :=
  mkState (ctxDone s) (failure s) (fetcher s) (workers s) (handledCh s) (committer s) (pending s)
    (fetched s) (handled s ++ [m]) (committed s) (flushed s).
Definition sawCommitted (ms : list Message) (s : state) : state :=
  mkState (ctxDone s) (failure s) (fetcher s) (workers s) (handledCh s) (committer s) (pending s)
    (fetched s) (handled s) (committed s ++ ms) (flushed s).
Definition sawFlush (s : state) : state :=
  mkState (ctxDone s) (failure s) (fetcher s) (workers s) (handledCh s) (committer s) (pending s)
    (fetched s) (handled s) (committed s) true.

(** [fail], under its [sync.Once] *)
Definition fail_ (f : failureOf) (s : state) : state :=
  mkState (ctxDone s) (Some (default f (failure s))) (fetcher s) (workers s) (handledCh s) (committer s)
    (pending s) (fetched s) (handled s) (committed s) (flushed s).

Definition isFailed (s : state) : bool := if failure s then true else false.
Definition isShutdown (s : state) : bool := ctxDone s.

Definition set_worker (p : Z) (w : worker) (s : state) : state := set_workers (<[p := w]> (workers s)) s.

(** Channels a goroutine finds closed. *)
Definition backlogsClosed (s : state) : bool :=
  match fetcher s with FFetch | FSend _ => false | _ => true end.
Definition handledClosed (s : state) : bool :=
  match fetcher s with FJoined _ | FReturned _ => true | _ => false end.

Inductive label : Type :=
| LCancel                               (* the caller's context ends *)
| LFetched (m : Message)                (* reader.Fetch returns a message *)
| LFetchErr (e : error)                 (* reader.Fetch fails *)
| LDeliver | LDropFailed | LDropDone    (* the fetcher's select, by its case *)
| LJoin                                 (* wg.Wait returns *)
| LReturn                               (* <-committerDone *)
| LWork (p : Z)                         (* worker p: range, checks, selects *)
| LHandled (p : Z) (r : result unit)    (* worker p: handler.Handle returns *)
| LSlept (p : Z)                        (* worker p: its timer fires *)
| LSleepDone (p : Z)                    (* worker p: ctx ends while it sleeps *)
| LGiveUp (p : Z)                       (* worker p: <-failed in the second select *)
| LCommit                               (* committer: range, select *)
| LCommitted (r : result unit).         (* committer: reader.Commit returns *)

Section step.
Context {J : EnvelopeJSON} (c : Consumer).

(** ** The fetcher *)

(** [backlogs[msg.Partition]], made with its worker when it is not there. *)
Definition backlogOf (p : Z) (s : state) : worker := default (mkWorker [] WRange) (workers s !! p).

Definition stopped (w : worker) : bool := match at_ w with WStopped => true | _ => false end.

(** What [Run] returns: the failure, nothing on shutdown, else the fetch error. *)
Definition outcomeOf (s : state) (fetchErr : error) : option (failureOf + error) :=
  match failure s with
  | Some f => Some (inl f)
  | None => if isShutdown s then None else Some (inr (wrapf "saga: fetch: " fetchErr))
  end.

Definition fetcherStep (s : state) (l : label) : option state :=
  match fetcher s, l with
  | FFetch, LFetched m =>
      Some (set_fetcher (FSend m) (set_worker (Partition m) (backlogOf (Partition m) s) (sawFetched m s)))
  | FFetch, LFetchErr e => Some (set_fetcher (FClosed e) s)
  | FSend m, LDeliver =>
      let w := backlogOf (Partition m) s in
      if (length (backlog w) <? partitionBacklog)%nat then
        Some (set_fetcher FFetch (set_worker (Partition m) (mkWorker (backlog w ++ [m]) (at_ w)) s))
      else None
  | FSend m, LDropFailed => if isFailed s then Some (set_fetcher FFetch s) else None
  | FSend m, LDropDone => if ctxDone s then Some (set_fetcher FFetch s) else None
  | FClosed e, LJoin =>
      if forallb (λ x, stopped (snd x)) (map_to_list (workers s)) then Some (set_fetcher (FJoined e) s) else None
  | FJoined e, LReturn =>
      match committer s with
      | CDone => Some (set_fetcher (FReturned (outcomeOf s e)) s)
      | _ => None
      end
  | _, _ => None
  end.

(** ** A worker *)

(** [process] from its first line: a message that does not parse halts at once. *)
Definition beginProcess (p : Z) (w : worker) (m : Message) (s : state) : state :=
  match ParseTrigger (Key m) (Value m) with
  | Err e => set_worker p (mkWorker (backlog w) WStopped) (fail_ (HaltError m 0 e) s)
  | Ok t => set_worker p (mkWorker (backlog w) (WHandle m t 1 (c_backoff c))) s
  end.

(** What follows an attempt's failure. *)
Definition afterFailure (p : Z) (w : worker) (m : Message) (t : Trigger) (attempt : nat) (backoff : Z)
    (err : error) (s : state) : state :=
  if isShutdown s then set_worker p (mkWorker (backlog w) WStopped) s
  else if (attempt <? c_attempts c)%nat then
    set_worker p (mkWorker (backlog w) (WSleep m t attempt backoff)) s
  else set_worker p (mkWorker (backlog w) WStopped) (fail_ (HaltError m (c_attempts c) err) s).

Definition workStep (p : Z) (w : worker) (s : state) : option state :=
  match at_ w with
  | WRange =>
      match backlog w with
      | m :: rest => Some (set_worker p (mkWorker rest (WGot m)) s)
      | [] => if backlogsClosed s then Some (set_worker p (mkWorker [] WStopped) s) else None
      end
  | WGot m =>
      if isFailed s || isShutdown s then Some (set_worker p (mkWorker (backlog w) WStopped) s)
      else Some (beginProcess p w m s)
  | WHand m =>
      if (length (handledCh s) <? commitBacklog)%nat then
        Some (set_worker p (mkWorker (backlog w) WRange) (set_handledCh (handledCh s ++ [m]) s))
      else Some (set_worker p (mkWorker (backlog w) (WHandBlocked m)) s)
  | WHandBlocked m =>
      if (length (handledCh s) <? commitBacklog)%nat then
        Some (set_worker p (mkWorker (backlog w) WRange) (set_handledCh (handledCh s ++ [m]) s))
      else None
  | _ => None
  end.

Definition workerStep (p : Z) (w : worker) (s : state) (l : label) : option state :=
  match l, at_ w with
  | LWork _, _ => workStep p w s
  | LHandled _ (Ok _), WHandle m _ _ _ =>
      Some (set_worker p (mkWorker (backlog w) (WHand m)) (sawHandled m s))
  | LHandled _ (Err e), WHandle m t attempt backoff => Some (afterFailure p w m t attempt backoff e s)
  | LSlept _, WSleep m t attempt backoff =>
      Some (set_worker p (mkWorker (backlog w) (WHandle m t (S attempt) (i64 (backoff * 2)))) s)
  | LSleepDone _, WSleep _ _ _ _ =>
      if ctxDone s then Some (set_worker p (mkWorker (backlog w) WStopped) s) else None
  | LGiveUp _, WHandBlocked _ =>
      if isFailed s then Some (set_worker p (mkWorker (backlog w) WStopped) s) else None
  | _, _ => None
  end.

(** ** The committer *)

(** [take] *)
Definition takeMark (m : Message) (pd : gmap Z Message) : gmap Z Message :=
  match pd !! Partition m with
  | Some prev => if Offset prev <? Offset m then <[Partition m := m]> pd else pd
  | None => <[Partition m := m]> pd
  end.

(** The batch of a commit, in the order the map is ranged in. *)
Definition marks (pd : gmap Z Message) : list Message := (map_to_list pd).*2.

Definition committerStep (s : state) (l : label) : option state :=
  match committer s, l, handledCh s with
  | (CRange | CDrain), LCommit, m :: rest =>
      Some (set_committer CDrain (set_pending (takeMark m (pending s)) (set_handledCh rest s)))
  | CRange, LCommit, [] => if handledClosed s then Some (set_committer CFlush s) else None
  | CDrain, LCommit, [] => Some (set_committer CCommit s)
  | CCommit, LCommitted (Ok _), _ =>
      Some (set_committer CRange (set_pending ∅ (sawCommitted (marks (pending s)) s)))
  | CCommit, LCommitted (Err e), _ =>
      if isShutdown s then Some (set_committer CFlush s)
      else Some (set_committer CDone
                   (fail_ (CommitFailed (marks (pending s)) (wrapf "saga: commit: " e)) s))
  | CFlush, LCommit, m :: rest =>
      Some (set_pending (takeMark m (pending s)) (set_handledCh rest s))
  | CFlush, LCommit, [] =>
      if handledClosed s then
        if decide (pending s = ∅) then Some (set_committer CDone (sawFlush s))
        else Some (set_committer CFlushCommit s)
      else None
  | CFlushCommit, LCommitted (Ok _), _ =>
      Some (set_committer CDone (sawFlush (set_pending ∅ (sawCommitted (marks (pending s)) s))))
  | CFlushCommit, LCommitted (Err e), _ => Some (set_committer CDone s)
  | _, _, _ => None
  end.

(** ** [Run] *)

Definition cstep (s : state) (l : label) : option state :=
  match l with
  | LCancel => Some (cancel s)
  | LWork p | LHandled p _ | LSlept p | LSleepDone p | LGiveUp p =>
      match workers s !! p with
      | Some w => workerStep p w s l
      | None => None
      end
  | LCommit | LCommitted _ => committerStep s l
  | _ => fetcherStep s l
  end.

Definition step (s s' : state) : Prop := ∃ l, cstep s l = Some s'.
Definition creachable (s : state) : Prop := rtc step start s.

(** A schedule, run. *)
Fixpoint schedule (s : state) (ls : list label) : option state :=
  match ls with
  | [] => Some s
  | l :: ls => match cstep s l with Some s' => schedule s' ls | None => None end
  end.
End step.
