(* ===== verification/ConsumerSafety.v ===== *)
(** * What the consumer promises

    The invariants of [Consumer]'s state machine: each partition is handled in
    the order it was fetched and without gaps, only handled messages are
    committed, a message that halted is never passed over, and once the fetch
    loop has ended [Run] returns. *)

From S2P Require Import Prelude Orchestrator Consumer.

(** The messages of one partition. *)
Definition onPartition (p : Z) (ms : list Message) : list Message := filter (λ m, Partition m = p) ms.

(** What a reader delivers on a partition: offsets that increase. *)
Definition increasing (ms : list Message) : Prop :=
  ∀ p, StronglySorted (λ m m', Offset m < Offset m') (onPartition p ms).

(** A commit covers everything up to it on its partition. *)
Definition covered (m : Message) (marks : list Message) : Prop :=
  ∃ m', m' ∈ marks ∧ Partition m' = Partition m ∧ Offset m ≤ Offset m'.

(** What a worker holds: not yet checked, being handled, handled and not yet
    handed over. *)
Definition unchecked (a : workerAt) : list Message := match a with WGot m => [m] | _ => [] end.
Definition busy (a : workerAt) : list Message :=
  match a with WHandle m _ _ _ | WSleep m _ _ _ => [m] | _ => [] end.
Definition owed (a : workerAt) : list Message :=
  match a with WHand m | WHandBlocked m => [m] | _ => [] end.
Definition sending (f : fetcherAt) : list Message := match f with FSend m => [m] | _ => [] end.
Definition stopping (s : state) : bool := isFailed s || isShutdown s.

(** A step is one of these. *)
Ltac step_cases H :=
  unfold cstep, fetcherStep, workerStep, workStep, committerStep, beginProcess, afterFailure in H;
  repeat case_match; simplify_eq/=.

Section consumer.
Context {J : EnvelopeJSON} (c : Consumer).

Lemma backlogOf_set p p' w s :
  backlogOf p' (set_worker p w s) = if decide (p = p') then w else backlogOf p' s.
Proof. unfold backlogOf, set_worker; simpl. case_decide; subst; by simplify_map_eq. Qed.

Lemma backlogOf_fetcher p f s : backlogOf p (set_fetcher f s) = backlogOf p s.
Proof. done. Qed.

Lemma backlogOf_lookup p w s : workers s !! p = Some w → backlogOf p s = w.
Proof. unfold backlogOf. by intros ->. Qed.

Lemma onPartition_app p l l' : onPartition p (l ++ l') = onPartition p l ++ onPartition p l'.
Proof. apply filter_app. Qed.

Lemma onPartition_one p m : onPartition p [m] = if decide (Partition m = p) then [m] else [].
Proof. unfold onPartition. rewrite filter_cons. by case_decide. Qed.

(** One partition: what was fetched is what was handled, what its worker holds and
    what waits, while nothing stops; what is handled comes first in any case. *)
Record queue (p : Z) (stop : bool) (F H : list Message) (w : worker) (snd : list Message) : Prop := {
  q_all : stop = false → F = H ++ unchecked (at_ w) ++ busy (at_ w) ++ backlog w ++ snd;
  q_order : H ++ busy (at_ w) `prefix_of` F;
  q_part : Forall (λ m, Partition m = p) (unchecked (at_ w) ++ busy (at_ w) ++ owed (at_ w) ++ backlog w)
}.

Definition queues (s : state) : Prop :=
  ∀ p, queue p (stopping s) (onPartition p (fetched s)) (onPartition p (handled s)) (backlogOf p s)
         (onPartition p (sending (fetcher s))).

Lemma queue_stop p st st' F H w sd : (st' = false → st = false) → queue p st F H w sd → queue p st' F H w sd.
Proof. intros Hst [? ? ?]. split; auto. Qed.

Lemma queue_take p st F H m rest sd : queue p st F H (mkWorker (m :: rest) WRange) sd → queue p st F H (mkWorker rest (WGot m)) sd.
Proof. intros [? ? ?]. by split. Qed.

Lemma queue_check p st F H w m t n b sd :
  st = false → queue p st F H (mkWorker w (WGot m)) sd → queue p st F H (mkWorker w (WHandle m t n b)) sd.
Proof. intros -> [Ha _ ?]. split; try done. rewrite (Ha eq_refl). simpl. exists (w ++ sd). by rewrite <- app_assoc. Qed.

Lemma queue_halt p st F H w sd : queue p st F H w sd → queue p true F H (mkWorker (backlog w) WStopped) sd.
Proof.
  intros [_ Ho Hp]. split; simpl; [done| |].
  - rewrite app_nil_r. etrans; [by eexists | exact Ho].
  - rewrite !Forall_app in Hp. naive_solver.
Qed.

Lemma queue_handled p st F H w m t n b sd :
  queue p st F H (mkWorker w (WHandle m t n b)) sd → queue p st F (H ++ [m]) (mkWorker w (WHand m)) sd.
Proof.
  intros [Ha Ho Hp]. split; simpl in *; [|by rewrite app_nil_r|done].
  intros Hst. rewrite (Ha Hst). by rewrite <- app_assoc.
Qed.

Lemma queue_handed p st F H w m sd :
  queue p st F H (mkWorker w (WHand m)) sd → queue p st F H (mkWorker w WRange) sd.
Proof. intros [Ha Ho Hp]. split; try done. simpl in *. by apply Forall_cons in Hp as [_ ?]. Qed.

Lemma queue_sent p st F H w a sd :
  Forall (λ m, Partition m = p) sd → queue p st F H (mkWorker w a) sd → queue p st F H (mkWorker (w ++ sd) a) [].
Proof.
  intros Hsd [Ha Ho Hp]. split; [|done|].
  - intros Hst. rewrite (Ha Hst). simpl. by rewrite app_nil_r.
  - cbn [at_ backlog] in *. rewrite !Forall_app in Hp. rewrite !Forall_app. destruct Hp as (? & ? & ? & ?). by split_and!.
Qed.

Lemma queue_dropped p F H w sd : queue p true F H w sd → queue p true F H w [].
Proof. intros [_ ? ?]. by split. Qed.

Lemma queue_fetched p st F H w sd : queue p st F H w [] → queue p st (F ++ sd) H w sd.
Proof.
  intros [Ha Ho Hp]. split; [|by etrans; [exact Ho | eexists]|done].
  intros Hst. rewrite (Ha Hst). rewrite app_nil_r. by rewrite <- !app_assoc.
Qed.

Lemma stopping_failed s : isFailed s = true → stopping s = true.
Proof. unfold stopping. by intros ->. Qed.

(** A step of worker [p] is a matter of its own partition. *)
Lemma queues_worker p w w' s s' :
  workers s !! p = Some w → backlogOf p s' = w' → (∀ p', p ≠ p' → backlogOf p' s' = backlogOf p' s) →
  fetcher s' = fetcher s → fetched s' = fetched s → (stopping s' = false → stopping s = false) →
  (∀ p', p ≠ p' → onPartition p' (handled s') = onPartition p' (handled s)) →
  (∀ sd, queue p (stopping s) (onPartition p (fetched s)) (onPartition p (handled s)) w sd →
         queue p (stopping s') (onPartition p (fetched s)) (onPartition p (handled s')) w' sd) →
  queues s → queues s'.
Proof.
  intros Hw Hw' Hother Hf Hfd Hst Hh Hstep Hq p'. rewrite Hf, Hfd. destruct (decide (p = p')) as [<-|Hne].
  - rewrite Hw'. apply Hstep. rewrite <- (backlogOf_lookup _ _ _ Hw). apply Hq.
  - rewrite Hother, Hh by done. eapply queue_stop; [exact Hst | apply Hq].
Qed.

Ltac on_worker p :=
  eapply (queues_worker p);
    [ eassumption | by rewrite backlogOf_set, decide_True
    | by intros ? ?; rewrite backlogOf_set, decide_False | done | done | | | | eassumption ]; simpl.

(** Whoever stops early saw one of the two signals. *)
Ltac stops :=
  match goal with
  | |- ∀ sd, queue ?p (stopping ?s) ?F ?H ?w sd → queue _ (stopping ?s') _ _ (mkWorker _ WStopped) sd =>
      let Hst := fresh in
      assert (Hst : stopping s' = true)
        by (unfold stopping, isShutdown, isFailed in *; simpl in *;
            repeat match goal with H : _ = _ |- _ => rewrite H end; by rewrite ?orb_true_r);
      intros sd Hsd; rewrite Hst; by eapply queue_halt in Hsd
  end.

Lemma queues_held p w s : queues s → workers s !! p = Some w →
  Forall (λ m, Partition m = p) (unchecked (at_ w) ++ busy (at_ w) ++ owed (at_ w) ++ backlog w).
Proof. intros Hq Hw. rewrite <- (backlogOf_lookup _ _ _ Hw). apply Hq. Qed.

Lemma queues_workerStep p w s l s' :
  workers s !! p = Some w → queues s → workerStep c p w s l = Some s' → queues s'.
Proof.
  intros Hw Hq H. pose proof (queues_held p w s Hq Hw) as Hheld. destruct w as [b a].
  step_cases H; on_worker p; try done.
  all: try by intros ? [? ? ?]; split.
  all: try stops.
  - intros sd. by apply queue_check.
  - intros sd. apply queue_handed.
  - intros sd [? ? Hp]. split; try done. by apply Forall_cons in Hp as [_ ?].
  - apply Forall_cons in Hheld as [Hm _]. intros p' Hne.
    by rewrite onPartition_app, onPartition_one, decide_False, app_nil_r by congruence.
  - apply Forall_cons in Hheld as [Hm _]. intros sd Hsd. rewrite onPartition_app, onPartition_one, decide_True by done.
    by eapply queue_handled.
Qed.

Lemma queues_same s s' :
  stopping s' = stopping s ∨ stopping s' = true → fetched s' = fetched s → handled s' = handled s →
  workers s' = workers s → sending (fetcher s') = sending (fetcher s) → queues s → queues s'.
Proof.
  intros Hst Hf Hh Hw Hs Hq p. unfold backlogOf. rewrite Hf, Hh, Hw, Hs.
  eapply queue_stop; [|apply Hq]. destruct Hst as [->| ->]; done.
Qed.

Lemma queues_deliver m s b a :
  fetcher s = FSend m → backlogOf (Partition m) s = mkWorker b a → queues s →
  queues (set_fetcher FFetch (set_worker (Partition m) (mkWorker (b ++ [m]) a) s)).
Proof.
  intros Hf Hw Hq p. pose proof (Hq p) as Hp. rewrite backlogOf_fetcher, backlogOf_set. rewrite Hf in Hp.
  simpl in *. rewrite onPartition_one in Hp. case_decide; [|done]. subst p. rewrite Hw in Hp.
  apply queue_sent; [by apply Forall_singleton | done].
Qed.

Lemma queues_drop s : stopping s = true → queues s → queues (set_fetcher FFetch s).
Proof.
  intros Hst Hq p. pose proof (Hq p) as Hp. change (stopping (set_fetcher FFetch s)) with (stopping s).
  rewrite Hst in *. by eapply queue_dropped.
Qed.

Lemma queues_fetch m s :
  fetcher s = FFetch → queues s →
  queues (set_fetcher (FSend m) (set_worker (Partition m) (backlogOf (Partition m) s) (sawFetched m s))).
Proof.
  intros Hf Hq p. pose proof (Hq p) as Hp. rewrite Hf in Hp. rewrite backlogOf_fetcher, backlogOf_set.
  replace (if decide _ then _ else _) with (backlogOf p s) by (case_decide; subst; done).
  simpl. rewrite onPartition_app. by apply queue_fetched.
Qed.

Lemma queues_fetcherStep s l s' : queues s → fetcherStep s l = Some s' → queues s'.
Proof.
  intros Hq H. step_cases H;
    try (eapply (queues_same s); [by left|done..|simpl; by match goal with H : fetcher s = _ |- _ => rewrite H end|done]).
  - by apply queues_fetch.
  - apply queues_deliver; try done. by destruct (backlogOf _ _).
  - apply queues_drop; [by apply stopping_failed | done].
  - apply queues_drop; [|done]. unfold stopping. rewrite orb_true_iff. by right.
Qed.

Lemma queues_step s l s' : queues s → cstep c s l = Some s' → queues s'.
Proof.
  intros Hq H. unfold cstep in H. destruct l; try (by eapply queues_fetcherStep);
    try (destruct (workers s !! p) eqn:Hw; [by eapply queues_workerStep | done]).
  - simplify_eq. eapply (queues_same s); [|done..]. right. unfold stopping. simpl. by rewrite orb_true_r.
  - step_cases H; (eapply (queues_same s); [by left | done..]).
  - step_cases H; (eapply (queues_same s); [by (left + (right; unfold stopping; simpl)) | done..]).
Qed.

(** ** What is committed was handled *)

Lemma elem_of_marks m pd : m ∈ marks pd ↔ ∃ p, pd !! p = Some m.
Proof.
  unfold marks. rewrite list_elem_of_fmap. split.
  - intros ([p m'] & -> & Hin). exists p. by apply elem_of_map_to_list in Hin.
  - intros [p Hp]. exists (p, m). split; [done|]. by apply elem_of_map_to_list.
Qed.

Lemma takeMark_lookup m pd p m' : takeMark m pd !! p = Some m' → (m' = m ∧ p = Partition m) ∨ pd !! p = Some m'.
Proof.
  unfold takeMark. repeat case_match; try rewrite lookup_insert_Some; naive_solver.
Qed.

Lemma takeMark_covers m pd m' :
  (∀ p m, pd !! p = Some m → Partition m = p) → m' = m ∨ covered m' (marks pd) → covered m' (marks (takeMark m pd)).
Proof.
  intros Hkeys Hm'. unfold covered, takeMark in *. setoid_rewrite elem_of_marks in Hm'. setoid_rewrite elem_of_marks.
  destruct Hm' as [->|(x & (p & Hp) & Hpart & Hoff)].
  - destruct (pd !! Partition m) as [prev|] eqn:Hprev; [destruct (Z.ltb_spec (Offset prev) (Offset m))|].
    + exists m. split; [|done]. exists (Partition m). by simplify_map_eq.
    + exists prev. split; [by eexists|]. split; [by apply Hkeys | lia].
    + exists m. split; [|done]. exists (Partition m). by simplify_map_eq.
  - assert (p = Partition m') as -> by (rewrite <- Hpart; symmetry; by apply Hkeys).
    destruct (decide (Partition m = Partition m')) as [Heq|Hne].
    + rewrite Heq, Hp. destruct (Z.ltb_spec (Offset x) (Offset m)).
      * exists m. split; [exists (Partition m'); by simplify_map_eq|]. split; [done | lia].
      * exists x. eauto.
    + exists x. split; [|done]. exists (Partition m'). repeat case_match; by rewrite ?lookup_insert_ne.
Qed.

(** Whose side effects have happened and whose offset is not committed yet. *)
Definition waiting (m : Message) (s : state) : Prop :=
  (∃ p, m ∈ owed (at_ (backlogOf p s))) ∨ m ∈ handledCh s.

Record ledgerInv (s : state) : Prop := {
  l_waiting : ∀ m, waiting m s → m ∈ handled s;
  l_pending : ∀ p m, pending s !! p = Some m → Partition m = p ∧ m ∈ handled s;
  l_committed : ∀ m, m ∈ committed s → m ∈ handled s;
  l_kept : failure s = None → ∀ m, m ∈ handled s →
    waiting m s ∨ covered m (marks (pending s)) ∨ covered m (committed s)
}.

Lemma ledgerInv_same s s' :
  (∀ p, owed (at_ (backlogOf p s')) = owed (at_ (backlogOf p s))) → handledCh s' = handledCh s →
  pending s' = pending s → handled s' = handled s → committed s' = committed s →
  (failure s' = None → failure s = None) → ledgerInv s → ledgerInv s'.
Proof.
  intros Ho Hch Hp Hh Hc Hf [? ? ? Hk].
  assert (Hw : ∀ m, waiting m s' ↔ waiting m s) by (intros m; unfold waiting; rewrite Hch; by setoid_rewrite Ho).
  split; rewrite ?Hp, ?Hh, ?Hc; try setoid_rewrite Hw; auto.
Qed.

(** The owed of a state in which one worker moved. *)
Lemma owed_set p w s s' x :
  s' = set_worker p w s →
  (∃ p', x ∈ owed (at_ (backlogOf p' s'))) ↔
  x ∈ owed (at_ w) ∨ (∃ p', p ≠ p' ∧ x ∈ owed (at_ (backlogOf p' s))).
Proof.
  intros ->. setoid_rewrite backlogOf_set. split.
  - intros [p' Hx]. destruct (decide (p = p')) as [<-|Hne]; [by left | right; eauto].
  - intros [Hx|(p' & Hne & Hx)]; [exists p; by rewrite decide_True | exists p'; by rewrite decide_False].
Qed.

Lemma owed_split p s x :
  (∃ p', x ∈ owed (at_ (backlogOf p' s))) ↔
  x ∈ owed (at_ (backlogOf p s)) ∨ (∃ p', p ≠ p' ∧ x ∈ owed (at_ (backlogOf p' s))).
Proof.
  split; [|naive_solver]. intros [p' Hx]. destruct (decide (p = p')) as [<-|Hne]; [by left | right; eauto].
Qed.

Lemma ledgerInv_handled p b m t n d s :
  backlogOf p s = mkWorker b (WHandle m t n d) → ledgerInv s →
  ledgerInv (set_worker p (mkWorker b (WHand m)) (sawHandled m s)).
Proof.
  intros Hw [Hwt Hp Hc Hk].
  assert (Hiff : ∀ x, waiting x (set_worker p (mkWorker b (WHand m)) (sawHandled m s)) ↔ x = m ∨ waiting x s).
  { intros x. unfold waiting. rewrite (owed_set _ _ _ _ _ eq_refl), (owed_split p s x), Hw. simpl.
    rewrite list_elem_of_singleton. pose proof (not_elem_of_nil x). change (backlogOf ?p (sawHandled m s)) with (backlogOf p s).
    tauto. }
  split; simpl; setoid_rewrite elem_of_app; setoid_rewrite list_elem_of_singleton.
  - intros x [->|?]%Hiff; auto.
  - intros p' x Hx. destruct (Hp _ _ Hx). auto.
  - auto.
  - intros Hf x [Hx| ->]; rewrite Hiff; [|by auto]. destruct (Hk Hf x Hx) as [?|?]; auto.
Qed.

Lemma ledgerInv_handed p b m a s :
  backlogOf p s = mkWorker b a → owed a = [m] → ledgerInv s →
  ledgerInv (set_worker p (mkWorker b WRange) (set_handledCh (handledCh s ++ [m]) s)).
Proof.
  intros Hw Ho [Hwt Hp Hc Hk].
  assert (Hiff : ∀ x, waiting x (set_worker p (mkWorker b WRange) (set_handledCh (handledCh s ++ [m]) s)) ↔ waiting x s).
  { intros x. unfold waiting. rewrite (owed_set _ _ _ _ _ eq_refl), (owed_split p s x), Hw. simpl.
    rewrite elem_of_app, list_elem_of_singleton, Ho, list_elem_of_singleton. pose proof (not_elem_of_nil x).
    change (backlogOf ?p (set_handledCh _ s)) with (backlogOf p s). tauto. }
  split; simpl; try setoid_rewrite Hiff; auto.
Qed.

Lemma ledgerInv_gaveUp p b m s :
  backlogOf p s = mkWorker b (WHandBlocked m) → isFailed s = true → ledgerInv s →
  ledgerInv (set_worker p (mkWorker b WStopped) s).
Proof.
  intros Hw Hf [Hwt Hp Hc _]. unfold isFailed in Hf. split; try done.
  - intros x Hx. apply Hwt. revert Hx. unfold waiting. rewrite (owed_set _ _ _ _ _ eq_refl), (owed_split p s x).
    pose proof (not_elem_of_nil x). simpl. tauto.
  - simpl. intros Hn. by rewrite Hn in Hf.
Qed.

Lemma ledgerInv_workerStep p w s l s' :
  workers s !! p = Some w → ledgerInv s → workerStep c p w s l = Some s' → ledgerInv s'.
Proof.
  intros Hw%backlogOf_lookup Hi H. destruct w as [b a]. step_cases H;
    first [ by eapply ledgerInv_handled | by eapply ledgerInv_handed | by eapply ledgerInv_gaveUp
          | eapply (ledgerInv_same s); [|done..|exact Hi]; intros p'; rewrite backlogOf_set;
            case_decide as Hp; [by rewrite <- Hp, Hw | done] ].
Qed.

Lemma ledgerInv_fetcherStep s l s' : ledgerInv s → fetcherStep s l = Some s' → ledgerInv s'.
Proof.
  intros Hi H. step_cases H; (eapply (ledgerInv_same s); [|done..|exact Hi]); intros p'; try done;
    rewrite backlogOf_fetcher, backlogOf_set; by case_decide as Hp; [rewrite <- Hp|].
Qed.

Lemma ledgerInv_take m rest s :
  handledCh s = m :: rest → ledgerInv s → ledgerInv (set_pending (takeMark m (pending s)) (set_handledCh rest s)).
Proof.
  intros Hch [Hwt Hp Hc Hk]. assert (Hiff : ∀ x, waiting x s ↔ x = m ∨ waiting x (set_handledCh rest s)).
  { intros x. unfold waiting. rewrite Hch. simpl. rewrite elem_of_cons.
    change (backlogOf ?p (set_handledCh _ s)) with (backlogOf p s). tauto. }
  split; simpl.
  - intros x Hx. apply Hwt, Hiff. by right.
  - intros p x [[-> ->]|Hx]%takeMark_lookup; [|by apply Hp]. split; [done|]. apply Hwt, Hiff. by left.
  - done.
  - intros Hf x Hx. destruct (Hk Hf x Hx) as [[->|?]%Hiff|[?|?]]; [|by left| |by auto]; right; left;
      (apply takeMark_covers; [intros; by apply Hp | by auto]).
Qed.

Lemma ledgerInv_commit s :
  ledgerInv s → ledgerInv (set_pending ∅ (sawCommitted (marks (pending s)) s)).
Proof.
  intros [Hwt Hp Hc Hk]. split; simpl.
  - done.
  - intros p m. by rewrite lookup_empty.
  - intros m [?|(p & Hm)%elem_of_marks]%elem_of_app; [auto | by eapply Hp].
  - intros Hf m Hm. destruct (Hk Hf m Hm) as [?|[(x & ? & ?)|(x & ? & ?)]]; [by left| |]; right; right; exists x;
      rewrite elem_of_app; auto.
Qed.

Lemma ledgerInv_step s l s' : ledgerInv s → cstep c s l = Some s' → ledgerInv s'.
Proof.
  intros Hi H. unfold cstep in H. destruct l; try (by eapply ledgerInv_fetcherStep);
    try (destruct (workers s !! p) eqn:Hw; [by eapply ledgerInv_workerStep | done]);
    step_cases H; try (eapply (ledgerInv_same s); [done..|exact Hi]);
    first [ by apply ledgerInv_take
          | by eapply ledgerInv_same, ledgerInv_take
          | by eapply ledgerInv_same, ledgerInv_commit ].
Qed.

(** ** A message that halted stays next *)

Definition halted (s : state) : Prop :=
  ∀ m n e, failure s = Some (HaltError m n e) →
    onPartition (Partition m) (handled s) ++ [m] `prefix_of` onPartition (Partition m) (fetched s) ∧
    at_ (backlogOf (Partition m) s) = WStopped.

(** The message a worker stops at is the next of its partition. *)
Lemma halting p b m a s n e :
  backlogOf p s = mkWorker b a → (a = WGot m ∧ stopping s = false) ∨ busy a = [m] → queues s → halted s →
  halted (set_worker p (mkWorker b WStopped) (fail_ (HaltError m n e) s)).
Proof.
  intros Hw Ha Hq Hh m' n' e'. simpl. destruct (failure s) as [f|] eqn:Hf; intros [= ->].
  - destruct (Hh _ _ _ Hf) as [Hpre Hat]. split; [exact Hpre|]. rewrite backlogOf_set. by case_decide.
  - destruct (Hq p) as [Hall Hord Hpart]. rewrite Hw in *. simpl in *.
    assert (Partition m' = p) as ->.
    { rewrite !Forall_app in Hpart. destruct Hpart as (Hu & Hb & _). destruct Ha as [[-> _]|Hb'];
        [by apply Forall_cons in Hu as [? _] | rewrite Hb' in Hb; by apply Forall_cons in Hb as [? _]]. }
    split; [|by rewrite backlogOf_set, decide_True]. destruct Ha as [[-> Hst]|Hb]; [|by rewrite <- Hb].
    rewrite (Hall Hst). simpl. exists (b ++ onPartition p (sending (fetcher s))). by rewrite <- app_assoc.
Qed.

Lemma halted_same s s' :
  failure s' = failure s → handled s' = handled s → fetched s `prefix_of` fetched s' →
  (∀ p, at_ (backlogOf p s) = WStopped → at_ (backlogOf p s') = WStopped) → halted s → halted s'.
Proof.
  intros Hf Hh [more Hm] Hw Hi m n e He. rewrite Hf in He. destruct (Hi _ _ _ He) as [Hpre Hat]. rewrite Hh, Hm.
  split; [|by apply Hw]. rewrite onPartition_app. etrans; [exact Hpre | by eexists].
Qed.

Lemma halted_handled p b m t n d s :
  backlogOf p s = mkWorker b (WHandle m t n d) → Partition m = p → halted s →
  halted (set_worker p (mkWorker b (WHand m)) (sawHandled m s)).
Proof.
  intros Hw Hp Hi m' n' e' He. destruct (Hi _ _ _ He) as [Hpre Hat]. simpl in He |- *.
  assert (p ≠ Partition m') as Hne by (intros ->; by rewrite Hw in Hat).
  rewrite backlogOf_set, decide_False by done. split; [|exact Hat].
  by rewrite onPartition_app, onPartition_one, decide_False, app_nil_r by congruence.
Qed.

Lemma halted_workerStep p w s l s' :
  workers s !! p = Some w → queues s → halted s → workerStep c p w s l = Some s' → halted s'.
Proof.
  intros Hw Hq Hi H. pose proof (queues_held p w s Hq Hw) as Hheld. apply backlogOf_lookup in Hw. destruct w as [b a].
  step_cases H;
    try (eapply (halted_same s); [done..| |exact Hi]; intros p'; rewrite backlogOf_set; case_decide as Hp;
         [by rewrite <- Hp, Hw | done]).
  - eapply halting; [done|by left|done..].
  - apply Forall_cons in Hheld as [Hm _]. by eapply halted_handled.
  - eapply halting; [done|by right|done..].
Qed.

Lemma halted_step s l s' : queues s → halted s → cstep c s l = Some s' → halted s'.
Proof.
  intros Hq Hi H. unfold cstep in H. destruct l;
    try (destruct (workers s !! p) eqn:Hw; [by eapply halted_workerStep | done]);
    step_cases H; try (eapply (halted_same s); [done|done|by simpl; eauto using prefix_app_r| |exact Hi]; intros p'; try done;
         rewrite backlogOf_fetcher, backlogOf_set; by case_decide as Hp; [rewrite <- Hp|]).
  intros m n e' He. simpl in He. destruct (failure s) as [f|] eqn:Hf; simplify_eq/=. by apply (Hi m n e').
Qed.

(** ** The way out *)

(** Once [handled] is closed no worker is left; the committer stops before that
    only by failing; a flush leaves nothing. *)
Record closing (s : state) : Prop := {
  cl_joined : handledClosed s = true → ∀ p w, workers s !! p = Some w → stopped w = true;
  cl_flush : committer s = CFlushCommit → handledClosed s = true ∧ handledCh s = [];
  cl_done : committer s = CDone → isFailed s = true ∨ handledClosed s = true;
  cl_flushed : flushed s = true →
    handledClosed s = true ∧ committer s = CDone ∧ handledCh s = [] ∧ pending s = ∅;
  cl_sleep : ∀ p m t n d, at_ (backlogOf p s) = WSleep m t n d → (n < c_attempts c)%nat
}.

Lemma closing_worker p w w' s s' :
  workers s !! p = Some w → stopped w = false → workers s' = <[p := w']> (workers s) → fetcher s' = fetcher s →
  committer s' = committer s → flushed s' = flushed s → (isFailed s = true → isFailed s' = true) →
  (∀ m t n d, at_ w' = WSleep m t n d → (n < c_attempts c)%nat) → closing s → closing s'.
Proof.
  intros Hw Hns Hws Hf Hc Hfl Hfail Hsl [Hj Hcf Hd Hfd Hs].
  assert (handledClosed s' = handledClosed s) as Hcl by (unfold handledClosed; by rewrite Hf).
  assert (handledClosed s = false) as Hopen.
  { destruct (handledClosed s); [|done]. specialize (Hj eq_refl _ _ Hw). congruence. }
  split; rewrite ?Hcl, ?Hc, ?Hfl.
  - congruence.
  - intros H'. destruct (Hcf H') as [? _]. congruence.
  - intros Hdone. destruct (Hd Hdone); [left; auto | by right].
  - intros H'. destruct (Hfd H') as [? _]. congruence.
  - intros p' m t n d. unfold backlogOf. rewrite Hws. destruct (decide (p = p')) as [<-|Hne]; simplify_map_eq; [by apply Hsl|].
    by apply Hs.
Qed.

Lemma closing_workerStep p w s l s' :
  workers s !! p = Some w → closing s → workerStep c p w s l = Some s' → closing s'.
Proof.
  intros Hw Hi H. destruct w as [b a]. step_cases H;
    (eapply (closing_worker p); [exact Hw|done..| |exact Hi]); intros; simplify_eq/=; by apply Nat.ltb_lt.
Qed.

Lemma closing_same s s' :
  workers s' = workers s → handledClosed s' = handledClosed s →
  (committer s' = CFlushCommit → handledClosed s = true ∧ handledCh s' = []) →
  (committer s' = CDone → isFailed s' = true ∨ handledClosed s = true) →
  (flushed s' = true → handledClosed s = true ∧ committer s' = CDone ∧ handledCh s' = [] ∧ pending s' = ∅) →
  closing s → closing s'.
Proof.
  intros Hw Hcl ? ? ? [? ? ? ? ?]. split; unfold backlogOf; by rewrite ?Hcl, ?Hw.
Qed.

Lemma closing_committerStep s l s' : closing s → committerStep s l = Some s' → closing s'.
Proof.
  intros Hi H. assert (committer s ≠ CDone → flushed s = false) as Hnf.
  { intros Hc. destruct (flushed s) eqn:Hfl; [|done]. by apply (cl_flushed _ Hi) in Hfl as (_ & ? & _). }
  step_cases H; (eapply (closing_same s); [done|done| | | |exact Hi]); simpl; try done; auto; try congruence;
    try (by intros Hfl; rewrite Hnf in Hfl by congruence);
    match goal with H : committer s = CFlushCommit |- _ => destruct (cl_flush _ Hi H) end; auto.
Qed.

Lemma closing_fetch s s' :
  (∀ p, at_ (backlogOf p s') = at_ (backlogOf p s)) → handledClosed s = false →
  (handledClosed s' = true → ∀ p w, workers s' !! p = Some w → stopped w = true) →
  committer s' = committer s → failure s' = failure s → flushed s' = flushed s → closing s → closing s'.
Proof.
  intros Hat Hopen Hj Hc Hf Hfl [_ Hcf Hd Hfd Hs]. unfold isFailed in *. split; rewrite ?Hc, ?Hfl; unfold isFailed; rewrite ?Hf.
  - done.
  - intros [? _]%Hcf. congruence.
  - intros [?|?]%Hd; [by left | congruence].
  - intros [? _]%Hfd. congruence.
  - intros p. rewrite Hat. apply Hs.
Qed.

Lemma closing_fetcherStep s l s' : closing s → fetcherStep s l = Some s' → closing s'.
Proof.
  intros Hi H. step_cases H;
    try (eapply (closing_fetch s); [| |done..|exact Hi];
      [ intros p; rewrite ?backlogOf_fetcher, ?backlogOf_set; by repeat case_decide; subst
      | unfold handledClosed; by match goal with H : fetcher s = _ |- _ => rewrite H end ]).
  - eapply (closing_fetch s); [done| | |done..|exact Hi].
    + unfold handledClosed. by match goal with H : fetcher s = _ |- _ => rewrite H end.
    + intros _ p w Hw. match goal with H : forallb _ _ = true |- _ => rewrite forallb_forall in H; apply (H (p, w)) end.
      by apply list_elem_of_In, elem_of_map_to_list.
  - assert (handledClosed s = true) as Hcl.
    { unfold handledClosed. by match goal with H : fetcher s = _ |- _ => rewrite H end. }
    eapply (closing_same s); [done|by rewrite Hcl|apply Hi..|exact Hi].
Qed.

Lemma closing_step s l s' : closing s → cstep c s l = Some s' → closing s'.
Proof.
  intros Hi H. unfold cstep in H. destruct l; try (by eapply closing_fetcherStep);
    try (destruct (workers s !! p) eqn:Hw; [by eapply closing_workerStep | done]);
    try (by eapply closing_committerStep).
  simplify_eq. eapply (closing_same s); [done|done|apply Hi..|exact Hi].
Qed.

(** All of it, of every state [Run] can be in. *)
Definition consumerInv (s : state) : Prop := queues s ∧ ledgerInv s ∧ halted s ∧ closing s.

Lemma start_inv : consumerInv start.
Proof.
  split_and!.
  - intros p. split; [done|done|constructor].
  - split; simpl.
    + intros m [[p Hp]|Hm]; by apply not_elem_of_nil in Hp || by apply not_elem_of_nil in Hm.
    + done.
    + done.
    + intros _ m Hm. by apply not_elem_of_nil in Hm.
  - by intros m n e.
  - by split.
Qed.

Lemma consumerInv_step s l s' : consumerInv s → cstep c s l = Some s' → consumerInv s'.
Proof.
  intros (Hq & Hl & Hh & Hc) H.
  split_and!; [by eapply queues_step|by eapply ledgerInv_step|by eapply halted_step|by eapply closing_step].
Qed.

Lemma creachable_inv s : creachable c s → consumerInv s.
Proof.
  unfold creachable. pose proof start_inv as H0. revert H0. generalize start as s0.
  intros s0 H0 Hr. induction Hr as [|x y z [l Hl] _ IH]; [done|]. apply IH. by eapply consumerInv_step.
Qed.

Lemma schedule_reachable ls s s' : creachable c s → schedule c s ls = Some s' → creachable c s'.
Proof.
  revert s. induction ls as [|l ls IH]; intros s Hr H; simpl in H; [by simplify_eq|].
  destruct (cstep c s l) eqn:Hs; [|done]. eapply IH; [|exact H]. eapply rtc_r; [exact Hr|by exists l].
Qed.

(** Increasing offsets tell a partition's messages apart and order them. *)
Lemma increasing_before ms p pre m m' :
  increasing ms → pre ++ [m] `prefix_of` onPartition p ms → m' ∈ pre → Offset m' < Offset m.
Proof.
  intros Hinc [post Hpre] Hm'. specialize (Hinc p). rewrite Hpre in Hinc. apply StronglySorted_app_1_l in Hinc.
  apply (StronglySorted_app_1_elem_of _ _ _ _ _ Hinc Hm'). by left.
Qed.

Lemma increasing_within ms p pre m m' :
  increasing ms → pre `prefix_of` onPartition p ms → m ∈ pre → m' ∈ onPartition p ms → Offset m' ≤ Offset m → m' ∈ pre.
Proof.
  intros Hinc [post Hpre] Hm Hm' Hle. specialize (Hinc p). rewrite Hpre in Hinc, Hm'.
  apply elem_of_app in Hm' as [?|Hpost]; [done|]. pose proof (StronglySorted_app_1_elem_of _ _ _ _ _ Hinc Hm Hpost). simpl in *. lia.
Qed.

Lemma elem_of_onPartition p m ms : m ∈ onPartition p ms ↔ Partition m = p ∧ m ∈ ms.
Proof. unfold onPartition. apply (list_elem_of_filter (λ m, Partition m = p)). Qed.
End consumer.

(** ** The theorems *)

Section theorems.
Context {J : EnvelopeJSON} (c : Consumer).

(** C21. Delivery is at least once and in order, however the fetcher, the workers
    and the committer interleave and whatever fails: each partition's messages are
    handled in the order they were fetched, none skipped, and whenever an offset
    has been committed every message fetched on its partition up to it has been
    handled. *)
Theorem commit_never_passes_unhandled s :
  creachable c s → increasing (fetched s) →
  (∀ p, onPartition p (handled s) `prefix_of` onPartition p (fetched s)) ∧
  ∀ m m', m ∈ committed s → m' ∈ fetched s → Partition m' = Partition m → Offset m' ≤ Offset m → m' ∈ handled s.
Proof.
  intros (Hq & Hl & _ & _)%creachable_inv Hinc.
  assert (Hpre : ∀ p, onPartition p (handled s) `prefix_of` onPartition p (fetched s)).
  { intros p. etrans; [|apply (q_order _ _ _ _ _ _ (Hq p))]. by eexists. }
  split; [done|]. intros m m' Hm Hm' Hp Hle. apply (l_committed _ Hl) in Hm.
  eapply (elem_of_onPartition (Partition m)), increasing_within; [done|apply Hpre| | |done]; by apply elem_of_onPartition.
Qed.

(** A message the consumer halted on has not been handled, and no commit ever
    reaches it: the next start is delivered it again. *)
Theorem halt_is_redelivered s m n e :
  creachable c s → increasing (fetched s) → failure s = Some (HaltError m n e) →
  m ∈ fetched s ∧ m ∉ handled s ∧
  ∀ m', m' ∈ committed s → Partition m' = Partition m → Offset m' < Offset m.
Proof.
  intros (_ & Hl & Hh & _)%creachable_inv Hinc Hf. destruct (Hh _ _ _ Hf) as [Hpre _].
  assert (Hlt : ∀ m', m' ∈ handled s → Partition m' = Partition m → Offset m' < Offset m).
  { intros m' Hm' Hp. eapply increasing_before; [done|exact Hpre|]. by apply elem_of_onPartition. }
  split_and!.
  - eapply (elem_of_onPartition (Partition m)). destruct Hpre as [post ->]. rewrite !elem_of_app, list_elem_of_singleton. auto.
  - intros Hm. specialize (Hlt m Hm eq_refl). lia.
  - intros m' Hm'. apply Hlt, (l_committed _ Hl), Hm'.
Qed.

(** C22. When [Run] has returned after a shutdown and its last commit went through,
    nothing that was handled is left uncommitted: on every partition some commit
    covers it. *)
Theorem shutdown_commits_everything_handled s r :
  creachable c s → fetcher s = FReturned r → failure s = None → flushed s = true →
  ∀ m, m ∈ handled s → covered m (committed s).
Proof.
  intros (_ & Hl & _ & Hc)%creachable_inv Hr Hf Hfl m Hm.
  destruct (cl_flushed _ _ Hc Hfl) as (Hcl & _ & Hch & Hpd).
  destruct (l_kept _ Hl Hf m Hm) as [[[p Hp]|Hw]|[(x & Hx & _)|?]]; [| | |done].
  - exfalso. unfold backlogOf in Hp. destruct (workers s !! p) as [[b a]|] eqn:Hw; [|by apply not_elem_of_nil in Hp].
    pose proof (cl_joined _ _ Hc Hcl _ _ Hw) as Hst. destruct a; try done. by apply not_elem_of_nil in Hp.
  - rewrite Hch in Hw. by apply not_elem_of_nil in Hw.
  - rewrite Hpd in Hx. apply elem_of_marks in Hx as [p Hx]. by rewrite lookup_empty in Hx.
Qed.
End theorems.

(** ** At work *)

(** Every body that is not "bad" is a Transfer's envelope. *)
#[local] Instance sampleJSON : EnvelopeJSON := λ value,
  if bool_decide (value = "bad") then Err (plain "invalid character") else Ok (mkEnvelope "transfer" value 1 1).

Definition sampleMessage (p o : Z) : Message := mkMessage "transfer-events" p o "t1" "moved".
Definition sample : Consumer := NewConsumer [].

Definition taken (p : Z) : list label := [LWork p; LWork p].
Definition refusal : label := LHandled 0 (Err (plain "ledger: unavailable")).

(** Partition 0 commits its first message and halts on its second after three
    attempts; partition 1 finishes and commits what it was handling. *)
Definition haltSchedule : list label :=
  [LFetched (sampleMessage 0 5); LDeliver; LFetched (sampleMessage 1 3); LDeliver; LFetched (sampleMessage 0 6); LDeliver] ++
  taken 0 ++ [LHandled 0 (Ok tt); LWork 0; LCommit; LCommit; LCommitted (Ok tt)] ++
  taken 1 ++ taken 0 ++ [refusal; LSlept 0; refusal; LSlept 0; refusal; LHandled 1 (Ok tt); LWork 1] ++
  [LFetchErr (plain "context canceled"); LWork 1; LJoin; LCommit; LCommit; LCommitted (Ok tt); LCommit; LCommit; LReturn].

(** The context ends while a message is being handled. *)
Definition stopSchedule : list label :=
  [LFetched (sampleMessage 0 5); LDeliver] ++ taken 0 ++
  [LHandled 0 (Ok tt); LCancel; LWork 0; LFetchErr (plain "context canceled"); LWork 0; LJoin; LCommit; LCommit;
   LCommitted (Err (plain "context canceled")); LCommit; LCommitted (Ok tt); LReturn].

Definition afterSchedule (ls : list label) : state := default start (schedule sample start ls).

Lemma afterSchedule_reachable ls :
  bool_decide (is_Some (schedule sample start ls)) = true → creachable sample (afterSchedule ls).
Proof.
  intros [s Hs]%bool_decide_eq_true. unfold afterSchedule. rewrite Hs. eapply schedule_reachable; [apply rtc_refl | exact Hs].
Qed.

Lemma haltSchedule_increasing : increasing (fetched (afterSchedule haltSchedule)).
Proof.
  assert (fetched (afterSchedule haltSchedule) = [sampleMessage 0 5; sampleMessage 1 3; sampleMessage 0 6]) as ->
    by (vm_compute; reflexivity).
  intros p. unfold onPartition. rewrite !filter_cons. simpl. repeat case_decide; repeat constructor; simpl in *; lia.
Qed.

Lemma haltSchedule_reachable : creachable sample (afterSchedule haltSchedule).
Proof. apply afterSchedule_reachable. vm_compute. reflexivity. Qed.

Lemma commit_never_passes_unhandled_witness :
  sampleMessage 1 3 ∈ committed (afterSchedule haltSchedule) ∧ sampleMessage 1 3 ∈ handled (afterSchedule haltSchedule).
Proof.
  assert (Hm : sampleMessage 1 3 ∈ committed (afterSchedule haltSchedule)) by decided.
  split; [exact Hm|].
  refine (proj2 (commit_never_passes_unhandled sample (afterSchedule haltSchedule) _ _) _ _ Hm _ eq_refl _).
  - apply haltSchedule_reachable.
  - apply haltSchedule_increasing.
  - decided.
  - vm_compute. discriminate.
Defined.

Lemma halt_is_redelivered_witness :
  fetcher (afterSchedule haltSchedule) = FReturned (Some (inl (HaltError (sampleMessage 0 6) 3 (plain "ledger: unavailable")))) ∧
  committed (afterSchedule haltSchedule) = [sampleMessage 0 5; sampleMessage 1 3] ∧
  sampleMessage 0 6 ∉ handled (afterSchedule haltSchedule).
Proof.
  split; [vm_compute; reflexivity|]. split; [vm_compute; reflexivity|].
  refine (proj1 (proj2 (halt_is_redelivered sample (afterSchedule haltSchedule) (sampleMessage 0 6) 3
    (plain "ledger: unavailable") haltSchedule_reachable haltSchedule_increasing _))).
  vm_compute. reflexivity.
Defined.

Lemma shutdown_commits_everything_handled_witness :
  fetcher (afterSchedule stopSchedule) = FReturned None ∧ covered (sampleMessage 0 5) (committed (afterSchedule stopSchedule)).
Proof.
  assert (Hr : fetcher (afterSchedule stopSchedule) = FReturned None) by (vm_compute; reflexivity).
  split; [exact Hr|].
  refine (shutdown_commits_everything_handled sample (afterSchedule stopSchedule) None _ Hr _ _ _ _).
  - apply afterSchedule_reachable. vm_compute. reflexivity.
  - vm_compute. reflexivity.
  - vm_compute. reflexivity.
  - decided.
Defined.
