(* ===== verification/ConsumerProgress.v ===== *)
(** * The consumer's way out, and examples

    Once the fetch loop has ended, [Run] returns: no goroutine waits for
    another for ever, and there are only so many steps left. Then the
    theorems of [ConsumerSafety] at work on concrete schedules, and one the
    comments of the code do not expect. *)

From S2P Require Import Prelude Orchestrator Consumer ConsumerSafety.

(** Weights: how many steps are left in it, at most. *)
Definition atWeight (attempts : nat) (a : workerAt) : nat :=
  match a with
  | WRange => 1
  | WGot _ => 2 * attempts + 12
  | WHandle _ _ n _ => 2 * (attempts - n) + 11
  | WSleep _ _ n _ => 2 * (attempts - n) + 10
  | WHand _ => 9
  | WHandBlocked _ => 8
  | WStopped => 0
  end.
Definition workerWeight (attempts : nat) (w : worker) : nat :=
  atWeight attempts (at_ w) + length (backlog w) * (2 * attempts + 20).
Definition fetcherWeight (f : fetcherAt) : nat :=
  match f with FFetch | FSend _ => 0 | FClosed _ => 2 | FJoined _ => 1 | FReturned _ => 0 end.
Definition committerWeight (k : committerAt) : nat :=
  match k with CRange => 3 | CDrain => 5 | CCommit => 4 | CFlush => 2 | CFlushCommit => 1 | CDone => 0 end.
Definition workersWeight (attempts : nat) (ws : gmap Z worker) : nat :=
  sum_list_with (λ x, workerWeight attempts (snd x)) (map_to_list ws).
Definition weight (c : Consumer) (s : state) : nat :=
  fetcherWeight (fetcher s) + workersWeight (c_attempts c) (workers s) +
  3 * length (handledCh s) + committerWeight (committer s).

Lemma workersWeight_set n ws p w w' :
  ws !! p = Some w →
  (workersWeight n (<[p := w']> ws) + workerWeight n w = workersWeight n ws + workerWeight n w')%nat.
Proof.
  intros Hp. unfold workersWeight. rewrite <- (insert_delete_eq ws p w') at 1.
  rewrite <- (insert_delete_id ws p w Hp) at 2.
  rewrite (map_to_list_insert (delete p ws) p w') by apply lookup_delete_eq.
  rewrite (map_to_list_insert (delete p ws) p w) by apply lookup_delete_eq. simpl. lia.
Qed.

Section progress.
Context {J : EnvelopeJSON} (c : Consumer).

Lemma weight_worker p w w' s s' :
  workers s !! p = Some w → workers s' = <[p := w']> (workers s) → fetcher s' = fetcher s → committer s' = committer s →
  (workerWeight (c_attempts c) w' + 3 * length (handledCh s') <
   workerWeight (c_attempts c) w + 3 * length (handledCh s))%nat →
  (weight c s' < weight c s)%nat.
Proof.
  intros Hw Hws Hf Hc Hlt. unfold weight. rewrite Hws, Hf, Hc.
  pose proof (workersWeight_set (c_attempts c) (workers s) p w w' Hw). lia.
Qed.

Lemma weight_workerStep p w s l s' :
  workers s !! p = Some w → closing c s → workerStep c p w s l = Some s' → (weight c s' < weight c s)%nat.
Proof.
  intros Hw Hcl H. pose proof (λ m t n d, cl_sleep _ _ Hcl p m t n d) as Hsl.
  rewrite (backlogOf_lookup _ _ _ Hw) in Hsl. destruct w as [b a]. step_cases H;
    (eapply (weight_worker p); [exact Hw|done..|]); unfold workerWeight; simpl;
    rewrite ?length_app; simpl; try specialize (Hsl _ _ _ _ eq_refl); try lia.
Qed.

(** Past the fetch loop every step but the caller's cancelling is one fewer. *)
Lemma weight_step s l s' :
  closing c s → backlogsClosed s = true → l ≠ LCancel → cstep c s l = Some s' →
  (weight c s' < weight c s)%nat ∧ backlogsClosed s' = true.
Proof.
  intros Hcl Hb Hl H.
  assert (Hb' : backlogsClosed s' = true).
  { clear Hl. unfold cstep in H. destruct l; try (destruct (workers s !! p)); try done; step_cases H;
      unfold backlogsClosed in *; simpl; try done; by match goal with H : fetcher s = _ |- _ => rewrite H in Hb end. }
  split; [|done]. unfold cstep in H. destruct l; try done;
    try (destruct (workers s !! p) eqn:Hw; [by eapply weight_workerStep | done]);
    step_cases H; unfold weight, backlogsClosed in *; simpl;
    repeat match goal with H : _ s = _ |- _ => rewrite H in * end; simpl in *; try done; lia.
Qed.

Lemma enabled_worker s p w :
  consumerInv c s → backlogsClosed s = true → handledClosed s = false → workers s !! p = Some w → stopped w = false →
  ∃ l, l ≠ LCancel ∧ is_Some (cstep c s l).
Proof.
  intros (_ & _ & _ & Hcl) Hb Hopen Hw Hns. destruct w as [b a].
  assert (Hget : ∀ l, l ≠ LCancel → is_Some (match l with
     | LWork q | LHandled q _ | LSlept q | LSleepDone q | LGiveUp q => if decide (q = p) then workerStep c p (mkWorker b a) s l else None
     | LCommit | LCommitted _ => committerStep s l | _ => None end) → ∃ l, l ≠ LCancel ∧ is_Some (cstep c s l)).
  { intros l Hl [s' Hs']. exists l. split; [done|]. unfold cstep. destruct l; try done; try (case_decide; [subst|done]); rewrite ?Hw; eauto. }
  destruct a as [|m|m t n d|m t n d|m|m|]; try done.
  - apply (Hget (LWork p)); [done|]. rewrite decide_True by done. unfold workerStep, workStep; simpl. rewrite Hb. destruct b; eauto.
  - apply (Hget (LWork p)); [done|]. rewrite decide_True by done. unfold workerStep, workStep; simpl. case_match; eauto.
  - apply (Hget (LHandled p (Ok tt))); [done|]. rewrite decide_True by done. simpl. eauto.
  - apply (Hget (LSlept p)); [done|]. rewrite decide_True by done. simpl. eauto.
  - apply (Hget (LWork p)); [done|]. rewrite decide_True by done. unfold workerStep, workStep; simpl. case_match; eauto.
  - destruct (length (handledCh s) <? commitBacklog)%nat eqn:Hfull.
    { apply (Hget (LWork p)); [done|]. rewrite decide_True by done. unfold workerStep, workStep; simpl. rewrite Hfull. eauto. }
    destruct (isFailed s) eqn:Hfail.
    { apply (Hget (LGiveUp p)); [done|]. rewrite decide_True by done. simpl. rewrite Hfail. eauto. }
    destruct (handledCh s) as [|x rest] eqn:Hch; [done|].
    destruct (committer s) eqn:Hc; try (apply (Hget LCommit); [done|]; unfold committerStep; rewrite Hc, Hch; eauto).
    + apply (Hget (LCommitted (Ok tt))); [done|]. unfold committerStep. rewrite Hc. eauto.
    + destruct (cl_flush _ _ Hcl Hc). congruence.
    + destruct (cl_done _ _ Hcl Hc); congruence.
Qed.

Lemma enabled s :
  consumerInv c s → backlogsClosed s = true →
  (∃ r, fetcher s = FReturned r) ∨ ∃ l, l ≠ LCancel ∧ is_Some (cstep c s l).
Proof.
  intros Hinv Hb. destruct (fetcher s) as [| |e|e|r] eqn:Hf; [by unfold backlogsClosed in Hb; rewrite Hf in Hb..| | |by left; eauto]; right.
  - destruct (forallb (λ x, stopped (snd x)) (map_to_list (workers s))) eqn:Hall.
    + exists LJoin. split; [done|]. simpl. unfold fetcherStep. rewrite Hf, Hall. eauto.
    + assert (¬ map_Forall (λ _ w, stopped w = true) (workers s)) as Hsome.
      { intros Hmf. apply not_true_iff_false in Hall. apply Hall, forallb_forall. intros [p w] Hin.
        apply list_elem_of_In, elem_of_map_to_list in Hin. by apply (Hmf p w). }
      apply map_not_Forall in Hsome as (p & w & Hw & Hns); [|intros; apply _].
      eapply enabled_worker; [done|done| |exact Hw|by destruct (stopped w)]. unfold handledClosed. by rewrite Hf.
  - destruct (committer s) eqn:Hc.
    all: try (exists LCommit; split; [done|]; simpl; unfold committerStep, handledClosed; rewrite Hc, ?Hf;
              destruct (handledCh s); try case_decide; by eexists).
    1,2: exists (LCommitted (Ok tt)); split; [done|]; simpl; unfold committerStep; rewrite Hc; eauto.
    exists LReturn. split; [done|]. simpl. unfold fetcherStep. rewrite Hf, Hc. eauto.
Qed.

(** A schedule from such a state is no longer than its weight, and ends in one. *)
Lemma schedule_weight ls s s' :
  consumerInv c s → backlogsClosed s = true → LCancel ∉ ls → schedule c s ls = Some s' →
  (length ls + weight c s' ≤ weight c s)%nat ∧ consumerInv c s' ∧ backlogsClosed s' = true.
Proof.
  revert s. induction ls as [|l ls IH]; intros s Hinv Hb Hl H; simpl in H; [by simplify_eq|].
  apply not_elem_of_cons in Hl as [Hne Hl]. destruct (cstep c s l) as [s1|] eqn:Hs; [|done].
  destruct (weight_step s l s1) as [Hlt Hb1]; [apply Hinv|done|congruence|done|].
  destruct (IH s1) as (? & ? & ?); [by eapply consumerInv_step|done..|]. split_and!; [simpl; lia|done..].
Qed.

(** Once the fetch loop has ended, for whatever reason, [Run] returns. From any
    state it can then be in, and with any number of partitions, backlogs, retries
    and failures left, there is a bound on the steps still to come, and until it
    has returned some goroutine can always take one (a handler, a timer or a
    commit under way returns): no worker waits for a committer that is gone, and
    no one waits for a channel nobody closes. *)
Theorem run_returns s :
  creachable c s → backlogsClosed s = true →
  ∃ bound, ∀ ls s', LCancel ∉ ls → schedule c s ls = Some s' →
    (length ls ≤ bound)%nat ∧
    ((∃ r, fetcher s' = FReturned r) ∨ ∃ l, l ≠ LCancel ∧ is_Some (cstep c s' l)).
Proof.
  intros Hinv%creachable_inv Hb. exists (weight c s). intros ls s' Hl Hs.
  destruct (schedule_weight ls s s' Hinv Hb Hl Hs) as (? & Hinv' & Hb'). split; [lia | by apply enabled].
Qed.
End progress.

(** ** At work *)

#[local] Existing Instance sampleJSON.

(** The halt of [ConsumerSafety.haltSchedule] up to the end of the fetch loop, and
    what is left of it. *)
Lemma run_returns_witness :
  ∃ bound, (length (drop 28 haltSchedule) ≤ bound)%nat ∧
    ∃ r, fetcher (afterSchedule haltSchedule) = FReturned r.
Proof.
  destruct (run_returns sample (afterSchedule (take 28 haltSchedule))) as [bound Hb].
  - apply afterSchedule_reachable. vm_compute. reflexivity.
  - vm_compute. reflexivity.
  - exists bound. destruct (Hb (drop 28 haltSchedule) (afterSchedule haltSchedule)) as [Hlen _].
    + vm_compute. intros H. repeat (apply elem_of_cons in H as [H|H]; [discriminate H|]). by apply not_elem_of_nil in H.
    + vm_compute. reflexivity.
    + split; [exact Hlen|]. eexists. vm_compute. reflexivity.
Defined.

(** A worker gives a handled message up although the committer is at work: the
    committer has taken one message and is waiting for the reader, partition 0 has
    filled the channel behind it, partition 1 has halted. The message's side
    effects have happened and every other goroutine goes on to commit what it
    holds, but this offset is not among it. *)
Definition fillChannel (n : nat) : list label :=
  seq 0 n ≫= λ i, [LFetched (sampleMessage 0 (2 + Z.of_nat i)); LDeliver] ++ taken 0 ++ [LHandled 0 (Ok tt); LWork 0].

Definition abandonSchedule : list label :=
  [LFetched (sampleMessage 0 1); LDeliver] ++ taken 0 ++ [LHandled 0 (Ok tt); LWork 0; LCommit; LCommit] ++
  fillChannel commitBacklog ++
  [LFetched (mkMessage "transfer-events" 1 1 "t1" "bad"); LDeliver; LFetched (sampleMessage 0 2000); LDeliver] ++
  taken 0 ++ [LHandled 0 (Ok tt)] ++ taken 1 ++ [LWork 0; LGiveUp 0] ++
  [LFetchErr (plain "context canceled"); LJoin; LCommitted (Ok tt)] ++
  replicate (S commitBacklog) LCommit ++ [LCommitted (Ok tt); LCommit; LCommit; LReturn].

(** [Run] returns from that schedule with its last commit done, the message of
    offset 2000 handled, and the last offset committed on its partition 1025. *)
Theorem handled_message_given_up :
  creachable sample (afterSchedule abandonSchedule) ∧
  flushed (afterSchedule abandonSchedule) = true ∧
  sampleMessage 0 2000 ∈ handled (afterSchedule abandonSchedule) ∧
  committed (afterSchedule abandonSchedule) = [sampleMessage 0 1; sampleMessage 0 1025].
Proof.
  split; [apply afterSchedule_reachable; evaluate|]. split; [evaluate|]. split; [decided|evaluate].
Qed.

