(* ===== verification/KafkaReader.v ===== *)
(** * The Kafka transport

    [go/internal/saga/kafkareader]: waiting for a topic to exist, what a broker's
    metadata says of one, the consumer group's lag, and the adapter from kafka-go's
    messages to the consumer's. kafka-go is a parameter: what it answered, request
    by request. A wait is a fold over its polls, each with what every broker would
    answer, what the clock read, and whether the context outlived the pause. *)

From S2P Require Import Prelude GoMath Orchestrator Consumer.

(** ** Errors of several brokers *)

(** [errors.Join]: nil of nothing; otherwise the texts on lines of their own, and
    [errors.Is] sees into each. *)
Fixpoint joinTexts (es : list error) : string :=
  match es with
  | [] => ""
  | [e] => e_msg e
  | e :: es => e_msg e +:+ String (Ascii.ascii_of_nat 10) EmptyString +:+ joinTexts es
  end.

Definition errorsJoin (es : list error) : option error :=
  match es with [] => None | _ => Some (mkError None (es ≫= e_is) (joinTexts es)) end.

(** ** Waiting for a topic *)

(** [brokerCheck], of one topic at one moment. *)
Definition brokerCheck : Type := string → result bool.

Fixpoint existsFrom (check : brokerCheck) (brokers : list string) (errs : list error) : result bool :=
  match brokers with
  | [] => match errorsJoin errs with Some e => Err e | None => Ok false end
  | broker :: rest =>
      match check broker with
      | Err e => existsFrom check rest (errs ++ [wrapf (broker +:+ ": ") e])
      | Ok exists_ => Ok exists_
      end
  end.

(** [topicWait.exists] *)
Definition topicExists (check : brokerCheck) (brokers : list string) : result bool := existsFrom check brokers [].

(** One turn of the loop: the brokers, the two readings of the clock a failing turn
    may make, and the pause: [Some e] when the context ended first. *)
Record tick : Type := mkTick { tk_check : brokerCheck; tk_since : Z; tk_now : Z; tk_done : option error }.

Section topicWait.
Context (brokers : list string) (topic : string) (unreachableFor : Z).

Definition unreachable (e : error) : error :=
  wrapf ("kafkareader: " +:+ topic +:+ ": no broker reachable in the last " +:+ durationString unreachableFor +:+ ": ") e.

(** [topicWait.run], from [unreachableSince]; [None]: still waiting after these polls. *)
Fixpoint waitFrom (since : option Z) (ticks : list tick) : option (result unit) :=
  match ticks with
  | [] => None
  | t :: ticks =>
      let pauseThen (since : option Z) :=
        match tk_done t with Some e => Some (Err e) | None => waitFrom since ticks end in
      match topicExists (tk_check t) brokers with
      | Err e =>
          let from := default (tk_since t) since in
          if unreachableFor <=? tk_now t - from then Some (Err (unreachable e)) else pauseThen (Some from)
      | Ok true => Some (Ok tt)
      | Ok false => pauseThen None
      end
  end.
End topicWait.

Definition maxUnreachable : Z := 60000000000.

Definition WaitForTopic (brokers : list string) (topic : string) (ticks : list tick) : option (result unit) :=
  match brokers with
  | [] => Some (Err (plain ("kafkareader: " +:+ topic +:+ ": no brokers configured")))
  | _ => waitFrom brokers topic maxUnreachable None ticks
  end.

(** ** What a broker's metadata says *)

(** A [kafka.Error]: the one code that is told apart, or another. *)
Inductive kafkaError : Type := UnknownTopicOrPartition | OtherKafka (e : error).

Record topicMeta : Type := mkTopicMeta { tm_error : option kafkaError; tm_partitions : list Z }.

Definition dialAndCheckTopic (answer : result (list topicMeta)) : result bool :=
  let? topics := rmap_err (wrapf "metadata: ") answer in
  match topics with
  | [t] =>
      match tm_error t with
      | Some UnknownTopicOrPartition => Ok false
      | Some (OtherKafka e) => Err e
      | None => Ok (bool_decide (tm_partitions t ≠ []))
      end
  | _ => Err (plain ("metadata: got " +:+ decimal (len topics) +:+ " topic(s) in response, want 1"))
  end.

(** ** Lag *)

Definition partitionLag (committed first_ last_ : Z) : Z := Z.max 0 (i64 (last_ - Z.max committed first_)).

Record partitionOffsets : Type := mkOffsets { po_partition : Z; po_first : Z; po_last : Z; po_error : option error }.
Record partitionCommit : Type := mkCommit { pc_partition : Z; pc_offset : Z; pc_error : option error }.
Record offsetFetch : Type := mkOffsetFetch { of_error : option error; of_partitions : list partitionCommit }.

Section lag.
Context (group topic : string).

Definition at_partition (p : Z) : string := "kafkareader: " +:+ topic +:+ "[" +:+ decimal p +:+ "]: ".

Definition addCommit (m : gmap Z Z) (c : partitionCommit) : result (gmap Z Z) :=
  match pc_error c with
  | Some e => Err (wrapf (at_partition (pc_partition c) +:+ "committed offset for " +:+ group +:+ ": ") e)
  | None => Ok (<[pc_partition c := pc_offset c]> m)
  end.

(** The lag measured so far, and the partitions that could not be. *)
Definition addLag (commits : gmap Z Z) (acc : gmap Z Z * list error) (o : partitionOffsets) : gmap Z Z * list error :=
  match po_error o with
  | Some e => (fst acc, snd acc ++ [wrapf (at_partition (po_partition o) +:+ "offsets: ") e])
  | None => (<[po_partition o := partitionLag (default (-1) (commits !! po_partition o)) (po_first o) (po_last o)]> (fst acc), snd acc)
  end.

(** [GroupLag], of what the three requests were answered; the last two may depend
    on the partitions the first gave. *)
Definition GroupLag (metadata : result (list topicMeta)) (listOffsets : list Z → result (list partitionOffsets))
    (fetchOffsets : list Z → result offsetFetch) : result (gmap Z Z) :=
  let? topics := rmap_err (wrapf ("kafkareader: " +:+ topic +:+ ": metadata: ")) metadata in
  match topics with
  | [t] =>
      match tm_error t with
      | Some UnknownTopicOrPartition => Ok ∅
      | Some (OtherKafka e) => Err (wrapf ("kafkareader: " +:+ topic +:+ ": metadata: ") e)
      | None =>
          let? ends := rmap_err (wrapf ("kafkareader: " +:+ topic +:+ ": list offsets: ")) (listOffsets (tm_partitions t)) in
          let? committed := rmap_err (wrapf ("kafkareader: " +:+ topic +:+ ": offset fetch for " +:+ group +:+ ": "))
                              (fetchOffsets (tm_partitions t)) in
          match of_error committed with
          | Some e => Err (wrapf ("kafkareader: " +:+ topic +:+ ": offset fetch for " +:+ group +:+ ": ") e)
          | None =>
              let? commits := rfold addCommit ∅ (of_partitions committed) in
              let '(lag, errs) := foldl (addLag commits) (∅, []) ends in
              match errorsJoin errs with Some e => Err e | None => Ok lag end
          end
      end
  | _ => Err (plain ("kafkareader: " +:+ topic +:+ ": metadata: got " +:+ decimal (len topics) +:+ " topic(s), want 1"))
  end.
End lag.

(** ** Fetch and Commit *)

(** [kafka.Message], as far as it is used. *)
Record kafkaMessage : Type := mkKafkaMessage {
  km_Topic : string; km_Partition : Z; km_Offset : Z; km_Key : string; km_Value : string
}.

Definition Fetch (fetched : result kafkaMessage) : result Message :=
  let? m := fetched in
  Ok (mkMessage (km_Topic m) (km_Partition m) (km_Offset m) (km_Key m) (km_Value m)).

(** What [CommitMessages] is called with. *)
Definition commitMessages (ms : list Message) : list kafkaMessage :=
  (λ m, mkKafkaMessage (m_Topic m) (Partition m) (Offset m) "" "") <$> ms.

(** [kafka.ReaderConfig]: what [New] opens a group reader with. *)
Inductive startOffset : Type := FirstOffset | LastOffset.
Record ReaderConfig : Type := mkReaderConfig {
  rc_Brokers : list string; rc_GroupID : string; rc_Topic : string; rc_MaxWait : Z;
  rc_StartOffset : startOffset; rc_CommitInterval : Z; rc_WatchPartitionChanges : bool
}.

Definition New (brokers : list string) (groupID topic : string) : ReaderConfig :=
  mkReaderConfig brokers groupID topic 1000000000 FirstOffset 0 true.

Definition Close (closed : result unit) : result unit := rmap_err (wrapf "kafkareader: close: ") closed.

(** ** Waiting, right *)

(** The topic is seen when the first broker that answers says so; there is no
    verdict when none does, and then the error has every one's. *)
Lemma existsFrom_spec check brokers errs :
  match existsFrom check brokers errs with
  | Ok b => (∃ pre br post, brokers = pre ++ br :: post ∧ Forall (λ x, ∃ e, check x = Err e) pre ∧ check br = Ok b) ∨
            (b = false ∧ errs = [] ∧ brokers = [])
  | Err e => ∃ es, Forall2 (λ x e', check x = Err e') brokers es ∧
      errorsJoin (errs ++ zip_with (λ x e', wrapf (x +:+ ": ") e') brokers es) = Some e
  end.
Proof.
  revert errs. induction brokers as [|br brokers IH]; intros errs; cbn [existsFrom].
  - destruct (errorsJoin errs) as [e|] eqn:Hj; [|right; by destruct errs]. exists []. split; [done|]. simpl. by rewrite app_nil_r.
  - destruct (check br) as [b|e] eqn:Hc; [left; exists [], br, brokers; split_and!; [done|constructor|done]|].
    specialize (IH (errs ++ [wrapf (br +:+ ": ") e])). destruct (existsFrom check brokers _) as [b|e'].
    + destruct IH as [(pre & x & post & -> & Hpre & Hx)|(_ & Hnil & _)]; [|by destruct errs].
      left. exists (br :: pre), x, post. split_and!; [done|constructor; eauto|done].
    + destruct IH as (es & Hes & Hj). exists (e :: es). split; [by constructor|]. simpl. by rewrite <- app_assoc in Hj.
Qed.

Section wait.
Context (brokers : list string) (topic : string) (unreachableFor : Z).

Definition dark (t : tick) : bool := match topicExists (tk_check t) brokers with Err _ => true | _ => false end.

(** The turns since some broker last answered. *)
Definition outage (ticks : list tick) : list tick := foldl (λ out t, if dark t then out ++ [t] else []) [] ticks.

Lemma outage_snoc ticks t : outage (ticks ++ [t]) = if dark t then outage ticks ++ [t] else [].
Proof. unfold outage. by rewrite foldl_app. Qed.

(** It is the longest stretch of unanswered turns the ticks end with. *)
Lemma outage_spec ticks :
  ∃ before, ticks = before ++ outage ticks ∧ Forall (λ t, dark t = true) (outage ticks) ∧
    ∀ t, last before = Some t → dark t = false.
Proof.
  induction ticks as [|t ticks (before & Heq & Hout & Hlast)] using rev_ind; [by exists []|].
  rewrite outage_snoc. destruct (dark t) eqn:Hd.
  - exists before. split_and!; [by rewrite app_assoc, <- Heq|by apply Forall_app; split; [|repeat constructor]|done].
  - exists (ticks ++ [t]). split_and!; [by rewrite app_nil_r|constructor|]. intros x. rewrite last_snoc. by intros [= <-].
Qed.

(** What a turn decides, after the turns before it: the topic is there; no broker
    has answered for the longest it is tolerated; the context ended; or nothing. *)
Definition stop (before : list tick) (t : tick) : option (result unit) :=
  match topicExists (tk_check t) brokers with
  | Ok true => Some (Ok tt)
  | Ok false => Err <$> tk_done t
  | Err e =>
      if unreachableFor <=? tk_now t - default 0 (head (tk_since <$> outage (before ++ [t])))
      then Some (Err (unreachable topic unreachableFor e)) else Err <$> tk_done t
  end.

Fixpoint firstStop (before ticks : list tick) : option (result unit) :=
  match ticks with
  | [] => None
  | t :: ticks => match stop before t with Some r => Some r | None => firstStop (before ++ [t]) ticks end
  end.

Lemma waitFrom_firstStop before ticks :
  waitFrom brokers topic unreachableFor (head (tk_since <$> outage before)) ticks = firstStop before ticks.
Proof.
  revert before. induction ticks as [|t ticks IH]; intros before; [done|]. cbn [waitFrom firstStop]. unfold stop.
  rewrite <- IH, outage_snoc. unfold dark. destruct (topicExists (tk_check t) brokers) as [[]|e]; [done|by destruct (tk_done t)|].
  fold dark. assert (head (tk_since <$> outage before ++ [t]) = Some (default (tk_since t) (head (tk_since <$> outage before)))) as Hh
    by by destruct (outage before).
  rewrite Hh. simpl. destruct (_ <=? _); [done|]. by destruct (tk_done t).
Qed.

(** Waiting still, no turn has decided. *)
Lemma firstStop_none before ticks ticks' : firstStop before (ticks ++ ticks') = None → firstStop (before ++ ticks) ticks' = None.
Proof.
  revert before. induction ticks as [|t ticks IH]; intros before; simpl; [by rewrite app_nil_r|].
  destruct (stop before t); [done|]. intros Hn. apply IH in Hn. by rewrite <- app_assoc in Hn.
Qed.

(** C33. The wait for a topic judges each poll by the outage it is in. It ends at the
    first poll where the first broker that answers says the topic is there, where the
    context ended, or where no broker has answered for [unreachableFor], measured from
    the first poll since one last did. So while the brokers answer the topic is waited
    for however long it takes, and a cluster dark for that long has been given up on. *)
Theorem waitForTopic_judges ticks :
  waitFrom brokers topic unreachableFor None ticks = firstStop [] ticks ∧
  (Forall (λ t, topicExists (tk_check t) brokers = Ok false ∧ tk_done t = None) ticks →
     waitFrom brokers topic unreachableFor None ticks = None) ∧
  (∀ before u out t, ticks = before ++ [t] → outage ticks = u :: out → unreachableFor ≤ tk_now t - tk_since u →
     waitFrom brokers topic unreachableFor None ticks ≠ None).
Proof.
  pose proof (waitFrom_firstStop [] ticks) as Heq. simpl in Heq. split; [exact Heq|]. rewrite Heq. split.
  - clear Heq. generalize (@nil tick) as before. induction ticks as [|t ticks IH]; intros before Hall; [done|].
    apply Forall_cons in Hall as [[Hv Hd] Hall]. cbn [firstStop]. unfold stop. rewrite Hv, Hd. by apply IH.
  - intros before u out t Ht Hout Hlong Hn. rewrite Ht in Hn. apply firstStop_none in Hn. simpl in Hn. unfold stop in Hn.
    rewrite <- Ht, Hout in Hn. simpl in Hn. rewrite Ht, outage_snoc in Hout. unfold dark in Hout.
    destruct (topicExists (tk_check t) brokers) as [|e]; [done|].
    by rewrite (proj2 (Z.leb_le _ _) Hlong) in Hn.
Qed.
End wait.

(** ** Lag, right *)

(** The messages a partition retains that the group will still be handed. *)
Definition unread (committed first_ last_ : Z) : list Z := filter (λ o, committed ≤ o) (seqZ first_ (last_ - first_)).

Lemma partitionLag_unread committed first_ last_ :
  in_i64 committed → 0 ≤ first_ ≤ last_ → last_ ≤ MaxInt64 → partitionLag committed first_ last_ = len (unread committed first_ last_).
Proof.
  intros Hc Hf Hl. unfold partitionLag. rewrite i64_small by (unfold in_i64, MaxInt64 in *; lia).
  assert (∀ n f, len (filter (λ o, committed ≤ o) (seqZ f (Z.of_nat n))) = Z.max 0 (f + Z.of_nat n - Z.max committed f)) as Hcount.
  { induction n as [|n IH]; intros f; [simpl; lia|]. rewrite seqZ_cons by lia. rewrite filter_cons.
    replace (Z.pred (Z.of_nat (S n))) with (Z.of_nat n) by lia. specialize (IH (Z.succ f)). case_decide; simpl; lia. }
  unfold unread. rewrite <- (Z2Nat.id (last_ - first_)) by lia. rewrite Hcount. lia.
Qed.

Section lag.
Context (group topic : string).

Lemma addCommit_ok cs m :
  Forall (λ c, pc_error c = None) cs →
  rfold (addCommit group topic) m cs = Ok (foldl (λ m c, <[pc_partition c := pc_offset c]> m) m cs).
Proof.
  intros Hall. revert m. induction Hall as [|c cs Hc _ IH]; intros m; [done|]. simpl. unfold addCommit at 1. rewrite Hc. apply IH.
Qed.

Lemma addLag_errors commits ends acc :
  Forall (λ o, po_error o = None) ends → snd (foldl (addLag topic commits) acc ends) = snd acc.
Proof.
  intros Hall. revert acc. induction Hall as [|o ends Ho _ IH]; intros acc; [done|]. simpl. rewrite IH. unfold addLag. by rewrite Ho.
Qed.

Lemma addLag_failed commits ends acc :
  Exists (λ o, po_error o ≠ None) ends ∨ snd acc ≠ [] → snd (foldl (addLag topic commits) acc ends) ≠ [].
Proof.
  revert acc. induction ends as [|o ends IH]; intros acc Hx; simpl.
  - destruct Hx as [Hx|Hx]; [by apply Exists_nil in Hx | done].
  - apply IH. unfold addLag. destruct (po_error o) as [e|] eqn:Ho; simpl; [right; by destruct (snd acc)|].
    destruct Hx as [[Hx|Hx]%Exists_cons|Hx]; [done|by left|by right].
Qed.

Lemma addLag_lookup commits ends acc p :
  Forall (λ o, po_error o = None) ends → NoDup (po_partition <$> ends) →
  fst (foldl (addLag topic commits) acc ends) !! p =
    match list_find (λ o, po_partition o = p) ends with
    | Some (_, o) => Some (partitionLag (default (-1) (commits !! p)) (po_first o) (po_last o))
    | None => fst acc !! p
    end.
Proof.
  intros Hall. revert acc. induction Hall as [|o ends Ho Hall IH]; intros acc Hnd; [done|]. simpl.
  apply NoDup_cons in Hnd as [Hnew Hnd]. rewrite IH by done. unfold addLag. rewrite Ho. simpl. case_decide as Hp.
  - assert (list_find (λ o, po_partition o = p) ends = None) as ->.
    { apply list_find_None. apply Forall_forall. intros o' Ho' <-. apply Hnew. rewrite Hp. by apply list_elem_of_fmap_2. }
    subst p. by rewrite lookup_insert_eq.
  - destruct (list_find (λ o, po_partition o = p) ends) as [[i o']|]; [done|]. by rewrite lookup_insert_ne.
Qed.

(** Where the group has got to on a partition; nothing committed is -1. *)
Definition committedAt (cs : list partitionCommit) (p : Z) : Z :=
  match list_find (λ c, pc_partition c = p) cs with Some (_, c) => pc_offset c | None => -1 end.

Lemma commits_lookup cs (m : gmap Z Z) p :
  NoDup (pc_partition <$> cs) →
  foldl (λ (m : gmap Z Z) c, <[pc_partition c := pc_offset c]> m) m cs !! p =
    match list_find (λ c, pc_partition c = p) cs with Some (_, c) => Some (pc_offset c) | None => m !! p end.
Proof.
  revert m. induction cs as [|c cs IH]; intros m Hnd; [done|]. apply NoDup_cons in Hnd as [Hnew Hnd]. simpl.
  rewrite IH by done. case_decide as Hp.
  - assert (list_find (λ c, pc_partition c = p) cs = None) as ->.
    { apply list_find_None. apply Forall_forall. intros c' Hc' <-. apply Hnew. rewrite Hp. by apply list_elem_of_fmap_2. }
    subst p. by rewrite lookup_insert_eq.
  - destruct (list_find (λ c, pc_partition c = p) cs) as [[i c']|]; [done|]. by rewrite lookup_insert_ne.
Qed.

Lemma committedAt_range cs p : Forall (λ c, in_i64 (pc_offset c)) cs → in_i64 (committedAt cs p).
Proof.
  intros Hall. unfold committedAt. destruct (list_find _ cs) as [[i c]|] eqn:Hf; [|unfold in_i64; lia].
  apply list_find_Some in Hf as (Hc & _ & _). rewrite Forall_lookup in Hall. by eapply Hall.
Qed.

Lemma find_partition ends o :
  NoDup (po_partition <$> ends) → o ∈ ends → ∃ i, list_find (λ x, po_partition x = po_partition o) ends = Some (i, o).
Proof.
  intros Hnd Hin. destruct (list_find_elem_of (λ x, po_partition x = po_partition o) ends o Hin eq_refl) as [[i x] Hf].
  exists i. rewrite Hf. apply list_find_Some in Hf as (Hx & Heq & _). apply list_elem_of_lookup in Hin as [j Hj].
  assert (i = j) as -> by (eapply (NoDup_lookup (po_partition <$> ends)); [done|by rewrite list_lookup_fmap, Hx|rewrite list_lookup_fmap, Hj; simpl; by f_equal]).
  congruence.
Qed.

(** The lag the gauge reports is the number of messages the group has still to be
    handed: for every partition the brokers answered for, and for no other, the
    retained messages from the group's committed offset on, all of them when nothing
    is committed or what was committed is no longer retained. One partition that could
    not be measured and nothing is reported; a topic nobody has published to lags
    nowhere. *)
Theorem GroupLag_exact metadata listOffsets fetchOffsets t ends cs :
  metadata = Ok [t] → tm_error t = None → listOffsets (tm_partitions t) = Ok ends →
  fetchOffsets (tm_partitions t) = Ok (mkOffsetFetch None cs) → Forall (λ c, pc_error c = None ∧ in_i64 (pc_offset c)) cs →
  NoDup (pc_partition <$> cs) → NoDup (po_partition <$> ends) →
  Forall (λ o, 0 ≤ po_first o ≤ po_last o ∧ po_last o ≤ MaxInt64) ends →
  (Forall (λ o, po_error o = None) ends → ∃ lag, GroupLag group topic metadata listOffsets fetchOffsets = Ok lag ∧
     (∀ p, is_Some (lag !! p) ↔ p ∈ po_partition <$> ends) ∧
     ∀ o, o ∈ ends → lag !! po_partition o = Some (len (unread (committedAt cs (po_partition o)) (po_first o) (po_last o)))) ∧
  (Exists (λ o, po_error o ≠ None) ends → ∃ e, GroupLag group topic metadata listOffsets fetchOffsets = Err e) ∧
  GroupLag group topic (Ok [mkTopicMeta (Some UnknownTopicOrPartition) []]) listOffsets fetchOffsets = Ok ∅.
Proof.
  intros -> Ht He Hf Hcs Hcnd Hnd Hsane. split; [|split; [|done]]; unfold GroupLag; simpl;
    rewrite Ht, He, Hf; simpl; (rewrite addCommit_ok by (eapply Forall_impl; [exact Hcs|]; by intros ? [??])); simpl;
    set (commits := foldl _ ∅ cs).
  - intros Hok. pose proof (addLag_errors commits ends (∅, []) Hok) as Herr.
    pose proof (λ p, addLag_lookup commits ends (∅, []) p Hok Hnd) as Hlook.
    destruct (foldl (addLag topic commits) (∅, []) ends) as [lag errs]. simpl in *. subst errs. exists lag. split; [done|]. split.
    + intros p. rewrite Hlook. destruct (list_find (λ o, po_partition o = p) ends) as [[i o]|] eqn:Hp.
      * apply list_find_Some in Hp as (Ho & <- & _). split; [|by eexists]. intros _. apply list_elem_of_fmap_2. by eapply list_elem_of_lookup_2.
      * apply list_find_None in Hp. rewrite lookup_empty. split; [by intros [? ?]|]. intros (o & -> & Ho)%list_elem_of_fmap.
        rewrite Forall_forall in Hp. by destruct (Hp o Ho).
    + intros o Ho. rewrite Hlook. destruct (find_partition ends o Hnd Ho) as [i ->]. f_equal.
      assert (default (-1) (commits !! po_partition o) = committedAt cs (po_partition o)) as ->.
      { unfold commits, committedAt. rewrite commits_lookup by done. rewrite lookup_empty.
        by destruct (list_find (λ c, pc_partition c = po_partition o) cs) as [[? ?]|]. }
      rewrite Forall_forall in Hsane. destruct (Hsane o Ho) as [? ?]. apply partitionLag_unread; [|done..].
      apply committedAt_range. eapply Forall_impl; [exact Hcs|]. by intros ? [? ?].
  - intros Hx. pose proof (addLag_failed commits ends (∅, []) (or_introl Hx)) as Herr.
    destruct (foldl (addLag topic commits) (∅, []) ends) as [lag errs]. simpl in *. destruct errs as [|e errs]; [done|]. by eexists.
Qed.
End lag.

(** ** Witnesses *)

Definition answering (b : bool) : brokerCheck := λ _, Ok b.
Definition refusing : brokerCheck := λ _, Err (plain "connection refused").

(** Down, up without the topic, down again for a minute. *)
Definition somePolls : list tick :=
  [ mkTick refusing 0 0 None; mkTick (answering false) 1 2000000000 None;
    mkTick refusing 4000000000 4000000000 None; mkTick refusing 5 63000000000 None; mkTick refusing 5 64000000000 None ].

Example somePolls_waits : WaitForTopic ["a"; "b"] "transfer-events" (take 4 somePolls) = None.
Proof. reflexivity. Qed.

Lemma waitForTopic_judges_witness :
  outage ["a"; "b"] somePolls = drop 2 somePolls ∧
  waitFrom ["a"; "b"] "transfer-events" maxUnreachable None somePolls = firstStop ["a"; "b"] "transfer-events" maxUnreachable [] somePolls ∧
  waitFrom ["a"; "b"] "transfer-events" maxUnreachable None [mkTick (answering false) 0 0 None] = None ∧
  waitFrom ["a"; "b"] "transfer-events" maxUnreachable None somePolls ≠ None.
Proof.
  split; [reflexivity|].
  destruct (waitForTopic_judges ["a"; "b"] "transfer-events" maxUnreachable somePolls) as (Heq & _ & Hup).
  split; [exact Heq|]. split.
  - apply (waitForTopic_judges ["a"; "b"] "transfer-events" maxUnreachable [mkTick (answering false) 0 0 None]).
    by repeat constructor.
  - apply (Hup (take 4 somePolls) (mkTick refusing 4000000000 4000000000 None) (drop 3 somePolls) (mkTick refusing 5 64000000000 None));
      [reflexivity|reflexivity|]. by vm_compute.
Defined.

Definition sampleEnds : list partitionOffsets := [mkOffsets 0 5 12 None; mkOffsets 1 0 3 None].
Definition sampleCommits : list partitionCommit := [mkCommit 0 9 None].

Lemma GroupLag_exact_witness :
  GroupLag "g" "transfer-events" (Ok [mkTopicMeta None [0; 1]]) (λ _, Ok sampleEnds) (λ _, Ok (mkOffsetFetch None sampleCommits)) =
    Ok {[0 := 3; 1 := 3]} ∧
  ∃ lag, GroupLag "g" "transfer-events" (Ok [mkTopicMeta None [0; 1]]) (λ _, Ok sampleEnds) (λ _, Ok (mkOffsetFetch None sampleCommits)) = Ok lag ∧
     (∀ p, is_Some (lag !! p) ↔ p ∈ po_partition <$> sampleEnds) ∧
     ∀ o, o ∈ sampleEnds → lag !! po_partition o =
       Some (len (unread (committedAt sampleCommits (po_partition o)) (po_first o) (po_last o))).
Proof.
  split; [evaluate|].
  refine (proj1 (GroupLag_exact "g" "transfer-events" (Ok [mkTopicMeta None [0; 1]]) (λ _, Ok sampleEnds)
    (λ _, Ok (mkOffsetFetch None sampleCommits)) (mkTopicMeta None [0; 1]) sampleEnds sampleCommits eq_refl eq_refl eq_refl eq_refl _ _ _ _) _).
  - repeat constructor; done.
  - decided.
  - decided.
  - repeat constructor; decided.
  - repeat constructor.
Defined.
