(* ===== verification/OrchestratorCmd.v ===== *)
(** * The orchestrator process ([go/cmd/orchestrator])

    [run] starts one goroutine per consumed topic; each waits for its topic, consumes
    it ([Consumer]), and hands the first error anyone meets to [run] before it
    cancels the context they share. The process is a transition system over the
    two consumers': a label says which goroutine moves and what its call answered.

    What is shown: every consumer inside the process is a consumer as verified on its
    own, a topic nobody has published to holds up its own goroutine only, [run]
    returns no error only when it was asked to stop, and once the context has ended
    the process comes to an end: nothing deadlocks, and the steps left are bounded
    but for the messages the reader still hands over. *)

From S2P Require Import Prelude TransferState TransactionState Orchestrator Consumer ConsumerSafety ConsumerProgress.

Definition groupPrefix : string := "money-flow-saga-".
Definition consumerGroup (aggregateType : string) : string := groupPrefix +:+ aggregateType.

Definition consumedAggregateTypes : list string := [TransferAggregateType; TransactionAggregateType].

(** What [Consumer.Run] and [consume] return, when it is an error. *)
Definition runError : Type := failureOf + error.

(** Where the goroutine of one topic is. *)
Inductive place : Type :=
| PWait                          (* in tr.waitForTopic *)
| PConsume (s : state)           (* in Consumer.Run *)
| PClose (r : option runError)   (* in the deferred reader.Close *)
| PReturned (e : runError)       (* consume has returned an error; before mu.Lock *)
| PCancel                        (* first is set; before cancel() *)
| PDone.                         (* wg.Done *)

Record process : Type := mkProcess {
  asked : bool;                  (* the context run was given has ended *)
  cancelled : bool;              (* cancel() has been called *)
  first : option runError;
  goroutines : list place
}.

(** The context the goroutines share. *)
Definition ctxEnded (p : process) : bool := asked p || cancelled p.

Definition started : process := mkProcess false false None ((λ _, PWait) <$> consumedAggregateTypes).

(** The end of the context reaches every consumer. *)
Definition reach (g : place) : place := match g with PConsume s => PConsume (cancel s) | g => g end.

Definition moveTo (i : nat) (g : place) (p : process) : process :=
  mkProcess (asked p) (cancelled p) (first p) (<[i := g]> (goroutines p)).

Inductive plabel : Type :=
| QStop                                   (* SIGINT or SIGTERM *)
| QWaited (i : nat) (r : result unit)     (* waitForTopic returns *)
| QConsumer (i : nat) (l : label)         (* a step of Consumer.Run *)
| QClosed (i : nat) (r : result unit)     (* reader.Close returns; its error is logged *)
| QReport (i : nat)                       (* the critical section that sets first *)
| QCancel (i : nat).                      (* cancel(), and the goroutine ends *)

Section orchestrator.
Context {J : EnvelopeJSON} (c : Consumer).

(** A step of [Consumer.Run]. Its context is the process's, which it cannot end. *)
Definition afterRun (s : state) : place := match fetcher s with FReturned r => PClose r | _ => PConsume s end.
Definition consumerMove (s : state) (l : label) : option place :=
  match l with
  | LCancel => None
  | l => match cstep c s l with Some s' => Some (afterRun s') | None => None end
  end.

(** [consume] of one topic, and the function [run] wraps it in. *)
Definition goroutineStep (p : process) (i : nat) (g : place) (q : plabel) : option process :=
  match g, q with
  | PWait, QWaited _ (Ok _) => Some (moveTo i (PConsume (if ctxEnded p then cancel start else start)) p)
  | PWait, QWaited _ (Err e) => Some (moveTo i (if ctxEnded p then PDone else PReturned (inr e)) p)
  | PConsume s, QConsumer _ l => match consumerMove s l with Some g => Some (moveTo i g p) | None => None end
  | PClose r, QClosed _ _ => Some (moveTo i (match r with Some e => PReturned e | None => PDone end) p)
  | PReturned e, QReport _ =>
      Some (moveTo i PCancel (mkProcess (asked p) (cancelled p) (Some (default e (first p))) (goroutines p)))
  | PCancel, QCancel _ =>
      Some (moveTo i PDone (mkProcess (asked p) true (first p) (reach <$> goroutines p)))
  | _, _ => None
  end.

Definition pstep (p : process) (q : plabel) : option process :=
  match q with
  | QStop => Some (mkProcess true (cancelled p) (first p) (reach <$> goroutines p))
  | QWaited i _ | QConsumer i _ | QClosed i _ | QReport i | QCancel i =>
      match goroutines p !! i with
      | Some g => goroutineStep p i g q
      | None => None
      end
  end.

Fixpoint pschedule (p : process) (qs : list plabel) : option process :=
  match qs with
  | [] => Some p
  | q :: qs => match pstep p q with Some p' => pschedule p' qs | None => None end
  end.

Definition preachable (p : process) : Prop := ∃ qs, pschedule started qs = Some p.

(** [wg.Wait] has returned, and what [run] then returns is [first p]. *)
Definition returned (p : process) : Prop := Forall (λ g, g = PDone) (goroutines p).

(** ** The consumers inside *)

Lemma consumerMove_step s l g : consumerMove s l = Some g → ∃ s', l ≠ LCancel ∧ cstep c s l = Some s' ∧ g = afterRun s'.
Proof. unfold consumerMove. destruct l; try done; destruct (cstep c s _) as [s'|] eqn:Hs; intros [= <-]; by exists s'. Qed.

Lemma cstep_ctxDone s l s' : l ≠ LCancel → cstep c s l = Some s' → ctxDone s' = ctxDone s.
Proof.
  intros Hl H. unfold cstep in H. destruct l; try done; try (destruct (workers s !! p)); try done; by step_cases H.
Qed.

Lemma cstep_returned s l s' : l ≠ LCancel → cstep c s l = Some s' → fetcher s' = FReturned None →
  fetcher s = FReturned None ∨ ctxDone s = true.
Proof.
  intros Hl H Hf. unfold cstep in H. destruct l; try done; try (destruct (workers s !! p)); try done; step_cases H;
    try by left. right. revert Hf. unfold outcomeOf, isShutdown.
  destruct (failure s); [done|]. by destruct (ctxDone s).
Qed.

(** What holds of a goroutine: its consumer is one [Consumer] can reach, with the
    context as the process has it; it is through without an error only because the
    context ended. *)
Definition placeOk (p : process) (g : place) : Prop :=
  match g with
  | PConsume s => creachable c s ∧ ctxDone s = ctxEnded p ∧ ∀ r, fetcher s ≠ FReturned r
  | PClose None | PDone => asked p = true ∨ is_Some (first p)
  | PCancel => is_Some (first p)
  | _ => True
  end.

Record processInv (p : process) : Prop := {
  inv_places : Forall (placeOk p) (goroutines p);
  inv_first : is_Some (first p) → cancelled p = true ∨ PCancel ∈ goroutines p;
  inv_cancelled : cancelled p = true → is_Some (first p);
  inv_length : length (goroutines p) = length consumedAggregateTypes
}.

Lemma creachable_step s l s' : creachable c s → cstep c s l = Some s' → creachable c s'.
Proof. intros Hr Hs. eapply rtc_r; [exact Hr|]. by exists l. Qed.

Lemma creachable_cancel s : creachable c s → creachable c (cancel s).
Proof. intros Hr. by apply (creachable_step s LCancel). Qed.

(** The context's end, seen from the goroutines. *)
Lemma placeOk_ended p p' g :
  ctxEnded p' = true → (asked p = true → asked p' = true) → (is_Some (first p) → is_Some (first p')) →
  placeOk p g → placeOk p' (reach g).
Proof.
  intros He Ha Hf. destruct g as [|s|[e|]|e| |]; simpl; try tauto.
  intros (Hr & _ & Hn). split_and!; [by apply creachable_cancel | done | exact Hn].
Qed.

Lemma placeOk_mono p p' g :
  ctxEnded p' = ctxEnded p → (asked p = true → asked p' = true) → (is_Some (first p) → is_Some (first p')) →
  placeOk p g → placeOk p' g.
Proof. intros He Ha Hf. destruct g as [|s|[e|]|e| |]; simpl; rewrite ?He; tauto. Qed.

Lemma ended_known p : processInv p → ctxEnded p = true → asked p = true ∨ is_Some (first p).
Proof. intros Hinv [?|?]%orb_prop; [by left | right; by apply Hinv]. Qed.

Lemma Forall_moved (P : place → Prop) i g gs : Forall P gs → P g → Forall P (<[i := g]> gs).
Proof. intros Hgs Hg. by apply Forall_insert. Qed.

(** A goroutine moving on its own, the context and [first] as they were. *)
Lemma moveTo_inv p i g0 g :
  processInv p → goroutines p !! i = Some g0 → g0 ≠ PCancel → placeOk p g → processInv (moveTo i g p).
Proof.
  intros [Hp Hf Hc Hn] Hi Hne Hg. split; simpl; [by apply Forall_moved| |exact Hc|by rewrite length_insert].
  intros [?|Hin]%Hf; [by left|right]. apply list_elem_of_lookup in Hin as [j Hj].
  apply list_elem_of_lookup. exists j. rewrite list_lookup_insert_ne; [done|]. intros ->. congruence.
Qed.

Lemma goroutineStep_inv p i g q p' :
  processInv p → goroutines p !! i = Some g → goroutineStep p i g q = Some p' → processInv p'.
Proof.
  intros Hinv Hi Hs. pose proof Hinv as [Hp Hf Hc Hlen]. pose proof (Forall_lookup_1 _ _ _ _ Hp Hi) as Hg.
  destruct g as [|s|r|e| |], q as [|j [[]|e']|j l|j r'|j|j]; cbn [goroutineStep] in Hs; try done.
  - simplify_eq. eapply moveTo_inv; [done|exact Hi|done|]. simpl. destruct (ctxEnded p).
    + split_and!; [apply creachable_cancel, rtc_refl|done|done].
    + split_and!; [apply rtc_refl|done|done].
  - simplify_eq. eapply moveTo_inv; [done|exact Hi|done|]. destruct (ctxEnded p) eqn:He; [by apply ended_known | done].
  - destruct Hg as (Hr & Hd & Hn). destruct (consumerMove s l) as [g|] eqn:Hm; [|done]. simplify_eq.
    destruct (consumerMove_step _ _ _ Hm) as (s' & Hl & Hs' & ->).
    eapply moveTo_inv; [done|exact Hi|done|]. pose proof (cstep_ctxDone _ _ _ Hl Hs') as Hd'.
    unfold afterRun. destruct (fetcher s') as [| | | |[e|]] eqn:Hfe; simpl;
      try (split_and!; [by eapply creachable_step|congruence|congruence]); [done|].
    destruct (cstep_returned _ _ _ Hl Hs' Hfe) as [?|?]; [by destruct (Hn None)|]. apply ended_known; [done|congruence].
  - simplify_eq. eapply moveTo_inv; [done|exact Hi|done|]. by destruct r.
  - simplify_eq. split; simpl.
    + apply Forall_moved; [|by eexists]. eapply Forall_impl; [exact Hp|]. intros g. by apply placeOk_mono.
    + intros _. right. apply list_elem_of_lookup. exists i. rewrite list_lookup_insert_eq; [done|]. by eapply lookup_lt_Some.
    + by eexists.
    + by rewrite length_insert.
  - simplify_eq. split; simpl; [|by left|done|by rewrite length_insert, length_fmap]. apply Forall_moved; [|by right]. apply Forall_fmap.
    eapply Forall_impl; [exact Hp|]. intros g Hok. simpl. apply (placeOk_ended p); [|done|done|exact Hok].
    unfold ctxEnded. simpl. by destruct (asked p).
Qed.

Lemma pstep_inv p q p' : processInv p → pstep p q = Some p' → processInv p'.
Proof.
  intros Hinv Hs. destruct q as [|i r|i l|i r|i|i]; simpl in Hs;
    try (destruct (goroutines p !! i) as [g|] eqn:Hi; [by eapply goroutineStep_inv | done]).
  simplify_eq. destruct Hinv as [Hp Hf Hc Hlen]. split; simpl; [| |exact Hc|by rewrite length_fmap].
  - apply Forall_fmap. eapply Forall_impl; [exact Hp|]. intros g Hok. by apply (placeOk_ended p).
  - intros [?|Hin]%Hf; [by left|right]. apply list_elem_of_fmap. by exists PCancel.
Qed.

Lemma preachable_inv p : preachable p → processInv p.
Proof.
  intros [qs Hqs]. assert (Hs : processInv started) by (split; simpl; [by repeat constructor|by intros []|done|done]).
  revert Hqs Hs. generalize started as p0. induction qs as [|q qs IH]; intros p0 Hqs H0; simpl in Hqs; [by simplify_eq|].
  destruct (pstep p0 q) as [p1|] eqn:Hq; [|done]. eapply IH; [exact Hqs|]. by eapply pstep_inv.
Qed.

(** ** The way out *)

(** The weight of a consumer before its fetch loop has ended, too. *)
Definition openWeight (s : state) : nat :=
  match fetcher s with FFetch => 3 | FSend _ => 2 * c_attempts c + 25 | _ => 0 end.
Definition totalWeight (s : state) : nat := weight c s + openWeight s.
Definition fetchCost : nat := 2 * c_attempts c + 24.
Definition labelCost (l : label) : nat := match l with LFetched _ => fetchCost | _ => 0 end.

(** A backlog that grew, its worker made first if need be. *)
Lemma workersWeight_grown n p s b :
  (workersWeight n (<[p := mkWorker (backlog (backlogOf p s) ++ b) (at_ (backlogOf p s))]> (workers s)) ≤
   workersWeight n (workers s) + 1 + length b * (2 * n + 20))%nat.
Proof.
  destruct (workers s !! p) as [w|] eqn:Hp.
  - pose proof (workersWeight_set n (workers s) p w (mkWorker (backlog w ++ b) (at_ w)) Hp) as H.
    rewrite (backlogOf_lookup _ _ _ Hp). unfold workerWeight in H. simpl in H. rewrite length_app in H. lia.
  - unfold backlogOf. rewrite Hp. simpl. unfold workersWeight. rewrite map_to_list_insert by done.
    simpl. unfold workerWeight. simpl. lia.
Qed.

(** Every step of a consumer is one fewer, but for a message fetched. *)
Lemma totalWeight_step s l s' :
  closing c s → l ≠ LCancel → cstep c s l = Some s' → (S (totalWeight s') ≤ totalWeight s + labelCost l)%nat.
Proof.
  intros Hcl Hl H. unfold totalWeight. destruct (fetcherStep s l) as [s1|] eqn:Hfs.
  - assert (s1 = s') as -> by (destruct l; simpl in H; congruence || (unfold fetcherStep in Hfs; by destruct (fetcher s))).
    unfold fetcherStep in Hfs. unfold weight, openWeight, labelCost, fetchCost.
    pose proof (λ p b, workersWeight_grown (c_attempts c) p s b) as Hg.
    destruct (fetcher s) as [|m|e|e|r] eqn:Hf, l as [|m'|e'| | | | | | | | | | | |]; try done; repeat case_match; simplify_eq/=; rewrite ?Hf; simpl.
    + specialize (Hg (Partition m) []). rewrite app_nil_r in Hg. simpl in Hg. destruct (backlogOf (Partition m) s); simpl in *. lia.
    + lia.
    + specialize (Hg (Partition m) [m]). simpl in Hg. lia.
    + lia.
    + lia.
    + lia.
    + rewrite H0. simpl. lia.
  - assert (labelCost l = 0%nat ∧ fetcher s' = fetcher s ∧ (weight c s' < weight c s)%nat) as (-> & Hf & Hw);
      [|unfold openWeight; rewrite Hf; lia].
    unfold cstep in H. destruct l; try congruence;
      try (destruct (workers s !! p) eqn:Hp; [|done];
           split_and!; [done|by step_cases H|by eapply weight_workerStep]);
      (split_and!; [done|by step_cases H|]); step_cases H; unfold weight; simpl;
      repeat match goal with H : _ s = _ |- _ => rewrite H in * end; simpl in *; lia.
Qed.

Definition placeWeight (g : place) : nat :=
  match g with
  | PWait => 12
  | PConsume s => totalWeight s + 4
  | PClose _ => 3
  | PReturned _ => 2
  | PCancel => 1
  | PDone => 0
  end.
Definition processWeight (p : process) : nat := sum_list_with placeWeight (goroutines p).

Definition stepCost (q : plabel) : nat := match q with QConsumer _ l => labelCost l | _ => 0 end.

Lemma weight_moved i g g0 gs : gs !! i = Some g0 →
  (sum_list_with placeWeight (<[i := g]> gs) + placeWeight g0 = sum_list_with placeWeight gs + placeWeight g)%nat.
Proof.
  revert i. induction gs as [|x gs IH]; intros [|i] Hi; simpl in *; simplify_eq; [lia|]. specialize (IH i Hi). lia.
Qed.

Lemma weight_reach gs : sum_list_with placeWeight (reach <$> gs) = sum_list_with placeWeight gs.
Proof. induction gs as [|g gs IH]; [done|]. rewrite fmap_cons. cbn [sum_list_with]. rewrite IH. by destruct g. Qed.

Lemma processWeight_step p q p' :
  processInv p → q ≠ QStop → pstep p q = Some p' → (S (processWeight p') ≤ processWeight p + stepCost q)%nat.
Proof.
  intros Hinv Hq Hs. unfold processWeight. destruct q as [|i r|i l|i r|i|i]; [done|..]; cbn [pstep] in Hs;
    (destruct (goroutines p !! i) as [g|] eqn:Hi; [|done]);
    pose proof (λ g', weight_moved i g' g _ Hi) as Hw;
    pose proof (Forall_lookup_1 _ _ _ _ (inv_places _ Hinv) Hi) as Hg;
    destruct g as [|s|o|e| |]; try done; cbn [goroutineStep] in Hs.
  - destruct r as [[]|e]; simplify_eq; unfold moveTo; cbn [goroutines].
    + specialize (Hw (PConsume (if ctxEnded p then cancel start else start))).
      assert (placeWeight (PConsume (if ctxEnded p then cancel start else start)) = 10%nat) as Hten by by destruct (ctxEnded p).
      rewrite Hten in Hw. simpl in *. lia.
    + specialize (Hw (if ctxEnded p then PDone else PReturned (inr e))). destruct (ctxEnded p); simpl in *; lia.
  - destruct (consumerMove s l) as [g|] eqn:Hm; [|done]. simplify_eq.
    destruct (consumerMove_step _ _ _ Hm) as (s' & Hl & Hs' & ->).
    destruct Hg as (Hr & _). destruct (creachable_inv _ _ Hr) as (_ & _ & _ & Hcl).
    pose proof (totalWeight_step _ _ _ Hcl Hl Hs') as Ht. specialize (Hw (afterRun s')). simpl in Hw |- *.
    assert (placeWeight (afterRun s') ≤ totalWeight s' + 4)%nat by (unfold afterRun; destruct (fetcher s'); simpl; lia). lia.
  - simplify_eq. specialize (Hw (match o with Some e => PReturned e | None => PDone end)). simpl in *. destruct o; simpl in *; lia.
  - simplify_eq. specialize (Hw PCancel). simpl in *. lia.
  - simplify_eq. simpl. pose proof (weight_moved i PDone PCancel (reach <$> goroutines p)) as Hw'.
    rewrite list_lookup_fmap, Hi in Hw'. specialize (Hw' eq_refl). rewrite weight_reach in Hw'. simpl in Hw'. lia.
Qed.

Definition isDone (g : place) : bool := match g with PDone => true | _ => false end.

(** Once the context has ended, as long as a goroutine is left one can move. *)
Lemma ended_enabled p : processInv p → ctxEnded p = true → returned p ∨ ∃ q, q ≠ QStop ∧ is_Some (pstep p q).
Proof.
  intros Hinv He. destruct (decide (Forall (λ g, isDone g = true) (goroutines p))) as [Hd|Hd].
  { left. eapply Forall_impl; [exact Hd|]. by intros []. }
  right. apply not_Forall_Exists, Exists_exists in Hd as (g & Hin & Hg); [|apply _].
  apply list_elem_of_lookup in Hin as [i Hi]. pose proof (Forall_lookup_1 _ _ _ _ (inv_places _ Hinv) Hi) as Hok.
  assert (Hget : ∀ q, q ≠ QStop → is_Some (match q with
     | QWaited j _ | QConsumer j _ | QClosed j _ | QReport j | QCancel j => if decide (j = i) then goroutineStep p i g q else None
     | QStop => None end) → ∃ q, q ≠ QStop ∧ is_Some (pstep p q)).
  { intros q Hq [p' Hp']. exists q. split; [done|]. destruct q; try done; cbn [pstep]; case_decide; simplify_eq; rewrite Hi; eauto. }
  destruct g as [|s|o|e| |]; [| | | | |by destruct Hg].
  - apply (Hget (QWaited i (Ok tt))); [done|]. rewrite decide_True by done. eauto.
  - destruct Hok as (Hr & Hc & Hn).
    assert (∃ l, l ≠ LCancel ∧ is_Some (cstep c s l)) as (l & Hl & s' & Hs').
    { destruct (fetcher s) eqn:Hf.
      - exists (LFetchErr (plain "")). split; [done|]. simpl. unfold fetcherStep. rewrite Hf. eauto.
      - exists LDropDone. split; [done|]. simpl. unfold fetcherStep. rewrite Hf, Hc, He. eauto.
      - destruct (enabled c s) as [[r Hr']|?]; [by apply creachable_inv|by unfold backlogsClosed; rewrite Hf|congruence|done].
      - destruct (enabled c s) as [[r Hr']|?]; [by apply creachable_inv|by unfold backlogsClosed; rewrite Hf|congruence|done].
      - by destruct (Hn r). }
    apply (Hget (QConsumer i l)); [done|]. rewrite decide_True by done. cbn [goroutineStep]. unfold consumerMove.
    rewrite Hs'. destruct l; eauto. done.
  - apply (Hget (QClosed i (Ok tt))); [done|]. rewrite decide_True by done. eauto.
  - apply (Hget (QReport i)); [done|]. rewrite decide_True by done. eauto.
  - apply (Hget (QCancel i)); [done|]. rewrite decide_True by done. eauto.
Qed.

(** The messages the reader hands over in a schedule. *)
Definition isFetch (q : plabel) : bool := match q with QConsumer _ (LFetched _) => true | _ => false end.
Definition fetches (qs : list plabel) : nat := length (filter (λ q, isFetch q = true) qs).

Lemma pschedule_weight qs p p' :
  processInv p → QStop ∉ qs → pschedule p qs = Some p' →
  (length qs + processWeight p' ≤ processWeight p + fetchCost * fetches qs)%nat ∧ processInv p'.
Proof.
  revert p. induction qs as [|q qs IH]; intros p Hinv Hq Hs; simpl in Hs; [simplify_eq; split; [apply Nat.le_add_r|done]|].
  apply not_elem_of_cons in Hq as [Hne Hq]. destruct (pstep p q) as [p1|] eqn:Hp; [|done].
  pose proof (processWeight_step _ _ _ Hinv (not_eq_sym Hne) Hp) as Hw.
  destruct (IH p1 (pstep_inv _ _ _ Hinv Hp) Hq Hs) as [Hl ?]. split; [|done].
  assert (fetchCost * fetches (q :: qs) = stepCost q + fetchCost * fetches qs)%nat as ->; [|simpl; lia].
  unfold fetches. rewrite filter_cons. case_decide as Hd; destruct q as [| |? []| | |]; try done; cbn [length stepCost labelCost];
    rewrite ?Nat.mul_succ_r; lia.
Qed.

(** ** Properties *)

(** C34. Once its context has ended, because the process is being stopped or because one
    of the topics gave up, the orchestrator comes to an end. From any state it can
    be in there is a bound on the steps left, a fixed number more for each message
    the readers still hand over, and until every goroutine is through one of them
    can move: none of them waits for another topic, for its own workers or for a
    committer that is gone. *)
Theorem orchestrator_stops p :
  preachable p →
  ∃ bound cost, ∀ qs p', QStop ∉ qs → pschedule p qs = Some p' →
    (length qs ≤ bound + cost * fetches qs)%nat ∧
    (ctxEnded p' = true → returned p' ∨ ∃ q, q ≠ QStop ∧ is_Some (pstep p' q)).
Proof.
  intros Hinv%preachable_inv. exists (processWeight p), fetchCost. intros qs p' Hq Hs.
  destruct (pschedule_weight qs p p' Hinv Hq Hs) as [Hl Hinv']. split; [lia | by apply ended_enabled].
Qed.

(** C35. What [run] returns: no error only when it was asked to stop; an error only after
    the context was cancelled for every topic. While it runs, every consumer in it
    is in a state [Consumer] reaches on its own, seeing the shared context. *)
Theorem orchestrator_verdict p :
  preachable p →
  (returned p → (first p = None → asked p = true) ∧ (is_Some (first p) → cancelled p = true)) ∧
  ∀ i s, goroutines p !! i = Some (PConsume s) → creachable c s ∧ ctxDone s = ctxEnded p.
Proof.
  intros Hreach. pose proof (preachable_inv _ Hreach) as [Hp Hf Hc Hlen]. split.
  - intros Hret. split.
    + intros Hnone. destruct (goroutines p) as [|g gs] eqn:Hg; [done|].
      unfold returned in Hret. rewrite Hg in Hret. inversion Hret; subst. inversion Hp as [|?? Hd]; subst.
      destruct Hd as [?|[? Hs]]; [done|congruence].
    + intros [?|Hin]%Hf; [done|]. unfold returned in Hret. rewrite Forall_forall in Hret. by specialize (Hret _ Hin).
  - intros i s Hi. destruct (Forall_lookup_1 _ _ _ _ Hp Hi) as (? & ? & _). done.
Qed.
End orchestrator.

(** ** At work *)

#[local] Existing Instance sampleJSON.

(** Nothing was ever published on the transfer topic. The transaction topic's
    consumer works through the halt of [ConsumerSafety.haltSchedule] all the same;
    its error stops the wait for the other topic. *)
Definition haltedRun : list plabel :=
  [QWaited 1 (Ok tt)] ++ (QConsumer 1 <$> haltSchedule) ++
  [QClosed 1 (Ok tt); QReport 1; QCancel 1; QWaited 0 (Err (sentinel_error ContextDone "context canceled"))].
Definition runOf (qs : list plabel) : process := default started (pschedule sample started qs).

(** It runs, and ends with both goroutines through, an error, and nobody having
    asked it to stop. *)
Definition endsHalted (o : option process) : bool :=
  match o with
  | Some p => negb (asked p) && forallb isDone (goroutines p) && (if first p then true else false)
  | None => false
  end.

Lemma endsHalted_facts (o : option process) : endsHalted o = true →
  o = Some (default started o) ∧
  asked (default started o) = false ∧ returned (default started o) ∧ is_Some (first (default started o)).
Proof.
  destruct o as [p|]; [|done]. simpl. intros [[Ha%negb_true_iff Hd]%andb_prop Hf]%andb_prop. split_and!; [done|done| |].
  - unfold returned. apply Forall_forall. intros g Hg. rewrite forallb_forall in Hd.
    specialize (Hd g ltac:(by apply list_elem_of_In)). by destruct g.
  - destruct (first p); [by eexists | done].
Qed.

Lemma haltedRun_ends : endsHalted (pschedule sample started haltedRun) = true.
Proof. evaluate. Qed.

Lemma haltedRun_runs : pschedule sample started haltedRun = Some (runOf haltedRun).
Proof. unfold runOf. exact (proj1 (endsHalted_facts _ haltedRun_ends)). Qed.

Lemma haltedRun_reachable : preachable sample (runOf haltedRun).
Proof. exact (ex_intro _ haltedRun haltedRun_runs). Qed.

Lemma haltedRun_facts :
  asked (runOf haltedRun) = false ∧ returned (runOf haltedRun) ∧ is_Some (first (runOf haltedRun)).
Proof. unfold runOf. exact (proj2 (endsHalted_facts _ haltedRun_ends)). Qed.

Lemma orchestrator_verdict_witness :
  asked (runOf haltedRun) = false ∧ cancelled (runOf haltedRun) = true.
Proof.
  destruct haltedRun_facts as (Ha & Hr & Hf). split; [exact Ha|].
  apply (orchestrator_verdict sample (runOf haltedRun) haltedRun_reachable); [exact Hr | exact Hf].
Defined.

Lemma haltedRun_unasked : QStop ∉ haltedRun.
Proof.
  intros Hin. assert (Hb : existsb (λ q, match q with QStop => true | _ => false end) haltedRun = false) by evaluate.
  apply not_true_iff_false in Hb. apply Hb, existsb_exists. exists QStop. split; [by apply list_elem_of_In | done].
Qed.

Lemma haltedRun_fetches : fetches haltedRun = 3%nat.
Proof. evaluate. Qed.

Lemma orchestrator_stops_witness :
  ∃ bound cost, (length haltedRun ≤ bound + cost * 3)%nat.
Proof.
  destruct (orchestrator_stops sample started) as (bound & cost & H); [by exists []|].
  exists bound, cost. rewrite <- haltedRun_fetches.
  exact (proj1 (H haltedRun (runOf haltedRun) haltedRun_unasked haltedRun_runs)).
Defined.
