(* ===== verification/TelemetryProcess.v ===== *)
(** * Instrumentation of a process ([go/internal/telemetry], the rest)

    Around the decorated store and ledger of [Telemetry]: a span for each attempt at
    a trigger and for each Twirp call, the consumer-lag gauge, what a database
    collision is recorded as, and how a binary configures its exporters, builds
    them, and flushes them when it stops. The exporters and providers are
    OpenTelemetry's: what building one or flushing one answers is an argument. *)

From S2P Require Import Prelude GoMath Proto EventStore Ledger Effects Orchestrator Telemetry Consumer KafkaReader.

(** ** saga.go *)

Section saga.
Context {C : Codec} (canceled : bool).

(** What [SagaAttempts] observes of one attempt, around the attempt itself. *)
Definition SagaAttempts (t : Trigger) (attempt : Z) (handle : T (result unit)) : T (result unit) :=
  do began := inner timeNow in
  telling (startSpan ("saga.handle " +:+ tr_AggregateType t)
    [(keyAggregateType, AString (tr_AggregateType t)); (keyAggregateID, AString (tr_AggregateID t));
     (keyEventType, AString (tr_EventType t)); ("money_flow.sequence", AInt (tr_Sequence t));
     ("money_flow.global_seq", AInt (tr_GlobalSeq t)); ("money_flow.saga.attempt", AInt attempt)]) ;!
  do r := handle in
  let outcome := baseOutcome canceled (errOf r) in
  telling (finish outcome (errOf r)) ;!
  telling endSpan ;!
  durationOf "money_flow.saga.handle.duration" began
    [(keyAggregateType, AString (tr_AggregateType t)); (keyEventType, AString (tr_EventType t));
     (keyOutcome, AString outcome)] ;!
  tret r.

(** [SagaHandler]: [observedHandler.Handle] *)
Definition SagaHandler (handle : Trigger → T (result unit)) (t : Trigger) : T (result unit) :=
  SagaAttempts t 1 (handle t).

(** The callback [RegisterConsumerLag] registers, of what was measured. *)
Definition lagAttrs (group topic : string) (partition : Z) : list attr :=
  [("messaging.consumer.group.name", AString group); ("messaging.destination.name", AString topic);
   ("messaging.destination.partition.id", AString (decimal partition))].
Definition lagCallback (group topic : string) (measured : result (gmap Z Z)) (t : Rec) : Rec :=
  match measured with
  | Err err => emit (Warned "cannot measure consumer lag" [("group", AString group); ("topic", AString topic)] err) t
  | Ok lag =>
      foldl (λ t x, emit (Observed "money_flow.saga.consumer.lag" (snd x) (lagAttrs group topic (fst x))) t)
        t (map_to_list lag)
  end.
End saga.

(** ** run.go *)

(** [telemetry.Orchestrator], handling one trigger as a binary's consumer has it
    handled: observed, over the instrumented store and ledger. *)
Definition instrumentedHandle {C : Codec} (canceled : bool) (direct : StreamWrite → bool) (o : Orchestrator)
    (attempt : Z) (t : Trigger) : T (result unit) :=
  SagaAttempts canceled t attempt (instrument canceled direct (Handle o t)).

(** ** twirp.go *)

Definition codeName (c : twirp_code) : string :=
  match c with
  | Internal => "internal"
  | InvalidArgument => "invalid_argument"
  | FailedPrecondition => "failed_precondition"
  | NotFound => "not_found"
  | Aborted => "aborted"
  end.

Definition twirpCode (err : option error) : string :=
  match err with
  | None => outcomeOK
  | Some e => match e_code e with Some c => codeName c | None => codeName Internal end
  end.

(** [twirp.ServerHTTPStatusFromErrorCode]: the codes the program uses are client
    errors, all but [internal]. *)
Class TwirpStatus : Type := serverStatus : string → Z.
Class TwirpStatusLaws (S : TwirpStatus) : Prop := {
  status_internal : 500 ≤ serverStatus (codeName Internal);
  status_client c : c ≠ Internal → serverStatus (codeName c) < 500
}.

Section interceptor.
Context {C : Codec} {TS : TwirpStatus}.

(** [Interceptor], for one call of [next]: what the request's [GetId] gives, if it
    has one, is [id]. *)
Definition Interceptor {A} (pkg service method : string) (id : option string) (next : T (result A)) : T (result A) :=
  do began := inner timeNow in
  let fullService := pkg +:+ "." +:+ service in
  telling (startSpan (fullService +:+ "/" +:+ method)
    [("rpc.system", AString "twirp"); ("rpc.service", AString fullService); ("rpc.method", AString method)]) ;!
  telling (match id with
           | Some i => if bool_decide (i = "") then λ t, t else onSpan (withAttributes [(keyAggregateID, AString i)])
           | None => λ t, t
           end) ;!
  do r := next in
  let code := twirpCode (errOf r) in
  telling (onSpan (withAttributes [(keyTwirpErrorCode, AString code)])) ;!
  telling (match errOf r with
           | Some e => if 500 <=? serverStatus code then onSpan (withError e) else λ t, t
           | None => λ t, t
           end) ;!
  durationOf "rpc.server.call.duration" began
    [("rpc.service", AString fullService); ("rpc.method", AString method); (keyTwirpErrorCode, AString code)] ;!
  telling endSpan ;!
  tret r.
End interceptor.

(** ** setup.go *)

Record Config : Type := mkConfig {
  ServiceName : string;
  Traces : bool;
  Metrics : bool;
  Logs : bool;
  LogLevel : Z
}.

Definition exporting (c : Config) : bool := Traces c || Metrics c || Logs c.

(** ASCII case folding; no letter of [true] folds to anything else. *)
Definition foldAscii (c : Ascii.ascii) : Ascii.ascii :=
  let n := Ascii.nat_of_ascii c in
  if ((65 <=? n)%nat && (n <=? 90)%nat)%bool then Ascii.ascii_of_nat (n + 32) else c.
Fixpoint foldCase (s : string) : string :=
  match s with EmptyString => EmptyString | String c s => String (foldAscii c) (foldCase s) end.

Definition protocolKeys : list string :=
  ["OTEL_EXPORTER_OTLP_PROTOCOL"; "OTEL_EXPORTER_OTLP_TRACES_PROTOCOL";
   "OTEL_EXPORTER_OTLP_METRICS_PROTOCOL"; "OTEL_EXPORTER_OTLP_LOGS_PROTOCOL"].

(** [ConfigFromEnv]; [unmarshalLevel] is [slog.Level.UnmarshalText]. *)
Definition ConfigFromEnv (unmarshalLevel : string → result Z) (serviceName : string) (getenv : string → string)
    : result Config :=
  let? _ := rfold (λ _ key,
      let protocol := getenv key in
      if bool_decide (protocol ≠ "" ∧ protocol ≠ "http/protobuf") then
        Err (plain ("telemetry: " +:+ key +:+ "=" +:+ quoted protocol +:+ ": only http/protobuf is supported"))
      else Ok tt) tt protocolKeys in
  let disabled := bool_decide (foldCase (getenv "OTEL_SDK_DISABLED") = "true") in
  let shared := bool_decide (getenv "OTEL_EXPORTER_OTLP_ENDPOINT" ≠ "") in
  let exported signal :=
    negb disabled && (shared || bool_decide (getenv ("OTEL_EXPORTER_OTLP_" +:+ signal +:+ "_ENDPOINT") ≠ "")) in
  let cfg level := mkConfig serviceName (exported "TRACES") (exported "METRICS") (exported "LOGS") level in
  let level := getenv "LOG_LEVEL" in
  if bool_decide (level = "") then Ok (cfg 0)
  else
    let? l := rmap_err (wrapf "telemetry: LOG_LEVEL: ") (unmarshalLevel level) in
    Ok (cfg l).

(** A provider that has been started and needs flushing. *)
Inductive provider : Type := TracerProvider | LoggerProvider | MeterProvider.

Record Telemetry_ : Type := mkTelemetry {
  hasTracer : bool;
  hasMeter : bool;
  exportsLogs : bool;
  shutdown : list provider
}.

(** What the exporters' and the runtime's constructors answer, and what flushing a
    provider does. *)
Record exporters : Type := mkExporters {
  newResource : result unit;
  traceExporter : result unit;
  logExporter : result unit;
  metricExporter : result unit;
  runtimeStart : result unit;
  flush : provider → result unit
}.

(** [Shutdown], and the providers it stopped. *)
Definition Shutdown (x : exporters) (t : Telemetry_) : list provider * option error :=
  (shutdown t, errorsJoin (omap (λ p, errOf (flush x p)) (shutdown t))).

(** [Setup]: the providers stopped on the way to a failure, and what it returns. *)
Definition giveUp (x : exporters) (t : Telemetry_) (err : error) : list provider * result Telemetry_ :=
  let '(stopped, e) := Shutdown x t in
  (stopped, Err (default err (errorsJoin (err :: option_list e)))).

Definition setupTraces (cfg : Config) (x : exporters) (t : Telemetry_) : result Telemetry_ :=
  if Traces cfg then
    let? _ := rmap_err (wrapf "telemetry: trace exporter: ") (traceExporter x) in
    Ok (mkTelemetry true (hasMeter t) (exportsLogs t) (shutdown t ++ [TracerProvider]))
  else Ok t.
Definition setupLogs (cfg : Config) (x : exporters) (t : Telemetry_) : result Telemetry_ :=
  if Logs cfg then
    let? _ := rmap_err (wrapf "telemetry: log exporter: ") (logExporter x) in
    Ok (mkTelemetry (hasTracer t) (hasMeter t) true (shutdown t ++ [LoggerProvider]))
  else Ok t.
(** The meter provider is registered before the runtime metrics are started on it. *)
Definition setupMetrics (cfg : Config) (x : exporters) (t : Telemetry_) : Telemetry_ * option error :=
  if Metrics cfg then
    match rmap_err (wrapf "telemetry: metric exporter: ") (metricExporter x) with
    | Err e => (t, Some e)
    | Ok _ =>
        (mkTelemetry (hasTracer t) true (exportsLogs t) (shutdown t ++ [MeterProvider]),
         errOf (rmap_err (wrapf "telemetry: runtime metrics: ") (runtimeStart x)))
    end
  else (t, None).

Definition Setup (cfg : Config) (x : exporters) : list provider * result Telemetry_ :=
  let noop := mkTelemetry false false false [] in
  if negb (exporting cfg) then ([], Ok noop)
  else
    match newResource x with
    | Err e => ([], Err e)
    | Ok _ =>
        match setupTraces cfg x noop with
        | Err e => giveUp x noop e
        | Ok t1 =>
            match setupLogs cfg x t1 with
            | Err e => giveUp x t1 e
            | Ok t2 =>
                match setupMetrics cfg x t2 with
                | (t3, Some e) => giveUp x t3 e
                | (t3, None) => ([], Ok t3)
                end
            end
        end
    end.

(** *** [RunWith] *)

(** What the process did, in order. *)
Inductive deed : Type :=
| Started                              (* Setup returned *)
| Ran                                  (* run returned *)
| LoggedStopped (err : option error)   (* the line saying why it stopped *)
| Flushed (ps : list provider)         (* Shutdown *)
| Complained (msg : string).           (* a line on stderr *)

Definition RunWith (cfg : Config) (x : exporters) (run : Telemetry_ → result unit) : list deed * result unit :=
  match snd (Setup cfg x) with
  | Err e => ([Complained (ServiceName cfg +:+ ": " +:+ e_msg e)], Err e)
  | Ok t =>
      let runErr := run t in
      let '(stopped, e) := Shutdown x t in
      ([Started; Ran; LoggedStopped (errOf runErr); Flushed stopped] ++
         match e with
         | Some e => [Complained (ServiceName cfg +:+ ": flushing telemetry: " +:+ e_msg e)]
         | None => []
         end, runErr)
  end.

(** ** What the observers leave alone *)

Lemma run_do {C : Codec} {A B} (m : T A) (f : A → T B) w t :
  run w (tbind m f t) = match run w (m t) with (w', (t', a)) => run w' (f a t') end.
Proof. unfold tbind. rewrite run_pbind. by destruct (run w (m t)) as [w' [t' a]]. Qed.

Lemma run_inner {C : Codec} {A} (p : prog A) w t :
  run w (inner p t) = match run w p with (w', a) => (w', (t, a)) end.
Proof. unfold inner. rewrite run_pbind. by destruct (run w p). Qed.

Lemma run_telling {C : Codec} f w t : run w (telling f t) = (w, (f t, tt)).
Proof. done. Qed.

Lemma run_tret {C : Codec} {A} (a : A) w t : run w (tret a t) = (w, (t, a)).
Proof. done. Qed.

Lemma run_timeNow {C : Codec} w : run w timeNow = (w, w_now w).
Proof. done. Qed.

Lemma run_durationOf {C : Codec} hist began attrs w t :
  run w (durationOf hist began attrs t) = (w, (emit (Measured hist (Seconds (i64 (w_now w - began))) attrs) t, tt)).
Proof. done. Qed.

Local Ltac observing :=
  repeat first [ rewrite run_do | rewrite run_inner | rewrite run_telling | rewrite run_tret | rewrite run_timeNow
               | rewrite run_durationOf | progress cbv beta iota zeta ].

Section observed.
Context {C : Codec} (canceled : bool) (direct : StreamWrite → bool).

Definition attemptFault (r : result unit) : option error :=
  match r with
  | Ok _ => None
  | Err e => if isCanceled canceled e then None else Some e
  end.

Lemma finish_span outcome err t sp rest :
  active t = sp :: rest →
  finish outcome err t =
    mkRec (mkSpan (sp_name sp) (sp_attrs sp ++ [(keyOutcome, AString outcome)])
             (if bool_decide (outcome = outcomeError ∨ outcome = outcomeInvalidRequest)
              then match err with Some e => Some e | None => sp_error sp end else sp_error sp) :: rest) (sent t).
Proof.
  intros Ha. unfold finish, onSpan. rewrite Ha. simpl. case_bool_decide; [|done]. by destruct err.
Qed.

(** A trigger handled under observation: the saga step does what it does and answers
    what it answers; the attempt's span is closed and carries the error unless the
    process was being stopped, and each store and ledger call of the step is a
    span inside it. *)
Theorem instrumentedHandle_same (o : Orchestrator) n tr w t :
  let '(w', r) := run w (Handle o tr) in
  ∃ t' new sp hist, run w (instrumentedHandle canceled direct o n tr t) = (w', (t', r)) ∧
    active t' = active t ∧
    sent t' = sent t ++ new ++ [Ended sp (sp_name <$> head (active t)); hist] ∧
    sp_name sp = "saga.handle " +:+ tr_AggregateType tr ∧ sp_error sp = attemptFault r ∧
    Forall (λ x, snd x = Some (sp_name sp)) (ended new).
Proof.
  destruct (run w (Handle o tr)) as [w' r] eqn:Hrun.
  unfold instrumentedHandle, SagaAttempts. observing.
  match goal with |- context [instrument canceled direct (Handle o tr) ?u] =>
    destruct (instrumented_same canceled direct (Handle o tr) w u) as (t1 & Hr & Ha & (new & Hs & Hn) & _) end.
  rewrite Hr, Hrun. cbn [fst snd active startSpan sent head] in *. observing. rewrite (finish_span _ _ _ _ _ Ha). unfold endSpan, emit. simpl.
  eexists _, new, _, _. split; [reflexivity|]. split; [done|]. split; [by simpl; rewrite Hs, <- !app_assoc|].
  split; [done|]. split; [|done].
  unfold attemptFault, baseOutcome. destruct r as [[]|e]; simpl; [done|]. by destruct (isCanceled canceled e).
Qed.
End observed.

Section rpc.
Context {C : Codec} {TS : TwirpStatus} {TSL : TwirpStatusLaws TS}.

(** The errors a caller sees as a fault of the server. *)
Definition serverFault {A} (r : result A) : option error :=
  match r with
  | Err e => match e_code e with Some Internal | None => Some e | Some _ => None end
  | Ok _ => None
  end.

Lemma serverStatus_fault {A} (r : result A) e : r = Err e →
  (500 <=? serverStatus (twirpCode (Some e))) = match serverFault r with Some _ => true | None => false end.
Proof.
  intros ->. unfold twirpCode, serverFault. pose proof status_internal.
  destruct (e_code e) as [[]|]; first [by apply Z.leb_le | by apply Z.leb_gt, status_client].
Qed.

(** An intercepted call answers what the method answers; its span is closed, and is
    marked failed exactly when the caller is told of a server fault. *)
Theorem intercepted_same {A} pkg service method id (next : prog (result A)) w t :
  let '(w', r) := run w next in
  ∃ t' sp hist, run w (Interceptor pkg service method id (inner next) t) = (w', (t', r)) ∧
    active t' = active t ∧ sent t' = sent t ++ [hist; Ended sp (sp_name <$> head (active t))] ∧
    sp_name sp = (pkg +:+ "." +:+ service) +:+ "/" +:+ method ∧ sp_error sp = serverFault r.
Proof.
  destruct (run w next) as [w' r] eqn:Hrun.
  set (first := match id with
    | Some i => if bool_decide (i = "") then λ t, t else onSpan (withAttributes [(keyAggregateID, AString i)])
    | None => λ t, t end).
  assert (Hfirst : ∀ name attrs, ∃ attrs', first (startSpan name attrs t) = startSpan name attrs' t).
  { intros. unfold first, onSpan, startSpan. destruct id as [i|]; [case_bool_decide|]; simpl; eauto. }
  unfold Interceptor. fold first. observing.
  match goal with |- context [startSpan ?n ?a t] => destruct (Hfirst n a) as [attrs' ->] end.
  rewrite Hrun. observing.
  unfold serverFault. destruct r as [a|e]; simpl.
  - eexists _, _, _. split; [reflexivity|]. simpl. split; [done|].
    split; [by rewrite <- app_assoc | done].
  - pose proof (serverStatus_fault (Err e : result A) e eq_refl) as Hst. simpl in Hst. rewrite Hst.
    destruct (e_code e) as [[]|]; simpl; eexists _, _, _; (split; [reflexivity|]); simpl;
      (split; [done|]; split; [by rewrite <- app_assoc | done]).
Qed.
End rpc.

(** Twirp's table, for the codes the program uses. *)
#[local] Instance sampleStatus : TwirpStatus := λ code, if bool_decide (code = "internal") then 500 else 400.
#[local] Instance sampleStatusLaws : TwirpStatusLaws sampleStatus.
Proof. split; [done|]. by intros []. Qed.

(** ** Configuration, start and stop *)

(** A binary starts only when every protocol asked for is the one it has and its log
    level reads; it then exports a signal exactly when the SDK is not disabled and
    an endpoint, the shared one or the signal's own, is configured. *)
Theorem ConfigFromEnv_exports lvl service getenv :
  let protocolOk key := getenv key = "" ∨ getenv key = "http/protobuf" in
  let endpoint signal := getenv "OTEL_EXPORTER_OTLP_ENDPOINT" ≠ "" ∨
                         getenv ("OTEL_EXPORTER_OTLP_" +:+ signal +:+ "_ENDPOINT") ≠ "" in
  let enabled := foldCase (getenv "OTEL_SDK_DISABLED") ≠ "true" in
  match ConfigFromEnv lvl service getenv with
  | Ok cfg => Forall protocolOk protocolKeys ∧ ServiceName cfg = service ∧
      (Traces cfg = true ↔ enabled ∧ endpoint "TRACES") ∧ (Metrics cfg = true ↔ enabled ∧ endpoint "METRICS") ∧
      (Logs cfg = true ↔ enabled ∧ endpoint "LOGS") ∧
      (getenv "LOG_LEVEL" = "" ∧ LogLevel cfg = 0 ∨ getenv "LOG_LEVEL" ≠ "" ∧ lvl (getenv "LOG_LEVEL") = Ok (LogLevel cfg))
  | Err _ => ¬ Forall protocolOk protocolKeys ∨ (getenv "LOG_LEVEL" ≠ "" ∧ ∃ e, lvl (getenv "LOG_LEVEL") = Err e)
  end.
Proof.
  intros protocolOk endpoint enabled. unfold ConfigFromEnv.
  assert (Hp : match rfold (λ _ key, let protocol := getenv key in
                 if bool_decide (protocol ≠ "" ∧ protocol ≠ "http/protobuf") then
                   Err (plain ("telemetry: " +:+ key +:+ "=" +:+ quoted protocol +:+ ": only http/protobuf is supported"))
                 else Ok tt) tt protocolKeys with
               | Ok _ => Forall protocolOk protocolKeys | Err _ => ¬ Forall protocolOk protocolKeys end).
  { generalize protocolKeys as keys. induction keys as [|k keys IH]; simpl; [constructor|].
    case_bool_decide as Hk; simpl; [intros Hall; inversion Hall; subst; unfold protocolOk in *; tauto|].
    destruct (rfold _ _ keys); [constructor; [unfold protocolOk; destruct (decide (getenv k = "")), (decide (getenv k = "http/protobuf")); tauto|done]|].
    intros Hall. by inversion Hall. }
  destruct (rfold _ _ protocolKeys) as [?|e]; [|by left]. simpl.
  assert (He : ∀ signal, negb (bool_decide (foldCase (getenv "OTEL_SDK_DISABLED") = "true")) &&
     (bool_decide (getenv "OTEL_EXPORTER_OTLP_ENDPOINT" ≠ "") ||
      bool_decide (getenv ("OTEL_EXPORTER_OTLP_" +:+ signal +:+ "_ENDPOINT") ≠ "")) = true ↔ enabled ∧ endpoint signal).
  { intros signal. unfold enabled, endpoint. rewrite andb_true_iff, orb_true_iff, negb_true_iff, bool_decide_eq_false, !bool_decide_eq_true. tauto. }
  destruct (decide (getenv "LOG_LEVEL" = "")) as [Hl|Hl];
    [rewrite (bool_decide_true (getenv "LOG_LEVEL" = "") Hl)|rewrite (bool_decide_false (getenv "LOG_LEVEL" = "") Hl)];
    simpl; [refine (conj Hp (conj eq_refl (conj (He "TRACES") (conj (He "METRICS") (conj (He "LOGS") _))))); by left|].
  destruct (lvl (getenv "LOG_LEVEL")) as [l|e] eqn:Hlv; simpl; [|right; eauto].
  refine (conj Hp (conj eq_refl (conj (He "TRACES") (conj (He "METRICS") (conj (He "LOGS") _))))). by right.
Qed.

(** Starting telemetry leaks nothing: when it fails, every provider that was started
    has been stopped, and nothing else; when it succeeds nothing was stopped, the
    signals asked for are the ones with a provider, and stopping it stops exactly
    those, traces and logs before the metrics that count them. *)
Theorem Setup_leaks_nothing cfg x :
  let asked := (if Traces cfg then [TracerProvider] else []) ++ (if Logs cfg then [LoggerProvider] else []) ++
               (if Metrics cfg then [MeterProvider] else []) in
  match Setup cfg x with
  | (stopped, Ok t) => stopped = [] ∧ shutdown t = asked ∧ fst (Shutdown x t) = asked ∧
      hasTracer t = Traces cfg ∧ exportsLogs t = Logs cfg ∧ hasMeter t = Metrics cfg
  | (stopped, Err _) => stopped `prefix_of` asked ∧
      (newResource x = Ok tt → traceExporter x = Ok tt → logExporter x = Ok tt → metricExporter x = Ok tt → stopped = asked)
  end.
Proof.
  unfold Setup, exporting, setupTraces, setupLogs, setupMetrics, giveUp, Shutdown.
  destruct cfg as [nm tr mt lg lv], x as [nr te le me rs fl]. simpl.
  destruct nr as [[]|]; [|by destruct tr, mt, lg; simpl; split_and?; eauto using prefix_nil].
  destruct te as [[]|], le as [[]|], me as [[]|], rs as [[]|], tr, mt, lg; simpl;
    split_and?; done || (eexists; reflexivity) || naive_solver.
Qed.

(** A binary returns exactly what its run returned, and has said so in its log
    before the last flush, which comes after everything else. *)
Theorem RunWith_flushes_last cfg x run :
  match snd (Setup cfg x) with
  | Ok t => snd (RunWith cfg x run) = run t ∧ ∃ complaints,
      fst (RunWith cfg x run) = [Started; Ran; LoggedStopped (errOf (run t)); Flushed (shutdown t)] ++ complaints ∧
      (complaints = [] ↔ ∀ p, p ∈ shutdown t → flush x p = Ok tt)
  | Err e => snd (RunWith cfg x run) = Err e
  end.
Proof.
  unfold RunWith. destruct (Setup cfg x) as [st [t|e]]; simpl; [|done]. split; [done|]. eexists. split; [reflexivity|].
  unfold errorsJoin. generalize (shutdown t) as ps. induction ps as [|p ps IH]; simpl.
  { split; [|done]. intros _ p ?%elem_of_nil. done. }
  destruct (flush x p) as [[]|e] eqn:Hp; simpl.
  - rewrite IH. split; [intros H q [->|?]%elem_of_cons; auto | intros H q ?; apply H; by right].
  - split; [done|]. intros H. specialize (H p ltac:(left)). congruence.
Qed.
