(* ===== verification/TelemetryLog.v ===== *)
(** * The process log and the database tracer ([go/internal/telemetry], [log.go], [pgx.go])

    The handlers a process's logger is made of, as [slog] composes them: the JSON
    handler, the OTLP bridge held to the same level, and the one that stamps the
    active span on what is printed. A logger derived from it by any number of [With]
    and [WithGroup] is a handler too. And what the pool's tracer makes of a lost race
    for a sequence.

    What is shown: a record is exported exactly when it is printed, with the same
    attributes but for the ones each side adds on its own; and the tracer reports a
    fault exactly for the errors the store does not translate to a conflict. *)

From S2P Require Import Prelude Proto EventStore Ledger Effects Postgres Telemetry TelemetryProcess.

(** ** log.go *)

(** A record: its level, message and attributes, each attribute with the groups it is in. *)
Definition scoped : Type := list string * attr.
Record logRecord : Type := mkLog { l_level : Z; l_message : string; l_attrs : list attr }.

(** The span a context carries, if it is a valid one. *)
Record spanContext : Type := mkSpanContext { TraceID : string; SpanID : string }.

Inductive logHandler : Type :=
| JSONHandler (level : Z) (attrs : list scoped) (groups : list string)
| BridgeHandler (attrs : list scoped) (groups : list string)
| traceContext (h : logHandler)
| atLeast (h : logHandler) (level : Z)
| MultiHandler (h1 h2 : logHandler).

(** What comes out: a JSON line, or an exported record with the span it belongs to. *)
Inductive logged : Type :=
| Printed (level : Z) (message : string) (attrs : list scoped)
| Exported (sc : option spanContext) (level : Z) (message : string) (attrs : list scoped).

Fixpoint WithAttrs (attrs : list attr) (h : logHandler) : logHandler :=
  match h with
  | JSONHandler level own groups => JSONHandler level (own ++ ((λ a, (groups, a)) <$> attrs)) groups
  | BridgeHandler own groups => BridgeHandler (own ++ ((λ a, (groups, a)) <$> attrs)) groups
  | traceContext h => traceContext (WithAttrs attrs h)
  | atLeast h level => atLeast (WithAttrs attrs h) level
  | MultiHandler h1 h2 => MultiHandler (WithAttrs attrs h1) (WithAttrs attrs h2)
  end.

Fixpoint WithGroup (name : string) (h : logHandler) : logHandler :=
  match h with
  | JSONHandler level own groups => JSONHandler level own (groups ++ [name])
  | BridgeHandler own groups => BridgeHandler own (groups ++ [name])
  | traceContext h => traceContext (WithGroup name h)
  | atLeast h level => atLeast (WithGroup name h) level
  | MultiHandler h1 h2 => MultiHandler (WithGroup name h1) (WithGroup name h2)
  end.

(** The bridge is asked whether its provider wants the level. *)
Section logging.
Variable bridged : Z → bool.

Fixpoint Enabled (h : logHandler) (level : Z) : bool :=
  match h with
  | JSONHandler own _ _ => own <=? level
  | BridgeHandler _ _ => bridged level
  | traceContext h => Enabled h level
  | atLeast h own => (own <=? level) && Enabled h level
  | MultiHandler h1 h2 => Enabled h1 level || Enabled h2 level
  end.

Definition stamped (sc : option spanContext) (r : logRecord) : logRecord :=
  match sc with
  | Some sc => mkLog (l_level r) (l_message r)
      (l_attrs r ++ [("trace_id", AString (TraceID sc)); ("span_id", AString (SpanID sc))])
  | None => r
  end.

Fixpoint HandleRecord (h : logHandler) (sc : option spanContext) (r : logRecord) : list logged :=
  match h with
  | JSONHandler _ own groups => [Printed (l_level r) (l_message r) (own ++ ((λ a, (groups, a)) <$> l_attrs r))]
  | BridgeHandler own groups => [Exported sc (l_level r) (l_message r) (own ++ ((λ a, (groups, a)) <$> l_attrs r))]
  | traceContext h => HandleRecord h sc (stamped sc r)
  | atLeast h _ => HandleRecord h sc r
  | MultiHandler h1 h2 =>
      (if Enabled h1 (l_level r) then HandleRecord h1 sc r else []) ++
      (if Enabled h2 (l_level r) then HandleRecord h2 sc r else [])
  end.

Definition newLogger (cfg : Config) (exports : bool) : logHandler :=
  let h := traceContext (WithAttrs [("service", AString (ServiceName cfg))] (JSONHandler (LogLevel cfg) [] [])) in
  if exports then MultiHandler h (atLeast (BridgeHandler [] []) (LogLevel cfg)) else h.

(** [Logger.Log], of a logger derived from it. *)
Inductive derivation : Type := With (attrs : list attr) | Group (name : string).
Definition derived (ds : list derivation) (h : logHandler) : logHandler :=
  foldl (λ h d, match d with With attrs => WithAttrs attrs h | Group name => WithGroup name h end) h ds.
Definition log (h : logHandler) (sc : option spanContext) (r : logRecord) : list logged :=
  if Enabled h (l_level r) then HandleRecord h sc r else [].

(** What the derivations add, and the groups they leave open. *)
Definition added (ds : list derivation) : list scoped * list string :=
  foldl (λ acc d, match d with
                  | With attrs => (fst acc ++ ((λ a, (snd acc, a)) <$> attrs), snd acc)
                  | Group name => (fst acc, snd acc ++ [name])
                  end) ([], []) ds.

Lemma derived_newLogger cfg exports ds :
  let '(attrs, groups) := added ds in
  let printing := traceContext (JSONHandler (LogLevel cfg) (([], ("service", AString (ServiceName cfg))) :: attrs) groups) in
  derived ds (newLogger cfg exports) =
    if exports then MultiHandler printing (atLeast (BridgeHandler attrs groups) (LogLevel cfg)) else printing.
Proof.
  unfold derived, added. induction ds as [|d ds IH] using rev_ind; [by destruct exports|]. rewrite !foldl_app.
  destruct (foldl _ ([], []) ds) as [attrs groups]. simpl in *. rewrite IH. by destruct d, exports.
Qed.

(** What is exported is what is printed. A record of a derived logger comes out when it
    is at the process's level, and only then: as one line, stamped with the span it was
    logged in, and, when logs are exported and the provider wants the level, as one
    exported record of the same message with the same attributes. *)
Theorem log_exported cfg exports ds sc r :
  let '(attrs, groups) := added ds in
  let own := attrs ++ ((λ a, (groups, a)) <$> l_attrs r) in
  let stamps := match sc with
                | Some sc => [(groups, ("trace_id", AString (TraceID sc))); (groups, ("span_id", AString (SpanID sc)))]
                | None => []
                end in
  log (derived ds (newLogger cfg exports)) sc r =
    if LogLevel cfg <=? l_level r then
      Printed (l_level r) (l_message r) (([], ("service", AString (ServiceName cfg))) :: own ++ stamps) ::
      (if exports && bridged (l_level r) then [Exported sc (l_level r) (l_message r) own] else [])
    else [].
Proof.
  pose proof (derived_newLogger cfg exports ds) as Hd. destruct (added ds) as [attrs groups]. cbv zeta in *. rewrite Hd.
  unfold log. destruct exports; simpl; destruct (LogLevel cfg <=? l_level r); simpl; try done; destruct (bridged (l_level r));
    destruct sc; simpl; rewrite ?fmap_app; simpl; by rewrite ?app_assoc, ?app_nil_r.
Qed.
End logging.

(** ** pgx.go *)

(** [uniqueViolation]; the key otelpgx puts an SQLSTATE under is its own. *)
Definition sqlStateUniqueViolation : string := "23505".

Section tracer.
Variable SQLStateKey : string.

(** [answerCollision]: what is put on the span, and the error otelpgx is given. *)
Definition answerCollision (err : option pgError) : list attr * option pgError :=
  match err with
  | Some e =>
      if IsSequenceCollision e then
        ([(keyOutcome, AString outcomeConflict); (SQLStateKey, AString sqlStateUniqueViolation)], None)
      else ([], err)
  | None => ([], None)
  end.

(** The span of a statement is a fault exactly when the caller of the store is not told
    of a conflict, and names the conflict when it is; the driver's other errors are
    not the store's sentinel. *)
Theorem answerCollision_agrees e :
  (∀ e', e = PgOther e' → Is e' ErrConcurrencyConflict = false) →
  snd (answerCollision (Some e)) = (if Is (insertError e) ErrConcurrencyConflict then None else Some e) ∧
  ((keyOutcome, AString outcomeConflict) ∈ fst (answerCollision (Some e)) ↔ Is (insertError e) ErrConcurrencyConflict = true).
Proof.
  intros He. destruct e as [|e']; [by split; [|split; [done|by left]]|].
  assert (Is (insertError (PgOther e')) ErrConcurrencyConflict = false) as -> by exact (He e' eq_refl).
  split; [done|]. split; [by intros ?%elem_of_nil | done].
Qed.
End tracer.
