(* ===== verification/TransactionLegal.v ===== *)
(** * The lifecycle of a Transaction's stream

    The messages of a Transaction's stream as an abstract machine: [topOf] and
    [childrenOf] are its state, [xstep] its transitions, one rule per place the
    saga appends. [wf_tx] is the invariant every stream built by these steps
    has; the theorems about Transactions are read off it. [history] ties the
    abstract machine to the events of a stream: every fold of [TransactionState]
    computes the abstract state. *)

From S2P Require Import Prelude Proto EventStore Ledger Effects Validate Dag TransactionState.
From S2P Require Import TransactionSaga.

(** ** The abstract machine *)

Definition topOfKind (k : kind) : option transactionState :=
  match k with
  | KTransactionInitialized => Some stateInitialized
  | KTransactionRejected => Some stateRejected
  | KTransactionStarted => Some stateStarted
  | KTransactionRollbackStarted => Some stateRollbackStarted
  | KTransactionCompleted => Some stateCompleted
  | KTransactionRolledBack => Some stateRolledBack
  | KTransactionRollbackFailed => Some stateRollbackFailed
  | _ => None
  end.

Lemma topLevelByType_kind k : topLevelByType (full_name k) = topOfKind k.
Proof. by destruct k. Qed.

#[global] Opaque topLevelByType.

Implicit Types (h ms ds : list message) (m : message).

Definition topStep (st : transactionState) m : transactionState := default st (topOfKind (kind_of m)).
Definition topOf h : transactionState := foldl topStep stateTxUnknown h.
Definition childrenOf h : Children := foldl recordFact ∅ h.

(** The child was requested at some point. *)
Definition touched h (id : string) : Prop := is_Some (childrenOf h !! id).

(** A fact of the rollback, about the child it names. *)
Definition undoes m (id : string) : Prop :=
  match m with
  | TransferReversalRequestedWithinTransaction _ id' _ | TransferRolledBackWithinTransaction _ id' _ _
  | TransferRollbackFailedWithinTransaction _ id' _ => id' = id
  | _ => False
  end.

(** A fact that leaves nothing of the child to undo. *)
Definition resolves m (id : string) : Prop :=
  match m with
  | TransferRolledBackWithinTransaction _ id' _ _ | TransferFailedWithinTransaction _ id' _ => id' = id
  | _ => False
  end.

(** Nothing that depends on [id] is outstanding: never requested, or resolved. *)
Definition dependentsSettled (deps : Deps) h (id : string) : Prop :=
  ∀ c, edge deps id c → touched h c → ∃ m, m ∈ h ∧ resolves m c.

(** [appendSagaStep] takes the empty id for a top-level event's, so what it
    appends with a child's failure it appends with a named child's. *)
Definition noneFailed h : Prop := ∀ id, id ≠ "" → childrenOf h !! id ≠ Some childFailed.
Definition allCompleted (transfers : Transfers) h : Prop :=
  ∀ id, is_Some (transfers !! id) → childrenOf h !! id = Some childCompleted.

Definition rollbackOver (i : Initialized) h (failed : bool) : Prop :=
  let plan := planRollback (map_to_list (in_Transfers i)).*1 (in_TransferDependency i) (childrenOf h) in
  candidates plan = [] ∧ plan_inFlight plan = false ∧ anyFailed plan = failed.

(** The Transaction-level step the history alone decides. *)
Definition decidedBy (i : Initialized) h m : Prop :=
  match m with
  | TransactionRollbackStarted _ _ => topOf h = stateStarted ∧ ∃ id, childrenOf h !! id = Some childFailed
  | TransactionCompleted _ => topOf h = stateStarted ∧ allCompleted (in_Transfers i) h
  | TransactionRolledBack _ _ => topOf h = stateRollbackStarted ∧ rollbackOver i h false
  | TransactionRollbackFailed _ _ => topOf h = stateRollbackStarted ∧ rollbackOver i h true
  | _ => False
  end.

(** Nothing is: no failure without its rollback, no completion unrecorded, no
    rollback over and unconcluded. *)
Definition undecided (i : Initialized) h : Prop :=
  (topOf h = stateStarted → noneFailed h ∧ ¬ allCompleted (in_Transfers i) h) ∧
  (topOf h = stateRollbackStarted → ∀ b, ¬ rollbackOver i h b).

(** [ds] is everything [h] decides, one after the other. *)
Inductive decides (i : Initialized) : list message → list message → Prop :=
| decides_nil h : undecided i h → decides i h []
| decides_cons h m ds : decidedBy i h m → decides i (h ++ [m]) ds → decides i h (m :: ds).

(** When a step decided from an older fold may still be recorded. *)
Definition decidable (i : Initialized) h m : Prop :=
  match m with
  | TransferCompletedWithinTransaction _ id | TransferFailedWithinTransaction _ id _ =>
      topOf h = stateStarted ∧ childrenOf h !! id = Some childRequested
  | TransactionRollbackStarted _ _ => topOf h = stateInitialized ∨ topOf h = stateStarted
  | TransferReversalRequestedWithinTransaction _ id _ | TransferRolledBackWithinTransaction _ id _ _
  | TransferRollbackFailedWithinTransaction _ id _ =>
      topOf h = stateRollbackStarted ∧ touched h id ∧ dependentsSettled (in_TransferDependency i) h id
  | TransactionCompleted _ | TransactionRolledBack _ _ | TransactionRollbackFailed _ _ => decidedBy i h m
  | _ => False
  end.

(** A slice of children that may be requested. *)
Definition dispatchable (i : Initialized) (children : Children) (ids : list string) : Prop :=
  NoDup ids ∧ ∀ id, id ∈ ids →
    is_Some (in_Transfers i !! id) ∧ children !! id = None ∧
    ∀ p, edge (in_TransferDependency i) p id → children !! p = Some childCompleted.

Inductive xstep : list message → list message → Prop :=
| x_reject id reason : xstep [] [TransactionRejected id reason]
| x_init i : valid_spec (in_Transfers i) (in_TransferDependency i) → xstep [] [TransactionInitialized i]
| x_start i h tid ids :
    topOf (TransactionInitialized i :: h) = stateInitialized → dispatchable i ∅ ids →
    xstep (TransactionInitialized i :: h) (TransactionStarted tid :: (intent tid <$> ids))
| x_dispatch i h tid ids :
    topOf (TransactionInitialized i :: h) = stateStarted →
    dispatchable i (childrenOf (TransactionInitialized i :: h)) ids → ids ≠ [] →
    xstep (TransactionInitialized i :: h) (intent tid <$> ids)
| x_outcome i h m ds :
    decidable i (TransactionInitialized i :: h) m → childEventTransferID m ≠ "" →
    decides i (TransactionInitialized i :: h ++ [m]) ds →
    xstep (TransactionInitialized i :: h) (m :: ds)
| x_decision i h m :
    decidable i (TransactionInitialized i :: h) m → childEventTransferID m = "" →
    xstep (TransactionInitialized i :: h) [m].

(** ** Folding *)

Lemma topOf_snoc h m : topOf (h ++ [m]) = topStep (topOf h) m.
Proof. unfold topOf. by rewrite foldl_app. Qed.

Lemma childrenOf_snoc h m : childrenOf (h ++ [m]) = recordFact (childrenOf h) m.
Proof. unfold childrenOf. by rewrite foldl_app. Qed.

Lemma childrenOf_quiet h m : childFact m = None → childrenOf (h ++ [m]) = childrenOf h.
Proof. intros Hf. rewrite childrenOf_snoc. unfold recordFact. by rewrite Hf. Qed.

Lemma childrenOf_fact h m id st :
  childFact m = Some (id, st) → childrenOf (h ++ [m]) = <[id := st]> (childrenOf h).
Proof. intros Hf. rewrite childrenOf_snoc. unfold recordFact. by rewrite Hf. Qed.

Lemma childFact_top m x : childFact m = Some x → topOfKind (kind_of m) = None.
Proof. by destruct m. Qed.

Lemma topOf_fact h m x : childFact m = Some x → topOf (h ++ [m]) = topOf h.
Proof. intros Hf. rewrite topOf_snoc. unfold topStep. by rewrite (childFact_top _ _ Hf). Qed.

Lemma touched_snoc h m id : touched h id → touched (h ++ [m]) id.
Proof.
  unfold touched. rewrite childrenOf_snoc. unfold recordFact. destruct (childFact m) as [[id' st]|]; [|done].
  destruct (decide (id' = id)) as [->|Hne]; [by rewrite lookup_insert_eq | by rewrite lookup_insert_ne].
Qed.

(** ** The schedulers, read as facts *)

Lemma withState_spec st (children : Children) id : id ∈ withState st children ↔ children !! id = Some st.
Proof.
  unfold withState. rewrite elem_of_dom. split.
  - intros [st' Hs]. apply map_lookup_filter_Some in Hs as [Hs Heq]. simpl in Heq. by subst.
  - intros Hs. exists st. by apply map_lookup_filter_Some.
Qed.

Lemma mem_spec s id : mem s id = true ↔ id ∈ s.
Proof. apply bool_decide_eq_true. Qed.

Lemma readyToRun_spec order deps (children : Children) id :
  id ∈ readyToRun order deps (touchedSet children) (completedSet children) ↔
  id ∈ order ∧ children !! id = None ∧ ∀ p, edge deps p id → children !! p = Some childCompleted.
Proof.
  unfold readyToRun. rewrite list_elem_of_filter, andb_true_iff, negb_true_iff, forallb_forall.
  unfold mem at 1. rewrite bool_decide_eq_false. unfold touchedSet. rewrite not_elem_of_dom.
  split.
  - intros [[Hn Hp] Hin]. split; [done|]. split; [done|]. intros p Hedge.
    apply withState_spec, mem_spec, Hp. by apply list_elem_of_In.
  - intros (Hin & Hn & Hp). split; [|done]. split; [done|]. intros p Hpar%list_elem_of_In.
    by apply mem_spec, withState_spec, Hp.
Qed.

Lemma blockedBy_spec deps touched resolved id :
  blockedBy deps touched resolved id = true ↔
  ∃ c, edge deps id c ∧ c ∈ touched ∧ c ∉ resolved.
Proof.
  unfold blockedBy. rewrite existsb_exists. split.
  - intros ([c ps] & Hin%list_elem_of_In & Hb). apply elem_of_map_to_list in Hin. simpl in Hb.
    apply andb_true_iff in Hb as [[Ht Hr]%andb_true_iff Hp%bool_decide_eq_true].
    apply mem_spec in Ht. apply negb_true_iff in Hr. unfold mem in Hr. apply bool_decide_eq_false in Hr.
    exists c. split; [|done]. unfold edge, parentsOf. by rewrite Hin.
  - intros (c & Hedge & Ht & Hr). apply edge_deps in Hedge as (ps & Hps & Hin).
    exists (c, ps). split; [by apply list_elem_of_In, elem_of_map_to_list|]. simpl.
    rewrite !andb_true_iff, negb_true_iff. unfold mem. rewrite bool_decide_eq_false, !bool_decide_eq_true. done.
Qed.

Lemma resolvedSet_spec (children : Children) id :
  id ∈ resolvedSet children ↔ children !! id = Some childRolledBack ∨ children !! id = Some childFailed.
Proof. unfold resolvedSet. by rewrite elem_of_union, !withState_spec. Qed.

Lemma candidates_spec order deps (children : Children) id :
  id ∈ candidates (planRollback order deps children) ↔
  id ∈ order ∧ (children !! id = Some childRequested ∨ children !! id = Some childCompleted ∨ children !! id = Some childUntouched) ∧
  ∀ c, edge deps id c → is_Some (children !! c) → c ∈ resolvedSet children.
Proof.
  unfold planRollback, candidates, readyToRollback.
  rewrite !list_elem_of_filter, !andb_true_iff, !negb_true_iff, mem_spec.
  unfold mem. rewrite !bool_decide_eq_false. unfold touchedSet at 1. rewrite elem_of_dom, resolvedSet_spec, withState_spec.
  assert (Hb : blockedBy deps (touchedSet children) (resolvedSet children) id = false ↔
               ∀ c, edge deps id c → is_Some (children !! c) → c ∈ resolvedSet children).
  { split.
    - intros Hb c Hedge Ht. destruct (decide (c ∈ resolvedSet children)) as [?|Hn]; [done|].
      assert (blockedBy deps (touchedSet children) (resolvedSet children) id = true); [|congruence].
      apply blockedBy_spec. exists c. unfold touchedSet. by rewrite elem_of_dom.
    - intros Hall. apply not_true_is_false. intros (c & Hedge & Ht & Hn)%blockedBy_spec.
      apply Hn, Hall; [done|]. unfold touchedSet in Ht. by rewrite elem_of_dom in Ht. }
  rewrite Hb. unfold childAt. split.
  - intros (Hne & ((([st Hst] & Hres) & Hfl) & Hdep) & Hin). split; [done|]. split; [|done].
    rewrite Hst in *. simpl in Hne. destruct st; auto; exfalso; auto.
  - intros (Hin & Hst & Hdep). split_and!; try done; destruct Hst as [->|[->| ->]]; simpl; try done; try (by eexists); by intros [? | ?].
Qed.

(** ** Single messages

    Every batch of [xstep] is a sequence of these. *)

Inductive mstep (i : Initialized) h : message → Prop :=
| m_start tid : topOf h = stateInitialized → mstep i h (TransactionStarted tid)
| m_intent tid id :
    topOf h = stateStarted → is_Some (in_Transfers i !! id) → ¬ touched h id →
    (∀ p, edge (in_TransferDependency i) p id → childrenOf h !! p = Some childCompleted) →
    mstep i h (intent tid id)
| m_outcome m id st :
    childFact m = Some (id, st) → st = childCompleted ∨ st = childFailed →
    topOf h = stateStarted → childrenOf h !! id = Some childRequested → mstep i h m
| m_rollback tid reason :
    topOf h = stateInitialized ∨ topOf h = stateStarted → mstep i h (TransactionRollbackStarted tid reason)
| m_undo m id :
    undoes m id → topOf h = stateRollbackStarted → touched h id →
    dependentsSettled (in_TransferDependency i) h id → mstep i h m
| m_conclude m :
    decidedBy i h m → topOfKind (kind_of m) ≠ Some stateRollbackStarted → mstep i h m.

Inductive msteps (i : Initialized) : list message → list message → Prop :=
| msteps_nil h : msteps i h []
| msteps_cons h m ms : mstep i h m → msteps i (h ++ [m]) ms → msteps i h (m :: ms).

Lemma msteps_app i h ms ms' : msteps i h ms → msteps i (h ++ ms) ms' → msteps i h (ms ++ ms').
Proof.
  induction 1 as [h|h m ms Hm _ IH]; [by rewrite app_nil_r|]. intros Hms'. simpl. constructor; [done|].
  apply IH. by rewrite <- app_assoc.
Qed.

Lemma msteps_split i h ms ms' : msteps i h (ms ++ ms') → msteps i (h ++ ms) ms'.
Proof.
  revert h. induction ms as [|m ms IH]; intros h Hms; [by rewrite app_nil_r|].
  inversion Hms as [|? ? ? Hm Hrest]; subst. apply IH in Hrest. by rewrite <- app_assoc in Hrest.
Qed.

Definition tops h : list transactionState := omap (λ m, topOfKind (kind_of m)) h.

Lemma topOf_tops h : topOf h = default stateTxUnknown (last (tops h)).
Proof.
  unfold tops. induction h as [|m h IH] using rev_ind; [done|].
  rewrite topOf_snoc, IH, omap_app. unfold topStep. csimpl. destruct (topOfKind (kind_of m)); simpl.
  - by rewrite last_snoc.
  - by rewrite app_nil_r.
Qed.

(** Every top-level history of an accepted Transaction. *)
Definition txLifecycles : list (list transactionState) :=
  let I := stateInitialized in let S := stateStarted in let R := stateRollbackStarted in
  [ [I]; [I; S]; [I; S; stateCompleted];
    [I; R]; [I; R; stateRolledBack]; [I; R; stateRollbackFailed];
    [I; S; R]; [I; S; R; stateRolledBack]; [I; S; R; stateRollbackFailed] ].

Definition topEdges (st : transactionState) : list transactionState :=
  match st with
  | stateInitialized => [stateStarted; stateRollbackStarted]
  | stateStarted => [stateCompleted; stateRollbackStarted]
  | stateRollbackStarted => [stateRolledBack; stateRollbackFailed]
  | _ => []
  end.

Lemma txLifecycle_step hist st :
  hist ∈ txLifecycles → st ∈ topEdges (default stateTxUnknown (last hist)) → hist ++ [st] ∈ txLifecycles.
Proof.
  intros Hin Hst.
  assert (Hall : Forall (λ hist, Forall (λ st, hist ++ [st] ∈ txLifecycles)
            (topEdges (default stateTxUnknown (last hist)))) txLifecycles)
    by (decided).
  rewrite Forall_forall in Hall. specialize (Hall _ Hin). rewrite Forall_forall in Hall. by apply Hall.
Qed.

(** ** The invariant *)

Record wf_run (i : Initialized) h : Prop := {
  wr_spec : valid_spec (in_Transfers i) (in_TransferDependency i);
  wr_tops : tops h ∈ txLifecycles;
  wr_known id : touched h id → is_Some (in_Transfers i !! id);
  wr_facts id : childrenOf h !! id ≠ Some childUntouched;
  wr_init : topOf h = stateInitialized → childrenOf h = ∅;
  wr_completed : topOf h = stateCompleted → allCompleted (in_Transfers i) h;
  wr_rolled_back id : topOf h = stateRolledBack → touched h id →
    childrenOf h !! id = Some childRolledBack ∨ childrenOf h !! id = Some childFailed;
  wr_dispatch pre tid id post : h = pre ++ intent tid id :: post →
    ¬ touched pre id ∧ topOf pre = stateStarted ∧
    ∀ p, edge (in_TransferDependency i) p id → childrenOf pre !! p = Some childCompleted;
  wr_undo pre m post id : h = pre ++ m :: post → undoes m id →
    topOf pre = stateRollbackStarted ∧ touched pre id ∧ dependentsSettled (in_TransferDependency i) pre id;
  wr_trace : ∃ rest, h = TransactionInitialized i :: rest ∧ msteps i [TransactionInitialized i] rest
}.

(** A split of [h ++ [m]] is a split of [h] or the end of it. *)
Lemma snoc_split {A : Type} (l pre post : list A) (y x : A) :
  l ++ [y] = pre ++ x :: post →
  (∃ post', l = pre ++ x :: post') ∨ (l = pre ∧ y = x ∧ post = []).
Proof.
  intros Heq. destruct post as [|z post] using rev_ind.
  - apply app_inj_tail in Heq as [-> ->]. by right.
  - rewrite app_comm_cons, app_assoc in Heq. apply app_inj_tail in Heq as [-> _]. left. by exists post.
Qed.

(** A rollback with nothing left to act on, nothing being reversed and nothing
    failed has undone every child it touched: the graph being acyclic, an
    unresolved child always leaves one that can be acted on. *)
Lemma rollbackOver_resolved i h id :
  acyclic (in_TransferDependency i) → (∀ id, touched h id → is_Some (in_Transfers i !! id)) →
  (∀ id, childrenOf h !! id ≠ Some childUntouched) → rollbackOver i h false → touched h id →
  childrenOf h !! id = Some childRolledBack ∨ childrenOf h !! id = Some childFailed.
Proof.
  intros Hac Hknown Hfacts (Hcand & Hfl & Hfailed) Ht.
  apply resolvedSet_spec. destruct (decide (id ∈ resolvedSet (childrenOf h))) as [?|Hn]; [done|]. exfalso.
  set (X := dom (childrenOf h) ∖ resolvedSet (childrenOf h)).
  destruct (acyclic_sink _ Hac X) as (x & Hx & Hdep).
  { intros HX. apply (not_elem_of_empty (C := gset string) id). rewrite <- HX. unfold X.
    by rewrite elem_of_difference, elem_of_dom. }
  unfold X in Hx. rewrite elem_of_difference, elem_of_dom in Hx. destruct Hx as [[st Hst] Hres].
  apply (not_elem_of_nil x). rewrite <- Hcand. apply candidates_spec. split; [apply map_keys, Hknown; by exists st|].
  apply negb_false_iff, bool_decide_eq_true in Hfl, Hfailed. split.
  - rewrite resolvedSet_spec in Hres. rewrite Hst in *. destruct st; try by eauto.
    + exfalso. by apply Hres; right.
    + exfalso. apply withState_spec in Hst. rewrite Hfl in Hst. by apply not_elem_of_empty in Hst.
    + exfalso. by apply Hres; left.
    + exfalso. apply withState_spec in Hst. rewrite Hfailed in Hst. by apply not_elem_of_empty in Hst.
  - intros c Hedge Hc. destruct (decide (c ∈ resolvedSet (childrenOf h))) as [?|Hnc]; [done|].
    exfalso. apply (Hdep c Hedge). unfold X. by rewrite elem_of_difference, elem_of_dom.
Qed.

(** What a single message says of the top-level state and of the children. *)
Lemma mstep_kind i h m :
  mstep i h m →
  (∃ id st, childFact m = Some (id, st) ∧ st ≠ childUntouched ∧
     (topOf h = stateStarted ∨ topOf h = stateRollbackStarted) ∧ (touched h id ∨ is_Some (in_Transfers i !! id))) ∨
  (∃ st, childFact m = None ∧ topOfKind (kind_of m) = Some st ∧ st ∈ topEdges (topOf h)).
Proof.
  destruct 1 as [tid Ht|tid id Ht Hs Hn Hp|m id st Hf Hst Ht Hc|tid reason Ht|m id Hu Ht Hto Hd|m Hd Hne].
  - right. exists stateStarted. rewrite Ht. split; [done|]. split; [done|]. decided.
  - left. exists id, childRequested. by auto 6.
  - left. exists id, st. split; [done|]. split; [by destruct Hst as [-> | ->]|]. split; [by left|]. left. by exists childRequested.
  - right. exists stateRollbackStarted. split; [done|]. split; [done|]. destruct Ht as [-> | ->]; decided.
  - left. destruct m; simpl in Hu; try done; subst; eexists _, _; (split; [reflexivity|]); auto.
  - right. destruct m; simpl in Hd; try done; destruct Hd as [Ht _]; rewrite Ht;
      eexists; (split; [reflexivity|]); (split; [reflexivity|]); decided.
Qed.

Lemma touched_recorded h m id :
  touched (h ++ [m]) id → touched h id ∨ ∃ st, childFact m = Some (id, st).
Proof.
  unfold touched. rewrite childrenOf_snoc. unfold recordFact. destruct (childFact m) as [[id' st]|]; [|by left].
  destruct (decide (id' = id)) as [->|Hne]; [by eauto | rewrite lookup_insert_ne by done; by left].
Qed.

Lemma mstep_tops i h m : mstep i h m → tops h ∈ txLifecycles → tops (h ++ [m]) ∈ txLifecycles.
Proof.
  intros Hm Hin. unfold tops. rewrite omap_app. csimpl.
  destruct (mstep_kind _ _ _ Hm) as [(id & st & Hf & _)|(st & _ & Ht & Hst)].
  - rewrite (childFact_top _ _ Hf). by rewrite app_nil_r.
  - rewrite Ht. apply txLifecycle_step; [done|]. by rewrite <- topOf_tops.
Qed.

(** The conclusions a single message can reach. *)
Lemma mstep_concludes i h m st :
  mstep i h m → topOf (h ++ [m]) = st → topOf h ≠ st → st = stateCompleted ∨ st = stateRolledBack →
  decidedBy i h m ∧ childFact m = None ∧ topOfKind (kind_of m) = Some st.
Proof.
  intros Hm Hst Hne Hcase. rewrite topOf_snoc in Hst. unfold topStep in Hst.
  destruct Hm as [tid Ht|tid id Ht Hs Hn Hp|m1 id st' Hf Hst' Ht Hc|tid reason Ht|m1 id Hu Ht Hto Hd|m1 Hd Hk];
    try (simpl in Hst; by destruct Hcase; subst).
  - rewrite (childFact_top _ _ Hf) in Hst. by simpl in Hst.
  - by destruct m1; simpl in Hu; try done; simpl in Hst.
  - split; [done|]. destruct m1; simpl in Hd; try done; simpl in *; by subst.
Qed.

Lemma mstep_intent i h tid id :
  mstep i h (intent tid id) →
  topOf h = stateStarted ∧ ¬ touched h id ∧
  ∀ p, edge (in_TransferDependency i) p id → childrenOf h !! p = Some childCompleted.
Proof.
  intros Hm. inversion Hm as [| |m1 id' st Hf Hst| |m1 id' Hu|m1 Hd]; subst; try done.
  unfold intent in Hf. simpl in Hf. simplify_eq. by destruct Hst.
Qed.

Lemma mstep_undoes i h m id :
  mstep i h m → undoes m id →
  topOf h = stateRollbackStarted ∧ touched h id ∧ dependentsSettled (in_TransferDependency i) h id.
Proof.
  intros Hm Hu. destruct Hm as [tid Ht|tid id' Ht Hs Hn Hp|m1 id' st Hf Hst Ht Hc|tid reason Ht|m1 id' Hu' Ht Hto Hd|m1 Hd Hk];
    try done.
  - exfalso. destruct m1; simpl in *; try done; simplify_eq; by destruct Hst.
  - assert (id' = id) as -> by by destruct m1; simpl in *; subst. done.
  - by destruct m1.
Qed.

Lemma mstep_wf i h m : mstep i h m → wf_run i h → wf_run i (h ++ [m]).
Proof.
  intros Hm Hwf. pose proof (mstep_kind _ _ _ Hm) as Hkind. destruct Hwf. split.
  - done.
  - by eapply mstep_tops.
  - intros id [Ht|[st Hf]]%touched_recorded; [by apply wr_known0|].
    destruct Hkind as [(id' & st' & Hf' & _ & _ & [?|?])|(st' & Hf' & _)]; simplify_eq; [by apply wr_known0 | done].
  - intros id. destruct Hkind as [(id' & st & Hf & Hne & _)|(st & Hf & _)].
    + rewrite (childrenOf_fact _ _ _ _ Hf). destruct (decide (id' = id)) as [->|?].
      * rewrite lookup_insert_eq. congruence.
      * by rewrite lookup_insert_ne.
    + by rewrite childrenOf_quiet.
  - intros Hi. exfalso. destruct Hkind as [(id' & st & Hf & _ & [Ht|Ht] & _)|(st & _ & Ht & Hst)].
    + rewrite (topOf_fact _ _ _ Hf) in Hi. congruence.
    + rewrite (topOf_fact _ _ _ Hf) in Hi. congruence.
    + rewrite topOf_snoc in Hi. unfold topStep in Hi. rewrite Ht in Hi. simpl in Hi. subst st.
      revert Hst. clear. intros Hst. apply (Forall_forall (λ st, st ≠ stateInitialized) (topEdges (topOf h))) in Hst; [done|].
      destruct (topOf h); by repeat constructor.
  - intros Hc. destruct (decide (topOf h = stateCompleted)) as [Ht|Hne].
    { exfalso. destruct Hkind as [(?&?&?&?&[?|?]&?)|(?&?&?&Hst)]; [congruence..|]. rewrite Ht in Hst. by apply elem_of_nil in Hst. }
    destruct (mstep_concludes _ _ _ _ Hm Hc Hne ltac:(by left)) as (Hd & Hf & Hk).
    intros id Hid. rewrite childrenOf_quiet by done. destruct m; simpl in Hd, Hk; try done. by apply Hd.
  - intros id Hc Hto. destruct (decide (topOf h = stateRolledBack)) as [Ht|Hne].
    { exfalso. destruct Hkind as [(?&?&?&?&[?|?]&?)|(?&?&?&Hst)]; [congruence..|]. rewrite Ht in Hst. by apply elem_of_nil in Hst. }
    destruct (mstep_concludes _ _ _ _ Hm Hc Hne ltac:(by right)) as (Hd & Hf & Hk).
    unfold touched in Hto. rewrite childrenOf_quiet in * by done. destruct m; simpl in Hd, Hk; try done.
    destruct Hd as [_ Hover]. by eapply rollbackOver_resolved; [apply wr_spec0|..].
  - intros pre tid id post [(post' & Hold)|(<- & -> & ->)]%snoc_split; [by eapply wr_dispatch0|].
    destruct (mstep_intent _ _ _ _ Hm) as (? & ? & ?). done.
  - intros pre m' post id [(post' & Hold)|(<- & -> & ->)]%snoc_split Hu; [by eapply wr_undo0|].
    by eapply mstep_undoes.
  - destruct wr_trace0 as (rest & -> & Hms). exists (rest ++ [m]). split; [done|].
    eapply msteps_app; [exact Hms|]. constructor; [done | constructor].
Qed.

Lemma msteps_wf i h ms : msteps i h ms → wf_run i h → wf_run i (h ++ ms).
Proof.
  induction 1 as [h|h m ms Hm _ IH]; intros Hwf; [by rewrite app_nil_r|].
  assert (Hwf' : wf_run i (h ++ [m])) by by eapply mstep_wf.
  replace (h ++ m :: ms) with ((h ++ [m]) ++ ms) by by rewrite <- app_assoc. by apply IH.
Qed.

(** The opening. *)
Lemma wf_run_init i :
  valid_spec (in_Transfers i) (in_TransferDependency i) → wf_run i [TransactionInitialized i].
Proof.
  intros Hv. split; try done.
  - by left.
  - by intros id [? ?].
  - intros [|m1 [|m2 l]] tid id post Heq; simplify_eq/=.
  - intros [|m1 [|m2 l]] m3 post id Heq Hu; by simplify_eq/=.
  - exists []. split; [done | constructor].
Qed.

(** ** Batches *)

Lemma intents_msteps i h tid ids :
  topOf h = stateStarted → dispatchable i (childrenOf h) ids → msteps i h (intent tid <$> ids).
Proof.
  revert h. induction ids as [|id ids IH]; intros h Ht [Hnd Hok]; [constructor|].
  apply NoDup_cons in Hnd as [Hnin Hnd]. destruct (Hok id) as (Hs & Hn & Hp); [left|].
  constructor.
  - apply m_intent; [done|done| |done]. unfold touched. rewrite Hn. by intros [? ?].
  - assert (Hf : childFact (intent tid id) = Some (id, childRequested)) by done.
    apply IH; [by rewrite (topOf_fact _ _ _ Hf)|]. split; [done|]. intros id' Hin.
    rewrite (childrenOf_fact _ _ _ _ Hf). destruct (Hok id') as (Hs' & Hn' & Hp'); [by right|].
    assert (id ≠ id') by (intros ->; done). rewrite lookup_insert_ne by done. split; [done|]. split; [done|].
    intros p Hedge. rewrite lookup_insert_ne; [by apply Hp'|]. intros ->. specialize (Hp' _ Hedge). congruence.
Qed.

Lemma decidedBy_mstep i h m : decidedBy i h m → mstep i h m.
Proof.
  intros Hd. destruct m; simpl in Hd; try done;
    try (apply m_conclude; [exact Hd | done]).
  destruct Hd as [Ht _]. apply m_rollback. by right.
Qed.

Lemma decides_msteps i h ds : decides i h ds → msteps i h ds.
Proof. induction 1 as [|h m ds Hd _ IH]; constructor; [by apply decidedBy_mstep | done]. Qed.

Lemma decidable_mstep i h m : decidable i h m → mstep i h m.
Proof.
  intros Hd. destruct m; simpl in Hd; try done; try (by apply decidedBy_mstep).
  - destruct Hd. eapply m_outcome; [done | by left | done | done].
  - destruct Hd. eapply m_outcome; [done | by right | done | done].
  - by apply m_rollback.
  - destruct Hd as (? & ? & ?). by eapply m_undo.
  - destruct Hd as (? & ? & ?). by eapply m_undo.
  - destruct Hd as (? & ? & ?). by eapply m_undo.
Qed.

(** What every stream of the protocol is: empty, a lone rejection, or the run of
    a well-formed request in which no failure stands without its rollback. *)
Definition wf_tx h : Prop :=
  h = [] ∨ (∃ id reason, h = [TransactionRejected id reason]) ∨
  ∃ i rest, h = TransactionInitialized i :: rest ∧ wf_run i h ∧ (topOf h = stateStarted → noneFailed h).

Lemma xstep_opened i h ms :
  xstep (TransactionInitialized i :: h) ms → wf_run i (TransactionInitialized i :: h) →
  msteps i (TransactionInitialized i :: h) ms.
Proof.
  intros Hx Hwf. remember (TransactionInitialized i :: h) as hist eqn:Hh.
  destruct Hx as [?? |?? |i' h' tid ids Ht Hd|i' h' tid ids Ht Hd _|i' h' m ds Hd _ Hds|i' h' m Hd _];
    try done; simplify_eq.
  - constructor; [by apply m_start|]. assert (Hf : childFact (TransactionStarted tid) = None) by done.
    apply intents_msteps; [by rewrite topOf_snoc|].
    rewrite childrenOf_quiet by done. rewrite (wr_init _ _ Hwf Ht). done.
  - by apply intents_msteps.
  - constructor; [by apply decidable_mstep|]. by apply decides_msteps.
  - constructor; [by apply decidable_mstep | constructor].
Qed.

Lemma decides_undecided i h ds : decides i h ds → undecided i (h ++ ds).
Proof.
  induction 1 as [h Hu|h m ds _ _ IH]; [by rewrite app_nil_r|]. by rewrite <- app_assoc in IH.
Qed.

Lemma noneFailed_intents h tid ids :
  noneFailed h → noneFailed (h ++ (intent tid <$> ids)).
Proof.
  revert h. induction ids as [|id ids IH]; intros h Hn; [by rewrite app_nil_r|].
  replace (h ++ (intent tid <$> id :: ids)) with ((h ++ [intent tid id]) ++ (intent tid <$> ids))
    by (by rewrite <- app_assoc). apply IH. intros x Hx.
  assert (Hf : childFact (intent tid id) = Some (id, childRequested)) by done. rewrite (childrenOf_fact _ _ _ _ Hf).
  destruct (decide (id = x)) as [->|?]; [by rewrite lookup_insert_eq | rewrite lookup_insert_ne by done; by apply Hn].
Qed.

Lemma xstep_noneFailed i h ms :
  xstep (TransactionInitialized i :: h) ms → wf_run i (TransactionInitialized i :: h) →
  (topOf (TransactionInitialized i :: h) = stateStarted → noneFailed (TransactionInitialized i :: h)) →
  topOf ((TransactionInitialized i :: h) ++ ms) = stateStarted → noneFailed ((TransactionInitialized i :: h) ++ ms).
Proof.
  intros Hx Hwf Hnone. remember (TransactionInitialized i :: h) as hist eqn:Hh.
  destruct Hx as [?? |?? |i' h' tid ids Ht Hd|i' h' tid ids Ht Hd _|i' h' m ds Hd Hc Hds|i' h' m Hd Hc];
    try done; simplify_eq; intros Htop.
  - replace ((TransactionInitialized i :: h) ++ TransactionStarted tid :: (intent tid <$> ids))
      with (((TransactionInitialized i :: h) ++ [TransactionStarted tid]) ++ (intent tid <$> ids)) by by rewrite <- app_assoc.
    apply noneFailed_intents. intros x _. rewrite childrenOf_quiet, (wr_init _ _ Hwf Ht) by done. by rewrite lookup_empty.
  - apply noneFailed_intents, Hnone, Ht.
  - apply decides_undecided in Hds as [Hs _]. rewrite <- app_comm_cons, <- app_assoc in Hs. simpl in Hs. by apply Hs.
  - destruct (childFact m) as [[id st]|] eqn:Hf.
    + rewrite (topOf_fact _ _ _ Hf) in Htop. assert (id = "") as -> by (unfold childEventTransferID in Hc; by rewrite Hf in Hc).
      intros x Hx. rewrite (childrenOf_fact _ _ _ _ Hf), lookup_insert_ne by done. by apply Hnone.
    + exfalso. rewrite topOf_snoc in Htop. unfold topStep in Htop. destruct m; simpl in Hd, Hf, Htop; congruence.
Qed.

Lemma xstep_wf h ms : xstep h ms → wf_tx h → wf_tx (h ++ ms).
Proof.
  intros Hx [->|[(id & reason & ->)|(i & rest & -> & Hwf & Hnone)]].
  - remember [] as h eqn:Hh. destruct Hx as [id reason|i Hv| | | |]; try done; simpl.
    + right. left. eauto.
    + right. right. exists i, []. split; [done|]. split; [by apply wf_run_init|]. by intros [=].
  - exfalso. by inversion Hx.
  - right. right. exists i, (rest ++ ms). split; [done|]. split.
    + apply msteps_wf; [by apply xstep_opened | done].
    + by apply xstep_noneFailed.
Qed.

(** ** Growth *)

(** A message a child's state comes from. *)
Lemma childrenOf_source h id st : childrenOf h !! id = Some st → ∃ m, m ∈ h ∧ childFact m = Some (id, st).
Proof.
  induction h as [|m h IH] using rev_ind; [done|].
  rewrite childrenOf_snoc. unfold recordFact. destruct (childFact m) as [[id' st']|] eqn:Hf.
  - destruct (decide (id' = id)) as [->|Hne].
    + rewrite lookup_insert_eq. intros [= ->]. exists m. split; [|done]. apply elem_of_app. right. by apply list_elem_of_singleton.
    + rewrite lookup_insert_ne by done. intros Hs. destruct (IH Hs) as (m' & ? & ?). exists m'. split; [|done]. apply elem_of_app. by left.
  - intros Hs. destruct (IH Hs) as (m' & ? & ?). exists m'. split; [|done]. apply elem_of_app. by left.
Qed.

Lemma resolved_source h id :
  id ∈ resolvedSet (childrenOf h) → ∃ m, m ∈ h ∧ resolves m id.
Proof.
  intros [Hs|Hs]%resolvedSet_spec; apply childrenOf_source in Hs as (m & Hin & Hf);
    exists m; (split; [done|]); destruct m; simpl in Hf; by simplify_eq/=.
Qed.

Lemma touched_app h h' id : touched h id → touched (h ++ h') id.
Proof.
  revert h. induction h' as [|m h' IH]; intros h Ht; [by rewrite app_nil_r|].
  replace (h ++ m :: h') with ((h ++ [m]) ++ h') by by rewrite <- app_assoc. by apply IH, touched_snoc.
Qed.

(** Past the forward phase. *)
Definition backward (st : transactionState) : bool :=
  match st with stateTxUnknown | stateInitialized | stateStarted => false | _ => true end.

(** Once a rollback has begun no new child is touched, and there is no way back. *)
Lemma mstep_backward i h m :
  mstep i h m → backward (topOf h) = true →
  backward (topOf (h ++ [m])) = true ∧ ∀ id, touched (h ++ [m]) id → touched h id.
Proof.
  intros Hm Hb. pose proof (mstep_kind _ _ _ Hm) as [(id & st & Hf & _)|(st & Hf & Ht & Hst)].
  - rewrite (topOf_fact _ _ _ Hf). split; [done|]. intros id' [?|[st' Hf']]%touched_recorded; [done|]. simplify_eq.
    destruct Hm as [tid Ht|tid id1 Ht Hs Hn Hp|m1 id1 st1 Hf1 Hst1 Ht Hc|tid reason Ht|m1 id1 Hu Ht Hto Hd|m1 Hd Hne]; try done.
    + by rewrite Ht in Hb.
    + by rewrite Ht in Hb.
    + destruct m1; simpl in Hu, Hf; try done; by simplify_eq.
    + destruct m1; simpl in Hd; try done.
  - split.
    + rewrite topOf_snoc. unfold topStep. rewrite Ht. simpl.
      revert st Hst Ht. apply (Forall_forall (λ st, _ → backward st = true)). destruct (topOf h); try discriminate Hb; by repeat constructor.
    + intros id [?|[st' Hf']]%touched_recorded; [done | congruence].
Qed.

Lemma msteps_backward i h ms :
  msteps i h ms → backward (topOf h) = true →
  backward (topOf (h ++ ms)) = true ∧ ∀ id, touched (h ++ ms) id → touched h id.
Proof.
  induction 1 as [h|h m ms Hm _ IH]; intros Hb; [by rewrite app_nil_r|].
  destruct (mstep_backward _ _ _ Hm Hb) as [Hb' Ht']. destruct (IH Hb') as [Hb2 Ht2].
  rewrite <- app_assoc in Hb2, Ht2. simpl in *. split; [done|]. intros id Ht. by apply Ht', Ht2.
Qed.

Inductive xgrow : list message → list message → Prop :=
| xgrow_step h ms : xstep h ms → xgrow h (h ++ ms).

Lemma xgrow_rtc_wf h h' : rtc xgrow h h' → wf_tx h → wf_tx h'.
Proof. induction 1 as [|x y z [h ms Hx] _ IH]; [done|]. intros Hwf. by apply IH, xstep_wf. Qed.

Lemma xgrow_rtc_prefix h h' : rtc xgrow h h' → h `prefix_of` h'.
Proof. induction 1 as [|x y z [h ms Hx] _ IH]; [done|]. etrans; [|exact IH]. by eexists. Qed.

(** The whole growth of an opened stream is single messages. *)
Lemma xgrow_rtc_msteps i rest h' :
  rtc xgrow (TransactionInitialized i :: rest) h' → wf_tx (TransactionInitialized i :: rest) →
  ∃ ms, h' = (TransactionInitialized i :: rest) ++ ms ∧ msteps i (TransactionInitialized i :: rest) ms.
Proof.
  remember (TransactionInitialized i :: rest) as h eqn:Hh. intros Hg. revert rest Hh.
  induction Hg as [x|x y z [h ms Hx] _ IH]; intros rest -> Hwf.
  { exists []. rewrite app_nil_r. split; [done | constructor]. }
  assert (Hwf' := xstep_wf _ _ Hx Hwf).
  destruct Hwf as [?|[(?&?&?)|(i' & rest' & Heq & Hrun & _)]]; [done|done|]. simplify_eq.
  destruct (IH (rest' ++ ms) eq_refl Hwf') as (ms' & -> & Hms').
  exists (ms ++ ms'). split; [simpl; by rewrite <- app_assoc|].
  eapply msteps_app; [by eapply xstep_opened | exact Hms'].
Qed.

(** What was settled when a child was undone is settled still. *)
Lemma undone_settled i h m id :
  wf_run i h → m ∈ h → undoes m id →
  touched h id ∧ dependentsSettled (in_TransferDependency i) h id.
Proof.
  intros Hwf (pre & post & ->)%list_elem_of_split Hu. destruct (wr_undo _ _ Hwf pre m post id eq_refl Hu) as (Ht & Hto & Hd).
  split; [by apply touched_app|]. destruct (wr_trace _ _ Hwf) as (rest & Heq & Hms).
  destruct pre as [|m0 pre]; [done|]. simplify_eq/=.
  apply (msteps_split i [TransactionInitialized i]) in Hms. simpl in Hms.
  destruct (msteps_backward _ _ _ Hms) as [_ Hback]; [by rewrite Ht|].
  intros c Hedge Hc. destruct (Hd c Hedge (Hback c Hc)) as (m' & Hin & Hr). exists m'. split; [|done].
  rewrite app_comm_cons, elem_of_app. by left.
Qed.

(** ** Ends *)

Definition concluded (st : transactionState) : bool :=
  match st with
  | stateCompleted | stateRolledBack | stateRollbackFailed | stateRejected => true
  | _ => false
  end.

Lemma decidable_unconcluded i h m : decidable i h m → concluded (topOf h) = false.
Proof.
  intros Hd. assert (topOf h = stateInitialized ∨ topOf h = stateStarted ∨ topOf h = stateRollbackStarted) as [->|[->| ->]]; [|done..].
  destruct m; simpl in Hd; tauto.
Qed.

Lemma xstep_concluded h ms : xstep h ms → concluded (topOf h) = false.
Proof.
  destruct 1 as [?? |?? |i h tid ids Ht _|i h tid ids Ht _ _|i h m ds Hd _ _|i h m Hd _]; try done;
    try (by rewrite Ht); by eapply decidable_unconcluded.
Qed.

Lemma xgrow_concluded h h' : rtc xgrow h h' → concluded (topOf h) = true → h' = h.
Proof. intros Hg Hc. destruct Hg as [|x y z [h ms Hx] _]; [done|]. apply xstep_concluded in Hx. congruence. Qed.

(** What an opened history says, by the message that opened it. *)
Lemma wf_tx_opened h :
  wf_tx h → topOf h ≠ stateTxUnknown → topOf h ≠ stateRejected →
  ∃ i rest, h = TransactionInitialized i :: rest ∧ wf_run i h ∧ (topOf h = stateStarted → noneFailed h).
Proof. intros [->|[(id & reason & ->)|?]] H1 H2; [done|done|done]. Qed.

Lemma requested_touched h tid id : intent tid id ∈ h → touched h id.
Proof.
  intros (pre & post & ->)%list_elem_of_split.
  replace (pre ++ intent tid id :: post) with ((pre ++ [intent tid id]) ++ post) by by rewrite <- app_assoc.
  apply touched_app. unfold touched. by rewrite (childrenOf_fact _ _ id childRequested), lookup_insert_eq.
Qed.
