(* ===== verification/TransactionSafety.v ===== *)
(** * Every Transaction program keeps to the lifecycle

    First, that the folds of a stream's events compute the abstract machine's
    state ([history]); then, program by program, that what the saga and the RPCs
    append is a step of that machine, under any interleaving and whatever the
    Transfers do. *)

From S2P Require Import Prelude Proto EventStore Ledger Effects Validate Safety Wallet Token.
From S2P Require Import TransferState TransferManifest TransferSaga TransferServer TransferLegal.
From S2P Require Import TransferSafety Dag TransactionState TransactionSaga TransactionLegal.

Section history.
Context {C : Codec} {CL : CodecLaws C}.
Implicit Types (evs : list Event) (h ms ds : list message) (m : message).

(** [h] is what the events of a stream record. *)
Definition history h evs : Prop := Forall2 recorded h evs.

Lemma history_app h ms evs batch : history h evs → Forall2 recorded ms batch → history (h ++ ms) (evs ++ batch).
Proof. apply Forall2_app. Qed.

Lemma history_unique h h' evs : history h evs → history h' evs → h = h'.
Proof.
  intros H1. revert h'. induction H1 as [|m e h evs Hm _ IH]; intros h' H2.
  - by apply Forall2_nil_inv_r in H2.
  - apply Forall2_cons_inv_r in H2 as (m' & h2 & Hm' & H2 & ->). f_equal; [|by apply IH].
    apply recorded_Decode in Hm, Hm'. congruence.
Qed.

Lemma history_top h evs : history h evs → topLevelState evs = topOf h.
Proof.
  unfold topLevelState, topOf. generalize stateTxUnknown. intros st Hh. revert st.
  induction Hh as [|m e h evs [Ht _] _ IH]; intros st; [done|]. simpl. rewrite IH. f_equal.
  unfold topStep. rewrite Ht. unfold EventType. by rewrite topLevelByType_kind.
Qed.

Lemma history_children h evs : history h evs → foldChildStates evs = Ok (childrenOf h).
Proof.
  unfold foldChildStates, childrenOf. generalize (∅ : Children). intros ch Hh. revert ch.
  induction Hh as [|m e h evs Hm _ IH]; intros ch; [done|]. simpl. unfold foldChild at 1.
  rewrite (recorded_Decode _ _ Hm). simpl. apply IH.
Qed.

Lemma history_spec h evs x :
  history h evs → decodeSpec evs = Ok x →
  ∃ i rest, h = TransactionInitialized i :: rest ∧ x = (in_Transfers i, in_TransferDependency i).
Proof.
  intros Hh. destruct Hh as [|m e h evs Hm _]; [done|]. unfold decodeSpec. rewrite (recorded_Decode _ _ Hm). simpl.
  destruct m; try done. intros [= <-]. eauto.
Qed.

Lemma history_pending h evs id m evs' :
  history h evs → withPending evs id m = Ok evs' → history (h ++ [m]) evs'.
Proof.
  intros Hh. unfold withPending. destruct (marshal m) as [b|] eqn:Hm; [|done]. intros [= <-].
  apply history_app; [done|]. constructor; [by split | constructor].
Qed.

Lemma allTerminal_spec transfers children :
  allTerminal transfers children = true ↔
  ∀ id, is_Some (transfers !! id) → children !! id = Some childCompleted.
Proof.
  unfold allTerminal. rewrite forallb_forall. split.
  - intros Hall id Hid. assert (Hin : id ∈ (map_to_list transfers).*1) by by apply map_keys.
    apply list_elem_of_In, Hall, bool_decide_eq_true in Hin. unfold childAt in Hin. destruct (children !! id); simpl in *; congruence.
  - intros Hall id Hin%list_elem_of_In%map_keys. apply bool_decide_eq_true. unfold childAt. by rewrite Hall.
Qed.

(** What the stream decides is what the history decides. *)
Lemma consequence_decided i rest evs order id m :
  history (TransactionInitialized i :: rest) evs → consequenceOf order evs id = Ok (Some m) →
  decidedBy i (TransactionInitialized i :: rest) m.
Proof.
  intros Hh. unfold consequenceOf. rewrite (history_top _ _ Hh). destruct (topOf _) eqn:Htop; try done.
  - destruct (decodeSpec evs) as [x|] eqn:Hs; [|done]. cbn [rbind].
    destruct (history_spec _ _ _ Hh Hs) as (i' & rest' & [= <- <-] & ->). rewrite (history_children _ _ Hh). cbn [rbind].
    destruct (firstFailed _ _) as [fid|] eqn:Hf.
    + destruct (failureReason evs fid) as [reason|]; [|done]. cbn [rbind]. intros [= <-]. split; [done|].
      unfold firstFailed in Hf. apply fmap_Some in Hf as ([? ?] & Hf & ->). apply list_find_Some in Hf as (_ & Hf & _). eauto.
    + destruct (allTerminal _ _) eqn:Hall; [|done]. intros [= <-]. split; [done|]. exact (proj1 (allTerminal_spec _ _) Hall).
  - destruct (decodeSpec evs) as [x|] eqn:Hs; [|done]. cbn [rbind].
    destruct (history_spec _ _ _ Hh Hs) as (i' & rest' & [= <- <-] & ->). rewrite (history_children _ _ Hh). cbn [rbind].
    destruct (_ || _) eqn:Hb; [done|]. apply orb_false_iff in Hb as [Hc%negb_false_iff%bool_decide_eq_true Hfl].
    destruct (rollbackStartedReason evs) as [reason|]; [|done]. cbn [rbind].
    destruct (anyFailed _) eqn:Hany; intros [= <-]; (split; [done|]); done.
Qed.

Lemma consequence_undecided i rest evs order id :
  history (TransactionInitialized i :: rest) evs →
  order ≡ₚ (map_to_list (childrenOf (TransactionInitialized i :: rest))).*1 →
  consequenceOf order evs id = Ok None → undecided i (TransactionInitialized i :: rest).
Proof.
  intros Hh Hord. unfold consequenceOf. rewrite (history_top _ _ Hh).
  set (h := TransactionInitialized i :: rest) in *. intros Hc. split; intros Htop; rewrite Htop in Hc.
  - destruct (decodeSpec evs) as [x|] eqn:Hs; [|done]. cbn [rbind] in Hc.
    destruct (history_spec _ _ _ Hh Hs) as (i' & rest' & [= <- <-] & ->). rewrite (history_children _ _ Hh) in Hc. cbn [rbind] in Hc.
    destruct (firstFailed _ _) as [fid|] eqn:Hf; [by destruct (failureReason evs fid)|].
    destruct (allTerminal _ _) eqn:Hall; [done|]. split.
    + intros fid _ Hfid. unfold firstFailed in Hf. apply fmap_None in Hf. rewrite list_find_None in Hf.
      rewrite Forall_forall in Hf. apply (Hf fid); [|done]. rewrite Hord. apply map_keys. eauto.
    + intros Hcomp. apply (proj2 (allTerminal_spec _ _)) in Hcomp. congruence.
  - destruct (decodeSpec evs) as [x|] eqn:Hs; [|done]. cbn [rbind] in Hc.
    destruct (history_spec _ _ _ Hh Hs) as (i' & rest' & [= <- <-] & ->). rewrite (history_children _ _ Hh) in Hc. cbn [rbind] in Hc.
    intros b (Hcand & Hfl & _). rewrite Hcand, Hfl in Hc. simpl in Hc.
    destruct (rollbackStartedReason evs); [|done]. cbn [rbind] in Hc. by destruct (negb _).
Qed.

(** Is this a fact of the rollback? *)
Definition undoFact m : option string :=
  match m with
  | TransferReversalRequestedWithinTransaction _ id _ | TransferRolledBackWithinTransaction _ id _ _
  | TransferRollbackFailedWithinTransaction _ id _ => Some id
  | _ => None
  end.

(** The check before a step is recorded is [decidable], the dependents of an
    undone child apart. *)
Lemma stillDecidable_decidable i rest evs order id m :
  history (TransactionInitialized i :: rest) evs → stillDecidableOf order evs id m = Ok true →
  (∀ c, undoFact m = Some c → topOf (TransactionInitialized i :: rest) = stateRollbackStarted →
     touched (TransactionInitialized i :: rest) c ∧
     dependentsSettled (in_TransferDependency i) (TransactionInitialized i :: rest) c) →
  decidable i (TransactionInitialized i :: rest) m.
Proof.
  intros Hh Hs Hundo. unfold stillDecidableOf in Hs. rewrite (history_top _ _ Hh), (history_children _ _ Hh) in Hs.
  destruct m; simpl kind_of in Hs; cbv iota in Hs; try discriminate Hs; cbn [rbind] in Hs.
  - destruct (negb _) eqn:Ht; [done|]. apply negb_false_iff, bool_decide_eq_true in Ht. injection Hs as Hs.
    apply bool_decide_eq_true in Hs. simpl in Hs. unfold childAt in Hs. split; [done|].
    destruct (_ !! _); simpl in Hs; congruence.
  - destruct (negb _) eqn:Ht; [done|]. apply negb_false_iff, bool_decide_eq_true in Ht. injection Hs as Hs.
    apply bool_decide_eq_true in Hs. simpl in Hs. unfold childAt in Hs. split; [done|].
    destruct (_ !! _); simpl in Hs; congruence.
  - destruct (consequenceOf order evs id) as [[m'|]|] eqn:Hc; cbn [rbind] in Hs; [|done|done].
    injection Hs as Hs. apply bool_decide_eq_true in Hs. injection Hs as Hk.
    apply (consequence_decided i rest) in Hc; [|done]. apply EventType_inj in Hk.
    destruct m'; simpl in Hk; try discriminate Hk; exact Hc.
  - injection Hs as Hs. apply orb_true_iff in Hs as [Hs|Hs]; apply bool_decide_eq_true in Hs; simpl; auto.
  - injection Hs as Hs. apply bool_decide_eq_true in Hs. split; [done|]. by apply Hundo.
  - injection Hs as Hs. apply bool_decide_eq_true in Hs. split; [done|]. by apply Hundo.
  - injection Hs as Hs. apply bool_decide_eq_true in Hs. split; [done|]. by apply Hundo.
  - destruct (consequenceOf order evs id) as [[m'|]|] eqn:Hc; cbn [rbind] in Hs; [|done|done].
    injection Hs as Hs. apply bool_decide_eq_true in Hs. injection Hs as Hk.
    apply (consequence_decided i rest) in Hc; [|done]. apply EventType_inj in Hk.
    destruct m'; simpl in Hk; try discriminate Hk; exact Hc.
  - destruct (consequenceOf order evs id) as [[m'|]|] eqn:Hc; cbn [rbind] in Hs; [|done|done].
    injection Hs as Hs. apply bool_decide_eq_true in Hs. injection Hs as Hk.
    apply (consequence_decided i rest) in Hc; [|done]. apply EventType_inj in Hk.
    destruct m'; simpl in Hk; try discriminate Hk; exact Hc.
Qed.
End history.

(** ** The protocol, and the invariant it keeps *)

Section protocol.
Context {C : Codec} {L : LedgerClient}.

(** What a child's bookkeeping says of the Transfers it is about. *)
Definition supported (m : message) (w : World) : Prop :=
  match m with
  | TransferCompletedWithinTransaction _ id | TransferReversalRequestedWithinTransaction _ id _ =>
      ended id stateCommitted w
  | TransferFailedWithinTransaction _ id _ => dead id w
  | TransferRolledBackWithinTransaction _ id method reversalID =>
      match method with
      | ROLLBACK_METHOD_REVERSED => ended reversalID stateCommitted w
      | ROLLBACK_METHOD_CANCELLED => ended id stateCancelled w
      | ROLLBACK_METHOD_ABANDONED => dead id w
      | ROLLBACK_METHOD_UNSPECIFIED => False
      end
  | _ => True
  end.

Class TransactionProtocol (legal : World → string → list Event → list message → Prop) : Prop :=
  legal_transaction w id evs ms :
    legal w (streamKey TransactionAggregateType id) evs ms ↔
    ∃ h, history h evs ∧ xstep h ms ∧ Forall (λ m, supported m w) ms.
End protocol.

Section safety.
Context {C : Codec} {CL : CodecLaws C} {U : UuidPackage} {S256 : Sha256} {L : LedgerClient}.
Context (legal : World → string → list Event → list message → Prop).
Context {TP : TransferProtocol legal} {XP : TransactionProtocol legal}.
Notation safeM := (safeM legal).
Notation conforms := (conforms legal).
Notation rely := (rely legal).
Notation txStream w id := (stream w TransactionAggregateType id).

Lemma supported_stable m : stable legal (supported m).
Proof.
  intros w w' Hr Hs. destruct m; simpl in *; try done; try (by eapply (ended_stable legal)); try (by eapply dead_stable).
  destruct method; [done|by eapply (ended_stable legal)..|by eapply dead_stable].
Qed.

(** Every Transaction's stream is well formed, and says of its Transfers what is
    so. *)
Definition txok (w : World) : Prop :=
  ∀ id, ∃ h, history h (txStream w id) ∧ wf_tx h ∧ Forall (λ m, supported m w) h.

Lemma guar_xgrow w w' id h :
  guar legal w w' → history h (txStream w id) →
  ∃ h', history h' (txStream w' id) ∧ rtc xgrow h h' ∧ (Forall (λ m, supported m w) h → Forall (λ m, supported m w) h').
Proof.
  intros Hg Hh. unfold stream in *. destruct (Hg (streamKey TransactionAggregateType id)) as [->|(ms & batch & -> & Hrec & Hl)].
  - exists h. by split.
  - apply legal_transaction in Hl as (h2 & Hh2 & Hx & Hs). rewrite <- (history_unique _ _ _ Hh Hh2) in Hx.
    exists (h ++ ms). split; [by apply history_app|]. split; [by apply rtc_once|]. intros Hs0. by apply Forall_app.
Qed.

Lemma rely_xgrow w w' id h :
  rely w w' → history h (txStream w id) → ∃ h', history h' (txStream w' id) ∧ rtc xgrow h h'.
Proof.
  intros Hr. revert h. induction Hr as [w|w w1 w2 Hg _ IH]; intros h Hh; [by exists h|].
  destruct (guar_xgrow _ _ _ _ Hg Hh) as (h1 & Hh1 & Hx1 & _). destruct (IH _ Hh1) as (h2 & Hh2 & Hx2).
  exists h2. split; [done | by etrans].
Qed.

Lemma txok_stable : stable legal txok.
Proof.
  intros w w' Hr. induction Hr as [w|w w1 w2 Hg _ IH]; intros Hok; [done|]. apply IH. intros id.
  destruct (Hok id) as (h & Hh & Hwf & Hs). destruct (guar_xgrow _ _ _ _ Hg Hh) as (h' & Hh' & Hx & Hs').
  exists h'. split; [done|]. split; [by eapply xgrow_rtc_wf|]. eapply Forall_impl; [by apply Hs'|].
  intros m. apply supported_stable. by apply rely_guar.
Qed.

(** [evs], whose history is [h], was the whole stream at some point. *)
Definition read (id : string) (evs : list Event) (h : list message) (w : World) : Prop :=
  ∃ w0, rely w0 w ∧ evs = txStream w0 id ∧ history h evs ∧ wf_tx h.

Lemma read_stable id evs h : stable legal (read id evs h).
Proof. intros w w' Hr (w0 & Hr0 & ?). exists w0. split; [by etrans | done]. Qed.

Lemma read_seen id evs h w : read id evs h w → seen TransactionAggregateType id evs w.
Proof. intros (w0 & Hr & -> & _). by apply (rely_prefix legal). Qed.

Lemma read_grown id evs h w w' :
  read id evs h w → rely w w' → ∃ h', history h' (txStream w' id) ∧ rtc xgrow h h'.
Proof. intros (w0 & Hr & -> & Hh & _) Hr'. eapply rely_xgrow; [|exact Hh]. by etrans. Qed.

Lemma loadTransaction_safe id w :
  txok w → safeM (loadTransaction id) (λ evs w', ∃ h, read id evs h w') w.
Proof.
  intros Hok. apply safeM_mapErr. eapply safeM_mono; [apply safeM_load_at|].
  intros evs w' _ (w0 & Hr0 & Hr & ->). destruct (txok_stable _ _ Hr0 Hok id) as (h & Hh & Hwf & _).
  exists h, w0. done.
Qed.

Lemma good_tx id evs h ms w :
  read id evs h w → xstep h ms → Forall (λ m, supported m w) ms →
  good legal (mkStreamWrite TransactionAggregateType id (len evs) ms) w.
Proof.
  intros Hread Hx Hs. apply good_seen; [by eapply read_seen|]. intros w' Hr. apply legal_transaction.
  destruct Hread as (w0 & _ & _ & Hh & _). exists h. split; [done|]. split; [done|].
  eapply Forall_impl; [exact Hs|]. intros m. by apply supported_stable.
Qed.

(** The steps a history decides say nothing of any one Transfer. *)
Lemma decides_supported i h ds w : decides i h ds → Forall (λ m, supported m w) ds.
Proof. induction 1 as [|h m ds Hd _ IH]; constructor; [by destruct m | done]. Qed.

(** The child may be undone, and stays so. *)
Definition undoable (id c : string) (w : World) : Prop :=
  ∃ evs i rest, read id evs (TransactionInitialized i :: rest) w ∧
    backward (topOf (TransactionInitialized i :: rest)) = true ∧ touched (TransactionInitialized i :: rest) c ∧
    dependentsSettled (in_TransferDependency i) (TransactionInitialized i :: rest) c.

Lemma undoable_stable id c : stable legal (undoable id c).
Proof. intros w w' Hr (evs & i & rest & Hread & ?). exists evs, i, rest. split; [by eapply read_stable | done]. Qed.

(** Whatever is read after a child was known to be undoable shows that it is. *)
Lemma undoable_then id c i rest w w0 :
  undoable id c w → rely w w0 → history (TransactionInitialized i :: rest) (txStream w0 id) →
  touched (TransactionInitialized i :: rest) c ∧
  dependentsSettled (in_TransferDependency i) (TransactionInitialized i :: rest) c.
Proof.
  intros (evs0 & i0 & rest0 & Hread0 & Hb & Ht & Hd) Hr Hh.
  destruct (read_grown _ _ _ _ _ Hread0 Hr) as (h' & Hh' & Hg).
  rewrite <- (history_unique _ _ _ Hh Hh') in Hg. destruct Hread0 as (_ & _ & _ & _ & Hwf).
  destruct (xgrow_rtc_msteps _ _ _ Hg Hwf) as (ms & Heq & Hms).
  destruct (msteps_backward _ _ _ Hms Hb) as [_ Hback]. rewrite <- Heq in Hback.
  simplify_eq/=. split; [by apply (touched_app (TransactionInitialized i0 :: rest0))|].
  intros c' Hedge Hc'. destruct (Hd c' Hedge (Hback _ Hc')) as (m & Hin & Hres). exists m. split; [|done].
  rewrite app_comm_cons, elem_of_app. by left.
Qed.

Lemma loadTransaction_undoable id w :
  txok w → safeM (loadTransaction id) (λ evs w', ∃ h, read id evs h w' ∧
    ∀ c i rest, undoable id c w → h = TransactionInitialized i :: rest →
      touched h c ∧ dependentsSettled (in_TransferDependency i) h c) w.
Proof.
  intros Hok. apply safeM_mapErr. eapply safeM_mono; [apply safeM_load_at|].
  intros evs w' _ (w0 & Hr0 & Hr & ->). destruct (txok_stable _ _ Hr0 Hok id) as (h & Hh & Hwf & _).
  exists h. split; [by exists w0|]. intros c i rest Hu ->. by eapply undoable_then.
Qed.

(** ** Recording a step *)

Lemma consequence_safe i rest evs id w :
  history (TransactionInitialized i :: rest) evs →
  safeM (consequence evs id) (λ out _,
    match out with
    | Some m => decidedBy i (TransactionInitialized i :: rest) m
    | None => undecided i (TransactionInitialized i :: rest)
    end) w.
Proof.
  intros Hh. unfold consequence, childOrder. rewrite (history_children _ _ Hh).
  eapply safeM_bind_ok; [apply safeM_rangeKeys|]. intros order w1 _ Hord. apply safeM_lift.
  intros [m|] w2 Hc _; [by eapply consequence_decided|].
  exact (consequence_undecided _ _ _ _ _ Hh Hord Hc).
Qed.

Lemma consequences_safe n i rest evs id next w :
  history (TransactionInitialized i :: rest) evs →
  safeM (consequences n evs id next) (λ ds _, decides i (TransactionInitialized i :: rest ++ [next]) ds) w.
Proof.
  revert rest evs next w. induction n as [|n IH]; intros rest evs next w Hh; simpl; [apply safeM_fail|].
  eapply safeM_bind_ok; [apply safeM_lift; intros after w1 Ha _; exact Ha|]. intros after w1 _ Ha.
  apply (history_pending _ _ _ _ _ Hh) in Ha.
  eapply safeM_bind_ok; [apply (consequence_safe i (rest ++ [next])), Ha|]. intros [m|] w2 _ Hd.
  - eapply safeM_bind_ok; [apply IH, Ha|]. intros ds w3 _ Hds. apply safeM_ret. intros w4 _.
    exact (decides_cons i _ m ds Hd Hds).
  - apply safeM_ret. intros w3 _. by constructor.
Qed.

(** A step that may still be recorded is one of an opened Transaction. *)
Lemma stillDecidable_opened order evs id m h :
  history h evs → wf_tx h → stillDecidableOf order evs id m = Ok true → ∃ i rest, h = TransactionInitialized i :: rest.
Proof.
  intros Hh [->|[(id' & reason & ->)|(i & rest & -> & _)]] Hs; [| |by eauto]; exfalso;
    unfold stillDecidableOf, consequenceOf in Hs; rewrite (history_top _ _ Hh) in Hs;
    destruct m; simpl in Hs; discriminate Hs.
Qed.

Lemma appendTxStep_safe fuel id m w :
  txok w → supported m w → (∀ c, undoFact m = Some c → undoable id c w) →
  safeM (appendTxStep fuel id m) (λ _ _, True) w.
Proof.
  unfold appendTxStep. revert w. induction fuel as [|n IH]; intros w Hok Hsup Hundo; cbn [appendSagaStepLoop]; [apply safeM_fail|].
  eapply safeM_bind_ok; [by apply loadTransaction_undoable|]. intros evs w1 Hr1 (h & Hread & Hu).
  eapply safeM_bind_any; [conform|]. intros [] w2 Hr2; [by apply safeM_ret|].
  unfold stillDecidable. eapply safeM_bind_ok.
  { unfold childOrder. eapply safeM_bind_any; [conform|]. intros order w3 _. apply (safeM_lift legal _ (λ ok _, ok = true →
      ∃ i rest, h = TransactionInitialized i :: rest ∧ decidable i h m)).
    intros ok w4 Hs _ ->. destruct Hread as (w0 & _ & _ & Hh & Hwf).
    destruct (stillDecidable_opened _ _ _ _ _ Hh Hwf Hs) as (i & rest & ->). exists i, rest. split; [done|].
    eapply stillDecidable_decidable; [done|done|]. intros c Hc _. eapply Hu; [by apply Hundo | done]. }
  intros ok w3 Hr3 Hdec. destruct ok; cbn [negb]; [|by apply safeM_ret].
  destruct (Hdec eq_refl) as (i & rest & -> & Hd).
  eapply (safeM_bind_ok legal _ _ (λ ds w', xstep (TransactionInitialized i :: rest) (m :: ds) ∧
            Forall (λ d, supported d w') ds)).
  { case_bool_decide as Hc; cbn [negb].
    - apply safeM_ret. intros w4 _. split; [by apply x_decision | constructor].
    - eapply safeM_mono; [apply (consequences_safe _ i rest); by destruct Hread as (? & ? & ? & ? & ?)|].
      intros ds w4 _ Hds. split; [by apply x_outcome | exact (decides_supported _ _ _ _ Hds)]. }
  intros ds w4 Hr4 [Hx Hds]. assert (Hr14 : rely w1 w4) by (do 2 (etrans; [eassumption|]); done).
  apply safeM_try, safe_append; [eapply good_tx; [by eapply read_stable|done|]|].
  { constructor; [|done]. eapply supported_stable; [|exact Hsup]. by etrans. }
  intros r w5 Hr5.
  destruct r as [|err]; [by apply safeM_ret|]. destruct (Is _ _); [|apply safeM_fail].
  assert (Hr05 : rely w w5) by (etrans; [exact Hr1|]; etrans; [exact Hr14 | exact Hr5]).
  apply IH; [by eapply txok_stable|by eapply supported_stable|].
  intros c Hc. eapply undoable_stable; [exact Hr05 | by apply Hundo].
Qed.

(** ** Dispatching *)

(** The Transfers' side: whatever it does to its own streams it keeps to their
    protocol, and its answers are true of them. *)
Record client_ok (client : TransferClient) : Prop := {
  co_request req w :
    safeM (tc_RequestTransfer client req) (λ resp w', ∀ id reason,
      rs_Result resp = TransferRequestRejected id reason → refused (rt_Id req) w') w;
  co_cancel id reason w :
    safeM (tc_CancelAcceptedTransfer client id reason) (λ _ w', ended id stateCancelled w') w;
  co_reverse req : conforms (tc_RequestReversal client req);
  co_cancel_staged id reason w :
    safeM (tc_CancelStagedTransfer client id reason) (λ resp w',
      match rs_Result resp with CancelStagedTransferRejected _ _ => True | _ => ended id stateCancelled w' end) w;
  co_would_accept id amount tx : conforms (tc_WouldAcceptTransfer client id amount tx)
}.

Context (client : TransferClient) (Hclient : client_ok client) (fuel : nat).
Notation safe_done m w := (safeM m (λ _ _, True) w).

Lemma appendTxStep_forward id m w :
  txok w → supported m w → undoFact m = None → safe_done (appendTxStep fuel id m) w.
Proof. intros Hok Hs Hm. apply appendTxStep_safe; [done|done|]. intros c. by rewrite Hm. Qed.

(** Through a sequence of programs the invariant holds at each start. *)
Lemma safeM_bind_txok {A B} (m : M A) (f : A → M B) Q w :
  txok w → safe_done m w → (∀ a w', rely w w' → txok w' → safeM (f a) Q w') → safeM (bind m f) Q w.
Proof.
  intros Hok Hm Hf. eapply safeM_bind_done; [exact Hm|]. intros a w' Hr. apply Hf; [done | by eapply txok_stable].
Qed.

Lemma requestChildTransfer_safe id spec w : txok w → safe_done (requestChildTransfer client fuel id spec) w.
Proof.
  intros Hok. unfold requestChildTransfer. eapply safeM_bind_ok; [apply co_request, Hclient|].
  intros resp w1 Hr1 Hresp. assert (Hok1 : txok w1) by by eapply txok_stable.
  destruct (rs_Result resp) eqn:Hres; try by apply safeM_ret.
  apply safeM_bind_txok; [done|apply appendTxStep_forward; [done| |done]|by intros; apply safeM_ret].
  left. by eapply Hresp.
Qed.

Lemma recordIntents_safe id evs h ms w :
  read id evs h w → xstep h ms → Forall (λ m, supported m w) ms → safe_done (recordIntents id (len evs) ms) w.
Proof.
  intros Hread Hx Hs. apply safeM_try, safe_append; [by eapply good_tx|]. intros r w' _.
  destruct r as [|err]; [by apply safeM_ret|]. destruct (Is _ _); [by apply safeM_ret | apply safeM_fail].
Qed.

Lemma ready_dispatchable i order (children : Children) n :
  order ≡ₚ (map_to_list (in_Transfers i)).*1 →
  dispatchable i children (take n (readyToRun order (in_TransferDependency i) (touchedSet children) (completedSet children))).
Proof.
  intros Hord. split.
  - eapply sublist_NoDup; [|apply sublist_take]. apply NoDup_filter. rewrite Hord. apply NoDup_fst_map_to_list.
  - intros x Hx%elem_of_take. destruct Hx as (k & Hk & _). apply list_elem_of_lookup_2, readyToRun_spec in Hk as (Hin & Hn & Hp).
    rewrite Hord in Hin. by apply map_keys in Hin.
Qed.

Lemma dispatchReady_safe id evs i rest (starting : bool) w :
  txok w → read id evs (TransactionInitialized i :: rest) w →
  topOf (TransactionInitialized i :: rest) = (if starting then stateInitialized else stateStarted) →
  safe_done (dispatchReady client fuel id (len evs) (in_Transfers i) (in_TransferDependency i)
    (if starting then ∅ else childrenOf (TransactionInitialized i :: rest)) starting) w.
Proof.
  intros Hok Hread Htop. unfold dispatchReady.
  eapply safeM_bind_ok; [apply safeM_rangeKeys|]. intros order w1 Hr1 Hord. cbv zeta.
  set (children := if starting then ∅ else childrenOf (TransactionInitialized i :: rest)).
  pose proof (ready_dispatchable i order children maxDispatchPerStep Hord) as Hdisp.
  set (ready := readyToRun _ _ _ _) in *. destruct (_ && _) eqn:Hempty; [by apply safeM_ret|].
  set (slice := take _ _) in *.
  apply safeM_bind_txok; [by eapply txok_stable|eapply recordIntents_safe; [by eapply read_stable| |]|].
  { destruct starting; [by apply x_start|]. simpl. apply x_dispatch; [done|done|].
    apply andb_false_iff in Hempty as [Hne%bool_decide_eq_false|]; [|done].
    unfold slice, maxDispatchPerStep. by destruct ready. }
  { apply Forall_app. split; [destruct starting; by repeat constructor|]. apply Forall_fmap, Forall_forall. by intros. }
  intros recorded w2 Hr2 Hok2. destruct recorded; simpl; [|by apply safeM_ret].
  apply safeM_bind_txok; [done| |by intros; apply safeM_ret].
  apply safeM_mapM_. intros c w3 _ Hr3. apply safeM_bind_txok; [by eapply txok_stable| |by intros; apply safeM_ret].
  apply requestChildTransfer_safe. by eapply txok_stable.
Qed.

(** ** Reconciling *)

Lemma reconcileChild_safe id transfers c w : txok w → safe_done (reconcileChild client fuel id transfers c) w.
Proof.
  intros Hok. unfold reconcileChild. eapply safeM_bind_ok; [by eapply Outcome_safe|]. intros out w1 Hr1 Hout.
  assert (Hok1 : txok w1) by by eapply txok_stable.
  destruct out; simpl in Hout; try (by apply safeM_ret); try (by apply requestChildTransfer_safe);
    (apply safeM_bind_txok; [done|apply appendTxStep_forward; [done| |done]|by intros; apply safeM_ret]);
    simpl; unfold dead; auto.
Qed.

Lemma anyChild_safe (f : string → M bool) ids progressed w :
  txok w → (∀ c w', c ∈ ids → rely w w' → txok w' → safe_done (f c) w') → safe_done (anyChild f ids progressed) w.
Proof.
  revert progressed w. induction ids as [|c ids IH]; intros progressed w Hok Hf; simpl; [by apply safeM_ret|].
  apply safeM_bind_txok; [done|apply Hf; [left|done|done]|]. intros p w1 Hr Hok1. apply IH; [done|].
  intros c' w2 Hin Hr2. apply Hf; [by right | by etrans].
Qed.

Lemma reconcileInFlight_safe id transfers children w :
  txok w → safe_done (reconcileInFlight client fuel id transfers children) w.
Proof.
  intros Hok. unfold reconcileInFlight. apply safeM_bind_txok; [done|apply conforms_safeM; conform|]. intros order w1 _ Hok1.
  apply anyChild_safe; [done|]. intros. by apply reconcileChild_safe.
Qed.

Lemma reconcileReversal_safe id evs c w :
  txok w → undoable id c w → safe_done (reconcileReversal fuel id evs c) w.
Proof.
  intros Hok Hu. unfold reconcileReversal. apply safeM_bind_txok; [done|apply conforms_safeM; conform|]. intros rid w1 Hr1 Hok1.
  case_bool_decide; [apply safeM_fail|].
  eapply safeM_bind_ok; [by eapply Outcome_safe|]. intros out w2 Hr2 Hout.
  assert (Hok2 : txok w2) by by eapply txok_stable. assert (Hu2 : undoable id c w2) by (eapply undoable_stable; [|exact Hu]; by etrans).
  destruct out; try (by apply safeM_ret);
    (apply safeM_bind_txok; [done|apply appendTxStep_safe; [done|done|]; by intros c' [= <-]|]; intros; by apply safeM_ret).
Qed.

(** A child being reversed was undoable when its reversal was asked for. *)
Lemma reversing_undoable id evs i rest c w :
  read id evs (TransactionInitialized i :: rest) w → topOf (TransactionInitialized i :: rest) = stateRollbackStarted →
  childrenOf (TransactionInitialized i :: rest) !! c = Some childRollbackRequested → undoable id c w.
Proof.
  intros Hread Htop Hc. exists evs, i, rest. split; [done|]. split; [by rewrite Htop|].
  apply childrenOf_source in Hc as (m & Hin & Hf). destruct Hread as (_ & _ & _ & _ & [?|[(?&?&?)|(i' & rest' & Heq & Hwf & _)]]);
    [done|done|]. simplify_eq. eapply undone_settled; [done|exact Hin|]. destruct m; simpl in Hf; by simplify_eq/=.
Qed.

Lemma reconcileRollbacks_safe id evs i rest w :
  txok w → read id evs (TransactionInitialized i :: rest) w →
  topOf (TransactionInitialized i :: rest) = stateRollbackStarted →
  safe_done (reconcileRollbacks fuel id evs (childrenOf (TransactionInitialized i :: rest))) w.
Proof.
  intros Hok Hread Htop. unfold reconcileRollbacks. apply safeM_bind_txok; [done|apply conforms_safeM; conform|].
  intros order w1 Hr1 Hok1. apply anyChild_safe; [done|]. intros c w2 Hin Hr2 Hok2. apply reconcileReversal_safe; [done|].
  unfold inState in Hin. apply list_elem_of_filter in Hin as [Hc _].
  eapply reversing_undoable; [|done|done]. eapply read_stable; [|exact Hread]. by etrans.
Qed.

(** ** Rolling back *)

Lemma candidate_undoable id evs i rest order c w :
  read id evs (TransactionInitialized i :: rest) w → topOf (TransactionInitialized i :: rest) = stateRollbackStarted →
  c ∈ candidates (planRollback order (in_TransferDependency i) (childrenOf (TransactionInitialized i :: rest))) →
  undoable id c w.
Proof.
  intros Hread Htop (_ & Hst & Hdep)%candidates_spec. exists evs, i, rest. split; [done|]. split; [by rewrite Htop|].
  split; [by destruct Hst as [?|[?|?]]; eexists|]. intros d Hedge Hd. by apply resolved_source, Hdep.
Qed.

(** The spec a candidate is undone by is its own. *)
Lemma candidate_spec id evs i rest order c w :
  read id evs (TransactionInitialized i :: rest) w → order ≡ₚ (map_to_list (in_Transfers i)).*1 →
  c ∈ candidates (planRollback order (in_TransferDependency i) (childrenOf (TransactionInitialized i :: rest))) →
  ct_Id (specOf (in_Transfers i) c) = c.
Proof.
  intros (_ & _ & _ & _ & Hwf) Hord (Hin & _)%candidates_spec. rewrite Hord, map_keys in Hin. destruct Hin as [spec Hspec].
  destruct Hwf as [?|[(?&?&?)|(i' & rest' & Heq & Hwf & _)]]; [done|done|]. simplify_eq.
  destruct (wr_spec _ _ Hwf) as (_ & _ & Hall & _). unfold specOf. rewrite Hspec. simpl. by apply Hall.
Qed.

Lemma undo_safe id m c w :
  txok w → undoable id c w → supported m w → undoFact m = Some c → safe_done (appendTxStep fuel id m) w.
Proof. intros Hok Hu Hs Hm. apply appendTxStep_safe; [done|done|]. intros c' Hc'. by simplify_eq. Qed.

Lemma rollbackChild_safe n id spec st w :
  txok w → undoable id (ct_Id spec) w → safe_done (rollbackChild client fuel n id spec st) w.
Proof.
  revert st w. induction n as [|n IH]; intros st w Hok Hu; simpl; [apply safeM_fail|].
  destruct (_ && _); [apply safeM_fail|]. eapply safeM_bind_ok; [by eapply Outcome_safe|]. intros out w1 Hr1 Hout.
  assert (Hok1 : txok w1) by by eapply txok_stable. assert (Hu1 : undoable id (ct_Id spec) w1) by by eapply undoable_stable.
  assert (Hstaged : safe_done (let* resp := tc_CancelStagedTransfer client (ct_Id spec) rollbackReason in
    match rs_Result resp with
    | CancelStagedTransferRejected _ reason =>
        appendTxStep fuel id (TransferRollbackFailedWithinTransaction id (ct_Id spec) reason)
    | _ => appendTxStep fuel id (TransferRolledBackWithinTransaction id (ct_Id spec) ROLLBACK_METHOD_CANCELLED "")
    end) w1).
  { eapply safeM_bind_ok; [apply co_cancel_staged, Hclient|]. intros resp w2 Hr2 Hresp.
    cbv beta in Hresp. revert Hresp.
    destruct (rs_Result resp); intros Hresp;
      (eapply undo_safe; [by eapply txok_stable|by eapply undoable_stable|exact Hresp|done]). }
  destruct out; simpl in Hout; try exact Hstaged;
    try (by eapply undo_safe; [done|done|simpl; unfold dead; auto|done]).
  - eapply safeM_bind_ok; [apply co_request, Hclient|]. intros resp w2 Hr2 _.
    apply IH; [by eapply txok_stable|by eapply undoable_stable].
  - eapply safeM_try_ok; [apply co_cancel, Hclient| |].
    + intros resp w2 Hr2 Hc. eapply undo_safe; [by eapply txok_stable|by eapply undoable_stable|done|done].
    + intros err w2 Hr2. case_bool_decide; [|apply safeM_fail]. apply IH; [by eapply txok_stable|by eapply undoable_stable].
  - apply safeM_bind_txok; [done|apply co_reverse, Hclient|]. intros resp w2 Hr2 Hok2.
    assert (Hout2 : ended (ct_Id spec) stateCommitted w2) by by eapply (ended_stable legal).
    destruct (rs_Result resp); (eapply undo_safe; [done|by eapply undoable_stable|done|done]).
Qed.

Lemma rollbackNext_safe id evs i rest w :
  txok w → read id evs (TransactionInitialized i :: rest) w →
  topOf (TransactionInitialized i :: rest) = stateRollbackStarted →
  safe_done (rollbackNext client fuel id (in_Transfers i) (in_TransferDependency i)
    (childrenOf (TransactionInitialized i :: rest))) w.
Proof.
  intros Hok Hread Htop. unfold rollbackNext.
  eapply safeM_bind_ok; [apply safeM_rangeKeys|]. intros order w1 Hr1 Hord. cbv zeta.
  set (plan := planRollback _ _ _). apply safeM_bind_txok; [by eapply txok_stable| |].
  - apply safeM_mapM_. intros c w2 Hin Hr2. assert (Hr02 : rely w w2) by by etrans.
    apply elem_of_take in Hin as (k & Hk & _). apply list_elem_of_lookup_2 in Hk.
    apply rollbackChild_safe; [by eapply txok_stable|].
    rewrite (candidate_spec _ _ _ _ _ _ _ Hread Hord Hk).
    eapply candidate_undoable; [by eapply read_stable|done|exact Hk].
  - intros _ w2 _ _. destruct (take _ _); by apply safeM_ret.
Qed.

(** ** Driving *)

Lemma read_opened id evs h x w :
  read id evs h w → decodeSpec evs = Ok x →
  ∃ i rest, h = TransactionInitialized i :: rest ∧ x = (in_Transfers i, in_TransferDependency i).
Proof. intros (_ & _ & _ & Hh & _) Hs. by eapply history_spec. Qed.

Lemma consequence_conforms evs id : conforms (consequence evs id).
Proof. unfold consequence, childOrder. conform. Qed.

(** Recording what the stream itself decided. *)
Lemma concluded_safe id evs i rest w (f : option message → M bool) :
  txok w → read id evs (TransactionInitialized i :: rest) w →
  (∀ w', rely w w' → txok w' → safe_done (f None) w') →
  (∀ m w', rely w w' → txok w' → supported m w' → undoFact m = None → safe_done (f (Some m)) w') →
  safe_done (bind (consequence evs id) f) w.
Proof.
  intros Hok (w0 & Hr0 & He & Hh & Hwf) Hnone Hsome.
  eapply safeM_bind_ok; [by apply (consequence_safe i rest)|]. intros [m|] w1 Hr1 Hd.
  - apply Hsome; [done|by eapply txok_stable|by destruct m..].
  - apply Hnone; [done|by eapply txok_stable].
Qed.

Lemma turn_safe id evs h w :
  txok w → read id evs h w → safe_done (turn client fuel id evs) w.
Proof.
  intros Hok Hread. assert (Hh : history h evs) by by destruct Hread as (? & ? & ? & ? & ?).
  unfold turn. rewrite (history_top _ _ Hh). destruct (topOf h) eqn:Htop; try (by apply safeM_ret); try apply safeM_fail.
  - eapply safeM_bind_ok; [apply safeM_lift; intros x w1 Hx _; exact Hx|]. intros x w1 Hr1 Hx.
    destruct (read_opened _ _ _ _ _ Hread Hx) as (i & rest & -> & ->).
    apply safeM_bind_txok; [by eapply txok_stable| |by intros [? ?] ???; apply safeM_ret].
    apply (dispatchReady_safe id evs i rest true); [by eapply txok_stable|by eapply read_stable|done].
  - eapply safeM_bind_ok; [apply safeM_lift; intros x w1 Hx _; exact Hx|]. intros x w1 Hr1 Hx.
    destruct (read_opened _ _ _ _ _ Hread Hx) as (i & rest & -> & ->). rewrite (history_children _ _ Hh).
    assert (Hok1 : txok w1) by by eapply txok_stable. assert (Hread1 := read_stable _ _ _ _ _ Hr1 Hread).
    eapply safeM_bind_ok; [apply (safeM_lift legal _ (λ ch _, ch = childrenOf (TransactionInitialized i :: rest))); by intros ch w2 [= <-] _|].
    intros ch w2 Hr2 ->. assert (Hok2 : txok w2) by by eapply txok_stable. assert (Hread2 := read_stable _ _ _ _ _ Hr2 Hread1).
    apply safeM_bind_txok; [done|by apply reconcileInFlight_safe|]. intros [] w3 Hr3 Hok3; [by apply safeM_ret|].
    assert (Hread3 := read_stable _ _ _ _ _ Hr3 Hread2).
    eapply concluded_safe; [done|exact Hread3| |].
    + intros w4 Hr4 Hok4. apply safeM_bind_txok; [done| |by intros [? ?] ???; apply safeM_ret].
      apply (dispatchReady_safe id evs i rest false); [done|by eapply read_stable|done].
    + intros m w4 Hr4 Hok4 Hs Hm. apply safeM_bind_txok; [done|by apply appendTxStep_forward|by intros; apply safeM_ret].
  - eapply safeM_bind_ok; [apply safeM_lift; intros x w1 Hx _; exact Hx|]. intros x w1 Hr1 Hx.
    destruct (read_opened _ _ _ _ _ Hread Hx) as (i & rest & -> & ->). rewrite (history_children _ _ Hh).
    assert (Hok1 : txok w1) by by eapply txok_stable. assert (Hread1 := read_stable _ _ _ _ _ Hr1 Hread).
    eapply safeM_bind_ok; [apply (safeM_lift legal _ (λ ch _, ch = childrenOf (TransactionInitialized i :: rest))); by intros ch w2 [= <-] _|].
    intros ch w2 Hr2 ->. assert (Hok2 : txok w2) by by eapply txok_stable. assert (Hread2 := read_stable _ _ _ _ _ Hr2 Hread1).
    apply safeM_bind_txok; [done|by eapply reconcileRollbacks_safe|]. intros [] w3 Hr3 Hok3; [by apply safeM_ret|].
    assert (Hread3 := read_stable _ _ _ _ _ Hr3 Hread2).
    apply safeM_bind_txok; [done|by eapply rollbackNext_safe|]. intros out w4 Hr4 Hok4.
    do 3 (match goal with |- context [if ?b then _ else _] => destruct b end; [by apply safeM_ret|]).
    eapply concluded_safe; [done|by eapply read_stable| |].
    + intros. apply safeM_fail.
    + intros m w5 Hr5 Hok5 Hs Hm. apply safeM_bind_txok; [done|by apply appendTxStep_forward|by intros; apply safeM_ret].
Qed.

Lemma ResumeTransaction_safe id w : txok w → safe_done (ResumeTransaction client fuel id) w.
Proof.
  unfold ResumeTransaction. generalize fuel at 2 as n. intros n. revert w.
  induction n as [|n IH]; intros w Hok; simpl; [apply safeM_fail|].
  eapply safeM_bind_ok; [by apply loadTransaction_safe|]. intros evs w1 Hr1 (h & Hread).
  assert (Hok1 : txok w1) by by eapply txok_stable. destruct evs as [|e evs]; [apply safeM_fail|].
  apply safeM_bind_txok; [done|by eapply turn_safe|]. intros [] w2 Hr2 Hok2; [by apply IH | by apply safeM_ret].
Qed.

(** ** The service *)

Lemma IsOpen_conforms id : conforms (IsOpen id).
Proof. unfold IsOpen, loadTransaction. conform. Qed.

Lemma Exists_conforms id : conforms (Exists id).
Proof. unfold Exists, loadTransaction. conform. Qed.

Lemma GetTransactionState_conforms id : conforms (GetTransactionState id).
Proof. unfold GetTransactionState, loadTransaction. conform. Qed.

Lemma ChildTransferIDs_conforms id : conforms (ChildTransferIDs id).
Proof.
  unfold ChildTransferIDs, loadTransaction. apply conforms_bind; [conform|]. intros evs. generalize ([] : list string).
  induction evs as [|e evs IH]; intros ids; simpl; [conform|]. destruct (_ || _); [|apply IH].
  apply conforms_bind; [conform|]. intros msg. apply conforms_bind; [conform|]. intros child. apply IH.
Qed.

Lemma wouldAcceptReadyChildren_conforms id transfers deps :
  conforms (wouldAcceptReadyChildren client id transfers deps).
Proof.
  unfold wouldAcceptReadyChildren. apply conforms_bind; [conform|]. intros order.
  induction (readyToRun _ _ _ _) as [|c ready IH]; simpl; [conform|].
  destruct (ct_MintSource _); [exact IH|]. apply conforms_bind; [apply co_would_accept, Hclient|].
  intros [reason|]; [conform | exact IH].
Qed.

(** Every answer is the decision the stream opens with. *)
Definition initiated (req : Initialized) (resp : TransactionResponse) (w : World) : Prop :=
  decidedStartInitializingTransaction (txStream w (in_Id req)) = Ok resp.

Lemma decidedStart_prefix evs evs' resp :
  evs `prefix_of` evs' → decidedStartInitializingTransaction evs = Ok resp →
  decidedStartInitializingTransaction evs' = Ok resp.
Proof. intros [k ->]. by destruct evs. Qed.

Lemma initiated_stable req resp : stable legal (initiated req resp).
Proof. intros w w' Hr. apply decidedStart_prefix. by apply (rely_prefix legal). Qed.

(** A Transaction is initialized only from a well-formed request. *)
Lemma decideTransaction_decides req w :
  safeM (decideTransaction client req)
    (λ m _, xstep [] [m] ∧ ∀ e, recorded m e → decidedStartInitializingTransaction [e] = Ok (in_Id req, m)) w.
Proof.
  eapply (safeM_mono legal _ (λ m _, xstep [] [m] ∧
            (m = TransactionInitialized req ∨ ∃ reason, m = TransactionRejected (in_Id req) reason))).
  - unfold decideTransaction. do 3 (eapply safeM_bind_ok; [apply safeM_rangeKeys|]; intros ? ? _ ?).
    destruct (validateDAG _ _ _) as [[]|e] eqn:Hv; [|apply safeM_ret; intros; split; [apply x_reject | by eauto]].
    eapply safeM_bind_any; [apply conforms_mapErr, wouldAcceptReadyChildren_conforms|]. intros reason w1 _.
    destruct (negb _); apply safeM_ret; intros; (split; [|by eauto]); [apply x_reject|]. apply x_init.
    eapply validateDAG_spec; [|exact Hv]. done.
  - intros m w' _ [Hx Hm]. split; [done|]. intros e He. unfold decidedStartInitializingTransaction.
    rewrite (recorded_Decode _ _ He). by destruct Hm as [->|[reason ->]].
Qed.

Lemma StartInitializingTransaction_initiated req w :
  safeM (StartInitializingTransaction client req) (initiated req) w.
Proof.
  unfold StartInitializingTransaction. eapply safeM_bind_any; [conform|]. intros _ w0 _. revert w0.
  induction maxConcurrencyAttempts as [|n IH]; intros w0; simpl; [apply safeM_fail|].
  eapply safeM_bind_ok; [apply safeM_mapErr, safeM_load|]. intros evs w1 _ Hseen.
  destruct evs as [|e evs].
  - eapply safeM_bind_ok; [apply decideTransaction_decides|]. intros event w2 _ [Hx Hev].
    apply safeM_try, safe_append_landed; [done| | |].
    + apply good_new. intros w' _. apply legal_transaction. exists []. split; [constructor|]. split; [done|].
      constructor; [by inversion Hx | constructor].
    + intros err w3 _. destruct (Is _ _); [apply IH | apply safeM_fail].
    + intros w3 evs batch _ Hlen Hrec Hseen'. apply safeM_ret. intros w4 Hr4. destruct evs; [|simpl in Hlen; lia].
      eapply initiated_stable; [exact Hr4|]. eapply decidedStart_prefix; [exact Hseen'|].
      apply Forall2_cons_inv_l in Hrec as (e & ? & He & ->%Forall2_nil_inv_l & ->). by apply Hev.
  - apply safeM_lift. intros out w2 Hout Hr. eapply initiated_stable; [exact Hr|].
    by eapply decidedStart_prefix; [exact Hseen|].
Qed.

Lemma StartInitializingTransaction_conforms req : conforms (StartInitializingTransaction client req).
Proof. intros w. eapply safeM_mono; [apply StartInitializingTransaction_initiated | done]. Qed.

Lemma StartTransactionRollback_safe id reason w : txok w → safe_done (StartTransactionRollback fuel id reason) w.
Proof.
  intros Hok. unfold StartTransactionRollback. apply safeM_bind_txok; [done|apply conforms_safeM; conform|]. intros _ w1 _ Hok1.
  apply safeM_bind_txok; [done|apply conforms_safeM; unfold loadTransaction; conform|]. intros evs w2 _ Hok2.
  destruct evs; [apply safeM_fail|]. destruct (topLevelState _); try (solve [apply conforms_safeM; conform]);
    (apply safeM_bind_txok; [done|apply safeM_mapErr; by apply appendTxStep_forward|];
     intros; apply conforms_safeM; unfold loadTransaction; conform).
Qed.
End safety.
