(* ===== verification/SimulateSafety.v ===== *)
(** * What a simulated transfer's report is worth

    The drivers of [go/cmd/simulate] against the services, with everything else of
    the system going on at the same time: each call they make keeps to the
    protocol, and a result they report without an error says of the Transfer or
    Transaction what is so and stays so. The drivers are proved against
    [ServicesOk], what they need of the services; the handlers of the two services
    meet it. *)

From S2P Require Import Prelude Proto EventStore Ledger Effects Validate Safety Wallet Token.
From S2P Require Import TransferState TransferManifest TransferSaga TransferServer TransferLegal.
From S2P Require Import TransferSafety Dag TransactionState TransactionSaga TransactionLegal TransactionSafety.
From S2P Require Import GoMath Simulate.

(** The services in the same process, as the package's own tests wire them. *)
Section inProcess.
Context {C : Codec} {U : UuidPackage} {S256 : Sha256}.

Definition transactionService (fuel : nat) : TransactionService :=
  mkTransactionService (StartInitializingTransaction (transferClient fuel)) GetTransactionState
    (StartTransactionRollback fuel).

Definition transferService (fuel : nat) : TransferService :=
  mkTransferService (RequestTransfer transferServer) (ConfirmStagedTransfer fuel)
    (CancelStagedTransfer fuel) (PostPendingTransfer fuel).
End inProcess.

Section safety.
Context {C : Codec} {CL : CodecLaws C} {U : UuidPackage} {S256 : Sha256} {L : LedgerClient}.
Context (legal : World → string → list Event → list message → Prop).
Context {TP : TransferProtocol legal} {XP : TransactionProtocol legal}.
Notation safe := (safe legal).
Notation safeM := (safeM legal).
Notation conforms := (conforms legal).
Notation rely := (rely legal).
Notation txStream w id := (stream w TransactionAggregateType id).

(** ** What a Transaction's state says from then on *)

Definition stood (id : string) (st : transactionState) (w : World) : Prop :=
  st ≠ stateTxUnknown ∧ (concluded st = true → topLevelState (txStream w id) = st).

Lemma topOf_known m rest : topOf [m] ≠ stateTxUnknown → topOf (m :: rest) ≠ stateTxUnknown.
Proof.
  unfold topOf. simpl. generalize (topStep stateTxUnknown m) as st. induction rest as [|x rest IH]; intros st Hst; [done|].
  simpl. apply IH. unfold topStep. destruct (topOfKind (kind_of x)) as [st'|] eqn:Hk; [|done]. simpl.
  by destruct x; simplify_eq/=.
Qed.

Lemma read_stood id evs h w : read legal id evs h w → evs ≠ [] → stood id (topLevelState evs) w.
Proof.
  intros (w0 & Hr & -> & Hh & Hwf) Hne. rewrite (history_top _ _ Hh). split.
  - destruct Hwf as [->|[(tid & reason & ->)|(i & rest & -> & _)]]; [by apply Forall2_nil_inv_l in Hh| |]; by apply topOf_known.
  - intros Hc. destruct (rely_xgrow legal _ _ id h Hr Hh) as (h' & Hh' & Hg).
    rewrite (history_top _ _ Hh'). by rewrite (xgrow_concluded _ _ Hg Hc).
Qed.

Lemma stood_stable id st w w' : txok w → rely w w' → stood id st w → stood id st w'.
Proof.
  intros Hok Hr [Hne Hst]. split; [done|]. intros Hc. specialize (Hst Hc). destruct (Hok id) as (h & Hh & _ & _).
  rewrite (history_top _ _ Hh) in Hst. destruct (rely_xgrow legal _ _ id h Hr Hh) as (h' & Hh' & Hg).
  rewrite (history_top _ _ Hh'). rewrite (xgrow_concluded _ _ Hg) by congruence. done.
Qed.

Lemma GetTransactionState_stood id w :
  txok w → safeM (GetTransactionState id)
    (λ out w', ∃ st, fst out = transactionState_proto st ∧ stood id st w') w.
Proof.
  intros Hok. unfold GetTransactionState. apply (safeM_bind_txok legal); [done|apply conforms_safeM, conforms_lift|].
  intros _ w1 _ Hok1. eapply safeM_bind_ok; [by apply (loadTransaction_safe legal)|]. intros evs w2 Hr2 [h Hread].
  destruct evs as [|e evs']; [apply safeM_fail|]. set (evs := e :: evs') in *.
  eapply safeM_bind_ok; [apply (conforms_lift legal)|]. intros reason w3 Hr3 _. apply safeM_ret. intros w4 Hr4.
  exists (topLevelState evs). split; [done|]. eapply read_stood; [|done].
  eapply (read_stable legal); [|exact Hread]. by etrans.
Qed.

(** A rejected Transaction is on its stream as one. *)
Lemma initiated_rejected req resp reason w :
  txok w → initiated req resp w → transactionRejected resp = Some reason → stood (in_Id req) stateRejected w.
Proof.
  unfold initiated, decidedStartInitializingTransaction, transactionRejected. intros Hok Hi Hrej. split; [done|]. intros _.
  destruct (Hok (in_Id req)) as (h & Hh & Hwf & _). rewrite (history_top _ _ Hh).
  destruct (txStream w (in_Id req)) as [|e evs]; [done|]. apply Forall2_cons_inv_r in Hh as (m & h' & Hm & Hh & ->).
  rewrite (recorded_Decode _ _ Hm) in Hi. destruct m; simplify_eq/=.
  destruct Hwf as [?|[(tid & rs & [= -> -> ->])|(i & rest & ? & _)]]; done.
Qed.

(** ** What the drivers need of the services *)

Class ServicesOk (transactions : TransactionService) (transfers : TransferService) (leg : legReader) : Prop := {
  so_start req w : txok w → safeM (sStartInitializingTransaction transactions req)
    (λ resp w', ∀ reason, transactionRejected resp = Some reason → stood (in_Id req) stateRejected w') w;
  so_state id w : txok w → safeM (sGetTransactionState transactions id)
    (λ out w', ∃ st, fst out = transactionState_proto st ∧ stood id st w') w;
  so_rollback id reason w : txok w → safeM (sStartTransactionRollback transactions id reason) (λ _ _, True) w;
  so_request req w : txok w → safeM (sRequestTransfer transfers req)
    (λ resp w', ∀ id reason, rs_Result resp = TransferRequestRejected id reason → refused (rt_Id req) w') w;
  so_confirm id w : txok w → safeM (sConfirmStagedTransfer transfers id) (λ _ _, True) w;
  so_cancel id reason w : txok w → safeM (sCancelStagedTransfer transfers id reason) (λ _ _, True) w;
  so_post id w : txok w → safeM (sPostPendingTransfer transfers id) (λ _ _, True) w;
  so_leg id w : txok w → safeM (leg id) (outcomeFact id) w
}.

(** The services' own handlers meet it, with any way of looking that looks. *)
Lemma handlers_ok fuel leg :
  client_ok legal (transferClient fuel) → server_ok legal transferServer →
  (∀ id w, txok w → safeM (leg id) (outcomeFact id) w) →
  ServicesOk (transactionService fuel) (transferService fuel) leg.
Proof.
  intros Hclient Hserver Hleg. split; simpl.
  - intros req w Hok. eapply safeM_mono; [by apply (StartInitializingTransaction_initiated legal)|].
    intros resp w' Hr Hi reason. eapply initiated_rejected; [|exact Hi]. by eapply (txok_stable legal).
  - intros id w. apply GetTransactionState_stood.
  - intros id reason w. apply (StartTransactionRollback_safe legal).
  - intros req w _. by apply (RequestTransfer_refused legal).
  - intros id w _. apply (ConfirmStagedTransfer_conforms legal).
  - intros id reason w _. apply (CancelStagedTransfer_conforms legal).
  - intros id w _. apply (PostPendingTransfer_conforms legal).
  - exact Hleg.
Qed.

(** ** Looking until it is over *)

(** What a look may not change. *)
Definition keeps (r r' : txResult) : Prop :=
  r_transactionID r' = r_transactionID r ∧ r_transferID r' = r_transferID r ∧ r_fromWallet r' = r_fromWallet r ∧
  r_toWallet r' = r_toWallet r ∧ r_amountMinor r' = r_amountMinor r ∧ r_planned r' = r_planned r.

#[export] Instance keeps_preorder : PreOrder keeps.
Proof. split; [intros r; by repeat split|]. intros a b c (?&?&?&?&?&?) (?&?&?&?&?&?). repeat split; congruence. Qed.

(** A program's result, kept to what is asked of it whatever happens after. *)
Definition reports {A} (p : prog A) (Q : A → World → Prop) (w : World) : Prop := safe p (λ a w', txok w' ∧ Q a w') w.

Section reports.
Context {A : Type} (Q : A → World → Prop).
Context (HQ : ∀ a w w', txok w → rely w w' → Q a w → Q a w').

Lemma reports_ret a w : txok w → Q a w → reports (Ret a) Q w.
Proof. intros Hok Ha w' Hr. split; [by eapply (txok_stable legal) | by eapply HQ]. Qed.

Lemma reports_call {B} (m : M B) (k : result B → prog A) (P : B → World → Prop) w :
  txok w → safeM m P w →
  (∀ b w', txok w' → P b w' → reports (k (Ok b)) Q w') → (∀ e w', txok w' → reports (k (Err e)) Q w') →
  reports (pbind m k) Q w.
Proof.
  intros Hok Hm Hk He. apply safe_pbind. eapply safe_mono; [|exact Hm]. intros [b|e] w' Hr Hb;
    assert (txok w') by (by eapply (txok_stable legal)); [by apply Hk | by apply He].
Qed.

Lemma reports_any {B} (m : M B) (k : result B → prog A) w :
  txok w → safeM m (λ _ _, True) w → (∀ r w', txok w' → reports (k r) Q w') → reports (pbind m k) Q w.
Proof. intros Hok Hm Hk. eapply reports_call; [done|exact Hm|intros; by apply Hk..]. Qed.
End reports.

Lemma reports_bind {A B} (p : prog A) (f : A → prog B) P Q w :
  reports p P w → (∀ a w', txok w' → P a w' → reports (f a) Q w') → reports (pbind p f) Q w.
Proof. intros Hp Hf. apply safe_pbind. eapply safe_mono; [|exact Hp]. intros a w' _ [Hok Ha]. by apply Hf. Qed.

(** A call that touches no stream. *)
Lemma reports_quiet {B} o (k : resp o → prog B) Q w :
  quiet o → txok w → (∀ r w', rely w w' → txok w' → reports (k r) Q w') → reports (pbind (call o) k) Q w.
Proof.
  intros Hq Hok Hk. apply safe_pbind. apply (safe_quiet legal); [done|]. intros w1 r w2 H1 _ H2 w3 H3.
  assert (rely w w3) as Hr by (etrans; [exact H1|]; by etrans). apply Hk; [done|]. by eapply (txok_stable legal).
Qed.

Lemma reports_pause {B} wait (k : bool → prog B) Q w :
  txok w → (∀ b w', rely w w' → txok w' → reports (k b) Q w') → reports (pbind (pause wait) k) Q w.
Proof.
  intros Hok Hk. apply safe_pbind, safe_pbind, (safe_quiet legal); [done|]. intros w1 r w2 H1 _ H2 w3 H3 w4 H4.
  assert (rely w w4) as Hr by (etrans; [exact H1|]; etrans; [exact H2|]; by etrans).
  apply Hk; [done|]. by eapply (txok_stable legal).
Qed.

(** ** Truth of a report *)

Section truth.
Context (truth : txResult → World → Prop).
Context (truth_stable : ∀ r w w', txok w → rely w w' → truth r w → truth r w').

Definition about (r0 : txResult) (r : txResult) (w : World) : Prop := keeps r0 r ∧ truth r w.

Lemma about_stable r0 r w w' : txok w → rely w w' → about r0 r w → about r0 r w'.
Proof. intros Hok Hr [Hk Ht]. split; [done|]. by apply (truth_stable r w). Qed.

Context (advance : advanceFunc).
Context (advance_true : ∀ r w, txok w → reports (advance r) (about r) w).

Lemma reports_keeps p r0 r w : keeps r0 r → reports p (about r) w → reports p (about r0) w.
Proof.
  intros Hk Hp. eapply safe_mono; [|exact Hp]. intros r' w' _ [Hok [Hk' Ht]]. split; [done|]. split; [by etrans | done].
Qed.

Context (truth_error : ∀ e r w, truth (set_err e r) w).

(** A result with an error claims nothing. *)
Lemma reports_failed e r0 r w : keeps r0 r → txok w → reports (Ret (set_err e r)) (about r0) w.
Proof. intros Hk Hok. apply reports_ret; [apply about_stable|done|]. split; [done|apply truth_error]. Qed.

(** Timed and handed over. *)
Definition delivered (from to : entity) (amount : Z) (planned : outcome) (r : txResult) (w : World) : Prop :=
  truth r w ∧ r_fromWallet r = en_walletID from ∧ r_toWallet r = en_walletID to ∧
  r_amountMinor r = i64 amount ∧ r_planned r = planned.

Context (truth_latency : ∀ d r w, truth r w → truth (set_latency d r) w).

Lemma reports_timed start tx tr from to amount planned p w :
  reports p (about (newResult tx tr (en_walletID from) (en_walletID to) (i64 amount) planned)) w →
  reports (pbind p (λ r, pbind timeNow (λ finish, Ret (set_latency (finish - start) r))))
    (delivered from to amount planned) w.
Proof.
  intros Hp. eapply reports_bind; [exact Hp|]. intros r w4 Hok4 [(? & ? & ? & ? & ? & ?) Ht].
  apply reports_quiet; [done|done|]. intros finish w5 Hr5 Hok5. apply reports_ret; [|done|].
  - intros a wa wb Hoka Hrab [? ?]. split; [by apply (truth_stable a wa wb)|done].
  - split; [|done]. apply truth_latency. exact (truth_stable r w4 w5 Hok4 Hr5 Ht).
Qed.

Lemma awaitLooks_true n wait r w : txok w → truth r w → reports (awaitLooks n wait advance r) (about r) w.
Proof.
  revert r w. induction n as [|n IH]; intros r w Hok Ht; cbn [awaitLooks]; [apply reports_ret; [apply about_stable|done|by split]|].
  destruct (stuck r); [|apply reports_ret; [apply about_stable|done|by split]].
  apply reports_pause; [done|]. intros went w1 Hr1 Hok1. destruct went.
  - eapply reports_bind; [by apply advance_true|]. intros r' w2 Hok2 [Hk Ht']. eapply reports_keeps; [exact Hk|]. by apply IH.
  - apply reports_ret; [apply about_stable|done|]. split; [done|]. exact (truth_stable r w w1 Hok Hr1 Ht).
Qed.

Lemma awaitResult_true wait r w : txok w → reports (awaitResult wait advance r) (about r) w.
Proof.
  intros Hok. eapply reports_bind; [by apply advance_true|]. intros r' w' Hok' [Hk Ht].
  eapply reports_keeps; [exact Hk|]. by apply awaitLooks_true.
Qed.
End truth.

Lemma reports_confirmAndPost {B} transactions transfers leg transferID at_ (k : result string → prog B) Q w :
  ServicesOk transactions transfers leg → txok w →
  (∀ r w', txok w' → reports (k r) Q w') → reports (pbind (confirmAndPost transfers transferID at_) k) Q w.
Proof.
  intros Hs Hok Hk. apply reports_any; [done| |exact Hk].
  assert (∀ w', txok w' → safeM (postLeg transfers transferID) (λ _ _, True) w') as Hpost.
  { intros w' Hok'. eapply (safeM_bind_done legal); [by apply so_post|]. intros resp w2 _. case_match; by apply safeM_ret. }
  unfold confirmAndPost. case_bool_decide; [|by apply Hpost].
  apply (safeM_bind_txok legal); [done|by apply so_confirm|]. intros resp w' _ Hok'.
  case_match; try (by apply Hpost). by apply safeM_ret.
Qed.

(** ** A Transfer in a Transaction of its own *)

Definition txTruth (r : txResult) (w : World) : Prop :=
  r_err r = None →
  (r_moved r = true → topLevelState (txStream w (r_transactionID r)) = stateCompleted) ∧
  (r_moved r = false → r_open r = false →
     topLevelState (txStream w (r_transactionID r)) ∈ [stateRejected; stateRolledBack; stateRollbackFailed]).

Lemma txTruth_stable r w w' : txok w → rely w w' → txTruth r w → txTruth r w'.
Proof.
  intros Hok Hr Ht He. destruct (Ht He) as [Hm Hn].
  assert (∀ st, st ≠ stateTxUnknown → concluded st = true → topLevelState (txStream w (r_transactionID r)) = st →
    topLevelState (txStream w' (r_transactionID r)) = st) as Hkeep.
  { intros st Hne Hc Hst. eapply (stood_stable _ st w w' Hok Hr); [|done]. split; [done|]. by intros _. }
  split; [intros Hmoved; by apply Hkeep, Hm|]. intros Hmoved Hopen. specialize (Hn Hmoved Hopen).
  remember (topLevelState (txStream w (r_transactionID r))) as st eqn:Hst. symmetry in Hst.
  rewrite (Hkeep st); [done| | |done]; by repeat (apply elem_of_cons in Hn as [-> | Hn]); [..|apply not_elem_of_nil in Hn].
Qed.

Lemma stood_truth st r w :
  stood (r_transactionID r) st w → txTruth (set_state (fromTransactionState (transactionState_proto st)) r) w.
Proof.
  intros [Hne Hst] _. simpl. split; destruct st; try done; intros _; rewrite ?Hst; try done; by repeat constructor.
Qed.

Section transactionDriver.
Context (transactions : TransactionService) (transfers : TransferService) (leg : legReader).
Context {Hs : ServicesOk transactions transfers leg}.

Lemma tx_failed e r0 r w : keeps r0 r → txok w → reports (Ret (set_err e r)) (about txTruth r0) w.
Proof. apply reports_failed; [exact txTruth_stable|done]. Qed.

Lemma observeTransaction_true r0 r w :
  keeps r0 r → txok w → reports (observeTransaction transactions r) (about txTruth r0) w.
Proof.
  intros Hk Hok. eapply reports_call; [done|by apply so_state| |intros; by apply tx_failed].
  intros [state reason] w' Hok' (st & Heq & Hst). simpl in Heq. subst state.
  apply reports_ret; [apply about_stable, txTruth_stable|done|].
  pose proof (stood_truth st r w' Hst) as Ht. case_bool_decide; (split; [exact Hk|exact Ht]).
Qed.

Lemma txAdvance_true r w : txok w → reports (txAdvance transactions transfers leg r) (about txTruth r) w.
Proof.
  intros Hok. unfold txAdvance. destruct (r_settled r); [by apply observeTransaction_true|].
  eapply reports_call; [done|by apply so_leg| |intros; by apply tx_failed]. intros at_ w1 Hok1 _.
  assert (∀ (m : result string) w', txok w' → reports
    match m with Err e => Ret (set_err e r) | Ok reason => observeTransaction transactions (set_reason reason (set_settled r)) end
    (about txTruth r) w') as Hk.
  { intros [reason|e] w' Hok'; [by apply observeTransaction_true | by apply tx_failed]. }
  assert (∀ at_, reports (pbind (txSettle transactions transfers r at_) (λ out,
    match out with Err e => Ret (set_err e r) | Ok reason => observeTransaction transactions (set_reason reason (set_settled r)) end))
    (about txTruth r) w1) as Hsettle.
  { intros o. unfold txSettle. case_bool_decide; [|by eapply reports_confirmAndPost].
    apply reports_any; [done| |exact Hk].
    eapply (safeM_bind_done legal); [by apply so_rollback|]. intros; by apply safeM_ret. }
  destruct at_; try (by apply observeTransaction_true); by apply Hsettle.
Qed.

Lemma txDrive_true wait from to amount currency planned w :
  txok w → reports (txDrive transactions transfers leg wait from to amount currency planned)
    (delivered txTruth from to amount planned) w.
Proof.
  intros Hok. unfold txDrive. apply reports_quiet; [done|done|]. intros start w1 _ Hok1.
  apply reports_quiet; [done|done|]. intros transactionID w2 _ Hok2.
  apply reports_quiet; [done|done|]. intros transferID w3 _ Hok3. cbv zeta.
  eapply reports_call; [done|by apply so_start| |intros; eapply reports_timed; [exact txTruth_stable|done|by apply tx_failed]].
  intros resp w4 Hok4 Hrej. eapply reports_timed; [exact txTruth_stable|done|].
  destruct (transactionRejected resp) as [reason|] eqn:Hresp.
  - apply reports_ret; [apply about_stable, txTruth_stable|done|]. split; [done|].
    exact (stood_truth stateRejected (newResult transactionID _ _ _ _ _) w4 (Hrej reason Hresp)).
  - apply awaitResult_true; [apply txTruth_stable|intros; by apply txAdvance_true|done].
Qed.
End transactionDriver.

(** ** A bare Transfer *)

Definition bareTruth (r : txResult) (w : World) : Prop :=
  r_err r = None →
  (r_moved r = true → ended (r_transferID r) stateCommitted w) ∧
  (r_moved r = false → r_open r = false → dead (r_transferID r) w).

Lemma bareTruth_stable r w w' : txok w → rely w w' → bareTruth r w → bareTruth r w'.
Proof.
  intros _ Hr Ht He. destruct (Ht He) as [Hm Hn]. split.
  - intros Hmoved. by apply (ended_stable legal _ stateCommitted eq_refl w), Hm.
  - intros Hmoved Hopen. by apply (dead_stable legal _ w), Hn.
Qed.

Lemma outcome_truth o r w : outcomeFact (r_transferID r) o w → bareTruth (set_state (fromTransferOutcome o) r) w.
Proof. intros Ho _. simpl. unfold dead. split; destruct o; try done; auto. Qed.

Section transferDriver.
Context (transactions : TransactionService) (transfers : TransferService) (leg : legReader).
Context {Hs : ServicesOk transactions transfers leg}.

Lemma bare_failed e r0 r w : keeps r0 r → txok w → reports (Ret (set_err e r)) (about bareTruth r0) w.
Proof. apply reports_failed; [exact bareTruth_stable|done]. Qed.

Lemma reports_outcome o r0 r w :
  keeps r0 r → txok w → outcomeFact (r_transferID r) o w →
  reports (Ret (set_state (fromTransferOutcome o) r)) (about bareTruth r0) w.
Proof.
  intros Hk Hok Ho. apply reports_ret; [apply about_stable, bareTruth_stable|done|]. split; [exact Hk|]. by apply outcome_truth.
Qed.

Lemma bareAdvance_true r w : txok w → reports (bareAdvance transfers leg r) (about bareTruth r) w.
Proof.
  intros Hok. unfold bareAdvance.
  eapply reports_call; [done|by apply so_leg| |intros; by apply bare_failed]. intros at_ w1 Hok1 Hat.
  destruct (negb _ && _); [|by apply reports_outcome].
  assert (∀ (m : result string) w', txok w' → reports
    match m with
    | Err e => Ret (set_err e r)
    | Ok reason => pbind (leg (r_transferID (set_reason reason (set_settled r)))) (λ out,
        match out with
        | Err e => Ret (set_err e (set_reason reason (set_settled r)))
        | Ok at_ => Ret (set_state (fromTransferOutcome at_) (set_reason reason (set_settled r)))
        end)
    end (about bareTruth r) w') as Hk.
  { intros [reason|e] w' Hok'; [|by apply bare_failed].
    eapply reports_call; [done|by apply so_leg| |intros; by apply bare_failed]. intros o w2 Hok2 Ho. by apply reports_outcome. }
  unfold bareSettle. case_bool_decide; [|by eapply reports_confirmAndPost].
  apply reports_any; [done| |exact Hk].
  eapply (safeM_bind_done legal); [by apply so_cancel|]. intros resp w2 _. case_match; by apply safeM_ret.
Qed.

Lemma bareDrive_true wait from to amount currency planned w :
  txok w → reports (bareDrive transfers leg wait from to amount currency planned)
    (delivered bareTruth from to amount planned) w.
Proof.
  intros Hok. unfold bareDrive. apply reports_quiet; [done|done|]. intros start w1 _ Hok1.
  apply reports_quiet; [done|done|]. intros transferID w2 _ Hok2. cbv zeta.
  eapply reports_call; [done|by apply so_request| |intros; eapply reports_timed; [exact bareTruth_stable|done|by apply bare_failed]].
  intros resp w4 Hok4 Hrej. eapply reports_timed; [exact bareTruth_stable|done|].
  destruct (rs_Result resp) eqn:Hresp;
    try (apply awaitResult_true; [apply bareTruth_stable|intros; by apply bareAdvance_true|done]).
  apply reports_ret; [apply about_stable, bareTruth_stable|done|]. split; [done|].
  exact (outcome_truth OutcomeRejected (newResult _ transferID _ _ _ _) w4 (Hrej _ _ Hresp)).
Qed.
End transferDriver.
End safety.
