(* ===== verification/SimulateLoad.v ===== *)
(** * cmd/simulate: the load

    [runLoad] of [go/cmd/simulate/run.go] as a transition system: one goroutine per
    transfer, started in order by a loop that takes a slot of the semaphore first,
    each running its driver's program call by call against the world the rest of
    the system changes too, then writing its result, freeing the slot and signing
    off the wait group. What each transfer is to be ([pairs.go], [outcome.go]) is
    drawn from a generator of its own. *)

From Stdlib Require Import SpecFloat.
From S2P Require Import Prelude GoMath Proto EventStore Ledger Effects Validate Safety Wallet Holder Token.
From S2P Require Import TransferState TransferSaga TransferServer TransferLegal TransferSafety Dag TransactionState TransactionSaga.
From S2P Require Import TransactionLegal TransactionSafety Simulate SimulateSafety.

(** ** What each transfer is to be *)

Record runConfig : Type := mkRunConfig {
  cfg_currency : string; cfg_minAmount : Z; cfg_maxAmount : Z; cfg_rollbackRate : float64
}.

(** A redraw past the bound, and a panic, are [None]. *)
Definition pickPair (fuel : nat) (n : Z) (p : PCG) : option (Z * Z * PCG) :=
  '(from, p) ← IntN fuel n p;
  '(to, p) ← IntN fuel (n - 1) p;
  Some (from, if from <=? to then to + 1 else to, p).

Definition pickOutcome (p : PCG) (rollbackRate : float64) : outcome * PCG :=
  let '(x, p) := Float64 p in (if fltb x rollbackRate then outcomeRollback else outcomeComplete, p).

Definition pickAmount (fuel : nat) (cfg : runConfig) (p : PCG) : option (Z * PCG) :=
  if cfg_minAmount cfg <? cfg_maxAmount cfg then
    '(x, p) ← IntN fuel (i64 (i64 (cfg_maxAmount cfg - cfg_minAmount cfg) + 1)) p;
    Some (u64 (cfg_minAmount cfg + u64 x), p)
  else Some (cfg_minAmount cfg, p).

Record job : Type := mkJob { jb_from : entity; jb_to : entity; jb_amount : Z; jb_planned : outcome }.

Definition jobOf (fuel : nat) (entities : list entity) (cfg : runConfig) (seed : Z) (i : nat) : option job :=
  '(from, to, p) ← pickPair fuel (len entities) (NewPCG seed (Z.of_nat i));
  '(amount, p) ← pickAmount fuel cfg p;
  ef ← entities !! Z.to_nat from;
  et ← entities !! Z.to_nat to;
  Some (mkJob ef et amount (fst (pickOutcome p (cfg_rollbackRate cfg)))).

(** The sender and the receiver are two different entities. *)
Lemma pickPair_distinct fuel n p from to q :
  pickPair fuel n p = Some (from, to, q) → from ≠ to ∧ 0 ≤ from < n ∧ 0 ≤ to < n.
Proof.
  unfold pickPair. destruct (IntN fuel n p) as [[f p1]|] eqn:H1; [|done]. simpl.
  destruct (IntN fuel (n - 1) p1) as [[t p2]|] eqn:H2; [|done]. simpl. intros [= <- <- <-].
  apply IntN_range in H1, H2. destruct (f <=? t) eqn:Hle; [apply Z.leb_le in Hle | apply Z.leb_gt in Hle]; lia.
Qed.

(** The amount is in the configured range. *)
Lemma pickAmount_range fuel cfg p a q :
  0 ≤ cfg_minAmount cfg ≤ cfg_maxAmount cfg → cfg_maxAmount cfg < two64 →
  cfg_maxAmount cfg - cfg_minAmount cfg < MaxInt64 →
  pickAmount fuel cfg p = Some (a, q) → cfg_minAmount cfg ≤ a ≤ cfg_maxAmount cfg.
Proof.
  unfold pickAmount. intros Hmin Hmax Hw. destruct (_ <? _) eqn:Hlt; [|intros [= <- <-]; lia].
  rewrite !i64_small by (unfold in_i64, MaxInt64 in *; rewrite ?i64_small; unfold in_i64; lia).
  destruct (IntN _ _ p) as [[x p1]|] eqn:Hx; [|done]. simpl. intros [= <- <-]. apply IntN_range in Hx.
  unfold u64. rewrite (Z.mod_small x) by lia. rewrite Z.mod_small by lia. lia.
Qed.

(** The span of the amounts is converted to an [int] and one is added: from a span
    of the greatest [int] on, [IntN] is asked for nothing and panics. *)
Lemma pickAmount_panics fuel cfg p :
  MaxInt64 ≤ cfg_maxAmount cfg - cfg_minAmount cfg < two64 → pickAmount fuel cfg p = None.
Proof.
  unfold pickAmount. intros Hw. destruct (_ <? _) eqn:Hlt; [|apply Z.ltb_ge in Hlt; unfold MaxInt64 in *; lia].
  assert (i64 (i64 (cfg_maxAmount cfg - cfg_minAmount cfg) + 1) ≤ 0) as Hle.
  { generalize dependent (cfg_maxAmount cfg - cfg_minAmount cfg). intros d Hd. unfold i64 at 2, u64.
    rewrite (Z.mod_small d) by (unfold MaxInt64, two64 in *; lia). destruct (d <=? MaxInt64) eqn:Hdm.
    - apply Z.leb_le in Hdm. assert (d = MaxInt64) as -> by lia. done.
    - apply Z.leb_gt in Hdm. rewrite i64_small; unfold in_i64, MaxInt64, two64 in *; lia. }
  unfold IntN. by rewrite (proj2 (Z.leb_le _ _) Hle).
Qed.

(** ** Goroutines *)

Section load.
Context {C : Codec} {CL : CodecLaws C} {U : UuidPackage} {S256 : Sha256} {L : LedgerClient}.

(** A goroutine: driving; its result written; its slot freed; signed off. *)
Inductive worker : Type :=
| Driving (p : prog txResult)
| Wrote
| Released
| SignedOff.

(** It still holds its slot of [sem]. *)
Definition holds (k : worker) : bool := match k with Driving _ | Wrote => true | _ => false end.
Definition signedOff (k : worker) : bool := match k with SignedOff => true | _ => false end.
Definition slots (ks : list worker) : nat := length (filter (λ k, holds k = true) ks).

Record loadState : Type := mkLoad {
  ls_world : World;
  ls_workers : list worker;
  ls_results : list txResult
}.

Section runLoad.
(** What the [i]th transfer is to be, how it is driven, how many there are and how
    many at a time. *)
Context (jobs : nat → option job) (drive : driveFunc) (currency : string) (n concurrency : nat).

Definition driveJob (j : job) : prog txResult := drive (jb_from j) (jb_to j) (jb_amount j) currency (jb_planned j).

Inductive load_step : loadState → loadState → Prop :=
| load_launch w ks rs j :
    (length ks < n)%nat → (slots ks < concurrency)%nat → jobs (length ks) = Some j →
    load_step (mkLoad w ks rs) (mkLoad w (ks ++ [Driving (driveJob j)]) rs)
| load_call w ks1 o k ks2 rs r w' :
    exec w o r w' →
    load_step (mkLoad w (ks1 ++ Driving (Op o k) :: ks2) rs) (mkLoad w' (ks1 ++ Driving (k r) :: ks2) rs)
| load_write w ks1 r ks2 rs :
    load_step (mkLoad w (ks1 ++ Driving (Ret r) :: ks2) rs)
      (mkLoad w (ks1 ++ Wrote :: ks2) (<[length ks1 := r]> rs))
| load_release w ks1 ks2 rs :
    load_step (mkLoad w (ks1 ++ Wrote :: ks2) rs) (mkLoad w (ks1 ++ Released :: ks2) rs)
| load_done w ks1 ks2 rs :
    load_step (mkLoad w (ks1 ++ Released :: ks2) rs) (mkLoad w (ks1 ++ SignedOff :: ks2) rs).

Definition zeroResult : txResult := newResult "" "" "" "" 0 outcomeComplete.
Definition load_start (w : World) : loadState := mkLoad w [] (replicate n zeroResult).

(** The loop has ended and [wg.Wait] returns. *)
Definition load_returned (s : loadState) : Prop :=
  length (ls_workers s) = n ∧ Forall (λ k, signedOff k = true) (ls_workers s).

(** ** The load ends *)

(** A program after its next call, whatever that answers. *)
Definition continues (p' p : prog txResult) : Prop :=
  match p with Ret _ => False | Op o k => ∃ r, p' = k r end.

(** One goroutine's step. *)
Inductive wless : worker → worker → Prop :=
| wless_call p p' : continues p' p → wless (Driving p') (Driving p)
| wless_write p : wless Wrote (Driving p)
| wless_release : wless Released Wrote
| wless_done : wless SignedOff Released.

Lemma wless_acc k : Acc wless k.
Proof.
  assert (Acc wless SignedOff) as Ha by (constructor; intros k' Hk'; inversion Hk').
  assert (Acc wless Released) as Hb by (constructor; intros k' Hk'; inversion Hk'; exact Ha).
  assert (Acc wless Wrote) as Hc by (constructor; intros k' Hk'; inversion Hk'; exact Hb).
  destruct k as [p| | |]; [|exact Hc|exact Hb|exact Ha].
  induction p as [r|o k IH]; constructor; intros k' Hk'; inversion Hk' as [p p' Hp Heq1 Heq2| | |]; try exact Hc;
    simpl in Hp; [destruct Hp|]. destruct Hp as [r ->]. apply IH.
Qed.

Inductive lless : list worker → list worker → Prop :=
| lless_one ks1 k k' ks2 : wless k' k → lless (ks1 ++ k' :: ks2) (ks1 ++ k :: ks2).

Lemma lless_cons k ks : Acc wless k → Acc lless ks → Acc lless (k :: ks).
Proof.
  intros Hk. revert ks. induction Hk as [k _ IHk]. intros ks Hks. induction Hks as [ks Hks IHks].
  constructor. intros ks' Hless. inversion Hless as [ks1 k0 k' ks2 Hw Heq Heq']; subst.
  destruct ks1 as [|x ks1]; simplify_eq/=.
  - apply IHk; [done|]. by constructor.
  - by apply IHks.
Qed.

Lemma lless_acc ks : Acc lless ks.
Proof.
  induction ks as [|k ks IH]; [|apply lless_cons; [apply wless_acc | done]].
  constructor. inversion 1 as [ks1 k k' ks2 Hw Heq Heq']. by destruct ks1.
Qed.

(** Anything else of the system may happen before a step. *)
Definition load_turn (s s' : loadState) : Prop :=
  ∃ w, load_step (mkLoad w (ls_workers s) (ls_results s)) s'.

Lemma load_turn_acc s : Acc (flip load_turn) s.
Proof.
  destruct s as [w ks rs]. remember (n - length ks)%nat as m eqn:Hm. revert ks Hm w rs.
  induction m as [m IHm] using lt_wf_ind. intros ks. induction (lless_acc ks) as [ks _ IHks]. intros Hm w rs.
  constructor. intros s' [w1 Hstep]. simpl in Hstep. inversion Hstep; subst.
  - eapply IHm; [|reflexivity]. rewrite length_app. simpl. lia.
  - eapply IHks; [|by rewrite !length_app]. constructor. constructor. by eexists.
  - eapply IHks; [|by rewrite !length_app]. constructor. constructor.
  - eapply IHks; [|by rewrite !length_app]. constructor. constructor.
  - eapply IHks; [|by rewrite !length_app]. constructor. constructor.
Qed.

(** Every call of the ledger is answered. *)
Definition ledgerAnswers : Prop :=
  (∀ l accs, ∃ r l', lCreateAccounts l accs r l') ∧ (∀ l ts, ∃ r l', lCreateTransfers l ts r l') ∧
  (∀ l ids, ∃ r, lBalances l ids r).

Lemma exec_answers w o : ledgerAnswers → ∃ r w', exec w o r w'.
Proof.
  intros (Ha & Ht & Hb). destruct o as [ty id|ws| |accs|ts|ids| | | | | |keys]; simpl.
  - exists (Ok (stream w ty id)), w. split; [done|]. left. by eexists.
  - destruct (AppendAtomic None (w_now w) ws (w_store w)) as [s' r]. exists r, (set_store s' w), s', r. split; [done|]. by left.
  - exists (Ok (w_now w)), w. split; [done|]. left. by eexists.
  - destruct (Ha (w_ledger w) accs) as (r & l' & ?). by exists r, (set_ledger l' w), l'.
  - destruct (Ht (w_ledger w) ts) as (r & l' & ?). by exists r, (set_ledger l' w), l'.
  - destruct (Hb (w_ledger w) ids) as (r & ?). by exists r, w.
  - exists (Ok tt), w. split_and!; try done. left. by exists tt.
  - exists (Ok tt), w. split_and!; try done. left. by exists tt.
  - exists (Ok tt), w. split_and!; try done. left. by exists tt.
  - by exists "", w.
  - by exists 0, w.
  - by exists keys, w.
Qed.

(** A goroutine that has not signed off has something to do. *)
Lemma worker_steps w ks1 k ks2 rs :
  ledgerAnswers → k ≠ SignedOff → ∃ s', load_step (mkLoad w (ks1 ++ k :: ks2) rs) s'.
Proof.
  intros Hl Hk. destruct k as [[r|o k]| | |]; [by eexists; constructor| |by eexists; constructor..|done].
  destruct (exec_answers w o Hl) as (r & w' & He). eexists. by eapply load_call.
Qed.

Lemma slots_app ks1 ks2 : slots (ks1 ++ ks2) = (slots ks1 + slots ks2)%nat.
Proof. unfold slots. by rewrite filter_app, length_app. Qed.

Lemma slots_cons k ks : slots (k :: ks) = ((if holds k then 1 else 0) + slots ks)%nat.
Proof. unfold slots. rewrite filter_cons. by destruct (holds k). Qed.

Lemma slots_holder ks : (0 < slots ks)%nat → ∃ ks1 k ks2, ks = ks1 ++ k :: ks2 ∧ holds k = true.
Proof.
  unfold slots. intros Hs. destruct (filter (λ k, holds k = true) ks) as [|k rest] eqn:Hf; [simpl in Hs; lia|].
  assert (k ∈ filter (λ k, holds k = true) ks) as Hin by (rewrite Hf; left).
  apply list_elem_of_filter in Hin as [Hh (ks1 & ks2 & ->)%list_elem_of_split]. eauto.
Qed.

Lemma load_progress s :
  ledgerAnswers → (1 ≤ concurrency)%nat → (∀ i, (i < n)%nat → is_Some (jobs i)) → (length (ls_workers s) ≤ n)%nat →
  load_returned s ∨ ∃ s', load_step s s'.
Proof.
  destruct s as [w ks rs]. simpl. intros Hl Hc Hjobs Hlen.
  destruct (decide (slots ks < concurrency)%nat) as [Hs|Hs].
  - destruct (decide (length ks < n)%nat) as [Hlt|Hge].
    { right. destruct (Hjobs _ Hlt) as [j Hj]. eexists. by constructor. }
    destruct (decide (Forall (λ k, signedOff k = true) ks)) as [Hall|Hex]; [left; split; [simpl; lia | done]|].
    right. apply not_Forall_Exists in Hex; [|apply _]. apply Exists_exists in Hex as (k & Hin & Hk).
    apply list_elem_of_split in Hin as (ks1 & ks2 & ->). apply worker_steps; [done|]. intros ->. by apply Hk.
  - right. destruct (slots_holder ks) as (ks1 & k & ks2 & -> & Hh); [lia|]. apply worker_steps; [done|]. by intros ->.
Qed.

(** However the rest of the system moves, no more goroutines run than are wanted,
    nor more at a time than there are slots. *)
Lemma load_turn_bounds w s :
  rtc load_turn (load_start w) s → (length (ls_workers s) ≤ n)%nat ∧ (slots (ls_workers s) ≤ concurrency)%nat.
Proof.
  intros Hr. assert ((length (ls_workers (load_start w)) ≤ n)%nat ∧ (slots (ls_workers (load_start w)) ≤ concurrency)%nat) as H0
    by (unfold slots; simpl; lia).
  induction Hr as [s|s1 s2 s3 [w1 Hstep] _ IH]; [done|]. apply IH. destruct s1 as [w0 ks rs]. simpl in *.
  inversion Hstep; subst; simpl; rewrite !length_app, ?slots_app, ?slots_cons in *; simpl in *; unfold slots in *; simpl in *; lia.
Qed.

(** ** What the results say *)

Context (legal : World → string → list Event → list message → Prop).
Context {TP : TransferProtocol legal} {XP : TransactionProtocol legal}.
Context (truth : txResult → World → Prop).
Context (truth_stable : ∀ r w w', txok w → rely legal w w' → truth r w → truth r w').
Context (drive_true : ∀ from to amount planned w, txok w →
  reports legal (drive from to amount currency planned) (delivered truth from to amount planned) w).

(** A step of the load, or of anything else that keeps to the protocol. *)
Inductive load_moves : loadState → loadState → Prop :=
| moves_step s s' : load_step s s' → load_moves s s'
| moves_env w ks rs w' : rely legal w w' → load_moves (mkLoad w ks rs) (mkLoad w' ks rs).

Definition jobDone (j : job) : txResult → World → Prop := delivered truth (jb_from j) (jb_to j) (jb_amount j) (jb_planned j).

Lemma jobDone_stable j r w w' : txok w → rely legal w w' → jobDone j r w → jobDone j r w'.
Proof. intros Hok Hr [Ht ?]. split; [by apply (truth_stable r w)|done]. Qed.

(** What holds of one goroutine. *)
Definition worker_ok (w : World) (rs : list txResult) (i : nat) (k : worker) : Prop :=
  ∃ j, jobs i = Some j ∧
    match k with
    | Driving p => reports legal p (jobDone j) w
    | _ => ∃ r, rs !! i = Some r ∧ jobDone j r w
    end.

Record load_ok (s : loadState) : Prop := {
  lo_world : txok (ls_world s);
  lo_length : length (ls_results s) = n;
  lo_started : (length (ls_workers s) ≤ n)%nat;
  lo_slots : (slots (ls_workers s) ≤ concurrency)%nat;
  lo_workers : ∀ i k, ls_workers s !! i = Some k → worker_ok (ls_world s) (ls_results s) i k
}.

Lemma worker_ok_later w w' rs i k : txok w → rely legal w w' → worker_ok w rs i k → worker_ok w' rs i k.
Proof.
  intros Hok Hr (j & Hj & Hk). exists j. split; [done|]. destruct k; [by eapply safe_rely|..];
    destruct Hk as (r & Hrs & Hd); exists r; (split; [done|]); by eapply jobDone_stable.
Qed.

(** One goroutine replaced by the next state of it. *)
Lemma load_ok_replace w w' ks1 k k' ks2 rs rs' :
  load_ok (mkLoad w (ks1 ++ k :: ks2) rs) → rely legal w w' → length rs' = length rs →
  (holds k' = true → holds k = true) → (∀ i, i ≠ length ks1 → rs' !! i = rs !! i) →
  worker_ok w' rs' (length ks1) k' → load_ok (mkLoad w' (ks1 ++ k' :: ks2) rs').
Proof.
  intros [Hw Hlen Hst Hsl Hks] Hr Hrs Hh Hother Hk'. simpl in *. split; simpl.
  - by eapply (txok_stable legal).
  - congruence.
  - rewrite length_app in *. simpl in *. lia.
  - rewrite slots_app, slots_cons in *. destruct (holds k'); [rewrite Hh in Hsl by done|]; lia.
  - intros i x Hi. destruct (decide (i = length ks1)) as [->|Hne].
    { rewrite list_lookup_middle in Hi by done. by simplify_eq. }
    assert ((ks1 ++ k :: ks2) !! i = Some x) as Hi'.
    { destruct (decide (i < length ks1)%nat); [rewrite lookup_app_l in Hi |- * by lia; done|].
      rewrite lookup_app_r in Hi |- * by lia. destruct (i - length ks1)%nat as [|m] eqn:Hm; [lia|]. done. }
    destruct (worker_ok_later _ _ _ _ _ Hw Hr (Hks _ _ Hi')) as (j & Hj & Hx). exists j. split; [done|].
    destruct x; [done|..]; destruct Hx as (r & Hri & ?); exists r; by rewrite (Hother i Hne).
Qed.

Lemma load_ok_step s s' : load_moves s s' → load_ok s → load_ok s'.
Proof.
  intros [s1 s2 Hstep|w ks rs w' Hr] Hok.
  - destruct Hstep as [w ks rs j Hn Hc Hj|w ks1 o k ks2 rs r w' He|w ks1 r ks2 rs|w ks1 ks2 rs|w ks1 ks2 rs].
    + destruct Hok as [Hw Hlen Hst Hsl Hks]. simpl in *. split; simpl; [done|done| | |].
      * rewrite length_app. simpl. lia.
      * rewrite slots_app. unfold slots at 2. simpl. lia.
      * intros i k [Hi|[Hi Hx]]%lookup_app_Some; [by apply Hks|]. apply list_lookup_singleton_Some in Hx as [Hi0 <-].
        exists j. replace i with (length ks) by lia. split; [done|]. by apply drive_true.
    + destruct (lo_workers _ Hok (length ks1) (Driving (Op o k))) as (j & Hj & Hp); [by apply list_lookup_middle|].
      destruct (Hp w (rtc_refl _ _) r w' He) as [Hg Hk]. eapply load_ok_replace; [exact Hok|by apply rely_guar|done..|].
      by exists j.
    + destruct (lo_workers _ Hok (length ks1) (Driving (Ret r))) as (j & Hj & Hp); [by apply list_lookup_middle|].
      pose proof (lo_length _ Hok) as Hlen. pose proof (lo_started _ Hok) as Hst. simpl in Hlen, Hst. rewrite length_app in Hst. simpl in Hst.
      eapply load_ok_replace; [exact Hok|reflexivity|apply length_insert|done| |].
      * intros i Hne. by rewrite list_lookup_insert_ne.
      * exists j. split; [done|]. exists r. split; [by apply list_lookup_insert_eq; lia|].
        exact (proj2 (Hp w (rtc_refl _ _))).
    + destruct (lo_workers _ Hok (length ks1) Wrote) as (j & Hj & Hp); [by apply list_lookup_middle|].
      eapply load_ok_replace; [exact Hok|reflexivity|done..|]. by exists j.
    + destruct (lo_workers _ Hok (length ks1) Released) as (j & Hj & Hp); [by apply list_lookup_middle|].
      eapply load_ok_replace; [exact Hok|reflexivity|done..|]. by exists j.
  - destruct Hok as [Hw Hlen Hst Hsl Hks]. simpl in *. split; simpl; try done; [by eapply (txok_stable legal)|].
    intros i k Hi. by eapply worker_ok_later, Hks.
Qed.

Lemma load_ok_start w : txok w → load_ok (load_start w).
Proof. intros Hok. split; simpl; [done|apply length_replicate|lia|unfold slots; simpl; lia|done]. Qed.

Lemma load_ok_reached w s : txok w → rtc load_moves (load_start w) s → load_ok s.
Proof.
  intros Hok Hr. pose proof (load_ok_start w Hok) as H0. clear Hok. induction Hr as [|s1 s2 s3 Hstep _ IH]; [done|].
  by eapply IH, load_ok_step.
Qed.

(** When the load has returned, every result is in place and says what is so. *)
Lemma load_returned_results w s i :
  txok w → rtc load_moves (load_start w) s → load_returned s → (i < n)%nat →
  ∃ j r, jobs i = Some j ∧ ls_results s !! i = Some r ∧ jobDone j r (ls_world s).
Proof.
  intros Hok Hr [Hlen Hall] Hi. pose proof (load_ok_reached w s Hok Hr) as Hs.
  destruct (lookup_lt_is_Some_2 (ls_workers s) i) as [k Hk]; [lia|].
  destruct (lo_workers _ Hs i k Hk) as (j & Hj & Hx). rewrite Forall_lookup in Hall. specialize (Hall i k Hk). simpl in Hall.
  destruct k; try done. destruct Hx as (r & Hri & Hd). by exists j, r.
Qed.
End runLoad.
End load.
