(* ===== verification/SimulateReport.v ===== *)
(** * cmd/simulate: the reports

    What the figures [stats.go] computes and the batches [run.go] seeds in are. *)

From Stdlib Require Import SpecFloat.
From S2P Require Import Prelude GoMath Proto EventStore Ledger Effects Validate Wallet Holder Token.
From S2P Require Import TransferState TransferSaga TransferServer Dag TransactionState TransactionSaga Simulate SimulateLoad.

(** ** The balances a run ought to leave *)

(** What a result does to a wallet. *)
Definition netOf (wallet : string) (r : txResult) : Z :=
  if completed r then
    (if bool_decide (r_toWallet r = wallet) then r_amountMinor r else 0) -
    (if bool_decide (r_fromWallet r = wallet) then r_amountMinor r else 0)
  else 0.

Definition netAll (wallet : string) (results : list txResult) : Z := foldr (λ r acc, netOf wallet r + acc) 0 results.

Definition balance (m : gmap string Z) (wallet : string) : Z := default 0 (m !! wallet).

Lemma i64_mod z : i64 z mod two64 = z mod two64.
Proof.
  unfold i64, u64. case_match; [by rewrite Z.mod_mod|].
  rewrite <- (Z_mod_plus_full _ 1), Z.mul_1_l. rewrite Z.sub_add. by rewrite Z.mod_mod.
Qed.

Lemma i64_eq a b : a mod two64 = b mod two64 → i64 a = i64 b.
Proof. unfold i64, u64. by intros ->. Qed.

Lemma i64_range z : in_i64 (i64 z).
Proof.
  unfold in_i64, i64, u64. pose proof (Z.mod_pos_bound z two64 ltac:(done)). unfold MaxInt64, two64 in *.
  destruct (_ <=? _) eqn:Hle; [apply Z.leb_le in Hle | apply Z.leb_gt in Hle]; lia.
Qed.

Lemma i64_add_l a b : i64 (i64 a + b) = i64 (a + b).
Proof. apply i64_eq. rewrite <- Z.add_mod_idemp_l, i64_mod, Z.add_mod_idemp_l; done. Qed.

Lemma balance_bump m k d wallet :
  balance (bump k d m) wallet = if bool_decide (k = wallet) then i64 (balance m wallet + d) else balance m wallet.
Proof.
  unfold balance, bump. case_bool_decide as Hk; [subst; by rewrite lookup_insert_eq | by rewrite lookup_insert_ne].
Qed.

Lemma balance_apply m r wallet :
  in_i64 (balance m wallet) → balance (applyResult m r) wallet = i64 (balance m wallet + netOf wallet r).
Proof.
  intros Hin. unfold applyResult, netOf. destruct (completed r); [|by rewrite Z.add_0_r, i64_small].
  rewrite !balance_bump. repeat case_bool_decide; rewrite ?i64_add_l; 
    first [by f_equal; lia | by rewrite Z.sub_diag, Z.add_0_r, i64_small].
Qed.

Lemma computeExpected_balance m results wallet :
  in_i64 (balance m wallet) → balance (computeExpected m results) wallet = i64 (balance m wallet + netAll wallet results).
Proof.
  unfold computeExpected. revert m. induction results as [|r results IH]; intros m Hin; simpl; [by rewrite Z.add_0_r, i64_small|].
  rewrite IH by (rewrite balance_apply by done; apply i64_range). rewrite balance_apply by done. rewrite i64_add_l. f_equal. lia.
Qed.

Lemma computeExpected_incomplete m r : completed r = false → computeExpected m [r] = m.
Proof. intros Hc. unfold computeExpected, applyResult. simpl. by rewrite Hc. Qed.

Definition total (f : string → Z) (wallets : list string) : Z := foldr (λ w acc, f w + acc) 0 wallets.

Lemma total_ext f g wallets : (∀ w, w ∈ wallets → f w = g w) → total f wallets = total g wallets.
Proof.
  induction wallets as [|w ws IH]; intros H; [done|]. simpl. rewrite (H w) by left. rewrite IH; [done|].
  intros x Hx. apply H. by right.
Qed.

Lemma total_add f g wallets : total (λ w, f w + g w) wallets = total f wallets + total g wallets.
Proof. induction wallets as [|w ws IH]; simpl; lia. Qed.

(** Over wallets listed once, a value held at one of them. *)
Lemma total_at k v wallets :
  NoDup wallets → k ∈ wallets → total (λ w, if bool_decide (k = w) then v else 0) wallets = v.
Proof.
  induction 1 as [|w ws Hnew Hnd IH]; intros Hk; [by apply not_elem_of_nil in Hk|]. simpl.
  apply elem_of_cons in Hk as [->|Hk].
  - rewrite bool_decide_eq_true_2 by done. rewrite (total_ext _ (λ _, 0)).
    + clear. induction ws; simpl; lia.
    + intros x Hx. rewrite bool_decide_eq_false_2; [done|]. by intros ->.
  - rewrite bool_decide_eq_false_2 by (intros ->; done). rewrite IH by done. lia.
Qed.

Definition among (wallets : list string) (r : txResult) : Prop :=
  completed r = true → r_fromWallet r ∈ wallets ∧ r_toWallet r ∈ wallets.

Lemma total_netOf wallets r : NoDup wallets → among wallets r → total (λ w, netOf w r) wallets = 0.
Proof.
  intros Hnd Ha. unfold netOf, among in *. destruct (completed r); [|by clear; induction wallets].
  destruct (Ha eq_refl) as [Hf Ht]. rewrite (total_ext _ (λ w, (if bool_decide (r_toWallet r = w) then r_amountMinor r else 0) +
    (if bool_decide (r_fromWallet r = w) then - r_amountMinor r else 0))) by (intros; repeat case_bool_decide; lia).
  rewrite total_add, !total_at by done. lia.
Qed.

Lemma total_netAll wallets results :
  NoDup wallets → Forall (among wallets) results → total (λ w, netAll w results) wallets = 0.
Proof.
  intros Hnd. induction 1 as [|r rs Hr _ IH]; simpl; [by clear; induction wallets|].
  rewrite total_add, IH, total_netOf by done. done.
Qed.

Lemma total_i64 f wallets : total (λ w, i64 (f w)) wallets mod two64 = total f wallets mod two64.
Proof.
  induction wallets as [|w ws IH]; [done|]. simpl. rewrite Z.add_mod, IH, i64_mod by done. by rewrite <- Z.add_mod.
Qed.

(** What a run of transfers ought to leave in a wallet is what was seeded, plus
    what the completed transfers brought, less what they took, in the 64 bits an
    amount has; and over the wallets the transfers are between, nothing is made or
    lost. *)
Theorem computeExpected_conserves initial results wallets :
  NoDup wallets → Forall (among wallets) results → (∀ w, in_i64 (balance initial w)) →
  (∀ w, balance (computeExpected initial results) w = i64 (balance initial w + netAll w results)) ∧
  total (balance (computeExpected initial results)) wallets mod two64 = total (balance initial) wallets mod two64.
Proof.
  intros Hnd Ha Hin. split; [intros w; by apply computeExpected_balance|].
  rewrite (total_ext _ (λ w, i64 (balance initial w + netAll w results))) by (intros; by apply computeExpected_balance).
  rewrite total_i64, total_add, total_netAll by done. by rewrite Z.add_0_r.
Qed.

(** ** The summary *)

Definition labelOf (r : txResult) : string := match r_err r with Some _ => "rpc_error" | None => r_final r end.
Definition counted {A} (P : A → bool) (xs : list A) : Z := len (filter (λ x, P x = true) xs).
Definition answered (r : txResult) : bool := bool_decide (r_err r = None).
Definition labelled (k : string) (r : txResult) : bool := bool_decide (labelOf r = k).

Lemma counted_snoc {A} (P : A → bool) xs x : counted P (xs ++ [x]) = counted P xs + if P x then 1 else 0.
Proof.
  unfold counted. rewrite filter_app, length_app, filter_cons, filter_nil. destruct (P x); simpl; lia.
Qed.

Lemma counted_le {A} (P : A → bool) xs : 0 ≤ counted P xs ≤ len xs.
Proof. unfold counted. pose proof (length_filter (λ x, P x = true) xs). lia. Qed.

Lemma stuckIndices_count results : len (stuckIndices results) = counted stuck results.
Proof.
  unfold stuckIndices, counted. rewrite length_fmap. f_equal.
  enough (∀ f : nat → nat, length (filter (λ ir, stuck (snd ir) = true) (imap (λ i, pair (f i)) results)) =
    length (filter (λ r, stuck r = true) results)) as H by apply (H (λ i, i)).
  induction results as [|r rs IH]; intros f; [done|]. rewrite imap_cons, !filter_cons. simpl.
  destruct (stuck r); simpl; rewrite <- (IH (λ i, f (S i))); done.
Qed.

(** What the loop has counted so far. *)
Lemma countResult_counts results :
  len results ≤ MaxInt64 →
  let '(byState, openCount, errors, latencies) := foldl countResult (∅, 0, 0, []) results in
  (∀ k, balance byState k = counted (labelled k) results) ∧ openCount = counted stuck results ∧
  errors = counted (λ r, negb (answered r)) results ∧ latencies = r_latency <$> filter (λ r, answered r = true) results.
Proof.
  induction results as [|r rs IH] using rev_ind; [done|]. intros Hlen. rewrite length_app in Hlen. simpl in Hlen.
  rewrite foldl_app. simpl. destruct (foldl _ _ rs) as [[[byState openCount] errors] latencies].
  destruct IH as (Hs & -> & -> & ->); [lia|].
  assert (∀ k k', labelOf r = k' → balance (bump k' 1 byState) k = counted (labelled k) (rs ++ [r])) as Hbump.
  { intros k k' Hk'. rewrite balance_bump, counted_snoc, Hs. change (labelled k r) with (bool_decide (labelOf r = k)). rewrite Hk'.
    pose proof (counted_le (labelled k) rs). case_bool_decide; [|lia]. rewrite i64_small; [done|].
    unfold in_i64, MaxInt64 in *. lia. }
  unfold countResult, labelOf in *. rewrite filter_app, filter_cons, filter_nil, fmap_app, !counted_snoc.
  change (stuck r) with (bool_decide (r_err r = None) && r_open r). change (answered r) with (bool_decide (r_err r = None)).
  destruct (r_err r) as [e|].
  - rewrite bool_decide_eq_false_2 by done. simpl. rewrite app_nil_r. split_and!; try done; try lia. intros k. by apply Hbump.
  - rewrite bool_decide_eq_true_2 by done. simpl. destruct (r_open r); (split_and!; try done; try lia); intros k; by apply Hbump.
Qed.

Lemma percentile_elem sorted p : sorted ≠ [] → unsigned p → percentile sorted p ∈ sorted.
Proof.
  intros Hne Hp. unfold percentile. destruct sorted as [|x xs] eqn:Hs; [done|]. rewrite <- Hs in *.
  pose proof (truncate_nonneg _ (fmul_unsigned _ _ Hp (f64_unsigned (len sorted) ltac:(lia)))) as Hi.
  assert (0 < len sorted) by (subst; simpl; lia).
  set (idx := if _ <=? _ then _ else _). assert (0 ≤ idx < len sorted) as Hr.
  { subst idx. destruct (_ <=? _) eqn:Hle; [lia|]. apply Z.leb_gt in Hle. lia. }
  destruct (lookup_lt_is_Some_2 sorted (Z.to_nat idx)) as [v Hv]; [lia|]. rewrite Hv. simpl. by eapply list_elem_of_lookup_2.
Qed.

(** The load report counts every result once: under its final state, or as an
    error when it never got one; it counts as open what the catch-up pass counts;
    and each latency percentile is the latency of a transfer that got an answer. *)
Theorem summarize_accounts results wallClock :
  len results ≤ MaxInt64 →
  let s := summarize results wallClock in
  s_total s = len results ∧
  (∀ k, balance (s_byState s) k = counted (labelled k) results) ∧
  s_errors s = counted (λ r, negb (answered r)) results ∧
  s_openCount s = len (stuckIndices results) ∧
  (filter (λ r, answered r = true) results ≠ [] →
    ∀ v, v ∈ [s_p50 s; s_p95 s; s_p99 s] → ∃ r, r ∈ results ∧ answered r = true ∧ v = r_latency r).
Proof.
  intros Hlen s. subst s. unfold summarize. pose proof (countResult_counts results Hlen) as Hc.
  destruct (foldl _ _ results) as [[[byState openCount] errors] latencies]. destruct Hc as (Hs & Ho & He & Hl). simpl.
  split_and!; [done|done|done|by rewrite stuckIndices_count|]. intros Hne v Hv.
  assert (v ∈ merge_sort Z.le latencies) as Hin.
  { assert (merge_sort Z.le latencies ≠ []) as Hsorted.
    { intros Hnil. pose proof (merge_sort_Permutation Z.le latencies) as Hp. rewrite Hnil in Hp.
      apply Permutation_nil_l in Hp. subst latencies. symmetry in Hp. by apply fmap_nil_inv in Hp. }
    repeat (apply elem_of_cons in Hv as [->|Hv]; [by apply percentile_elem|]). by apply not_elem_of_nil in Hv. }
  rewrite merge_sort_Permutation, Hl in Hin. apply list_elem_of_fmap in Hin as (r & -> & [Hr Hin]%list_elem_of_filter). eauto.
Qed.

(** ** Seeding *)

Section seeding.
Context {C : Codec} (transactions : TransactionService).

(** With a batch of at least one, seeding ends, and is batch after batch of the
    entities in order: each entity in one batch, no batch above the size that bounds
    the race on the reserve. *)
Theorem seedAll_batches reserve entities amount currency batch wait :
  (1 ≤ batch)%nat →
  ∃ batches, concat batches = entities ∧ Forall (λ b, 1 ≤ length b ≤ batch)%nat batches ∧
    seedAll transactions reserve entities amount currency batch wait =
      mapM_ (λ b, seedBatch transactions reserve b amount currency wait) batches.
Proof.
  intros Hb. unfold seedAll.
  enough (∀ fuel start, (length entities - start < fuel)%nat → ∃ batches, concat batches = drop start entities ∧
    Forall (λ b, 1 ≤ length b ≤ batch)%nat batches ∧
    seedFrom transactions fuel start reserve entities amount currency batch wait =
      mapM_ (λ b, seedBatch transactions reserve b amount currency wait) batches) as H by (apply (H _ 0%nat); lia).
  induction fuel as [|fuel IH]; intros start Hfuel; [lia|]. cbn [seedFrom]. case_bool_decide as Hlt.
  - destruct (IH (start + batch)%nat) as (batches & Hcat & Hsize & Heq); [lia|].
    set (k := ((start + batch) `min` length entities - start)%nat).
    exists (take k (drop start entities) :: batches). split_and!.
    + simpl. rewrite Hcat, <- drop_drop. destruct (decide (start + batch ≤ length entities)%nat).
      * replace k with batch by lia. apply take_drop.
      * rewrite (drop_ge (drop start entities) batch), app_nil_r by (rewrite length_drop; lia).
        apply take_ge. rewrite length_drop. lia.
    + constructor; [|done]. rewrite length_take, length_drop. lia.
    + simpl. by rewrite Heq.
  - exists []. rewrite drop_ge by lia. split_and!; [done|constructor|done].
Qed.
End seeding.

(** ** Witnesses *)

Definition sampleResult (from to : string) (amount : Z) (moved : bool) (err : option error) (latency : Z) : txResult :=
  mkTxResult "" "t" from to amount outcomeComplete (if moved then "TRANSFER_COMMITTED" else "TRANSFER_STAGED") moved
    (negb moved) true "" err latency.

Definition sampleRun : list txResult :=
  [ sampleResult "a" "b" 30 true None 5; sampleResult "b" "c" 20 true None 7;
    sampleResult "c" "a" 99 false None 9; sampleResult "a" "c" 40 true (Some (plain "timeout")) 3 ].

Lemma computeExpected_conserves_witness :
  let initial := {["a" := 100; "b" := 100; "c" := 100]} in
  let wallets := ["a"; "b"; "c"] in
  balance (computeExpected initial sampleRun) <$> wallets = [70; 110; 120] ∧
  (∀ w, balance (computeExpected initial sampleRun) w = i64 (balance initial w + netAll w sampleRun)) ∧
  total (balance (computeExpected initial sampleRun)) wallets mod two64 = total (balance initial) wallets mod two64.
Proof.
  intros initial wallets. split; [evaluate|]. apply (computeExpected_conserves initial sampleRun wallets).
  - decided.
  - repeat constructor; decided.
  - intros w. unfold initial, balance. rewrite !lookup_insert, lookup_singleton. unfold in_i64. repeat case_decide; simpl; lia.
Defined.

Lemma summarize_accounts_witness :
  let s := summarize sampleRun 1000000000 in
  (s_p50 s, s_openCount s, s_errors s) = (7, 1, 1) ∧
  s_total s = len sampleRun ∧
  (∀ k, balance (s_byState s) k = counted (labelled k) sampleRun) ∧
  s_errors s = counted (λ r, negb (answered r)) sampleRun ∧
  s_openCount s = len (stuckIndices sampleRun) ∧
  (filter (λ r, answered r = true) sampleRun ≠ [] →
    ∀ v, v ∈ [s_p50 s; s_p95 s; s_p99 s] → ∃ r, r ∈ sampleRun ∧ answered r = true ∧ v = r_latency r).
Proof. intros s. split; [evaluate|]. apply (summarize_accounts sampleRun 1000000000). decided. Defined.

Definition nowhere {C : Codec} : TransactionService :=
  mkTransactionService (λ _, fail (plain "no service")) (λ _, fail (plain "no service")) (λ _ _, fail (plain "no service")).

Definition threeEntities : list entity := [mkEntity "e0" "h0" "w0"; mkEntity "e1" "h1" "w1"; mkEntity "e2" "h2" "w2"].

Lemma seedAll_batches_witness :
  ∃ batches, concat batches = threeEntities ∧ Forall (λ b, 1 ≤ length b ≤ 2)%nat batches ∧
    seedAll nowhere (mkEntity "reserve" "h" "w") threeEntities 100 "USD" 2 (mkSettleWait 1 0) =
      mapM_ (λ b, seedBatch nowhere (mkEntity "reserve" "h" "w") b 100 "USD" (mkSettleWait 1 0)) batches.
Proof. apply (seedAll_batches nowhere). lia. Defined.
