(* ===== verification/Protocol.v ===== *)
(** * The whole system

    One event store and one ledger, any number of handlers of the five services
    and drivers of the two sagas, interleaved at every call, each of which may
    fail, lose its reply, or stop for good. [legal] is the protocol the five
    aggregates keep to together; [handler] the programs that run; [reachable]
    the configurations they can get to. The theorems are about every stream in
    every one of those. *)

From S2P Require Import Prelude Proto EventStore Ledger Effects Telemetry Validate Safety Wallet Holder Token.
From S2P Require Import TransferState TransferManifest TransferSaga TransferServer TransferLegal.
From S2P Require Import TransferSafety HolderSafety Dag TransactionState TransactionSaga.
From S2P Require Import Orchestrator ResumeDriver TransactionLegal TransactionSafety.

Section legal.
Context {C : Codec} {L : LedgerClient}.

Inductive legal (w : World) (k : string) (evs : list Event) (ms : list message) : Prop :=
| on_transfer id : k = streamKey TransferAggregateType id → tstep evs ms → legal w k evs ms
| on_token id : k = streamKey Token.AggregateType id → tokstep evs ms → legal w k evs ms
| on_wallet id : k = streamKey Wallet.AggregateType id → wstep evs ms → legal w k evs ms
| on_holder id : k = streamKey Holder.aggregateType id → hstep evs ms → legal w k evs ms
| on_transaction id h :
    k = streamKey TransactionAggregateType id → history h evs → xstep h ms →
    Forall (λ m, supported m w) ms → legal w k evs ms.

#[export] Instance legal_TransferProtocol : TransferProtocol legal.
Proof.
  split; intros w id evs ms; (split; [|by intros; econstructor; eauto]);
    intros Hl; inversion Hl; simpl in *; by try discriminate.
Qed.

#[export] Instance legal_HolderProtocol : HolderProtocol legal.
Proof.
  intros w id evs ms. split; [|by intros; eapply on_holder].
  intros Hl; inversion Hl; simpl in *; by try discriminate.
Qed.

#[export] Instance legal_TransactionProtocol : TransactionProtocol legal.
Proof.
  intros w id evs ms. split; [|by intros (h & ? & ? & ?); eapply on_transaction].
  intros Hl; inversion Hl; simpl in *; try discriminate; eauto.
Qed.
End legal.

Section system.
Context {C : Codec} {CL : CodecLaws C} {U : UuidPackage} {S256 : Sha256} {L : LedgerClient}.

(** A handler's answer goes to its client. *)
Definition discard {A} (m : M A) : prog unit := pbind m (λ _, Ret tt).

(** Every program the system runs: the RPCs of [cmd/server], what
    [cmd/orchestrator] does for a trigger, and [cmd/resume], each over the store and
    the ledger themselves or, as the three binaries wire them, over the
    instrumented ones. *)
Inductive handler : prog unit → Prop :=
| h_Establish id memos : handler (discard (Holder.Establish id memos))
| h_AddWallet id spec : handler (discard (Holder.AddWallet id spec))
| h_Provision id memos specs : handler (discard (Holder.Provision id memos specs))
| h_Open req : handler (discard (Wallet.Open req))
| h_Mint req : handler (discard (Token.Mint req))
| h_RequestTransfer req : handler (discard (RequestTransfer transferServer req))
| h_CancelAcceptedTransfer fuel id reason : handler (discard (CancelAcceptedTransfer fuel id reason))
| h_RequestReversal req : handler (discard (RequestReversal req))
| h_ConfirmStagedTransfer fuel id : handler (discard (ConfirmStagedTransfer fuel id))
| h_CancelStagedTransfer fuel id reason : handler (discard (CancelStagedTransfer fuel id reason))
| h_PostPendingTransfer fuel id : handler (discard (PostPendingTransfer fuel id))
| h_Resume fuel id : handler (discard (Resume transferServer fuel id))
| h_StartInitializingTransaction fuel req :
    handler (discard (StartInitializingTransaction (transferClient fuel) req))
| h_GetTransactionState id : handler (discard (GetTransactionState id))
| h_StartTransactionRollback fuel id reason : handler (discard (StartTransactionRollback fuel id reason))
| h_ResumeTransaction fuel id : handler (discard (ResumeTransaction (transferClient fuel) fuel id))
| h_Handle fuel t : handler (discard (Handle (orchestratorOf (Wire fuel) fuel) t))
| h_resume fuel c open ids : handler (discard (resume (orchestratorOf (Wire fuel) fuel) c open ids))
| h_instrumented canceled direct t p : handler p → handler (pbind (instrument canceled direct p t) (λ x, Ret (snd x))).

(** What runs, and where it has got to. *)
Definition config : Type := (World * list (prog unit))%type.
Definition reaches : config → config → Prop := rtc (system handler).

(** Everything starts on an empty log; the ledger and the clock may be anyhow. *)
Definition initial (c : config) : Prop := w_store (fst c) = NewMemoryStore ∧ snd c = [].
Definition reachable (c : config) : Prop := ∃ c0, initial c0 ∧ reaches c0 c.

(** ** Every handler is safe *)

Lemma discard_safe {A} (m : M A) Q w : safeM legal m Q w → safe legal (discard m) (λ _ _, True) w.
Proof. intros Hs. apply safe_pbind. eapply safe_mono; [|exact Hs]. by intros r w' _ _ w2 _. Qed.

Lemma transferServer_ok : server_ok legal transferServer.
Proof.
  split.
  - intros checker id [= <-]. apply IsOpen_conforms.
  - intros checker id [= <-]. apply Exists_conforms.
Qed.

Lemma transferClient_ok fuel : client_ok legal (transferClient fuel).
Proof.
  split.
  - intros req w. apply (RequestTransfer_refused legal), transferServer_ok.
  - intros id reason w. apply (CancelAcceptedTransfer_cancelled legal).
  - intros req. apply (RequestReversal_conforms legal).
  - intros id reason w. apply (CancelStagedTransfer_cancelled legal).
  - intros id amount tx. apply WouldAcceptTransfer_conforms. apply transferServer_ok.
Qed.

Lemma OwningTransaction_conforms id : conforms legal (OwningTransaction id).
Proof. unfold OwningTransaction. conform. Qed.

(** What the orchestrator does for a trigger is safe because what it resumes is. *)
Lemma Handle_safe fuel t w : txok w → safeM legal (Handle (orchestratorOf (Wire fuel) fuel) t) (λ _ _, True) w.
Proof.
  intros Hok. assert (Htx : ∀ id w', rely legal w w' →
    safeM legal (ResumeTransaction (transferClient fuel) fuel id) (λ _ _, True) w').
  { intros id w' Hr. apply (ResumeTransaction_safe legal); [apply transferClient_ok|].
    by apply (txok_stable legal _ _ Hr Hok). }
  unfold Handle. case_bool_decide; [|case_bool_decide; [by apply Htx | by apply safeM_fail]].
  unfold handleTransfer. apply safeM_bind_any; [apply (Resume_conforms legal), transferServer_ok|]. intros _ w1 Hr1.
  apply safeM_bind_any; [apply OwningTransaction_conforms|]. intros owner w2 Hr2.
  case_bool_decide; [by apply safeM_ret|]. apply Htx. by etrans.
Qed.

Lemma footprint_conforms s : conforms legal (footprint s).
Proof. induction s as [|t s IH]; simpl; [conform|]. apply conforms_bind; [conform|]. intros. apply conforms_bind; [exact IH|]. conform. Qed.

Lemma scope_conforms t : conforms legal (scope t).
Proof.
  unfold scope. apply conforms_bind.
  - unfold transactionOf. repeat case_bool_decide; conform. apply OwningTransaction_conforms.
  - intros id. case_bool_decide; [conform|]. apply conforms_bind; [by apply ChildTransferIDs_conforms|]. conform.
Qed.

Lemma stillGoing_conforms ts : conforms legal (stillGoing ts).
Proof.
  induction ts as [|t ts IH]; simpl; [conform|]. apply conforms_bind.
  - apply conforms_mapErr. unfold inFlight, Outcome. repeat case_bool_decide; conform. apply IsOpen_conforms.
  - intros. apply conforms_bind; [exact IH|]. conform.
Qed.

(** Driving is waking, which is safe. *)
Lemma rounds_safe fuel n t w : txok w → safeM legal (rounds (orchestratorOf (Wire fuel) fuel) n t) (λ _ _, True) w.
Proof.
  revert w. induction n as [|n IH]; intros w Hok; simpl; [by apply safeM_fail|].
  apply (safeM_bind_txok legal); [done| |].
  - unfold round. apply safeM_bind_any; [apply scope_conforms|]. intros s w1 Hr1.
    apply safeM_bind_any; [apply footprint_conforms|]. intros before w2 Hr2.
    apply safeM_bind_done.
    + apply safeM_mapM_. intros x w3 _ Hr3. apply safeM_mapErr, Handle_safe.
      eapply (txok_stable legal); [|exact Hok]. etrans; [exact Hr1|]. by etrans.
    + intros _ w3 _. apply safeM_bind_any; [apply scope_conforms|]. intros s' w4 _.
      apply safeM_bind_any; [apply footprint_conforms|]. intros. by apply safeM_ret.
  - intros moved w1 Hr1 Hok1. destruct moved; [by apply IH | by apply safeM_ret].
Qed.

Lemma resume_safe fuel c open ids w :
  txok w → safeM legal (resume (orchestratorOf (Wire fuel) fuel) c open ids) (λ _ _, True) w.
Proof.
  intros Hok. unfold resume. apply safeM_bind_any.
  - unfold resolveTargets. destruct open; [|conform]. apply conforms_bind; [conform|]. intros. apply stillGoing_conforms.
  - intros targets w1 Hr1. assert (Hok1 : txok w1) by by eapply (txok_stable legal). destruct targets as [|t ts]; [by apply safeM_ret|].
    apply safeM_bind_done; [|intros; case_match; [by apply safeM_fail | by apply safeM_ret]].
    generalize (t :: ts) as gs. generalize (mkTally 0 0 0) as n. clear - Hok1 CL. intros n gs. revert n w1 Hok1.
    induction gs as [|g gs IH]; intros n w Hok; simpl; [by apply safeM_ret|].
    eapply safeM_try_ok; [by apply rounds_safe| |].
    + intros r w' Hr _. case_match; apply IH; by eapply (txok_stable legal).
    + intros e w' Hr. apply IH. by eapply (txok_stable legal).
Qed.

(** Instrumenting a program changes nothing of what it keeps to. *)
Lemma instrumented_program canceled direct (p : prog unit) t w :
  safe legal p (λ _ _, True) w →
  safe legal (pbind (instrument canceled direct p t) (λ x, Ret (snd x))) (λ _ _, True) w.
Proof.
  intros Hs. apply safe_pbind. eapply safe_mono; [|exact (instrument_keeps canceled direct legal p _ w t Hs)].
  by intros x w' _ _ w2 _.
Qed.

Lemma handler_safe p w : txok w → handler p → safe legal p (λ _ _, True) w.
Proof.
  intros Hok. induction 1 as [| | | | | | | | | | | | | | | | | |canceled direct t p _ IH];
    [eapply discard_safe..|by apply instrumented_program].
  - by apply (Establish_conforms legal).
  - by apply (AddWallet_conforms legal).
  - by apply (Provision_conforms legal).
  - by apply (Open_conforms legal).
  - by apply (Mint_conforms legal).
  - apply (RequestTransfer_conforms legal), transferServer_ok.
  - apply (CancelAcceptedTransfer_conforms legal).
  - apply (RequestReversal_conforms legal).
  - apply (ConfirmStagedTransfer_conforms legal).
  - apply (CancelStagedTransfer_conforms legal).
  - apply (PostPendingTransfer_conforms legal).
  - apply (Resume_conforms legal), transferServer_ok.
  - apply (StartInitializingTransaction_conforms legal), transferClient_ok.
  - apply (GetTransactionState_conforms legal).
  - by apply (StartTransactionRollback_safe legal).
  - by apply (ResumeTransaction_safe legal), Hok; apply transferClient_ok.
  - by apply Handle_safe.
  - by apply resume_safe.
Qed.

Lemma initial_txok c : initial c → txok (fst c).
Proof.
  intros [Hs _] id. exists []. unfold stream. rewrite Hs. split; [constructor|]. split; [by left | constructor].
Qed.

(** Whatever happens keeps to the protocol. *)
Lemma reaches_rely c0 c c' :
  initial c0 → reaches c0 c → reaches c c' → rely legal (fst c0) (fst c) ∧ rely legal (fst c) (fst c').
Proof.
  intros Hinit H1 H2. pose proof (initial_txok _ Hinit) as Hok.
  assert (Hall : Forall (λ p, safe legal p (λ _ _, True) (fst c0)) (snd c0)) by by destruct Hinit as [_ ->].
  destruct (system_safe legal handler txok c0 c) as [Hr Hps]; try done; [exact (txok_stable legal)|by intros; apply handler_safe|].
  split; [done|]. eapply (system_safe legal handler txok c c'); try done;
    [exact (txok_stable legal)|by intros; apply handler_safe|by eapply (txok_stable legal)].
Qed.

Lemma reachable_rely c c' : reachable c → reaches c c' → rely legal (fst c) (fst c').
Proof. intros (c0 & Hinit & H1) H2. by eapply reaches_rely. Qed.

Lemma reachable_txok c : reachable c → txok (fst c).
Proof.
  intros (c0 & Hinit & H1). destruct (reaches_rely c0 c c Hinit H1) as [Hr _]; [reflexivity|].
  eapply (txok_stable legal); [exact Hr | by apply initial_txok].
Qed.

Lemma reachable_transfer c id : reachable c → treach (stream (fst c) TransferAggregateType id).
Proof.
  intros (c0 & Hinit & H1). destruct (reaches_rely c0 c c Hinit H1) as [Hr _]; [reflexivity|].
  pose proof (rely_tgrow legal _ _ id Hr) as Hg. destruct Hinit as [Hs _]. unfold stream in Hg at 1. by rewrite Hs in Hg.
Qed.

Lemma reachable_tgrow c c' id :
  reachable c → reaches c c' →
  rtc tgrow (stream (fst c) TransferAggregateType id) (stream (fst c') TransferAggregateType id).
Proof. intros H1 H2. by apply (rely_tgrow legal), reachable_rely. Qed.

Lemma reachable_transaction c id :
  reachable c → ∃ h, history h (stream (fst c) TransactionAggregateType id) ∧ wf_tx h ∧
    Forall (λ m, supported m (fst c)) h.
Proof. intros Hc. apply (reachable_txok c Hc id). Qed.

(** The run of an opened Transaction, whatever its state. *)
Lemma reachable_run c id st :
  reachable c → topLevelState (stream (fst c) TransactionAggregateType id) = st →
  st ≠ stateTxUnknown → st ≠ stateRejected →
  ∃ i rest, history (TransactionInitialized i :: rest) (stream (fst c) TransactionAggregateType id) ∧
    topOf (TransactionInitialized i :: rest) = st ∧ wf_run i (TransactionInitialized i :: rest) ∧
    (st = stateStarted → noneFailed (TransactionInitialized i :: rest)) ∧
    Forall (λ m, supported m (fst c)) (TransactionInitialized i :: rest).
Proof.
  intros Hc Hst H1 H2. destruct (reachable_transaction c id Hc) as (h & Hh & Hwf & Hs).
  rewrite (history_top _ _ Hh) in Hst. subst st.
  destruct (wf_tx_opened _ Hwf H1 H2) as (i & rest & -> & Hrun & Hnone). exists i, rest. done.
Qed.

(** A Transfer that ended is reported so. *)
Lemma reachable_outcome c id st :
  reachable c → ended id st (fst c) → terminal st = true →
  outcomeOf (stream (fst c) TransferAggregateType id) =
    match st with stateCommitted => OutcomeCommitted | stateFailed => OutcomeFailed | _ => OutcomeCancelled end.
Proof.
  intros Hc Hst Hterm. unfold ended in Hst. pose proof (treach_wf _ (reachable_transfer c id Hc)) as Hwf.
  destruct Hwf as [Hnil|(m & (e & rest & Heq & [Ht _] & Hk & _) & Hwf)].
  { rewrite Hnil in Hst. by subst st. }
  rewrite Heq in *. unfold outcomeOf, rejectedRequest. rewrite Ht. unfold EventType. destruct (stageFlag m) eqn:Hflag.
  - destruct m; try discriminate Hflag; simpl; rewrite Hst; by destruct st.
  - rewrite currentState_outcomes, Hwf in Hst. by subst st.
Qed.

(** A dead Transfer is reported as one of the ways to be so. *)
Lemma reachable_dead c id :
  reachable c → dead id (fst c) →
  outcomeOf (stream (fst c) TransferAggregateType id) ∈ [OutcomeRejected; OutcomeFailed; OutcomeCancelled].
Proof.
  intros Hc [Href|[Hf|Hf]].
  - unfold refused in Href. unfold outcomeOf. destruct (stream _ _ _) as [|e evs]; [done|]. rewrite Href. decided.
  - rewrite (reachable_outcome c id stateFailed Hc Hf eq_refl). decided.
  - rewrite (reachable_outcome c id stateCancelled Hc Hf eq_refl). decided.
Qed.

(** ** The streams of Wallets, Tokens and Holders *)

(** What holds of the empty stream and is kept by every legal batch holds of the
    stream throughout. *)
Lemma reachable_stream (P : list Event → Prop) c ty id :
  P [] →
  (∀ w evs ms batch, legal w (streamKey ty id) evs ms → Forall2 recorded ms batch → P evs → P (evs ++ batch)) →
  reachable c → P (stream (fst c) ty id).
Proof.
  intros Hnil Hstep (c0 & Hinit & H1). destruct (reaches_rely c0 c c Hinit H1) as [Hr _]; [reflexivity|].
  assert (P (stream (fst c0) ty id)) as H0 by (destruct Hinit as [Hs _]; unfold stream; by rewrite Hs).
  revert H0. clear -Hr Hstep. induction Hr as [w|w w1 w2 Hg _ IH]; [done|]. intros H0. apply IH. unfold stream in *.
  destruct (Hg (streamKey ty id)) as [->|(ms & batch & -> & Hrec & Hl)]; [done|]. by eapply Hstep.
Qed.

Definition wallet_stream (h : list message) : Prop :=
  h = [] ∨ ∃ m rest, h = WalletOpened m :: rest ∧ Forall (λ m, isMintedForWallet m = true) rest.

Lemma reachable_wallet c id :
  reachable c → ∃ h, history h (stream (fst c) Wallet.AggregateType id) ∧ wallet_stream h.
Proof.
  apply (reachable_stream (λ evs, ∃ h, history h evs ∧ wallet_stream h)).
  { exists []. split; [constructor | by left]. }
  intros w evs ms batch Hl%legal_wallet Hrec (h & Hh & Hshape). exists (h ++ ms). split; [by apply history_app|].
  destruct Hl as [[-> [m ->]]|[[opened Ho] Hms]].
  - apply Forall2_nil_inv_r in Hh as ->. right. exists m, []. by rewrite Forall_nil.
  - destruct Hshape as [->|(m & rest & -> & Hrest)]; [by apply Forall2_nil_inv_l in Hh as ->|].
    right. exists m, (rest ++ ms). split; [done|]. by apply Forall_app.
Qed.

(** Minted once, then balances, no two in a row the same. *)
Definition token_stream (h : list message) : Prop :=
  h = [] ∨ ∃ m bs, h = TokenMinted m :: (TokenBalanceRecorded <$> bs) ∧
    ∀ pre b b' post, bs = pre ++ b :: b' :: post → b ≠ b'.

(** The last balance the fold of a stream remembers is the last recorded. *)
Lemma foldToken_last bs rest s st :
  Forall2 recorded (TokenBalanceRecorded <$> bs) rest → rfold Token.foldToken s rest = Ok st →
  Token.ts_last st = match last bs with Some b => Some b | None => Token.ts_last s end.
Proof.
  revert rest s. induction bs as [|b bs IH]; intros rest s Hrec Hf.
  - apply Forall2_nil_inv_l in Hrec as ->. by simplify_eq/=.
  - apply Forall2_cons_inv_l in Hrec as (e & rest' & He & Hrest & ->). cbn [rfold] in Hf.
    unfold Token.foldToken in Hf at 1. rewrite (recorded_Decode _ _ He) in Hf. cbn [rmap_err rbind] in Hf.
    rewrite (IH _ _ Hrest Hf). by destruct bs as [|? ?] using rev_ind; [|rewrite app_comm_cons, !last_snoc].
Qed.

Lemma tokenStreamOf_last m bs evs st :
  history (TokenMinted m :: (TokenBalanceRecorded <$> bs)) evs → Token.tokenStreamOf evs = Ok st →
  Token.ts_last st = last bs.
Proof.
  intros Hh. apply Forall2_cons_inv_l in Hh as (e & rest & He & Hrest & ->).
  unfold Token.tokenStreamOf. generalize (len (e :: rest)). intros seq. cbn [rfold]. unfold Token.foldToken at 1.
  rewrite (recorded_Decode _ _ He). cbn [rmap_err rbind]. cbn [Token.ts_seq Token.ts_last].
  destruct (rfold _ _ rest) as [s'|] eqn:Hf; [|done]. cbn [rbind]. case_bool_decide; [done|]. intros [= <-].
  rewrite (foldToken_last _ _ _ _ Hrest Hf). by destruct (last bs).
Qed.

Lemma adjacent_snoc {A : Type} (l : list A) (x : A) :
  (∀ pre b b' post, l = pre ++ b :: b' :: post → b ≠ b') → last l ≠ Some x →
  ∀ pre b b' post, l ++ [x] = pre ++ b :: b' :: post → b ≠ b'.
Proof.
  intros Hadj Hlast pre b b' post Heq. destruct post as [|y post] using rev_ind.
  - assert (l ++ [x] = (pre ++ [b]) ++ [b']) as [-> ->]%app_inj_tail by by rewrite <- app_assoc.
    rewrite last_snoc in Hlast. congruence.
  - assert (l ++ [x] = (pre ++ b :: b' :: post) ++ [y]) as [-> _]%app_inj_tail.
    { rewrite Heq. rewrite <- app_assoc. simpl. done. }
    by eapply Hadj.
Qed.

Lemma reachable_token c id :
  reachable c → ∃ h, history h (stream (fst c) Token.AggregateType id) ∧ token_stream h.
Proof.
  apply (reachable_stream (λ evs, ∃ h, history h evs ∧ token_stream h)).
  { exists []. split; [constructor | by left]. }
  intros w evs ms batch Hl%legal_token Hrec (h & Hh & Hshape). exists (h ++ ms). split; [by apply history_app|].
  destruct Hl as [[-> [m ->]]|(st & b & Hst & Hne & ->)].
  - apply Forall2_nil_inv_r in Hh as ->. right. exists m, []. split; [done|]. by intros [|??].
  - destruct Hshape as [->|(m & bs & -> & Hadj)]; [by apply Forall2_nil_inv_l in Hh as ->|].
    right. exists m, (bs ++ [b]). split; [by rewrite fmap_app|]. apply adjacent_snoc; [done|].
    by rewrite <- (tokenStreamOf_last _ _ _ _ Hh Hst).
Qed.

(** Established once, then Wallets, none twice. *)
Definition holder_stream (h : list message) : Prop :=
  h = [] ∨ ∃ id memos added, h = HolderEstablished id memos :: (HolderAddedWallet <$> added) ∧
    NoDup (aw_WalletId <$> added).

Lemma recordedWallets_spec h evs recorded :
  history h evs → Holder.recordedWallets evs = Ok recorded →
  ∀ wid, wid ∈ recorded ↔ ∃ m, m ∈ h ∧ addedWallet m = Some wid.
Proof.
  unfold Holder.recordedWallets. intros Hh.
  assert (Hgen : ∀ acc rec, rfold Holder.recordWallet acc evs = Ok rec →
    ∀ wid, wid ∈ rec ↔ wid ∈ acc ∨ ∃ m, m ∈ h ∧ addedWallet m = Some wid).
  { induction Hh as [|m e h evs Hm _ IH]; intros acc rec Hf wid.
    - simplify_eq/=. set_solver.
    - cbn [rfold] in Hf. unfold Holder.recordWallet in Hf at 1. rewrite (recorded_Decode _ _ Hm) in Hf. cbn [rmap_err rbind] in Hf.
      setoid_rewrite elem_of_cons. destruct (addedWallet m) as [wid'|] eqn:Hadd.
      + destruct m; simplify_eq/=. rewrite (IH _ _ Hf). rewrite elem_of_union, elem_of_singleton.
        split; [intros [[->|?]|(m' & ? & ?)]; eauto 6|]. intros [?|(m' & [->|?] & ?)]; simplify_eq/=; eauto.
      + assert (rfold Holder.recordWallet acc evs = Ok rec) as Hf' by by destruct m; simplify_eq/=.
        rewrite (IH _ _ Hf'). split; [intros [?|(m' & ? & ?)]; eauto 6|]. intros [?|(m' & [->|?] & ?)]; [by left|congruence|eauto]. }
  intros Hf wid. rewrite (Hgen _ _ Hf wid). set_solver.
Qed.

Lemma added_messages ms :
  Forall (λ m, is_Some (addedWallet m)) ms → ∃ added, ms = HolderAddedWallet <$> added.
Proof.
  induction 1 as [|m ms [wid Hm] _ [added ->]]; [by exists []|]. destruct m; try done. by eexists (_ :: added).
Qed.

Lemma reachable_holder c id :
  reachable c → ∃ h, history h (stream (fst c) Holder.aggregateType id) ∧ holder_stream h.
Proof.
  apply (reachable_stream (λ evs, ∃ h, history h evs ∧ holder_stream h)).
  { exists []. split; [constructor | by left]. }
  intros w evs ms batch (opening & added & rec & -> & Hnew & Hold & Hrec' & Hadd & Hnd & Hfresh)%legal_holder Hrec (h & Hh & Hshape).
  exists (h ++ opening ++ added). split; [by apply history_app|]. destruct (added_messages _ Hadd) as [ws ->].
  assert (Hnd' : NoDup (aw_WalletId <$> ws)).
  { apply (NoDup_fmap_1 Some). rewrite <- list_fmap_compose. by rewrite <- list_fmap_compose in Hnd. }
  destruct Hshape as [->|(hid & memos & old & -> & Hold')].
  - apply Forall2_nil_inv_l in Hh as ->. destruct (Hnew eq_refl) as (id' & memos & ->). right. by exists id', memos, ws.
  - assert (evs ≠ []) as Hne by (intros ->; by apply Forall2_nil_inv_r in Hh). rewrite (Hold Hne). right.
    exists hid, memos, (old ++ ws). split; [by rewrite fmap_app|]. rewrite fmap_app. apply NoDup_app.
    split; [done|]. split; [|done]. intros wid (a & -> & Ha)%list_elem_of_fmap (a' & Heq & Ha')%list_elem_of_fmap.
    apply (Hfresh (HolderAddedWallet a') (aw_WalletId a')); [by apply list_elem_of_fmap_2|done|].
    apply (recordedWallets_spec _ _ _ Hh Hrec'). exists (HolderAddedWallet a). rewrite <- Heq. split; [|done].
    right. by apply list_elem_of_fmap_2.
Qed.
End system.
