(* ===== verification/Scenario.v ===== *)
(** * Concrete executions

    The programs of the development run on concrete inputs: the configurations
    the theorems are applied at, and the behaviour of the services on a few
    whole stories, evaluated. The store is [MemoryStore], the ledger
    [FakeClient], the codec, the hash and the UUID parser the instances of
    [EventStore] and [Validate]. *)

From S2P Require Import Prelude Proto EventStore Ledger Effects Validate Safety Wallet Holder Token.
From S2P Require Import TransferState TransferManifest TransferSaga TransferServer TransferLegal.
From S2P Require Import TransferSafety HolderSafety Dag TransactionState TransactionSaga.
From S2P Require Import TransactionLegal TransactionSafety Protocol.

(** What a stream of these executions says. *)
Definition messages (w : World) (ty id : string) : list message := Payload <$> stream w ty id.

Lemma messages_history w ty id :
  forallb (λ e, bool_decide (EType e = EventType (Payload e))) (stream w ty id) = true →
  history (messages w ty id) (stream w ty id).
Proof.
  unfold messages. induction (stream w ty id) as [|e evs IH]; [constructor|]. simpl.
  intros [He%bool_decide_eq_true Hevs]%andb_true_iff. constructor; [by split | by apply IH].
Qed.

Lemma messages_split w ty id n m :
  messages w ty id !! n = Some m → messages w ty id = take n (messages w ty id) ++ m :: drop (S n) (messages w ty id).
Proof. intros Hm. by rewrite take_drop_middle. Qed.

Lemma runAll_reachable (ps : list (prog unit)) : Forall handler ps → reachable (runAll emptyWorld [] ps).
Proof. intros Hps. exists (emptyWorld, []). split; [done|]. by apply runAll_system. Qed.

Lemma runFor_reachable c p n :
  reachable c → handler p → reachable (fst (runFor n (fst c) p), snd c ++ [snd (runFor n (fst c) p)]).
Proof.
  destruct c as [w ps]. intros (c0 & Hinit & Hr) Hp. exists c0. split; [done|]. etrans; [exact Hr|].
  eapply rtc_l; [by apply (system_start handler _ _ p)|]. apply runFor_system.
Qed.

(** Time passes. *)
Definition later (w : World) : World := mkWorld (w_store w) (w_ledger w) (w_now w + 6000000000) (w_fresh w).

Lemma later_reaches c : reaches c (later (fst c), snd c).
Proof. destruct c as [w ps]. apply rtc_once. by apply system_idle. Qed.

Ltac handlers := repeat (apply Forall_cons_2; [constructor|]); apply Forall_nil_2.

Definition walletA := "00000000-0000-4000-8000-000000000001".
Definition walletB := "00000000-0000-4000-8000-000000000002".
Definition walletC := "00000000-0000-4000-8000-000000000003".
Definition transfer1 := "00000000-0000-4000-8000-0000000000a1".
Definition transfer2 := "00000000-0000-4000-8000-0000000000a2".
Definition txn := "00000000-0000-4000-8000-0000000000b1".
Definition owner := "00000000-0000-4000-8000-0000000000ff".

Definition usd (n : Z) : option Money := Some (mkMoney n "USD").

(** Money comes in at [walletA], goes to [walletB], and part of it on to
    [walletC]. *)
Definition payment (part : Z) : Initialized :=
  mkInitialized txn "payment" "1"
    {[ transfer1 := mkChildTransfer transfer1 (usd 500) walletA walletB false true;
       transfer2 := mkChildTransfer transfer2 (usd part) walletB walletC false false ]}
    {[ transfer2 := [transfer1] ]}.

Definition fuel : nat := 10.
Definition client : TransferClient := transferClient fuel.

Definition opening : list (prog unit) :=
  [ discard (Wallet.Open (Wallet.mkOpenRequest walletA owner "in" ALLOWS_ONRAMP));
    discard (Wallet.Open (Wallet.mkOpenRequest walletB owner "main" ALLOWS_OFFRAMP));
    discard (Wallet.Open (Wallet.mkOpenRequest walletC owner "out" ALLOWS_OFFRAMP)) ].

Definition resumeTransfer (id : string) : prog unit := discard (Resume transferServer fuel id).
Definition resumeTransaction : prog unit := discard (ResumeTransaction client fuel txn).

(** A Transaction of one Transfer, and that Transfer's driver stopped for good just
    after it prepared it and claimed its commit. *)
Definition single : Initialized :=
  mkInitialized txn "payment" "1"
    {[ transfer1 := mkChildTransfer transfer1 (usd 500) walletA walletB false true ]} ∅.

Definition requested : config := runAll emptyWorld [] (opening ++
  [ discard (StartInitializingTransaction client single); resumeTransaction ]).

Definition claimed : config :=
  (fst (runFor 10 (fst requested) (resumeTransfer transfer1)),
   snd requested ++ [snd (runFor 10 (fst requested) (resumeTransfer transfer1))]).

(** The same, six seconds later. *)
Definition abandoned : config := (later (fst claimed), snd claimed).

(** The payment goes through. *)
Definition paid : config := runAll emptyWorld [] (opening ++
  [ discard (StartInitializingTransaction client (payment 200)); resumeTransaction;
    resumeTransfer transfer1; resumeTransaction; resumeTransfer transfer2; resumeTransaction ]).

(** Its second leg asks for more than the first brings in: it is rejected, and
    the first is reversed. *)
Definition reversal1 : string := Detid.New (txn +:+ ":reversal:" +:+ transfer1).
Definition undone : config := runAll emptyWorld [] (opening ++
  [ discard (StartInitializingTransaction client (payment 700)); resumeTransaction;
    resumeTransfer transfer1; resumeTransaction; resumeTransfer reversal1; resumeTransaction ]).

Lemma paid_reachable : reachable paid.
Proof. apply runAll_reachable. unfold opening. simpl. handlers. Qed.

Lemma undone_reachable : reachable undone.
Proof. apply runAll_reachable. unfold opening. simpl. handlers. Qed.

Lemma requested_reachable : reachable requested.
Proof. apply runAll_reachable. unfold opening. simpl. handlers. Qed.

Lemma claimed_reachable : reachable claimed.
Proof. apply (runFor_reachable requested); [apply requested_reachable | constructor]. Qed.

Lemma claimed_abandoned : reaches claimed abandoned.
Proof. apply (later_reaches claimed). Qed.

Example paid_transaction :
  EType <$> stream (fst paid) TransactionAggregateType txn = full_name <$>
    [ KTransactionInitialized; KTransactionStarted; KTransferRequestedWithinTransaction;
      KTransferCompletedWithinTransaction; KTransferRequestedWithinTransaction;
      KTransferCompletedWithinTransaction; KTransactionCompleted ].
Proof. evaluate. Qed.

Example undone_transaction :
  EType <$> stream (fst undone) TransactionAggregateType txn = full_name <$>
    [ KTransactionInitialized; KTransactionStarted; KTransferRequestedWithinTransaction;
      KTransferCompletedWithinTransaction; KTransferRequestedWithinTransaction;
      KTransferFailedWithinTransaction; KTransactionRollbackStarted;
      KTransferReversalRequestedWithinTransaction; KTransferRolledBackWithinTransaction;
      KTransactionRolledBack ].
Proof. evaluate. Qed.
