(* ===== verification/TransferRest.v ===== *)
(** * A Transfer driven with nobody in the way

    [Resume] of [go/internal/transfer/saga.go] under [Alone]: with the event store
    answering and no one else writing, it returns, and unless the ledger or the
    request's own data make it fail the Transfer is left where only the outside
    world moves it on. A claim somebody abandoned is waited out on the way. *)

From S2P Require Import Prelude Proto EventStore Ledger Effects Validate Wallet Token TransferState.
From S2P Require Import Alone TransferManifest TransferSaga TransferServer TransferLegal TransferSafety.
From S2P Require Import Dag TransactionState TransactionSaga Protocol Scenario.

(** ** What the pure parts may fail with *)

Section pure.
Context {C : Codec} {U : UuidPackage} {S256 : Sha256}.

Hint Resolve foreignR_Decode : alone.

Lemma foreignR_PostedNet b : foreignR (PostedNet b).
Proof. unfold PostedNet. foreigns. Qed.
Hint Resolve foreignR_PostedNet : alone.

Lemma foreignR_openedIn evs : foreignR (Wallet.openedIn evs).
Proof. unfold Wallet.openedIn. foreigns. Qed.

Lemma foreignR_tokenStreamOf evs : foreignR (Token.tokenStreamOf evs).
Proof. unfold Token.tokenStreamOf, Token.foldToken. foreigns. Qed.

Lemma foreignR_balanceRecorded id wid bals : foreignR (Token.balanceRecorded id wid bals).
Proof. unfold Token.balanceRecorded. foreigns. Qed.
Hint Resolve foreignR_balanceRecorded : alone.

Lemma foreignR_balanceWritesOf bals xs : foreignR (Token.balanceWritesOf bals xs).
Proof. induction xs as [|x xs IH]; simpl; unfold Token.balanceWrite; foreigns. Qed.

Lemma foreignR_mintRefusal wid specs rs : foreignR (Token.mintRefusal wid specs rs).
Proof. revert specs. induction rs as [|r rs IH]; intros specs; simpl; foreigns. Qed.

Lemma foreignR_AllowsToAccountFlags a : foreignR (Token.AllowsToAccountFlags a).
Proof. destruct a; simpl; auto with alone. Qed.

Lemma foreignR_pickTokens bals cur rem ids : foreignR (pickTokens bals cur rem ids).
Proof. revert rem. induction ids as [|id ids IH]; intros rem; simpl; foreigns. Qed.

Lemma foreignR_reversedLegs evs : foreignR (reversedLegs evs).
Proof. induction evs as [|e evs IH]; simpl; foreigns. Qed.
Hint Resolve foreignR_reversedLegs : alone.

Lemma foreignR_manifestOf evs : foreignR (manifestOf evs).
Proof. unfold manifestOf. foreigns. Qed.

Lemma foreignR_preparedLegs evs : foreignR (preparedLegs evs).
Proof. induction evs as [|e evs IH]; simpl; foreigns. Qed.

Lemma foreignR_stageRequested evs : foreignR (stageRequested evs).
Proof. unfold stageRequested. foreigns. Qed.
End pure.

(** ** Reading *)

Section rest.
Context {C : Codec} {U : UuidPackage} {S256 : Sha256} {L : LedgerClient}.
Context (HL : ledgerErrors).

Notation tstream w id := (stream w TransferAggregateType id).

Hint Resolve reads_ret reads_fail reads_lift reads_load reads_newUuid : alone.
Hint Resolve foreignR_Decode foreignR_PostedNet foreignR_openedIn foreignR_tokenStreamOf foreignR_balanceRecorded
  foreignR_balanceWritesOf foreignR_mintRefusal foreignR_AllowsToAccountFlags foreignR_pickTokens
  foreignR_manifestOf foreignR_preparedLegs foreignR_stageRequested : alone.

Ltac reading :=
  repeat first
    [ progress intros
    | match goal with
      | |- reads (bind _ _) => apply reads_bind
      | |- reads (mapErr _ _) => apply reads_mapErr
      | |- reads (mapM _ _) => apply reads_mapM
      | |- reads (lift _) => apply reads_lift
      | |- reads (match ?x with _ => _ end) => destruct x
      | |- reads (let _ := _ in _) => cbv zeta
      | |- reads (balances _) => apply (reads_balances HL)
      | |- reads (createAccounts _) => apply (reads_createAccounts HL)
      | |- foreignR (rmap_err _ _) => apply foreignR_map_err
      end
    | solve [eauto 6 with alone] ].

Lemma loadTransfer_reads id : reads (loadTransfer id).
Proof. unfold loadTransfer. reading. Qed.












(** ** Writes beside the Transfer's own *)







(** ** Balances *)




Section one.
Context (id : string).






Context (fuel : nat) (Hfuel : (2 ≤ fuel)%nat).


(** ** The Transfer's own appends *)






(** ** Claims *)






(** ** Submitting *)



(** ** Staging and committing *)





(** ** Waiting out a claim *)








(** ** Preparing *)








(** ** Driving *)




End one.

End rest.

