(* ===== verification/SimulateRun.v ===== *)
(** * cmd/simulate: a run against the system

    The load of [SimulateLoad] over the services of the whole system, every other
    handler and driver going on beside it; what [main.go] checks first and says
    last; and how the balances [verify.go] reads relate to the Token service's. *)

From Stdlib Require Import SpecFloat.
From S2P Require Import Prelude GoMath Proto EventStore Ledger Effects Validate Safety Wallet Holder Token.
From S2P Require Import TransferState TransferManifest TransferSaga TransferServer TransferLegal.
From S2P Require Import TransferSafety Dag TransactionState TransactionSaga.
From S2P Require Import TransactionLegal TransactionSafety Simulate SimulateSafety SimulateLoad SimulateReport Protocol Scenario.

(** ** main.go: the flags *)

Record flags : Type := mkFlags {
  fl_mode : string; fl_entities : Z; fl_transactions : Z; fl_concurrency : Z; fl_minAmount : Z; fl_maxAmount : Z;
  fl_initialBalance : Z; fl_seedBatch : Z; fl_waitAttempts : Z
}.

(** The [log.Fatal]s, in order. *)
Definition checkFlags (f : flags) : result unit :=
  if fl_entities f <? 2 then Err (plain "simulate: -entities must be at least 2")
  else if fl_maxAmount f <? fl_minAmount f then Err (plain "simulate: -max-amount must be >= -min-amount")
  else if negb (bool_decide (fl_mode f = "transaction")) && negb (bool_decide (fl_mode f = "transfer")) then
    Err (plain ("simulate: -mode must be " +:+ quoted "transaction" +:+ " or " +:+ quoted "transfer" +:+ ", got " +:+ quoted (fl_mode f)))
  else if fl_seedBatch f <? 1 then Err (plain "simulate: -seed-batch must be at least 1")
  else if fl_waitAttempts f <? 1 then Err (plain "simulate: -settle-wait-attempts must be at least 1")
  else Ok tt.

(** [initial]: what every entity was seeded with, as an [int64]. *)
Definition seeded (entities : list entity) (initialBalance : Z) : gmap string Z :=
  foldl (λ m e, <[en_walletID e := i64 initialBalance]> m) ∅ entities.

(** ** main.go: the verdict *)

(** [%-16s] *)
Definition padded (width : nat) (s : string) : string :=
  s +:+ String.concat "" (replicate (width - String.length s) " ").

Definition mismatchLine (r : reconciliation) : string :=
  "MISMATCH " +:+ padded 16 (rc_name r) +:+ " expected=" +:+ decimal (rc_expected r) +:+ " actual=" +:+ decimal (rc_actual r)
    +:+ " diff=" +:+ decimal (i64 (rc_actual r - rc_expected r)).

Definition addI64 (f : reconciliation → Z) (rs : list reconciliation) : Z := foldl (λ acc r, i64 (acc + f r)) 0 rs.

(** The lines of [printReconciliation]. *)
Definition printReconciliation (rs : list reconciliation) : list string :=
  let expectedTotal := addI64 rc_expected rs in
  let actualTotal := addI64 rc_actual rs in
  let bad := filter (λ r, rc_ok r = false) rs in
  ["--- ledger correctness ---"] ++ (mismatchLine <$> bad) ++
  [if bool_decide (bad = []) then "every entity's balance matches what the run expects (" +:+ decimal (len rs) +:+ " entities)"
   else decimal (len bad) +:+ " of " +:+ decimal (len rs) +:+ " entities have a balance mismatch"] ++
  [if expectedTotal =? actualTotal
   then "conserved: total entity balance is " +:+ decimal actualTotal +:+ " minor units, matching the total seeded"
   else "NOT CONSERVED: total actual balance " +:+ decimal actualTotal +:+ " != total expected " +:+ decimal expectedTotal
          +:+ " (diff " +:+ decimal (i64 (actualTotal - expectedTotal)) +:+ ")"].

(** ** A balance read off the log *)

Section balances.
Context {C : Codec} {CL : CodecLaws C}.

Lemma recordedBalance_history bs rest acc :
  Forall2 recorded (TokenBalanceRecorded <$> bs) rest →
  rfold recordedBalance acc rest = Ok match last bs with Some b => (br_PostedMinorUnits b, true) | None => acc end.
Proof.
  revert rest acc. induction bs as [|b bs IH]; intros rest acc Hrec.
  - by apply Forall2_nil_inv_l in Hrec as ->.
  - apply Forall2_cons_inv_l in Hrec as (e & rest' & He & Hrest & ->). cbn [rfold]. unfold recordedBalance at 1.
    rewrite (recorded_Decode _ _ He). destruct He as [-> _]. rewrite bool_decide_eq_true_2 by done. cbn [rbind].
    rewrite (IH _ _ Hrest). destruct bs as [|b' bs']; [done|]. by rewrite last_cons_cons; destruct (last (b' :: bs')) eqn:Hl; [|apply last_None in Hl].
Qed.
End balances.

Section run.
Context {C : Codec} {CL : CodecLaws C} {U : UuidPackage} {S256 : Sha256} {L : LedgerClient}.

(** The balance the run is verified against is the one the Token service itself
    goes by: on every Token's stream, in every execution, the last balance
    [verify.go] reads is the last one the Token service folds, and a Token whose
    balance was never published counts as zero. *)
Theorem verified_balance_is_tokens c id st :
  reachable c → Token.tokenStreamOf (stream (fst c) Token.AggregateType id) = Ok st →
  lastRecordedBalance (stream (fst c) tokenAggregateType id) =
    Ok match Token.ts_last st with Some b => (br_PostedMinorUnits b, true) | None => (0, false) end.
Proof.
  intros Hc Hst. change tokenAggregateType with Token.AggregateType. destruct (reachable_token c id Hc) as (h & Hh & Hshape).
  destruct Hshape as [->|(m & bs & -> & _)].
  { apply Forall2_nil_inv_l in Hh. rewrite Hh in *. by vm_compute in Hst; simplify_eq. }
  rewrite (tokenStreamOf_last _ _ _ _ Hh Hst). apply Forall2_cons_inv_l in Hh as (e & rest & He & Hrest & ->).
  unfold lastRecordedBalance. cbn [rfold]. unfold recordedBalance at 1. destruct He as [-> _].
  rewrite bool_decide_eq_false_2 by done. cbn [rbind]. by apply recordedBalance_history.
Qed.

(** What a result without an error says, in either mode. *)
Definition modeTruth (mode : string) : txResult → World → Prop :=
  if bool_decide (mode = "transfer") then bareTruth else txTruth.

(** The drivers of either mode keep to the protocol and report the truth. *)
Lemma modeTruth_stable mode r w w' : txok w → rely legal w w' → modeTruth mode r w → modeTruth mode r w'.
Proof. unfold modeTruth. case_bool_decide; [apply (bareTruth_stable legal) | apply (txTruth_stable legal)]. Qed.

(** The drivers of a mode, over services that are what [ServicesOk] asks: the handlers
    themselves, or the handlers reached over HTTP. *)
Section drivers.
Context (transactions : TransactionService) (transfers : TransferService).
Context {Hs : ServicesOk legal transactions transfers storeLegReader}.

Definition driveWith (mode : string) (wait : settleWait) : driveFunc :=
  fst (driverFor mode transactions transfers storeLegReader wait).

Lemma drive_reports mode wait from to amount currency planned w :
  txok w → reports legal (driveWith mode wait from to amount currency planned)
    (delivered (modeTruth mode) from to amount planned) w.
Proof.
  intros Hok. unfold driveWith, driverFor, modeTruth. case_bool_decide; simpl.
  - by apply (bareDrive_true legal transactions).
  - by apply (txDrive_true legal).
Qed.

Lemma simulate_load_ok c mode wait jobs currency n concurrency s :
  reachable c → rtc (load_moves jobs (driveWith mode wait) currency n concurrency legal) (load_start n (fst c)) s →
  txok (ls_world s).
Proof.
  intros Hc Hr. eapply (lo_world jobs n concurrency legal (modeTruth mode)).
  eapply (load_ok_reached jobs (driveWith mode wait) currency n concurrency legal (modeTruth mode));
    [apply modeTruth_stable|intros; by apply drive_reports|by apply reachable_txok|done].
Qed.

End drivers.

(** The handlers are such services. *)
#[export] Instance handlers_are fuel : ServicesOk legal (transactionService fuel) (transferService fuel) storeLegReader.
Proof.
  apply (handlers_ok legal); [apply transferClient_ok|apply transferServer_ok|]. intros id w' _. apply (Outcome_safe legal).
Qed.


(** No slot at all, and the loop waits for one for ever: nothing refuses
    [-concurrency 0]. *)
Lemma load_no_slots jobs drive currency n w s :
  (1 ≤ n)%nat → ¬ load_returned n (load_start n w) ∧ ¬ load_step jobs drive currency n 0 (load_start n w) s.
Proof.
  intros Hn. split; [intros [Hlen _]; simpl in Hlen; lia|]. intros Hs.
  remember (load_start n w) as s0 eqn:Heq. destruct Hs; injection Heq as Hw Hks Hrs; [lia|by destruct ks1..].
Qed.
End run.

(** ** A run, evaluated *)

(** One transfer of 100 from what the payment left in [walletB]. *)
Definition bareJob : job :=
  mkJob (mkEntity "entity-0" owner walletB) (mkEntity "entity-1" owner walletC) 100 outcomeComplete.
Definition oneJob (i : nat) : option job := Some bareJob.
Definition looks : settleWait := mkSettleWait 3 50000000.
Definition bareDriver : driveFunc := driveWith (transactionService fuel) (transferService fuel) "transfer" looks.
Definition oneLoad : loadState → loadState → Prop := load_moves oneJob bareDriver "USD" 1 1 legal.
Definition driven : prog txResult := driveJob bareDriver "USD" bareJob.

Lemma load_calls m w p rs :
  rtc oneLoad (mkLoad w [Driving p] rs) (mkLoad (fst (runFor m w p)) [Driving (snd (runFor m w p))] rs).
Proof.
  revert w p. induction m as [|m IH]; intros w p; [by destruct p|]. destruct p as [a|o k]; [done|]. cbn [runFor].
  pose proof (run_op_exec w o) as He. destruct (run_op w o) as [w' r]. simpl in He. eapply rtc_l; [|apply IH].
  apply moves_step. exact (load_call _ _ _ _ _ w [] o k [] rs r w' He).
Qed.

Lemma load_finish w p r0 :
  rtc oneLoad (mkLoad w [Driving p] [r0]) (mkLoad (fst (run w p)) [SignedOff] [snd (run w p)]).
Proof.
  revert w. induction p as [a|o k IH]; intros w.
  - eapply rtc_l; [apply moves_step, (load_write _ _ _ _ _ w [] a [])|].
    eapply rtc_l; [apply moves_step, (load_release _ _ _ _ _ w [] [])|].
    eapply rtc_l; [apply moves_step, (load_done _ _ _ _ _ w [] [])|]. done.
  - simpl. pose proof (run_op_exec w o) as He. destruct (run_op w o) as [w' r]. simpl in He.
    eapply rtc_l; [|apply IH]. apply moves_step. exact (load_call _ _ _ _ _ w [] o k [] [r0] r w' He).
Qed.

(** Anyone else's handler, meanwhile. *)
Lemma load_handler w ks rs p : txok w → handler p → oneLoad (mkLoad w ks rs) (mkLoad (fst (run w p)) ks rs).
Proof. intros Hok Hp. apply moves_env. by apply (safe_run legal p (λ _ _, True)), handler_safe. Qed.

(** The driver up to its first pause; the orchestrator's work on the Transfer it
    requested; the rest. *)
Definition requestedLoad : World * prog txResult := runFor 9 (fst paid) driven.
Definition loadTransferID : string := freshUuid (w_fresh (fst paid)).
Definition stagedWorld : World := fst (run (fst requestedLoad) (resumeTransfer loadTransferID)).

Lemma one_load_begins m :
  rtc oneLoad (load_start 1 (fst paid))
    (mkLoad (fst (runFor m (fst paid) driven)) [Driving (snd (runFor m (fst paid) driven))] [zeroResult]).
Proof.
  eapply rtc_l; [|apply load_calls]. apply moves_step.
  apply (load_launch _ _ _ _ _ (fst paid) [] _ bareJob); [simpl; lia|unfold slots; simpl; lia|done].
Qed.

Lemma one_load_handler w p rs h :
  rtc oneLoad (load_start 1 (fst paid)) (mkLoad w [Driving p] rs) → handler h →
  rtc oneLoad (load_start 1 (fst paid)) (mkLoad (fst (run w h)) [Driving p] rs).
Proof.
  intros Hr Hh. etrans; [exact Hr|]. apply rtc_once, load_handler; [|done].
  exact (simulate_load_ok (transactionService fuel) (transferService fuel) paid "transfer" looks oneJob "USD" 1 1 (mkLoad w [Driving p] rs) paid_reachable Hr).
Qed.

Lemma one_load_staged :
  rtc oneLoad (load_start 1 (fst paid)) (mkLoad stagedWorld [Driving (snd requestedLoad)] [zeroResult]).
Proof. exact (one_load_handler _ _ _ _ (one_load_begins 9) (h_Resume fuel loadTransferID)). Qed.





Definition paidToken : string := Detid.New (transfer2 +:+ "/destination-token/0").

Lemma verified_balance_is_tokens_witness :
  ∃ st, Token.tokenStreamOf (stream (fst paid) Token.AggregateType paidToken) = Ok st ∧
    Token.ts_last st = Some (mkBalanceRecorded paidToken walletC "USD" 200 0 0) ∧
    lastRecordedBalance (stream (fst paid) tokenAggregateType paidToken) =
      Ok match Token.ts_last st with Some b => (br_PostedMinorUnits b, true) | None => (0, false) end.
Proof.
  exists (Token.mkTokenStream 2 walletC (Some (mkBalanceRecorded paidToken walletC "USD" 200 0 0))).
  assert (Token.tokenStreamOf (stream (fst paid) Token.AggregateType paidToken) =
    Ok (Token.mkTokenStream 2 walletC (Some (mkBalanceRecorded paidToken walletC "USD" 200 0 0)))) as Hst by evaluate.
  split; [exact Hst|]. split; [reflexivity|]. exact (verified_balance_is_tokens paid paidToken _ paid_reachable Hst).
Defined.

(** ** A result with an error may have moved its money *)

(** The store does not answer the next read. *)
Definition unanswered : error := plain "unexpected EOF".
Definition failNextLoad {A} (p : prog A) : option (prog A) :=
  match p with Op (OLoad _ _) k => Some (k (Err unanswered)) | _ => None end.

Lemma load_unanswered w p p' rs : failNextLoad p = Some p' → oneLoad (mkLoad w [Driving p] rs) (mkLoad w [Driving p'] rs).
Proof.
  destruct p as [a|o k]; [done|]. destruct o; try done. intros [= <-]. apply moves_step.
  apply (load_call _ _ _ _ _ w [] (OLoad _ _) k [] rs (Err unanswered) w). split; [done|]. right. exists unanswered.
  split; [done|]. split; [done|]. by left.
Qed.

(** What comes of a driver that is [m] calls on when a read fails. *)
Definition lostAfter (m : nat) (w : World) (p : prog txResult) : option (World * txResult) :=
  let posted := runFor m w p in run (fst posted) <$> failNextLoad (snd posted).

Lemma one_load_lost m s0 w p r0 out :
  rtc oneLoad s0 (mkLoad w [Driving p] [r0]) → lostAfter m w p = Some out →
  rtc oneLoad s0 (mkLoad (fst out) [SignedOff] [snd out]).
Proof.
  unfold lostAfter. intros Hr (p' & Hp & ->)%fmap_Some. etrans; [exact Hr|]. etrans; [apply (load_calls m)|].
  eapply rtc_l; [by apply load_unanswered|apply load_finish].
Qed.

Lemma one_load_errored m w p e :
  rtc oneLoad (load_start 1 (fst paid)) (mkLoad w [Driving p] [zeroResult]) →
  (λ out : World * txResult, (r_err (snd out), completed (snd out),
     currentState (stream (fst out) TransferAggregateType (r_transferID (snd out))))) <$> lostAfter m w p =
    Some (Some e, false, stateCommitted) →
  ∃ s r, rtc oneLoad (load_start 1 (fst paid)) s ∧ load_returned 1 s ∧ ls_results s = [r] ∧
    r_err r = Some e ∧ completed r = false ∧ ended (r_transferID r) stateCommitted (ls_world s) ∧
    ∀ initial, computeExpected initial [r] = initial.
Proof.
  intros Hr ([w' r] & Hout & [= He Hc Hst])%fmap_Some. symmetry in He, Hc, Hst. exists (mkLoad w' [SignedOff] [r]), r.
  split; [exact (one_load_lost m _ w p zeroResult (w', r) Hr Hout)|]. split; [split; [done|by repeat constructor]|].
  split_and!; try done. intros initial. by apply computeExpected_incomplete.
Qed.

(** An error is no evidence that nothing happened: a transfer is confirmed and
    posted, the look that was to see it committed is lost, and the run reports it as
    an error and expects no balance to have changed, though it is committed. *)
Theorem errored_transfer_moved :
  ∃ s r, rtc oneLoad (load_start 1 (fst paid)) s ∧ load_returned 1 s ∧ ls_results s = [r] ∧
    r_err r = Some (InternalErrorWith unanswered) ∧ completed r = false ∧ ended (r_transferID r) stateCommitted (ls_world s) ∧
    ∀ initial, computeExpected initial [r] = initial.
Proof. apply (one_load_errored 18 stagedWorld (snd requestedLoad) _ one_load_staged). evaluate. Qed.
