(* ===== verification/System.v ===== *)
(** * What the system guarantees

    The theorems about every execution of the whole system, read off the
    invariants of [Protocol]. Each is applied at a concrete execution of
    [Scenario] by the witness after it. *)

From S2P Require Import Prelude Proto EventStore Ledger Effects Validate Safety Wallet Holder Token.
From S2P Require Import TransferState TransferManifest TransferSaga TransferServer TransferLegal.
From S2P Require Import TransferSafety HolderSafety Dag TransactionState TransactionSaga.
From S2P Require Import TransactionLegal TransactionSafety Protocol Scenario.

Section theorems.
Context {C : Codec} {CL : CodecLaws C} {U : UuidPackage} {S256 : Sha256} {L : LedgerClient}.
Implicit Types (c : config) (id : string).
Notation transferOf c id := (stream (fst c) TransferAggregateType id).
Notation transactionOf c id := (stream (fst c) TransactionAggregateType id).

(** ** The log *)

(** What every append keeps: the numbering, and that an event's type is that of the
    message its payload is. *)
Definition typedLog (s : MemoryStore) : Prop :=
  wf_store s ∧ ∀ k, Forall (λ e, ∃ m, recorded m e) (stream_at s k).

Lemma exec_typed w o r w' : exec w o r w' → typedLog (w_store w) → typedLog (w_store w').
Proof.
  assert (∀ ws s' r0, AppendAtomic None (w_now w) ws (w_store w) = (s', r0) → typedLog (w_store w) → typedLog s') as Happ.
  { intros ws s' r0 Ha [Hwf Hrec]. split; [by eapply wf_after_append|]. intros k.
    destruct r0 as [[]|e]; [|by rewrite (AppendAtomic_err _ _ _ _ _ _ Ha)].
    destruct (AppendAtomic_ok _ _ _ _ _ k Ha) as [(sw & batch & _ & _ & _ & Hb & ->)|[_ ->]]; [|done].
    apply Forall_app. split; [done|]. apply staged_batch_recorded in Hb. clear -Hb. induction Hb; constructor; eauto. }
  destruct o; simpl; try (intros He; repeat match goal with H : _ ∧ _ |- _ => destruct H | H : ∃ _, _ |- _ => destruct H end;
    subst; simpl; by try congruence).
  - intros (s' & r0 & Ha & [[_ ->]|(e & _ & _ & [->| ->])]); [by eapply Happ|done|by eapply Happ].
Qed.

Lemma reachable_typed c : reachable c → typedLog (w_store (fst c)).
Proof.
  intros (c0 & [Hs _] & Hr). assert (typedLog (w_store (fst c0))) as H0.
  { rewrite Hs. split; [apply NewMemoryStore_wf|]. intros k. unfold stream_at. simpl. by rewrite lookup_empty. }
  clear Hs. induction Hr as [|c1 c2 c3 Hstep _ IH]; [done|]. apply IH.
  destruct Hstep as [w ps1 o k ps2 r w' He|w ps1 p ps2|w ps p Hp|w w' ps Heq]; simpl in *; [by eapply exec_typed|done|done|by rewrite Heq].
Qed.

(** C11. In every execution the log is well typed: the event at each position of a
    stream carries that position as its sequence and that stream as its aggregate, its
    type is the name of the message its payload decodes to, and no other event of the
    log has its global number. *)
Theorem log_well_typed c ty id i e :
  reachable c → stream (fst c) ty id !! i = Some e →
  Sequence e = Z.of_nat i + 1 ∧ streamKey (AggregateType e) (AggregateID e) = streamKey ty id ∧
  (∃ m, Decode e = Ok m ∧ EType e = EventType m) ∧
  ∀ ty' id' i' e', stream (fst c) ty' id' !! i' = Some e' → GlobalSeq e' = GlobalSeq e → streamKey ty' id' = streamKey ty id ∧ i' = i.
Proof.
  intros Hc He. destruct (reachable_typed c Hc) as [Hwf Hrec]. unfold stream in *. split_and!.
  - by eapply wf_seq.
  - by eapply wf_key.
  - specialize (Hrec (streamKey ty id)). rewrite Forall_lookup in Hrec. destruct (Hrec _ _ He) as [m Hm].
    exists m. split; [by apply recorded_Decode | apply Hm].
  - intros ty' id' i' e' He' Hg. pose proof (wf_unique _ Hwf _ _ _ _ _ _ He' He Hg) as Hk. split; [done|]. rewrite Hk in He'.
    destruct (decide (i' < i)%nat) as [Hlt|]; [pose proof (wf_order _ Hwf _ _ _ _ _ He' He Hlt); lia|].
    destruct (decide (i < i')%nat) as [Hlt|]; [pose proof (wf_order _ Hwf _ _ _ _ _ He He' Hlt); lia|]. lia.
Qed.

(** ** Transfers *)

(** C3. Whatever the services and the orchestrator do, in whatever order, and
    whichever of their calls fail: every Transfer's stream is empty, or opened
    exactly once by the decision on its request; a rejected request never has an
    outcome, and an accepted one has been through exactly one of the lifecycles
    of the stage flag it was accepted with. In particular it is prepared at most
    once, staged only if staging was asked for, committed at most once, only
    after the confirmation when it was staged, and never both committed and
    failed or cancelled. *)
Theorem transfer_lifecycle c id : reachable c → wf_transfer (transferOf c id).
Proof. intros Hc. by apply treach_wf, reachable_transfer. Qed.

(** C7. A Transfer that is committed, failed or cancelled stays so: the only
    events its stream ever gains are refusals of later requests about it. *)
Theorem transfer_final c c' id :
  reachable c → reaches c c' → terminal (currentState (transferOf c id)) = true →
  ∃ tail, transferOf c' id = transferOf c id ++ tail ∧
    currentState (transferOf c' id) = currentState (transferOf c id) ∧
    Forall (λ e, ∃ m, recorded m e ∧ responseKind (kind_of m) = true) tail.
Proof. intros Hc Hcc' Hterm. apply tgrow_terminal; [by apply reachable_tgrow | done]. Qed.

(** C8. While a claim is live it belongs to one transition: as long as the
    Transfer has not moved on, the live claim is a claim of that same
    transition, perhaps renewed, and no other transition has taken it. *)
Theorem transfer_claim_exclusive c c' id live :
  reachable c → reaches c c' → liveMarker (transferOf c id) = Some live →
  currentState (transferOf c' id) = currentState (transferOf c id) →
  ∃ live', liveMarker (transferOf c' id) = Some live' ∧ EType live' = EType live.
Proof. intros Hc Hcc' Hlive Hsame. eapply tgrow_claim; [by apply reachable_tgrow | done | done]. Qed.

(** ** Transactions *)

(** C4. Every Transaction's stream is empty, a lone rejection, or the run of a
    well-formed request: opened by it, and at the top level on one of nine
    histories, from initialized through started to completed, or through a
    rollback, begun before or after starting, to rolled back or failed to. *)
Theorem transaction_lifecycle c id :
  reachable c →
  ∃ h, history h (transactionOf c id) ∧
    (h = [] ∨ (∃ id' reason, h = [TransactionRejected id' reason]) ∨
     ∃ i rest, h = TransactionInitialized i :: rest ∧
       valid_spec (in_Transfers i) (in_TransferDependency i) ∧ tops h ∈ txLifecycles).
Proof.
  intros Hc. destruct (reachable_transaction c id Hc) as (h & Hh & Hwf & _). exists h. split; [done|].
  destruct Hwf as [?|[?|(i & rest & -> & Hrun & _)]]; [by left|by right; left|right; right].
  exists i, rest. split; [done|]. split; [exact (wr_spec _ _ Hrun) | exact (wr_tops _ _ Hrun)].
Qed.

(** C1. All: when a Transaction is completed, every Transfer it names is
    committed, and says so. *)
Theorem transaction_completed c id :
  reachable c → topLevelState (transactionOf c id) = stateCompleted →
  ∃ i rest, history (TransactionInitialized i :: rest) (transactionOf c id) ∧
    ∀ child, is_Some (in_Transfers i !! child) → outcomeOf (transferOf c child) = OutcomeCommitted.
Proof.
  intros Hc Htop. destruct (reachable_run c id _ Hc Htop) as (i & rest & Hh & Htop' & Hrun & _ & Hs); [done|done|].
  exists i, rest. split; [done|]. intros child Hchild.
  destruct (childrenOf_source _ _ _ (wr_completed _ _ Hrun Htop' child Hchild)) as (m & Hin & Hf).
  rewrite Forall_forall in Hs. specialize (Hs m Hin). destruct m; simpl in Hf; try done; simplify_eq/=.
  by rewrite (reachable_outcome c child stateCommitted).
Qed.

(** C2. Nothing: when a Transaction is rolled back, every Transfer it ever
    requested has been undone: it was rejected, failed or was cancelled, or the
    reversal recorded for it is committed. *)
Theorem transaction_rolled_back c id :
  reachable c → topLevelState (transactionOf c id) = stateRolledBack →
  ∃ h, history h (transactionOf c id) ∧
    ∀ tid child, TransferRequestedWithinTransaction tid child ∈ h →
      outcomeOf (transferOf c child) ∈ [OutcomeRejected; OutcomeFailed; OutcomeCancelled] ∨
      ∃ tid' reversal, TransferRolledBackWithinTransaction tid' child ROLLBACK_METHOD_REVERSED reversal ∈ h ∧
        outcomeOf (transferOf c reversal) = OutcomeCommitted.
Proof.
  intros Hc Htop. destruct (reachable_run c id _ Hc Htop) as (i & rest & Hh & Htop' & Hrun & _ & Hs); [done|done|].
  exists (TransactionInitialized i :: rest). split; [done|]. intros tid child Hreq%requested_touched.
  rewrite Forall_forall in Hs. destruct (wr_rolled_back _ _ Hrun child Htop' Hreq) as [Hst|Hst];
    apply childrenOf_source in Hst as (m & Hin & Hf); specialize (Hs m Hin);
    destruct m; simpl in Hf; try done; simplify_eq/=.
  - destruct method; [done| | |].
    + right. eexists _, _. split; [exact Hin|]. by rewrite (reachable_outcome c _ stateCommitted).
    + left. apply reachable_dead; [done|]. by right; right.
    + left. by apply reachable_dead.
  - left. by apply reachable_dead.
Qed.

(** C5. Order forward: a child is requested at most once, only while the
    Transaction is started, and only once every child it depends on is recorded
    as completed, which is to say once that Transfer is committed. *)
Theorem transaction_dispatch_order c id h pre tid child post :
  reachable c → history h (transactionOf c id) →
  h = pre ++ TransferRequestedWithinTransaction tid child :: post →
  (∀ tid', TransferRequestedWithinTransaction tid' child ∉ pre) ∧ topOf pre = stateStarted ∧
  ∃ i rest, pre = TransactionInitialized i :: rest ∧
    ∀ parent, edge (in_TransferDependency i) parent child →
      (∃ tid', TransferCompletedWithinTransaction tid' parent ∈ pre) ∧
      outcomeOf (transferOf c parent) = OutcomeCommitted.
Proof.
  intros Hc Hh ->. destruct (reachable_transaction c id Hc) as (h' & Hh' & Hwf & Hs).
  rewrite <- (history_unique _ _ _ Hh Hh') in Hwf, Hs. clear h' Hh'.
  destruct Hwf as [Hnil|[(?&?&Hrej)|(i & rest & Heq & Hrun & _)]]; [by destruct pre|by destruct pre as [|? [|]]; simplify_eq/=|].
  destruct (wr_dispatch _ _ Hrun pre tid child post eq_refl) as (Hn & Htop & Hp).
  split; [by intros tid' Hin%requested_touched|]. split; [done|].
  destruct pre as [|m0 pre]; [done|]. simplify_eq/=. exists i, pre. split; [done|]. intros parent Hedge.
  destruct (childrenOf_source _ _ _ (Hp parent Hedge)) as (m & Hin & Hf).
  rewrite app_comm_cons, Forall_app in Hs. destruct Hs as [Hs _]. rewrite Forall_forall in Hs. specialize (Hs m Hin).
  destruct m; simpl in Hf; try done; simplify_eq/=. split; [by eexists|].
  by rewrite (reachable_outcome c parent stateCommitted).
Qed.

(** C6. Order backward: a child is undone only after the rollback has begun, and
    only once every child that depends on it and was requested has nothing left
    to undo. *)
Theorem transaction_rollback_order c id h pre m post child :
  reachable c → history h (transactionOf c id) → h = pre ++ m :: post → undoes m child →
  topOf pre = stateRollbackStarted ∧ touched pre child ∧
  ∃ i rest, pre = TransactionInitialized i :: rest ∧
    dependentsSettled (in_TransferDependency i) pre child.
Proof.
  intros Hc Hh -> Hu. destruct (reachable_transaction c id Hc) as (h' & Hh' & Hwf & _).
  rewrite <- (history_unique _ _ _ Hh Hh') in Hwf.
  destruct Hwf as [Hnil|[(?&?&Hrej)|(i & rest & Heq & Hrun & _)]]; [by destruct pre| |].
  { destruct pre as [|? [|]]; simplify_eq/=; done. }
  destruct (wr_undo _ _ Hrun pre m post child eq_refl Hu) as (Htop & Ht & Hd).
  split; [done|]. split; [done|]. destruct pre as [|m0 pre]; [done|]. simplify_eq/=. eauto.
Qed.

(** No failure without its rollback: while a Transaction is started no named
    child of it is recorded as failed; the two are recorded in one append. *)
Theorem transaction_failure_rolls_back c id h child :
  reachable c → history h (transactionOf c id) → topOf h = stateStarted → child ≠ "" →
  childrenOf h !! child ≠ Some childFailed.
Proof.
  intros Hc Hh Htop Hne. rewrite <- (history_top _ _ Hh) in Htop.
  destruct (reachable_run c id _ Hc Htop) as (i & rest & Hh' & _ & _ & Hnone & _); [done|done|].
  rewrite (history_unique _ _ _ Hh Hh'). by apply Hnone.
Qed.

(** C9. A Transaction that is over is over: once completed, rolled back, failed
    to roll back or rejected, its stream never gains another event. *)
Theorem transaction_final c c' id :
  reachable c → reaches c c' → concluded (topLevelState (transactionOf c id)) = true →
  transactionOf c' id = transactionOf c id.
Proof.
  intros Hc Hcc' Hcon. destruct (reachable_transaction c id Hc) as (h & Hh & _ & _).
  pose proof (reachable_rely _ _ Hc Hcc') as Hr. destruct (rely_xgrow legal _ _ id h Hr Hh) as (h' & Hh' & Hg).
  rewrite (history_top _ _ Hh) in Hcon. rewrite (xgrow_concluded _ _ Hg Hcon) in Hh'.
  symmetry. apply prefix_same_length; [by apply (rely_prefix legal)|].
  apply Forall2_length in Hh, Hh'. congruence.
Qed.

(** ** Wallets, Tokens and Holders *)

(** C28. In every execution a Wallet is opened once and then only lists Tokens minted
    into it, so the index source selection reads holds nothing else; a Token is
    minted once and then only has its balance recorded, never twice in a row the same
    one; a Holder is established once and records each Wallet at most once. However
    many callers and drivers race. *)
Theorem account_lifecycles c id :
  reachable c →
  (∃ h, history h (stream (fst c) Wallet.AggregateType id) ∧
    (h = [] ∨ ∃ m rest, h = WalletOpened m :: rest ∧ Forall (λ m, isMintedForWallet m = true) rest)) ∧
  (∃ h, history h (stream (fst c) Token.AggregateType id) ∧
    (h = [] ∨ ∃ m bs, h = TokenMinted m :: (TokenBalanceRecorded <$> bs) ∧
       ∀ pre b b' post, bs = pre ++ b :: b' :: post → b ≠ b')) ∧
  ∃ h, history h (stream (fst c) Holder.aggregateType id) ∧
    (h = [] ∨ ∃ hid memos added, h = HolderEstablished hid memos :: (HolderAddedWallet <$> added) ∧
       NoDup (aw_WalletId <$> added)).
Proof. intros Hc. split_and!; [by apply reachable_wallet|by apply reachable_token|by apply reachable_holder]. Qed.
End theorems.

(** ** The theorems at work *)

Notation transferIn c id := (stream (fst c) TransferAggregateType id).
Notation transactionIn c id := (stream (fst c) TransactionAggregateType id).

Lemma transfer_lifecycle_witness : reachable paid ∧ wf_transfer (transferIn paid transfer1).
Proof. split; [apply paid_reachable|]. apply transfer_lifecycle, paid_reachable. Defined.

Lemma transfer_final_witness :
  currentState (transferIn paid transfer1) = stateCommitted ∧
  ∃ tail, transferIn (later (fst paid), snd paid) transfer1 = transferIn paid transfer1 ++ tail.
Proof.
  split; [evaluate|]. destruct (transfer_final paid (later (fst paid), snd paid) transfer1) as (tail & Htail & _).
  - apply paid_reachable.
  - apply later_reaches.
  - evaluate.
  - by exists tail.
Defined.

Lemma transfer_claim_exclusive_witness :
  ∃ live live', liveMarker (transferIn claimed transfer1) = Some live ∧
    liveMarker (transferIn abandoned transfer1) = Some live' ∧ EType live' = EType live.
Proof.
  destruct (liveMarker (transferIn claimed transfer1)) as [live|] eqn:Hlive.
  - assert (Hsame : currentState (transferIn abandoned transfer1) = currentState (transferIn claimed transfer1)).
    { transitivity statePrepared; [evaluate | symmetry; evaluate]. }
    destruct (transfer_claim_exclusive claimed abandoned transfer1 live claimed_reachable claimed_abandoned Hlive Hsame)
      as (live' & Hlive' & Ht).
    exists live, live'. exact (conj eq_refl (conj Hlive' Ht)).
  - exfalso. assert (bool_decide (is_Some (liveMarker (transferIn claimed transfer1))) = true) as Hs by evaluate.
    rewrite Hlive in Hs. discriminate Hs.
Defined.

Lemma transaction_lifecycle_witness :
  ∃ h, history h (transactionIn undone txn) ∧ tops h ∈ txLifecycles.
Proof.
  destruct (transaction_lifecycle undone txn undone_reachable) as (h & Hh & [->|[(id & reason & ->)|(i & rest & -> & _ & Hin)]]).
  - exfalso. apply Forall2_length in Hh. assert (length (transactionIn undone txn) = 10%nat) as Hl by evaluate.
    rewrite Hl in Hh. discriminate Hh.
  - exfalso. apply Forall2_length in Hh. assert (length (transactionIn undone txn) = 10%nat) as Hl by evaluate.
    rewrite Hl in Hh. discriminate Hh.
  - eauto.
Defined.

Lemma transaction_completed_witness :
  topLevelState (transactionIn paid txn) = stateCompleted ∧
  ∃ i rest, history (TransactionInitialized i :: rest) (transactionIn paid txn) ∧
    ∀ child, is_Some (in_Transfers i !! child) → outcomeOf (transferIn paid child) = OutcomeCommitted.
Proof.
  assert (topLevelState (transactionIn paid txn) = stateCompleted) as Htop by evaluate. split; [exact Htop|].
  exact (transaction_completed paid txn paid_reachable Htop).
Defined.

Lemma transaction_rolled_back_witness :
  topLevelState (transactionIn undone txn) = stateRolledBack ∧
  ∃ h, history h (transactionIn undone txn) ∧
    ∀ tid child, TransferRequestedWithinTransaction tid child ∈ h →
      outcomeOf (transferIn undone child) ∈ [OutcomeRejected; OutcomeFailed; OutcomeCancelled] ∨
      ∃ tid' reversal, TransferRolledBackWithinTransaction tid' child ROLLBACK_METHOD_REVERSED reversal ∈ h ∧
        outcomeOf (transferIn undone reversal) = OutcomeCommitted.
Proof.
  assert (topLevelState (transactionIn undone txn) = stateRolledBack) as Htop by evaluate. split; [exact Htop|].
  exact (transaction_rolled_back undone txn undone_reachable Htop).
Defined.

Lemma transaction_dispatch_order_witness :
  let h := messages (fst paid) TransactionAggregateType txn in
  h !! 4%nat = Some (TransferRequestedWithinTransaction txn transfer2) ∧ topOf (take 4 h) = stateStarted ∧
  ∃ i rest, take 4 h = TransactionInitialized i :: rest ∧
    ∀ parent, edge (in_TransferDependency i) parent transfer2 → outcomeOf (transferIn paid parent) = OutcomeCommitted.
Proof.
  intros h. assert (h !! 4%nat = Some (TransferRequestedWithinTransaction txn transfer2)) as Hm by evaluate.
  split; [exact Hm|].
  destruct (transaction_dispatch_order paid txn h (take 4 h) txn transfer2 (drop 5 h) paid_reachable
              (messages_history _ _ _ ltac:(evaluate)) (messages_split _ _ _ _ _ Hm)) as (_ & Htop & i & rest & Heq & Hp).
  split; [exact Htop|]. exists i, rest. split; [exact Heq|]. intros parent Hedge. by destruct (Hp parent Hedge).
Defined.

Lemma transaction_rollback_order_witness :
  let h := messages (fst undone) TransactionAggregateType txn in
  h !! 7%nat = Some (TransferReversalRequestedWithinTransaction txn transfer1 reversal1) ∧
  topOf (take 7 h) = stateRollbackStarted ∧
  ∃ i rest, take 7 h = TransactionInitialized i :: rest ∧
    dependentsSettled (in_TransferDependency i) (take 7 h) transfer1.
Proof.
  intros h. assert (h !! 7%nat = Some (TransferReversalRequestedWithinTransaction txn transfer1 reversal1)) as Hm by evaluate.
  split; [exact Hm|].
  destruct (transaction_rollback_order undone txn h (take 7 h) _ (drop 8 h) transfer1 undone_reachable
              (messages_history _ _ _ ltac:(evaluate)) (messages_split _ _ _ _ _ Hm) eq_refl) as (Htop & _ & Hd).
  exact (conj Htop Hd).
Defined.

Lemma transaction_failure_rolls_back_witness :
  let h := messages (fst requested) TransactionAggregateType txn in
  topOf h = stateStarted ∧ childrenOf h !! transfer1 ≠ Some childFailed.
Proof.
  intros h. assert (topOf h = stateStarted) as Htop by evaluate. split; [exact Htop|].
  apply (transaction_failure_rolls_back requested txn h transfer1 requested_reachable).
  - apply messages_history. evaluate.
  - exact Htop.
  - intros [=].
Defined.

Lemma lookup_nth {A} (l : list A) i d : (i <? length l)%nat = true → l !! i = Some (nth i l d).
Proof. intros Hi%Nat.ltb_lt. destruct (nth_lookup_or_length l i d) as [H|H]; [exact H | lia]. Qed.

Lemma log_well_typed_witness :
  let e := nth 1 (stream (fst paid) TransactionAggregateType txn) (mkEvent _ 0 "" "" 0 "" (TransactionStarted txn) 0) in
  stream (fst paid) TransactionAggregateType txn !! 1%nat = Some e ∧ EType e = full_name KTransactionStarted ∧
  (Sequence e = Z.of_nat 1 + 1 ∧ streamKey (AggregateType e) (AggregateID e) = streamKey TransactionAggregateType txn ∧
   (∃ m, Decode e = Ok m ∧ EType e = EventType m) ∧
   ∀ ty' id' i' e', stream (fst paid) ty' id' !! i' = Some e' → GlobalSeq e' = GlobalSeq e →
     streamKey ty' id' = streamKey TransactionAggregateType txn ∧ i' = 1%nat).
Proof.
  intros e. assert (stream (fst paid) TransactionAggregateType txn !! 1%nat = Some e) as He.
  { apply lookup_nth. evaluate. }
  split; [exact He|]. split; [evaluate|]. exact (log_well_typed paid TransactionAggregateType txn 1 e paid_reachable He).
Defined.

Lemma transaction_final_witness :
  concluded (topLevelState (transactionIn paid txn)) = true ∧
  transactionIn (later (fst paid), snd paid) txn = transactionIn paid txn.
Proof.
  assert (concluded (topLevelState (transactionIn paid txn)) = true) as Hc by evaluate. split; [exact Hc|].
  exact (transaction_final paid (later (fst paid), snd paid) txn paid_reachable (later_reaches paid) Hc).
Defined.

Definition destination2 : string := Detid.New (transfer2 +:+ "/destination-token/0").

(** A Holder of two Wallets. *)
Definition provisioned : config := runAll emptyWorld []
  [ discard (Holder.Provision owner ∅ [Holder.mkWalletSpec walletA "a" ALLOWS_NONE; Holder.mkWalletSpec walletB "b" ALLOWS_NONE]) ].

Lemma account_lifecycles_witness :
  len (stream (fst paid) Wallet.AggregateType walletB) = 2 ∧
  len (stream (fst paid) Token.AggregateType destination2) = 2 ∧
  len (stream (fst provisioned) Holder.aggregateType owner) = 3 ∧
  (∃ h, history h (stream (fst paid) Wallet.AggregateType walletB) ∧
    (h = [] ∨ ∃ m rest, h = WalletOpened m :: rest ∧ Forall (λ m, isMintedForWallet m = true) rest)) ∧
  (∃ h, history h (stream (fst paid) Token.AggregateType destination2) ∧
    (h = [] ∨ ∃ m bs, h = TokenMinted m :: (TokenBalanceRecorded <$> bs) ∧
       ∀ pre b b' post, bs = pre ++ b :: b' :: post → b ≠ b')) ∧
  ∃ h, history h (stream (fst provisioned) Holder.aggregateType owner) ∧
    (h = [] ∨ ∃ hid memos added, h = HolderEstablished hid memos :: (HolderAddedWallet <$> added) ∧
       NoDup (aw_WalletId <$> added)).
Proof.
  split_and!; [evaluate..| | |].
  - exact (proj1 (account_lifecycles paid walletB paid_reachable)).
  - exact (proj1 (proj2 (account_lifecycles paid destination2 paid_reachable))).
  - apply (account_lifecycles provisioned owner). apply runAll_reachable. handlers.
Defined.
