(* ===== verification/Decisions.v ===== *)
(** * One decision per request

    The two requests that open a saga's stream are decided once: whatever a call
    answers, however many times it is made, by however many callers at once, is
    what the stream opens with. *)

From S2P Require Import Prelude Proto EventStore Ledger Effects Validate Safety Wallet Holder Token.
From S2P Require Import TransferState TransferManifest TransferSaga TransferServer TransferLegal.
From S2P Require Import TransferSafety HolderSafety Dag TransactionState TransactionSaga.
From S2P Require Import TransactionLegal TransactionSafety Protocol Scenario.

Section decisions.
Context {C : Codec} {CL : CodecLaws C} {U : UuidPackage} {S256 : Sha256} {L : LedgerClient}.

(** C12. [RequestTransfer] is idempotent under any interleaving: whatever it
    answers for an id, accepted or rejected, is the decision recorded at the head
    of that id's stream, when it answers and ever after; so two calls, however
    they race, never answer differently. *)
Theorem RequestTransfer_decided_once req w :
  safe legal (RequestTransfer transferServer req)
    (λ r w', ∀ resp w'', r = Ok resp → rely legal w' w'' →
       decidedRequestTransfer (stream w'' TransferAggregateType (rt_Id req)) = Ok resp) w.
Proof.
  eapply safe_mono; [|apply (RequestTransfer_answered legal transferServer req w), transferServer_ok].
  intros r w' _ Ha resp w'' -> Hr. by eapply (answered_stable legal).
Qed.

(** [StartInitializingTransaction] likewise: every answer for an id is the
    one decision its stream opens with. *)
Theorem StartInitializingTransaction_decided_once fuel req w :
  safe legal (StartInitializingTransaction (transferClient fuel) req)
    (λ r w', ∀ resp w'', r = Ok resp → rely legal w' w'' →
       decidedStartInitializingTransaction (stream w'' TransactionAggregateType (in_Id req)) = Ok resp) w.
Proof.
  eapply safe_mono; [|apply (StartInitializingTransaction_initiated legal _ (transferClient_ok fuel) req w)].
  intros r w' _ Ha resp w'' -> Hr. by eapply (initiated_stable legal).
Qed.

(** A cancellation that is answered took place: when [CancelAcceptedTransfer]
    succeeds, or [CancelStagedTransfer] answers anything but a refusal, the
    Transfer is cancelled and stays so. *)
Theorem cancellation_answered fuel id reason w :
  safe legal (CancelAcceptedTransfer fuel id reason)
    (λ r w', ∀ resp w'', r = Ok resp → rely legal w' w'' →
       currentState (stream w'' TransferAggregateType id) = stateCancelled) w ∧
  safe legal (CancelStagedTransfer fuel id reason)
    (λ r w', ∀ resp w'', r = Ok resp → rely legal w' w'' →
       (∀ id' why, rs_Result resp ≠ CancelStagedTransferRejected id' why) →
       currentState (stream w'' TransferAggregateType id) = stateCancelled) w.
Proof.
  split.
  - eapply safe_mono; [|apply (CancelAcceptedTransfer_cancelled legal fuel id reason w)].
    intros r w' _ Ha resp w'' -> Hr. by eapply (ended_stable legal id stateCancelled).
  - eapply safe_mono; [|apply (CancelStagedTransfer_cancelled legal fuel id reason w)].
    intros r w' _ Ha resp w'' -> Hr Hne. eapply (ended_stable legal id stateCancelled); [done|exact Hr|].
    simpl in Ha. revert Ha Hne. destruct (rs_Result resp); try done. intros _ Hne. exfalso. by eapply Hne.
Qed.
End decisions.

(** ** The theorems at work *)

Definition sampleRequest : RequestTransferRequest :=
  mkRequestTransfer transfer1 walletA walletB (usd 500) false "" false.

(** With no Wallet open the request is rejected; and that is what it stays. *)
Lemma RequestTransfer_decided_once_witness :
  ∃ resp, snd (run emptyWorld (RequestTransfer transferServer sampleRequest)) = Ok resp ∧
    decidedRequestTransfer (stream (fst (run emptyWorld (RequestTransfer transferServer sampleRequest)))
                              TransferAggregateType transfer1) = Ok resp.
Proof.
  destruct (safe_run _ _ _ _ (RequestTransfer_decided_once sampleRequest emptyWorld)) as [_ Hq].
  destruct (snd (run emptyWorld (RequestTransfer transferServer sampleRequest))) as [resp|e] eqn:Hr.
  - exists resp. split; [reflexivity|]. exact (Hq resp _ eq_refl (rtc_refl _ _)).
  - exfalso. assert (match snd (run emptyWorld (RequestTransfer transferServer sampleRequest)) with Ok _ => true | Err _ => false end = true)
      as Hok by evaluate. rewrite Hr in Hok. discriminate Hok.
Defined.

Lemma StartInitializingTransaction_decided_once_witness :
  ∃ resp, snd (run emptyWorld (StartInitializingTransaction client single)) = Ok resp ∧
    decidedStartInitializingTransaction (stream (fst (run emptyWorld (StartInitializingTransaction client single)))
                              TransactionAggregateType txn) = Ok resp.
Proof.
  destruct (safe_run _ _ _ _ (StartInitializingTransaction_decided_once fuel single emptyWorld)) as [_ Hq].
  destruct (snd (run emptyWorld (StartInitializingTransaction client single))) as [resp|e] eqn:Hr.
  - exists resp. split; [reflexivity|]. exact (Hq resp _ Hr (rtc_refl _ _)).
  - exfalso. assert (match snd (run emptyWorld (StartInitializingTransaction client single)) with Ok _ => true | Err _ => false end = true)
      as Hok by evaluate. rewrite Hr in Hok. discriminate Hok.
Defined.
