(* ===== verification/TlaTrace.v ===== *)
(** * Recorded traces and the TLA+ design ([go/internal/tlatrace], [spec/eventstore.tla])

    [internal/tlatrace] records what a command handler did, line by line, and
    [spec/Traceeventstore.tla] checks that the lines of each Request are steps of a
    Worker of the design [spec/eventstore.tla]. Here the recorder, the recording
    store, the interceptor and the files are modelled, the Worker is [matched], one
    rule per way a line can be consumed, and the check is done once for all:
    [request_traces_accepted], for every trace [RequestTransfer] and
    [RequestReversal] can produce, whatever runs beside them and whatever fails. *)

From S2P Require Import Prelude Proto EventStore Ledger Effects Safety Validate Wallet Token.
From S2P Require Import TransferState TransferManifest TransferSaga TransferServer TransferLegal TransferSafety.
From S2P Require Import TransactionState TransactionSaga TransactionLegal TransactionSafety Protocol Scenario.

(** ** recorder.go *)

Definition KindReceive : string := "Receive".
Definition KindLoad : string := "Load".
Definition KindAppend : string := "Append".
Definition KindAppendAtomic : string := "AppendAtomic".
Definition KindAnswer : string := "Answer".

Definition OutcomeOK : string := "ok".
Definition OutcomeConflict : string := "conflict".
Definition OutcomeError : string := "error".
Definition OutcomeAborted : string := "Aborted".
Definition OutcomeFailed : string := "Failed".
Definition OutcomeUndecided : string := "Undecided".

Record Record_ : Type := mkRecord {
  Kind : string;
  Req : string;
  Command : string;
  Stream : string;
  Streams : list string;
  Len : option Z;
  Expected : option Z;
  Types : list string;
  Outcome : string
}.

Definition touches (r : Record_) (stream : string) : bool :=
  bool_decide (Stream r = stream) || existsb (λ s, bool_decide (s = stream)) (Streams r).

Record Header : Type := mkHeader { MaxAttempts : Z; Handlers : gmap string (list string) }.

Record Recorder : Type := mkRecorder { records : list Record_; requests : Z }.

Definition NewRecorder : Recorder := mkRecorder [] 0.
Definition record (rec : Record_) (r : Recorder) : Recorder := mkRecorder (records r ++ [rec]) (requests r).
Definition nextRequest (r : Recorder) : string * Recorder :=
  let n := i64 (requests r + 1) in ("r" +:+ decimal n, mkRecorder (records r) n).

(** A line of a file: the header, or a record. *)
Inductive line : Type := HeaderLine (h : Header) | RecordLine (r : Record_).

(** The commanded stream of each Request, and the streams in the order they were
    first commanded. *)
Definition commanded (rs : list Record_) : gmap string string * list string :=
  foldl (λ acc r,
    if bool_decide (Kind r = KindReceive) then
      (<[Req r := Stream r]> (fst acc), if bool_decide (Stream r ∈ snd acc) then snd acc else snd acc ++ [Stream r])
    else acc) (∅, []) rs.

Definition streamLines (streamOf : gmap string string) (stream : string) (rs : list Record_) : list Record_ :=
  filter (λ r, streamOf !! Req r = Some stream ∧ touches r stream = true) rs.

Definition filesOf (header : Header) (rs : list Record_) : list (string * list line) :=
  let '(streamOf, streams) := commanded rs in
  (λ stream, (stream, HeaderLine header :: (RecordLine <$> streamLines streamOf stream rs))) <$> streams.

(** [WriteStreams], over [filepath.Join] and over what [writeNDJSON] answers: the
    paths written, and the error it stopped at. *)
Section write.
Context (Join : string → string → string) (writeNDJSON : string → list line → option error) (dir : string).

Definition pathOf (stream : string) : string := Join dir (stream +:+ ".ndjson").

Fixpoint writeEach (files : list (string * list line)) : list string * option error :=
  match files with
  | [] => ([], None)
  | (stream, lines) :: rest =>
      match writeNDJSON (pathOf stream) lines with
      | Some e => ([], Some e)
      | None => let '(paths, e) := writeEach rest in (pathOf stream :: paths, e)
      end
  end.

Definition WriteStreams (header : Header) (r : Recorder) : list string * option error :=
  writeEach (filesOf header (records r)).

(** The paths answered are those of the files written, all of them unless there is an
    error, which is that of the file after the last. *)
Lemma WriteStreams_written header r paths err : WriteStreams header r = (paths, err) →
  ∃ written left, filesOf header (records r) = written ++ left ∧ paths = pathOf ∘ fst <$> written ∧
    Forall (λ f, writeNDJSON (pathOf (fst f)) (snd f) = None) written ∧
    match err with
    | None => left = []
    | Some e => ∃ f rest, left = f :: rest ∧ writeNDJSON (pathOf (fst f)) (snd f) = Some e
    end.
Proof.
  unfold WriteStreams. generalize (filesOf header (records r)) as files. intros files. revert paths.
  induction files as [|[stream lines] files IH]; intros paths; simpl; [by intros [= <- <-]; exists [], []|].
  destruct (writeNDJSON _ lines) as [e|] eqn:Hw.
  - intros [= <- <-]. exists [], ((stream, lines) :: files). split_and!; try done. by eexists _, _.
  - destruct (writeEach files) as [paths' e']. intros [= <- <-].
    destruct (IH paths' eq_refl) as (written & left & -> & -> & Hall & He).
    exists ((stream, lines) :: written), left. split_and!; try done. by constructor.
Qed.
End write.

(** ** store.go *)

Definition outcome (err : option error) : string :=
  match err with
  | None => OutcomeOK
  | Some e => if Is e ErrConcurrencyConflict then OutcomeConflict else OutcomeError
  end.

Definition eventTypes (events : list message) : list string := EventType <$> events.

Section store.
Context {C : Codec}.

Definition errorOf {A} (r : result A) : option error := match r with Ok _ => None | Err e => Some e end.

(** The line a call of the recording store leaves, by what the store inside it
    answered. [Append] and [AppendAtomic] of one stream are one call of the store;
    [direct] is which of the two the caller made. *)
Definition loadLine (req aggregateID : string) (events : list Event) : Record_ :=
  mkRecord KindLoad req "" aggregateID [] (Some (len events)) None (EType <$> events) "".
Definition appendLine (req aggregateID : string) (expectedSeq : Z) (events : list message) (r : result unit) : Record_ :=
  mkRecord KindAppend req "" aggregateID [] None (Some expectedSeq) (eventTypes events) (outcome (errorOf r)).
Definition appendAtomicLine (req : string) (writes : list StreamWrite) (r : result unit) : Record_ :=
  mkRecord KindAppendAtomic req "" "" (sw_AggregateID <$> writes) None None [] (outcome (errorOf r)).

(** The lines of one call, each with the aggregate type the line leaves out. *)
Definition callLines (direct : StreamWrite → bool) (req : string) (o : op) : resp o → list (string * Record_) :=
  match o with
  | OLoad ty id => λ r, match r with Ok events => [(ty, loadLine req id events)] | Err _ => [] end
  | OAppend ws => λ r,
      match ws with
      | [w] =>
          if direct w then [(sw_AggregateType w, appendLine req (sw_AggregateID w) (ExpectedSeq w) (sw_Events w) r)]
          else [("", appendAtomicLine req ws r)]
      | _ => [("", appendAtomicLine req ws r)]
      end
  | _ => λ _, []
  end.

(** A handler over the recording store, with the lines it has left. *)
Fixpoint traced {A} (direct : StreamWrite → bool) (req : string) (p : prog A) (ls : list (string * Record_))
    : prog (list (string * Record_) * A) :=
  match p with
  | Ret a => Ret (ls, a)
  | Op o k => Op o (λ r, traced direct req (k r) (ls ++ callLines direct req o r))
  end.

(** ** interceptor.go *)

(** [answer], of a response that carries the event its command was decided as. *)
Definition answer (r : result response) : string :=
  match r with
  | Err e => if bool_decide (e_code e = Some Aborted) then OutcomeAborted else OutcomeFailed
  | Ok resp => EventType (rs_Result resp)
  end.

Definition receiveLine (req command stream : string) : Record_ :=
  mkRecord KindReceive req command stream [] None None [] "".
Definition answerLine (req stream : string) (r : result response) : Record_ :=
  mkRecord KindAnswer req "" stream [] None None [] (answer r).

(** [Interceptor], for the call that became Request [req] on [stream]. *)
Definition intercepted (direct : StreamWrite → bool) (ty req command stream : string) (next : M response)
    : prog (list (string * Record_) * result response) :=
  pbind (traced direct req next [(ty, receiveLine req command stream)]) (λ x,
    Ret (fst x ++ [(ty, answerLine req stream (snd x))], snd x)).
End store.

(** ** The design: a Worker of [spec/eventstore.tla] *)

(** Where a Worker is with its Request: about to load after [lost] conflicts, about
    to append its decision at the length it loaded, or through with an answer. *)
Inductive phase : Type :=
| AtLoad (lost : nat)
| AtAppend (lost : nat) (seq : Z) (decided : string)
| Answered (a : string)
| Over.

Section design.
Context (maxAttempts : nat) (handlers : list string) (id : string).

(** One line of the Request, consumed by one step of the design
    ([LoadStep], [AppendStep] and [AnswerStep] of [Traceeventstore.tla]). *)
Inductive matched : phase → Record_ → phase → Prop :=
| load_answers lost l e :
    Kind l = KindLoad → Stream l = id → Len l = Some (len (Types l)) →
    e ∈ Types l → e ∈ handlers → matched (AtLoad lost) l (Answered e)
| load_decides lost l e :
    Kind l = KindLoad → Stream l = id → Len l = Some (len (Types l)) →
    Forall (λ t, t ∉ handlers) (Types l) → e ∈ handlers →
    matched (AtLoad lost) l (AtAppend lost (len (Types l)) e)
| append_lands lost seq e l :
    Kind l = KindAppend → Stream l = id → Expected l = Some seq → Types l = [e] → Outcome l = OutcomeOK →
    matched (AtAppend lost seq e) l (Answered e)
| append_errs lost seq e l :
    Kind l = KindAppend → Stream l = id → Expected l = Some seq → Types l = [e] → Outcome l = OutcomeError →
    matched (AtAppend lost seq e) l (Answered OutcomeFailed)
| append_loses lost seq e l :
    Kind l = KindAppend → Stream l = id → Expected l = Some seq → Types l = [e] → Outcome l = OutcomeConflict →
    (S lost < maxAttempts)%nat → matched (AtAppend lost seq e) l (AtLoad (S lost))
| append_aborts lost seq e l :
    Kind l = KindAppend → Stream l = id → Expected l = Some seq → Types l = [e] → Outcome l = OutcomeConflict →
    (maxAttempts ≤ S lost)%nat → matched (AtAppend lost seq e) l (Answered OutcomeAborted)
| answer_told a l : Kind l = KindAnswer → Outcome l = a → matched (Answered a) l Over
| answer_failed ph l :
    match ph with AtLoad _ | AtAppend _ _ _ => True | _ => False end →
    Kind l = KindAnswer → Outcome l = OutcomeFailed → matched ph l Over.

Inductive consumes : phase → list Record_ → phase → Prop :=
| consumes_nil ph : consumes ph [] ph
| consumes_cons ph ph' ph'' l ls : matched ph l ph' → consumes ph' ls ph'' → consumes ph (l :: ls) ph''.

(** The whole of a Request: received on its stream, then consumed to the end. *)
Definition accepts (ls : list Record_) : Prop := ∃ received rest,
  ls = received :: rest ∧ Kind received = KindReceive ∧ Stream received = id ∧ consumes (AtLoad 0) rest Over.

Lemma consumes_app ph ph' ph'' ls ls' : consumes ph ls ph' → consumes ph' ls' ph'' → consumes ph (ls ++ ls') ph''.
Proof. induction 1; [done|]. intros H'. econstructor; eauto. Qed.

Lemma consumes_one ph l ph' : matched ph l ph' → consumes ph [l] ph'.
Proof. intros H. econstructor; [exact H | constructor]. Qed.
End design.

(** ** The calls of a run *)

Section paths.
Context {C : Codec}.

(** A call and what it was answered. *)
Definition answeredCall : Type := sigT resp.

(** One way through a program. *)
Fixpoint path {A} (p : prog A) (tr : list answeredCall) (a : A) : Prop :=
  match p, tr with
  | Ret b, [] => a = b
  | Op o k, c :: tr => ∃ r, c = existT o r ∧ path (k r) tr a
  | _, _ => False
  end.

Lemma path_ret_inv {A} (a b : A) tr : path (Ret a) tr b → tr = [] ∧ b = a.
Proof. by destruct tr. Qed.

Lemma path_op_inv {A} o (k : resp o → prog A) tr b :
  path (Op o k) tr b → ∃ r tr', tr = existT o r :: tr' ∧ path (k r) tr' b.
Proof. destruct tr as [|c tr]; [done|]. intros (r & -> & H). eauto. Qed.

Lemma path_pbind_inv {A B} (p : prog A) (f : A → prog B) tr b :
  path (pbind p f) tr b → ∃ tr1 tr2 a, tr = tr1 ++ tr2 ∧ path p tr1 a ∧ path (f a) tr2 b.
Proof.
  revert tr. induction p as [a|o k IH]; intros tr H; simpl in H.
  - exists [], tr, a. done.
  - apply path_op_inv in H as (r & tr' & -> & H). destruct (IH _ _ H) as (tr1 & tr2 & a & -> & H1 & H2).
    exists (existT o r :: tr1), tr2, a. split_and!; [done|by exists r|done].
Qed.

Lemma path_bind_inv {A B} (m : M A) (f : A → M B) tr b :
  path (bind m f) tr b →
  (∃ e, path m tr (Err e) ∧ b = Err e) ∨
  ∃ tr1 tr2 a, tr = tr1 ++ tr2 ∧ path m tr1 (Ok a) ∧ path (f a) tr2 b.
Proof.
  intros (tr1 & tr2 & r & -> & H1 & H2)%path_pbind_inv. destruct r as [a|e]; [right; eauto 8|].
  apply path_ret_inv in H2 as [-> ->]. left. exists e. by rewrite app_nil_r.
Qed.

(** ** Staying off a stream *)

(** A call that neither reads nor writes a stream. *)
Definition offCall (ty id : string) (o : op) : Prop :=
  match o with
  | OLoad ty' id' => ty' ≠ ty ∨ id' ≠ id
  | OAppend _ => False
  | _ => True
  end.

(** Every call of the program stays off the stream, and it returns what is wanted. *)
Fixpoint off {A} (ty id : string) (P : A → Prop) (p : prog A) : Prop :=
  match p with
  | Ret a => P a
  | Op o k => offCall ty id o ∧ ∀ r, off ty id P (k r)
  end.

Lemma off_mono {A} ty id (P Q : A → Prop) (p : prog A) : (∀ a, P a → Q a) → off ty id P p → off ty id Q p.
Proof. intros HPQ. induction p as [a|o k IH]; simpl; [auto|]. intros [Ho Hk]. split; [done|]. intros r. by apply IH. Qed.

Lemma off_pbind {A B} ty id (P : A → Prop) (Q : B → Prop) (p : prog A) (f : A → prog B) :
  off ty id P p → (∀ a, P a → off ty id Q (f a)) → off ty id Q (pbind p f).
Proof. intros Hp Hf. induction p as [a|o k IH]; simpl in *; [auto|]. destruct Hp as [Ho Hk]. split; [done|]. eauto. Qed.

(** An answer that is not [Aborted], which only losing every race is. *)
Definition unaborted {A} (r : result A) : Prop := match r with Err e => e_code e ≠ Some Aborted | Ok _ => True end.

Lemma off_bind {A B} ty id (m : M A) (f : A → M B) :
  off ty id unaborted m → (∀ a, off ty id unaborted (f a)) → off ty id unaborted (bind m f).
Proof. intros Hm Hf. eapply off_pbind; [exact Hm|]. intros [a|e] H; [apply Hf | exact H]. Qed.

Lemma off_mapErr {A} ty id f (m : M A) :
  (∀ e, e_code (f e) ≠ Some Aborted) → off ty id (λ _, True) m → off ty id unaborted (mapErr f m).
Proof. intros Hf Hm. eapply off_pbind; [exact Hm|]. intros [a|e] _; simpl; [done | apply Hf]. Qed.

Lemma off_load ty id ty' id' : ty' ≠ ty ∨ id' ≠ id → off ty id (λ _, True) (load ty' id').
Proof. by split. Qed.

Lemma off_balances ty id ids : off ty id (λ _, True) (balances ids).
Proof. by split. Qed.

Lemma off_path {A} ty id (P : A → Prop) (p : prog A) tr a :
  off ty id P p → path p tr a → P a ∧ Forall (λ c, offCall ty id (projT1 c)) tr.
Proof.
  revert tr. induction p as [b|o k IH]; intros tr Ho H.
  - by apply path_ret_inv in H as [-> ->].
  - destruct Ho as [Hc Hk]. apply path_op_inv in H as (r & tr' & -> & H).
    destruct (IH r tr' (Hk r) H). split; [done | by constructor].
Qed.
End paths.

#[export] Hint Resolve off_load off_balances : money.

(** ** A deciding handler is a Worker *)

Section worker.
Context {C : Codec}.

Definition always (_ : StreamWrite) : bool := true.

(** The lines a run leaves, and those of them on a Transfer's own stream. *)
Definition linesOf (req : string) (tr : list answeredCall) : list (string * Record_) :=
  tr ≫= λ c, callLines always req (projT1 c) (projT2 c).
Definition ownLine (id : string) (x : string * Record_) : Prop :=
  fst x = TransferAggregateType ∧ touches (snd x) id = true.
#[export] Instance ownLine_dec id x : Decision (ownLine id x).
Proof. unfold ownLine. apply _. Defined.
Definition own (id : string) (ls : list (string * Record_)) : list Record_ := (filter (ownLine id) ls).*2.

Lemma own_app id ls ls' : own id (ls ++ ls') = own id ls ++ own id ls'.
Proof. unfold own. by rewrite filter_app, fmap_app. Qed.

Lemma linesOf_app req tr tr' : linesOf req (tr ++ tr') = linesOf req tr ++ linesOf req tr'.
Proof. apply bind_app. Qed.

Lemma linesOf_one req o r : linesOf req [existT o r] = callLines always req o r.
Proof. apply app_nil_r. Qed.

Lemma own_off req id tr :
  Forall (λ c, offCall TransferAggregateType id (projT1 c)) tr → own id (linesOf req tr) = [].
Proof.
  induction 1 as [|[o r] tr Ho _ IH]; [done|]. change (linesOf req (existT o r :: tr)) with
    (callLines always req o r ++ linesOf req tr). rewrite own_app, IH, app_nil_r.
  destruct o; try done; simpl in *. destruct r as [evs|]; [|done]. unfold own. rewrite filter_cons_False; [done|].
  intros [Hty Ht]. simpl in *. unfold touches in Ht. simpl in Ht. rewrite orb_false_r in Ht.
  apply bool_decide_eq_true in Ht. simpl in Ht. destruct Ho; congruence.
Qed.

(** A stream as the log keeps a Transfer's: what it says decodes, and only its first
    event is the decision on a request. *)
Definition openingTypes : list string :=
  full_name <$> [KTransferRequestAccepted; KTransferRequestRejected; KReversalRequestAccepted; KReversalRequestRejected].
Definition headed (evs : list Event) : Prop :=
  Forall (λ e, ∃ m, recorded m e) evs ∧ Forall (λ e, EType e ∉ openingTypes) (tail evs).

(** Every load of the stream was answered with such a one. *)
Definition truthful (id : string) (c : answeredCall) : Prop :=
  match c with
  | existT (OLoad ty id') r => ty = TransferAggregateType → id' = id → match r with Ok evs => headed evs | Err _ => True end
  | _ => True
  end.

(** A command decided the way the design has it: load the stream; answer with what
    it says, or decide elsewhere and try to append. *)
Context (id : string) (handlers : list string) {X : Type}.
Context (decided : list Event → result response) (decide_ : M X) (decision : X → message).

Definition attempt : M (option response) :=
  let* events := loadTransfer id in
  match events with
  | _ :: _ => let* out := lift (decided events) in ret (Some out)
  | [] =>
      let* x := decide_ in
      let event := decision x in
      let* ok := tryAppend id 0 event in
      if ok : bool then ret (Some (mkResponse id event)) else ret None
  end.

Hypothesis handlers_opening : ∀ t, t ∈ handlers → t ∈ openingTypes.
Hypothesis decided_spec : ∀ e rest, headed (e :: rest) →
  match decided (e :: rest) with
  | Ok resp => EventType (rs_Result resp) = EType e ∧ EType e ∈ handlers
  | Err err => e_code err ≠ Some Aborted ∧ EType e ∉ handlers
  end.
Hypothesis decide_off : off TransferAggregateType id unaborted decide_.
Hypothesis decision_handled : ∀ x, EventType (decision x) ∈ handlers.
Hypothesis handlers_some : ∃ h, h ∈ handlers.

Variable maxAttempts : nat.
Variable req : string.

Definition unanswered (ph : phase) : Prop := match ph with AtLoad _ | AtAppend _ _ _ => True | _ => False end.

(** What an attempt leaves the Worker with. *)
Definition afterAttempt (lost : nat) (r : result (option response)) (ph : phase) : Prop :=
  match r with
  | Ok (Some resp) => ph = Answered (EventType (rs_Result resp))
  | Ok None => ph = if (S lost <? maxAttempts)%nat then AtLoad (S lost) else Answered OutcomeAborted
  | Err e => e_code e ≠ Some Aborted ∧ (unanswered ph ∨ ph = Answered OutcomeFailed)
  end.

Lemma own_load evs : own id (callLines always req (OLoad TransferAggregateType id) (Ok evs)) = [loadLine req id evs].
Proof.
  unfold own. simpl. rewrite filter_cons_True; [done|]. split; [done|]. unfold touches. simpl. by rewrite bool_decide_true.
Qed.

Lemma own_append m r :
  own id (callLines always req (OAppend [mkStreamWrite TransferAggregateType id 0 [m]]) r) = [appendLine req id 0 [m] r].
Proof.
  unfold own. simpl. rewrite filter_cons_True; [done|]. split; [done|]. unfold touches. simpl. by rewrite bool_decide_true.
Qed.

(** The append of a decision, by its outcome. *)
Lemma append_consumed lost m r :
  ∃ ph, matched maxAttempts handlers id (AtAppend lost 0 (EventType m)) (appendLine req id 0 [m] r) ph ∧
    ph = match r with
         | Ok _ => Answered (EventType m)
         | Err e => if Is e ErrConcurrencyConflict
                    then if (S lost <? maxAttempts)%nat then AtLoad (S lost) else Answered OutcomeAborted
                    else Answered OutcomeFailed
         end.
Proof.
  eexists. split; [|reflexivity]. destruct r as [[]|e]; [by apply append_lands|].
  destruct (Is e ErrConcurrencyConflict) eqn:Hc.
  - destruct (Nat.ltb_spec (S lost) maxAttempts).
    + apply append_loses; simpl; rewrite ?Hc; done || lia.
    + apply append_aborts; simpl; rewrite ?Hc; done || lia.
  - apply append_errs; simpl; rewrite ?Hc; done.
Qed.

Lemma path_loadTransfer tr r :
  path (loadTransfer id) tr r → ∃ a, tr = [existT (OLoad TransferAggregateType id) a] ∧ r = rmap_err InternalErrorWith a.
Proof. intros (a & tr' & -> & H)%path_op_inv. apply path_ret_inv in H as [-> ->]. eauto. Qed.

Lemma path_tryAppend m tr r :
  path (tryAppend id 0 m) tr r → ∃ a,
    tr = [existT (OAppend [mkStreamWrite TransferAggregateType id 0 [m]]) a] ∧
    r = match a with
        | Ok _ => Ok true
        | Err e => if Is e ErrConcurrencyConflict then Ok false else Err (InternalErrorWith e)
        end.
Proof.
  intros (a & tr' & -> & H)%path_op_inv. exists a. destruct a as [[]|e]; simpl in H.
  - by apply path_ret_inv in H as [-> ->].
  - destruct (Is e ErrConcurrencyConflict); by apply path_ret_inv in H as [-> ->].
Qed.

(** A load of an opened stream is consumed: it answers, or the command is not the
    one that opened it and the Worker goes on to fail. *)
Lemma load_opened_consumed lost e rest : headed (e :: rest) →
  ∃ ph, consumes maxAttempts handlers id (AtLoad lost) [loadLine req id (e :: rest)] ph ∧
    afterAttempt lost (rmap Some (decided (e :: rest))) ph.
Proof.
  intros Hh. pose proof (decided_spec e rest Hh) as Hd. destruct (decided (e :: rest)) as [resp|err]; simpl.
  - destruct Hd as [Hty Hin]. exists (Answered (EType e)). split; [|by rewrite Hty]. apply consumes_one.
    apply load_answers; try done; simpl; [by rewrite length_fmap|]. by left.
  - destruct Hd as [Hcode Hout], handlers_some as [h Hin]. eexists. split.
    + apply consumes_one, (load_decides _ _ _ _ _ h); try done; simpl; [by rewrite length_fmap|].
      constructor; [done|]. destruct Hh as [_ Hh]. apply Forall_fmap. eapply Forall_impl; [exact Hh|].
      intros x Hx Hin'. by apply Hx, handlers_opening.
    + split; [done | by left].
Qed.

(** One attempt is consumed, from where the Worker is. *)
Lemma attempt_consumed lost tr r :
  path attempt tr r → Forall (truthful id) tr →
  ∃ ph, consumes maxAttempts handlers id (AtLoad lost) (own id (linesOf req tr)) ph ∧ afterAttempt lost r ph.
Proof.
  intros H Ht. apply path_bind_inv in H as [(e & H & ->)|(tr1 & tr2 & evs & -> & H & H2)].
  - apply path_loadTransfer in H as ([?|e'] & -> & [= ->]). exists (AtLoad lost). split; [constructor|]. by split; [|left].
  - apply path_loadTransfer in H as ([?|e'] & -> & [= <-]). apply Forall_app in Ht as [Ht1 Ht2].
    apply Forall_cons in Ht1 as [Ht1 _]. rewrite linesOf_app, own_app. rewrite linesOf_one, own_load. destruct evs as [|ev evs].
    2:{ assert (tr2 = [] ∧ r = rmap Some (decided (ev :: evs))) as [-> ->].
        { destruct (decided (ev :: evs)); simpl in H2; by apply path_ret_inv in H2. }
        rewrite app_nil_r. apply load_opened_consumed, Ht1; done. }
    assert (∀ h, h ∈ handlers → consumes maxAttempts handlers id (AtLoad lost) [loadLine req id []] (AtAppend lost 0 h)) as Hl.
    { intros h Hh. apply consumes_one, (load_decides _ _ _ _ (loadLine req id []) h); done. }
    apply path_bind_inv in H2 as [(e & H & ->)|(tr3 & tr4 & x & -> & H & H2)].
    { apply (off_path _ _ _ _ _ _ decide_off) in H as [Hun Hoff]. rewrite own_off, app_nil_r by done.
      destruct handlers_some as [h Hh]. eexists. split; [by apply Hl|]. by split; [|left]. }
    apply (off_path _ _ _ _ _ _ decide_off) in H as [_ Hoff]. rewrite linesOf_app, own_app, (own_off _ _ tr3) by done.
    apply path_bind_inv in H2 as [(e & H & ->)|(tr5 & tr6 & ok & -> & H & H2)].
    + apply path_tryAppend in H as (a & -> & Ha). destruct (append_consumed lost (decision x) a) as (ph & Hm & ->).
      eexists. split.
      { eapply consumes_app; [by apply Hl|]. rewrite linesOf_one, own_append. by apply consumes_one. }
      destruct a as [?|e']; [done|]. destruct (Is e' _); [done|]. injection Ha as ->. by split; [|right].
    + apply path_tryAppend in H as (a & -> & Ha). destruct (append_consumed lost (decision x) a) as (ph & Hm & ->).
      assert (tr6 = [] ∧ r = Ok (if ok then Some (mkResponse id (decision x)) else None)) as [-> ->].
      { destruct ok; by apply path_ret_inv in H2. }
      rewrite app_nil_r. eexists. split.
      { eapply consumes_app; [by apply Hl|]. rewrite linesOf_one, own_append. by apply consumes_one. }
      destruct a as [?|e']; [by injection Ha as ->|]. destruct (Is e' _); [by injection Ha as ->|done].
Qed.

(** Where a Worker that has lost [lost] races is. *)
Definition retrying (lost : nat) : phase := if (lost <? maxAttempts)%nat then AtLoad lost else Answered OutcomeAborted.

(** What the handler leaves the Worker with. *)
Definition afterHandler (r : result response) (ph : phase) : Prop :=
  match r with
  | Ok resp => ph = Answered (EventType (rs_Result resp))
  | Err e =>
      if bool_decide (e_code e = Some Aborted) then ph = Answered OutcomeAborted
      else unanswered ph ∨ ph = Answered OutcomeFailed
  end.

Lemma attempts_consumed n lost tr r :
  (lost + n)%nat = maxAttempts → path (attempts n attempt) tr r → Forall (truthful id) tr →
  ∃ ph, consumes maxAttempts handlers id (retrying lost) (own id (linesOf req tr)) ph ∧ afterHandler r ph.
Proof.
  revert lost tr. induction n as [|n IH]; intros lost tr Hn H Ht.
  - apply path_ret_inv in H as [-> ->]. exists (Answered OutcomeAborted). split; [|done].
    unfold retrying. destruct (Nat.ltb_spec lost maxAttempts); [lia|constructor].
  - assert (retrying lost = AtLoad lost) as ->
      by (unfold retrying; destruct (Nat.ltb_spec lost maxAttempts); [done|lia]).
    cbn [attempts] in H. apply path_bind_inv in H as [(e & H & ->)|(tr1 & tr2 & out & -> & H & H2)].
    + destruct (attempt_consumed lost _ _ H Ht) as (ph & Hc & Hcode & Hph). exists ph. split; [done|].
      simpl. by rewrite bool_decide_false.
    + apply Forall_app in Ht as [Ht1 Ht2]. rewrite linesOf_app, own_app.
      destruct (attempt_consumed lost _ _ H Ht1) as (ph & Hc & Hph). destruct out as [resp|]; simpl in Hph.
      * apply path_ret_inv in H2 as [-> ->]. exists ph. split; [|done]. by rewrite app_nil_r.
      * change (ph = retrying (S lost)) in Hph. subst ph.
        destruct (IH (S lost) tr2) as (ph & Hc' & Hph); [lia|done|done|].
        exists ph. split; [by eapply consumes_app | done].
Qed.

Lemma answer_consumed r ph : afterHandler r ph → matched maxAttempts handlers id ph (answerLine req id r) Over.
Proof.
  destruct r as [resp|e]; simpl; [intros ->; by apply answer_told|].
  destruct (bool_decide_reflect (e_code e = Some Aborted)) as [Hc|Hc].
  - intros ->. apply answer_told; [done|]. simpl. by rewrite bool_decide_true.
  - intros [Hun| ->]; [apply answer_failed|apply answer_told]; try done; simpl; by rewrite bool_decide_false.
Qed.

(** The whole handler: validation, then the loop. *)
Lemma handler_consumed (v : result unit) tr r :
  (0 < maxAttempts)%nat → unaborted v → path (lift v ;;; attempts maxAttempts attempt) tr r → Forall (truthful id) tr →
  consumes maxAttempts handlers id (AtLoad 0) (own id (linesOf req tr) ++ [answerLine req id r]) Over.
Proof.
  intros Hmax Hv H Ht.
  assert (∃ ph, consumes maxAttempts handlers id (AtLoad 0) (own id (linesOf req tr)) ph ∧ afterHandler r ph)
    as (ph & Hc & Hph).
  { apply path_bind_inv in H as [(e & H & ->)|(tr1 & tr2 & [] & -> & H & H2)].
    - apply path_ret_inv in H as [-> <-]. exists (AtLoad 0). split; [constructor|].
      simpl. rewrite bool_decide_false by done. by left.
    - apply path_ret_inv in H as [-> _]. destruct (attempts_consumed maxAttempts 0 tr2 r eq_refl H2 Ht) as (ph & Hc & Hph).
      exists ph. split; [|done]. unfold retrying in Hc. by destruct (Nat.ltb_spec 0 maxAttempts); [|lia]. }
  eapply consumes_app; [exact Hc|]. by apply consumes_one, answer_consumed.
Qed.
End worker.

(** ** RequestTransfer and RequestReversal decide off their own stream *)

Lemma unaborted_rbind {A B} (r : result A) (f : A → result B) :
  unaborted r → (∀ a, unaborted (f a)) → unaborted (let? a := r in f a).
Proof. by destruct r; simpl. Qed.

Lemma unaborted_internal {A} (r : result A) : unaborted (rmap_err InternalErrorWith r).
Proof. by destruct r. Qed.

Ltac solve_unaborted :=
  repeat first
    [ apply unaborted_internal
    | apply unaborted_rbind; [|intros ?]
    | match goal with |- unaborted (match ?x with _ => _ end) => destruct x end
    | match goal with |- unaborted (if ?x then _ else _) => destruct x end
    | done ].

(** ** The files *)

(** With no line of another kind of stream, the lines that touch an id are those of
    the Transfer. *)
Lemma touched_own `{Codec} id ls :
  Forall (λ x, touches (snd x) id = true → fst x = TransferAggregateType) ls →
  filter (λ l, touches l id = true) ls.*2 = own id ls.
Proof.
  induction 1 as [|[ty l] ls Hx _ IH]; [done|]. unfold own. simpl in *. rewrite !filter_cons.
  destruct (decide (touches l id = true)) as [Ht|Ht], (decide (ownLine id (ty, l))) as [Ho|Ho]; simpl.
  - by f_equal.
  - exfalso. apply Ho. split; [by apply Hx | done].
  - by destruct Ho.
  - exact IH.
Qed.

Lemma commanded_snoc rs l : commanded (rs ++ [l]) =
  if bool_decide (Kind l = KindReceive) then
    (<[Req l := Stream l]> (commanded rs).1,
     if bool_decide (Stream l ∈ (commanded rs).2) then (commanded rs).2 else (commanded rs).2 ++ [Stream l])
  else commanded rs.
Proof. unfold commanded. by rewrite foldl_app. Qed.

(** A Request's stream is that of the last [Receive] recorded for it. *)
Lemma commanded_lookup rs r :
  (commanded rs).1 !! r = Stream <$> last (filter (λ l, Kind l = KindReceive ∧ Req l = r) rs).
Proof.
  induction rs as [|l rs IH] using rev_ind; [done|]. rewrite commanded_snoc, filter_app.
  destruct (bool_decide_reflect (Kind l = KindReceive)) as [Hk|Hk]; simpl.
  - destruct (decide (Req l = r)) as [<-|Hne].
    + by rewrite lookup_insert_eq, filter_cons_True, filter_nil, last_snoc.
    + rewrite lookup_insert_ne, IH, filter_cons_False, filter_nil, app_nil_r; [done|by intros [_ ?]|done].
  - rewrite IH, filter_cons_False, filter_nil, app_nil_r; [done|by intros [? _]].
Qed.

Lemma commanded_streams rs l : l ∈ rs → Kind l = KindReceive → Stream l ∈ (commanded rs).2.
Proof.
  induction rs as [|l' rs IH] using rev_ind; intros Hin Hk; [by apply elem_of_nil in Hin|]. rewrite commanded_snoc.
  apply elem_of_app in Hin as [Hin|[->|[]%elem_of_nil]%elem_of_cons].
  - destruct (bool_decide _); simpl; [|by apply IH]. destruct (bool_decide _); [by apply IH|].
    apply elem_of_app. left. by apply IH.
  - rewrite bool_decide_true by done. simpl. destruct (bool_decide_reflect (Stream l' ∈ (commanded rs).2)); [done|].
    apply elem_of_app. right. by left.
Qed.

Section decisions.
Context {C : Codec} {U : UuidPackage} {S256 : Sha256}.

Lemma off_lift {A} ty id (r : result A) : unaborted r → off ty id unaborted (lift r).
Proof. done. Qed.

Lemma off_loaded {A} ty id ty' id' (f : list Event → M A) :
  ty' ≠ ty ∨ id' ≠ id → (∀ evs, off ty id unaborted (f evs)) →
  off ty id unaborted (let* evs := mapErr InternalErrorWith (load ty' id') in f evs).
Proof. intros Hne Hf. apply off_bind; [|done]. apply off_mapErr; [done | by apply off_load]. Qed.

Lemma IsOpen_off id tx : off TransferAggregateType id unaborted (IsOpen tx).
Proof. apply off_loaded; [by left|]. intros evs. by destruct (topLevelState evs). Qed.

Lemma Exists_off id tx : off TransferAggregateType id unaborted (Exists tx).
Proof. apply off_loaded; [by left|]. done. Qed.

Lemma visibleIn_off id calling evs visible :
  off TransferAggregateType id unaborted (Wallet.visibleIn calling (isOpen transferServer) evs visible).
Proof.
  revert visible. induction evs as [|e evs IH]; intros visible; [done|]. cbn [Wallet.visibleIn].
  apply off_bind; [apply off_lift; solve_unaborted|]. intros [ ]; try apply IH. cbn [isOpen transferServer].
  destruct (_ || _); [apply IH|]. apply off_bind; [apply IsOpen_off|]. intros open. apply IH.
Qed.

Lemma pickTokens_unaborted bals currency remaining ids : unaborted (pickTokens bals currency remaining ids).
Proof.
  revert remaining. induction ids as [|t ids IH]; intros remaining; simpl; [done|].
  destruct (remaining =? 0); [done|]. destruct (bals !! t) as [b|]; [|apply IH].
  apply unaborted_rbind; [by destruct (PostedNet b)|]. intros balance. destruct (balance <=? 0); [apply IH|].
  apply unaborted_rbind; [apply IH|]. by intros [].
Qed.

Lemma transferRejection_off id req : off TransferAggregateType id unaborted (transferRejection transferServer req).
Proof.
  unfold transferRejection. destruct (rt_MintSource req).
  - apply off_bind; [apply Exists_off|]. intros ex. destruct (negb ex); [done|]. apply off_bind.
    + apply off_loaded; [by left|]. intros evs. apply off_lift. unfold Wallet.openedIn. solve_unaborted.
    + intros [opened|]; [|done]. by destruct (wo_Allows opened).
  - apply off_bind; [|by intros []]. apply off_bind.
    { apply off_loaded; [by left|]. intros evs. apply visibleIn_off. }
    intros ids. apply off_bind; [apply off_mapErr; [done | apply off_balances]|]. intros bals.
    apply off_bind; [apply off_lift, pickTokens_unaborted|]. intros [legs remaining]. by destruct (0 <? remaining).
Qed.

Lemma reversedLegs_unaborted evs : unaborted (reversedLegs evs).
Proof. induction evs as [|e evs IH]; simpl; [done|]. solve_unaborted. Qed.

Lemma reversalManifest_off id original : original ≠ id → off TransferAggregateType id unaborted (reversalManifest original).
Proof.
  intros Hne. apply off_loaded; [by right|]. intros evs. apply off_lift. unfold manifestOf.
  pose proof (reversedLegs_unaborted evs). solve_unaborted.
Qed.

Lemma validate_unaborted field value : unaborted (Id.Validate field value).
Proof. unfold Id.Validate. solve_unaborted. Qed.

Lemma validateRequestTransfer_unaborted req : unaborted (validateRequestTransfer req).
Proof.
  unfold validateRequestTransfer. repeat (apply unaborted_rbind; [apply validate_unaborted|intros ?]).
  apply unaborted_rbind; [unfold MoneyCheck.Validate; solve_unaborted|]. intros _. solve_unaborted.
Qed.

(** What each command can be decided as ([DecisionEvents] of its response). *)
Definition transferHandlers : list string := full_name <$> [KTransferRequestAccepted; KTransferRequestRejected].
Definition reversalHandlers : list string := full_name <$> [KReversalRequestAccepted; KReversalRequestRejected].

Lemma decidedRequestTransfer_spec `{!CodecLaws C} e rest : headed (e :: rest) →
  match decidedRequestTransfer (e :: rest) with
  | Ok resp => EventType (rs_Result resp) = EType e ∧ EType e ∈ transferHandlers
  | Err err => e_code err ≠ Some Aborted ∧ EType e ∉ transferHandlers
  end.
Proof.
  intros [[(m & Hm) _]%Forall_cons _]. pose proof (recorded_Decode m e Hm) as Hd. destruct Hm as [Hty _].
  unfold decidedRequestTransfer. rewrite Hd, Hty. simpl.
  by destruct m; (split; [|decided]).
Qed.

Lemma decidedRequestReversal_spec `{!CodecLaws C} e rest : headed (e :: rest) →
  match decidedRequestReversal (e :: rest) with
  | Ok resp => EventType (rs_Result resp) = EType e ∧ EType e ∈ reversalHandlers
  | Err err => e_code err ≠ Some Aborted ∧ EType e ∉ reversalHandlers
  end.
Proof.
  intros [[(m & Hm) _]%Forall_cons _]. pose proof (recorded_Decode m e Hm) as Hd. destruct Hm as [Hty _].
  unfold decidedRequestReversal. rewrite Hd, Hty. simpl.
  by destruct m; (split; [|decided]).
Qed.

(** Whatever is answered to its calls, a [RequestTransfer] leaves on its own stream
    the lines of a Worker. *)
Lemma RequestTransfer_consumed `{!CodecLaws C} req r tr resp :
  path (RequestTransfer transferServer req) tr resp → Forall (truthful (rt_Id req)) tr →
  consumes maxConcurrencyAttempts transferHandlers (rt_Id req) (AtLoad 0)
    (own (rt_Id req) (linesOf r tr) ++ [answerLine r (rt_Id req) resp]) Over.
Proof.
  apply (handler_consumed (rt_Id req) transferHandlers decidedRequestTransfer
           (transferRejection transferServer req) (transferDecision req)).
  - intros t. revert t. apply Forall_forall. decided.
  - intros e rest. apply decidedRequestTransfer_spec.
  - apply transferRejection_off.
  - intros [reason|]; decided.
  - exists (full_name KTransferRequestAccepted). decided.
  - unfold maxConcurrencyAttempts. lia.
  - apply validateRequestTransfer_unaborted.
Qed.

(** A [RequestReversal] of another Transfer too. *)
Lemma RequestReversal_consumed `{!CodecLaws C} req r tr resp :
  rr_TransferId req ≠ rr_Id req →
  path (RequestReversal req) tr resp → Forall (truthful (rr_Id req)) tr →
  consumes maxConcurrencyAttempts reversalHandlers (rr_Id req) (AtLoad 0)
    (own (rr_Id req) (linesOf r tr) ++ [answerLine r (rr_Id req) resp]) Over.
Proof.
  intros Hne. apply (handler_consumed (rr_Id req) reversalHandlers decidedRequestReversal
           (reversalManifest (rr_TransferId req)) (reversalDecision req)).
  - intros t. revert t. apply Forall_forall. decided.
  - intros e rest. apply decidedRequestReversal_spec.
  - by apply reversalManifest_off.
  - intros [legs|reason]; decided.
  - exists (full_name KReversalRequestAccepted). decided.
  - unfold maxConcurrencyAttempts. lia.
  - apply unaborted_rbind; intros; apply validate_unaborted.
Qed.
End decisions.

(** ** In the system *)

Section system.
Context {C : Codec} {CL : CodecLaws C} {U : UuidPackage} {S256 : Sha256} {L : LedgerClient}.

Lemma treach_headed evs : treach evs → headed evs.
Proof.
  intros [->|(m & (e & rest & -> & He & _ & Hrest) & _)]%treach_wf; [by split|]. split; simpl.
  - constructor; [by exists m|]. eapply Forall_impl; [exact Hrest|]. intros e' (m' & Hm' & _). by exists m'.
  - eapply Forall_impl; [exact Hrest|]. intros e' (m' & [-> _] & Hk). unfold EventType, openingTypes.
    rewrite list_elem_of_fmap. intros (k & Heq%full_name_inj & Hin). rewrite Heq in Hk.
    rewrite !elem_of_cons in Hin. destruct_or! Hin; [by rewrite Hin in Hk..|]. by apply elem_of_nil in Hin.
Qed.

(** A program run over the recording store leaves the lines of the calls it made,
    and its loads of a Transfer's stream were answered with what the log keeps. *)
Lemma traced_safe {A} req id (p : prog A) Q w ls :
  treach (stream w TransferAggregateType id) → safe legal p Q w →
  safe legal (traced always req p ls)
    (λ x w', (∃ tr, path p tr (snd x) ∧ fst x = ls ++ linesOf req tr ∧ Forall (truthful id) tr) ∧ Q (snd x) w') w.
Proof.
  revert w ls. induction p as [a|o k IH]; simpl; intros w ls Hw Hs w1 H1.
  - split; [|by apply Hs]. exists []. by rewrite app_nil_r.
  - intros r w2 He. destruct (Hs _ H1 r w2 He) as [Hg Hk]. split; [done|].
    assert (Hw1 : treach (stream w1 TransferAggregateType id)).
    { unfold treach. etrans; [exact Hw | by apply (rely_tgrow legal)]. }
    assert (Hw2 : treach (stream w2 TransferAggregateType id)).
    { unfold treach. etrans; [exact Hw1 | by apply (rely_tgrow legal), rtc_once]. }
    eapply safe_mono; [|by apply IH]. intros [ls' a] w' _ ((tr & Hp & Hls & Ht) & HQ). split; [|done].
    exists (existT o r :: tr). split; [by exists r|]. split; [simpl in *; by rewrite Hls, <- app_assoc|].
    constructor; [|done]. destruct o; try done. intros -> ->. destruct He as [_ [(evs & -> & ->)|(e & -> & _)]]; [|done].
    by apply treach_headed.
Qed.

(** What the check of [spec/trace] asks of a Request: the file [WriteStreams] keeps for
    its stream holds, whatever else was recorded in between, lines of that Request
    the design accepts. The lines do not say what kind of stream they are on, so a
    stream of another kind with the same id would be mixed in. *)
Definition fileAccepted (handlers : list string) (id r : string) (ls : list (string * Record_)) : Prop :=
  ∀ header rs, filter (λ l, Req l = r) rs = ls.*2 →
    Forall (λ x, touches (snd x) id = true → fst x = TransferAggregateType) ls →
    ∃ lines, (id, HeaderLine header :: (RecordLine <$> lines)) ∈ filesOf header rs ∧
      accepts maxConcurrencyAttempts handlers id (filter (λ l, Req l = r) lines).

Lemma touches_own id (l : string * Record_) : fst l = TransferAggregateType → Stream (snd l) = id → own id [l] = [snd l].
Proof.
  intros Hty Hs. unfold own. rewrite filter_cons_True; [done|]. split; [done|]. unfold touches. by rewrite bool_decide_true.
Qed.

Lemma linesOf_kind r tr : Forall (λ x, Kind (snd x) ≠ KindReceive) (linesOf r tr).
Proof.
  induction tr as [|[o a] tr IH]; [constructor|]. change (linesOf r (existT o a :: tr)) with
    (callLines always r o a ++ linesOf r tr). apply Forall_app. split; [|done].
  destruct o as [| [|? [|]] | | | | | | | | | |]; simpl; try (by repeat constructor). by destruct a; repeat constructor.
Qed.

Lemma request_file id r (received : Record_) rest handlers ty :
  ty = TransferAggregateType → Kind received = KindReceive → Stream received = id → Req received = r →
  Forall (λ x, Kind (snd x) ≠ KindReceive) rest →
  consumes maxConcurrencyAttempts handlers id (AtLoad 0) (own id rest) Over →
  fileAccepted handlers id r ((ty, received) :: rest).
Proof.
  intros -> Hk Hs Hr Hrest Hc header rs Hrs Hown.
  assert (Hof : (commanded rs).1 !! r = Some id).
  { rewrite commanded_lookup. rewrite <- list_filter_filter, Hrs. simpl.
    rewrite filter_cons_True, filter_none; [simpl; by rewrite Hs| |done]. apply Forall_forall, Forall_fmap, Hrest. }
  exists (streamLines (commanded rs).1 id rs). split.
  - unfold filesOf. destruct (commanded rs) as [streamOf streams] eqn:Hcmd. apply list_elem_of_fmap. exists id. split; [done|].
    change streams with (streamOf, streams).2. rewrite <- Hcmd, <- Hs. apply commanded_streams; [|done].
    apply (list_elem_of_filter (λ l, Req l = r)). rewrite Hrs. by left.
  - exists received, (own id rest). split; [|done]. unfold streamLines. rewrite list_filter_filter.
    rewrite (list_filter_iff _ (λ l, touches l id = true ∧ Req l = r))
      by (intros l; split; [by intros (? & _ & ?) | by intros [? ->]]).
    rewrite <- list_filter_filter, Hrs, touched_own by done. change (own id ([(TransferAggregateType, received)] ++ rest) = received :: own id rest).
    by rewrite own_app, touches_own.
Qed.

(** A conforming handler whose calls make a Worker's lines, behind the interceptor. *)
Lemma intercepted_accepted handlers id r command (m : M response) w :
  treach (stream w TransferAggregateType id) → conforms legal m →
  (∀ tr resp, path m tr resp → Forall (truthful id) tr →
     consumes maxConcurrencyAttempts handlers id (AtLoad 0) (own id (linesOf r tr) ++ [answerLine r id resp]) Over) →
  safe legal (intercepted always TransferAggregateType r command id m) (λ x _, fileAccepted handlers id r (fst x)) w.
Proof.
  intros Hw Hm Hc. apply safe_pbind. eapply safe_mono; [|by apply (traced_safe r id), Hm].
  intros [ls resp] w' _ [(tr & Hp & Hls & Ht) _] w'' _. simpl in *. subst ls. simpl.
  apply request_file; try done.
  - apply Forall_app. split; [apply linesOf_kind | by repeat constructor].
  - rewrite own_app, (touches_own id (_, answerLine r id resp)) by done. by apply Hc.
Qed.

(** C13. The recorded traces are behaviours of the design. From any state of the whole
    system, with anything running beside it and any call failing or losing its
    reply, whatever a [RequestTransfer], or a [RequestReversal] of another Transfer,
    does behind the recording interceptor and store, the trace file of its stream
    holds for that Request exactly the lines of one Worker of [spec/eventstore.tla]:
    received, then at most [maxConcurrencyAttempts] times loaded at the length the
    line gives and decided as one of the command's own events and appended there,
    each outcome leading where the design says, and answered with what the Worker
    was left with. *)
Theorem request_traces_accepted c : reachable c →
  (∀ req r, safe legal
     (intercepted always TransferAggregateType r "RequestTransfer" (rt_Id req) (RequestTransfer transferServer req))
     (λ x _, fileAccepted transferHandlers (rt_Id req) r (fst x)) (fst c)) ∧
  (∀ req r, rr_TransferId req ≠ rr_Id req → safe legal
     (intercepted always TransferAggregateType r "RequestReversal" (rr_Id req) (RequestReversal req))
     (λ x _, fileAccepted reversalHandlers (rr_Id req) r (fst x)) (fst c)).
Proof.
  intros Hc. split; intros req r; [|intros Hne]; apply intercepted_accepted; try (by apply reachable_transfer).
  - apply (RequestTransfer_conforms legal), transferServer_ok.
  - intros tr resp. apply RequestTransfer_consumed.
  - apply (RequestReversal_conforms legal).
  - intros tr resp. by apply RequestReversal_consumed.
Qed.
End system.

(** ** The theorem at work *)

Definition traceHeader : Header :=
  mkHeader (Z.of_nat maxConcurrencyAttempts)
    {[ "RequestTransfer" := transferHandlers; "RequestReversal" := reversalHandlers ]}.

Definition tracedRequest : RequestTransferRequest := mkRequestTransfer transfer1 walletA walletB (usd 500) false "" false.
Definition tracedLines : list (string * Record_) :=
  fst (snd (run emptyWorld (intercepted always TransferAggregateType "r1" "RequestTransfer" transfer1
    (RequestTransfer transferServer tracedRequest)))).

(** What is recorded of a request that is rejected: received, loaded, the Wallet
    loaded for the decision, appended, answered. *)
Example tracedLines_kinds :
  Kind ∘ snd <$> tracedLines = [KindReceive; KindLoad; KindLoad; KindAppend; KindAnswer].
Proof. evaluate. Qed.

(** Its file, written on its own. *)
Lemma request_traces_accepted_witness :
  reachable (emptyWorld, []) ∧
  ∃ lines, (transfer1, HeaderLine traceHeader :: (RecordLine <$> lines)) ∈ filesOf traceHeader tracedLines.*2 ∧
    accepts maxConcurrencyAttempts transferHandlers transfer1 (filter (λ l, Req l = "r1") lines).
Proof.
  assert (Hc : reachable (emptyWorld, [])) by (exists (emptyWorld, []); by split).
  split; [exact Hc|]. destruct (request_traces_accepted _ Hc) as [Ht _].
  destruct (safe_run _ _ _ _ (Ht tracedRequest "r1")) as [_ Hq]. apply (Hq traceHeader tracedLines.*2).
  - apply filter_every. intros l Hl. apply (proj1 (Forall_forall (λ l, Req l = "r1") tracedLines.*2)); [|exact Hl]. decided.
  - fold tracedLines. decided.
Defined.
