(* ===== verification/Rpc.v ===== *)
(** * The RPC surface ([go/gen/proto/*/v1/*.twirp.go], [newMux] of [go/cmd/server])

    Twirp's generated code is one template, instantiated for five services: a client
    that posts a marshalled request, and an [http.Handler] that routes it to a method
    and writes back what the method answered. The template is modelled once, for a
    service as the list of its methods; [newMux] mounts the five.

    What is shown: a call through client, network, mux and server is the call of the
    handler: whatever is guaranteed of the handler is guaranteed of the call, and its
    answer arrives as it was, the code and the text of an error included, or the
    client is told of an internal error. So the drivers of [cmd/simulate], which talk
    to the services over HTTP, have of them what they were verified against.

    Parameters: protobuf and JSON, [twirp]'s table of statuses and codes. Of an error
    its code and message are followed, not its metadata; no hooks are configured, so
    there are none here; a nil response, which no handler returns with a nil error, is
    not a value of the model, and neither is a panic. *)

From S2P Require Import Prelude GoText Proto EventStore Ledger Effects Safety Validate Wallet Holder Token.
From S2P Require Import TransferState TransferManifest TransferSaga TransferServer TransferLegal TransferSafety HolderSafety.
From S2P Require Import Dag TransactionState TransactionSaga TransactionLegal TransactionSafety.
From S2P Require Import Telemetry TelemetryProcess Simulate SimulateSafety Protocol Scenario.

(** ** What is not generated *)

(** Which of the two a request is written in. *)
Inductive encoding : Type := JSON | Protobuf.

(** A [twirp.Error], by its code and message. *)
Record TwirpError : Type := mkTwirpError { tw_Code : string; tw_Msg : string }.

(** Bodies of requests and responses; how an error is written in JSON and read back,
    which replaces what is not UTF-8; [twirp.IsValidErrorCode]; and the page of
    [http.NotFound], which is not an error in JSON. *)
Class Http : Type := {
  body : Type;
  errorJSON : TwirpError → body;
  readErrorJSON : body → option TwirpError;
  asUTF8 : string → string;
  page : string → body;
  IsValidErrorCode : string → bool
}.

Definition CodeBadRoute : string := "bad_route".
Definition CodeMalformed : string := "malformed".
Definition CodeCanceled : string := "canceled".
Definition CodeDeadlineExceeded : string := "deadline_exceeded".

(** What is documented of them: an error reads back; the codes in use are error codes;
    and an error's status is neither success nor a redirect. *)
Class HttpLaws (H : Http) (S : TwirpStatus) : Prop := {
  readErrorJSON_errorJSON err : readErrorJSON (errorJSON err) = Some (mkTwirpError (tw_Code err) (asUTF8 (tw_Msg err)));
  valid_codes c : IsValidErrorCode (codeName c) = true;
  status_refused c : IsValidErrorCode c = true → 400 ≤ serverStatus c
}.

Section template.
Context {C : Codec} {H : Http} {S : TwirpStatus}.

(** A method: its name, what it takes and gives, its handler, and how the two
    messages are written and read. *)
Record method : Type := mkMethod {
  m_Name : string;
  m_Req : Type;
  m_Resp : Type;
  m_call : m_Req → M m_Resp;
  m_id : m_Req → option string;
  marshalReq : encoding → m_Req → result body;
  unmarshalReq : encoding → body → result m_Req;
  marshalResp : encoding → m_Resp → result body;
  unmarshalResp : encoding → body → result m_Resp
}.

(** What was marshalled unmarshals to what it was. *)
Definition codec_ok (m : method) : Prop :=
  (∀ enc x b, marshalReq m enc x = Ok b → unmarshalReq m enc b = Ok x) ∧
  (∀ enc x b, marshalResp m enc x = Ok b → unmarshalResp m enc b = Ok x).

Record service : Type := mkService { s_Package : string; s_Name : string; s_Methods : list method }.

(** How the body of a request ends: the context of the request may have. *)
Inductive contextEnd : Type := Canceled | DeadlineExceeded.

Record httpRequest : Type := mkRequest {
  h_Method : string;
  h_Path : string;
  h_ContentType : string;
  h_Body : result body;
  h_ctx : option contextEnd
}.

Record httpResponse : Type := mkHttpResponse { p_Status : Z; p_ContentType : string; p_Body : body }.

(** ** Paths *)

(** [path.Join("/", prefix, fullServiceName) + "/"], of a prefix that is rooted and
    clean and a name without slashes. *)
Definition baseServicePath (prefix pkg service : string) : string :=
  let fullServiceName := if bool_decide (pkg = "") then service else pkg +:+ "." +:+ service in
  prefix +:+ "/" +:+ fullServiceName +:+ "/".

Definition parseTwirpPath (path : string) : string * string * string :=
  match rev (Split slash path) with
  | method :: pkgService :: prefix => (Join slash (rev prefix), pkgService, method)
  | _ => ("", "", "")
  end.

Definition pathPrefix : string := "/twirp".
Definition PathPrefix (s : service) : string := baseServicePath pathPrefix (s_Package s) (s_Name s).
Definition fullName (s : service) : string := s_Package s +:+ "." +:+ s_Name s.

(** ** Errors on the wire *)

Definition errorMax : Z := 1000000.

Definition shorten (msg : string) : string :=
  if errorMax <? Z.of_nat (String.length msg) then String.substring 0 (Z.to_nat errorMax) msg else msg.

Definition marshalErrorToJSON (err : TwirpError) : body := errorJSON (mkTwirpError (tw_Code err) (shorten (tw_Msg err))).

Definition jsonContentType : string := "application/json".
Definition protobufContentType : string := "application/protobuf".
Definition contentTypeOf (enc : encoding) : string :=
  match enc with JSON => jsonContentType | Protobuf => protobufContentType end.

Definition writeTwirpError (err : TwirpError) : httpResponse :=
  mkHttpResponse (serverStatus (tw_Code err)) jsonContentType (marshalErrorToJSON err).

(** [errors.As(err, &twerr)], or else [twirp.InternalErrorWith(err)]. *)
Definition toTwirp (e : error) : TwirpError := mkTwirpError (twirpCode (Some e)) (e_msg e).
Definition writeError (e : error) : httpResponse := writeTwirpError (toTwirp e).

Definition malformedRequestError (msg : string) : TwirpError := mkTwirpError CodeMalformed msg.
Definition badRouteError (msg : string) : TwirpError := mkTwirpError CodeBadRoute msg.
Definition wrapInternal (e : error) (prefix : string) : TwirpError :=
  mkTwirpError (codeName Internal) (prefix +:+ ": " +:+ e_msg e).

Definition handleRequestBodyError (ctx : option contextEnd) (msg : string) : httpResponse :=
  writeTwirpError
    match ctx with
    | Some Canceled => mkTwirpError CodeCanceled "failed to read request: context canceled"
    | Some DeadlineExceeded => mkTwirpError CodeDeadlineExceeded "failed to read request: deadline exceeded"
    | None => malformedRequestError msg
    end.

(** ** The server *)

(** What the interceptors do around a method's handler. *)
Variable intercept : service → ∀ m : method, m_Req m → M (m_Resp m) → M (m_Resp m).

(** What a method's answer is written as. *)
Definition replyJSON (m : method) (r : result (m_Resp m)) : httpResponse :=
  match r with
  | Err e => writeError e
  | Ok resp =>
      match marshalResp m JSON resp with
      | Err e => writeTwirpError (wrapInternal e "failed to marshal json response")
      | Ok bytes => mkHttpResponse 200 jsonContentType bytes
      end
  end.

Definition replyProtobuf (m : method) (r : result (m_Resp m)) : httpResponse :=
  match r with
  | Err e => writeError e
  | Ok resp =>
      match marshalResp m Protobuf resp with
      | Err e => writeTwirpError (wrapInternal e "failed to marshal proto response")
      | Ok bytes => mkHttpResponse 200 protobufContentType bytes
      end
  end.

Definition serveMethodJSON (s : service) (m : method) (req : httpRequest) : prog httpResponse :=
  let undecoded := handleRequestBodyError (h_ctx req) "the json request could not be decoded" in
  match h_Body req with
  | Err _ => Ret undecoded
  | Ok raw =>
      match unmarshalReq m JSON raw with
      | Err _ => Ret undecoded
      | Ok content =>
          pbind (intercept s m content (m_call m content)) (λ r, Ret (replyJSON m r))
      end
  end.

Definition serveMethodProtobuf (s : service) (m : method) (req : httpRequest) : prog httpResponse :=
  match h_Body req with
  | Err _ => Ret (handleRequestBodyError (h_ctx req) "failed to read request body")
  | Ok buf =>
      match unmarshalReq m Protobuf buf with
      | Err _ => Ret (writeTwirpError (malformedRequestError "the protobuf request could not be decoded"))
      | Ok content =>
          pbind (intercept s m content (m_call m content)) (λ r, Ret (replyProtobuf m r))
      end
  end.

Definition semicolon : Ascii.ascii := Ascii.ascii_of_nat 59.

(** What the header says before its parameters, if there are any. *)
Definition mediaType (header : string) : string :=
  TrimSpace (ToLower (default "" (head (Split semicolon header)))).

Definition serveMethod (s : service) (m : method) (req : httpRequest) : prog httpResponse :=
  if bool_decide (mediaType (h_ContentType req) = jsonContentType) then serveMethodJSON s m req
  else if bool_decide (mediaType (h_ContentType req) = protobufContentType) then serveMethodProtobuf s m req
  else Ret (writeTwirpError (badRouteError ("unexpected Content-Type: " +:+ quoted (h_ContentType req)))).

Definition ServeHTTP (s : service) (req : httpRequest) : prog httpResponse :=
  if bool_decide (h_Method req ≠ "POST") then
    Ret (writeTwirpError (badRouteError ("unsupported method " +:+ quoted (h_Method req) +:+ " (only POST is allowed)")))
  else
    let '(prefix, pkgService, name) := parseTwirpPath (h_Path req) in
    let unhandled := Ret (writeTwirpError (badRouteError ("no handler for path " +:+ quoted (h_Path req)))) in
    if bool_decide (pkgService ≠ fullName s) then unhandled
    else if bool_decide (prefix ≠ pathPrefix) then
      Ret (writeTwirpError (badRouteError ("invalid path prefix " +:+ quoted prefix +:+ ", expected " +:+ quoted pathPrefix
        +:+ ", on path " +:+ quoted (h_Path req))))
    else
      match list_find (λ m, m_Name m = name) (s_Methods s) with
      | Some (_, m) => serveMethod s m req
      | None => unhandled
      end.

(** ** newMux *)

Variable services : list service.

(** What is mounted, by [http.ServeMux]'s rules for a clean path: a pattern that ends in
    a slash takes every path below it, another one its own; the root of a subtree
    without its slash is redirected there. *)
Definition mounted (path : string) : option service :=
  snd <$> list_find (λ s, String.prefix (PathPrefix s) path = true) services.

Definition slashless (path : string) : bool :=
  existsb (λ s, bool_decide (PathPrefix s = path +:+ "/")) services.

Definition line_ (text : string) : body := page (text +:+ String (Ascii.ascii_of_nat 10) EmptyString).

(** The health check, by what [Ping] answers. *)
Definition healthz (ping : option error) : httpResponse :=
  match ping with
  | Some _ => mkHttpResponse 503 "text/plain; charset=utf-8" (line_ "database unreachable")
  | None => mkHttpResponse 200 "text/plain; charset=utf-8" (line_ "ok")
  end.

Definition newMux (ping : option error) (req : httpRequest) : prog httpResponse :=
  match mounted (h_Path req) with
  | Some s => ServeHTTP s req
  | None =>
      if bool_decide (h_Path req = "/healthz") then Ret (healthz ping)
      else if slashless (h_Path req) then Ret (mkHttpResponse 301 "" (page ""))
      else Ret (mkHttpResponse 404 "text/plain; charset=utf-8" (line_ "404 page not found"))
  end.

(** ** The client *)

(** What may go wrong around one call: each look at the context, building the request,
    reaching the server and hearing from it, reading and closing the body. *)
Record connection : Type := mkConnection {
  ctxErr : nat → option error;
  unbuilt : option error;
  unsent : option error;
  unheard : option error;
  unread : option error;
  unclosed : option error
}.

Definition clean : connection := mkConnection (λ _, None) None None None None None.

Definition isHTTPRedirect (status : Z) : bool := (300 <=? status) && (status <=? 399).

Definition twirpErrorFromIntermediary (status : Z) (msg : string) : TwirpError :=
  let code :=
    if isHTTPRedirect status then codeName Internal
    else if status =? 400 then codeName Internal
    else if status =? 401 then "unauthenticated"
    else if status =? 403 then "permission_denied"
    else if status =? 404 then CodeBadRoute
    else if status =? 429 then "resource_exhausted"
    else if (status =? 502) || (status =? 503) || (status =? 504) then "unavailable"
    else "unknown" in
  mkTwirpError code msg.

(** [http.StatusText] and the [Location] header are only shown. *)
Definition errorFromResponse (c : connection) (statusText location : string) (resp : httpResponse) : TwirpError :=
  let status := p_Status resp in
  if isHTTPRedirect status then
    twirpErrorFromIntermediary status ("unexpected HTTP status code " +:+ decimal status +:+ " " +:+ quoted statusText
      +:+ " received, Location=" +:+ quoted location)
  else
    match unread c with
    | Some e => wrapInternal e "failed to read server error response body"
    | None =>
        let intermediary := twirpErrorFromIntermediary status
          ("Error from intermediary with HTTP status code " +:+ decimal status +:+ " " +:+ quoted statusText) in
        match readErrorJSON (p_Body resp) with
        | None => intermediary
        | Some err =>
            if bool_decide (tw_Code err = "") then intermediary
            else if negb (IsValidErrorCode (tw_Code err)) then
              mkTwirpError (codeName Internal) ("invalid type returned from server error response: " +:+ tw_Code err)
            else err
        end
    end.

Definition answered_ (A : Type) : Type := (A + TwirpError)%type.

Section client.
Variable server : httpRequest → prog httpResponse.
Variables statusText location : string.

(** [client.Do], without redirects. *)
Definition Do (c : connection) (req : httpRequest) : M httpResponse :=
  match unsent c with
  | Some e => Ret (Err e)
  | None => pbind (server req) (λ resp, Ret match unheard c with Some e => Err e | None => Ok resp end)
  end.

Definition newRequest (url : string) (enc : encoding) (b : body) : httpRequest :=
  mkRequest "POST" url (contentTypeOf enc) (Ok b) None.

Definition ended (c : connection) (look : nat) : option TwirpError :=
  (λ e, wrapInternal e "aborted because context was done") <$> ctxErr c look.

(** What a client makes of what it heard. *)
Definition readProtobuf (c : connection) (m : method) (r : result httpResponse) : answered_ (m_Resp m) :=
  match r with
  | Err e => inr (wrapInternal e "failed to do request")
  | Ok resp =>
      match ended c 1 with
      | Some err => inr err
      | None =>
          if bool_decide (p_Status resp ≠ 200) then inr (errorFromResponse c statusText location resp)
          else
            match unread c with
            | Some e => inr (wrapInternal e "failed to read response body")
            | None =>
                match ended c 2 with
                | Some err => inr err
                | None =>
                    match unmarshalResp m Protobuf (p_Body resp) with
                    | Err e => inr (wrapInternal e "failed to unmarshal proto response")
                    | Ok out => inl out
                    end
                end
            end
      end
  end.

Definition doProtobufRequest (c : connection) (url : string) (m : method) (x : m_Req m) : prog (answered_ (m_Resp m)) :=
  match marshalReq m Protobuf x with
  | Err e => Ret (inr (wrapInternal e "failed to marshal proto request"))
  | Ok reqBody =>
      match ended c 0 with
      | Some err => Ret (inr err)
      | None =>
          match unbuilt c with
          | Some e => Ret (inr (wrapInternal e "could not build request"))
          | None =>
              pbind (Do c (newRequest url Protobuf reqBody)) (λ r, Ret (readProtobuf c m r))
          end
      end
  end.

(** The deferred close turns a success into its own error. *)
Definition closing {A} (c : connection) (out : answered_ A) : answered_ A :=
  match out, unclosed c with
  | inl _, Some e => inr (wrapInternal e "failed to close response body")
  | _, _ => out
  end.

Definition readJSON (c : connection) (m : method) (r : result httpResponse) : answered_ (m_Resp m) :=
  match r with
  | Err e => inr (wrapInternal e "failed to do request")
  | Ok resp =>
      closing c
        match ended c 1 with
        | Some err => inr err
        | None =>
            if bool_decide (p_Status resp ≠ 200) then inr (errorFromResponse c statusText location resp)
            else
              match unread c with
              | Some e => inr (wrapInternal e "failed to unmarshal json response")
              | None =>
                  match unmarshalResp m JSON (p_Body resp) with
                  | Err e => inr (wrapInternal e "failed to unmarshal json response")
                  | Ok out => match ended c 2 with Some err => inr err | None => inl out end
                  end
              end
        end
  end.

Definition doJSONRequest (c : connection) (url : string) (m : method) (x : m_Req m) : prog (answered_ (m_Resp m)) :=
  match marshalReq m JSON x with
  | Err e => Ret (inr (wrapInternal e "failed to marshal json request"))
  | Ok reqBytes =>
      match ended c 0 with
      | Some err => Ret (inr err)
      | None =>
          match unbuilt c with
          | Some e => Ret (inr (wrapInternal e "could not build request"))
          | None =>
              pbind (Do c (newRequest url JSON reqBytes)) (λ r, Ret (readJSON c m r))
          end
      end
  end.

(** A method of the generated client, of either encoding, for a server at the root of
    its host. *)
Definition clientCall (enc : encoding) (c : connection) (s : service) (m : method) (x : m_Req m) : prog (answered_ (m_Resp m)) :=
  let url := PathPrefix s +:+ m_Name m in
  match enc with
  | Protobuf => doProtobufRequest c url m x
  | JSON => doJSONRequest c url m x
  end.
End client.
End template.

(** ** Routing *)

(** Names that can be parts of a path, and tell the services and their methods apart. *)
Definition wellNamed `{Codec, Http} (services : list service) : Prop :=
  NoDup (fullName <$> services) ∧
  Forall (λ s, s_Package s ≠ "" ∧ occurs slash (fullName s) = false ∧ NoDup (m_Name <$> s_Methods s) ∧
    Forall (λ m, occurs slash (m_Name m) = false) (s_Methods s)) services.

Section routing.
Context {C : Codec} {H : Http} {S : TwirpStatus}.

Lemma PathPrefix_eq (s : service) : s_Package s ≠ "" →
  PathPrefix s = "" +:+ String slash ("twirp" +:+ String slash (fullName s +:+ String slash "")).
Proof. intros Hp. unfold PathPrefix, baseServicePath. by rewrite bool_decide_false. Qed.

Lemma Split_under (s : service) rest : s_Package s ≠ "" → occurs slash (fullName s) = false →
  Split slash (PathPrefix s +:+ rest) = "" :: "twirp" :: fullName s :: Split slash rest.
Proof.
  intros Hp Hn. rewrite PathPrefix_eq by done. change (("" +:+ String slash ?a) +:+ rest) with ("" +:+ String slash (a +:+ rest)).
  rewrite Split_app by done. change ((?x +:+ String slash ?a) +:+ rest) with (x +:+ String slash (a +:+ rest)).
  rewrite Split_app by done. rewrite append_assoc.
  change (String slash "" +:+ rest) with (String slash rest). by rewrite Split_app.
Qed.

Lemma parse_own (s : service) name : s_Package s ≠ "" → occurs slash (fullName s) = false → occurs slash name = false →
  parseTwirpPath (PathPrefix s +:+ name) = (pathPrefix, fullName s, name).
Proof. intros Hp Hn Hm. unfold parseTwirpPath. rewrite Split_under, (Split_single _ name) by done. done. Qed.

Lemma prefix_inv a b : String.prefix a b = true → ∃ rest, b = a +:+ rest.
Proof.
  revert b. induction a as [|x a IH]; intros b Hp; [by exists b|]. destruct b as [|y b]; [done|]. simpl in Hp.
  destruct (Ascii.ascii_dec x y) as [->|]; [|done]. destruct (IH b Hp) as (rest & ->). by exists rest.
Qed.

Lemma prefix_app a b : String.prefix a (a +:+ b) = true.
Proof.
  induction a as [|x a IH]; [by destruct b|]. change (String.prefix (String x a) (String x (a +:+ b)) = true). simpl.
  by destruct (Ascii.ascii_dec x x).
Qed.

(** Every service has the paths below its prefix, and only those. *)
Lemma mounted_own (services : list service) s name :
  wellNamed services → s ∈ services → occurs slash name = false → mounted services (PathPrefix s +:+ name) = Some s.
Proof.
  intros [Hnd Hall] Hin Hname. rewrite Forall_forall in Hall. unfold mounted.
  destruct (list_find _ services) as [[i s']|] eqn:Hf.
  - apply list_find_Some in Hf as (Hi & Hp & _). simpl. f_equal. apply list_elem_of_lookup in Hin as [j Hj].
    apply prefix_inv in Hp as (rest & Heq). destruct (Hall s) as (Hp1 & Hn1 & _); [by eapply list_elem_of_lookup_2|].
    destruct (Hall s') as (Hp2 & Hn2 & _); [by eapply list_elem_of_lookup_2|].
    pose proof (f_equal (Split slash) Heq) as Hs. rewrite !Split_under in Hs by done. injection Hs as Hfull _.
    assert (i = j) as ->; [|by simplify_eq].
    eapply NoDup_lookup; [exact Hnd|..]; rewrite list_lookup_fmap; [rewrite Hi; reflexivity | rewrite Hj; simpl; by f_equal].
  - apply list_find_None in Hf. rewrite Forall_forall in Hf. exfalso. apply (Hf s Hin), prefix_app.
Qed.
End routing.

(** ** A call through it all is the call of the handler *)

(** What is left of an answer when it has been written and read. *)
Definition onWire `{Http} {A} (r : result A) : answered_ A :=
  match r with
  | Ok x => inl x
  | Err e => inr (mkTwirpError (twirpCode (Some e)) (asUTF8 (shorten (e_msg e))))
  end.

(** Nothing went wrong around the call, and its messages could be written. *)
Definition calm (c : connection) : Prop :=
  (∀ n, ctxErr c n = None) ∧ unbuilt c = None ∧ unsent c = None ∧ unheard c = None ∧ unread c = None ∧ unclosed c = None.
Definition encodes `{Codec, Http} (enc : encoding) (m : method) (x : m_Req m) : Prop :=
  (∃ b, marshalReq m enc x = Ok b) ∧ ∀ resp, ∃ b, marshalResp m enc resp = Ok b.

Definition internal {A} (out : answered_ A) : Prop := ∃ err, out = inr err ∧ tw_Code err = codeName Internal.

(** What a call leaves its client with: the handler's answer, or, if something went
    wrong, an internal error. *)
Definition told `{Codec, Http} (enc : encoding) (c : connection) (m : method) (x : m_Req m)
    (answers : result (m_Resp m) → Prop) (out : answered_ (m_Resp m)) : Prop :=
  (∃ r, answers r ∧ out = onWire r) ∨ (¬ (calm c ∧ encodes enc m x) ∧ internal out).

Section transparent.
Context {C : Codec} {H : Http} {S : TwirpStatus} {HL : HttpLaws H S} {L : LedgerClient}.
Context (legal : World → string → list Event → list message → Prop).
Context (intercept : service → ∀ m : method, m_Req m → M (m_Resp m) → M (m_Resp m)).
Context (services : list service) (named : wellNamed services).
Context (ping : option error) (statusText location : string).

(** Interceptors that do not stand in the way of what they wrap. *)
Definition passes (s : service) (m : method) : Prop := ∀ x p Q w, safe legal p Q w → safe legal (intercept s m x p) Q w.

Notation mux := (newMux intercept services ping).

(** A client's request arrives at its method. *)
Lemma routed s m enc b : s ∈ services → m ∈ s_Methods s →
  mux (newRequest (PathPrefix s +:+ m_Name m) enc b) =
    match enc with JSON => serveMethodJSON intercept s m | Protobuf => serveMethodProtobuf intercept s m end
      (newRequest (PathPrefix s +:+ m_Name m) enc b).
Proof.
  intros Hs Hm. pose proof named as [_ Hall]. rewrite Forall_forall in Hall. destruct (Hall s Hs) as (Hp & Hn & Hnd & Hms).
  rewrite Forall_forall in Hms. specialize (Hms m Hm). unfold newMux. cbn [h_Path newRequest]. rewrite mounted_own by done.
  unfold ServeHTTP. cbn [h_Method h_Path newRequest]. rewrite (bool_decide_false ("POST" ≠ "POST")) by (intros Hne; by apply Hne).
  rewrite parse_own by done. rewrite !bool_decide_false by (intros Hne; by apply Hne).
  destruct (list_find _ (s_Methods s)) as [[i m']|] eqn:Hf.
  - apply list_find_Some in Hf as (Hi & Heq & _). apply list_elem_of_lookup in Hm as [j Hj].
    assert (i = j) as ->.
    { eapply NoDup_lookup; [exact Hnd|..]; rewrite list_lookup_fmap; [rewrite Hi; reflexivity | rewrite Hj; simpl; by f_equal]. }
    simplify_eq. unfold serveMethod. cbn [h_ContentType newRequest]. by destruct enc.
  - apply list_find_None in Hf. rewrite Forall_forall in Hf. by destruct (Hf m Hm).
Qed.

(** An error that is written reads back. *)
Lemma error_read c err : IsValidErrorCode (tw_Code err) = true → tw_Code err ≠ "" →
  p_Status (writeTwirpError err) ≠ 200 ∧
  (unread c = None → errorFromResponse c statusText location (writeTwirpError err) =
     mkTwirpError (tw_Code err) (asUTF8 (shorten (tw_Msg err)))).
Proof.
  intros Hv Hne. pose proof (status_refused _ Hv) as Hst. split; [simpl; lia|]. intros Hr. unfold errorFromResponse.
  simpl p_Status. unfold isHTTPRedirect. replace ((300 <=? serverStatus (tw_Code err)) && (serverStatus (tw_Code err) <=? 399))
    with false by lia. rewrite Hr. simpl p_Body. unfold marshalErrorToJSON. rewrite readErrorJSON_errorJSON. simpl.
  by rewrite bool_decide_false, Hv.
Qed.

Lemma twirpCode_valid e : IsValidErrorCode (twirpCode (Some e)) = true ∧ twirpCode (Some e) ≠ "".
Proof. unfold twirpCode. destruct (e_code e) as [c|]; (split; [apply valid_codes|]); [by destruct c | done]. Qed.

Lemma ended_inv c n err : ended c n = Some err → tw_Code err = codeName Internal ∧ ¬ calm c.
Proof.
  unfold ended. destruct (ctxErr c n) as [e|] eqn:He; [|done]. intros [= <-]. split; [done|].
  intros (Hc & _). by rewrite Hc in He.
Qed.

Lemma told_trouble enc c m x answers err :
  tw_Code err = codeName Internal → ¬ (calm c ∧ encodes enc m x) → told enc c m x answers (inr err).
Proof. intros Hi Hn. right. split; [done|]. by exists err. Qed.

Lemma told_uncalm enc c m x answers err : tw_Code err = codeName Internal → ¬ calm c → told enc c m x answers (inr err).
Proof. intros Hi Hn. apply told_trouble; [done|]. by intros [? _]. Qed.

(** An error heard is told as it was, or as an internal one if it cannot be read. *)
Lemma told_error enc c m x (answers : result (m_Resp m) → Prop) err :
  IsValidErrorCode (tw_Code err) = true → tw_Code err ≠ "" →
  (unread c = None → told enc c m x answers (inr (mkTwirpError (tw_Code err) (asUTF8 (shorten (tw_Msg err)))))) →
  told enc c m x answers (inr (errorFromResponse c statusText location (writeTwirpError err))).
Proof.
  intros Hv Hne Ht. destruct (unread c) as [e|] eqn:Hr.
  - apply told_uncalm; [|intros (_ & _ & _ & _ & ? & _); congruence]. unfold errorFromResponse. rewrite Hr. simpl p_Status.
    pose proof (status_refused _ Hv). unfold isHTTPRedirect.
    by replace ((300 <=? serverStatus (tw_Code err)) && (serverStatus (tw_Code err) <=? 399)) with false by lia.
  - destruct (error_read c err Hv Hne) as [_ ->]; auto.
Qed.

Lemma told_written enc c m x r :
  match r with
  | Ok resp => ∀ e prefix, marshalResp m enc resp = Err e →
      told enc c m x (λ r', r' = r) (inr (errorFromResponse c statusText location (writeTwirpError (wrapInternal e prefix))))
  | Err e => told enc c m x (λ r', r' = r) (inr (errorFromResponse c statusText location (writeError e)))
  end.
Proof.
  destruct r as [resp|e].
  - intros e prefix He. apply told_error; [apply (valid_codes Internal)|done|]. intros _. apply told_trouble; [done|].
    intros [_ [_ Hm]]. destruct (Hm resp) as [b Hb]. congruence.
  - destruct (twirpCode_valid e). apply told_error; [done|done|]. intros _. left. by exists (Err e).
Qed.

Lemma refused_status err : IsValidErrorCode (tw_Code err) = true → bool_decide (p_Status (writeTwirpError err) ≠ 200) = true.
Proof. intros Hv. apply bool_decide_true. pose proof (status_refused _ Hv). simpl. lia. Qed.

(** What was replied is read. *)
Lemma read_replyProtobuf c m x r : codec_ok m →
  told Protobuf c m x (λ r', r' = r) (readProtobuf statusText location c m (Ok (replyProtobuf m r))).
Proof.
  intros [_ Hdec]. unfold readProtobuf. destruct (ended c 1) as [err|] eqn:H1.
  { destruct (ended_inv _ _ _ H1). by apply told_uncalm. }
  pose proof (told_written Protobuf c m x r) as Hw. destruct r as [resp|e]; unfold replyProtobuf.
  2:{ unfold writeError in *. rewrite refused_status by apply twirpCode_valid. exact Hw. }
  destruct (marshalResp m Protobuf resp) as [b|e] eqn:Hm; [|rewrite refused_status by apply (valid_codes Internal); by apply Hw].
  rewrite bool_decide_false by by intros []. destruct (unread c) as [e|] eqn:Hr.
  { apply told_uncalm; [done|]. intros (_ & _ & _ & _ & ? & _). congruence. }
  destruct (ended c 2) as [err|] eqn:H2; [destruct (ended_inv _ _ _ H2); by apply told_uncalm|].
  cbn [p_Body]. rewrite (Hdec Protobuf resp b Hm). left. by exists (Ok resp).
Qed.

Lemma read_replyJSON c m x r : codec_ok m →
  told JSON c m x (λ r', r' = r) (readJSON statusText location c m (Ok (replyJSON m r))).
Proof.
  intros [_ Hdec]. unfold readJSON. destruct (ended c 1) as [err|] eqn:H1.
  { destruct (ended_inv _ _ _ H1). by apply told_uncalm. }
  pose proof (told_written JSON c m x r) as Hw. destruct r as [resp|e]; unfold replyJSON.
  2:{ unfold writeError in *. rewrite refused_status by apply twirpCode_valid. exact Hw. }
  destruct (marshalResp m JSON resp) as [b|e] eqn:Hm; [|rewrite refused_status by apply (valid_codes Internal); by apply Hw].
  rewrite bool_decide_false by by intros []. destruct (unread c) as [e|] eqn:Hr.
  { apply told_uncalm; [done|]. intros (_ & _ & _ & _ & ? & _). congruence. }
  cbn [p_Body]. rewrite (Hdec JSON resp b Hm).
  destruct (ended c 2) as [err|] eqn:H2; [destruct (ended_inv _ _ _ H2); by apply told_uncalm|].
  unfold closing. destruct (unclosed c) as [e|] eqn:Hu; [|left; by exists (Ok resp)].
  apply told_uncalm; [done|]. intros (_ & _ & _ & _ & _ & ?). congruence.
Qed.

(** What holds when a program returns goes on holding until it is used. *)
Lemma safe_settled {A} (p : prog A) Q w :
  safe legal p Q w → safe legal p (λ a w', ∀ w'', rely legal w' w'' → Q a w'') w.
Proof.
  revert w. induction p as [a|o k IH]; simpl; intros w Hs w1 H1; [|intros r w2 He].
  - intros w'' H2. apply Hs. by etrans.
  - destruct (Hs w1 H1 r w2 He). split; [done|]. by apply IH.
Qed.

Lemma safe_map {A B} (p : prog A) (f : A → B) Q w :
  safe legal p (λ a w', Q (f a) w') w → safe legal (pbind p (λ a, Ret (f a))) Q w.
Proof.
  intros Hs. apply safe_pbind. eapply safe_mono; [|by apply safe_settled]. intros a w' _ Ha w'' Hr. by apply Ha.
Qed.

Lemma told_mono enc c m x (answers answers' : result (m_Resp m) → Prop) out :
  (∀ r, answers r → answers' r) → told enc c m x answers out → told enc c m x answers' out.
Proof. intros Hr [(r & Ha & ->)|Ht]; [left; eauto | by right]. Qed.

(** The exchange itself: a request on its way, its method run, its reply read. *)
Lemma exchange_safe s m enc c x b Q w :
  s ∈ services → m ∈ s_Methods s → codec_ok m → passes s m → marshalReq m enc x = Ok b →
  safe legal (m_call m x) Q w →
  safe legal (pbind (Do mux c (newRequest (PathPrefix s +:+ m_Name m) enc b))
    (λ r, Ret (match enc with JSON => readJSON statusText location c m r | Protobuf => readProtobuf statusText location c m r end)))
    (λ out w', told enc c m x (λ r, Q r w') out) w.
Proof.
  intros Hs Hm Hok Hpass Hb Hsafe. apply safe_map. unfold Do. destruct (unsent c) as [e|] eqn:Hu.
  { intros w' _. destruct enc; (apply told_uncalm; [done|]; intros (_ & _ & ? & _); congruence). }
  apply safe_map. rewrite routed by done. pose proof Hok as [Hreq _].
  assert (∀ r w', Q r w' → told enc c m x (λ r, Q r w') match enc with
      | JSON => readJSON statusText location c m (match unheard c with Some e => Err e | None => Ok (replyJSON m r) end)
      | Protobuf => readProtobuf statusText location c m (match unheard c with Some e => Err e | None => Ok (replyProtobuf m r) end)
      end) as Hread.
  { intros r w' HQ. destruct (unheard c) as [e|] eqn:Hh.
    - destruct enc; (apply told_uncalm; [done|]; intros (_ & _ & _ & ? & _); congruence).
    - destruct enc; (eapply told_mono; [|by first [apply read_replyJSON | apply read_replyProtobuf]]); by intros ? ->. }
  destruct enc; unfold serveMethodJSON, serveMethodProtobuf; cbn [h_Body newRequest]; rewrite (Hreq _ _ _ Hb); apply safe_map;
    (eapply safe_mono; [|by apply Hpass]); intros r w' _ HQ; by apply (Hread r w').
Qed.

Lemma clientCall_safe s m enc c x Q w :
  s ∈ services → m ∈ s_Methods s → codec_ok m → passes s m → safe legal (m_call m x) Q w →
  safe legal (clientCall mux statusText location enc c s m x) (λ out w', told enc c m x (λ r, Q r w') out) w.
Proof.
  intros Hs Hm Hok Hpass Hsafe. pose proof (λ b, exchange_safe s m enc c x b Q w Hs Hm Hok Hpass) as Hx.
  destruct enc; unfold clientCall, doJSONRequest, doProtobufRequest.
  all: destruct (marshalReq m _ x) as [b|e] eqn:Hb;
    [|intros w' _; apply told_trouble; [done|]; intros [_ [[b Hb'] _]]; congruence].
  all: destruct (ended c 0) as [err|] eqn:H0; [destruct (ended_inv _ _ _ H0); intros w' _; by apply told_uncalm|].
  all: destruct (unbuilt c) as [e|] eqn:Hu;
    [intros w' _; apply told_uncalm; [done|]; intros (_ & ? & _); congruence | by apply Hx].
Qed.

(** Whatever is sent to the server, it runs nothing but its methods. *)
Lemma newMux_safe req w :
  (∀ s m x w', s ∈ services → m ∈ s_Methods s → rely legal w w' →
     passes s m ∧ safe legal (m_call m x) (λ _ _, True) w') →
  safe legal (mux req) (λ _ _, True) w.
Proof.
  intros Hall. assert (∀ resp, safe legal (Ret resp) (λ (_ : httpResponse) _, True) w) as Hret by done.
  assert (∀ s m content (f : result (m_Resp m) → httpResponse), s ∈ services → m ∈ s_Methods s →
    safe legal (pbind (intercept s m content (m_call m content)) (λ r, Ret (f r))) (λ _ _, True) w) as Hcall.
  { intros s m content f Hs Hm. apply safe_map. destruct (Hall s m content w Hs Hm) as [Hp Hc]; [reflexivity|]. by apply Hp. }
  unfold newMux, mounted. destruct (list_find _ services) as [[i s]|] eqn:Hs; simpl.
  2:{ destruct (bool_decide _); [done|]. by destruct (slashless _ _). }
  apply list_find_Some in Hs as (Hs%list_elem_of_lookup_2 & _). unfold ServeHTTP. destruct (bool_decide _); [done|].
  destruct (parseTwirpPath (h_Path req)) as [[prefix pkgService] name]. destruct (bool_decide _); [done|].
  destruct (bool_decide _); [done|]. destruct (list_find _ (s_Methods s)) as [[i' m]|] eqn:Hm; [|done].
  apply list_find_Some in Hm as (Hm%list_elem_of_lookup_2 & _). unfold serveMethod.
  destruct (bool_decide _); [|destruct (bool_decide _); [|done]]; unfold serveMethodJSON, serveMethodProtobuf;
    (destruct (h_Body req) as [raw|]; [|done]); (destruct (unmarshalReq m _ raw) as [content|]; [|done]); by apply Hcall.
Qed.
End transparent.

(** ** The interceptor and ports of [newMux] *)

(** [telemetry.Interceptor] around the handler, whose store and ledger are the
    instrumented ones; [t] is what had been recorded before. *)
Section telemetered.
Context {C : Codec} {H : Http} {S : TwirpStatus} {L : LedgerClient}.
Context (canceled : bool) (direct : StreamWrite → bool) (t : Rec).
Context (legal : World → string → list Event → list message → Prop).

Definition telemetered (s : service) (m : method) (x : m_Req m) (handler : M (m_Resp m)) : M (m_Resp m) :=
  pbind (Interceptor (s_Package s) (s_Name s) (m_Name m) (m_id m x) (instrument canceled direct handler) t) (λ y, Ret (snd y)).

Lemma safe_time {A} (k : Z → prog A) Q w :
  (∀ z w', rely legal w w' → safe legal (k z) Q w') → safe legal (pbind timeNow k) Q w.
Proof.
  intros Hk. apply safe_pbind, safe_quiet; [done|]. intros w1 r w2 H1 _ H2 w3 H3. apply Hk. etrans; [exact H1|]. by etrans.
Qed.

Lemma telemetered_passes s m : passes legal telemetered s m.
Proof.
  intros x p Q w Hs. unfold telemetered. apply safe_pbind. unfold Interceptor, tbind, inner, telling, tret, durationOf.
  apply safe_pbind, safe_time. intros began w1 H1 w2 H2. cbn [pbind fst snd].
  apply safe_pbind. eapply safe_mono; [|apply (instrument_keeps canceled direct legal p), safe_settled].
  2:{ eapply safe_rely; [|exact Hs]. by etrans. }
  intros y w3 H3 [HQ _]. cbn [pbind fst snd]. apply safe_pbind, safe_pbind, safe_time.
  intros now w4 H4 w5 H5. cbn [pbind fst snd]. intros w6 H6 w7 H7 w8 H8. apply HQ. etrans; [exact H4|].
  etrans; [exact H5|]. etrans; [exact H6|]. by etrans.
Qed.
End telemetered.

(** ** The five services *)

(** A protobuf message: how it is written and read in both encodings. *)
Class ProtoMessage `{Http} (A : Type) : Type := {
  marshalMessage : encoding → A → result body;
  unmarshalMessage : encoding → body → result A
}.
Class ProtoMessageLaws `{Http} (A : Type) {P : ProtoMessage A} : Prop :=
  unmarshal_marshal : ∀ enc (x : A) b, marshalMessage enc x = Ok b → unmarshalMessage enc b = Ok x.

Section services.
Context {C : Codec} {U : UuidPackage} {S256 : Sha256} {H : Http}.

Definition rpc {A B} `{!ProtoMessage A, !ProtoMessage B} (name : string) (handler : A → M B) (id : A → option string) : method :=
  mkMethod name A B handler id marshalMessage unmarshalMessage marshalMessage unmarshalMessage.

Lemma rpc_codec {A B} `{!ProtoMessage A, !ProtoMessage B, !ProtoMessageLaws A, !ProtoMessageLaws B} name (handler : A → M B) id :
  codec_ok (rpc name handler id).
Proof. split; intros enc x b; apply unmarshal_marshal. Qed.

(** The messages, as the model has them. *)
Definition EstablishRequest : Type := string * gmap string Memo.
Definition EstablishResponse : Type := string * message.
Definition AddWalletRequest : Type := string * Holder.WalletSpec.
Definition AddWalletResponse : Type := message + Holder.HolderRejectedWallet.
Definition ProvisionRequest : Type := string * gmap string Memo * list Holder.WalletSpec.
Definition ProvisionResponse : Type := list string + string.
Definition IdRequest : Type := string.
Definition IdReasonRequest : Type := string * string.
Definition StateResponse : Type := TransactionState * string.

Class Messages : Type := {
  pm_EstablishRequest :: ProtoMessage EstablishRequest;
  pm_EstablishResponse :: ProtoMessage EstablishResponse;
  pm_AddWalletRequest :: ProtoMessage AddWalletRequest;
  pm_AddWalletResponse :: ProtoMessage AddWalletResponse;
  pm_ProvisionRequest :: ProtoMessage ProvisionRequest;
  pm_ProvisionResponse :: ProtoMessage ProvisionResponse;
  pm_OpenRequest :: ProtoMessage Wallet.OpenRequest;
  pm_OpenResponse :: ProtoMessage Wallet.OpenResponse;
  pm_MintRequest :: ProtoMessage Token.MintRequest;
  pm_MintResponse :: ProtoMessage Token.MintResponse;
  pm_RequestTransfer :: ProtoMessage RequestTransferRequest;
  pm_RequestReversal :: ProtoMessage RequestReversalRequest;
  pm_IdRequest :: ProtoMessage IdRequest;
  pm_IdReasonRequest :: ProtoMessage IdReasonRequest;
  pm_response :: ProtoMessage response;
  pm_Initialized :: ProtoMessage Initialized;
  pm_TransactionResponse :: ProtoMessage TransactionResponse;
  pm_StateResponse :: ProtoMessage StateResponse;
  pm_TransactionState :: ProtoMessage TransactionState
}.

Context {P : Messages} (fuel : nat).

Definition HolderService : service := mkService "holder.v1" "HolderService"
  [ rpc (A := EstablishRequest) (B := EstablishResponse) "Establish" (λ x, Holder.Establish x.1 x.2) (λ x, Some x.1);
    rpc (A := AddWalletRequest) (B := AddWalletResponse) "AddWallet" (λ x, Holder.AddWallet x.1 x.2) (λ x, Some x.1);
    rpc (A := ProvisionRequest) (B := ProvisionResponse) "Provision" (λ x, Holder.Provision x.1.1 x.1.2 x.2) (λ x, Some x.1.1) ].

Definition WalletService : service := mkService "wallet.v1" "WalletService"
  [ rpc "Open" Wallet.Open (λ x, Some (Wallet.or_Id x)) ].

Definition TokenService : service := mkService "token.v1" "TokenService"
  [ rpc "Mint" Token.Mint (λ x, Some (Token.mq_Id x)) ].

(** [saga.Wire]'s two servers, and the methods of theirs [cmd/simulate] calls. *)
Definition requestTransferMethod : method := rpc "RequestTransfer" (RequestTransfer transferServer) (λ x, Some (rt_Id x)).
Definition confirmMethod : method := rpc (A := IdRequest) "ConfirmStagedTransfer" (ConfirmStagedTransfer fuel) Some.
Definition cancelMethod : method :=
  rpc (A := IdReasonRequest) "CancelStagedTransfer" (λ x, CancelStagedTransfer fuel x.1 x.2) (λ x, Some x.1).
Definition postMethod : method := rpc (A := IdRequest) "PostPendingTransfer" (PostPendingTransfer fuel) Some.
Definition startMethod : method :=
  rpc "StartInitializingTransaction" (StartInitializingTransaction (transferClient fuel)) (λ x, Some (in_Id x)).
Definition stateMethod : method := rpc (A := IdRequest) (B := StateResponse) "GetTransactionState" GetTransactionState Some.
Definition rollbackMethod : method :=
  rpc (A := IdReasonRequest) "StartTransactionRollback" (λ x, StartTransactionRollback fuel x.1 x.2) (λ x, Some x.1).

Definition TransferService_ : service := mkService "transfer.v1" "TransferService"
  [ requestTransferMethod;
    rpc (A := IdReasonRequest) "CancelAcceptedTransfer" (λ x, CancelAcceptedTransfer fuel x.1 x.2) (λ x, Some x.1);
    rpc "RequestReversal" RequestReversal (λ x, Some (rr_Id x));
    confirmMethod; cancelMethod; postMethod ].

Definition TransactionService_ : service := mkService "transaction.v1" "TransactionService"
  [ startMethod; stateMethod; rollbackMethod ].

(** In the order [newMux] mounts them. *)
Definition services : list service := [HolderService; WalletService; TokenService; TransactionService_; TransferService_].

Lemma services_named : wellNamed services.
Proof. split; [decided|]. repeat constructor; try decided; done. Qed.
End services.

(** ** The services over HTTP *)

Class MessagesLaws `{Http} (P : Messages) : Prop := {
  pl_EstablishRequest :: ProtoMessageLaws EstablishRequest;
  pl_EstablishResponse :: ProtoMessageLaws EstablishResponse;
  pl_AddWalletRequest :: ProtoMessageLaws AddWalletRequest;
  pl_AddWalletResponse :: ProtoMessageLaws AddWalletResponse;
  pl_ProvisionRequest :: ProtoMessageLaws ProvisionRequest;
  pl_ProvisionResponse :: ProtoMessageLaws ProvisionResponse;
  pl_OpenRequest :: ProtoMessageLaws Wallet.OpenRequest;
  pl_OpenResponse :: ProtoMessageLaws Wallet.OpenResponse;
  pl_MintRequest :: ProtoMessageLaws Token.MintRequest;
  pl_MintResponse :: ProtoMessageLaws Token.MintResponse;
  pl_RequestTransfer :: ProtoMessageLaws RequestTransferRequest;
  pl_RequestReversal :: ProtoMessageLaws RequestReversalRequest;
  pl_IdRequest :: ProtoMessageLaws IdRequest;
  pl_IdReasonRequest :: ProtoMessageLaws IdReasonRequest;
  pl_response :: ProtoMessageLaws response;
  pl_Initialized :: ProtoMessageLaws Initialized;
  pl_TransactionResponse :: ProtoMessageLaws TransactionResponse;
  pl_StateResponse :: ProtoMessageLaws StateResponse;
  pl_TransactionState :: ProtoMessageLaws TransactionState
}.

Section remote.
Context {C : Codec} {CL : CodecLaws C} {U : UuidPackage} {S256 : Sha256} {L : LedgerClient}.
Context {H : Http} {S : TwirpStatus} {HL : HttpLaws H S} {P : Messages} {PL : MessagesLaws P}.
Context (fuel : nat) (canceled : bool) (direct : StreamWrite → bool) (t : Rec).
Context (ping : option error) (statusText location : string).

(** [newMux] as [serve] makes it. *)
Definition served : httpRequest → prog httpResponse := newMux (telemetered canceled direct t) (services fuel) ping.

Lemma services_codec s m : s ∈ services fuel → m ∈ s_Methods s → codec_ok m.
Proof.
  intros Hs Hm. assert (Forall (λ s, Forall codec_ok (s_Methods s)) (services fuel)) as Hall.
  { repeat constructor; intros ???; apply unmarshal_marshal. }
  rewrite Forall_forall in Hall. specialize (Hall s Hs). rewrite Forall_forall in Hall. by apply Hall.
Qed.

(** C14. A call over HTTP is the call of its handler. For every method of the five services, in
    either encoding, through the generated client, the network, the mux, the generated
    server, the interceptor and the instrumented ports: whatever is guaranteed of the
    handler's answer, whatever runs beside it, is guaranteed of the answer the client
    is given, which is the handler's, an error's code and text included; or, if the
    connection failed at some point, the context ended, or a message could not be
    written, it is an internal error. *)
Theorem rpc_transparent enc c s m x Q w :
  s ∈ services fuel → m ∈ s_Methods s → safe legal (m_call m x) Q w →
  safe legal (clientCall served statusText location enc c s m x) (λ out w', told enc c m x (λ r, Q r w') out) w.
Proof.
  intros Hs Hm. apply clientCall_safe; [apply services_named|done|done|by eapply services_codec|apply telemetered_passes].
Qed.

(** Every method keeps to the protocol. *)
Lemma methods_safe s m x w :
  txok w → s ∈ services fuel → m ∈ s_Methods s → safe legal (m_call m x) (λ _ _, True) w.
Proof.
  intros Hok Hs Hm. assert (Forall (λ s, Forall (λ m, ∀ x, safeM legal (m_call m x) (λ _ _, True) w) (s_Methods s)) (services fuel)) as Hall.
  { repeat apply Forall_cons_2; try apply Forall_nil_2; intros y; cbn [m_call rpc].
    - by apply (Establish_conforms legal).
    - by apply (AddWallet_conforms legal).
    - by apply (Provision_conforms legal).
    - by apply (Open_conforms legal).
    - by apply (Mint_conforms legal).
    - eapply safeM_mono; [by apply (StartInitializingTransaction_initiated legal _ (transferClient_ok fuel))|done].
    - by apply (GetTransactionState_conforms legal).
    - by apply (StartTransactionRollback_safe legal).
    - apply (RequestTransfer_conforms legal), transferServer_ok.
    - apply (CancelAcceptedTransfer_conforms legal).
    - apply (RequestReversal_conforms legal).
    - apply (ConfirmStagedTransfer_conforms legal).
    - apply (CancelStagedTransfer_conforms legal).
    - apply (PostPendingTransfer_conforms legal). }
  rewrite Forall_forall in Hall. specialize (Hall s Hs). rewrite Forall_forall in Hall.
  eapply safe_mono; [|by apply (Hall m Hm x)]. done.
Qed.

(** Whatever request reaches the server, from whomever, what it runs keeps to the
    protocol. *)
Theorem served_safe conf req : reachable conf → safe legal (served req) (λ _ _, True) (fst conf).
Proof.
  intros Hc. apply newMux_safe. intros s m x w' Hs Hm Hr. split; [apply telemetered_passes|].
  apply (methods_safe s m x w'); [|done|done]. eapply (txok_stable legal); [exact Hr | by apply reachable_txok].
Qed.

(** *** The clients of [cmd/simulate] *)

Definition codeOf (name : string) : option twirp_code :=
  snd <$> list_find (λ c, codeName c = name) [Internal; InvalidArgument; FailedPrecondition; NotFound; Aborted].
Definition fromTwirp (err : TwirpError) : error := mkError (codeOf (tw_Code err)) [] (tw_Msg err).

(** A call of the protobuf client; [conn] is how the connection behaves for it. *)
Context (conn : connection).

Definition remote (s : service) (m : method) (x : m_Req m) : M (m_Resp m) :=
  pbind (clientCall served statusText location Protobuf conn s m x)
    (λ out, Ret match out with inl y => Ok y | inr err => Err (fromTwirp err) end).

Definition remoteTransactions : TransactionService :=
  mkTransactionService (remote (TransactionService_ fuel) (startMethod fuel))
    (remote (TransactionService_ fuel) stateMethod)
    (λ id reason, remote (TransactionService_ fuel) (rollbackMethod fuel) (id, reason)).

Definition remoteTransfers : TransferService :=
  mkTransferService (remote (TransferService_ fuel) requestTransferMethod)
    (remote (TransferService_ fuel) (confirmMethod fuel))
    (λ id reason, remote (TransferService_ fuel) (cancelMethod fuel) (id, reason))
    (remote (TransferService_ fuel) (postMethod fuel)).

Lemma remote_safe s m x (Q : m_Resp m → World → Prop) w :
  s ∈ services fuel → m ∈ s_Methods s → safeM legal (m_call m x) Q w → safeM legal (remote s m x) Q w.
Proof.
  intros Hs Hm Hsafe. unfold safeM, remote. apply safe_map.
  eapply safe_mono; [|apply clientCall_safe; [apply services_named|exact Hs|exact Hm|by eapply services_codec|apply telemetered_passes|exact Hsafe]].
  intros out w' _ [([y|e] & HQ & ->)|(_ & err & -> & _)]; done.
Qed.

(** What the drivers of [cmd/simulate] need of the services holds of the services
    reached over HTTP. *)
Theorem remote_services_ok leg :
  (∀ id w, txok w → safeM legal (leg id) (outcomeFact id) w) → ServicesOk legal remoteTransactions remoteTransfers leg.
Proof.
  intros Hleg. pose proof (handlers_ok legal fuel leg (transferClient_ok fuel) transferServer_ok Hleg) as Hok.
  assert (TransactionService_ fuel ∈ services fuel) as H1 by (do 3 right; by left).
  assert (TransferService_ fuel ∈ services fuel) as H2 by (do 4 right; by left).
  pose proof (λ m x Q w, remote_safe (TransactionService_ fuel) m x Q w H1) as Htx.
  pose proof (λ m x Q w, remote_safe (TransferService_ fuel) m x Q w H2) as Htr. split.
  - intros req w Hw. apply (Htx (startMethod fuel) req); [by left | exact (so_start legal req w Hw)].
  - intros id w Hw. apply (Htx stateMethod id); [right; by left | exact (so_state legal id w Hw)].
  - intros id reason w Hw. apply (Htx (rollbackMethod fuel) (id, reason)); [do 2 right; by left | exact (so_rollback legal id reason w Hw)].
  - intros req w Hw. apply (Htr requestTransferMethod req); [by left | exact (so_request legal req w Hw)].
  - intros id w Hw. apply (Htr (confirmMethod fuel) id); [do 3 right; by left | exact (so_confirm legal id w Hw)].
  - intros id reason w Hw. apply (Htr (cancelMethod fuel) (id, reason)); [do 4 right; by left | exact (so_cancel legal id reason w Hw)].
  - intros id w Hw. apply (Htr (postMethod fuel) id); [do 5 right; by left | exact (so_post legal id w Hw)].
  - exact Hleg.
Qed.
End remote.

(** ** The theorem at work *)

(** Bodies as what they are written from; only one method's messages can be written. *)
Inductive sampleBody : Type :=
| BRequest (x : RequestTransferRequest) | BResponse (x : response) | BError (err : TwirpError) | BPage (text : string).

#[local] Instance sampleHttp : Http := {|
  body := sampleBody;
  errorJSON := BError;
  readErrorJSON b := match b with BError err => Some err | _ => None end;
  asUTF8 s := s;
  page := BPage;
  IsValidErrorCode code := negb (bool_decide (code = ""))
|}.

#[local] Instance sampleTable : TwirpStatus := λ code, if bool_decide (code = "internal") then 500 else 400.
#[local] Instance sampleHttpLaws : HttpLaws sampleHttp sampleTable.
Proof. split; [by intros []|by intros []|]. intros c _. unfold serverStatus, sampleTable. case_bool_decide; lia. Qed.

Definition unwritable {A} : ProtoMessage A :=
  {| marshalMessage _ _ := Err (plain "unwritable"); unmarshalMessage _ _ := Err (plain "unreadable") |}.

#[local] Instance sampleMessages : Messages := {|
  pm_EstablishRequest := unwritable; pm_EstablishResponse := unwritable; pm_AddWalletRequest := unwritable;
  pm_AddWalletResponse := unwritable; pm_ProvisionRequest := unwritable; pm_ProvisionResponse := unwritable;
  pm_OpenRequest := unwritable; pm_OpenResponse := unwritable; pm_MintRequest := unwritable; pm_MintResponse := unwritable;
  pm_RequestTransfer := {| marshalMessage _ x := Ok (BRequest x);
    unmarshalMessage _ b := match b with BRequest x => Ok x | _ => Err (plain "unreadable") end |};
  pm_RequestReversal := unwritable; pm_IdRequest := unwritable; pm_IdReasonRequest := unwritable;
  pm_response := {| marshalMessage _ x := Ok (BResponse x);
    unmarshalMessage _ b := match b with BResponse x => Ok x | _ => Err (plain "unreadable") end |};
  pm_Initialized := unwritable; pm_TransactionResponse := unwritable; pm_StateResponse := unwritable;
  pm_TransactionState := unwritable
|}.
#[local] Instance sampleMessagesLaws : MessagesLaws sampleMessages.
Proof. split; by intros enc x b [= <-]. Qed.

Definition overHttpRequest : RequestTransferRequest := mkRequestTransfer transfer1 walletA walletB (usd 500) false "" false.
Definition requestedOverHttp : prog (answered_ response) :=
  clientCall (served fuel false (λ _, true) (mkRec [] []) None) "Bad Request" "" Protobuf clean (TransferService_ fuel)
    requestTransferMethod overHttpRequest.

(** A transfer out of a Wallet that holds nothing, requested over HTTP: rejected, as the
    client is told. *)
Example requestedOverHttp_answer :
  match snd (run emptyWorld requestedOverHttp) with inl resp => kind_of (rs_Result resp) | inr _ => KTransferCommitted end =
  KTransferRequestRejected.
Proof. evaluate. Qed.

Lemma rpc_transparent_witness :
  TransferService_ fuel ∈ services fuel ∧ requestTransferMethod ∈ s_Methods (TransferService_ fuel) ∧
  ∃ r, snd (run emptyWorld requestedOverHttp) = onWire r ∧
    match r with
    | Ok resp => decidedRequestTransfer (stream (fst (run emptyWorld requestedOverHttp)) TransferAggregateType transfer1) = Ok resp
    | Err _ => True
    end.
Proof.
  assert (TransferService_ fuel ∈ services fuel) as Hs by (do 4 right; by left).
  assert (requestTransferMethod ∈ s_Methods (TransferService_ fuel)) as Hm by by left.
  split; [exact Hs|]. split; [exact Hm|].
  pose proof (rpc_transparent fuel false (λ _, true) (mkRec [] []) None "Bad Request" "" Protobuf clean (TransferService_ fuel)
    requestTransferMethod overHttpRequest (λ r w', match r with Ok resp => answered overHttpRequest resp w' | Err _ => True end)
    emptyWorld Hs Hm (RequestTransfer_answered legal transferServer overHttpRequest emptyWorld transferServer_ok)) as Hsafe.
  destruct (safe_run _ _ _ _ Hsafe) as [_ [(r & Hr & Heq)|[Hcalm _]]].
  - exists r. split; [exact Heq|]. destruct r as [resp|e]; [exact Hr | exact I].
  - destruct Hcalm. split; [by repeat split|]. split; [by eexists|]. intros resp. by eexists.
Defined.
