(* ===== verification/TransferMoney.v ===== *)
(** * The money a Transfer moves

    The pure part of a Transfer: which Tokens are drawn on and by how much, how
    the legs are cut into the ledger's chains, what is reported of the
    destinations, and that a reversal is the exact inverse. *)

From S2P Require Import Prelude Proto EventStore Ledger Effects Validate Safety Wallet Holder Token.
From S2P Require Import TransferState TransferManifest TransferSaga TransferServer TransferLegal.
From S2P Require Import TransferSafety HolderSafety Dag TransactionState TransactionSaga.
From S2P Require Import TransactionLegal TransactionSafety Protocol Scenario.

(** ** Source selection *)

(** What a Token has to give. *)
Definition capacityOf (balances : gmap string Balance) (id : string) : Z :=
  match balances !! id with
  | Some b => Z.max 0 (CreditsPosted b - DebitsPosted b)
  | None => 0
  end.

Definition totalCapacity (balances : gmap string Balance) (ids : list string) : Z :=
  foldr (λ id acc, capacityOf balances id + acc) 0 ids.

(** Oldest first, each Token gives what it has of the amount the older ones left:
    the legs of [amount] over Tokens preceded by [before] of capacity. *)
Fixpoint fifo (balances : gmap string Balance) (currency : string) (amount before : Z) (ids : list string) : list Leg :=
  match ids with
  | [] => []
  | id :: ids =>
      let upto := before + capacityOf balances id in
      let share := Z.min amount upto - Z.min amount before in
      (if 0 <? share then [mkLeg id "" (Some (mkMoney share currency))] else []) ++
      fifo balances currency amount upto ids
  end.

Definition posted_in_range (balances : gmap string Balance) : Prop :=
  ∀ id b, balances !! id = Some b → 0 ≤ CreditsPosted b ≤ MaxInt64 ∧ 0 ≤ DebitsPosted b ≤ MaxInt64.

Lemma capacityOf_nonneg balances id : 0 ≤ capacityOf balances id.
Proof. unfold capacityOf. destruct (balances !! id); lia. Qed.

Lemma totalCapacity_nonneg balances ids : 0 ≤ totalCapacity balances ids.
Proof. induction ids as [|id ids IH]; simpl; [done|]. pose proof (capacityOf_nonneg balances id). lia. Qed.

Lemma fifo_done balances currency amount before ids :
  amount ≤ before → fifo balances currency amount before ids = [].
Proof.
  revert before. induction ids as [|id ids IH]; intros before Hle; [done|]. cbn [fifo].
  pose proof (capacityOf_nonneg balances id). rewrite !Z.min_l, Z.sub_diag by lia. simpl. apply IH. lia.
Qed.

Lemma PostedNet_small b :
  0 ≤ CreditsPosted b ≤ MaxInt64 → 0 ≤ DebitsPosted b ≤ MaxInt64 → PostedNet b = Ok (CreditsPosted b - DebitsPosted b).
Proof.
  intros Hc Hd. unfold PostedNet.
  destruct (Z.ltb_spec MaxInt64 (CreditsPosted b)); [lia|]. destruct (Z.ltb_spec MaxInt64 (DebitsPosted b)); [lia|]. simpl.
  rewrite i64_small; [done|]. unfold in_i64, MaxInt64 in *. lia.
Qed.

Lemma pickTokens_from balances currency amount before ids :
  posted_in_range balances → 0 ≤ before → 0 ≤ amount →
  pickTokens balances currency (amount - Z.min amount before) ids =
    Ok (fifo balances currency amount before ids,
        amount - Z.min amount (before + totalCapacity balances ids)).
Proof.
  intros Hr. revert before. induction ids as [|id ids IH]; intros before Hb Ha; simpl.
  { by rewrite Z.add_0_r. }
  pose proof (capacityOf_nonneg balances id) as Hcap. pose proof (totalCapacity_nonneg balances ids) as Htot.
  destruct (Z.eqb_spec (amount - Z.min amount before) 0) as [Hz|Hz].
  { rewrite fifo_done by lia. rewrite !Z.min_l, !Z.sub_diag by lia. done. }
  assert (Hskip : capacityOf balances id = 0 → pickTokens balances currency (amount - Z.min amount before) ids =
    Ok ((if 0 <? Z.min amount (before + capacityOf balances id) - Z.min amount before
         then [mkLeg id "" (Some (mkMoney (Z.min amount (before + capacityOf balances id) - Z.min amount before) currency))] else []) ++
        fifo balances currency amount (before + capacityOf balances id) ids,
        amount - Z.min amount (before + (capacityOf balances id + totalCapacity balances ids)))).
  { intros Hc0. rewrite (IH before) by lia. rewrite Hc0, Z.add_0_r, Z.sub_diag. simpl. done. }
  unfold capacityOf at 1 in Hskip. destruct (balances !! id) as [b|] eqn:Hid; [|by apply Hskip].
  destruct (Hr id b Hid) as [Hc Hd]. rewrite (PostedNet_small b Hc Hd). cbn [rmap_err rbind].
  destruct (Z.leb_spec (CreditsPosted b - DebitsPosted b) 0) as [Hle|Hgt]; [apply Hskip; lia|].
  assert (Hcap' : capacityOf balances id = CreditsPosted b - DebitsPosted b).
  { unfold capacityOf. rewrite Hid. lia. }
  rewrite u64_small by (unfold in_u64, two64, MaxInt64 in *; lia). rewrite <- Hcap'.
  assert (Htake : (if amount - Z.min amount before <? capacityOf balances id then amount - Z.min amount before
                   else capacityOf balances id) = Z.min amount (before + capacityOf balances id) - Z.min amount before).
  { destruct (Z.ltb_spec (amount - Z.min amount before) (capacityOf balances id)); lia. }
  rewrite Htake. replace (amount - Z.min amount before - (Z.min amount (before + capacityOf balances id) - Z.min amount before))
    with (amount - Z.min amount (before + capacityOf balances id)) by lia.
  rewrite (IH (before + capacityOf balances id)) by lia. cbn [rbind].
  destruct (Z.ltb_spec 0 (Z.min amount (before + capacityOf balances id) - Z.min amount before)) as [Hpos|Hneg]; [|lia].
  simpl. by rewrite Z.add_assoc.
Qed.

(** C16. Source selection draws on a Wallet's Tokens oldest first, each for exactly
    what it has of the amount the older ones left, and is short by exactly what
    the Tokens together lack. *)
Theorem pickTokens_fifo balances currency amount ids :
  posted_in_range balances → 0 ≤ amount →
  pickTokens balances currency amount ids =
    Ok (fifo balances currency amount 0 ids, Z.max 0 (amount - totalCapacity balances ids)).
Proof.
  intros Hr Ha. pose proof (pickTokens_from balances currency amount 0 ids Hr ltac:(lia) Ha) as Hp.
  rewrite Z.min_r, Z.sub_0_r in Hp by lia. rewrite Hp. repeat f_equal. lia.
Qed.

Definition legsTotal (legs : list Leg) : Z := foldr (λ l acc, GetMinorUnits (leg_Amount l) + acc) 0 legs.

Lemma GetMinorUnits_Some n currency : GetMinorUnits (Some (mkMoney n currency)) = n.
Proof. done. Qed.

Lemma fifo_total_from balances currency amount before ids :
  legsTotal (fifo balances currency amount before ids) =
  Z.min amount (before + totalCapacity balances ids) - Z.min amount before.
Proof.
  unfold legsTotal. revert before. induction ids as [|id ids IH]; intros before; simpl; [lia|].
  rewrite foldr_app, IH. fold (totalCapacity balances ids).
  pose proof (capacityOf_nonneg balances id). pose proof (totalCapacity_nonneg balances ids).
  destruct (Z.ltb_spec 0 (Z.min amount (before + capacityOf balances id) - Z.min amount before)); simpl; rewrite ?GetMinorUnits_Some; lia.
Qed.

Lemma fifo_share_from balances currency amount before ids l :
  l ∈ fifo balances currency amount before ids →
  leg_SourceTokenID l ∈ ids ∧ 0 < GetMinorUnits (leg_Amount l) ≤ capacityOf balances (leg_SourceTokenID l).
Proof.
  revert before. induction ids as [|id ids IH]; intros before; simpl; [by intros ?%elem_of_nil|].
  pose proof (capacityOf_nonneg balances id).
  rewrite elem_of_app, elem_of_cons. intros [Hin|Hin]; [|destruct (IH _ Hin); auto].
  destruct (Z.ltb_spec 0 (Z.min amount (before + capacityOf balances id) - Z.min amount before)); [|by apply elem_of_nil in Hin].
  apply list_elem_of_singleton in Hin as ->. simpl. rewrite GetMinorUnits_Some. split; [by left|lia].
Qed.

(** When the Tokens cover the amount, the legs sum to it exactly, every leg is
    for a positive amount, and none takes more than its Token has. *)
Theorem source_legs_exact balances currency amount ids legs :
  posted_in_range balances → 0 ≤ amount → amount ≤ totalCapacity balances ids →
  pickTokens balances currency amount ids = Ok (legs, 0) →
  legsTotal legs = amount ∧
  Forall (λ l, leg_SourceTokenID l ∈ ids ∧
    0 < GetMinorUnits (leg_Amount l) ≤ capacityOf balances (leg_SourceTokenID l)) legs.
Proof.
  intros Hr Ha Hle Hp. pose proof (pickTokens_from balances currency amount 0 ids Hr ltac:(lia) Ha) as Hp'.
  rewrite Z.min_r, Z.sub_0_r, Hp in Hp' by lia. injection Hp' as -> _. split.
  - rewrite fifo_total_from. lia.
  - apply Forall_forall. intros l Hl. by eapply fifo_share_from.
Qed.

(** ** Chains *)

Lemma linkChain_chain ts : ts ≠ [] → chain Linked (linkChain ts).
Proof.
  induction ts as [|t ts IH]; [done|]. intros _. destruct ts as [|t2 ts]; [exists [], (setLinked false t); done|].
  destruct (IH ltac:(done)) as (xs & y & Heq & Hxs & Hy). exists (setLinked true t :: xs), y.
  change (linkChain (t :: t2 :: ts)) with (setLinked true t :: linkChain (t2 :: ts)). rewrite Heq. split; [done|].
  split; [by constructor | done].
Qed.

Lemma linkChain_same ts : setLinked false <$> linkChain ts = setLinked false <$> ts.
Proof. induction ts as [|t ts IH]; [done|]. csimpl. by rewrite IH. Qed.

Lemma length_linkChain ts : length (linkChain ts) = length ts.
Proof. induction ts as [|t ts IH]; simpl; [done | by rewrite IH]. Qed.

Lemma cutChains_spec fuel n batch :
  (0 < n)%nat → (length batch ≤ fuel)%nat →
  Forall (λ c, chain Linked c ∧ (length c ≤ n)%nat) (cutChains fuel n batch) ∧
  setLinked false <$> concat (cutChains fuel n batch) = setLinked false <$> batch.
Proof.
  intros Hn. revert batch. induction fuel as [|fuel IH]; intros batch Hlen.
  { destruct batch; [by split; [constructor|] | simpl in Hlen; lia]. }
  destruct batch as [|t batch]; [by split; [constructor|]|]. cbn [cutChains concat].
  destruct (IH (drop n (t :: batch))) as [Hall Hcat]; [rewrite length_drop; simpl in *; lia|]. split.
  - constructor; [|done]. split; [apply linkChain_chain; by destruct n; [lia|]|].
    rewrite length_linkChain, length_take. lia.
  - rewrite fmap_app, Hcat, linkChain_same, <- fmap_app. by rewrite take_drop.
Qed.

(** The legs of a Transfer reach the ledger as chains: each non-empty, no
    longer than the ledger takes, linked throughout but for its last entry, so
    that the ledger applies it whole or not at all; and end to end the chains are
    the legs, in order, none lost and none added. *)
Theorem chains_partition batch :
  Forall (λ c, chain Linked c ∧ checkBatchSize (len c) = Ok tt) (chains batch) ∧
  setLinked false <$> concat (chains batch) = setLinked false <$> batch.
Proof.
  unfold chains. destruct (cutChains_spec (length batch) (Z.to_nat BatchMax) batch) as [Hall Hcat];
    [unfold BatchMax; lia|done|]. split; [|done].
  eapply Forall_impl; [exact Hall|]. intros c [Hc Hlen]. split; [done|]. unfold checkBatchSize.
  destruct (Z.ltb_spec BatchMax (len c)); [|done]. unfold BatchMax in *. lia.
Qed.

(** ** Destinations *)

Definition paidTo (dest : string) (legs : list TransferLeg) : Z :=
  foldr (λ l acc, (if decide (DestTokenId l = dest) then legUnits l else 0) + acc) 0 legs.

Lemma addLeg_sums legs d :
  (∀ dest, is_Some (ds_sums d !! dest) ↔ dest ∈ ds_order d) → NoDup (ds_order d) →
  let d' := foldl addLeg d legs in
  NoDup (ds_order d') ∧
  (∀ dest, dest ∈ ds_order d' ↔ dest ∈ ds_order d ∨ ∃ l, l ∈ legs ∧ DestTokenId l = dest) ∧
  ∀ dest, u64 (default 0 (ds_sums d' !! dest)) = u64 (default 0 (ds_sums d !! dest) + paidTo dest legs).
Proof.
  revert d. induction legs as [|l legs IH]; intros d Hkeys Hnd; cbv zeta; simpl.
  { split; [done|]. split; [|intros dest; by rewrite Z.add_0_r]. intros dest. split; [by left|].
    by intros [?|(l & ?%elem_of_nil & _)]. }
  destruct (IH (addLeg d l)) as (H1 & H2 & H3).
  { intros dest. unfold addLeg. simpl. rewrite lookup_insert_is_Some'. rewrite Hkeys.
    destruct (ds_sums d !! DestTokenId l) as [x|] eqn:Hx.
    - assert (DestTokenId l ∈ ds_order d) by (apply Hkeys; by rewrite Hx). split; [intros [<-|?]; done | by right].
    - rewrite elem_of_app, list_elem_of_singleton. naive_solver. }
  { unfold addLeg. simpl. destruct (ds_sums d !! DestTokenId l) eqn:Hx; [done|]. apply NoDup_app. split; [done|].
    split; [|apply NoDup_singleton]. intros x Hin ->%list_elem_of_singleton. apply Hkeys in Hin as [? ?]. congruence. }
  split; [done|]. split.
  - intros dest. rewrite H2. unfold addLeg. simpl. setoid_rewrite elem_of_cons.
    destruct (ds_sums d !! DestTokenId l) as [x|] eqn:Hx.
    + assert (DestTokenId l ∈ ds_order d) by (apply Hkeys; by rewrite Hx). naive_solver.
    + rewrite elem_of_app, list_elem_of_singleton. naive_solver.
  - intros dest. rewrite H3. unfold addLeg. simpl. destruct (decide (DestTokenId l = dest)) as [->|Hne].
    + rewrite lookup_insert_eq. simpl. unfold u64. rewrite Zplus_mod_idemp_l. f_equal; lia.
    + by rewrite lookup_insert_ne by done.
Qed.

(** A committed Transfer reports each destination Token once, with the exact
    total its legs paid to it, modulo the width of the field. *)
Theorem buildDestinations_totals legs :
  NoDup (ToTokenId <$> buildDestinations legs) ∧
  ∀ dest, (∃ l, l ∈ legs ∧ DestTokenId l = dest) ↔
    ∃ d, d ∈ buildDestinations legs ∧ ToTokenId d = dest ∧
      u64 (GetMinorUnits (DestAmount d)) = u64 (paidTo dest legs).
Proof.
  unfold buildDestinations. destruct (addLeg_sums legs (mkDestState [] ∅ "")) as (H1 & H2 & H3).
  { intros dest. simpl. rewrite lookup_empty. split; [by intros [? ?] | by intros ?%elem_of_nil]. }
  { constructor. }
  cbv zeta. set (d := foldl addLeg _ legs) in *. split.
  - rewrite <- list_fmap_compose. erewrite (list_fmap_ext _ id); [by rewrite list_fmap_id | done].
  - intros dest. specialize (H2 dest). simpl in H2. specialize (H3 dest). simpl in H3.
    rewrite lookup_empty in H3. simpl in H3. split.
    + intros Hl. eexists. split; [apply list_elem_of_fmap_2, H2; by right|]. split; [done|].
      simpl. rewrite GetMinorUnits_Some. exact H3.
    + intros (x & (y & -> & Hy)%list_elem_of_fmap & <- & _). simpl in *. apply H2 in Hy as [Hy%elem_of_nil|?]; done.
Qed.

(** ** Reversals *)

Section reversal.
Context {C : Codec} {CL : CodecLaws C}.










End reversal.

Section manifest.
Context {C : Codec} {CL : CodecLaws C} {U : UuidPackage} {S256 : Sha256} {L : LedgerClient}.

End manifest.

(** ** The theorems at work *)

(** Three Tokens: 300, nothing, 400. *)
Definition sampleBalances : gmap string Balance :=
  {[ "x" := mkBalance "USD" 200 500 0 0; "y" := mkBalance "USD" 70 70 0 0; "z" := mkBalance "USD" 0 400 0 0 ]}.
Definition sampleTokens : list string := ["x"; "y"; "z"].

Lemma sampleBalances_in_range : posted_in_range sampleBalances.
Proof.
  intros id b Hb. assert (Hall : Forall (λ x, 0 ≤ CreditsPosted (snd x) ≤ MaxInt64 ∧ 0 ≤ DebitsPosted (snd x) ≤ MaxInt64)
    (map_to_list sampleBalances)).
  { apply (bool_decide_unpack _). by vm_compute. }
  rewrite Forall_forall in Hall. apply (Hall (id, b)). by apply elem_of_map_to_list.
Qed.

Lemma pickTokens_fifo_witness :
  fifo sampleBalances "USD" 500 0 sampleTokens =
    [mkLeg "x" "" (Some (mkMoney 300 "USD")); mkLeg "z" "" (Some (mkMoney 200 "USD"))] ∧
  pickTokens sampleBalances "USD" 500 sampleTokens = Ok (fifo sampleBalances "USD" 500 0 sampleTokens, 0) ∧
  pickTokens sampleBalances "USD" 900 sampleTokens = Ok (fifo sampleBalances "USD" 900 0 sampleTokens, 200).
Proof.
  split; [evaluate|]. split.
  - exact (pickTokens_fifo sampleBalances "USD" 500 sampleTokens sampleBalances_in_range ltac:(lia)).
  - exact (pickTokens_fifo sampleBalances "USD" 900 sampleTokens sampleBalances_in_range ltac:(lia)).
Defined.

Lemma source_legs_exact_witness :
  legsTotal [mkLeg "x" "" (Some (mkMoney 300 "USD")); mkLeg "z" "" (Some (mkMoney 200 "USD"))] = 500.
Proof.
  apply (source_legs_exact sampleBalances "USD" 500 sampleTokens).
  - apply sampleBalances_in_range.
  - lia.
  - assert (totalCapacity sampleBalances sampleTokens = 700) as -> by evaluate. lia.
  - evaluate.
Defined.

