(* ===== verification/Hazards.v ===== *)
(** * Where the code falls short of what it says

    Behaviours of the code that contradict its own comments, each shown on a
    concrete execution. *)

From S2P Require Import Prelude Proto EventStore Ledger Effects Validate Safety Wallet Holder Token.
From S2P Require Import TransferState TransferManifest TransferSaga TransferServer TransferLegal.
From S2P Require Import TransferSafety HolderSafety Dag TransactionState TransactionSaga.
From S2P Require Import TransactionLegal TransactionSafety Protocol Scenario.

(** ** Adding two Wallets at once *)




Definition errorCode {A} (r : result A) : option twirp_code :=
  match r with Ok _ => None | Err e => e_code e end.

(** ** A child a Transfer would refuse *)

(** A request [validateDAG] accepts: its one child is keyed by its own id, as the
    check wants, but the id is not a UUID. *)
Definition malformed : Initialized :=
  mkInitialized txn "payment" "1"
    {[ "pay" := mkChildTransfer "pay" (usd 500) walletA walletB false true ]} ∅.

Definition wedged : World := fst (runAll emptyWorld [] (opening ++
  [ discard (StartInitializingTransaction client malformed); resumeTransaction ])).

(** A Transaction with such a child is initialized and started, and then the
    attempt to drive it fails with the Transfer service's [InvalidArgument] and
    records nothing, anywhere: the Transaction stays started with no event to say
    why. *)
Theorem malformed_child_wedges :
  topLevelState (stream wedged TransactionAggregateType txn) = stateStarted ∧
  len (stream wedged TransferAggregateType "pay") = 0 ∧
  errorCode (snd (run wedged (ResumeTransaction client fuel txn))) = Some InvalidArgument ∧
  globalSeq (w_store wedged) = 6 ∧
  globalSeq (w_store (fst (run wedged (ResumeTransaction client fuel txn)))) = 6.
Proof. split; [evaluate|]. split; [evaluate|]. split; [evaluate|]. split; evaluate. Qed.

(** ** Rolling back past an abandoned claim *)

Section spin.
Context {C : Codec} {U : UuidPackage} {S256 : Sha256}.
Context (fuel : nat) (w : World) (spec : ChildTransfer) (live : Event).
Notation evs := (stream w TransferAggregateType (ct_Id spec)).

(** The child's own driver claimed it and stopped, longer ago than a claim lasts. *)
Hypothesis Hid : Id.Validate "id" (ct_Id spec) = Ok tt.
Hypothesis Hprepared : currentState evs = statePrepared.
Hypothesis Haccepted : rejectedRequest evs = false.
Hypothesis Hlive : liveMarker evs = Some live.
Hypothesis Hother : EType live ≠ full_name KPreparedTransferCancelled.
Hypothesis Hstale : claimStaleAfter ≤ w_now w - OccurredAt live.

Lemma cancel_refused reason :
  ∃ e, run w (CancelAcceptedTransfer (S fuel) (ct_Id spec) reason) = (w, Err e) ∧ e_code e = Some FailedPrecondition.
Proof.
  assert (Hne : evs ≠ []) by (intros Hnil; by rewrite Hnil in Hprepared).
  assert (Hwait : ∀ m, EventType m = full_name KPreparedTransferCancelled →
    run w (awaitUnclaimed (S fuel) (ct_Id spec) statePrepared m) = (w, Err (abandonedClaimError (EType live) m))).
  { intros m Hm. unfold awaitUnclaimed. cbn [awaitUnclaimedLoop]. unfold loadTransfer. run_steps.
    rewrite bool_decide_true by done. simpl negb. cbv iota. rewrite Hlive. run_steps.
    change (run w storeNow) with (w, Ok (A := Z) (w_now w)). cbn [rmap_err].
    rewrite (proj2 (Z.leb_le _ _) Hstale). rewrite bool_decide_false by congruence. done. }
  unfold CancelAcceptedTransfer. run_steps. rewrite Hid. cbn [rmap_err].
  unfold maxConcurrencyAttempts. cbn [attempts]. run_steps. unfold tryCancelAccepted, loadTransfer. run_steps.
  assert (Hcancel : run w (cancelPrepared (S fuel) (ct_Id spec) reason) =
    (w, Err (abandonedClaimError (EType live) (PreparedTransferCancelled (ct_Id spec) reason)))).
  { unfold cancelPrepared, loadTransfer. run_steps. destruct evs as [|x xs] eqn:Hevs; [done|]. rewrite Hprepared.
    cbn [cancelPreparedLoop]. run_steps. by rewrite Hwait. }
  destruct evs as [|x xs] eqn:Hevs; [done|]. rewrite Hprepared. run_steps. rewrite Hcancel. cbn [rmap_err].
  eexists. split; reflexivity.
Qed.

(** C39. [rollbackChild] undoes a child "by what it became" whenever the Transfer
    service answers [FailedPrecondition], but that is also its answer when the
    child's claim was abandoned, and the child has then become nothing else: it
    asks again, at once, for ever. No number of rounds is enough, and no round
    changes or waits for anything. *)
Theorem rollbackChild_spins n tx :
  ∃ e, run w (rollbackChild (transferClient (S fuel)) fuel n tx spec childRequested) = (w, Err e) ∧
    Is e OutOfFuel = true.
Proof.
  destruct (cancel_refused rollbackReason) as (e0 & Hcancel & Hcode).
  induction n as [|n (e & IH & He)]; [by eexists|]. cbn [rollbackChild].
  rewrite (bool_decide_true (childRequested = childRequested)) by done. simpl andb. cbv iota.
  unfold Outcome. run_steps. unfold outcomeOf. destruct evs as [|x xs] eqn:Hevs; [done|].
  rewrite Haccepted, Hprepared. run_steps. cbn [transferClient tc_CancelAcceptedTransfer]. rewrite Hcancel, Hcode.
  rewrite bool_decide_true by done. eauto.
Qed.
End spin.

Definition spinning : ChildTransfer := specOf (in_Transfers single) transfer1.

Lemma rollbackChild_spins_witness :
  ∃ e, run (fst abandoned) (rollbackChild (transferClient 10) 9 1000 txn spinning childRequested) = (fst abandoned, Err e) ∧
    Is e OutOfFuel = true.
Proof.
  assert (match liveMarker (stream (fst abandoned) TransferAggregateType transfer1) with
          | Some live => bool_decide (EType live ≠ full_name KPreparedTransferCancelled) &&
                         (claimStaleAfter <=? w_now (fst abandoned) - OccurredAt live)
          | None => false end = true) as Hclaim by evaluate.
  destruct (liveMarker (stream (fst abandoned) TransferAggregateType transfer1)) as [live|] eqn:Hlive; [|discriminate Hclaim].
  apply andb_true_iff in Hclaim as [Hother%bool_decide_eq_true Hstale%Z.leb_le].
  apply (rollbackChild_spins 9 (fst abandoned) spinning live); [evaluate|evaluate|evaluate|exact Hlive|exact Hother|exact Hstale].
Defined.

(** ** Rolling back a staged child that is being posted *)

Definition staged : Initialized :=
  mkInitialized txn "payment" "1"
    {[ transfer1 := mkChildTransfer transfer1 (usd 500) walletA walletB true true ]} ∅.

(** The child is staged and confirmed, the Transaction is to be rolled back. *)
Definition rollingBack : World := fst (runAll emptyWorld [] (opening ++
  [ discard (StartInitializingTransaction client staged); resumeTransaction; resumeTransfer transfer1;
    discard (ConfirmStagedTransfer fuel transfer1);
    discard (StartTransactionRollback fuel txn "changed my mind") ])).

(** The saga has read the child's outcome; the client posts it; the saga goes on. *)
Definition racedRollback : World :=
  let '(w1, rest) := runFor 4 rollingBack (ResumeTransaction client fuel txn) in
  let w2 := fst (run w1 (PostPendingTransfer fuel transfer1)) in
  fst (run w2 rest).

(** A staged child posted between the saga's look at it and its cancellation
    is committed, and could be reversed like any other: but the refusal of the
    cancellation is recorded as a rollback that failed, no reversal is ever
    asked for, and the Transaction ends beyond help. *)
Theorem staged_child_posted_during_rollback :
  topLevelState (stream rollingBack TransactionAggregateType txn) = stateRollbackStarted ∧
  outcomeOf (stream racedRollback TransferAggregateType transfer1) = OutcomeCommitted ∧
  topLevelState (stream racedRollback TransactionAggregateType txn) = stateRollbackFailed ∧
  len (stream racedRollback TransferAggregateType reversal1) = 0 ∧
  match manifestOf (stream racedRollback TransferAggregateType transfer1) with Ok (inl (_ :: _)) => true | _ => false end = true.
Proof. split; [evaluate|]. split; [evaluate|]. split; [evaluate|]. split; evaluate. Qed.

(** ** The test double's books *)

Definition twoAccounts : FakeClient :=
  fst (CreateAccounts NewFakeClient
         [mkAccount "a" "USD" (mkFlags false false false); mkAccount "b" "USD" (mkFlags false false true)]).

Definition entry (id from to : string) (kind : TransferKind) (pendingID : string) : Transfer :=
  mkTransfer id from to 100 "USD" false kind pendingID 0.

(** [b] is promised 100, spends it, and the promise is taken back. *)
Definition overdrawn : FakeClient * result (list TransferResult) :=
  CreateTransfers (fst (CreateTransfers twoAccounts [entry "p" "a" "b" TransferKindPending ""]))
    [entry "r" "b" "a" TransferKindRegular ""; entry "v" "a" "b" TransferKindVoidPending "p"].

(** The ledger's test double lets an account spend what is only promised to
    it, and does not look again when the promise is voided: an account that must
    not owe more than it has ends up owing 100 and having nothing. *)
Theorem FakeClient_overdraws_on_void :
  rmap (fmap tr_Result) (snd overdrawn) = Ok [TransferResultOK; TransferResultOK] ∧
  (λ a, (debitsMustNotExceedCredits a, debitsPosted a, creditsPosted a)) <$> (accounts (fst overdrawn) !! "b")
    = Some (true, 100, 0).
Proof. split; evaluate. Qed.

(** The test double books a transfer from an account to itself as a credit
    with no debit, so double entry does not survive it. *)
Theorem FakeClient_self_transfer :
  (λ a, (debitsPosted a, creditsPosted a)) <$>
    (accounts (fst (CreateTransfers twoAccounts [entry "s" "a" "a" TransferKindRegular ""])) !! "a") = Some (0, 100).
Proof. evaluate. Qed.
