(* ===== verification/ResumeSelection.v ===== *)
(** * What [resume -open] drives

    The events table is asked for the streams without a terminal event, and each
    of those for its state. That the first question never hides an aggregate the
    second would have kept rests on terminal events being final, which is what
    the protocol guarantees. *)

From S2P Require Import Prelude Proto EventStore Ledger Effects Validate Postgres Safety Wallet Token.
From S2P Require Import TransferState TransferManifest TransferSaga TransferServer TransferLegal.
From S2P Require Import Dag TransactionState TransactionSaga Orchestrator ResumeDriver.
From S2P Require Import TransactionLegal TransactionSafety Protocol Scenario.

(** [append(transaction.TerminalEventTypes(), transfer.TerminalEventTypes()...)],
    the second ranging its map in [order]. *)
Definition terminals (order : list (string * transferState)) : list string :=
  TransactionTerminalEventTypes ++ TerminalEventTypes order.

Definition terminalKind (k : kind) : bool :=
  match k with
  | KTransactionCompleted | KTransactionRolledBack | KTransactionRollbackFailed | KTransactionRejected
  | KTransferRequestRejected | KReversalRequestRejected => true
  | _ => match stateOf k with Some st => terminal st | None => false end
  end.

Lemma elem_of_bool (x : string) (L : list string) b : bool_decide (x ∈ L) = b → (x ∈ L ↔ b = true).
Proof. intros <-. by rewrite bool_decide_eq_true. Qed.

Lemma terminals_kind order k :
  order ≡ₚ stateTable → (full_name k ∈ terminals order ↔ terminalKind k = true).
Proof.
  intros Hp. unfold terminals, TerminalEventTypes.
  rewrite merge_sort_Permutation, Hp. apply elem_of_bool. destruct k; vm_compute; reflexivity.
Qed.

Section selection.
Context {C : Codec} {CL : CodecLaws C} {U : UuidPackage} {S256 : Sha256}.

(** No event of a stream that is still going is terminal. *)
Definition noTerminal (evs : list Event) : Prop :=
  ∀ e, e ∈ evs → ∃ k, EType e = full_name k ∧ terminalKind k = false.

Lemma transfer_kinds evs :
  treach evs → Forall (λ e, ∃ m, recorded m e ∧
    (openingKind (kind_of m) || markerKind (kind_of m) || responseKind (kind_of m) = true ∨ is_Some (stateOf (kind_of m)))) evs.
Proof.
  unfold treach. intros Hr. assert (H0 : Forall (λ e, ∃ m, recorded m e ∧
    (openingKind (kind_of m) || markerKind (kind_of m) || responseKind (kind_of m) = true ∨ is_Some (stateOf (kind_of m)))) (@nil Event))
    by constructor.
  revert H0. induction Hr as [|x y z Hxy _ IH]; [done|]. intros Hx. apply IH. clear IH.
  destruct Hxy as [evs ms batch Hrec Hstep]. apply Forall_app. split; [exact Hx|].
  assert (Hms : Forall (λ m, openingKind (kind_of m) || markerKind (kind_of m) || responseKind (kind_of m) = true ∨ is_Some (stateOf (kind_of m))) ms).
  { destruct Hstep as [m _ Hk|id legs b|m Hk|m Ht|m _ Hk]; repeat (apply Forall_cons_2; [|]); try apply Forall_nil_2.
    - left. by rewrite Hk.
    - right. by eexists.
    - left. by destruct b.
    - left. rewrite Hk. by rewrite orb_true_r.
    - right. unfold EventType in Ht. apply transitions_forward in Ht as (st & -> & _). by eexists.
    - left. rewrite Hk. by rewrite !orb_true_r. }
  clear -Hrec Hms. induction Hrec as [|m e ms batch Hm _ IH]; [constructor|].
  apply Forall_cons in Hms as [Hk Hms]. constructor; [eauto | by apply IH].
Qed.

Lemma outcomes_elem evs e st : e ∈ evs → stateByEventType !! EType e = Some st → st ∈ outcomes evs.
Proof. intros He Hs. unfold outcomes. apply list_elem_of_omap. eauto. Qed.

(** The only lifecycles that end in flight hold nothing final. *)
Lemma lifecycle_inFlight b hist st :
  hist ∈ lifecycles b → (default stateUnknown (last hist) = stateAccepted ∨ default stateUnknown (last hist) = statePrepared) →
  st ∈ hist → terminal st = false.
Proof.
  intros Hh. revert st. pattern hist. revert hist Hh. apply Forall_forall.
  destruct b; simpl; repeat (apply Forall_cons_2; [|]); try apply Forall_nil_2; simpl; intros st [Hl|Hl]; try discriminate Hl;
    rewrite !elem_of_cons; intros Hst; repeat destruct Hst as [->|Hst]; try done; by apply not_elem_of_nil in Hst.
Qed.

Lemma inFlight_noTerminal evs : treach evs → outcomeOf evs = OutcomeInFlight → noTerminal evs.
Proof.
  intros Hr Hout e He. pose proof (treach_wf _ Hr) as [->|(m & Hopen & Hwf)]; [done|].
  pose proof (transfer_kinds _ Hr) as Hkinds. rewrite Forall_forall in Hkinds.
  destruct (Hkinds e He) as (m' & [Ht _] & Hk). exists (kind_of m'). split; [exact Ht|].
  destruct Hopen as (e0 & rest & -> & [Ht0 _] & Hk0 & Hrest).
  assert (Hstate : currentState (e0 :: rest) = stateAccepted ∨ currentState (e0 :: rest) = statePrepared).
  { unfold outcomeOf in Hout. destruct (rejectedRequest _); [done|]. destruct (currentState _); auto; done. }
  destruct (stageFlag m) as [b|] eqn:Hflag.
  2: { rewrite currentState_outcomes, Hwf in Hstate. by destruct Hstate. }
  destruct Hwf as [_ Hlife]. rewrite currentState_outcomes in Hstate.
  destruct (terminalKind (kind_of m')) eqn:Hterm; [|done]. exfalso.
  assert (Hno : ∀ st, stateOf (kind_of m') = Some st → terminal st = false).
  { intros st Hst. eapply lifecycle_inFlight; [exact Hlife|exact Hstate|]. eapply outcomes_elem; [exact He|].
    rewrite Ht. unfold EventType. by rewrite stateByEventType_kind. }
  assert (Hopening : openingKind (kind_of m') = false ∨ kind_of m' = kind_of m).
  { apply elem_of_cons in He as [->|He].
    - right. rewrite Ht0 in Ht. unfold EventType in Ht. by apply full_name_inj in Ht.
    - rewrite Forall_forall in Hrest. destruct (Hrest e He) as (m2 & [Ht2 _] & Hk2). left.
      rewrite Ht2 in Ht. unfold EventType in Ht. apply full_name_inj in Ht. by rewrite <- Ht. }
  destruct Hopening as [Hop|Heq].
  - destruct (kind_of m'); simpl in *; try done;
      first [by specialize (Hno _ eq_refl) | by destruct Hk as [?|[? ?]]].
  - rewrite Heq in *. destruct m; simpl in *; try done.
Qed.

Lemma msteps_kinds i h ms : msteps i h ms → Forall (λ m, is_Some (childFact m) ∨ is_Some (topOfKind (kind_of m))) ms.
Proof.
  induction 1 as [|h m ms Hm _ IH]; constructor; [|done].
  destruct (mstep_kind _ _ _ Hm) as [(id & st & -> & _)|(st & _ & -> & _)]; eauto.
Qed.

Lemma txLifecycle_inFlight hist st :
  hist ∈ txLifecycles → default stateTxUnknown (last hist) ∈ [stateInitialized; stateStarted; stateRollbackStarted] →
  st ∈ hist → st ∈ [stateInitialized; stateStarted; stateRollbackStarted].
Proof.
  intros Hh. revert st. pattern hist. revert hist Hh. apply Forall_forall. unfold txLifecycles.
  repeat (apply Forall_cons_2; [|]); try apply Forall_nil_2; simpl; intros st Hl;
    try (exfalso; revert Hl; decided);
    intros Hst; repeat (apply elem_of_cons in Hst as [->|Hst]; [decided|]); by apply not_elem_of_nil in Hst.
Qed.

Lemma history_elem h evs e : history h evs → e ∈ evs → ∃ m, m ∈ h ∧ recorded m e.
Proof.
  intros Hh He. apply list_elem_of_lookup in He as [i Hi].
  destruct (Forall2_lookup_r _ _ _ _ _ Hh Hi) as (m & Hm & Hr). exists m. split; [by eapply list_elem_of_lookup_2 | done].
Qed.

Lemma going_noTerminal h evs :
  history h evs → wf_tx h → topOf h ∈ [stateInitialized; stateStarted; stateRollbackStarted] → noTerminal evs.
Proof.
  intros Hh Hwf Htop e He. assert (Hne : topOf h ≠ stateTxUnknown ∧ topOf h ≠ stateRejected).
  { split; intros Heq; rewrite Heq in Htop; revert Htop; decided. }
  destruct (wf_tx_opened _ Hwf (proj1 Hne) (proj2 Hne)) as (i & rest & -> & Hrun & _).
  destruct (history_elem _ _ _ Hh He) as (m & Hm & [Ht _]).
  exists (kind_of m). split; [exact Ht|]. destruct (terminalKind (kind_of m)) eqn:Hterm; [|done]. exfalso.
  assert (Hkind : is_Some (childFact m) ∨ is_Some (topOfKind (kind_of m))).
  { destruct (wr_trace _ _ Hrun) as (rest' & [= <-] & Hms). apply elem_of_cons in Hm as [->|Hm]; [right; by eexists|].
    by apply (proj1 (Forall_forall _ _) (msteps_kinds _ _ _ Hms)). }
  assert (Hno : ∀ st, topOfKind (kind_of m) = Some st → st ∈ [stateInitialized; stateStarted; stateRollbackStarted]).
  { intros st Hst. eapply txLifecycle_inFlight; [exact (wr_tops _ _ Hrun)|by rewrite <- topOf_tops|].
    unfold tops. apply list_elem_of_omap. eauto. }
  destruct m; simpl in *; try done;
    first [ by destruct Hkind as [[? ?]|[? ?]]
          | specialize (Hno _ eq_refl); revert Hno; decided ].
Qed.

(** ** The selection *)

Context {PU : PgUuid}.

(** What [inFlight] asks of the log. *)
Definition goingIn (w : World) (t : target) : bool :=
  if bool_decide (tg_type t = TransactionAggregateType) then
    match topLevelState (stream w TransactionAggregateType (tg_id t)) with
    | stateCompleted | stateRolledBack | stateRejected => false
    | _ => true
    end
  else bool_decide (outcomeOf (stream w TransferAggregateType (tg_id t)) = OutcomeInFlight).

Definition sagaTarget (t : target) : Prop := tg_type t ∈ [TransactionAggregateType; TransferAggregateType].

Lemma run_stillGoing w ts :
  Forall sagaTarget ts → run w (stillGoing ts) = (w, Ok (filter (λ t, goingIn w t = true) ts)).
Proof.
  induction 1 as [|t ts Ht _ IH]; [done|]. cbn [stillGoing]. rewrite run_bind, run_mapErr.
  assert (Hin : run w (inFlight t) = (w, Ok (goingIn w t))).
  { unfold inFlight, goingIn. case_bool_decide as H1.
    - unfold IsOpen, loadTransaction. run_steps. by destruct (topLevelState _).
    - rewrite bool_decide_true by (unfold sagaTarget in Ht; set_solver). unfold Outcome. by run_steps. }
  rewrite Hin. cbn [rmap_err]. rewrite run_bind, IH. rewrite filter_cons. by destruct (goingIn w t); simpl.
Qed.

Lemma sagaStreams_target ts t g : g ∈ sagaStreams ts t → sagaTarget g.
Proof.
  unfold sagaStreams. rewrite merge_sort_Permutation, list_elem_of_filter, elem_of_remove_dups.
  intros [_ (e & -> & [He _]%list_elem_of_filter)%list_elem_of_fmap]. exact He.
Qed.

(** A stream is listed when it has events and none of them is terminal. *)
Lemma elem_of_sagaStreams ts t g :
  sagaTarget g →
  (g ∈ sagaStreams ts t ↔ rowsOf t (tg_type g) (tg_id g) ≠ [] ∧ ∀ e, e ∈ rowsOf t (tg_type g) (tg_id g) → EType e ∉ ts).
Proof.
  intros Hg. unfold sagaStreams. rewrite merge_sort_Permutation, list_elem_of_filter, elem_of_remove_dups, list_elem_of_fmap.
  assert (Hun : unfinished ts t g = true ↔ ∀ e, e ∈ rowsOf t (tg_type g) (tg_id g) → EType e ∉ ts).
  { unfold unfinished. rewrite negb_true_iff, <- not_true_iff_false, existsb_exists. setoid_rewrite <- list_elem_of_In.
    setoid_rewrite bool_decide_eq_true. naive_solver. }
  rewrite Hun. split.
  - intros [Hno (e & -> & [Ht He]%list_elem_of_filter)]. split; [|done]. intros Hnil.
    assert (e ∈ rowsOf t (AggregateType e) (AggregateID e)) as Hin by (apply list_elem_of_filter; done).
    simpl in Hnil. rewrite Hnil in Hin. by apply not_elem_of_nil in Hin.
  - intros [Hne Hno]. split; [done|]. destruct (rowsOf t (tg_type g) (tg_id g)) as [|e rs] eqn:Hrows; [done|].
    assert (e ∈ rowsOf t (tg_type g) (tg_id g)) as [[Ht Hid] Hin]%list_elem_of_filter by (rewrite Hrows; left).
    exists e. rewrite Ht, Hid. split; [by destruct g|]. apply list_elem_of_filter. split; [by rewrite Ht | done].
Qed.

(** The table's rows and the log's events have the same types. *)
Lemma refines_types t s ty id e :
  refines t s → no_nul ty = true → pgUuid id = Some id →
  ((∃ e', e' ∈ rowsOf t ty id ∧ EType e' = e) ↔ ∃ e', e' ∈ stream_at s (streamKey ty id) ∧ EType e' = e).
Proof.
  intros Hr Hty Hid. pose proof (Hr _ _ Hty Hid) as Heq.
  split; intros (e' & [i Hi]%list_elem_of_lookup & <-);
    [destruct (unplaced_Sequence _ _ _ _ Heq Hi) as (x & Hx & Hu) | destruct (unplaced_Sequence _ _ _ _ (eq_sym Heq) Hi) as (x & Hx & Hu)];
    exists x; (split; [by eapply list_elem_of_lookup_2 | symmetry; exact (f_equal EType Hu)]).
Qed.

(** Going somewhere, by the aggregate's own fold. *)
Definition goesOn (w : World) (t : target) : Prop :=
  (tg_type t = TransferAggregateType ∧ outcomeOf (stream w TransferAggregateType (tg_id t)) = OutcomeInFlight) ∨
  (tg_type t = TransactionAggregateType ∧
   topLevelState (stream w TransactionAggregateType (tg_id t)) ∈ [stateInitialized; stateStarted; stateRollbackStarted]).

Lemma goesOn_noTerminal c t :
  reachable c → goesOn (fst c) t → noTerminal (stream (fst c) (tg_type t) (tg_id t)).
Proof.
  intros Hc [[-> Hout]|[-> Htop]].
  - apply inFlight_noTerminal; [by apply reachable_transfer | done].
  - destruct (reachable_transaction c (tg_id t) Hc) as (h & Hh & Hwf & _). rewrite (history_top _ _ Hh) in Htop.
    by eapply going_noTerminal.
Qed.

Lemma txLifecycle_going hist :
  hist ∈ txLifecycles → (∀ st, st ∈ hist → st ∉ [stateCompleted; stateRolledBack; stateRollbackFailed]) →
  default stateTxUnknown (last hist) ∈ [stateInitialized; stateStarted; stateRollbackStarted].
Proof.
  intros Hl. pattern hist. revert hist Hl. apply Forall_forall. unfold txLifecycles.
  repeat (apply Forall_cons_2; [|]); try apply Forall_nil_2; simpl; intros Htops;
    first [ decided | exfalso; by apply (Htops stateCompleted); decided
          | exfalso; by apply (Htops stateRolledBack); decided | exfalso; by apply (Htops stateRollbackFailed); decided ].
Qed.

(** A Transaction with events, none of them final, is going on unless it was
    rejected or ended. *)
Lemma transaction_goesOn h evs :
  history h evs → wf_tx h → evs ≠ [] → noTerminal evs →
  topLevelState evs ∈ [stateInitialized; stateStarted; stateRollbackStarted].
Proof.
  intros Hh Hwf Hne Hno. rewrite (history_top _ _ Hh).
  assert (Hmsg : ∀ m, m ∈ h → terminalKind (kind_of m) = false).
  { intros m [i Hi]%list_elem_of_lookup. destruct (Forall2_lookup_l _ _ _ _ _ Hh Hi) as (e & He & [Ht _]).
    destruct (Hno e) as (k & Hk & Hf); [by eapply list_elem_of_lookup_2|]. rewrite Hk in Ht. unfold EventType in Ht.
    apply full_name_inj in Ht. by subst k. }
  destruct Hwf as [->|[(id & reason & ->)|(i & rest & -> & Hrun & _)]].
  - by apply Forall2_nil_inv_l in Hh as ->.
  - specialize (Hmsg _ ltac:(left)). done.
  - rewrite topOf_tops. pose proof (wr_tops _ _ Hrun) as Hl.
    assert (Htops : ∀ st, st ∈ tops (TransactionInitialized i :: rest) → st ∉ [stateCompleted; stateRolledBack; stateRollbackFailed]).
    { intros st (m & Hm & Hst)%list_elem_of_omap Hbad. specialize (Hmsg m Hm). destruct m; simpl in *; simplify_eq; try done;
        revert Hbad; decided. }
    by apply txLifecycle_going.
Qed.

(** C29. [resume -open] drives exactly what is still going, in every state the system
    can be in: the Transfers accepted or prepared but not further, and the
    Transactions initialized, started or rolling back. Skipping every stream that
    holds a terminal event hides none of them, and what it leaves is asked its
    own state. *)
Theorem resume_open_selects c t order g :
  reachable c → refines t (w_store (fst c)) → order ≡ₚ stateTable →
  sagaTarget g → pgUuid (tg_id g) = Some (tg_id g) →
  ∃ targets, run (fst c) (resolveTargets (mkCatalogue (Ok (sagaStreams (terminals order) t)) (λ _, Ok [])) true []) =
      (fst c, Ok targets) ∧
    (g ∈ targets ↔ goesOn (fst c) g).
Proof.
  intros Hc Hr Hp Hg Hid. eexists. split.
  { unfold resolveTargets. cbn [ct_sagaStreams]. rewrite run_bind. cbn [run lift]. apply run_stillGoing.
    apply Forall_forall. intros x. apply sagaStreams_target. }
  rewrite list_elem_of_filter, elem_of_sagaStreams by done.
  assert (Hty : no_nul (tg_type g) = true).
  { unfold sagaTarget in Hg. apply elem_of_cons in Hg as [->|[->|[]%not_elem_of_nil]%elem_of_cons]; reflexivity. }
  pose proof (λ ty, refines_types t (w_store (fst c)) _ _ ty Hr Hty Hid) as Hty'.
  assert (Hterm : (∀ e, e ∈ rowsOf t (tg_type g) (tg_id g) → EType e ∉ terminals order) ↔
                  ∀ e, e ∈ stream (fst c) (tg_type g) (tg_id g) → EType e ∉ terminals order).
  { split; intros H e He Hin; [destruct (proj2 (Hty' (EType e))) as (x & Hx & Heq) | destruct (proj1 (Hty' (EType e))) as (x & Hx & Heq)];
      eauto; apply (H x Hx); by rewrite Heq. }
  assert (Hnil : rowsOf t (tg_type g) (tg_id g) ≠ [] ↔ stream (fst c) (tg_type g) (tg_id g) ≠ []).
  { unfold stream. pose proof (Hr _ _ Hty Hid) as Heq. apply (f_equal length) in Heq. rewrite !length_fmap in Heq.
    by rewrite <- !length_zero_iff_nil, Heq. }
  rewrite Hterm, Hnil. split.
  - intros (Hgo & Hne & Hno). unfold goingIn in Hgo. case_bool_decide as Htype.
    + right. split; [done|]. rewrite Htype in *. destruct (reachable_transaction c (tg_id g) Hc) as (h & Hh & Hwf & _).
      apply (transaction_goesOn h); [done..|]. intros e He. destruct (history_elem _ _ _ Hh He) as (m & _ & [Ht _]).
      exists (kind_of m). split; [exact Ht|]. specialize (Hno e He). rewrite Ht in Hno. unfold EventType in Hno.
      rewrite (terminals_kind order) in Hno by done. by destruct (terminalKind _).
    + left. split; [unfold sagaTarget in Hg; set_solver | by apply bool_decide_eq_true in Hgo].
  - intros Hgo. split; [|split].
    + unfold goingIn. destruct Hgo as [[-> Hout]|[-> Htop]]; simpl; [by rewrite Hout|].
      repeat (apply elem_of_cons in Htop as [->|Htop]; [done|]). by apply not_elem_of_nil in Htop.
    + intros Hempty. destruct Hgo as [[Heq Hout]|[Heq Htop]]; rewrite Heq in Hempty; rewrite Hempty in *; [done|].
      revert Htop. decided.
    + intros e He. destruct (goesOn_noTerminal c g Hc Hgo e He) as (k & -> & Hk).
      rewrite (terminals_kind order) by done. by rewrite Hk.
Qed.
End selection.

(** ** At work *)

Section dump.
Context {C : Codec} {PU : PgUuid}.

(** A log written out as a table. *)
Definition dump (s : MemoryStore) : table := mkTable (concat (map_to_list (streams s)).*2) (globalSeq s + 1).

(** Whether every stream holds its own events and no others. *)
Definition ownEvents (k : string) (evs : list Event) : bool :=
  forallb (λ e, no_nul (AggregateType e) && bool_decide (streamKey (AggregateType e) (AggregateID e) = k)) evs.
Definition keyed (s : MemoryStore) : bool := forallb (λ x, ownEvents x.1 x.2) (map_to_list (streams s)).

Lemma ownEvents_filter k evs ty id :
  ownEvents k evs = true → no_nul ty = true →
  filter (λ e, AggregateType e = ty ∧ AggregateID e = id) evs = if decide (k = streamKey ty id) then evs else [].
Proof.
  intros Hown Hty. induction evs as [|e evs IH]; [by case_decide|]. simpl in Hown.
  apply andb_prop in Hown as [[Hn Hk%bool_decide_eq_true]%andb_prop Hown]. rewrite filter_cons, (IH Hown).
  destruct (decide (k = streamKey ty id)) as [->|Hne].
  - rewrite decide_True; [done|]. by apply streamKey_inj in Hk.
  - rewrite decide_False; [done|]. intros [<- <-]. by rewrite Hk in Hne.
Qed.

Lemma dump_filter (l : list (string * list Event)) ty id :
  NoDup l.*1 → forallb (λ x, ownEvents x.1 x.2) l = true → no_nul ty = true →
  filter (λ e, AggregateType e = ty ∧ AggregateID e = id) (concat l.*2) =
    default [] ((list_to_map l : gmap string (list Event)) !! streamKey ty id).
Proof.
  intros Hnd Hown Hty. induction l as [|[k evs] l IH]; [done|]. simpl in Hown. apply andb_prop in Hown as [Hk Hown].
  apply NoDup_cons in Hnd as [Hni Hnd]. cbn [concat fmap list_fmap snd list_to_map foldr uncurry].
  rewrite filter_app, (ownEvents_filter k) by done. fold (l.*2). rewrite (IH Hnd Hown). simpl. case_decide as Heq.
  - subst k. rewrite lookup_insert_eq, (not_elem_of_list_to_map_1 l) by done. simpl. by rewrite app_nil_r.
  - by rewrite lookup_insert_ne.
Qed.

Lemma dump_refines s : keyed s = true → refines (dump s) s.
Proof.
  intros Hk ty id Hty _. f_equal. unfold rowsOf, dump, stream_at. cbn [rows].
  rewrite dump_filter; [|apply NoDup_fst_map_to_list|done|done]. by rewrite list_to_map_to_list.
Qed.
End dump.

#[local] Existing Instance hexPgUuid.

(** Requested and not yet driven: its Transaction and the Transfer are selected. *)
Lemma resume_open_selects_witness :
  ∃ targets, run (fst requested) (resolveTargets (mkCatalogue (Ok (sagaStreams (terminals stateTable) (dump (w_store (fst requested))))) (λ _, Ok [])) true []) =
      (fst requested, Ok targets) ∧
    (mkTarget TransferAggregateType transfer1 ∈ targets ↔ goesOn (fst requested) (mkTarget TransferAggregateType transfer1)) ∧
    goesOn (fst requested) (mkTarget TransferAggregateType transfer1).
Proof.
  destruct (resume_open_selects requested (dump (w_store (fst requested))) stateTable (mkTarget TransferAggregateType transfer1))
    as (targets & Hrun & Hiff).
  - apply requested_reachable.
  - apply dump_refines. evaluate.
  - reflexivity.
  - unfold sagaTarget. simpl. decided.
  - evaluate.
  - exists targets. split; [exact Hrun|]. split; [exact Hiff|]. left. split; [reflexivity | evaluate].
Defined.
