(* ===== verification/EventsRender.v ===== *)
(** * How an event is printed ([go/cmd/events/render.go])

    Text is bytes; the payload is cut by runes, so UTF-8 is decoded and encoded as Go
    does it, an invalid byte being U+FFFD. The time of day and the payload as JSON are
    parameters: what [time.Format] and [protojson] make of them.

    What is shown: a payload is cut to the width asked for and no further, on a rune's
    boundary, and the cut is marked; and the colours are only colours: without them
    the line is the one printed with colour off. *)

From S2P Require Import Prelude GoText Proto EventStore.

(** ** UTF-8 *)

Definition cont (b : Z) : bool := (0x80 <=? b) && (b <=? 0xBF).
Definition two (b0 b1 : Z) : bool := (0xC2 <=? b0) && (b0 <=? 0xDF) && cont b1.
Definition three (b0 b1 b2 : Z) : bool :=
  (0xE0 <=? b0) && (b0 <=? 0xEF) && ((if b0 =? 0xE0 then 0xA0 else 0x80) <=? b1) &&
  (b1 <=? (if b0 =? 0xED then 0x9F else 0xBF)) && cont b2.
Definition four (b0 b1 b2 b3 : Z) : bool :=
  (0xF0 <=? b0) && (b0 <=? 0xF4) && ((if b0 =? 0xF0 then 0x90 else 0x80) <=? b1) &&
  (b1 <=? (if b0 =? 0xF4 then 0x8F else 0xBF)) && cont b2 && cont b3.

Definition RuneError : Z := 0xFFFD.

(** [[]rune(s)] *)
Fixpoint runes (bs : list Z) : list Z :=
  match bs with
  | [] => []
  | b0 :: r0 =>
      if b0 <? 0x80 then b0 :: runes r0
      else
        match r0 with
        | b1 :: r1 =>
            if two b0 b1 then (b0 - 0xC0) * 64 + (b1 - 0x80) :: runes r1
            else
              match r1 with
              | b2 :: r2 =>
                  if three b0 b1 b2 then (b0 - 0xE0) * 4096 + (b1 - 0x80) * 64 + (b2 - 0x80) :: runes r2
                  else
                    match r2 with
                    | b3 :: r3 =>
                        if four b0 b1 b2 b3 then
                          (b0 - 0xF0) * 262144 + (b1 - 0x80) * 4096 + (b2 - 0x80) * 64 + (b3 - 0x80) :: runes r3
                        else RuneError :: runes r0
                    | [] => RuneError :: runes r0
                    end
              | [] => RuneError :: runes r0
              end
        | [] => RuneError :: runes r0
        end
  end.

Definition validRune (r : Z) : Prop := 0 ≤ r ≤ 0x10FFFF ∧ ¬ (0xD800 ≤ r ≤ 0xDFFF).

(** [string(runes)] *)
Definition encodeRune (r : Z) : list Z :=
  if r <? 0 then [0xEF; 0xBF; 0xBD]
  else if r <? 0x80 then [r]
  else if r <? 0x800 then [0xC0 + r / 64; 0x80 + r mod 64]
  else if (0xD800 <=? r) && (r <=? 0xDFFF) || (0x10FFFF <? r) then [0xEF; 0xBF; 0xBD]
  else if r <? 0x10000 then [0xE0 + r / 4096; 0x80 + r / 64 mod 64; 0x80 + r mod 64]
  else [0xF0 + r / 262144; 0x80 + r / 4096 mod 64; 0x80 + r / 64 mod 64; 0x80 + r mod 64].

Lemma runes_encodeRune r rest : validRune r → runes (encodeRune r ++ rest) = r :: runes rest.
Proof.
  intros [Hr Hs]. unfold encodeRune. replace (r <? 0) with false by lia.
  destruct (Z.ltb_spec r 0x80) as [Ha|Ha].
  { simpl. by replace (r <? 128) with true by lia. }
  pose proof (Z_div_mod_eq_full r 64). pose proof (Z.mod_pos_bound r 64).
  pose proof (Z_div_mod_eq_full (r / 64) 64). pose proof (Z.mod_pos_bound (r / 64) 64).
  pose proof (Z_div_mod_eq_full (r / 4096) 64). pose proof (Z.mod_pos_bound (r / 4096) 64).
  assert (r / 64 / 64 = r / 4096) as H64 by by rewrite Z.div_div.
  assert (r / 4096 / 64 = r / 262144) as H4096 by by rewrite Z.div_div.
  destruct (Z.ltb_spec r 0x800) as [Hb|Hb].
  { cbn [app runes]. replace (0xC0 + r / 64 <? 0x80) with false by lia. unfold two, cont.
    replace ((0xC2 <=? 0xC0 + r / 64) && (0xC0 + r / 64 <=? 0xDF) && ((0x80 <=? 0x80 + r mod 64) && (0x80 + r mod 64 <=? 0xBF)))
      with true by lia. f_equal. lia. }
  replace ((0xD800 <=? r) && (r <=? 0xDFFF) || (0x10FFFF <? r)) with false by lia.
  destruct (Z.ltb_spec r 0x10000) as [Hc|Hc].
  { cbn [app runes]. replace (0xE0 + r / 4096 <? 0x80) with false by lia.
    assert (two (0xE0 + r / 4096) (0x80 + r / 64 mod 64) = false) as -> by (unfold two; lia).
    assert (three (0xE0 + r / 4096) (0x80 + r / 64 mod 64) (0x80 + r mod 64) = true) as ->.
    { unfold three, cont. destruct (Z.eqb_spec (0xE0 + r / 4096) 0xE0), (Z.eqb_spec (0xE0 + r / 4096) 0xED); lia. }
    f_equal. lia. }
  cbn [app runes]. replace (0xF0 + r / 262144 <? 0x80) with false by lia.
  assert (two (0xF0 + r / 262144) (0x80 + r / 4096 mod 64) = false) as -> by (unfold two; lia).
  assert (three (0xF0 + r / 262144) (0x80 + r / 4096 mod 64) (0x80 + r / 64 mod 64) = false) as -> by (unfold three; lia).
  assert (four (0xF0 + r / 262144) (0x80 + r / 4096 mod 64) (0x80 + r / 64 mod 64) (0x80 + r mod 64) = true) as ->.
  { unfold four, cont. destruct (Z.eqb_spec (0xF0 + r / 262144) 0xF0), (Z.eqb_spec (0xF0 + r / 262144) 0xF4); lia. }
  f_equal. lia.
Qed.

Definition isByte (b : Z) : Prop := 0 ≤ b < 256.

(** Whatever the bytes, what they decode to is runes. *)
Lemma runes_valid bs : Forall isByte bs → Forall validRune (runes bs).
Proof.
  assert (∀ n bs, (length bs ≤ n)%nat → Forall isByte bs → Forall validRune (runes bs)) as Hall; [|eauto].
  clear bs. induction n as [|n IH]; intros bs Hlen Hb; [by destruct bs; simpl in Hlen; [|lia]|].
  destruct bs as [|b0 r0]; [done|]. apply Forall_cons in Hb as [H0 Hr0]. simpl in Hlen.
  assert (Forall validRune (RuneError :: runes r0)) as Herr by (constructor; [unfold validRune, RuneError; lia | apply IH; [lia|done]]).
  unfold isByte in *. cbn [runes]. destruct (Z.ltb_spec b0 0x80) as [Hlt|Hge].
  { constructor; [unfold validRune; lia | apply IH; [lia|done]]. }
  destruct r0 as [|b1 r1]; [done|]. apply Forall_cons in Hr0 as [H1 Hr1]. simpl in Hlen. destruct (two b0 b1) eqn:H2.
  { unfold two, cont in H2. constructor; [unfold validRune; lia | apply IH; [lia|done]]. }
  destruct r1 as [|b2 r2]; [done|]. apply Forall_cons in Hr1 as [Hb2 Hr2]. simpl in Hlen. destruct (three b0 b1 b2) eqn:H3.
  { unfold three, cont in H3. constructor; [unfold validRune | apply IH; [lia|done]].
    destruct (Z.eqb_spec b0 0xE0), (Z.eqb_spec b0 0xED); lia. }
  destruct r2 as [|b3 r3]; [done|]. apply Forall_cons in Hr2 as [Hb3 Hr3]. simpl in Hlen. destruct (four b0 b1 b2 b3) eqn:H4; [|done].
  unfold four, cont in H4. constructor; [unfold validRune | apply IH; [lia|done]].
  destruct (Z.eqb_spec b0 0xF0), (Z.eqb_spec b0 0xF4); lia.
Qed.

Lemma runes_encode rs rest : Forall validRune rs → runes ((rs ≫= encodeRune) ++ rest) = rs ++ runes rest.
Proof.
  induction 1 as [|r rs Hr _ IH]; [done|]. rewrite bind_cons, <- app_assoc, runes_encodeRune, IH by done. done.
Qed.

Lemma encodeRune_bytes r : validRune r → Forall isByte (encodeRune r).
Proof.
  intros [Hr Hs]. unfold encodeRune, isByte.
  pose proof (Z.mod_pos_bound r 64). pose proof (Z.mod_pos_bound (r / 64) 64). pose proof (Z.mod_pos_bound (r / 4096) 64).
  replace (r <? 0) with false by lia. destruct (Z.ltb_spec r 0x80); [repeat constructor; lia|].
  destruct (Z.ltb_spec r 0x800) as [Hb|Hb].
  { assert (0 ≤ r / 64 < 32) by (split; [apply Z.div_pos | apply Z.div_lt_upper_bound]; lia). repeat constructor; lia. }
  destruct (_ || _); [repeat constructor; lia|]. destruct (Z.ltb_spec r 0x10000).
  { assert (0 ≤ r / 4096 < 16) by (split; [apply Z.div_pos | apply Z.div_lt_upper_bound]; lia). repeat constructor; lia. }
  assert (0 ≤ r / 262144 < 8) by (split; [apply Z.div_pos | apply Z.div_lt_upper_bound]; lia). repeat constructor; lia.
Qed.

(** ** Bytes and text *)

Fixpoint bytesOf (s : string) : list Z :=
  match s with EmptyString => [] | String a s => Z.of_N (Ascii.N_of_ascii a) :: bytesOf s end.
Fixpoint textOf (bs : list Z) : string :=
  match bs with [] => EmptyString | b :: bs => String (Ascii.ascii_of_N (Z.to_N b)) (textOf bs) end.

Lemma bytesOf_app s s' : bytesOf (s +:+ s') = bytesOf s ++ bytesOf s'.
Proof. induction s as [|a s IH]; [done|]. change (bytesOf (String a (s +:+ s')) = bytesOf (String a s) ++ bytesOf s'). simpl. by rewrite IH. Qed.

Lemma bytesOf_bytes s : Forall isByte (bytesOf s).
Proof.
  induction s as [|a s IH]; constructor; [|done]. unfold isByte. pose proof (Ascii.N_ascii_bounded a). lia.
Qed.

Lemma bytesOf_textOf bs : Forall isByte bs → bytesOf (textOf bs) = bs.
Proof.
  induction 1 as [|b bs Hb _ IH]; [done|]. simpl. rewrite IH. f_equal. unfold isByte in Hb.
  rewrite Ascii.N_ascii_embedding by lia. lia.
Qed.

Definition runesOf (s : string) : list Z := runes (bytesOf s).

(** ** truncate *)

Definition ellipsisRune : Z := 0x2026.
Definition ellipsis : string := textOf (encodeRune ellipsisRune).

Definition truncate (s : string) (width : Z) : string :=
  if (width <=? 0) || (len (runesOf s) <=? width) then s
  else textOf (take (Z.to_nat (width - 1)) (runesOf s) ≫= encodeRune) +:+ ellipsis.

(** A payload is shown whole when it fits, and otherwise as all but the last rune of the
    width, and the mark. *)
Theorem truncate_runes s width : 0 < width →
  runesOf (truncate s width) =
    if len (runesOf s) <=? width then runesOf s else take (Z.to_nat (width - 1)) (runesOf s) ++ [ellipsisRune].
Proof.
  intros Hw. unfold truncate. replace (width <=? 0) with false by lia. cbn [orb]. destruct (Z.leb_spec (len (runesOf s)) width); [done|].
  assert (Forall validRune (take (Z.to_nat (width - 1)) (runesOf s))) as Hv by (by apply Forall_take, runes_valid, bytesOf_bytes).
  unfold runesOf at 1. rewrite bytesOf_app, bytesOf_textOf.
  - rewrite runes_encode by done. done.
  - apply Forall_bind. eapply Forall_impl; [exact Hv|]. intros r. apply encodeRune_bytes.
Qed.

Lemma truncate_width s width : 0 < width → len (runesOf (truncate s width)) ≤ width.
Proof.
  intros Hw. rewrite truncate_runes by done. destruct (Z.leb_spec (len (runesOf s)) width); [done|].
  rewrite length_app, length_take. simpl. lia.
Qed.

(** ** A line *)

Definition esc : Ascii.ascii := Ascii.ascii_of_nat 27.
Definition sgr (code : string) : string := String esc ("[" +:+ code +:+ "m").

Definition reset : string := sgr "0".
Definition bold : string := sgr "1".
Definition dim : string := sgr "2".
Definition red : string := sgr "31".
Definition green : string := sgr "32".
Definition idColors : list string := sgr <$> ["33"; "34"; "35"; "36"; "91"; "92"; "93"; "94"].
Definition typeColors (ty : string) : string :=
  if bool_decide (ty = "transaction") then sgr "1;35"
  else if bool_decide (ty = "transfer") then sgr "1;36"
  else if bool_decide (ty = "token") then sgr "33"
  else if bool_decide (ty = "wallet") then sgr "32"
  else if bool_decide (ty = "holder") then sgr "37"
  else "".
Definition failureWords : list string := ["Rejected"; "Failed"; "Cancelled"; "Rollback"; "RolledBack"; "Returned"].
Definition successWords : list string := ["Completed"; "Committed"; "Performed"].
Definition typeWidth : nat := String.length "transaction".

(** [hash/fnv]'s 32-bit FNV-1a. *)
Definition fnv32a (s : string) : Z :=
  foldl (λ h b, Z.lxor h b * 16777619 mod 2 ^ 32) 2166136261 (bytesOf s).

Definition idColor (id : string) : string :=
  default "" (idColors !! Z.to_nat (fnv32a id mod len idColors)).

Definition outcomeColor (name : string) : string :=
  if existsb (Contains name) failureWords then red
  else if existsb (Contains name) successWords then green
  else "".

Definition shortID (id : string) : string :=
  let n := String.length id in
  if (n <=? 8)%nat then id else ellipsis +:+ String.substring (n - 8) 8 id.

Record renderer : Type := mkRenderer { r_color : bool; r_payload : bool; r_width : Z }.

Definition paint (r : renderer) (code text : string) : string :=
  if negb (r_color r) || bool_decide (code = "") then text else code +:+ text +:+ reset.

(** What follows the last dot of an event's type. *)
Definition dot : Ascii.ascii := Ascii.ascii_of_nat 46.
Definition eventName (etype : string) : string := default "" (last (Split dot etype)).

(** [fmt]'s [%-*s]: the width counts runes. *)
Fixpoint spaces (n : nat) : string := match n with O => "" | S n => " " +:+ spaces n end.
Definition padded (width : nat) (s : string) : string := s +:+ spaces (width - length (runesOf s)).

Fixpoint joinFields (fields : list string) : string :=
  match fields with
  | [] => ""
  | [x] => x
  | x :: xs => x +:+ "  " +:+ joinFields xs
  end.

Section line.
Context {C : Codec}.
Variable clock : Z → string.                    (* OccurredAt.In(location).Format("15:04:05.000") *)
Variable payloadJSON : Event → result string.   (* decodedPayload *)

Definition payloadText (e : Event) : string :=
  match payloadJSON e with Ok s => s | Err err => "(undecodable: " +:+ e_msg err +:+ ")" end.

Definition writeLine (r : renderer) (e : Event) : string :=
  let name := eventName (EType e) in
  joinFields
    ([paint r dim (clock (OccurredAt e));
      paint r dim ("#" +:+ decimal (GlobalSeq e));
      paint r (typeColors (AggregateType e)) (padded typeWidth (AggregateType e));
      paint r (idColor (AggregateID e)) (shortID (AggregateID e));
      paint r dim ("#" +:+ decimal (Sequence e));
      paint r (outcomeColor name +:+ bold) name] ++
     (if r_payload r then [paint r dim (truncate (payloadText e) (r_width r))] else []))
  +:+ String (Ascii.ascii_of_nat 10) EmptyString.
End line.

(** ** Without its colours *)

(** What is left of text without its escape sequences. *)
Fixpoint strip (inside : bool) (s : string) : string :=
  match s with
  | EmptyString => EmptyString
  | String a s =>
      if inside then strip (negb (Ascii.eqb a (Ascii.ascii_of_nat 109))) s
      else if Ascii.eqb a esc then strip true s
      else String a (strip false s)
  end.

(** A sequence of escape sequences, however many. *)
Definition colours (code : string) : Prop := ∀ s, strip false (code +:+ s) = strip false s.

Lemma strip_app s s' : occurs esc s = false → strip false (s +:+ s') = s +:+ strip false s'.
Proof.
  induction s as [|a s IH]; [done|]. simpl. intros [Ha Hs]%orb_false_iff.
  change (strip false (String a (s +:+ s')) = String a (s +:+ strip false s')). simpl. by rewrite Ha, IH.
Qed.

Lemma strip_plain s : occurs esc s = false → strip false s = s.
Proof. induction s as [|a s IH]; [done|]. simpl. intros [-> Hs]%orb_false_iff. by rewrite IH. Qed.

Lemma colours_app c c' : colours c → colours c' → colours (c +:+ c').
Proof. intros Hc Hc' s. by rewrite append_assoc, Hc, Hc'. Qed.

Lemma paint_strip r code text rest : colours code → occurs esc text = false →
  strip false (paint r code text +:+ rest) = text +:+ strip false rest.
Proof.
  intros Hc Ht. unfold paint. destruct (_ || _); [by apply strip_app|].
  rewrite !append_assoc, Hc, strip_app by done. done.
Qed.

Lemma typeColors_colours ty : colours (typeColors ty).
Proof. unfold typeColors. repeat case_bool_decide; by intros s. Qed.

Lemma idColor_colours id : colours (idColor id).
Proof.
  unfold idColor. destruct (idColors !! _) as [c|] eqn:Hc; [|by intros s]. apply list_elem_of_lookup_2 in Hc.
  revert c Hc. apply Forall_forall. repeat constructor; by intros s.
Qed.

Lemma outcomeColor_colours name : colours (outcomeColor name).
Proof. unfold outcomeColor. destruct (existsb _ _); [by intros s|]. destruct (existsb _ _); by intros s. Qed.

(** Coloured fields, stripped, are the plain ones. *)
Lemma joinFields_strip r (fields : list (string * string)) rest :
  Forall (λ f, colours (fst f) ∧ occurs esc (snd f) = false) fields →
  strip false (joinFields ((λ f, paint r (fst f) (snd f)) <$> fields) +:+ rest) = joinFields fields.*2 +:+ strip false rest.
Proof.
  induction 1 as [|[code text] fields [Hc Ht] Hall IH]; [done|]. destruct fields as [|f fields].
  - simpl. by apply paint_strip.
  - change (strip false ((paint r code text +:+ "  " +:+ joinFields ((λ f, paint r (fst f) (snd f)) <$> f :: fields)) +:+ rest) =
      (text +:+ "  " +:+ joinFields (f :: fields).*2) +:+ strip false rest).
    rewrite !append_assoc, paint_strip by done. by rewrite strip_app, IH.
Qed.

(** The columns of a line, with their colours. *)
Definition columns `{Codec} clock payloadJSON (r : renderer) (e : Event) : list (string * string) :=
  [(dim, clock (OccurredAt e)); (dim, "#" +:+ decimal (GlobalSeq e));
   (typeColors (AggregateType e), padded typeWidth (AggregateType e));
   (idColor (AggregateID e), shortID (AggregateID e)); (dim, "#" +:+ decimal (Sequence e));
   (outcomeColor (eventName (EType e)) +:+ bold, eventName (EType e))] ++
  (if r_payload r then [(dim, truncate (payloadText payloadJSON e) (r_width r))] else []).

(** The colours carry nothing: a line whose texts have no escapes of their own is, without
    its colours, the line printed with colour off. *)
Theorem writeLine_plain `{Codec} clock payloadJSON r e :
  Forall (λ f, occurs esc (snd f) = false) (columns clock payloadJSON r e) →
  strip false (writeLine clock payloadJSON r e) = writeLine clock payloadJSON (mkRenderer false (r_payload r) (r_width r)) e.
Proof.
  intros Hplain.
  assert (∀ r', r_payload r' = r_payload r → r_width r' = r_width r →
    writeLine clock payloadJSON r' e =
      joinFields ((λ f, paint r' (fst f) (snd f)) <$> columns clock payloadJSON r e) +:+ String (Ascii.ascii_of_nat 10) "") as Heq.
  { intros r' Hp Hw. unfold writeLine, columns. rewrite Hp, Hw. by destruct (r_payload r). }
  rewrite (Heq r), (Heq (mkRenderer false _ _)) by done. rewrite joinFields_strip.
  - done.
  - apply Forall_and. split; [|exact Hplain]. unfold columns. apply Forall_app. split.
    + repeat constructor; simpl; try (by intros s); [apply typeColors_colours | apply idColor_colours|].
      apply colours_app; [apply outcomeColor_colours | by intros s].
    + by destruct (r_payload r); repeat constructor.
Qed.
