(* ===== verification/Events.v ===== *)
(** * Tailing the log ([go/cmd/events])

    The command reads the events table forward by [global_seq]. A number is taken
    when a row is inserted and shows when its transaction commits, so rows appear
    out of order: the cursor remembers the numbers it passed and asks for them
    again for a grace period. A poll is modelled with what it can observe, the rows
    visible to it and the clock; what is printed is the list of events written, not
    their rendering ([render.go]). *)

From stdpp Require Import sorting.
From S2P Require Import Prelude GoText Proto EventStore Validate Postgres.

(** ** The cursor ([cursor.go]) *)

Definition maxTrackedGap : Z := 1000.

Record cursor : Type := mkCursor { after : Z; holes : gmap Z Z; grace : Z }.

Definition newCursor (after grace : Z) : cursor := mkCursor after ∅ grace.

(** [slices.Sort] of the keys. *)
Definition position (c : cursor) : Z * list Z :=
  (after c, merge_sort Z.le (map fst (map_to_list (holes c)))).

(** [Time.Sub] saturates. *)
Definition Sub (t u : Z) : Z := Z.max (- 2 ^ 63) (Z.min MaxInt64 (t - u)).

(** [for missing := c.after + 1; missing < seq; missing++] *)
Definition openHoles (now : Z) (c : cursor) (seq : Z) : gmap Z Z :=
  foldl (λ h missing, <[missing := now]> h) (holes c) (seqZ (after c + 1) (seq - after c - 1)).

Definition see (now : Z) (c : cursor) (seq : Z) : cursor :=
  match holes c !! seq with
  | Some _ => mkCursor (after c) (delete seq (holes c)) (grace c)
  | None =>
      if seq <=? after c then c
      else
        mkCursor seq
          (if i64 (i64 (seq - after c) - 1) <=? maxTrackedGap then openHoles now c seq else holes c)
          (grace c)
  end.

Definition expire (now : Z) (c : cursor) : cursor :=
  mkCursor (after c) (filter (λ so, ¬ grace c < Sub now so.2) (holes c)) (grace c).

Definition advance (c : cursor) (seqs : list Z) (now : Z) : cursor := expire now (foldl (see now) c seqs).

(** ** What is shown ([filter.go], [follow.go]) *)

Record eventFilter : Type := mkFilter { f_types : gset string; idFragment : string }.

Definition newFilter (types idFragment : string) : eventFilter :=
  mkFilter (list_to_set (filter (λ typ, typ ≠ "") (map TrimSpace (Split comma types))))
    (ToLower (TrimSpace idFragment)).

(** The string fields the follower asks a message for by name; "" where there is none. *)
Definition transaction_id (m : message) : string :=
  match m with
  | TransferRequestAccepted a => ta_TransactionId a
  | ReversalRequestAccepted a => ra_TransactionId a
  | TokenMintedForWallet a => mw_TransactionId a
  | _ => ""
  end.

Definition transfer_id (m : message) : string :=
  match m with
  | ReversalRequestAccepted a => ra_TransferId a
  | ReversalRequestRejected _ transferId _ => transferId
  | TransferRequestedWithinTransaction _ transferId | TransferCompletedWithinTransaction _ transferId
  | TransferFailedWithinTransaction _ transferId _ | TransferReversalRequestedWithinTransaction _ transferId _
  | TransferRolledBackWithinTransaction _ transferId _ _
  | TransferRollbackFailedWithinTransaction _ transferId _ => transferId
  | _ => ""
  end.

Definition reversal_id (m : message) : string :=
  match m with TransferReversalRequestedWithinTransaction _ _ reversalId => reversalId | _ => "" end.

(** The keys of the map field [transfers]. *)
Definition transfers_keys (m : message) : gset string :=
  match m with TransactionInitialized i => dom (in_Transfers i) | _ => ∅ end.

Definition newFollower (transactionID : string) : option (gset string) :=
  if bool_decide (transactionID = "") then None else Some {[ transactionID ]}.

(** The ids an admitted event adds. *)
Definition learn (aggregateID : string) (m : message) : gset string :=
  {[ aggregateID ]} ∪ list_to_set (filter (λ id, id ≠ "") [transfer_id m; reversal_id m]) ∪ transfers_keys m.

Section events.
Context {C : Codec} {PU : PgUuid}.

Definition matches (f : eventFilter) (e : Event) : bool :=
  if bool_decide (f_types f ≠ ∅ ∧ AggregateType e ∉ f_types f) then false
  else bool_decide (idFragment f = "") || Contains (ToLower (AggregateID e)) (idFragment f).

Definition admits (f : option (gset string)) (e : Event) : option (gset string) * bool :=
  match f with
  | None => (None, true)
  | Some ids =>
      match Decode e with
      | Err _ => (Some ids, bool_decide (AggregateID e ∈ ids))
      | Ok msg =>
          let joins := bool_decide (Sequence e = 1 ∧ (transaction_id msg ∈ ids ∨ transfer_id msg ∈ ids)) in
          if negb (bool_decide (AggregateID e ∈ ids)) && negb joins then (Some ids, false)
          else (Some (ids ∪ learn (AggregateID e) msg), true)
      end
  end.

(** ** The log ([source.go]): the rows visible to a query *)

Definition maxSeq (rows : list Event) : Z := foldr (λ e, Z.max (GlobalSeq e)) 0 rows.

Definition head (f : option error) (rows : list Event) : result Z :=
  match f with Some e => Err (wrapf "read the head of the log: " e) | None => Ok (maxSeq rows) end.

Definition minSeq (rows : list Event) : option Z :=
  foldr (λ e m, Some (match m with Some x => Z.min (GlobalSeq e) x | None => GlobalSeq e end)) None rows.

Definition first (f : option error) (rows : list Event) (aggregateType aggregateID : string) : result Z :=
  match f, pgUuid aggregateID with
  | Some e, _ => Err (wrapf ("find " ++ aggregateID ++ "'s first event: ") e)
  | None, None => Err (wrapf ("find " ++ aggregateID ++ "'s first event: ") (plain "invalid input syntax for type uuid"))
  | None, Some id =>
      match minSeq (filter (λ e, AggregateType e = aggregateType ∧ AggregateID e = id) rows) with
      | Some n => Ok n
      | None => Err (plain ("no events for aggregate " ++ aggregateID))
      end
  end.

(** ORDER BY global_seq *)
Definition seqLe (e e' : Event) : Prop := GlobalSeq e ≤ GlobalSeq e'.
#[global] Instance seqLe_dec : RelDecision seqLe.
Proof. intros e e'. unfold seqLe. apply _. Defined.
Definition orderByGlobal (rows : list Event) : list Event := merge_sort seqLe rows.

(** WHERE global_seq > $1 OR global_seq = ANY($2) *)
Definition wantedRows (after : Z) (holes : list Z) (rows : list Event) : list Event :=
  filter (λ e, after < GlobalSeq e ∨ GlobalSeq e ∈ holes) rows.

Definition selectRows (after : Z) (holes : list Z) (limit : nat) (rows : list Event) : list Event :=
  take limit (orderByGlobal (wantedRows after holes rows)).

Definition read (f : option error) (after : Z) (holes : list Z) (limit : nat) (rows : list Event) :
    result (list Event) :=
  match f with Some e => Err (wrapf "read events: " e) | None => Ok (selectRows after holes limit rows) end.

(** ** The tail ([main.go]) *)

Definition startingPoint (f : option error) (rows : list Event) (from last : Z) (followID : string) : result Z :=
  if 0 <=? from then Ok from
  else if bool_decide (last = 0 ∧ followID ≠ "") then
    let? first := first f rows "transaction" followID in Ok (i64 (first - 1))
  else let? head := head f rows in Ok (Z.max (i64 (head - last)) 0).

Record tailer : Type := mkTailer {
  t_filter : eventFilter; t_follow : option (gset string); t_cursor : cursor; printed : list Event
}.

Definition batchSize : nat := 500.

(** What one turn of the loop meets: the rows its read and its [head] see, the
    clock, the failures of the two queries and of the terminal, and whether the
    context is done by the time it waits. *)
Record tick : Type := mkTick {
  visible : list Event; clock : Z; readFails : option error; writeFails : Event → option error;
  visibleHead : list Event; headFails : option error; interrupted : option error
}.

Fixpoint show (w : Event → option error) (f : eventFilter) (fl : option (gset string)) (es : list Event) :
    option (gset string) * list Event * result unit :=
  match es with
  | [] => (fl, [], Ok tt)
  | e :: rest =>
      let '(fl, ok) := admits fl e in
      if negb ok || negb (matches f e) then show w f fl rest
      else
        match w e with
        | Some err => (fl, [], Err err)
        | None => let '(fl, out, r) := show w f fl rest in (fl, e :: out, r)
        end
  end.

Definition poll (tk : tick) (t : tailer) : tailer * result unit :=
  let '(aft, hs) := position (t_cursor t) in
  match read (readFails tk) aft hs batchSize (visible tk) with
  | Err e => (t, Err e)
  | Ok events =>
      let seqs := GlobalSeq <$> events in
      match show (writeFails tk) (t_filter t) (t_follow t) events with
      | (fl, out, Err e) => (mkTailer (t_filter t) fl (t_cursor t) (printed t ++ out), Err e)
      | (fl, out, Ok _) =>
          (mkTailer (t_filter t) fl (advance (t_cursor t) seqs (clock tk)) (printed t ++ out), Ok tt)
      end
  end.

(** The loop over the turns it lives through; none: it is still running. *)
Fixpoint run (once : bool) (ticks : list tick) (t : tailer) : tailer * option (result unit) :=
  match ticks with
  | [] => (t, None)
  | tk :: rest =>
      match poll tk t with
      | (t, Err e) => (t, Some (Err e))
      | (t, Ok _) =>
          if once then
            match head (headFails tk) (visibleHead tk) with
            | Err e => (t, Some (Err e))
            | Ok h => if h <=? (position (t_cursor t)).1 then (t, Some (Ok tt)) else run once rest t
            end
          else
            match interrupted tk with
            | Some e => (t, Some (Err e))
            | None => run once rest t
            end
      end
  end.

(** ** The cursor's bookkeeping *)

Lemma openHoles_lookup now c seq s :
  openHoles now c seq !! s = if bool_decide (after c < s < seq) then Some now else holes c !! s.
Proof.
  unfold openHoles.
  assert (∀ l (h : gmap Z Z), foldl (λ h missing, <[missing := now]> h) h l !! s = if bool_decide (s ∈ l) then Some now else h !! s)
    as Hfold.
  { induction l as [|x l IH]; intros h; simpl; [done|]. rewrite IH.
    destruct (decide (s = x)) as [->|Hne].
    - rewrite lookup_insert_eq, (bool_decide_eq_true_2 (x ∈ x :: l)) by set_solver. by case_bool_decide.
    - rewrite lookup_insert_ne by done.
      by rewrite (bool_decide_ext (s ∈ l) (s ∈ x :: l)) by (rewrite elem_of_cons; naive_solver). }
  rewrite Hfold. by rewrite (bool_decide_ext _ (after c < s < seq)) by (rewrite elem_of_seqZ; lia).
Qed.

Lemma sorted_NoDup (l : list Z) : StronglySorted Z.lt l → NoDup l.
Proof.
  induction 1 as [|x l _ IH Hx]; constructor; [|done]. rewrite Forall_forall in Hx. intros Hin. specialize (Hx x Hin). lia.
Qed.

(** [s] lies in a gap of [seqs] after [p0] that is too wide to be tracked. *)
Definition wideGap (seqs : list Z) (p0 s : Z) : Prop :=
  ∃ p q, p0 ≤ p ∧ p < s < q ∧ q ∈ seqs ∧ maxTrackedGap < q - p - 1 ∧ ∀ x, x ∈ seqs → ¬ p < x < q.

(** What passing the ascending numbers [seqs] does to a cursor. *)
Record passed (now : Z) (seqs : list Z) (c c' : cursor) : Prop := {
  p_grace : grace c' = grace c;
  p_after : after c ≤ after c';
  p_last : after c' = after c ∨ after c' ∈ seqs;
  p_all : ∀ q, q ∈ seqs → q ≤ after c';
  p_old : ∀ s, s ≤ after c → holes c' !! s = if bool_decide (s ∈ seqs) then None else holes c !! s;
  p_new : ∀ s o, after c < s → holes c' !! s = Some o → o = now ∧ s ∉ seqs ∧ s < after c';
  p_cover : ∀ s, after c < s ≤ after c' → s ∈ seqs ∨ holes c' !! s = Some now ∨ wideGap seqs (after c) s
}.

Definition bounded (c : cursor) : Prop := ∀ s, is_Some (holes c !! s) → s ≤ after c.

Lemma passed_bounded now seqs c c' : passed now seqs c c' → bounded c'.
Proof.
  intros [_ Ha _ _ _ Hn _] s [o Ho]. destruct (decide (s ≤ after c)); [lia|].
  destruct (Hn s o); [lia|done|lia].
Qed.

Lemma see_jump now c seq :
  bounded c → 0 ≤ after c → after c < seq < 2 ^ 63 → passed now [seq] c (see now c seq).
Proof.
  intros Hb H0 Hs. unfold see.
  destruct (holes c !! seq) eqn:Hh; [specialize (Hb seq ltac:(by eexists)); lia|].
  destruct (Z.leb_spec seq (after c)); [lia|].
  rewrite (i64_small (seq - _)), i64_small by (unfold in_i64; lia).
  assert (∀ s, after c < s → holes c !! s = None) as Hnone.
  { intros s Hs'. apply eq_None_not_Some. intros Hi. specialize (Hb s Hi). lia. }
  assert (∀ s, s ∈ [seq] ↔ s = seq) as Hin by (intros; apply list_elem_of_singleton).
  split; simpl.
  - done.
  - lia.
  - right. by apply Hin.
  - intros q ->%Hin. done.
  - intros s Hs'. rewrite bool_decide_eq_false_2 by (rewrite Hin; lia).
    destruct (Z.leb_spec (seq - after c - 1) maxTrackedGap); [|done].
    by rewrite openHoles_lookup, bool_decide_eq_false_2 by lia.
  - intros s o Hs'. destruct (Z.leb_spec (seq - after c - 1) maxTrackedGap); [|by rewrite Hnone].
    rewrite openHoles_lookup. case_bool_decide as Hi; [|by rewrite Hnone]. intros [= <-]. rewrite Hin. lia.
  - intros s Hs'. rewrite Hin. destruct (decide (s = seq)) as [->|]; [by left|right].
    destruct (Z.leb_spec (seq - after c - 1) maxTrackedGap).
    + left. by rewrite openHoles_lookup, bool_decide_eq_true_2 by lia.
    + right. exists (after c), seq. split_and!; [lia..|by apply Hin|lia|]. intros x ->%Hin. lia.
Qed.

Lemma see_back now c seq : bounded c → seq ≤ after c → passed now [seq] c (see now c seq).
Proof.
  intros Hb Hs. assert (∀ s, s ∈ [seq] ↔ s = seq) as Hin by (intros; apply list_elem_of_singleton).
  assert (see now c seq = mkCursor (after c) (delete seq (holes c)) (grace c)) as ->.
  { unfold see. destruct (holes c !! seq) eqn:Hh; [done|]. destruct (Z.leb_spec seq (after c)); [|lia].
    rewrite delete_id by done. by destruct c. }
  split; simpl.
  - done.
  - lia.
  - by left.
  - intros q ->%Hin. done.
  - intros s _. case_bool_decide as Hi; rewrite Hin in Hi; subst; [apply lookup_delete_eq|by apply lookup_delete_ne].
  - intros s o Hs'. rewrite lookup_delete_ne by lia. intros Ho. specialize (Hb s ltac:(by eexists)). lia.
  - intros s Hs'. lia.
Qed.

Lemma see_passed now c seq : bounded c → 0 ≤ after c → seq < 2 ^ 63 → passed now [seq] c (see now c seq).
Proof. intros. destruct (decide (seq ≤ after c)); [by apply see_back|apply see_jump; [done..|lia]]. Qed.

Lemma passed_app now seqs seqs' c c' c'' :
  (∀ x y, x ∈ seqs → y ∈ seqs' → x < y) → bounded c →
  passed now seqs c c' → passed now seqs' c' c'' → passed now (seqs ++ seqs') c c''.
Proof.
  intros Hord Hb [Hg Ha Hl Hall Hold Hnew Hcov] [Hg' Ha' Hl' Hall' Hold' Hnew' Hcov']. split.
  - congruence.
  - lia.
  - rewrite elem_of_app. destruct Hl' as [->|]; tauto.
  - intros q [Hq|Hq]%elem_of_app; [specialize (Hall _ Hq); lia|auto].
  - intros s Hs. rewrite Hold', Hold by lia.
    rewrite (bool_decide_ext (s ∈ seqs ++ seqs') (s ∈ seqs' ∨ s ∈ seqs)) by (rewrite elem_of_app; tauto).
    by repeat case_bool_decide; try tauto.
  - intros s o Hs Ho. destruct (decide (s ≤ after c')).
    + rewrite Hold' in Ho by done. case_bool_decide; [done|]. destruct (Hnew s o) as (?&?&?); [done..|].
      rewrite elem_of_app. split_and!; [done|tauto|lia].
    + destruct (Hnew' s o) as (?&?&?); [lia|done|]. split_and!; [done| |done].
      intros [Hq|Hq]%elem_of_app; [specialize (Hall _ Hq); lia|done].
  - intros s Hs. destruct (decide (s ≤ after c')).
    + destruct (Hcov s) as [?|[Ho|(p & q & ? & ? & Hq & ? & Hno)]]; [lia|rewrite elem_of_app; tauto|..].
      * rewrite elem_of_app. destruct (decide (s ∈ seqs')); [tauto|]. right; left. by rewrite Hold', bool_decide_eq_false_2.
      * do 2 right. exists p, q. rewrite elem_of_app. split_and!; [lia..|tauto|done|].
        intros x [Hx|Hx]%elem_of_app; [auto|]. specialize (Hord _ _ Hq Hx). lia.
    + destruct (Hcov' s) as [?|[Ho|(p & q & ? & ? & Hq & ? & Hno)]]; [lia|rewrite elem_of_app; tauto|tauto|].
      do 2 right. exists p, q. rewrite elem_of_app. split_and!; [lia..|tauto|done|].
      intros x [Hx|Hx]%elem_of_app; [specialize (Hall _ Hx); lia|auto].
Qed.

Lemma passed_nil now c : bounded c → passed now [] c c.
Proof.
  intros Hb. split; [done|lia|by left|by intros ? ?%not_elem_of_nil|done| |lia].
  intros s o Hs Ho. specialize (Hb s ltac:(by eexists)). lia.
Qed.

Lemma foldl_passed now seqs c :
  bounded c → 0 ≤ after c → StronglySorted Z.lt seqs → (∀ q, q ∈ seqs → q < 2 ^ 63) →
  passed now seqs c (foldl (see now) c seqs).
Proof.
  revert c. induction seqs as [|q seqs IH]; intros c Hb H0 Hs Hr; simpl; [by apply passed_nil|].
  apply StronglySorted_inv in Hs as [Hs Hq]. rewrite Forall_forall in Hq.
  assert (passed now [q] c (see now c q)) as Hp by (apply see_passed; [done..|by apply Hr; left]).
  apply (passed_app _ [q] _ _ (see now c q)); [|done..|].
  - intros x y ->%list_elem_of_singleton Hy. by apply Hq.
  - apply IH; [by eapply passed_bounded| |done|by intros x Hx; apply Hr; right]. destruct Hp. lia.
Qed.

(** ** What one poll reads *)

(** [global_seq] is an identity column. *)
Definition wf_rows (rows : list Event) : Prop :=
  NoDup (GlobalSeq <$> rows) ∧ ∀ e, e ∈ rows → 0 < GlobalSeq e < 2 ^ 63.

Definition shows (rows : list Event) (s : Z) : Prop := ∃ e, e ∈ rows ∧ GlobalSeq e = s.

Definition batch (c : cursor) (tk : tick) : list Event :=
  selectRows (position c).1 (position c).2 batchSize (visible tk).

Definition seqsOf (es : list Event) : list Z := GlobalSeq <$> es.

#[local] Instance seqLe_trans : Transitive seqLe.
Proof. intros ???. unfold seqLe. lia. Qed.
#[local] Instance seqLe_total : Total seqLe.
Proof. intros ??. unfold seqLe. lia. Qed.

Lemma position_holes c s : s ∈ (position c).2 ↔ is_Some (holes c !! s).
Proof.
  simpl. rewrite merge_sort_Permutation, list_elem_of_fmap. split.
  - intros [[k o] [-> Hk%elem_of_map_to_list]]. by exists o.
  - intros [o Ho]. exists (s, o). by rewrite elem_of_map_to_list.
Qed.

Lemma strictly_ordered es :
  StronglySorted seqLe es → NoDup (GlobalSeq <$> es) → StronglySorted Z.lt (seqsOf es).
Proof.
  unfold seqsOf. induction es as [|e es IH]; intros Hs Hn; [constructor|]. rewrite fmap_cons in *.
  apply StronglySorted_inv in Hs as [Hs He]. apply NoDup_cons in Hn as [Hne Hn]. rewrite Forall_forall in He.
  constructor; [by apply IH|]. apply Forall_fmap, Forall_forall. intros x Hx. specialize (He x Hx).
  assert (GlobalSeq x ≠ GlobalSeq e) by (intros Heq; apply Hne; rewrite <- Heq; by apply list_elem_of_fmap_2).
  unfold seqLe in He. simpl. lia.
Qed.

Lemma wantedRows_nodup a hs rows : NoDup (GlobalSeq <$> rows) → NoDup (GlobalSeq <$> wantedRows a hs rows).
Proof.
  unfold wantedRows. induction rows as [|e rows IH]; [done|]. rewrite fmap_cons. intros [He Hn]%NoDup_cons.
  rewrite filter_cons. case_decide; [|by apply IH]. rewrite fmap_cons. apply NoDup_cons. split; [|by apply IH].
  intros (x & Hx & [_ Hx']%list_elem_of_filter)%list_elem_of_fmap. apply He. rewrite Hx. by apply list_elem_of_fmap_2.
Qed.

Lemma ordered_sorted rows :
  NoDup (GlobalSeq <$> rows) → StronglySorted Z.lt (seqsOf (orderByGlobal rows)).
Proof.
  intros Hn. apply strictly_ordered; [apply StronglySorted_merge_sort; apply _|].
  unfold orderByGlobal. by rewrite merge_sort_Permutation.
Qed.

(** The batch is the beginning of the wanted rows in order. *)
Lemma batch_split c tk :
  orderByGlobal (wantedRows (position c).1 (position c).2 (visible tk)) =
    batch c tk ++ drop batchSize (orderByGlobal (wantedRows (position c).1 (position c).2 (visible tk))).
Proof. unfold batch, selectRows. by rewrite take_drop. Qed.

Lemma batch_sorted c tk : wf_rows (visible tk) → StronglySorted Z.lt (seqsOf (batch c tk)).
Proof.
  intros [Hn _]. pose proof (ordered_sorted _ (wantedRows_nodup (position c).1 (position c).2 _ Hn)) as Hs.
  rewrite batch_split in Hs. unfold seqsOf in *. rewrite fmap_app in Hs. by eapply StronglySorted_app_1_l.
Qed.

Lemma elem_of_wanted c tk e :
  e ∈ orderByGlobal (wantedRows (position c).1 (position c).2 (visible tk)) ↔
    e ∈ visible tk ∧ (after c < GlobalSeq e ∨ is_Some (holes c !! GlobalSeq e)).
Proof.
  unfold orderByGlobal, wantedRows. rewrite merge_sort_Permutation, list_elem_of_filter, position_holes. simpl. tauto.
Qed.

Lemma batch_wanted c tk e :
  e ∈ batch c tk → e ∈ visible tk ∧ (after c < GlobalSeq e ∨ is_Some (holes c !! GlobalSeq e)).
Proof. intros He. apply elem_of_wanted. rewrite batch_split. apply elem_of_app. by left. Qed.

(** A row that is asked for and not read is behind a full batch. *)
Lemma batch_missed c tk e :
  wf_rows (visible tk) → e ∈ visible tk → (after c < GlobalSeq e ∨ is_Some (holes c !! GlobalSeq e)) →
  GlobalSeq e ∉ seqsOf (batch c tk) →
  length (batch c tk) = batchSize ∧ ∀ q, q ∈ seqsOf (batch c tk) → q < GlobalSeq e.
Proof.
  intros [Hn _] Hv Hw Hout.
  pose proof (ordered_sorted _ (wantedRows_nodup (position c).1 (position c).2 _ Hn)) as Hs.
  assert (e ∈ drop batchSize (orderByGlobal (wantedRows (position c).1 (position c).2 (visible tk)))) as Hd.
  { pose proof (proj2 (elem_of_wanted c tk e) (conj Hv Hw)) as He. rewrite batch_split in He.
    apply elem_of_app in He as [He|He]; [|done]. destruct Hout. by apply list_elem_of_fmap_2. }
  split.
  - unfold batch, selectRows. rewrite length_take. apply Nat.min_l.
    apply list_elem_of_lookup_1 in Hd as [i Hi]. rewrite lookup_drop in Hi. apply lookup_lt_Some in Hi. lia.
  - intros q Hq. rewrite batch_split in Hs. unfold seqsOf in *. rewrite fmap_app in Hs.
    eapply StronglySorted_app_1_elem_of; [exact Hs|done|by apply list_elem_of_fmap_2].
Qed.

(** A number that was passed although it was asked for is not in the log. *)
Lemma batch_skips c tk s q :
  wf_rows (visible tk) → after c < s → q ∈ seqsOf (batch c tk) → s < q → s ∉ seqsOf (batch c tk) →
  ¬ shows (visible tk) s.
Proof.
  intros Hwf Ha Hq Hsq Hs [e [He <-]].
  destruct (batch_missed c tk e) as [_ Hlt]; [done|done|by left|done|]. specialize (Hlt q Hq). lia.
Qed.

(** ** What a sequence of polls reads *)

Definition next (c : cursor) (tk : tick) : cursor := advance c (seqsOf (batch c tk)) (clock tk).

Definition watch (c : cursor) (ticks : list tick) : cursor := foldl next c ticks.

Fixpoint delivered (c : cursor) (ticks : list tick) : list Event :=
  match ticks with [] => [] | tk :: rest => batch c tk ++ delivered (next c tk) rest end.

Lemma delivered_snoc c ticks tk : delivered c (ticks ++ [tk]) = delivered c ticks ++ batch (watch c ticks) tk.
Proof.
  revert c. induction ticks as [|tk' ticks IH]; intros c; simpl; [by rewrite app_nil_r|]. by rewrite IH, app_assoc.
Qed.

Lemma watch_snoc c ticks tk : watch c (ticks ++ [tk]) = next (watch c ticks) tk.
Proof. unfold watch. by rewrite foldl_app. Qed.

(** More than [maxTrackedGap] numbers around [s] were missing from the log. *)
Definition emptyRange (tk : tick) (s : Z) : Prop :=
  ∃ p q, p < s < q ∧ maxTrackedGap < q - p - 1 ∧ ∀ x, p < x < q → ¬ shows (visible tk) x.

(** [s] was missing from the log more than the grace period ago and is still
    missing, or is behind a full batch. *)
Definition overdue (c : cursor) (earlier : list tick) (tk : tick) (s : Z) : Prop :=
  ∃ tk', tk' ∈ earlier ++ [tk] ∧ ¬ shows (visible tk') s ∧ grace c < Sub (clock tk) (clock tk') ∧
    (¬ shows (visible tk) s ∨ length (batch c tk) = batchSize).

(** A poll gave up on [s]. *)
Definition lost (c : cursor) (ticks : list tick) (s : Z) : Prop :=
  ∃ pre tk post, ticks = pre ++ tk :: post ∧ s ∉ seqsOf (batch (watch c pre) tk) ∧
    (emptyRange tk s ∨ overdue (watch c pre) pre tk s).

Lemma lost_more c ticks more s : lost c ticks s → lost c (ticks ++ more) s.
Proof. intros (pre & tk & post & -> & H). exists pre, tk, (post ++ more). by rewrite <- app_assoc. Qed.

Record accounted (c0 : cursor) (ticks : list tick) (c : cursor) (d : list Event) : Prop := {
  a_bounded : bounded c;
  a_after : after c0 ≤ after c;
  a_holes : ∀ s o, holes c !! s = Some o →
    after c0 < s ∧ s ∉ seqsOf d ∧ ∃ tk, tk ∈ ticks ∧ clock tk = o ∧ ¬ shows (visible tk) s;
  a_read : ∀ e, e ∈ d → after c0 < GlobalSeq e ≤ after c ∧ ∃ tk, tk ∈ ticks ∧ e ∈ visible tk;
  a_once : NoDup (seqsOf d);
  a_cover : ∀ s, after c0 < s ≤ after c → s ∈ seqsOf d ∨ is_Some (holes c !! s) ∨ lost c0 ticks s
}.

Lemma expire_lookup now c s o :
  holes (expire now c) !! s = Some o ↔ holes c !! s = Some o ∧ ¬ grace c < Sub now o.
Proof. simpl. by rewrite map_lookup_filter_Some. Qed.

Section one_poll.
Context (c0 : cursor) (ticks : list tick) (tk : tick).
Let c := watch c0 ticks.
Let d := delivered c0 ticks.
Let c' := foldl (see (clock tk)) c (seqsOf (batch c tk)).
Context (Hstart : 0 ≤ after c0) (Hwf : wf_rows (visible tk)) (Hacc : accounted c0 ticks c d).

Lemma poll_passed : passed (clock tk) (seqsOf (batch c tk)) c c'.
Proof.
  apply foldl_passed; [apply Hacc| |by apply batch_sorted|].
  - pose proof (a_after _ _ _ _ Hacc). lia.
  - intros q (e & -> & He)%list_elem_of_fmap. apply batch_wanted in He as [He _]. by apply Hwf.
Qed.

(** A number the poll has just opened as a hole is not in the log. *)
Lemma opened_unseen s : after c < s → s < after c' → s ∉ seqsOf (batch c tk) → ¬ shows (visible tk) s.
Proof.
  intros Hs Hs' Hout. destruct poll_passed as [_ _ [Heq|Hl] _ _ _ _]; [lia|].
  eapply batch_skips; [done|done|exact Hl|done|done].
Qed.

Lemma poll_holes s o :
  holes c' !! s = Some o →
  after c0 < s ∧ s ∉ seqsOf (d ++ batch c tk) ∧ s ∉ seqsOf (batch c tk) ∧
  (∃ tk', tk' ∈ ticks ++ [tk] ∧ clock tk' = o ∧ ¬ shows (visible tk') s) ∧
  (¬ shows (visible tk) s ∨ length (batch c tk) = batchSize).
Proof.
  intros Ho. unfold seqsOf at 1. rewrite fmap_app, not_elem_of_app. pose proof (a_after _ _ _ _ Hacc) as Ha.
  destruct poll_passed as [_ Hmono _ _ Hold Hnew _]. destruct (decide (s ≤ after c)) as [Hs|Hs].
  - rewrite Hold in Ho by done. case_bool_decide as Hb; [done|].
    destruct (a_holes _ _ _ _ Hacc s o Ho) as (H1 & H2 & tk' & H3 & H4 & H5).
    split_and!; [done|done|done|done| |].
    + exists tk'. rewrite elem_of_app. tauto.
    + destruct (decide (length (batch c tk) = batchSize)) as [?|Hl]; [by right|left]. intros [e [He <-]].
      destruct (batch_missed c tk e); [done|done|right; by eexists|done|done].
  - destruct (Hnew s o) as (-> & Hb & Hlt); [lia|done|].
    pose proof (opened_unseen s ltac:(lia) Hlt Hb) as Hno. split_and!; [lia| |done|done| |by left].
    + intros (e & -> & He)%list_elem_of_fmap. destruct (a_read _ _ _ _ Hacc e He) as [? _]. lia.
    + exists tk. rewrite elem_of_app, list_elem_of_singleton. tauto.
Qed.

Lemma poll_read e : e ∈ batch c tk → after c0 < GlobalSeq e ≤ after c' ∧ e ∈ visible tk ∧ GlobalSeq e ∉ seqsOf d.
Proof.
  intros He. destruct (batch_wanted c tk e He) as [Hv Hw]. pose proof (a_after _ _ _ _ Hacc) as Ha.
  destruct poll_passed as [_ _ _ Hall _ _ _].
  assert (GlobalSeq e ≤ after c') by (apply Hall; by apply list_elem_of_fmap_2). destruct Hw as [Hw|[o Ho]].
  - split_and!; [lia|done|done|]. intros (x & Hx & Hin)%list_elem_of_fmap.
    destruct (a_read _ _ _ _ Hacc x Hin) as [? _]. lia.
  - destruct (a_holes _ _ _ _ Hacc _ _ Ho) as (H1 & H2 & _). done.
Qed.

Lemma poll_cover s :
  after c0 < s ≤ after c' →
  s ∈ seqsOf (d ++ batch c tk) ∨ is_Some (holes c' !! s) ∨ lost c0 (ticks ++ [tk]) s.
Proof.
  intros Hs. unfold seqsOf. rewrite fmap_app, elem_of_app. destruct poll_passed as [_ _ _ _ Hold _ Hcov].
  destruct (decide (s ≤ after c)) as [Hle|Hgt].
  - destruct (a_cover _ _ _ _ Hacc s) as [?|[Hh|?]]; [lia|tauto| |].
    + rewrite Hold by done. case_bool_decide; tauto.
    + do 2 right. by apply lost_more.
  - destruct (Hcov s) as [?|[Hh|(p & q & Hp & Hpq & Hq & Hw & Hno)]]; [lia|tauto|right; left; by eexists|].
    destruct (decide (s ∈ seqsOf (batch c tk))) as [?|Hout]; [tauto|]. do 2 right.
    exists ticks, tk, []. split_and!; [done|done|left]. exists p, q. split_and!; [lia..|].
    intros x Hx. apply (batch_skips c tk x q); [done|lia|exact Hq|lia|]. intros Hin. by apply (Hno x).
Qed.

Lemma poll_accounted : accounted c0 (ticks ++ [tk]) (next c tk) (d ++ batch c tk).
Proof.
  pose proof poll_passed as Hp. change (next c tk) with (expire (clock tk) c'). split.
  - intros s [o [Ho _]%expire_lookup]. change (s ≤ after c'). eapply passed_bounded; [exact Hp|by eexists].
  - pose proof (a_after _ _ _ _ Hacc). pose proof (p_after _ _ _ _ Hp). simpl. lia.
  - intros s o [Ho _]%expire_lookup. destruct (poll_holes s o Ho) as (?&?&?&?&?). done.
  - intros e [He|He]%elem_of_app.
    + destruct (a_read _ _ _ _ Hacc e He) as [? (tk' & ? & ?)]. pose proof (p_after _ _ _ _ Hp). split; [simpl; lia|].
      exists tk'. rewrite elem_of_app. tauto.
    + destruct (poll_read e He) as (?&?&_). split; [done|]. exists tk.
      rewrite elem_of_app, list_elem_of_singleton. tauto.
  - unfold seqsOf. rewrite fmap_app. apply NoDup_app. split_and!; [apply Hacc| |].
    + intros x Hx (e & -> & He)%list_elem_of_fmap. by destruct (poll_read e He) as (_&_&?).
    + pose proof (batch_sorted c tk Hwf) as Hs. by apply sorted_NoDup.
  - intros s Hs. destruct (poll_cover s Hs) as [?|[[o Ho]|?]]; [tauto| |tauto].
    destruct (decide (grace c' < Sub (clock tk) o)) as [Hx|Hx].
    + do 2 right. destruct (poll_holes s o Ho) as (_&_&Hb&(tk' & ? & <- & ?)&?).
      exists ticks, tk, []. split_and!; [done|done|right]. exists tk'. destruct Hp as [Hg _ _ _ _ _ _].
      rewrite Hg in Hx. done.
    + right; left. exists o. by apply expire_lookup.
Qed.
End one_poll.

Lemma start_accounted c0 : holes c0 = ∅ → accounted c0 [] c0 [].
Proof.
  intros Hh. split.
  - intros s [o Ho]. by rewrite Hh, lookup_empty in Ho.
  - lia.
  - intros s o Ho. by rewrite Hh, lookup_empty in Ho.
  - by intros e He%not_elem_of_nil.
  - constructor.
  - intros s Hs. lia.
Qed.

Lemma watch_accounted c0 ticks :
  0 ≤ after c0 → holes c0 = ∅ → Forall (λ tk, wf_rows (visible tk)) ticks →
  accounted c0 ticks (watch c0 ticks) (delivered c0 ticks).
Proof.
  intros H0 Hh. induction ticks as [|tk ticks IH] using rev_ind; intros Hwf; [by apply start_accounted|].
  apply Forall_app in Hwf as [Hwf Htk]. rewrite Forall_singleton in Htk. rewrite watch_snoc, delivered_snoc.
  exact (poll_accounted _ _ _ H0 Htk (IH Hwf)).
Qed.

(** What of a sequence of events is printed. *)
Definition shown (f : eventFilter) (fl : option (gset string)) (es : list Event) : list Event :=
  (show (λ _, None) f fl es).1.2.
Definition follows (f : eventFilter) (fl : option (gset string)) (es : list Event) : option (gset string) :=
  (show (λ _, None) f fl es).1.1.

Lemma show_ok w f fl es fl' out :
  show w f fl es = (fl', out, Ok tt) → fl' = follows f fl es ∧ out = shown f fl es.
Proof.
  unfold follows, shown. revert fl fl' out. induction es as [|e es IH]; intros fl fl' out; simpl; [by intros [= -> ->]|].
  destruct (admits fl e) as [fl1 ok]. destruct (negb ok || negb (matches f e)); [apply IH|].
  destruct (w e); [done|]. destruct (show w f fl1 es) as [[fl2 out2] r] eqn:Hs.
  intros [= -> <- ->]. destruct (IH _ _ _ Hs) as [Hfl Hout].
  destruct (show (λ _, None) f fl1 es) as [[??]?]. simpl in *. by subst.
Qed.

Lemma shown_app f fl es es' : shown f fl (es ++ es') = shown f fl es ++ shown f (follows f fl es) es'.
Proof.
  unfold follows, shown. revert fl. induction es as [|e es IH]; intros fl; simpl; [done|].
  destruct (admits fl e) as [fl1 ok]. destruct (negb ok || negb (matches f e)); [apply IH|].
  specialize (IH fl1). destruct (show _ f fl1 es) as [[fl2 out2] r], (show _ f fl1 (es ++ es')) as [[fl3 out3] r3].
  simpl in *. by rewrite IH.
Qed.

Lemma poll_ok tk t t' :
  poll tk t = (t', Ok tt) →
  let es := batch (t_cursor t) tk in
  t' = mkTailer (t_filter t) (follows (t_filter t) (t_follow t) es) (next (t_cursor t) tk)
         (printed t ++ shown (t_filter t) (t_follow t) es).
Proof.
  unfold poll, read. simpl. destruct (readFails tk); [done|].
  destruct (show _ _ _ _) as [[fl out] [[]|e]] eqn:Hs; [|done]. intros [= <-]. by destruct (show_ok _ _ _ _ _ _ Hs) as [-> ->].
Qed.

Lemma run_following ticks t t' :
  run false ticks t = (t', None) →
  t_cursor t' = watch (t_cursor t) ticks ∧
  printed t' = printed t ++ shown (t_filter t) (t_follow t) (delivered (t_cursor t) ticks).
Proof.
  revert t. induction ticks as [|tk ticks IH]; intros t; simpl; [intros [= ->]; by rewrite app_nil_r|].
  destruct (poll tk t) as [t1 [[]|e]] eqn:Hp; [|done]. apply poll_ok in Hp as ->.
  destruct (interrupted tk); [done|]. intros [Hc Hpr]%IH. simpl in *. rewrite Hc, Hpr. split; [done|].
  by rewrite shown_app, app_assoc.
Qed.

Lemma follows_app f fl es es' : follows f fl (es ++ es') = follows f (follows f fl es) es'.
Proof.
  unfold follows. revert fl. induction es as [|e es IH]; intros fl; simpl; [done|].
  destruct (admits fl e) as [fl1 ok]. destruct (negb ok || negb (matches f e)); [apply IH|].
  specialize (IH fl1). destruct (show _ f fl1 es) as [[fl2 out2] r], (show _ f fl1 (es ++ es')) as [[fl3 out3] r3].
  simpl in *. by rewrite IH.
Qed.

Lemma show_calm w f fl es : (∀ e, w e = None) → show w f fl es = (follows f fl es, shown f fl es, Ok tt).
Proof.
  intros Hw. unfold follows, shown. revert fl. induction es as [|e es IH]; intros fl; simpl; [done|].
  destruct (admits fl e) as [fl1 ok]. destruct (negb ok || negb (matches f e)); [apply IH|]. rewrite Hw, IH.
  by destruct (show _ f fl1 es) as [[??]?].
Qed.

(** ** Printing what is there *)

(** A turn over a log that holds [rows], in which nothing fails. *)
Definition calm (rows : list Event) (tk : tick) : Prop :=
  visible tk = rows ∧ readFails tk = None ∧ (∀ e, writeFails tk e = None) ∧
  visibleHead tk = rows ∧ headFails tk = None.

Definition newer (start : Z) (rows : list Event) : list Event := filter (λ e, start < GlobalSeq e) rows.

Lemma maxSeq_le rows e : e ∈ rows → GlobalSeq e ≤ maxSeq rows.
Proof. unfold maxSeq. induction 1; simpl; lia. Qed.

Lemma maxSeq_spec rows n : 0 ≤ n → n < maxSeq rows → ∃ e, e ∈ rows ∧ n < GlobalSeq e.
Proof.
  intros H0. induction rows as [|x rows IH]; simpl; [lia|]. intros Hn. destruct (decide (n < GlobalSeq x)).
  - exists x. split; [left|done].
  - destruct IH as [e [He ?]]; [unfold maxSeq in *; lia|]. exists e. split; [by right|done].
Qed.

Lemma same_seq rows e e' : wf_rows rows → e ∈ rows → e' ∈ rows → GlobalSeq e = GlobalSeq e' → e = e'.
Proof.
  intros [Hn _] [i Hi]%list_elem_of_lookup [j Hj]%list_elem_of_lookup Heq.
  assert (i = j) as ->; [|congruence].
  eapply NoDup_lookup; [exact Hn|rewrite list_lookup_fmap, Hi; done|rewrite list_lookup_fmap, Hj; simpl; congruence].
Qed.

Lemma sorted_seqLe es : StronglySorted Z.lt (seqsOf es) → StronglySorted seqLe es.
Proof.
  unfold seqsOf. induction es as [|e es IH]; [constructor|]. rewrite fmap_cons. intros [Hs He]%StronglySorted_inv.
  constructor; [by apply IH|]. rewrite Forall_fmap in He. eapply Forall_impl; [exact He|].
  intros x Hx. unfold seqLe. simpl in Hx. lia.
Qed.

(** An ascending list of the newer rows is the ordered list of them. *)
Lemma ordered_unique start rows es :
  wf_rows rows → StronglySorted Z.lt (seqsOf es) → (∀ e, e ∈ es ↔ e ∈ rows ∧ start < GlobalSeq e) →
  es = orderByGlobal (newer start rows).
Proof.
  intros Hwf Hs Hin. apply (StronglySorted_unique_strong seqLe).
  - intros e e' He He' H1 H2. apply Hin in He as [He _]. unfold orderByGlobal, newer in He'.
    rewrite merge_sort_Permutation, list_elem_of_filter in He'. apply (same_seq rows); [done|done|apply He'|].
    unfold seqLe in *. lia.
  - by apply sorted_seqLe.
  - apply StronglySorted_merge_sort; apply _.
  - unfold orderByGlobal. rewrite merge_sort_Permutation. apply NoDup_Permutation.
    + by eapply NoDup_fmap_1, sorted_NoDup.
    + destruct Hwf as [Hn%NoDup_fmap_1 _]. by apply NoDup_filter.
    + intros e. rewrite Hin. unfold newer. rewrite list_elem_of_filter. tauto.
Qed.

Section once.
Context (rows : list Event) (c0 : cursor).
Context (Hwf : wf_rows rows) (Hstart : 0 ≤ after c0) (Hfresh : holes c0 = ∅).

Lemma calm_accounted ticks : Forall (calm rows) ticks → accounted c0 ticks (watch c0 ticks) (delivered c0 ticks).
Proof.
  intros Hc. apply watch_accounted; [done..|]. eapply Forall_impl; [exact Hc|]. by intros tk [-> _].
Qed.

(** Over a log that does not change no hole is ever filled. *)
Lemma calm_holes ticks s : Forall (calm rows) ticks → is_Some (holes (watch c0 ticks) !! s) → ¬ shows rows s.
Proof.
  intros Hc [o Ho]. destruct (a_holes _ _ _ _ (calm_accounted ticks Hc) s o Ho) as (_ & _ & tk & Htk & _ & Hno).
  rewrite Forall_forall in Hc. by destruct (Hc tk Htk) as [<- _].
Qed.

Lemma calm_complete ticks e :
  Forall (calm rows) ticks → e ∈ rows → after c0 < GlobalSeq e ≤ after (watch c0 ticks) → e ∈ delivered c0 ticks.
Proof.
  intros Hc He Hs. pose proof (calm_accounted ticks Hc) as Hacc.
  assert (∀ tk, tk ∈ ticks → shows (visible tk) (GlobalSeq e)) as Hshow.
  { intros tk Htk. rewrite Forall_forall in Hc. destruct (Hc tk Htk) as [-> _]. by exists e. }
  destruct (a_cover _ _ _ _ Hacc _ Hs) as [(x & Hx & Hin)%list_elem_of_fmap|[Hh|Hl]].
  - destruct (a_read _ _ _ _ Hacc x Hin) as (_ & tk & Htk & Hv). rewrite Forall_forall in Hc.
    destruct (Hc tk Htk) as [Hr _]. rewrite Hr in Hv. by rewrite (same_seq rows e x).
  - destruct (calm_holes ticks _ Hc Hh). by exists e.
  - exfalso. destruct Hl as (pre & tk & post & -> & Hout & [(p & q & Hpq & _ & Hno)|(tk' & Htk' & Hno & _)]).
    + apply (Hno (GlobalSeq e)); [done|]. apply Hshow. rewrite elem_of_app, elem_of_cons. tauto.
    + apply Hno, Hshow. rewrite elem_of_app, list_elem_of_singleton in Htk'. rewrite elem_of_app, elem_of_cons. tauto.
Qed.

Lemma calm_sorted ticks : Forall (calm rows) ticks → StronglySorted Z.lt (seqsOf (delivered c0 ticks)).
Proof.
  induction ticks as [|tk ticks IH] using rev_ind; intros Hc; [constructor|].
  apply Forall_app in Hc as [Hc Htk]. rewrite Forall_singleton in Htk. destruct Htk as [Hv _].
  rewrite delivered_snoc. unfold seqsOf. rewrite fmap_app. apply StronglySorted_app_2; [|by apply IH|].
  - intros x y (e & -> & He)%list_elem_of_fmap (e' & -> & He')%list_elem_of_fmap.
    destruct (a_read _ _ _ _ (calm_accounted ticks Hc) e He) as [? _].
    destruct (batch_wanted _ _ _ He') as [Hin [?|Hh]]; [lia|].
    destruct (calm_holes ticks _ Hc Hh). rewrite Hv in Hin. by exists e'.
  - apply batch_sorted. by rewrite Hv.
Qed.

(** A poll that leaves something behind read a full batch. *)
Lemma calm_full ticks tk :
  Forall (calm rows) ticks → calm rows tk → after (next (watch c0 ticks) tk) < maxSeq rows →
  length (batch (watch c0 ticks) tk) = batchSize.
Proof.
  intros Hc Htk Hm. pose proof (calm_accounted ticks Hc) as Hacc. destruct Htk as [Hv _].
  assert (wf_rows (visible tk)) as Hwf' by by rewrite Hv.
  pose proof (poll_passed c0 ticks tk Hstart Hwf' Hacc) as Hp. pose proof (a_after _ _ _ _ Hacc) as Ha.
  pose proof (p_after _ _ _ _ Hp) as Ha'. unfold next, advance in Hm. simpl in Hm.
  destruct (maxSeq_spec rows (after (foldl (see (clock tk)) (watch c0 ticks) (seqsOf (batch (watch c0 ticks) tk)))))
    as [e [He Hlt]]; [lia|exact Hm|].
  destruct (batch_missed (watch c0 ticks) tk e) as [Hl _]; [done|by rewrite Hv|left; lia| |done].
  intros Hq%(p_all _ _ _ _ Hp). lia.
Qed.

Lemma calm_bounded ticks : Forall (calm rows) ticks → (length (delivered c0 ticks) ≤ length rows)%nat.
Proof.
  intros Hc. apply submseteq_length, NoDup_submseteq.
  - by eapply NoDup_fmap_1, sorted_NoDup, calm_sorted.
  - intros e He. destruct (a_read _ _ _ _ (calm_accounted ticks Hc) e He) as (_ & tk & Htk & Hv).
    rewrite Forall_forall in Hc. by destruct (Hc tk Htk) as [<- _].
Qed.

Lemma once_from f fl rest pre t :
  Forall (calm rows) pre → Forall (calm rows) rest →
  t = mkTailer f (follows f fl (delivered c0 pre)) (watch c0 pre) (shown f fl (delivered c0 pre)) →
  (batchSize * length pre ≤ length (delivered c0 pre))%nat →
  (length rows < batchSize * (length pre + length rest))%nat →
  ∃ t' ticks, run true rest t = (t', Some (Ok tt)) ∧ Forall (calm rows) ticks ∧
    printed t' = shown f fl (delivered c0 ticks) ∧ maxSeq rows ≤ after (watch c0 ticks).
Proof.
  revert pre t. induction rest as [|tk rest IH]; intros pre t Hpre Hrest -> Hlow Hlen.
  { pose proof (calm_bounded pre Hpre). rewrite Nat.add_0_r in Hlen. lia. }
  apply Forall_cons in Hrest as [Htk Hrest].
  assert (Forall (calm rows) (pre ++ [tk])) as Hpre' by (apply Forall_app; by rewrite Forall_singleton).
  pose proof Htk as (Hv & Hr & Hw & Hh & Hf). simpl. unfold poll, read. simpl. rewrite Hr, show_calm by done.
  rewrite Hf, Hh. unfold head. rewrite <- shown_app, <- follows_app.
  change (selectRows _ _ batchSize (visible tk)) with (batch (watch c0 pre) tk).
  change (advance _ _ _) with (next (watch c0 pre) tk). rewrite <- delivered_snoc, <- watch_snoc. simpl.
  destruct (Z.leb_spec (maxSeq rows) (after (watch c0 (pre ++ [tk])))) as [Hle|Hgt].
  { eexists _, (pre ++ [tk]). done. }
  apply (IH (pre ++ [tk])); [done..| |by rewrite length_app, <- Nat.add_assoc].
  rewrite delivered_snoc, !length_app, (calm_full pre tk), Nat.mul_add_distr_l, Nat.mul_1_r; [lia|done..|by rewrite <- watch_snoc].
Qed.
End once.

(** With [-once] over a log that stands still the command returns, after one poll
    per 500 rows, having printed what the follower and the filter admit of exactly
    the rows after the starting point, in the order of the log. *)
Theorem once_prints_log start gr f fl rows ticks :
  0 ≤ start → wf_rows rows → Forall (calm rows) ticks → (length rows < batchSize * length ticks)%nat →
  ∃ t', run true ticks (mkTailer f fl (newCursor start gr) []) = (t', Some (Ok tt)) ∧
    printed t' = shown f fl (orderByGlobal (newer start rows)).
Proof.
  intros H0 Hwf Hc Hlen.
  destruct (once_from rows (newCursor start gr) Hwf H0 eq_refl f fl ticks [] _ (Forall_nil_2 _) Hc eq_refl)
    as (t' & polls & Hrun & Hcalm & Hp & Hmax); [simpl length; by rewrite Nat.mul_0_r|done|].
  exists t'. split; [done|]. rewrite Hp. f_equal. apply ordered_unique; [done|by apply (calm_sorted rows)|].
  intros e. split.
  - intros He. destruct (a_read _ _ _ _ (calm_accounted rows (newCursor start gr) Hwf H0 eq_refl polls Hcalm) e He)
      as ([? _] & tk & Htk & Hv). rewrite Forall_forall in Hcalm. by destruct (Hcalm tk Htk) as [<- _].
  - intros [He Hs]. apply (calm_complete rows); [done..|]. pose proof (maxSeq_le rows e He). simpl. lia.
Qed.

(** C30. However late the rows of concurrent writers become visible, the tail reads no
    event twice and prints, in the order read, what the follower and the filter
    admit. Of the numbers between where it started and where it is, each was read, is
    being asked for again, or was given up for one of two reasons: it lay in a
    stretch of more than 1000 numbers none of which was in the log, or it had been
    missing for longer than the grace period and still was (or was behind a full
    batch of 500). *)
Theorem tail_accounts start gr f fl ticks t' :
  0 ≤ start → Forall (λ tk, wf_rows (visible tk)) ticks →
  run false ticks (mkTailer f fl (newCursor start gr) []) = (t', None) →
  let d := delivered (newCursor start gr) ticks in
  printed t' = shown f fl d ∧ NoDup (GlobalSeq <$> d) ∧
  (∀ e, e ∈ d → start < GlobalSeq e ∧ ∃ tk, tk ∈ ticks ∧ e ∈ visible tk) ∧
  ∀ s, start < s ≤ after (t_cursor t') →
    s ∈ GlobalSeq <$> d ∨ is_Some (holes (t_cursor t') !! s) ∨ lost (newCursor start gr) ticks s.
Proof.
  intros H0 Hwf [Hc Hp]%run_following. simpl in Hc, Hp. rewrite Hc.
  destruct (watch_accounted (newCursor start gr) ticks) as [_ _ _ Hr Hn Hcov]; [done..|].
  split_and!; [done|done| |done]. intros e He. destruct (Hr e He) as [[? _] ?]. done.
Qed.
End events.

(** ** A late row *)

Definition sampleRow (g : Z) : Event :=
  mkEvent _ g "transfer" "" g (EventType (TransferStaged "")) (TransferStaged "") 0.

(** Nothing fails and nothing interrupts. *)
Definition quietTick (rows : list Event) (now : Z) : tick :=
  mkTick rows now None (λ _, None) rows None None.

Definition everything : eventFilter := newFilter "" "".

(** Row 2 becomes visible after row 3 was read. *)
Definition lateTicks : list tick :=
  [quietTick (sampleRow <$> [1; 3]) 0; quietTick (sampleRow <$> [1; 3; 2]) 250].

Definition afterLate : tailer := (run false lateTicks (mkTailer everything None (newCursor 0 5000) [])).1.

Lemma wf_sampleRows gs : NoDup gs → Forall (λ g, 0 < g < 2 ^ 63) gs → wf_rows (sampleRow <$> gs).
Proof.
  intros Hn Hr. split.
  - rewrite <- list_fmap_compose. change (NoDup (id <$> gs)). by rewrite list_fmap_id.
  - intros e (g & -> & Hg)%list_elem_of_fmap. rewrite Forall_forall in Hr. by apply Hr.
Qed.

Lemma tail_accounts_witness :
  GlobalSeq <$> printed afterLate = [1; 3; 2] ∧
  NoDup (GlobalSeq <$> delivered (newCursor 0 5000) lateTicks) ∧
  ∀ s, 0 < s ≤ after (t_cursor afterLate) →
    s ∈ GlobalSeq <$> delivered (newCursor 0 5000) lateTicks ∨
    is_Some (holes (t_cursor afterLate) !! s) ∨ lost (newCursor 0 5000) lateTicks s.
Proof.
  destruct (tail_accounts 0 5000 everything None lateTicks afterLate) as (_ & Hn & _ & Hc).
  - lia.
  - unfold lateTicks. rewrite !Forall_cons. split_and!; [apply wf_sampleRows; decided..|constructor].
  - vm_compute. reflexivity.
  - split; [vm_compute; reflexivity|]. split; [exact Hn|exact Hc].
Defined.

Lemma once_prints_log_witness :
  ∃ t', run true [quietTick (sampleRow <$> [4; 2; 7]) 0] (mkTailer everything None (newCursor 2 5000) []) =
      (t', Some (Ok tt)) ∧ GlobalSeq <$> printed t' = [4; 7].
Proof.
  destruct (once_prints_log 2 5000 everything None (sampleRow <$> [4; 2; 7]) [quietTick (sampleRow <$> [4; 2; 7]) 0])
    as (t' & Hr & Hp).
  - lia.
  - apply wf_sampleRows; decided.
  - repeat constructor.
  - vm_compute. lia.
  - exists t'. split; [exact Hr|]. rewrite Hp. vm_compute. reflexivity.
Defined.

(** A poll that reads a full batch of late rows gives up the ones it did not get to, although
    they are in the log: expiry does not look at what was read. *)
Definition burst : list Z := seqZ 2 1000.
Definition burstTicks : list tick :=
  [quietTick (sampleRow <$> [1; 1002]) 0; quietTick (sampleRow <$> (1 :: burst ++ [1002])) 5001].

Lemma burst_dropped :
  shows (visible (quietTick (sampleRow <$> (1 :: burst ++ [1002])) 5001)) 700 ∧
  after (watch (newCursor 0 5000) burstTicks) = 1002 ∧
  holes (watch (newCursor 0 5000) burstTicks) = ∅ ∧
  700 ∉ seqsOf (delivered (newCursor 0 5000) burstTicks).
Proof.
  split_and!.
  - exists (sampleRow 700). split; [|done].
    apply list_elem_of_fmap_2, elem_of_cons. right. apply elem_of_app. left. apply elem_of_seqZ. lia.
  - vm_compute. reflexivity.
  - vm_compute. reflexivity.
  - decided.
Qed.
